(* ===== verification/_CoqProject ===== *)
-Q . S2P
Prelude.v
Bytes.v
Bufpool.v
Consistent.v
Hash.v
ConsistentSpec.v
Table.v
Storage.v
Merge.v
MergeSched.v
StorageTypes.v
Protocol.v
Locker.v
KV.v
Snapshot.v
SnapshotSpec.v
Cluster.v
Transport.v
Server.v
DMap.v
DMapLock.v
Routing.v
Lifecycle.v
Fsck.v
Discovery.v
Dispatch.v
Client.v
Eviction.v
GoText.v
Cli.v
Serializers.v
Olricd.v
Setup.v
NodeSpec.v
OlricdSpec.v
SetupSpec.v
SerializersSpec.v
DiscoverySpec.v
EvictionSpec.v
LifecycleSpec.v
ClusterSpec.v
AtomicSpec.v
CounterSpec.v
ClientSpec.v
CliSpec.v
TransportSpec.v
MapSpec.v
ClusterExample.v
SnapshotExample.v
RoutingSpec.v
FsckSpec.v
MoveSpec.v
DestroySpec.v
TransitSpec.v
RebalanceSpec.v
MoveExample.v
EvictionExample.v
DiscoveryExample.v
SetupExample.v
SerializersExample.v
SpecExamples.v
RebalanceExample.v
CliExample.v
