(* ===== verification/Prelude.v ===== *)
(** * Verification of Olric

    Olric ([src/]) is a distributed in-memory key/value store written in Go.  A node keeps
    distributed maps; a key is hashed to a partition, a partition has an owner and backup
    owners, and the nodes of a cluster exchange requests in a binary protocol.

    ** Parts of the program and files of the development

    - [Prelude.v]: run-time results of Go calls ([comp]: returns, panics, still running),
      machine integers, doubles, iteration over Go maps, list and map lemmas, tactics.
    - [Bytes.v]: bytes, big-endian integers, slices and the memory of a table.
    - [Bufpool.v] ([Module bufpool]): [internal/bufpool], the pool of buffers and the
      goroutines that use it.
    - [Consistent.v], [ConsistentSpec.v]: the hash ring, the vendored package [consistent]
      ([Module consistent]; [Add], [Remove], [distributePartitions], [getClosestN]).
    - [Hash.v] ([Module xxhash]): [hash.go] and the vendored XXH64 behind the default hasher.
    - [Table.v] ([Module table]): [internal/storage/table.go], one table of entries in
      mapped memory.
    - [Storage.v] ([Module storage]): [internal/storage/storage.go], the list of tables;
      [StorageTypes.v]: type safety of programs of storage operations.
    - [Merge.v], [MergeSched.v]: [internal/storage/merge.go], the compaction as one call and
      as goroutines interleaved with the operations and with [Close]; the two deferred calls
      on the way out are two steps.
    - [Protocol.v] ([Module protocol]): [internal/protocol/protocol.go].
    - [Locker.v] ([Module locker]): [locker.go], named locks on a heap of counters and
      channels, as calls and as interleaved goroutines.
    - [KV.v]: the interface [KV]/[KVLaws] between a map and its store, and its
      implementation by [Storage.v].
    - [Snapshot.v], [SnapshotSpec.v] ([Module snapshot]): [internal/snapshot], the operation
      log, the synchronisation to BadgerDB, the workers and the loader.
    - [Cluster.v] ([Module olric]): the state of a node and of a cluster, location of keys,
      creation of maps, requests ([olric.go], [internal/transport]).
    - [Transport.v], [TransportSpec.v]: the loop of a connection and the client with its
      pools of connections ([internal/transport/client.go] and the vendored [pool]).
    - [Server.v] ([Module server]): the goroutines of [internal/transport/server.go], of its
      connections and of [Shutdown], as a step relation.
    - [DMap.v] ([Module dmaps]): [dmap_put.go], [dmap_get.go], [dmap_delete.go].
    - [DMapLock.v] ([Module dlocks]): [dmap_lock.go], [dmap_atomic.go].
    - [Routing.v] ([Module routing]): [routing.go], the member list and the coordinator of
      [discovery.go], [startDiscovery].
    - [Lifecycle.v], [LifecycleSpec.v]: [Start], [restoreFromSnapshot] and [Shutdown] of a
      node ([olric.go]).
    - [Fsck.v] ([Module fsck]): [fsck.go], [dmap_destroy.go], [deleteStaleDMaps].
    - [Discovery.v], [DiscoverySpec.v]: the rest of [discovery.go], the events of the
      membership on their way from memberlist, during [join] and later, to
      [listenMemberlistEvents].
    - [Dispatch.v] ([Module dispatch]): the table of operations of a node; ties the knot
      between the handlers and the requests they make.
    - [Client.v], [ClientSpec.v]: the external client, [client/client.go].
    - [Eviction.v], [EvictionSpec.v]: [dmap_eviction.go]; [under_range] is the storage as the
      callback of [Range] finds it, whose read lock is taken already.
    - [GoText.v] ([Module gotext]): what the tools use of Go's [strings], [strconv], [time],
      [net] and [flag].
    - [Cli.v], [CliSpec.v] ([Module cli]): the command line client, [cmd/olric-cli]: the
      parsing of the lines, the commands ([put_command], ...), the loop of [Start], [main].
    - [Olricd.v], [OlricdSpec.v] ([Module olricd]): the standalone server, [cmd/olricd]: its
      configuration file, the configurations made from it ([New], [newMemberlistConf]),
      [main], and the goroutines of [Start] and [waitForInterrupt] as a step relation.
    - [Setup.v], [SetupSpec.v] ([Module setup]): [New] of [olric.go] on the configuration of
      the caller ([config.go]), with the logger, its filter ([logutils]), the limit of the
      process and the directories of databases that it has locked; the node itself is made by [New] of [Cluster.v].
    - [Serializers.v], [SerializersSpec.v] ([Module serializers]): [serializers.go] with the
      registry of gob, its format for booleans, integers, [float64], strings and byte slices,
      and the vendored msgpack on values that are not composite;
      [CounterSpec.v]: the counters of [dmap_atomic.go] with msgpack.
    - [NodeSpec.v], [ClusterSpec.v], [AtomicSpec.v], [MapSpec.v], [RoutingSpec.v],
      [FsckSpec.v], [MoveSpec.v], [DestroySpec.v], [TransitSpec.v], [RebalanceSpec.v]: the
      theorems on nodes and clusters; [MapSpec.v] has the abstract map with locks that a
      settled cluster refines, [TransitSpec.v] and [RebalanceSpec.v] the clusters whose
      partitions are moving, which refine a map as well.  [ClusterExample.v],
      [SnapshotExample.v], [EvictionExample.v], [DiscoveryExample.v], [MoveExample.v],
      [RebalanceExample.v], [SetupExample.v], [SerializersExample.v], [CliExample.v],
      [SpecExamples.v]: concrete instances of the theorems.

    ** How the code is modelled

    Integers are [Z] with the conversions of the code written out ([to_unsigned],
    [to_signed]); bytes are [Byte.byte].  Go maps are [gmap]; the order of a [range] over a
    map is a parameter ([RangeOrder]).  A Go error is a value; a run-time panic is [Panic]; a
    call that waits for ever, or that has used up the fuel of an unbounded loop, is
    [Running].  Code that runs on nodes is in the state monad [olric.M] over the cluster: the
    nodes by address, the fate of the next requests ([net]) and the goroutines that outlive
    the call which started them ([tasks]); [MapSpec.v] runs those that free a lock after its
    timeout, and the merges of the storages, between the calls.  Distributed maps are objects of a heap, because
    goroutines share them; their mutex is a flag, and locking it twice blocks.

    A request is encoded by [protocol.Write], decoded by [protocol.Read] on the other side,
    handled there, and answered the same way.  [Cluster.v] makes every request on a fresh
    connection; [pooled_request_is_fresh] shows that the pools make no difference while their
    connections are open and clean.
    Goroutines of an [errgroup] run one after the other in the order in which they are
    started.  A panic of a handler is a panic of the run.  Parameters stand for the hash
    function ([Hasher], of which [Hash.v] has the default instance), the
    serializer of values ([Serializer]; [SerializerLaws] says that it keeps the type of a
    value, and is asked for only where that matters), msgpack ([Codec]) for the data of the
    nodes, what gob writes for values of declared and composite types, the sort of the members
    ([BirthdateSort]), the kernel ([Kernel]), the texts of foreign errors ([Env]) and BadgerDB ([Badger], with its batches that may refuse an entry or fail to be
    flushed); nodes use the snapshot engine through the interface [Snap], which
    [Snapshot.v] implements.

    ** Fuel

    The loop of [Put] and [PutRaw] has fuel 2 on a node: [Put_correct] and
    [storage_type_safe] show that two rounds are enough for every entry that fits,
    [Put_oversized_never_returns] that no number is for the others.  The loop of the merge
    goroutine has fuel; [mergeTables_terminates] shows that some fuel is always enough.
    [serve] has fuel for requests made while a request is served: two levels are enough for
    put, get and delete (a request to the owner, and the owner's requests to the backups),
    and the theorems hold for every larger fuel.  The restoration of a node takes one round
    per map ([restoreFromSnapshot_correct]), the loop of a connection one per request
    ([connection_answers_in_order]), and the eviction of a map no more rounds than it has
    keys ([eviction_removes_expired_keys]).

    ** What the theorems show

    - Cluster: on a settled cluster (every node has the same routing table and no partition
      is moving) put, get, delete, lock, unlock, [GetPut], [Incr], [Decr], the passing of
      time, the timeouts of the locks and the merges in the background implement one finite
      map with expiring bindings and locks, from any node ([cluster_refines_map]; for one call from any state [Put_then_Get], [Delete_then_Get],
      [Get_correct], [Put_leaves_other_bindings], [Lock_excludes], [Incr_Decr_correct],
      [GetPut_correct], [Incr_mismatched_type]); what is lost on the way
      ([PutEx_never_expires_on_backups], [colliding_keys_share_their_value]).
    - Moving and destroying maps: [fsck] hands the partitions of a node over to their new
      owners and changes no other binding ([fsck_hands_over]); whatever is put, read and
      deleted on the nodes before, between and after the moves is answered as by one map
      ([rebalancing_refines_map], [Get_survives_rebalancing]); [Destroy] removes a map everywhere
      ([Destroy_removes_map]); what goes wrong ([big_map_never_moves],
      [moved_map_is_not_counted], [moved_map_crashes_on_put]).
    - Storage and table: every operation preserves the invariant (the layout of entries, the
      accounting of bytes) and implements the abstract map ([put_correct], [delete_correct],
      [Put_correct], [PutRaw_correct], [Get_GetRaw_Check_correct], [Delete_correct],
      [Export_Import_roundtrip], [garbage_ratio_exact]); no program of them panics
      ([storage_type_safe]); where several tables hold a key the order of the tables is not
      respected ([Delete_uncovers_older_copy], [merge_restores_overwritten_value]).
    - Merge: it keeps the map, terminates and runs at most once ([chunkedMergeTables_correct],
      [mergeTables_terminates], [one_merge_goroutine]); its races ([Close_deadlocks],
      [growth_during_exit_is_not_merged], [merge_starts_before_the_last_has_left]).
    - Snapshots: what is synchronised is restored ([sync_then_load],
      [restoreFromSnapshot_correct]); what is not ([unsynced_map_blocks_the_loader],
      [failed_flush_forgets_changes], [maps_share_their_keys_on_disk],
      [reregistered_partition_has_no_worker]).
    - Protocol and transport: [Read] inverts [Write] and accepts no truncated message
      ([Read_Write_roundtrip], [Read_truncated]); a connection answers its requests in order
      and pools of connections are invisible ([connection_answers_in_order],
      [pooled_request_is_fresh]) unless a response is too big
      ([big_value_forges_the_next_response]) or the server has closed a connection
      ([dead_connection_stays_in_the_pool]); what a malformed header does
      ([Read_negative_vlen_panics], [Read_value_too_big]).
    - Server: [Shutdown] waits for the goroutines of every connection that has been handed
      over, and these drain as far as operations and writes return
      ([Shutdown_waits_for_goroutines], [Shutdown_drains]); its races
      ([Shutdown_cuts_a_request], [accept_during_shutdown_hangs]).
    - Client: each call does what the call of the same name does on the node it reaches
      ([Client_agrees], [Client_Put_then_Get]), but most of them report success whatever the
      node answers ([Client_hides_errors]).
    - Eviction: it ends and removes expired keys only, if no key is stored twice and no writer
      waits for the storage ([eviction_removes_expired_keys]); otherwise it may delete a live
      value ([eviction_deletes_a_live_value]) or wait for ever ([eviction_deadlocks]).
    - Locker: mutual exclusion and no leak for any number of goroutines; the timeouts of a
      lock that is handed over are confused ([handover_confuses_timeouts]).
    - Ring and routing: every partition has an owner and no member more than the average
      load ([Add_correct], [Remove_correct]), the backups are distinct
      ([getClosestN_correct]), the coordinator is agreed, computes the owner lists exactly
      ([distributePrimaryCopies_correct], [distributeBackups_correct]) and the nodes install
      them ([updateRouting_installs]); the cases in which it crashes
      ([crowded_ring_panics], [distributePrimaryCopies_panics], [distributeBackups_panics]).
    - Discovery: the events of memberlist reach the listener in their order
      ([events_reach_the_listener]) and the ring follows them ([ring_follows_members]);
      [join] and [shutdown] may hang ([join_hangs], [discovery_shutdown_hangs]).
    - Hash and buffers: the one-shot digest is the one of the stream
      ([xxhash_stream_agrees]); a buffer from the pool is empty and exclusive
      ([bufpool_exclusive]).
    - Tools: each command of the terminal makes the call of its name
      ([commands_make_calls]), end to end in [cli_session], but keys are damaged by the way
      a line is cut ([put_damages_keys]); the server is configured exactly as its file says
      ([olricd_New_correct], [olricd_builds_node]); the environment variable it ignores and the signal that
      comes too early ([main_ignores_environment], [early_signal_crashes]).

    - New nodes and serializers: which configurations [New] accepts, what it makes of them and
      of the process, and what a second call does ([New_correct]); the levels that are hidden
      ([info_hides_errors]).  What the serializers keep of a value ([serializers_correct]),
      when gob takes the process down ([gob_pointer_panics]), and why msgpack cannot count
      ([msgpack_int_is_not_counted]).

    ** Not modelled

    Tickers that only call modelled functions, the gossip of memberlist, what is logged, the
    assembly version of the hash function, what gob writes for values of declared and composite
    types, the composite values of msgpack, [encoding/json], the decoder of configuration files, the completion of the
    terminal, and the libraries behind the parameters.  The aliasing of the value that
    [Storage.Get] returns with the mapped memory is not modelled.

    The calls of a program on a cluster run one after the other: what interleaves with them are
    the timers of the locks and the merges.  A timer fires at any time while its lock is held;
    its duration is not tied to the clocks of the nodes.  The abstract maps allow a delete, and
    a merge, only where no binding has replaced another, because the storage then brings old
    values back.  The abstract map of a moving cluster has no locks and no backups, and its
    clocks agree: [moveDMap] removes a backup after the first of its new owners has received
    it, so that moves of backups refine no such map.  The eviction is proved on a node without
    backups. *)

From stdpp Require Export base tactics option list gmap fin_maps.
From Stdlib Require Export ZArith Lia.

#[global] Open Scope Z_scope.

(** ** Computations of the Go code

    A Go call either returns, panics at run time (an index or a slice out of
    range, an explicit [panic], ...), or has not returned yet when the fuel
    that bounds an unbounded loop is used up.  Go's [error] values are ordinary
    results and do not appear here. *)
Inductive comp (A : Type) : Type :=
  | Return (x : A)
  | Panic
  | Running.
Arguments Return {A} x.
Arguments Panic {A}.
Arguments Running {A}.

#[export] Instance comp_ret : MRet comp := fun A x => Return x.
#[export] Instance comp_bind : MBind comp := fun A B k m =>
  match m with
  | Return x => k x
  | Panic => Panic
  | Running => Running
  end.

(** [checked b k] is a run-time bounds check: the Go run-time panics when
    the condition [b] is false. *)
Definition checked {A} (b : bool) (k : comp A) : comp A :=
  if b then k else Panic.

(** [m ⇓ x]: the computation returns [x]. *)
Declare Scope go_scope.
Delimit Scope go_scope with go.
Notation "m ⇓ x" := (m = Return x) (at level 70, no associativity) : go_scope.
#[global] Open Scope go_scope.

Lemma bind_return {A B} (x : A) (k : A → comp B) : mbind k (Return x) = k x.
Proof. done. Qed.

Lemma bind_assoc {A B C} (m : comp A) (f : A → comp B) (g : B → comp C) :
  (y ← (x ← m; f x); g y) = (x ← m; y ← f x; g y).
Proof. by destruct m. Qed.

Lemma bind_Return_inv {A B} (m : comp A) (k : A → comp B) y :
  (x ← m; k x) ⇓ y → ∃ x, m ⇓ x ∧ k x ⇓ y.
Proof. destruct m; naive_solver. Qed.

Lemma checked_true {A} b (k : comp A) : b = true → checked b k = k.
Proof. by intros ->. Qed.

Lemma checked_false {A} b (k : comp A) : b = false → checked b k = Panic.
Proof. by intros ->. Qed.

Lemma checked_Return_inv {A} b (k : comp A) y :
  checked b k ⇓ y → b = true ∧ k ⇓ y.
Proof. by destruct b. Qed.

(** [go_inv H] splits an equation [H : m = Return y] over a chain of binds and
    run-time checks. *)
Ltac go_inv H :=
  lazymatch type of H with
  | mbind _ _ = Return _ =>
      let x := fresh "x" in let H1 := fresh "H" in let H2 := fresh "H" in
      apply bind_Return_inv in H as (x & H1 & H2); go_inv H1; go_inv H2
  | checked _ _ = Return _ =>
      let H1 := fresh "H" in let H2 := fresh "H" in
      apply checked_Return_inv in H as [H1 H2]; go_inv H2
  | _ => simplify_eq/=
  end.

(** ** Machine integers *)

(** The value of the conversion [uint64(z)], [uint32(z)], ... *)
Definition to_unsigned (w z : Z) : Z := z mod 2 ^ w.

(** The value of the conversion [int64(z)] and of wrapping [int] arithmetic. *)
Definition to_signed (w z : Z) : Z :=
  let u := z mod 2 ^ w in if u <? 2 ^ (w - 1) then u else u - 2 ^ w.

Definition in_int64 (z : Z) : Prop := - 2 ^ 63 ≤ z < 2 ^ 63.
Definition in_uint64 (z : Z) : Prop := 0 ≤ z < 2 ^ 64.

Lemma to_signed_unsigned z : in_int64 z → to_signed 64 (to_unsigned 64 z) = z.
Proof.
  unfold in_int64, to_signed, to_unsigned. intros ?.
  rewrite Z.mod_mod by lia. change (64 - 1) with 63.
  destruct (decide (0 ≤ z)).
  - rewrite Z.mod_small by lia. destruct (Z.ltb_spec z (2 ^ 63)); lia.
  - assert (z mod 2 ^ 64 = z + 2 ^ 64) as ->.
    { symmetry. apply Z.mod_unique with (-1); lia. }
    destruct (Z.ltb_spec (z + 2 ^ 64) (2 ^ 63)); lia.
Qed.

Lemma to_signed_range z : in_int64 (to_signed 64 z).
Proof.
  unfold in_int64, to_signed. change (64 - 1) with 63.
  pose proof (Z.mod_pos_bound z (2 ^ 64)).
  destruct (Z.ltb_spec (z mod 2 ^ 64) (2 ^ 63)); lia.
Qed.

Lemma in_int64_quot z d : in_int64 z → 0 < d → in_int64 (Z.quot z d).
Proof.
  unfold in_int64. intros Hz Hd. destruct (decide (0 ≤ z)).
  - pose proof (Z.quot_pos z d). pose proof (Z.quot_le_upper_bound z d z). nia.
  - replace z with (- (- z)) by lia. rewrite Z.quot_opp_l by lia.
    pose proof (Z.quot_pos (- z) d). pose proof (Z.quot_le_upper_bound (- z) d (- z)). nia.
Qed.

Lemma to_unsigned_small w z : 0 ≤ z < 2 ^ w → to_unsigned w z = z.
Proof. apply Z.mod_small. Qed.

Lemma to_unsigned_range w z : 0 ≤ w → 0 ≤ to_unsigned w z < 2 ^ w.
Proof. intros. apply Z.mod_pos_bound. lia. Qed.

(** Rounding of a product of doubles, scaled to an integer, to 53 significant bits: to
    nearest, and to even on ties. *)
Definition round53 (p : Z) : Z :=
  let e := Z.max 0 (Z.log2 p - 52) in
  let q := p / 2 ^ e in
  let r := p mod 2 ^ e in
  let q := if (2 ^ e <? 2 * r) || ((2 * r =? 2 ^ e) && Z.odd q)
           then q + 1 else q in
  q * 2 ^ e.

Lemma round53_exact p : 0 ≤ p < 2 ^ 53 → round53 p = p.
Proof.
  intros Hp. unfold round53. assert (Z.max 0 (Z.log2 p - 52) = 0) as ->.
  { destruct (decide (p = 0)) as [->|Hne]; [done|].
    assert (Z.log2 p < 53) by (apply Z.log2_lt_pow2; lia). lia. }
  change (2 ^ 0) with 1. rewrite Z.mod_1_r, Z.div_1_r. simpl. lia.
Qed.

(** The built-in [len] of a slice, a string or a map is an [int]. *)
Definition len {A} (l : list A) : Z := Z.of_nat (length l).

Lemma len_nonneg {A} (l : list A) : 0 ≤ len l.
Proof. unfold len. lia. Qed.

Lemma len_app {A} (l1 l2 : list A) : len (l1 ++ l2) = len l1 + len l2.
Proof. unfold len. rewrite length_app. lia. Qed.

(** The facts on lengths that arithmetic needs; [len_lia] is [lia] with them. *)
Create HintDb go.
Create Rewrite HintDb go.
#[export] Hint Resolve len_nonneg : go.
#[export] Hint Rewrite @len_app : go.

Ltac len_lia :=
  autorewrite with go in *;
  repeat match goal with
  | |- context [len ?l] =>
      lazymatch goal with _ : 0 ≤ len l |- _ => fail | _ => pose proof (len_nonneg l) end
  | _ : context [len ?l] |- _ =>
      lazymatch goal with _ : 0 ≤ len l |- _ => fail | _ => pose proof (len_nonneg l) end
  end; lia.

(** ** Boolean tests *)

(** Turns the boolean comparisons of the code into propositions. *)
Ltac zbool :=
  repeat match goal with
  | H : (_ && _) = true |- _ => apply andb_true_iff in H as [? ?]
  | H : (_ || _) = false |- _ => apply orb_false_iff in H as [? ?]
  | H : negb _ = true |- _ => apply negb_true_iff in H
  | H : negb _ = false |- _ => apply negb_false_iff in H
  | H : (_ <? _) = true |- _ => apply Z.ltb_lt in H
  | H : (_ <? _) = false |- _ => apply Z.ltb_ge in H
  | H : (_ <=? _) = true |- _ => apply Z.leb_le in H
  | H : (_ <=? _) = false |- _ => apply Z.leb_gt in H
  | H : (_ =? _) = true |- _ => apply Z.eqb_eq in H
  | H : (_ =? _) = false |- _ => apply Z.eqb_neq in H
  end.

(** Discharges a run-time check whose condition follows from the context. *)
Ltac check_ok :=
  rewrite checked_true; [| solve [rewrite ?andb_true_iff, ?Z.leb_le, ?Z.ltb_lt; lia]].

(** ** The order in which Go ranges over a map

    The language fixes no order for [for k := range m]; a run of the loop visits
    every key once, in some order.  An instance of [RangeOrder] is one choice of
    the run-time: the [n]-th [range] statement executed by an operation visits
    the keys of [m] in the order [range_keys n m]. *)
Class RangeOrder (K : Type) `{Countable K} := {
  range_keys : ∀ {A}, nat → gmap K A → list K;
  range_keys_perm : ∀ {A} n (m : gmap K A), range_keys n m ≡ₚ (map_to_list m).*1
}.

(** The order of the underlying finite map is one such choice. *)
#[export] Program Instance default_range_order `{Countable K} : RangeOrder K | 100 :=
  {| range_keys := fun A n m => (map_to_list m).*1 |}.
Next Obligation. done. Qed.

Section RangeOrder.
Context `{Countable K} `{!RangeOrder K} {A : Type}.
Implicit Types m : gmap K A.

Lemma elem_of_range_keys n m k : k ∈ range_keys n m ↔ is_Some (m !! k).
Proof.
  rewrite range_keys_perm, list_elem_of_fmap. split.
  - intros [[k' x] [-> Hin]]. apply elem_of_map_to_list in Hin. by exists x.
  - intros [x Hx]. exists (k, x). by rewrite elem_of_map_to_list.
Qed.

Lemma NoDup_range_keys n m : NoDup (range_keys n m).
Proof. rewrite range_keys_perm. apply NoDup_fst_map_to_list. Qed.

Lemma range_keys_singleton n k x : range_keys n ({[k := x]} : gmap K A) = [k].
Proof.
  pose proof (range_keys_perm n ({[k := x]} : gmap K A)) as Hp.
  rewrite map_to_list_singleton in Hp. by apply Permutation_singleton_r in Hp.
Qed.

Lemma range_keys_head n m : m ≠ ∅ → ∃ k ks x, range_keys n m = k :: ks ∧ m !! k = Some x.
Proof.
  intros Hm. destruct (range_keys n m) as [|k ks] eqn:Hk.
  - exfalso. apply Hm, map_empty. intros k. apply eq_None_not_Some. intros Hx.
    pose proof (range_keys_perm n m) as Hp. rewrite Hk in Hp. symmetry in Hp.
    apply Permutation_nil_r, fmap_nil_inv, map_to_list_empty_iff in Hp. done.
  - assert (k ∈ range_keys n m) as Hin by (rewrite Hk; apply list_elem_of_here).
    pose proof (range_keys_perm n m) as Hp. rewrite Hp in Hin.
    apply list_elem_of_fmap in Hin as ([k' x] & -> & Hx). apply elem_of_map_to_list in Hx.
    by exists k', ks, x.
Qed.

Lemma length_range_keys n m : length (range_keys n m) = size m.
Proof. by rewrite range_keys_perm, length_fmap, length_map_to_list. Qed.
End RangeOrder.

(** ** Lists *)
Lemma elem_of_concat_map {A B} (f : A → list B) l x b :
  x ∈ l → b ∈ f x → b ∈ concat (map f l).
Proof.
  intros Hx Hb. apply list_elem_of_In, in_concat. exists (f x).
  split; [by apply in_map, list_elem_of_In|by apply list_elem_of_In].
Qed.

(** Lists whose concatenation has no duplicates are disjoint and have none. *)
Lemma concat_apart {A B} (f : A → list B) l x y b :
  NoDup (concat (map f l)) → x ∈ l → y ∈ l → b ∈ f x → b ∈ f y → x = y.
Proof.
  induction l as [|z l IH]; intros Hnd Hx Hy Hbx Hby; [by apply not_elem_of_nil in Hx|].
  cbn [map concat] in Hnd. apply NoDup_app in Hnd as (_ & Hd & Hnd).
  apply elem_of_cons in Hx as [->|Hx], Hy as [->|Hy]; [done|..|by eapply IH].
  - destruct (Hd b Hbx). by eapply elem_of_concat_map.
  - destruct (Hd b Hby). by eapply elem_of_concat_map.
Qed.

Lemma concat_part {A B} (f : A → list B) l x : NoDup (concat (map f l)) → x ∈ l → NoDup (f x).
Proof.
  induction l as [|z l IH]; intros Hnd Hx; [by apply not_elem_of_nil in Hx|].
  cbn [map concat] in Hnd. apply NoDup_app in Hnd as (? & _ & Hnd).
  apply elem_of_cons in Hx as [->|Hx]; auto.
Qed.

(** The entries of a union of maps that are apart. *)
Lemma map_to_list_union {K A} `{Countable K} (m1 m2 : gmap K A) :
  m1 ##ₘ m2 → map_to_list (m1 ∪ m2) ≡ₚ map_to_list m1 ++ map_to_list m2.
Proof.
  intros Hd. apply NoDup_Permutation.
  - apply NoDup_map_to_list.
  - apply NoDup_app. split; [apply NoDup_map_to_list|]. split; [|apply NoDup_map_to_list].
    intros [k x] H1%elem_of_map_to_list H2%elem_of_map_to_list. by eapply map_disjoint_spec.
  - intros [k x]. rewrite elem_of_app, !elem_of_map_to_list. by apply lookup_union_Some.
Qed.

Lemma filter_all {A} (P : A → Prop) `{!∀ x, Decision (P x)} (l : list A) :
  (∀ x, x ∈ l → P x) → filter P l = l.
Proof.
  induction l as [|x l IH]; intros Hall; [done|].
  rewrite filter_cons_True by (apply Hall; by left). f_equal. apply IH.
  intros y Hy. apply Hall. by right.
Qed.

(** ** Sums over maps *)
Definition map_sum {K A} `{Countable K} (f : A → Z) (m : gmap K A) : Z :=
  map_fold (fun _ x acc => f x + acc) 0 m.

Section map_sum.
Context `{Countable K} {A : Type} (f : A → Z).
Implicit Types m : gmap K A.

Lemma map_sum_empty : map_sum f (∅ : gmap K A) = 0.
Proof. apply map_fold_empty. Qed.

Lemma map_sum_insert m k x :
  m !! k = None → map_sum f (<[k:=x]> m) = f x + map_sum f m.
Proof. intros. unfold map_sum. rewrite map_fold_insert_L; [done| |done]. lia. Qed.

Lemma map_sum_delete m k x :
  m !! k = Some x → map_sum f m = f x + map_sum f (delete k m).
Proof.
  intros Hk. rewrite <- (insert_delete_id m k x Hk) at 1.
  apply map_sum_insert, lookup_delete_eq.
Qed.

Lemma map_sum_nonneg m : (∀ x, 0 ≤ f x) → 0 ≤ map_sum f m.
Proof.
  intros Hf. induction m as [|k x m Hk IH] using map_ind; [by rewrite map_sum_empty|].
  rewrite map_sum_insert by done. specialize (Hf x). lia.
Qed.

Lemma map_sum_ext (g : A → Z) m :
  (∀ k x, m !! k = Some x → f x = g x) → map_sum f m = map_sum g m.
Proof.
  induction m as [|k x m Hk IH] using map_ind; intros Hfg; [done|].
  unfold map_sum in *. rewrite !map_fold_insert_L by (done || lia).
  rewrite (Hfg k x), IH; [done| |by simplify_map_eq].
  intros k' x' ?. apply (Hfg k'). by rewrite lookup_insert_ne by congruence.
Qed.
End map_sum.
