(* ===== verification/Bytes.v ===== *)
(** Bytes, big-endian integers and byte-addressed memory.

    Models what the source uses of Go's [byte], of the package
    [encoding/binary] (big-endian order) and of a [[]byte] that is the result of
    an anonymous [mmap]: a zero-initialised array of a fixed length. *)

From Stdlib Require Import Strings.Byte.
From Stdlib Require Export Init.Byte.
From stdpp Require Export pretty.
From S2P Require Export Prelude.

(** ** Bytes *)
#[export] Instance byte_eq_decision : EqDecision byte := Byte.byte_eq_dec.

#[export] Program Instance byte_countable : Countable byte :=
  inj_countable Byte.to_N Byte.of_N _.
Next Obligation. apply Byte.of_to_N. Qed.

#[export] Instance byte_inhabited : Inhabited byte := populate x00.

(** [[]byte(s)] of a literal. *)
Definition text (s : String.string) : list byte := String.list_byte_of_string s.

(** The numeric value of a byte, and the conversion [uint8(z)]. *)
Definition unsigned (b : byte) : Z := Z.of_N (Byte.to_N b).
Definition byte_of_Z (z : Z) : byte :=
  default x00 (Byte.of_N (Z.to_N (z mod 256))).

Lemma unsigned_range b : 0 ≤ unsigned b < 256.
Proof. unfold unsigned. pose proof (Byte.to_N_bounded b). lia. Qed.

Lemma unsigned_byte_of_Z z : unsigned (byte_of_Z z) = z mod 256.
Proof.
  unfold byte_of_Z, unsigned. pose proof (Z.mod_pos_bound z 256).
  destruct (Byte.of_N _) as [b|] eqn:E; simpl.
  - apply Byte.to_of_N in E. lia.
  - apply Byte.of_N_None_iff in E. lia.
Qed.

Lemma byte_of_Z_unsigned b : byte_of_Z (unsigned b) = b.
Proof.
  unfold byte_of_Z. rewrite Z.mod_small by apply unsigned_range.
  unfold unsigned. by rewrite N2Z.id, Byte.of_to_N.
Qed.

(** ** Big-endian integers: [binary.BigEndian] *)
Fixpoint be_encode (n : nat) (z : Z) : list byte :=
  match n with
  | O => []
  | S n => byte_of_Z (z / 256 ^ Z.of_nat n) :: be_encode n z
  end.

Definition be_decode (l : list byte) : Z :=
  foldl (fun acc b => acc * 256 + unsigned b) 0 l.

Lemma length_be_encode n z : length (be_encode n z) = n.
Proof. induction n; simpl; congruence. Qed.

Lemma be_decode_acc l acc :
  foldl (fun acc b => acc * 256 + unsigned b) acc l
  = acc * 256 ^ Z.of_nat (length l) + be_decode l.
Proof.
  unfold be_decode. revert acc. induction l as [|b l IH]; intros acc; simpl.
  - lia.
  - rewrite IH, (IH (0 * 256 + unsigned b)), Nat2Z.inj_succ, Z.pow_succ_r by lia. ring.
Qed.

Lemma be_decode_cons b l :
  be_decode (b :: l) = unsigned b * 256 ^ Z.of_nat (length l) + be_decode l.
Proof. unfold be_decode at 1. simpl. apply be_decode_acc. Qed.

Lemma be_decode_range l : 0 ≤ be_decode l < 256 ^ Z.of_nat (length l).
Proof.
  induction l as [|b l IH]; [done|]. rewrite be_decode_cons.
  simpl length. rewrite Nat2Z.inj_succ, Z.pow_succ_r by lia.
  pose proof (unsigned_range b). nia.
Qed.

(** Decoding what was encoded on [n] bytes gives the integer modulo [256^n]. *)
Lemma be_decode_encode n z : be_decode (be_encode n z) = z mod 256 ^ Z.of_nat n.
Proof.
  induction n as [|n IH]; [by rewrite Z.mod_1_r|]. cbn [be_encode].
  rewrite be_decode_cons, length_be_encode, IH, unsigned_byte_of_Z.
  rewrite Nat2Z.inj_succ, Z.pow_succ_r, (Z.mul_comm 256) by lia.
  rewrite Z.rem_mul_r by lia. ring.
Qed.

(** Encoding on [n] bytes inverts decoding of [n] bytes. *)
Lemma be_encode_decode l : be_encode (length l) (be_decode l) = l.
Proof.
  assert (∀ n a b, be_encode n (a * 256 ^ Z.of_nat n + b) = be_encode n b) as Hadd.
  { induction n as [|n IH]; intros a b; [done|]. cbn [be_encode].
    rewrite Nat2Z.inj_succ, Z.pow_succ_r by lia.
    rewrite Z.mul_assoc, IH. f_equal.
    rewrite Z.div_add_l by lia. unfold byte_of_Z.
    by rewrite Z.add_comm, Z.mod_add. }
  induction l as [|b l IH]; [done|]. rewrite be_decode_cons. cbn [length be_encode].
  rewrite Hadd, IH. f_equal. rewrite Z.div_add_l by lia.
  rewrite Z.div_small by apply be_decode_range.
  by rewrite Z.add_0_r, byte_of_Z_unsigned.
Qed.

#[global] Arguments be_encode : simpl never.
#[global] Arguments be_decode : simpl never.

(** ** Reading consecutive bytes

    A [reader] gives the byte at every address; [read_bytes rd off n] is the
    slice [[off:off+n]]. *)
Abbreviation reader := (Z → byte).

Definition read_bytes (rd : reader) (off : Z) (n : nat) : list byte :=
  (fun i : nat => rd (off + Z.of_nat i)) <$> seq 0 n.

#[global] Arguments read_bytes : simpl never.

Lemma length_read_bytes rd off n : length (read_bytes rd off n) = n.
Proof. unfold read_bytes. by rewrite length_fmap, length_seq. Qed.

Lemma read_bytes_S rd off n :
  read_bytes rd off (S n) = rd off :: read_bytes rd (off + 1) n.
Proof.
  unfold read_bytes. cbn [seq]. rewrite fmap_cons, <- fmap_S_seq.
  rewrite <- list_fmap_compose. f_equal; [f_equal; lia|].
  apply list_fmap_ext. intros i x _. simpl. f_equal. lia.
Qed.

Lemma read_bytes_app rd off n1 n2 :
  read_bytes rd off (n1 + n2)
  = read_bytes rd off n1 ++ read_bytes rd (off + Z.of_nat n1) n2.
Proof.
  revert off. induction n1 as [|n1 IH]; intros off.
  - by rewrite Z.add_0_r.
  - rewrite Nat.add_succ_l, !read_bytes_S, IH. simpl.
    by rewrite Nat2Z.inj_succ, <- Z.add_1_l, Z.add_assoc.
Qed.

Lemma read_bytes_ext rd1 rd2 off1 off2 n :
  (∀ i, 0 ≤ i < Z.of_nat n → rd1 (off1 + i) = rd2 (off2 + i)) →
  read_bytes rd1 off1 n = read_bytes rd2 off2 n.
Proof.
  intros Hext. unfold read_bytes. apply list_fmap_ext. intros j x Hj.
  apply lookup_seq in Hj as [-> ?]. apply Hext. lia.
Qed.

(** The reader of a slice held by a list. *)
Definition list_reader (l : list byte) : reader :=
  fun i => default x00 (if 0 <=? i then l !! Z.to_nat i else None).

Lemma read_list_reader_app l1 l2 l3 :
  read_bytes (list_reader (l1 ++ l2 ++ l3)) (Z.of_nat (length l1)) (length l2) = l2.
Proof.
  apply list_eq. intros i. unfold read_bytes. rewrite list_lookup_fmap.
  destruct (decide (i < length l2)%nat) as [Hi|Hi].
  - rewrite lookup_seq_lt by lia. simpl. unfold list_reader.
    destruct (Z.leb_spec 0 (Z.of_nat (length l1) + Z.of_nat i)); [|lia].
    replace (Z.to_nat (Z.of_nat (length l1) + Z.of_nat i))
      with (length l1 + i)%nat by lia.
    rewrite lookup_app_r by lia. rewrite Nat.add_comm, Nat.add_sub.
    rewrite lookup_app_l by done.
    by destruct (lookup_lt_is_Some_2 _ _ Hi) as [x ->].
  - rewrite lookup_seq_ge by lia. symmetry. apply lookup_ge_None. lia.
Qed.

(** [l[i]] and [l[a:b]] for a slice [l] whose capacity is its length. *)
Definition list_load (l : list byte) (i : Z) : comp byte :=
  checked ((0 <=? i) && (i <? len l)) (Return (list_reader l i)).

Definition list_slice (l : list byte) (a b : Z) : comp (list byte) :=
  checked ((0 <=? a) && (a <=? b) && (b <=? len l))
    (Return (read_bytes (list_reader l) a (Z.to_nat (b - a)))).

(** The slice [dst] after [copy(dst, src)]. *)
Definition go_copy {A} (dst src : list A) : list A :=
  take (length dst) src ++ drop (length src) dst.

(** ** Memory mapped by [mmap] *)
Record mem := Mem {
  mem_len : Z;                 (* len(memory) *)
  mem_data : gmap Z byte       (* the bytes written so far; the others are zero *)
}.

Definition mem_reader (m : mem) : reader := fun i => default x00 (mem_data m !! i).

(** [memory[i]] *)
Definition mem_load (m : mem) (i : Z) : comp byte :=
  checked ((0 <=? i) && (i <? mem_len m)) (Return (mem_reader m i)).

(** [memory[a:b]] *)
Definition mem_slice (m : mem) (a b : Z) : comp (list byte) :=
  checked ((0 <=? a) && (a <=? b) && (b <=? mem_len m))
    (Return (read_bytes (mem_reader m) a (Z.to_nat (b - a)))).

Fixpoint write_bytes (d : gmap Z byte) (off : Z) (l : list byte) : gmap Z byte :=
  match l with
  | [] => d
  | b :: l => write_bytes (<[off:=b]> d) (off + 1) l
  end.

(** [copy(memory[off:], src)]: as many bytes as fit. *)
Definition mem_copy (m : mem) (off : Z) (src : list byte) : comp mem :=
  checked ((0 <=? off) && (off <=? mem_len m))
    (Return (Mem (mem_len m)
       (write_bytes (mem_data m) off (take (Z.to_nat (mem_len m - off)) src)))).

(** [binary.BigEndian.PutUint64(memory[off:], z)] and [PutUint32]: [n] bytes,
    with the run-time check that they fit. *)
Definition mem_put_uint (n : nat) (m : mem) (off z : Z) : comp mem :=
  checked ((0 <=? off) && (off + Z.of_nat n <=? mem_len m))
    (Return (Mem (mem_len m) (write_bytes (mem_data m) off (be_encode n z)))).

Lemma write_bytes_app d off l1 l2 :
  write_bytes d off (l1 ++ l2)
  = write_bytes (write_bytes d off l1) (off + Z.of_nat (length l1)) l2.
Proof.
  revert d off. induction l1 as [|b l1 IH]; intros d off; simpl.
  - by rewrite Z.add_0_r.
  - rewrite IH. f_equal. lia.
Qed.

Lemma lookup_write_bytes_out d off l i :
  i < off ∨ off + Z.of_nat (length l) ≤ i → write_bytes d off l !! i = d !! i.
Proof.
  revert d off. induction l as [|b l IH]; intros d off Hi; simpl in *; [done|].
  rewrite IH by lia. rewrite lookup_insert_ne by lia. done.
Qed.

Lemma lookup_write_bytes_in d off l (i : nat) :
  (i < length l)%nat → write_bytes d off l !! (off + Z.of_nat i) = l !! i.
Proof.
  revert d off i. induction l as [|b l IH]; intros d off i Hi; simpl in *; [lia|].
  destruct i as [|i]; simpl.
  - rewrite lookup_write_bytes_out by lia. rewrite Z.add_0_r.
    apply lookup_insert_eq.
  - replace (off + Z.of_nat (S i)) with (off + 1 + Z.of_nat i) by lia.
    apply IH. lia.
Qed.

Lemma mem_reader_write_out n d off l i :
  i < off ∨ off + Z.of_nat (length l) ≤ i →
  mem_reader (Mem n (write_bytes d off l)) i = mem_reader (Mem n d) i.
Proof. intros. unfold mem_reader. simpl. by rewrite lookup_write_bytes_out. Qed.

(** A slice reads back the bytes written there. *)
Lemma read_bytes_write n d off l :
  read_bytes (mem_reader (Mem n (write_bytes d off l))) off (length l) = l.
Proof.
  apply list_eq. intros i. unfold read_bytes. rewrite list_lookup_fmap.
  destruct (decide (i < length l)%nat) as [Hi|Hi].
  - rewrite lookup_seq_lt by lia. simpl. unfold mem_reader. simpl.
    rewrite lookup_write_bytes_in by lia.
    by destruct (lookup_lt_is_Some_2 _ _ Hi) as [x ->].
  - rewrite lookup_seq_ge by lia. symmetry. apply lookup_ge_None. lia.
Qed.

Lemma mem_copy_fits m off src :
  0 ≤ off → off + Z.of_nat (length src) ≤ mem_len m →
  mem_copy m off src = Return (Mem (mem_len m) (write_bytes (mem_data m) off src)).
Proof. intros. unfold mem_copy. check_ok. rewrite take_ge by lia. done. Qed.

Lemma mem_put_uint_fits n m off z :
  0 ≤ off → off + Z.of_nat n ≤ mem_len m →
  mem_put_uint n m off z
  = Return (Mem (mem_len m) (write_bytes (mem_data m) off (be_encode n z))).
Proof. intros. unfold mem_put_uint. by check_ok. Qed.

Lemma mem_load_ok m i :
  0 ≤ i < mem_len m → mem_load m i = Return (mem_reader m i).
Proof. intros. unfold mem_load. by check_ok. Qed.

Lemma mem_slice_ok m a n :
  0 ≤ a → 0 ≤ n → a + n ≤ mem_len m →
  mem_slice m a (a + n) = Return (read_bytes (mem_reader m) a (Z.to_nat n)).
Proof.
  intros. unfold mem_slice. check_ok. by replace (a + n - a) with n by lia.
Qed.

Lemma list_load_ok l i : 0 ≤ i < len l → list_load l i = Return (list_reader l i).
Proof. intros. unfold list_load. by check_ok. Qed.

Lemma list_slice_ok l a n :
  0 ≤ a → 0 ≤ n → a + n ≤ len l →
  list_slice l a (a + n) = Return (read_bytes (list_reader l) a (Z.to_nat n)).
Proof.
  intros. unfold list_slice. check_ok. by replace (a + n - a) with n by lia.
Qed.

Lemma go_copy_longer {A} (dst src : list A) :
  (length src ≤ length dst)%nat → go_copy dst src = src ++ drop (length src) dst.
Proof. intros. unfold go_copy. by rewrite take_ge. Qed.
