(* ===== verification/Bufpool.v ===== *)
(** The pool of buffers behind [Read] and [Write] of the protocol
    ([internal/bufpool/bufpool.go]), with the goroutines that use it. *)

From S2P Require Export Bytes.

Module bufpool.

(** ** The pool

    Buffers live in a heap; [sync.Pool] holds references to those that are free.  What
    [sync.Pool] answers is not determined: any of the buffers it holds, or none, and it may
    drop buffers at any time. *)
Definition buffer := nat.

Record BufPool := mkPool {
  heap : gmap buffer (list byte);   (* the unread bytes of every [bytes.Buffer] *)
  free : list buffer;               (* the buffers in the [sync.Pool] *)
  next : buffer                     (* the buffer [new] allocates *)
}.

Definition New : BufPool := mkPool ∅ [] 0%nat.

(** [Put] *)
Definition Put (p : BufPool) (b : buffer) : BufPool :=
  mkPool (<[b := []]> (heap p)) (b :: free p) (next p).

(** [Get]; [choice] is the buffer [sync.Pool] picks, if it has and picks one. *)
Definition Get (p : BufPool) (choice : option nat) : BufPool * buffer :=
  match choice ≫= fun i => (fun b => (i, b)) <$> free p !! i with
  | Some (i, b) => (mkPool (heap p) (delete i (free p)) (next p), b)
  | None => (mkPool (<[next p := []]> (heap p)) (free p) (Datatypes.S (next p)), next p)
  end.

(** ** The goroutines *)
Record sys := mkSys { s_pool : BufPool; s_held : gmap nat buffer }.
Definition start : sys := mkSys New ∅.

(** A goroutine gets a buffer when it enters [Read] or [Write], changes it as it likes, and
    puts it back when it returns. *)
Inductive step : sys → sys → Prop :=
| b_get p h g choice p' b :
    h !! g = None → Get p choice = (p', b) → step (mkSys p h) (mkSys p' (<[g := b]> h))
| b_use p h g b bs :
    h !! g = Some b → step (mkSys p h) (mkSys (mkPool (<[b := bs]> (heap p)) (free p) (next p)) h)
| b_put p h g b : h !! g = Some b → step (mkSys p h) (mkSys (Put p b) (delete g h))
| b_drop p h i : step (mkSys p h) (mkSys (mkPool (heap p) (delete i (free p)) (next p)) h).

(** No buffer is free twice, none is both free and held, none is held twice; a free buffer
    is empty. *)
Record inv (s : sys) : Prop := {
  i_free : NoDup (free (s_pool s));
  i_apart g b : s_held s !! g = Some b → b ∉ free (s_pool s);
  i_inj g1 g2 b : s_held s !! g1 = Some b → s_held s !! g2 = Some b → g1 = g2;
  i_next b : b ∈ free (s_pool s) ∨ (∃ g, s_held s !! g = Some b) → (b < next (s_pool s))%nat;
  i_empty b : b ∈ free (s_pool s) → heap (s_pool s) !! b = Some []
}.

Lemma elem_of_delete_list (l : list buffer) i b : b ∈ delete i l → b ∈ l.
Proof. intros H. eapply elem_of_submseteq; [done|]. apply sublist_submseteq, sublist_delete. Qed.

Lemma NoDup_delete_list (l : list buffer) i : NoDup l → NoDup (delete i l).
Proof. intros H. eapply sublist_NoDup; [done|apply sublist_delete]. Qed.

Lemma deleted_is_gone (l : list buffer) i b : NoDup l → l !! i = Some b → b ∉ delete i l.
Proof. intros Hn Hi. rewrite (delete_Permutation l i b) in Hn by done. by apply NoDup_cons in Hn as [? _]. Qed.

(** What [Get] answers, by what [sync.Pool] has picked. *)
Lemma Get_cases p choice p' b :
  Get p choice = (p', b) →
  (∃ i, free p !! i = Some b ∧ p' = mkPool (heap p) (delete i (free p)) (next p))
  ∨ (b = next p ∧ p' = mkPool (<[next p := []]> (heap p)) (free p) (S (next p))).
Proof.
  unfold Get. destruct choice as [i|]; simpl; [|intros [= <- <-]; by right].
  destruct (free p !! i) as [b'|] eqn:Hi; simpl; intros [= <- <-]; [left; by exists i|by right].
Qed.

(** A buffer that is held comes from the free ones or is new. *)
Lemma inv_get p h g choice p' b :
  inv (mkSys p h) → h !! g = None → Get p choice = (p', b) →
  inv (mkSys p' (<[g := b]> h)) ∧ heap p' !! b = Some [] ∧ ∀ g', h !! g' ≠ Some b.
Proof.
  intros [Hf Ha Hi Hn He] Hg Hget. simpl in *.
  apply Get_cases in Hget as [(i & Hb & ->)|[-> ->]].
  - assert (b ∈ free p) as Hin by by eapply list_elem_of_lookup_2.
    assert (∀ g', h !! g' ≠ Some b) as Hnew by (intros g' Hg'; by apply (Ha g' b)).
    split; [|by auto]. split; simpl.
    + by apply NoDup_delete_list.
    + intros g' b' [[-> ->]|[_ Hg']]%lookup_insert_Some; [by apply deleted_is_gone|].
      intros Hd%elem_of_delete_list. by apply (Ha g' b').
    + intros g1 g2 b' [[<- <-]|[? H1]]%lookup_insert_Some [[<- ?]|[? H2]]%lookup_insert_Some;
        simplify_eq; try done; [by edestruct Hnew..|by eapply Hi].
    + intros b' [Hd%elem_of_delete_list|[g' [[_ <-]|[_ Hg']]%lookup_insert_Some]]; apply Hn; eauto.
    + intros b' Hd%elem_of_delete_list. by apply He.
  - assert (next p ∉ free p) as Hin by (intros Hx; specialize (Hn (next p) (or_introl Hx)); lia).
    assert (∀ g', h !! g' ≠ Some (next p)) as Hnew.
    { intros g' Hg'. specialize (Hn (next p) (or_intror (ex_intro _ g' Hg'))). lia. }
    split; [|split; [by simplify_map_eq|done]]. split; simpl.
    + done.
    + intros g' b' [[_ <-]|[_ Hg']]%lookup_insert_Some; [done|by eapply Ha].
    + intros g1 g2 b' [[<- <-]|[? H1]]%lookup_insert_Some [[<- ?]|[? H2]]%lookup_insert_Some;
        simplify_eq; try done; [by edestruct Hnew..|by eapply Hi].
    + intros b' [Hd|[g' [[_ <-]|[_ Hg']]%lookup_insert_Some]]; [| lia|];
        (apply Nat.lt_lt_succ_r, Hn; eauto).
    + intros b' Hd. rewrite lookup_insert_ne by (intros <-; done). by apply He.
Qed.

Lemma pool_inv_step s s' : inv s → step s s' → inv s'.
Proof.
  intros Hinv Hs. destruct Hs as [p h g choice p' b Hg Hget|p h g b bs Hg|p h g b Hg|p h i].
  - by eapply inv_get.
  - destruct Hinv as [Hf Ha Hi Hn He]. split; simpl in *; [done..|].
    intros b' Hb'. rewrite lookup_insert_ne; [by apply He|]. intros <-. by apply (Ha g b).
  - destruct Hinv as [Hf Ha Hi Hn He]. split; simpl in *.
    + apply NoDup_cons. split; [by eapply Ha|done].
    + intros g' b' [Hne Hg']%lookup_delete_Some. rewrite not_elem_of_cons. split; [|by eapply Ha].
      intros ->. by apply Hne, (Hi g g' b).
    + intros g1 g2 b' [_ H1]%lookup_delete_Some [_ H2]%lookup_delete_Some. by eapply Hi.
    + intros b' [[->|Hin]%elem_of_cons|[g' [_ Hg']%lookup_delete_Some]]; apply Hn; eauto.
    + intros b' [->|Hin]%elem_of_cons; [by simplify_map_eq|].
      destruct (decide (b' = b)) as [->|]; [by simplify_map_eq|].
      rewrite lookup_insert_ne by done. by apply He.
  - destruct Hinv as [Hf Ha Hi Hn He]. split; simpl in *.
    + by apply NoDup_delete_list.
    + intros g b Hg Hin%elem_of_delete_list. by apply (Ha g b).
    + done.
    + intros b [Hin%elem_of_delete_list|Hg]; apply Hn; eauto.
    + intros b Hin%elem_of_delete_list. by apply He.
Qed.

Lemma pool_reachable_inv s : rtc step start s → inv s.
Proof.
  apply (rtc_ind_r inv).
  - split; simpl.
    + constructor.
    + by intros g b Hg%lookup_empty_Some.
    + by intros g1 g2 b Hg%lookup_empty_Some.
    + intros b [[]%elem_of_nil|[g []%lookup_empty_Some]].
    + by intros b []%elem_of_nil.
  - intros s1 s2 _ Hs Hi. by eapply pool_inv_step.
Qed.

(** In every run of goroutines that put back only the buffer they hold, a buffer that
    [Get] answers is empty and nobody else holds it, whichever buffer [sync.Pool] picks and
    whatever it drops: [Read] and [Write] work on a buffer of their own. *)
Theorem bufpool_exclusive s g choice p' b :
  rtc step start s → s_held s !! g = None → Get (s_pool s) choice = (p', b) →
  (heap p' !! b = Some []) ∧ (b ∉ free p')
  ∧ ∀ g1 g2, (<[g := b]> (s_held s) !! g1 = Some b) → (<[g := b]> (s_held s) !! g2 = Some b) → g1 = g2.
Proof.
  intros Hr%pool_reachable_inv Hg Hget. destruct s as [p h].
  destruct (inv_get p h g choice p' b Hr Hg Hget) as ([_ Ha Hi _ _] & He & _).
  split; [done|]. split; [|by intros; eapply Hi]. apply (Ha g). by simplify_map_eq.
Qed.

(** One goroutine writes, returns its buffer, and another one gets it. *)
Lemma bufpool_exclusive_witness :
  let s := mkSys (mkPool {[0%nat := []]} [0%nat] 1%nat) ∅ in
  heap (Get (s_pool s) (Some 0%nat)).1 !! (Get (s_pool s) (Some 0%nat)).2 = Some [].
Proof.
  cbv zeta.
  apply (bufpool_exclusive (mkSys (mkPool {[0%nat := []]} [0%nat] 1%nat) ∅) 7%nat (Some 0%nat)
           (mkPool {[0%nat := []]} [] 1%nat) 0%nat); [|reflexivity|reflexivity].
  eapply rtc_l; [apply (b_get New ∅ 3%nat None); reflexivity|].
  eapply rtc_l; [apply (b_use _ _ 3%nat 0%nat (text "abc")); reflexivity|].
  eapply rtc_l; [apply (b_put _ _ 3%nat 0%nat); reflexivity|]. apply rtc_refl.
Defined.
End bufpool.
