(* ===== verification/Consistent.v ===== *)
(** The consistent hash ring ([vendor/github.com/buraksezer/consistent/consistent.go]).

    The ring assigns every partition to a member so that no member owns more than the
    average load.  Members are known by their name and appear [ReplicationFactor] times on
    the circle of 64-bit hashes. *)

From stdpp Require Export sorting pretty.
From S2P Require Export Prelude Bytes.

(** The hash function of the configuration ([Hasher]). *)
Class Hasher := {
  Sum64 : list byte → Z;
  Sum64_range bs : 0 ≤ Sum64 bs < 2 ^ 64
}.

(** The interface [Member]. *)
Class Member (Mem : Type) := String_of : Mem → list byte.

Inductive ring_error := ErrInsufficientMemberCount.

Module consistent.

(** A non-negative double: [f_sig / 2 ^ f_exp]. *)
Record float64 := mkFloat { f_sig : Z; f_exp : Z }.

(** [math.Ceil(float64(k) * x)], for an integer [k] that a double can hold. *)
Definition ceil_mul (k : Z) (x : float64) : Z :=
  - (- round53 (k * f_sig x) / 2 ^ f_exp x).

Record Config := mkConfig {
  PartitionCount : Z;
  ReplicationFactor : Z;
  Load : float64
}.

Record Consistent (Mem : Type) := mkConsistent {
  config : Config;
  sortedSet : list Z;
  loads : gmap (list byte) Z;          (* small integers held as doubles *)
  members : gmap (list byte) Mem;
  partitions : gmap Z Mem;
  ring : gmap Z Mem
}.
Arguments mkConsistent {Mem} _ _ _ _ _ _.
Arguments config {Mem} _.
Arguments sortedSet {Mem} _.
Arguments loads {Mem} _.
Arguments members {Mem} _.
Arguments partitions {Mem} _.
Arguments ring {Mem} _.

Section consistent.
Context {Mem : Type} `{!Member Mem} `{!Hasher}.
Abbreviation Consistent := (Consistent Mem).

(** [New(nil, config)] *)
Definition New (cfg : Config) : Consistent := mkConsistent cfg [] ∅ ∅ ∅ ∅.

Definition GetMembers `{!RangeOrder (list byte)} (c : Consistent) : list Mem :=
  omap (fun name => members c !! name) (range_keys 0 (members c)).

(** The division panics on an empty ring. *)
Definition AverageLoad (c : Consistent) : comp Z :=
  checked (negb (Z.of_nat (size (members c)) =? 0))
    (Return (ceil_mul (PartitionCount (config c) / Z.of_nat (size (members c)))
               (Load (config c)))).

(** The loop of [distributeWithLoad]; [rest] rounds are left before it panics. *)
Fixpoint distribute_loop (rest : nat) (c : Consistent) (avgLoad partID : Z) (idx : nat)
    (parts : gmap Z Mem) (lds : gmap (list byte) Z)
    : comp (gmap Z Mem * gmap (list byte) Z) :=
  match rest with
  | O => Panic
  | S rest =>
      match sortedSet c !! idx with
      | None => Panic
      | Some i =>
          match ring c !! i with
          | None => Panic
          | Some member =>
              let load := default 0 (lds !! String_of member) in
              if load + 1 <=? avgLoad
              then Return (<[partID := member]> parts, <[String_of member := load + 1]> lds)
              else
                let idx := S idx in
                let idx := if (length (sortedSet c) <=? idx)%nat then O else idx in
                distribute_loop rest c avgLoad partID idx parts lds
          end
      end
  end.

Definition distributeWithLoad (c : Consistent) (partID : Z) (idx : nat)
    (parts : gmap Z Mem) (lds : gmap (list byte) Z)
    : comp (gmap Z Mem * gmap (list byte) Z) :=
  avgLoad ← AverageLoad c;
  distribute_loop (length (sortedSet c) - 1) c avgLoad partID idx parts lds.

(** [sort.Search] on the sorted hashes: the first that is at least [key], or the length. *)
Fixpoint search (key : Z) (l : list Z) : nat :=
  match l with
  | [] => O
  | x :: l => if key <=? x then O else S (search key l)
  end.

Definition little_endian (z : Z) : list byte := rev (be_encode 8 z).

Fixpoint distribute_parts (c : Consistent) (ids : list Z) (parts : gmap Z Mem)
    (lds : gmap (list byte) Z) : comp (gmap Z Mem * gmap (list byte) Z) :=
  match ids with
  | [] => Return (parts, lds)
  | partID :: ids =>
      let key := Sum64 (little_endian partID) in
      let idx := search key (sortedSet c) in
      let idx := if (length (sortedSet c) <=? idx)%nat then O else idx in
      r ← distributeWithLoad c partID idx parts lds;
      distribute_parts c ids r.1 r.2
  end.

Definition part_ids (c : Consistent) : list Z :=
  map Z.of_nat (seq 0 (Z.to_nat (PartitionCount (config c)))).

Definition distributePartitions (c : Consistent) : comp Consistent :=
  r ← distribute_parts c (part_ids c) ∅ ∅;
  Return (mkConsistent (config c) (sortedSet c) r.2 (members c) r.1 (ring c)).

(** The hashes of the replicas of a member. *)
Definition replica (name : list byte) (i : nat) : Z :=
  Sum64 (name ++ String.list_byte_of_string (pretty (Z.of_nat i))).
Definition replicas (cfg : Config) (name : list byte) : list Z :=
  map (replica name) (seq 0 (Z.to_nat (ReplicationFactor cfg))).

Definition add (m : Mem) (c : Consistent) : Consistent :=
  let hs := replicas (config c) (String_of m) in
  mkConsistent (config c) (merge_sort Z.le (sortedSet c ++ hs)) (loads c)
    (<[String_of m := m]> (members c)) (partitions c)
    (foldl (fun r h => <[h := m]> r) (ring c) hs).

Definition Add (m : Mem) (c : Consistent) : comp Consistent :=
  match members c !! String_of m with
  | Some _ => Return c
  | None => distributePartitions (add m c)
  end.

(** Removing an element shifts the next one to its place, which the loop then skips. *)
Fixpoint delSlice (val : Z) (l : list Z) : list Z :=
  match l with
  | [] => []
  | x :: l =>
      if x =? val then match l with [] => [] | y :: l => y :: delSlice val l end
      else x :: delSlice val l
  end.

Definition Remove (name : list byte) (c : Consistent) : comp Consistent :=
  match members c !! name with
  | None => Return c
  | Some _ =>
      let hs := replicas (config c) name in
      let c := mkConsistent (config c) (foldl (fun l h => delSlice h l) (sortedSet c) hs)
        (loads c) (base.delete name (members c)) (partitions c)
        (foldl (fun r h => base.delete h r) (ring c) hs) in
      if decide (members c = ∅)
      then Return (mkConsistent (config c) (sortedSet c) (loads c) (members c) ∅ (ring c))
      else distributePartitions c
  end.

Definition GetPartitionOwner (c : Consistent) (partID : Z) : option Mem := partitions c !! partID.

(** The keys of the members, the member of each key, and the key of the owner. *)
Fixpoint member_keys (c : Consistent) (owner : list byte) (names : list (list byte))
    (keys : list Z) (kmems : gmap Z Mem) (ownerKey : Z) : list Z * gmap Z Mem * Z :=
  match names with
  | [] => (keys, kmems, ownerKey)
  | name :: names =>
      let key := Sum64 name in
      member_keys c owner names (keys ++ [key])
        (match members c !! name with Some m => <[key := m]> kmems | None => kmems end)
        (if bool_decide (name = owner) then key else ownerKey)
  end.

(** The position of the first key equal to [k], or the length. *)
Fixpoint position (k : Z) (keys : list Z) : nat :=
  match keys with
  | [] => O
  | x :: keys => if x =? k then O else S (position k keys)
  end.

Fixpoint closest_loop (count : nat) (keys : list Z) (kmems : gmap Z Mem) (idx : nat)
    : comp (list Mem) :=
  match count with
  | O => Return []
  | S count =>
      let idx := S idx in
      let idx := if (length keys <=? idx)%nat then O else idx in
      match keys !! idx with
      | None => Panic
      | Some key =>
          match kmems !! key with
          | None => Panic
          | Some m => res ← closest_loop count keys kmems idx; Return (m :: res)
          end
      end
  end.

Definition getClosestN `{!RangeOrder (list byte)} (c : Consistent) (partID count : Z)
    : comp (ring_error + list Mem) :=
  if Z.of_nat (size (members c)) - 1 <? count then Return (inl ErrInsufficientMemberCount) else
  match GetPartitionOwner c partID with
  | None => if decide (members c = ∅) then Return (inr []) else Panic
  | Some owner =>
      let '(keys, kmems, ownerKey) :=
        member_keys c (String_of owner) (range_keys 0 (members c)) [] ∅ 0 in
      let keys := merge_sort Z.le keys in
      res ← closest_loop (Z.to_nat count) keys kmems (position ownerKey keys);
      Return (inr res)
  end.

Definition GetClosestNForPartition `{!RangeOrder (list byte)} (c : Consistent)
    (partID count : Z) : comp (ring_error + list Mem) := getClosestN c partID count.
End consistent.
End consistent.
