(* ===== verification/Hash.v ===== *)
(** The default hash function of the node ([hash.go]): XXH64, as the vendored package
    [xxhash] computes it, in one go ([Sum64]) and as a stream ([New], [Write]). *)

From S2P Require Export Consistent.

Module xxhash.

(** ** Arithmetic of [uint64] *)
Definition add64 (a b : Z) : Z := to_unsigned 64 (a + b).
Definition mul64 (a b : Z) : Z := to_unsigned 64 (a * b).

Definition prime1 : Z := 11400714785074694791.
Definition prime2 : Z := 14029467366897019727.
Definition prime3 : Z := 1609587929392839161.
Definition prime4 : Z := 9650029242287828579.
Definition prime5 : Z := 2870177450012600261.

Definition rol (k x : Z) : Z := Z.lor (to_unsigned 64 (Z.shiftl x k)) (Z.shiftr x (64 - k)).
Definition rol1 : Z → Z := rol 1.
Definition rol7 : Z → Z := rol 7.
Definition rol11 : Z → Z := rol 11.
Definition rol12 : Z → Z := rol 12.
Definition rol18 : Z → Z := rol 18.
Definition rol23 : Z → Z := rol 23.
Definition rol27 : Z → Z := rol 27.
Definition rol31 : Z → Z := rol 31.

(** [b[i : i+n]]; the loops below take no slice that is out of range. *)
Definition sub (b : list byte) (i n : nat) : list byte := take n (drop i b).

(** [binary.LittleEndian] *)
Definition u64 (b : list byte) : Z := be_decode (rev b).
Definition u32 (b : list byte) : Z := be_decode (rev b).

Definition round (acc input : Z) : Z := mul64 (rol31 (add64 acc (mul64 input prime2))) prime1.
Definition mergeRound (acc val : Z) : Z :=
  add64 (mul64 (Z.lxor acc (round 0 val)) prime1) prime4.

(** ** Blocks *)
Record lanes := mkLanes { v1 : Z; v2 : Z; v3 : Z; v4 : Z }.

Definition seed : lanes := mkLanes (add64 prime1 prime2) prime2 0 (to_unsigned 64 (- prime1)).

(** One turn of the loop over the blocks of 32 bytes. *)
Definition block (v : lanes) (b : list byte) : lanes :=
  mkLanes (round (v1 v) (u64 (sub b 0 8))) (round (v2 v) (u64 (sub b 8 8)))
    (round (v3 v) (u64 (sub b 16 8))) (round (v4 v) (u64 (sub b 24 8))).

(** The loop: the accumulators and what is left of the bytes, which get shorter with every
    turn. *)
Fixpoint blocks (fuel : nat) (v : lanes) (b : list byte) : lanes * list byte :=
  match fuel with
  | O => (v, b)
  | S fuel => if (32 <=? length b)%nat then blocks fuel (block v b) (drop 32 b) else (v, b)
  end.

Definition merge_lanes (v : lanes) : Z :=
  let h := add64 (add64 (add64 (rol1 (v1 v)) (rol7 (v2 v))) (rol12 (v3 v))) (rol18 (v4 v)) in
  mergeRound (mergeRound (mergeRound (mergeRound h (v1 v)) (v2 v)) (v3 v)) (v4 v).

(** ** The bytes after the last block *)

(** Eight at a time, from [i] on. *)
Fixpoint tail_words (fuel : nat) (b : list byte) (i end_ : nat) (h : Z) : nat * Z :=
  match fuel with
  | O => (i, h)
  | S fuel =>
      if (i + 8 <=? end_)%nat then
        let k1 := round 0 (u64 (sub b i 8)) in
        tail_words fuel b (i + 8)%nat end_ (add64 (mul64 (rol27 (Z.lxor h k1)) prime1) prime4)
      else (i, h)
  end.

(** Four bytes, if there are as many. *)
Definition tail_half (b : list byte) (i end_ : nat) (h : Z) : nat * Z :=
  if (i + 4 <=? end_)%nat then
    ((i + 4)%nat, add64 (mul64 (rol23 (Z.lxor h (mul64 (u32 (sub b i 4)) prime1))) prime2) prime3)
  else (i, h).

(** One at a time. *)
Fixpoint tail_bytes (fuel : nat) (b : list byte) (i end_ : nat) (h : Z) : Z :=
  match fuel with
  | O => h
  | S fuel =>
      if (i <? end_)%nat then
        tail_bytes fuel b (i + 1)%nat end_
          (mul64 (rol11 (Z.lxor h (mul64 (unsigned (default x00 (b !! i))) prime5))) prime1)
      else h
  end.

Definition avalanche (h : Z) : Z :=
  let h := mul64 (Z.lxor h (Z.shiftr h 33)) prime2 in
  let h := mul64 (Z.lxor h (Z.shiftr h 29)) prime3 in
  Z.lxor h (Z.shiftr h 32).

Definition finish (b : list byte) (end_ : nat) (h : Z) : Z :=
  let '(i, h) := tail_words end_ b 0 end_ h in
  let '(i, h) := tail_half b i end_ h in
  avalanche (tail_bytes end_ b i end_ h).

(** ** In one go *)
Definition Sum64 (b : list byte) : Z :=
  let n := len b in
  let '(h, b) :=
    if 32 <=? n then let '(v, b) := blocks (length b) seed b in (merge_lanes v, b)
    else (prime5, b) in
  finish b (length b) (add64 h n).

(** ** The stream *)
Record xxh := mkXxh { x_v : lanes; x_total : Z; x_mem : list byte; x_n : nat }.

Definition Reset (x : xxh) : xxh := mkXxh seed 0 (x_mem x) 0.
Definition New : xxh := Reset (mkXxh (mkLanes 0 0 0 0) 0 (replicate 32 x00) 0).

(** [copy(x.mem[k:], b)] *)
Definition copy_at (m : list byte) (k : nat) (b : list byte) : list byte :=
  take k m ++ go_copy (drop k m) b.

Definition writeBlocks (x : xxh) (b : list byte) : xxh * list byte :=
  let '(v, b) := blocks (length b) (x_v x) b in
  (mkXxh v (x_total x) (x_mem x) (x_n x), b).

Definition Write (x : xxh) (b : list byte) : xxh :=
  let total := to_signed 64 (x_total x + len b) in
  if (x_n x + length b <? 32)%nat then
    mkXxh (x_v x) total (copy_at (x_mem x) (x_n x) b) (x_n x + length b)
  else
    let x := mkXxh (x_v x) total (x_mem x) (x_n x) in
    let '(x, b) :=
      if (0 <? x_n x)%nat then
        let m := copy_at (x_mem x) (x_n x) b in
        (mkXxh (block (x_v x) m) (x_total x) m 0, drop (32 - x_n x) b)
      else (x, b) in
    let '(x, b) := if (32 <=? length b)%nat then writeBlocks x b else (x, b) in
    mkXxh (x_v x) (x_total x) (copy_at (x_mem x) 0 b) (length b).

Definition digest_Sum64 (x : xxh) : Z :=
  let h := if 32 <=? x_total x then merge_lanes (x_v x) else add64 (v3 (x_v x)) prime5 in
  finish (x_mem x) (x_n x) (add64 h (to_unsigned 64 (x_total x))).

(** [Sum]: the digest in big-endian order, after [b]. *)
Definition Sum (x : xxh) (b : list byte) : list byte :=
  let s := digest_Sum64 x in
  b ++ map (fun k => byte_of_Z (Z.shiftr s k)) [56; 48; 40; 32; 24; 16; 8; 0].

(** The vectors of the specification. *)
Example sum_empty : Sum64 [] = 0xef46db3751d8e999.
Proof. vm_compute. reflexivity. Qed.
Example sum_a : Sum64 (text "a") = 0xd24ec4f1a98c6e5b.
Proof. vm_compute. reflexivity. Qed.
Example sum_asdf : Sum64 (text "asdf") = 0x415872f599cea71e.
Proof. vm_compute. reflexivity. Qed.
Example sum_ishmael :
  Sum64 (text "Call me Ishmael. Some years ago--never mind how long precisely-") = 0x02a2e85470d6fd96.
Proof. vm_compute. reflexivity. Qed.

(** ** The digest is a [uint64] *)
Lemma lxor_uint64 a b : in_uint64 a → in_uint64 b → in_uint64 (Z.lxor a b).
Proof.
  unfold in_uint64. intros Ha Hb.
  assert (0 ≤ Z.lxor a b) as H0 by (apply Z.lxor_nonneg; lia). split; [done|].
  destruct (Z.eq_dec (Z.lxor a b) 0) as [->|Hne]; [lia|].
  apply Z.log2_lt_pow2; [lia|]. pose proof (Z.log2_lxor a b ltac:(lia) ltac:(lia)).
  assert (∀ z, 0 ≤ z < 2 ^ 64 → Z.log2 z < 64) as Hlog.
  { intros z Hz. destruct (Z.eq_dec z 0) as [->|]; [done|]. apply Z.log2_lt_pow2; lia. }
  pose proof (Hlog a Ha). pose proof (Hlog b Hb). lia.
Qed.

Lemma shiftr_uint64 a k : 0 ≤ k → in_uint64 a → in_uint64 (Z.shiftr a k).
Proof.
  unfold in_uint64. intros Hk Ha. rewrite Z.shiftr_div_pow2 by done.
  pose proof (Z.pow_pos_nonneg 2 k ltac:(lia) Hk). split; [apply Z.div_pos; lia|].
  apply (Z.le_lt_trans _ a); [|lia]. apply Z.div_le_upper_bound; [lia|]. nia.
Qed.

Lemma Sum64_uint64 b : in_uint64 (Sum64 b).
Proof.
  unfold Sum64. destruct (if _ : bool then _ else _) as [h b']. unfold finish.
  destruct (tail_words _ _ _ _ _) as [i h']. destruct (tail_half _ _ _ _) as [j h''].
  unfold avalanche. cbv zeta.
  assert (∀ a c, in_uint64 (mul64 a c)) as Hm by (intros; by apply to_unsigned_range).
  apply lxor_uint64; [apply Hm|]. apply shiftr_uint64; [done|apply Hm].
Qed.

(** ** The stream computes what [Sum64] computes *)
Definition all_blocks (b : list byte) : lanes * list byte := blocks (length b) seed b.

(** Enough fuel is as good as more. *)
Lemma blocks_fuel f1 f2 v b :
  (length b ≤ f1)%nat → (length b ≤ f2)%nat → blocks f1 v b = blocks f2 v b.
Proof.
  revert f2 v b. induction f1 as [|f1 IH]; intros [|f2] v b H1 H2; cbn [blocks]; [done|..].
  1-2: destruct (Nat.leb_spec 32 (length b)); [lia|done].
  destruct (Nat.leb_spec 32 (length b)); [|done].
  apply IH; rewrite length_drop; lia.
Qed.

Lemma blocks_short f v b : (length b < 32)%nat → blocks f v b = (v, b).
Proof. intros H. destruct f; cbn [blocks]; [done|]. by rewrite (proj2 (Nat.leb_gt _ _)). Qed.

Lemma block_take v b : block v (take 32 b) = block v b.
Proof. unfold block, sub. by rewrite !skipn_firstn_comm, !take_take. Qed.

(** The first block of a list that has one. *)
Lemma blocks_block f v b1 b2 :
  length b1 = 32%nat → (length b2 < f)%nat → blocks f v (b1 ++ b2) = blocks f (block v b1) b2.
Proof.
  intros H1 Hf. destruct f as [|f]; [lia|]. cbn [blocks]. rewrite length_app, H1.
  rewrite (proj2 (Nat.leb_le _ _)) by lia. rewrite drop_app_length' by done.
  rewrite <-block_take, take_app_length' by done. destruct (Nat.leb_spec 32 (length b2)).
  - rewrite (blocks_fuel f (S f)) by lia. cbn [blocks]. by rewrite (proj2 (Nat.leb_le _ _)).
  - by rewrite blocks_short.
Qed.

(** The blocks of the whole are those of the beginning and then those of what was left. *)
Lemma blocks_app f v b1 b2 :
  (length b1 + length b2 ≤ f)%nat →
  blocks f v (b1 ++ b2) = blocks f (blocks f v b1).1 ((blocks f v b1).2 ++ b2).
Proof.
  remember (length b1) as k eqn:Hk. revert v b1 Hk. induction (lt_wf k) as [k _ IH]. intros v b1 -> Hf.
  destruct (Nat.lt_ge_cases (length b1) 32) as [Hs|Hl]; [by rewrite (blocks_short f v b1)|].
  rewrite <-(take_drop 32 b1). rewrite <-app_assoc.
  assert (length (take 32 b1) = 32%nat) as Ht by (rewrite length_take; lia).
  assert (length (drop 32 b1) = (length b1 - 32)%nat) as Hd by apply length_drop.
  rewrite (blocks_block f v _ (drop 32 b1 ++ b2)), (blocks_block f v _ (drop 32 b1))
    by (rewrite ?length_app; lia).
  apply (IH (length b1 - 32)%nat); lia.
Qed.

Lemma blocks_left f v b : (length b ≤ f)%nat → (length (blocks f v b).2 < 32)%nat.
Proof.
  revert v b. induction f as [|f IH]; intros v b Hf; cbn [blocks]; [simpl; lia|].
  destruct (Nat.leb_spec 32 (length b)); [|done]. apply IH. rewrite length_drop. lia.
Qed.

(** The state after the bytes [d]. *)
Record written (x : xxh) (d : list byte) : Prop := {
  w_total : x_total x = len d;
  w_mem : length (x_mem x) = 32%nat;
  w_n : (x_n x < 32)%nat;
  w_blocks : all_blocks d = (x_v x, take (x_n x) (x_mem x))
}.

Lemma written_New : written New [].
Proof. split; [done|done|simpl; lia|done]. Qed.

Lemma copy_at_length m k b : (k ≤ length m)%nat → length (copy_at m k b) = length m.
Proof.
  intros Hk. unfold copy_at, go_copy.
  rewrite !length_app, !length_take, !length_drop. lia.
Qed.

(** The bytes copied after the first [k], as far as they fit. *)
Lemma copy_at_take m k b n :
  (k ≤ length m)%nat → n = Nat.min (length m) (k + length b) →
  take n (copy_at m k b) = take k m ++ take (length m - k) b.
Proof.
  intros Hk ->. unfold copy_at, go_copy. rewrite length_drop, app_assoc, take_app_le.
  - rewrite take_ge; [done|]. rewrite length_app, !length_take. lia.
  - rewrite length_app, !length_take. lia.
Qed.

Lemma all_blocks_app d b v r :
  all_blocks d = (v, r) → ∀ f, (length r + length b ≤ f)%nat → all_blocks (d ++ b) = blocks f v (r ++ b).
Proof.
  intros Hd f Hf. unfold all_blocks in *. set (F := (length (d ++ b) + f)%nat).
  rewrite (blocks_fuel _ F) by lia. rewrite blocks_app by (unfold F; rewrite length_app; lia).
  rewrite (blocks_fuel F (length d) seed d) by (unfold F; rewrite ?length_app; lia). rewrite Hd.
  apply blocks_fuel; simpl; unfold F; rewrite !length_app; lia.
Qed.

Lemma to_signed_len (d b : list byte) :
  len (d ++ b) < 2 ^ 63 → to_signed 64 (len d + len b) = len (d ++ b).
Proof.
  intros H. pose proof (len_nonneg (d ++ b)). rewrite <-len_app. unfold to_signed.
  rewrite Z.mod_small by lia. destruct (Z.ltb_spec (len (d ++ b)) (2 ^ (64 - 1))); lia.
Qed.

(** The end of [Write], from what the blocks have left. *)
Lemma written_rest v t m d v' r :
  t = len d → length m = 32%nat → all_blocks d = (v', r) → v = v' →
  written (mkXxh v t (copy_at m 0 r) (length r)) d.
Proof.
  intros -> Hm Hb ->. assert (length r < 32)%nat as Hr.
  { pose proof (blocks_left (length d) seed d ltac:(done)) as Hl. unfold all_blocks in Hb. by rewrite Hb in Hl. }
  split; simpl; [done|by rewrite copy_at_length by lia|done|].
  rewrite copy_at_take by lia. by rewrite Hm, take_0, take_ge by lia.
Qed.

Lemma written_Write x d b : written x d → len (d ++ b) < 2 ^ 63 → written (Write x b) (d ++ b).
Proof.
  intros [Ht Hm Hn Hb] Hlen. unfold Write. rewrite Ht, to_signed_len by done.
  assert (length (take (x_n x) (x_mem x)) = x_n x) as Hr by (rewrite length_take; lia).
  pose proof (all_blocks_app _ b _ _ Hb) as Happ. rewrite Hr in Happ.
  destruct (Nat.ltb_spec (x_n x + length b) 32) as [Hs|Hs].
  - split; simpl; [done|by rewrite copy_at_length by lia|done|].
    rewrite (Happ (x_n x + length b)%nat), blocks_short by (rewrite ?length_app; lia).
    rewrite copy_at_take by lia. by rewrite (take_ge b) by lia.
  - cbv zeta. cbn [x_n x_mem x_v x_total]. destruct (Nat.ltb_spec 0 (x_n x)) as [H0|H0].
    + set (m := copy_at (x_mem x) (x_n x) b). set (b' := drop (32 - x_n x) b).
      assert (m = take (x_n x) (x_mem x) ++ take (32 - x_n x) b) as Em.
      { rewrite <-Hm at 1. unfold m. rewrite <-(copy_at_take _ _ _ 32) by lia. rewrite take_ge; [done|].
        rewrite copy_at_length; lia. }
      assert (length m = 32%nat) as Lm by (unfold m; rewrite copy_at_length; lia).
      assert (all_blocks (d ++ b) = blocks (length b') (block (x_v x) m) b') as E.
      { rewrite (Happ (S (x_n x + length b))) by lia. rewrite <-(take_drop (32 - x_n x) b) at 2. fold b'.
        rewrite app_assoc, <-Em, blocks_block by (done || unfold b'; rewrite length_drop; lia).
        apply blocks_fuel; unfold b'; rewrite ?length_drop; lia. }
      destruct (Nat.leb_spec 32 (length b')).
      * unfold writeBlocks. cbn [x_n x_mem x_v x_total]. destruct (blocks _ _ b') as [v' r] eqn:Eb. by apply (written_rest _ _ _ _ v').
      * rewrite blocks_short in E by done. by apply (written_rest _ _ _ _ (block (x_v x) m)).
    + assert (x_n x = 0)%nat as E0 by lia. rewrite E0 in *. rewrite take_0 in Happ.
      specialize (Happ (length b) ltac:(lia)). simpl in Happ.
      rewrite (proj2 (Nat.leb_le _ _)) by lia. unfold writeBlocks. cbn [x_n x_mem x_v x_total].
      destruct (blocks _ _ b) as [v' r] eqn:Eb. by apply (written_rest _ _ _ _ v').
Qed.

(** The end of the digest looks at the bytes below [end_] only. *)
Lemma sub_take b e i n : (i + n ≤ e)%nat → sub (take e b) i n = sub b i n.
Proof. intros H. unfold sub. rewrite skipn_firstn_comm, take_take. f_equal. lia. Qed.

Lemma tail_words_take f b e i h : tail_words f (take e b) i e h = tail_words f b i e h.
Proof.
  revert i h. induction f as [|f IH]; intros i h; cbn [tail_words tail_bytes]; [done|].
  destruct (Nat.leb_spec (i + 8) e); [|done]. by rewrite sub_take, IH.
Qed.

Lemma tail_half_take b e i h : tail_half (take e b) i e h = tail_half b i e h.
Proof. unfold tail_half. destruct (Nat.leb_spec (i + 4) e); [|done]. by rewrite sub_take. Qed.

Lemma tail_bytes_take f b e i h : tail_bytes f (take e b) i e h = tail_bytes f b i e h.
Proof.
  revert i h. induction f as [|f IH]; intros i h; cbn [tail_words tail_bytes]; [done|].
  destruct (Nat.ltb_spec i e); [|done]. by rewrite lookup_take_lt, IH.
Qed.

Lemma finish_take b e h : finish (take e b) e h = finish b e h.
Proof.
  unfold finish. rewrite tail_words_take. destruct (tail_words _ _ _ _ _) as [i h'].
  rewrite tail_half_take. destruct (tail_half _ _ _ _) as [j h'']. by rewrite tail_bytes_take.
Qed.

Lemma written_Sum64 x d : written x d → len d < 2 ^ 63 → digest_Sum64 x = Sum64 d.
Proof.
  intros [Ht Hm Hn Hb] Hlen. unfold digest_Sum64, Sum64. rewrite Ht.
  rewrite to_unsigned_small by (pose proof (len_nonneg d); lia).
  rewrite <-finish_take. destruct (Z.leb_spec 32 (len d)) as [Hl|Hl].
  - unfold all_blocks in Hb. rewrite Hb. by rewrite length_take, Nat.min_l by lia.
  - unfold all_blocks in Hb. rewrite blocks_short in Hb by (unfold len in Hl; lia).
    injection Hb as Hv Hd. rewrite <-Hv, <-Hd. replace (length d) with (x_n x); [done|].
    rewrite Hd, length_take. lia.
Qed.

Lemma written_chunks x d chunks :
  written x d → len (d ++ concat chunks) < 2 ^ 63 →
  written (foldl Write x chunks) (d ++ concat chunks).
Proof.
  revert x d. induction chunks as [|b chunks IH]; intros x d Hx Hlen; simpl in *.
  - by rewrite app_nil_r.
  - rewrite app_assoc in *. apply IH; [|done]. apply written_Write; [done|].
    rewrite len_app in Hlen. pose proof (len_nonneg (concat chunks)). lia.
Qed.

Lemma digest_bytes s :
  map (fun k => byte_of_Z (Z.shiftr s k)) [56; 48; 40; 32; 24; 16; 8; 0] = be_encode 8 s.
Proof. cbn [map be_encode]. by rewrite !Z.shiftr_div_pow2 by done. Qed.

(** C39: the two ways to compute the digest agree: whatever the pieces in which bytes are
    written to a new stream, its digest is the one [Sum64] computes from all the bytes at
    once, and [Sum] appends its eight bytes, the most significant one first. *)
Theorem xxhash_stream_agrees chunks b :
  len (concat chunks) < 2 ^ 63 →
  digest_Sum64 (foldl Write New chunks) = Sum64 (concat chunks)
  ∧ Sum (foldl Write New chunks) b = b ++ be_encode 8 (Sum64 (concat chunks)).
Proof.
  intros Hlen. pose proof (written_chunks New [] chunks written_New Hlen) as Hw.
  apply written_Sum64 in Hw; [|done]. split; [done|]. unfold Sum. rewrite Hw. f_equal.
  by apply digest_bytes.
Qed.

Lemma xxhash_stream_witness :
  digest_Sum64 (foldl Write New [text "Call me Ishmael. "; text "Some years ago--never mind how long ";
                                 text "precisely-"]) = 0x02a2e85470d6fd96.
Proof.
  assert (len (concat [text "Call me Ishmael. "; text "Some years ago--never mind how long ";
                       text "precisely-"]) < 2 ^ 63) as H by (vm_compute; reflexivity).
  rewrite (proj1 (xxhash_stream_agrees _ [] H)). vm_compute. reflexivity.
Defined.

End xxhash.

(** ** The default hasher ([hash.go]) *)
Definition xxhasher : Hasher := {|
  Sum64 := xxhash.Sum64;
  Sum64_range := xxhash.Sum64_uint64
|}.
Definition NewDefaultHasher : Hasher := xxhasher.
