(* ===== verification/ConsistentSpec.v ===== *)
(** The properties of the consistent hash ring: every partition has an owner, no member
    owns more than the average load, and the closest members of a partition are distinct. *)

From S2P Require Export Consistent.

Module ringspec.
Export consistent.

Section ringspec.
Context {Mem : Type} `{!Member Mem} `{!Hasher}.
Abbreviation Consistent := (consistent.Consistent Mem).
Implicit Types c : Consistent.

(** ** Going around the circle *)
Definition after (n idx : nat) : nat := if (n <=? S idx)%nat then O else S idx.

Lemma after_mod n idx k : (idx < n)%nat → ((after n idx + k) mod n = (idx + S k) mod n)%nat.
Proof.
  intros Hi. unfold after. destruct (Nat.leb_spec n (S idx)); [|f_equal; lia].
  replace (idx + S k)%nat with (k + 1 * n)%nat by lia. rewrite Nat.Div0.mod_add. f_equal.
Qed.

Lemma after_lt n idx : (idx < n)%nat → (after n idx < n)%nat.
Proof. unfold after. destruct (Nat.leb_spec n (S idx)); lia. Qed.

(** Of two different positions at most one is the last on the way around from [idx]. *)
Lemma reached n idx j : (idx < n)%nat → (j < n)%nat →
  ∃ k, (k < n)%nat ∧ ((idx + k) mod n = j)%nat
    ∧ (k = (n - 1)%nat → j = ((idx + (n - 1)) mod n)%nat).
Proof.
  intros Hi Hj. destruct (decide (idx ≤ j)%nat).
  - exists (j - idx)%nat. split; [lia|]. replace (idx + (j - idx))%nat with j by lia.
    rewrite Nat.mod_small by done. split; [done|]. intros E. rewrite <-E.
    replace (idx + (j - idx))%nat with j by lia. by rewrite Nat.mod_small.
  - exists (n - idx + j)%nat. assert ((idx + (n - idx + j)) mod n = j)%nat as E.
    { replace (idx + (n - idx + j))%nat with (j + 1 * n)%nat by lia.
      rewrite Nat.Div0.mod_add. by rewrite Nat.mod_small. }
    split; [lia|]. split; [done|]. intros E'. by rewrite <-E'.
Qed.

(** ** The ring *)

(** The circle holds exactly the replicas of the members, each once. *)
Record wf (c : Consistent) : Prop := {
  wf_sorted : StronglySorted Z.le (sortedSet c);
  wf_nodup : NoDup (sortedSet c);
  wf_set h : h ∈ sortedSet c ↔
    ∃ name, is_Some (members c !! name) ∧ h ∈ replicas (config c) name;
  wf_apart name : is_Some (members c !! name) → NoDup (replicas (config c) name);
  wf_names name m : members c !! name = Some m → String_of m = name;
  wf_ring name m h :
    members c !! name = Some m → h ∈ replicas (config c) name → ring c !! h = Some m
}.

Lemma empty_ring_wf cfg : wf (New cfg).
Proof.
  split; [constructor|constructor| |by intros name [m Hm]|done|done].
  intros h. split; [by intros ?%not_elem_of_nil|]. intros (name & [m Hm] & _). done.
Qed.

Lemma wf_at c h : wf c → h ∈ sortedSet c →
  ∃ m, ring c !! h = Some m ∧ members c !! String_of m = Some m
    ∧ h ∈ replicas (config c) (String_of m).
Proof.
  intros Hwf Hh. apply (wf_set _ Hwf) in Hh as (name & [m Hm] & Hh). exists m.
  pose proof (wf_names _ Hwf _ _ Hm) as <-. split; [|done]. by eapply wf_ring.
Qed.

(** ** One partition *)
Definition load_of (lds : gmap (list byte) Z) (name : list byte) : Z := default 0 (lds !! name).

(** The member at a position of the circle has room. *)
Definition free_at c (avg : Z) (lds : gmap (list byte) Z) (j : nat) : Prop :=
  ∃ h m, sortedSet c !! j = Some h ∧ ring c !! h = Some m ∧ load_of lds (String_of m) + 1 ≤ avg.

(** What one round of the distribution does: a member with room takes the partition. *)
Definition takes c (avg partID : Z) (parts parts' : gmap Z Mem) (lds lds' : gmap (list byte) Z)
    : Prop :=
  ∃ m, members c !! String_of m = Some m ∧ load_of lds (String_of m) + 1 ≤ avg
    ∧ parts' = <[partID := m]> parts
    ∧ lds' = <[String_of m := load_of lds (String_of m) + 1]> lds.

Lemma loop_takes c avg partID parts lds rest :
  wf c → ∀ idx k, (idx < length (sortedSet c))%nat → (k < rest)%nat →
  free_at c avg lds ((idx + k) mod length (sortedSet c)) →
  ∃ parts' lds', distribute_loop rest c avg partID idx parts lds = Return (parts', lds')
    ∧ takes c avg partID parts parts' lds lds'.
Proof.
  intros Hwf. induction rest as [|rest IH]; intros idx k Hidx Hk Hfree; [lia|].
  cbn [distribute_loop]. destruct (lookup_lt_is_Some_2 _ _ Hidx) as [h Hh]. rewrite Hh.
  destruct (wf_at c h Hwf) as (m & Hm & Hmem & _); [by eapply list_elem_of_lookup_2|].
  rewrite Hm. fold (load_of lds (String_of m)). cbn zeta.
  destruct (Z.leb_spec (load_of lds (String_of m) + 1) avg) as [Hle|Hgt].
  { eexists _, _. split; [done|]. by exists m. }
  fold (after (length (sortedSet c)) idx).
  destruct k as [|k].
  - exfalso. rewrite Nat.add_0_r, Nat.mod_small in Hfree by done.
    destruct Hfree as (h' & m' & Hh' & Hm' & Hle). simplify_eq. lia.
  - apply (IH _ k); [by apply after_lt|lia|]. by rewrite after_mod.
Qed.

(** A member with room is found: it has two replicas, and the loop visits all positions
    of the circle but one. *)
Lemma free_member_found c avg partID parts lds idx name m :
  wf c → 2 ≤ ReplicationFactor (config c) → members c !! name = Some m →
  load_of lds name + 1 ≤ avg → (idx < length (sortedSet c))%nat →
  ∃ parts' lds', distribute_loop (length (sortedSet c) - 1) c avg partID idx parts lds
      = Return (parts', lds')
    ∧ takes c avg partID parts parts' lds lds'.
Proof.
  intros Hwf Hrf Hm Hload Hidx. set (n := length (sortedSet c)).
  pose proof (wf_names _ Hwf _ _ Hm) as Hname.
  assert (∀ i, (i < 2)%nat → ∃ j, sortedSet c !! j = Some (replica name i)
      ∧ free_at c avg lds j) as Hpos.
  { intros i Hi. assert (replica name i ∈ replicas (config c) name) as Hin.
    { apply list_elem_of_fmap. exists i. split; [done|]. apply elem_of_seq. lia. }
    assert (replica name i ∈ sortedSet c) as [j Hj]%list_elem_of_lookup_1.
    { apply (wf_set _ Hwf). exists name. split; [by exists m|done]. }
    exists j. split; [done|]. exists (replica name i), m. split; [done|].
    split; [by eapply wf_ring|]. by rewrite Hname. }
  destruct (Hpos 0%nat) as (j0 & Hj0 & Hf0); [lia|]. destruct (Hpos 1%nat) as (j1 & Hj1 & Hf1); [lia|].
  assert (j0 ≠ j1) as Hne.
  { intros <-. rewrite Hj0 in Hj1. injection Hj1 as E.
    assert (NoDup (replicas (config c) name)) as Hnd by (apply (wf_apart _ Hwf); by exists m).
    unfold replicas in Hnd. destruct (Z.to_nat (ReplicationFactor (config c))) as [|[|r]] eqn:Er; [lia|lia|].
    simpl in Hnd. apply NoDup_cons in Hnd as [Hnd _]. apply Hnd. rewrite E. by left. }
  apply lookup_lt_Some in Hj0, Hj1. fold n in Hj0, Hj1, Hidx.
  destruct (reached n idx j0) as (k0 & Hk0 & E0 & L0); [done..|].
  destruct (reached n idx j1) as (k1 & Hk1 & E1 & L1); [done..|].
  destruct (decide (k0 = n - 1)%nat) as [E|E].
  - apply (loop_takes c avg partID parts lds (n - 1) Hwf idx k1); [done| |fold n; by rewrite E1].
    destruct (decide (k1 = n - 1)%nat) as [E'|E']; [|lia]. exfalso. apply Hne.
    by rewrite (L0 E), (L1 E').
  - apply (loop_takes c avg partID parts lds (n - 1) Hwf idx k0); [done|lia|fold n; by rewrite E0].
Qed.

(** ** Counting *)
Fixpoint total (lds : gmap (list byte) Z) (names : list (list byte)) : Z :=
  match names with
  | [] => 0
  | name :: names => load_of lds name + total lds names
  end.

Lemma total_ext lds lds' names :
  (∀ name, name ∈ names → load_of lds name = load_of lds' name) → total lds names = total lds' names.
Proof.
  induction names as [|name names IH]; intros Heq; [done|]. simpl.
  rewrite (Heq name), IH; [done| |by left]. intros name' ?. apply Heq. by right.
Qed.

Lemma load_of_insert lds name z : load_of (<[name := z]> lds) name = z.
Proof. unfold load_of. by rewrite lookup_insert_eq. Qed.
Lemma load_of_insert_ne lds name name' z :
  name ≠ name' → load_of (<[name := z]> lds) name' = load_of lds name'.
Proof. intros. unfold load_of. by rewrite lookup_insert_ne. Qed.

Lemma total_insert lds names name :
  NoDup names → name ∈ names →
  total (<[name := load_of lds name + 1]> lds) names = total lds names + 1.
Proof.
  induction 1 as [|x names Hx Hnd IH]; [by intros ?%not_elem_of_nil|].
  intros [->|Hin]%elem_of_cons; simpl.
  - rewrite load_of_insert, (total_ext _ lds); [lia|]. intros name Hn.
    apply load_of_insert_ne. by intros ->.
  - rewrite IH, load_of_insert_ne by (done || by intros ->). lia.
Qed.

Lemma total_low lds names avg :
  (∀ name, name ∈ names → avg ≤ load_of lds name) → len names * avg ≤ total lds names.
Proof.
  induction names as [|name names IH]; intros Hle; [done|]. unfold len in *. simpl.
  assert (avg ≤ load_of lds name) by (apply Hle; by left).
  assert (Z.of_nat (length names) * avg ≤ total lds names).
  { apply IH. intros name' ?. apply Hle. by right. }
  lia.
Qed.

Lemma total_empty names : total ∅ names = 0.
Proof. by induction names. Qed.

Definition names c : list (list byte) := (map_to_list (members c)).*1.

Lemma elem_of_names c name : name ∈ names c ↔ is_Some (members c !! name).
Proof.
  unfold names. rewrite list_elem_of_fmap. split.
  - intros [[k x] [-> Hin]]. apply elem_of_map_to_list in Hin. by exists x.
  - intros [x Hx]. exists (name, x). by rewrite elem_of_map_to_list.
Qed.

Lemma len_names c : len (names c) = Z.of_nat (size (members c)).
Proof. unfold names, len. by rewrite length_fmap, length_map_to_list. Qed.

(** ** All the partitions *)

(** The partitions a member owns. *)
Definition owned (parts : gmap Z Mem) (name : list byte) : nat :=
  size (filter (fun im : Z * Mem => String_of im.2 = name) parts).

(** The state of the distribution after the partitions [done]. *)
Record progress c (avg : Z) (ids : list Z) (parts : gmap Z Mem) (lds : gmap (list byte) Z)
    : Prop := {
  pg_parts i : match parts !! i with
               | Some m => i ∈ ids ∧ members c !! String_of m = Some m
               | None => i ∉ ids
               end;
  pg_load name : load_of lds name = Z.of_nat (owned parts name) ∧ (load_of lds name ≤ Z.max 0 avg);
  pg_total : total lds (names c) = len ids
}.

Lemma progress_empty c avg : progress c avg [] ∅ ∅.
Proof.
  split.
  - intros i. rewrite lookup_empty. apply not_elem_of_nil.
  - intros name. unfold owned. rewrite map_filter_empty, map_size_empty.
    unfold load_of. rewrite lookup_empty. simpl. lia.
  - apply total_empty.
Qed.

Lemma owned_insert (parts : gmap Z Mem) i m name :
  parts !! i = None →
  owned (<[i := m]> parts) name
  = (if decide (String_of m = name) then S (owned parts name) else owned parts name).
Proof.
  intros Hi. unfold owned. case_decide as Hd.
  - rewrite map_filter_insert_True by done. rewrite map_size_insert_None; [done|].
    rewrite map_lookup_filter_None. by left.
  - rewrite map_filter_insert_False by done. by rewrite delete_id.
Qed.

Lemma progress_step c avg ids i parts lds parts' lds' :
  progress c avg ids parts lds → i ∉ ids → takes c avg i parts parts' lds lds' →
  progress c avg (i :: ids) parts' lds'.
Proof.
  intros [Hp Hl Ht] Hi (m & Hm & Hroom & -> & ->).
  assert (parts !! i = None) as Hnone.
  { specialize (Hp i). destruct (parts !! i); [|done]. by destruct Hp. }
  split.
  - intros j. destruct (decide (j = i)) as [->|Hne].
    + rewrite lookup_insert_eq. split; [by left|done].
    + rewrite lookup_insert_ne by done. specialize (Hp j). destruct (parts !! j).
      * destruct Hp. split; [by right|done].
      * by apply not_elem_of_cons.
  - intros name. rewrite owned_insert by done. destruct (Hl name) as [Hl1 Hl2].
    case_decide as Hd.
    + subst name. rewrite load_of_insert. lia.
    + by rewrite load_of_insert_ne.
  - rewrite total_insert, Ht; [unfold len; simpl; lia| |].
    + apply NoDup_fst_map_to_list.
    + apply elem_of_names. by exists m.
Qed.

Lemma search_le key l : (search key l ≤ length l)%nat.
Proof. induction l as [|x l IH]; simpl; [lia|]. destruct (key <=? x); lia. Qed.

Lemma distribute_parts_ok c avg ids :
  wf c → 2 ≤ ReplicationFactor (config c) → members c ≠ ∅ →
  AverageLoad c = Return avg →
  ∀ done parts lds, NoDup (ids ++ done) → progress c avg done parts lds →
  len (ids ++ done) ≤ Z.of_nat (size (members c)) * avg →
  ∃ parts' lds', distribute_parts c ids parts lds = Return (parts', lds')
    ∧ progress c avg (rev ids ++ done) parts' lds'.
Proof.
  intros Hwf Hrf Hne Havg. induction ids as [|i ids IH]; intros done parts lds Hnd Hpg Hcap.
  { by eexists _, _. }
  cbn [distribute_parts]. set (n := length (sortedSet c)).
  (* a member has room *)
  assert (∃ name m, members c !! name = Some m ∧ load_of lds name + 1 ≤ avg)
    as (name & m & Hm & Hroom).
  { destruct (decide (Forall (fun name => avg ≤ load_of lds name) (names c))) as [Hall|Hex].
    - exfalso. rewrite Forall_forall in Hall. pose proof (total_low lds (names c) avg Hall) as Hlow.
      rewrite (pg_total _ _ _ _ _ Hpg), len_names in Hlow.
      unfold len in *. rewrite length_app in Hcap. simpl in Hcap. lia.
    - apply not_Forall_Exists in Hex; [|apply _]. apply Exists_exists in Hex as (name & Hin & Hlt).
      apply elem_of_names in Hin as [m Hm]. exists name, m. split; [done|]. simpl in Hlt. lia. }
  assert (0 < n)%nat as Hn.
  { assert (replica name 0 ∈ sortedSet c) as Hin.
    { apply (wf_set _ Hwf). exists name. split; [by exists m|]. apply list_elem_of_fmap.
      exists 0%nat. split; [done|]. apply elem_of_seq. lia. }
    unfold n. destruct (sortedSet c); [by apply not_elem_of_nil in Hin|simpl; lia]. }
  set (idx := if (n <=? search (Sum64 (little_endian i)) (sortedSet c))%nat then O
              else search (Sum64 (little_endian i)) (sortedSet c)).
  assert (idx < n)%nat as Hidx.
  { unfold idx. destruct (Nat.leb_spec n (search (Sum64 (little_endian i)) (sortedSet c))); lia. }
  destruct (free_member_found c avg i parts lds idx name m) as (parts1 & lds1 & Hrun & Htk); try done.
  unfold distributeWithLoad. rewrite Havg. cbn [mbind comp_bind]. fold n. fold n in Hrun.
  fold idx. rewrite Hrun. simpl. apply NoDup_cons in Hnd as [Hi Hnd].
  destruct (IH (i :: done) parts1 lds1) as (parts' & lds' & Hrest & Hpg').
  - rewrite <-Permutation_middle. by apply NoDup_cons.
  - eapply progress_step; [done| |done]. intros Hin. apply Hi. apply elem_of_app. by right.
  - rewrite <-Hcap. unfold len. simpl. rewrite !length_app. simpl. lia.
  - exists parts', lds'. split; [done|]. by rewrite <-app_assoc.
Qed.

(** Every partition has an owner among the members, and no member owns more than the
    average load. *)
Record assigned c (avg : Z) : Prop := {
  as_owner i : if decide (0 ≤ i < PartitionCount (config c))
               then ∃ m, partitions c !! i = Some m ∧ members c !! String_of m = Some m
               else partitions c !! i = None;
  as_load name : Z.of_nat (owned (partitions c) name) ≤ avg
                 ∧ load_of (loads c) name = Z.of_nat (owned (partitions c) name)
}.

Lemma elem_of_part_ids c i : i ∈ part_ids c ↔ 0 ≤ i < PartitionCount (config c).
Proof.
  unfold part_ids. rewrite list_elem_of_fmap. setoid_rewrite elem_of_seq. split.
  - intros (k & -> & Hk). lia.
  - intros Hi. exists (Z.to_nat i). lia.
Qed.

Lemma NoDup_part_ids c : NoDup (part_ids c).
Proof. apply NoDup_fmap_2_strong; [|apply NoDup_seq]. intros x y _ _. lia. Qed.

Lemma distributePartitions_ok c avg :
  wf c → 2 ≤ ReplicationFactor (config c) → members c ≠ ∅ → AverageLoad c = Return avg →
  0 ≤ avg → 0 ≤ PartitionCount (config c) ≤ Z.of_nat (size (members c)) * avg →
  ∃ c', distributePartitions c = Return c' ∧ wf c' ∧ assigned c' avg
    ∧ config c' = config c ∧ members c' = members c.
Proof.
  intros Hwf Hrf Hne Havg H0 [Hpc Hcap].
  destruct (distribute_parts_ok c avg (part_ids c) Hwf Hrf Hne Havg [] ∅ ∅)
    as (parts & lds & Hrun & Hpg).
  - rewrite app_nil_r. apply NoDup_part_ids.
  - apply progress_empty.
  - rewrite app_nil_r. unfold len, part_ids. rewrite length_map, length_seq. lia.
  - unfold distributePartitions. rewrite Hrun. simpl. eexists. split; [done|].
    rewrite app_nil_r in Hpg. split; [by destruct Hwf|]. split; [|done]. split; simpl.
    + intros i. pose proof (pg_parts _ _ _ _ _ Hpg i) as Hi.
      destruct (parts !! i) as [m|]; rewrite <-Permutation_rev, elem_of_part_ids in Hi;
        case_decide; try tauto. exists m. tauto.
    + intros name. destruct (pg_load _ _ _ _ _ Hpg name). lia.
Qed.

(** ** The default load factor *)
Definition default_load : float64 := mkFloat 5 2.

Lemma ceil_mul_default k : 0 ≤ k < 2 ^ 50 → ceil_mul k default_load = k + (k + 3) / 4.
Proof.
  intros Hk. unfold ceil_mul, default_load. simpl f_sig. simpl f_exp.
  rewrite round53_exact by lia. change (2 ^ 2) with 4.
  pose proof (Z.div_mod (k + 3) 4). pose proof (Z.mod_pos_bound (k + 3) 4).
  pose proof (Z.div_mod (- (k * 5)) 4). pose proof (Z.mod_pos_bound (- (k * 5)) 4). lia.
Qed.

Lemma average_default c :
  Load (config c) = default_load → members c ≠ ∅ →
  0 ≤ PartitionCount (config c) < 2 ^ 50 →
  let q := PartitionCount (config c) / Z.of_nat (size (members c)) in
  AverageLoad c = Return (q + (q + 3) / 4).
Proof.
  intros Hl Hne Hpc q. assert (size (members c) ≠ 0)%nat by by rewrite map_size_non_empty_iff.
  unfold AverageLoad. rewrite checked_true by (apply negb_true_iff, Z.eqb_neq; lia).
  fold q. rewrite Hl, ceil_mul_default; [done|]. split; [apply Z.div_pos; lia|].
  eapply Z.le_lt_trans; [|apply Hpc]. apply Z.div_le_upper_bound; nia.
Qed.

Lemma default_capacity pc n :
  0 < n ≤ pc → let q := pc / n in 0 ≤ q + (q + 3) / 4 ∧ pc ≤ n * (q + (q + 3) / 4).
Proof.
  intros Hn q. pose proof (Z.div_mod pc n). pose proof (Z.mod_pos_bound pc n).
  assert (1 ≤ q) by (apply Z.div_le_lower_bound; lia).
  assert (1 ≤ (q + 3) / 4) by (apply Z.div_le_lower_bound; lia). nia.
Qed.

Lemma distribute_default c :
  wf c → 2 ≤ ReplicationFactor (config c) → Load (config c) = default_load →
  PartitionCount (config c) < 2 ^ 50 →
  0 < Z.of_nat (size (members c)) ≤ PartitionCount (config c) →
  ∃ c' avg, distributePartitions c = Return c' ∧ AverageLoad c' = Return avg
    ∧ wf c' ∧ assigned c' avg ∧ config c' = config c ∧ members c' = members c.
Proof.
  intros Hwf Hrf Hl Hpc Hn.
  assert (members c ≠ ∅) as Hne by (intros E; rewrite E, map_size_empty in Hn; lia).
  pose proof (default_capacity _ _ Hn) as [H0 Hcap].
  pose proof (average_default c Hl Hne ltac:(lia)) as Havg.
  destruct (distributePartitions_ok c _ Hwf Hrf Hne Havg H0 ltac:(lia))
    as (c' & Hrun & Hwf' & Has & Hcfg & Hmem).
  eexists c', _. split; [done|]. split; [|done].
  unfold AverageLoad in *. by rewrite Hcfg, Hmem.
Qed.

(** ** Adding and removing members *)
Lemma foldl_insert_lookup (hs : list Z) (m : Mem) (r : gmap Z Mem) h :
  foldl (fun r h => <[h := m]> r) r hs !! h = if decide (h ∈ hs) then Some m else r !! h.
Proof.
  revert r. induction hs as [|x hs IH]; intros r; [done|]. cbn [foldl]. rewrite IH.
  destruct (decide (h ∈ hs)) as [Hin|Hin].
  - rewrite decide_True; [done|]. by right.
  - destruct (decide (h = x)) as [->|Hne].
    + rewrite lookup_insert_eq, decide_True; [done|by left].
    + rewrite lookup_insert_ne, decide_False; [done| |done]. by apply not_elem_of_cons.
Qed.

Lemma foldl_delete_lookup (hs : list Z) (r : gmap Z Mem) h :
  foldl (fun r h => base.delete h r) r hs !! h = if decide (h ∈ hs) then None else r !! h.
Proof.
  revert r. induction hs as [|x hs IH]; intros r; [done|]. cbn [foldl]. rewrite IH.
  destruct (decide (h ∈ hs)) as [Hin|Hin].
  - rewrite decide_True; [done|]. by right.
  - destruct (decide (h = x)) as [->|Hne].
    + rewrite lookup_delete_eq, decide_True; [done|by left].
    + rewrite lookup_delete_ne, decide_False; [done| |done]. by apply not_elem_of_cons.
Qed.

(** Adding a member whose replicas collide with no other hash. *)
Lemma add_wf m c :
  wf c → members c !! String_of m = None →
  NoDup (sortedSet c ++ replicas (config c) (String_of m)) → wf (add m c).
Proof.
  intros Hwf Hnew Hnd. pose proof Hnd as (_ & Hdisj & Hnd2)%NoDup_app. split; simpl.
  - apply (StronglySorted_merge_sort Z.le).
  - by rewrite merge_sort_Permutation.
  - intros h. rewrite merge_sort_Permutation, elem_of_app, (wf_set _ Hwf). split.
    + intros [(name & [x Hx] & Hh)|Hh]; [|exists (String_of m); split; [|done]; by rewrite lookup_insert_eq].
      exists name. split; [|done]. rewrite lookup_insert_ne; [by exists x|]. intros <-. congruence.
    + intros (name & Hn & Hh). destruct (decide (name = String_of m)) as [->|Hne]; [by right|].
      rewrite lookup_insert_ne in Hn by done. left. by exists name.
  - intros name Hn. destruct (decide (name = String_of m)) as [->|Hne]; [done|].
    rewrite lookup_insert_ne in Hn by done. by apply wf_apart.
  - intros name x. destruct (decide (name = String_of m)) as [->|Hne].
    + rewrite lookup_insert_eq. by intros [= ->].
    + rewrite lookup_insert_ne by done. by apply wf_names.
  - intros name x h. rewrite foldl_insert_lookup. destruct (decide (name = String_of m)) as [->|Hne].
    + rewrite lookup_insert_eq. intros [= ->] Hh. by rewrite decide_True.
    + rewrite lookup_insert_ne by done. intros Hx Hh. rewrite decide_False; [by eapply wf_ring|].
      apply Hdisj. apply (wf_set _ Hwf). exists name. split; [by exists x|done].
Qed.

Lemma delSlice_filter val l : NoDup l → delSlice val l = filter (fun x => x ≠ val) l.
Proof.
  intros Hnd. assert (∀ l', val ∉ l' → delSlice val l' = l') as Hnot.
  { induction l' as [|x l' IH]; [done|]. intros [Hx Hl]%not_elem_of_cons. cbn [delSlice].
    rewrite (proj2 (Z.eqb_neq _ _)) by done. by rewrite IH. }
  induction Hnd as [|x l Hx Hnd IH]; [done|]. cbn [delSlice].
  destruct (Z.eqb_spec x val) as [->|Hne].
  - rewrite filter_cons_False by tauto.
    rewrite filter_all by (by intros y Hy ->). destruct l as [|y l]; [done|].
    apply not_elem_of_cons in Hx as [_ Hx]. by rewrite Hnot.
  - rewrite filter_cons_True by done. by rewrite IH.
Qed.

Lemma delSlices_filter hs l :
  NoDup l → foldl (fun l h => delSlice h l) l hs = filter (fun x => x ∉ hs) l.
Proof.
  revert l. induction hs as [|h hs IH]; intros l Hnd; cbn [foldl].
  - symmetry. apply filter_all. intros x _. apply not_elem_of_nil.
  - rewrite delSlice_filter, IH by (done || by apply NoDup_filter). rewrite list_filter_filter.
    apply list_filter_iff. intros x. rewrite not_elem_of_cons. tauto.
Qed.

(** The ring without a member, before the partitions are distributed again. *)
Definition without (name : list byte) c : Consistent :=
  mkConsistent (config c) (foldl (fun l h => delSlice h l) (sortedSet c) (replicas (config c) name))
    (loads c) (base.delete name (members c)) (partitions c)
    (foldl (fun r h => base.delete h r) (ring c) (replicas (config c) name)).

Lemma replicas_disjoint c n1 n2 h :
  wf c → is_Some (members c !! n1) → is_Some (members c !! n2) →
  h ∈ replicas (config c) n1 → h ∈ replicas (config c) n2 → n1 = n2.
Proof.
  intros Hwf [m1 H1] [m2 H2] Hh1 Hh2. pose proof (wf_ring _ Hwf _ _ _ H1 Hh1).
  pose proof (wf_ring _ Hwf _ _ _ H2 Hh2). simplify_eq.
  by rewrite <-(wf_names _ Hwf _ _ H1), <-(wf_names _ Hwf _ _ H2).
Qed.

Lemma StronglySorted_filter (P : Z → Prop) `{!∀ x, Decision (P x)} l :
  StronglySorted Z.le l → StronglySorted Z.le (filter P l).
Proof.
  induction 1 as [|x l Hs IH Hall]; [constructor|]. rewrite filter_cons. case_decide; [|done].
  constructor; [done|]. rewrite Forall_forall in *. intros y Hy.
  apply list_elem_of_filter in Hy as [_ Hy]. by apply Hall.
Qed.

Lemma without_wf name c : wf c → is_Some (members c !! name) → wf (without name c).
Proof.
  intros Hwf Hin.
  assert (∀ n h, n ≠ name → is_Some (members c !! n) → h ∈ replicas (config c) n →
    h ∉ replicas (config c) name) as Hother.
  { intros n h Hne Hn Hh Hh'. apply Hne. by eapply replicas_disjoint. }
  split; simpl; rewrite ?delSlices_filter by apply (wf_nodup _ Hwf).
  - apply StronglySorted_filter, (wf_sorted _ Hwf).
  - apply NoDup_filter, (wf_nodup _ Hwf).
  - intros h. rewrite list_elem_of_filter, (wf_set _ Hwf). split.
    + intros [Hh (n & Hn & Hhn)]. exists n. split; [|done].
      rewrite lookup_delete_ne; [done|]. by intros <-.
    + intros (n & Hn & Hh). destruct (decide (n = name)) as [->|Hne].
      * rewrite lookup_delete_eq in Hn. by destruct Hn.
      * rewrite lookup_delete_ne in Hn by done. split; [by eapply Hother|by exists n].
  - intros n Hn. apply (wf_apart _ Hwf). destruct (decide (n = name)) as [->|Hne]; [done|].
    by rewrite lookup_delete_ne in Hn by done.
  - intros n m [_ Hm]%lookup_delete_Some. by eapply wf_names.
  - intros n m h [Hne Hm]%lookup_delete_Some Hh. rewrite foldl_delete_lookup, decide_False.
    + by eapply wf_ring.
    + eapply (Hother n); [done|by exists m|done].
Qed.

(** A ring with more members than partitions has no room: the average load is 0. *)
Lemma crowded_loop c partID parts rest idx : distribute_loop rest c 0 partID idx parts ∅ = Panic.
Proof.
  revert idx. induction rest as [|rest IH]; intros idx; [done|]. cbn [distribute_loop].
  destruct (sortedSet c !! idx); [|done]. destruct (ring c !! _); [|done].
  rewrite lookup_empty. simpl. apply IH.
Qed.

Lemma crowded_panics c :
  0 < PartitionCount (config c) < Z.of_nat (size (members c)) → distributePartitions c = Panic.
Proof.
  intros Hpc. unfold distributePartitions, part_ids.
  destruct (Z.to_nat (PartitionCount (config c))) as [|k] eqn:Hk; [lia|].
  cbn [seq map distribute_parts]. unfold distributeWithLoad, AverageLoad.
  rewrite checked_true by (apply negb_true_iff, Z.eqb_neq; lia).
  rewrite Z.div_small by lia. unfold ceil_mul. rewrite Z.mul_0_l.
  change (round53 0) with 0. rewrite Zdiv_0_l. simpl. by rewrite crowded_loop.
Qed.

(** ** The closest members *)
Lemma member_keys_spec c owner :
  ∀ nms keys kmems ok, member_keys c owner nms keys kmems ok
  = (keys ++ map Sum64 nms,
     foldl (fun r n => match members c !! n with Some m => <[Sum64 n := m]> r | None => r end)
       kmems nms,
     if decide (owner ∈ nms) then Sum64 owner else ok).
Proof.
  induction nms as [|n nms IH]; intros keys kmems ok; cbn [member_keys foldl map].
  { by rewrite app_nil_r. }
  rewrite IH, <-app_assoc. f_equal. case_bool_decide as Hn.
  - subst n. rewrite (decide_True (P := owner ∈ owner :: nms)) by by left. by case_decide.
  - destruct (decide (owner ∈ nms)) as [Hin|Hin].
    + rewrite decide_True; [done|]. by right.
    + rewrite decide_False; [done|]. by apply not_elem_of_cons.
Qed.

(** The names of the members have distinct hashes. *)
Definition distinct_keys c : Prop :=
  ∀ n1 n2, is_Some (members c !! n1) → is_Some (members c !! n2) → Sum64 n1 = Sum64 n2 → n1 = n2.

Lemma kmems_spec c nms (r : gmap Z Mem) :
  distinct_keys c → (∀ n, n ∈ nms → is_Some (members c !! n)) →
  ∀ n m, members c !! n = Some m → (n ∈ nms ∨ r !! Sum64 n = Some m) →
  foldl (fun r n => match members c !! n with Some m => <[Sum64 n := m]> r | None => r end) r nms
    !! Sum64 n = Some m.
Proof.
  intros Hd. revert r. induction nms as [|x nms IH]; intros r Hin n m Hm Hor; cbn [foldl].
  { destruct Hor as [Hor|Hor]; [by apply not_elem_of_nil in Hor|done]. }
  apply IH; [intros y Hy; apply Hin; by right|done|].
  destruct (Hin x) as [mx Hx]; [by left|]. rewrite Hx.
  destruct (decide (n = x)) as [->|Hne].
  - right. rewrite lookup_insert_eq. congruence.
  - destruct Hor as [[->|Hor]%elem_of_cons|Hor]; [done|by left|right].
    rewrite lookup_insert_ne; [done|]. intros E. apply Hne. apply Hd; [by exists m|by exists mx|done].
Qed.

Lemma position_spec k keys : k ∈ keys → keys !! position k keys = Some k.
Proof.
  induction keys as [|x keys IH]; [by intros ?%not_elem_of_nil|]. cbn [position].
  destruct (Z.eqb_spec x k) as [->|Hne]; [done|]. intros [->|Hk]%elem_of_cons; [done|]. by apply IH.
Qed.

(** The members the loop collects are those of the keys after the one of the owner, going
    around the circle. *)
Lemma closest_loop_spec keys (kmems : gmap Z Mem) count :
  (∀ k, k ∈ keys → is_Some (kmems !! k)) → keys ≠ [] →
  ∀ idx, (idx < length keys)%nat →
  ∃ res, closest_loop count keys kmems idx = Return res ∧ length res = count
    ∧ ∀ j m, res !! j = Some m →
        ∃ k, keys !! ((idx + S j) mod length keys)%nat = Some k ∧ kmems !! k = Some m.
Proof.
  intros Hkm Hne. induction count as [|count IH]; intros idx Hidx.
  { by exists []. }
  cbn [closest_loop]. fold (after (length keys) idx).
  pose proof (after_lt (length keys) idx Hidx) as Hidx'.
  destruct (lookup_lt_is_Some_2 _ _ Hidx') as [k Hk]. rewrite Hk.
  destruct (Hkm k) as [m Hm]; [by eapply list_elem_of_lookup_2|]. rewrite Hm.
  destruct (IH _ Hidx') as (res & Hrun & Hlen & Hres). rewrite Hrun. simpl.
  exists (m :: res). split; [done|]. split; [simpl; by rewrite Hlen|].
  intros [|j] m' Hj; simpl in Hj.
  - simplify_eq. exists k. split; [|done].
    rewrite <-(after_mod (length keys) idx 0) by done. rewrite Nat.add_0_r.
    by rewrite Nat.mod_small by done.
  - destruct (Hres j m' Hj) as (k' & Hk' & Hm'). exists k'. split; [|done].
    rewrite <-Hk', <-(after_mod (length keys) idx (S j)) by done. done.
Qed.

Lemma mod_apart n p i j :
  (p < n)%nat → (i < n)%nat → (j < n)%nat → ((p + i) mod n = (p + j) mod n)%nat → i = j.
Proof.
  intros Hp Hi Hj E. assert (∀ k, (k < n)%nat →
    ((p + k) mod n = if decide (p + k < n) then p + k else p + k - n)%nat) as Hmod.
  { intros k Hk. case_decide; [by apply Nat.mod_small|].
    replace (p + k)%nat with ((p + k - n) + 1 * n)%nat at 1 by lia.
    rewrite Nat.Div0.mod_add. apply Nat.mod_small. lia. }
  rewrite !Hmod in E by done. repeat case_decide; lia.
Qed.

(** What the closest members are: as many as asked for, all different, none the owner. *)
Definition closest c (owner : Mem) (count : Z) (res : list Mem) : Prop :=
  len res = count ∧ NoDup res ∧ (owner ∉ res)
  ∧ ∀ m, m ∈ res → members c !! String_of m = Some m.

(** Members whose keys follow the one of the owner on the circle, one key each. *)
Lemma closest_around c (owner : Mem) (keys : list Z) p count res :
  NoDup keys → keys !! p = Some (Sum64 (String_of owner)) →
  0 ≤ count < Z.of_nat (length keys) → length res = Z.to_nat count →
  (∀ j m, res !! j = Some m → members c !! String_of m = Some m
    ∧ keys !! ((p + S j) mod length keys)%nat = Some (Sum64 (String_of m))) →
  closest c owner count res.
Proof.
  intros Hnd Hpos Hcount Hrl Hat. pose proof (lookup_lt_Some _ _ _ Hpos) as Hp.
  split; [unfold len; lia|]. split; [|split].
  - apply NoDup_alt. intros j1 j2 m H1 H2.
    destruct (Hat _ _ H1) as [_ K1]. destruct (Hat _ _ H2) as [_ K2].
    apply lookup_lt_Some in H1, H2. pose proof (NoDup_lookup _ _ _ _ Hnd K1 K2) as E.
    apply mod_apart in E; lia.
  - intros [j Hj]%list_elem_of_lookup_1. destruct (Hat _ _ Hj) as [_ K].
    apply lookup_lt_Some in Hj. pose proof (NoDup_lookup _ _ _ _ Hnd K Hpos) as E.
    replace p with ((p + 0) mod length keys)%nat in E at 2
      by (rewrite Nat.add_0_r; by apply Nat.mod_small).
    apply mod_apart in E; lia.
  - intros m [j Hj]%list_elem_of_lookup_1. by destruct (Hat _ _ Hj).
Qed.

Lemma getClosestN_spec `{!RangeOrder (list byte)} c partID owner count :
  wf c → distinct_keys c → partitions c !! partID = Some owner →
  members c !! String_of owner = Some owner → 0 ≤ count < Z.of_nat (size (members c)) →
  ∃ res, getClosestN c partID count = Return (inr res) ∧ closest c owner count res.
Proof.
  intros Hwf Hd Hpart Hown Hcount. unfold getClosestN, GetPartitionOwner.
  rewrite (proj2 (Z.ltb_ge _ _)) by lia. rewrite Hpart, member_keys_spec. cbn [app].
  set (nms := range_keys 0 (members c)).
  assert (∀ n, n ∈ nms ↔ is_Some (members c !! n)) as Hnms by apply elem_of_range_keys.
  set (kmems := foldl _ _ nms). set (keys := merge_sort Z.le (map Sum64 nms)).
  rewrite decide_True by (apply Hnms; by exists owner).
  assert (keys ≡ₚ map Sum64 nms) as Hperm by apply merge_sort_Permutation.
  assert (length keys = size (members c)) as Hlen.
  { rewrite Hperm, length_map. apply length_range_keys. }
  assert (∀ n m, members c !! n = Some m → kmems !! Sum64 n = Some m) as Hkm.
  { intros n m Hm. apply kmems_spec; [done|by intros x Hx%Hnms|done|].
    left. apply Hnms. by exists m. }
  assert (∀ k, k ∈ keys → ∃ n m, k = Sum64 n ∧ members c !! n = Some m) as Hkeys.
  { intros k Hk. rewrite Hperm in Hk. apply list_elem_of_fmap in Hk as (n & -> & Hn).
    apply Hnms in Hn as [m Hm]. by exists n, m. }
  assert (keys !! position (Sum64 (String_of owner)) keys = Some (Sum64 (String_of owner))) as Hpos.
  { apply position_spec. rewrite Hperm. apply list_elem_of_fmap. exists (String_of owner).
    split; [done|]. apply Hnms. by exists owner. }
  set (p := position _ _) in *. pose proof (lookup_lt_Some _ _ _ Hpos) as Hp.
  destruct (closest_loop_spec keys kmems (Z.to_nat count)) with (idx := p)
    as (res & Hrun & Hrl & Hres); [| |done|].
  { intros k (n & m & -> & Hm)%Hkeys. exists m. by apply Hkm. }
  { intros E. rewrite E in Hp. simpl in Hp. lia. }
  rewrite Hrun. simpl. exists res. split; [done|]. apply (closest_around _ _ keys p); try done; [|lia|].
  - rewrite Hperm. apply NoDup_fmap_2_strong; [|apply NoDup_range_keys].
    intros x y Hx%Hnms Hy%Hnms. by apply Hd.
  - intros j m Hj. destruct (Hres j m Hj) as (k & Hk & Hmk).
    destruct (Hkeys k) as (n & m' & -> & Hm'); [by eapply list_elem_of_lookup_2|].
    rewrite (Hkm _ _ Hm') in Hmk. simplify_eq. pose proof (wf_names _ Hwf _ _ Hm') as E.
    by rewrite E.
Qed.

Lemma Add_spec m c :
  wf c → members c !! String_of m = None →
  2 ≤ ReplicationFactor (config c) → Load (config c) = default_load →
  Z.of_nat (S (size (members c))) ≤ PartitionCount (config c) < 2 ^ 50 →
  NoDup (sortedSet c ++ replicas (config c) (String_of m)) →
  ∃ c' avg, Add m c = Return c' ∧ wf c' ∧ members c' = <[String_of m := m]> (members c)
    ∧ AverageLoad c' = Return avg ∧ assigned c' avg ∧ config c' = config c.
Proof.
  intros Hwf Hnew Hrf Hl Hpc Hnd. unfold Add. rewrite Hnew.
  destruct (distribute_default (add m c)) as (c' & avg & Hrun & Havg & Hwf' & Has & Hcfg & Hmem);
    [by apply add_wf|done|done|simpl; lia| |by exists c', avg].
  simpl. rewrite map_size_insert_None by done. lia.
Qed.

Lemma Remove_spec name c :
  wf c → is_Some (members c !! name) →
  2 ≤ ReplicationFactor (config c) → Load (config c) = default_load →
  Z.of_nat (size (members c)) ≤ PartitionCount (config c) < 2 ^ 50 →
  ∃ c', Remove name c = Return c' ∧ wf c' ∧ members c' = base.delete name (members c)
    ∧ (members c' = ∅ → partitions c' = ∅)
    ∧ (members c' ≠ ∅ → ∃ avg, AverageLoad c' = Return avg ∧ assigned c' avg)
    ∧ config c' = config c.
Proof.
  intros Hwf [m Hm] Hrf Hl Hpc. unfold Remove. rewrite Hm. cbn zeta. fold (without name c).
  assert (wf (without name c)) as Hwf' by (apply without_wf; [done|by exists m]).
  case_decide as Hd.
  { eexists. split; [done|]. split; [by destruct Hwf'|]. split; [done|]. split; [done|].
    split; [|done]. intros Hne. by destruct Hne. }
  destruct (distribute_default (without name c))
    as (c' & avg & Hrun & Havg & Hwf2 & Has & Hcfg & Hmem); [done|done|done|simpl; lia| |].
  { assert (size (base.delete name (members c)) ≠ 0)%nat as Hs
      by by rewrite map_size_non_empty_iff.
    simpl. rewrite map_size_delete, Hm in *. simpl in *. lia. }
  exists c'. split; [done|]. split; [done|]. split; [done|].
  split; [rewrite Hmem; intros E; by destruct Hd|]. split; [|done]. intros _. by exists avg.
Qed.

(** C31: adding a member to the ring, with the default load factor, at least two replicas, no
    more members than partitions and no collision of hashes, never panics ("not enough
    room to distribute partitions"): the new member is on the circle, every partition has
    an owner that is a member, and no member owns more than the average load. *)
Theorem Add_correct m c :
  wf c → members c !! String_of m = None →
  2 ≤ ReplicationFactor (config c) → Load (config c) = default_load →
  Z.of_nat (S (size (members c))) ≤ PartitionCount (config c) < 2 ^ 50 →
  NoDup (sortedSet c ++ replicas (config c) (String_of m)) →
  ∃ c' avg, Add m c = Return c' ∧ wf c' ∧ members c' = <[String_of m := m]> (members c)
    ∧ AverageLoad c' = Return avg ∧ assigned c' avg.
Proof.
  intros. destruct (Add_spec m c) as (c' & avg & ? & ? & ? & ? & ? & _); [done..|]. by exists c', avg.
Qed.

(** Removing a member never panics under the same conditions: its replicas leave the
    circle, and the partitions are distributed over the remaining members; the last member
    that leaves takes all the partitions with it. *)
Theorem Remove_correct name c :
  wf c → is_Some (members c !! name) →
  2 ≤ ReplicationFactor (config c) → Load (config c) = default_load →
  Z.of_nat (size (members c)) ≤ PartitionCount (config c) < 2 ^ 50 →
  ∃ c', Remove name c = Return c' ∧ wf c' ∧ members c' = base.delete name (members c)
    ∧ (members c' = ∅ → partitions c' = ∅)
    ∧ (members c' ≠ ∅ → ∃ avg, AverageLoad c' = Return avg ∧ assigned c' avg).
Proof.
  intros. destruct (Remove_spec name c) as (c' & ? & ? & ? & ? & ? & _); [done..|]. by exists c'.
Qed.

(** A member that joins a ring with as many members as partitions crashes the node: the
    average load is computed by an integer division that gives 0. *)
Theorem crowded_ring_panics m c :
  members c !! String_of m = None →
  0 < PartitionCount (config c) ≤ Z.of_nat (size (members c)) → Add m c = Panic.
Proof.
  intros Hnew Hpc. unfold Add. rewrite Hnew. apply crowded_panics. simpl.
  rewrite map_size_insert_None by done. lia.
Qed.

(** When the names of the members have distinct hashes, the closest members of a
    partition are as many as asked for, all different, all members, and none of them is
    the owner: these are the hosts of the backups. *)
Theorem getClosestN_correct `{!RangeOrder (list byte)} c avg partID count :
  wf c → assigned c avg → distinct_keys c → 0 ≤ partID < PartitionCount (config c) →
  0 ≤ count < Z.of_nat (size (members c)) →
  ∃ owner res, GetPartitionOwner c partID = Some owner
    ∧ GetClosestNForPartition c partID count = Return (inr res) ∧ closest c owner count res.
Proof.
  intros Hwf Has Hd Hid Hcount. pose proof (as_owner _ _ Has partID) as Ho.
  rewrite decide_True in Ho by done. destruct Ho as (owner & Hpart & Hown).
  destruct (getClosestN_spec c partID owner count) as (res & Hrun & Hc); try done.
  by exists owner, res.
Qed.
End ringspec.

(** ** A concrete ring *)

(** Members that are their names, and the FNV-1a hash. *)
Definition name_member : Member (list byte) := fun name => name.
Definition fnv1a (bs : list byte) : Z :=
  foldl (fun h b => (Z.lxor h (unsigned b) * 1099511628211) mod 2 ^ 64) 14695981039346656037 bs.
Program Definition fnv_hasher : Hasher := {| Sum64 bs := fnv1a bs mod 2 ^ 64 |}.
Next Obligation. intros bs. by apply Z.mod_pos_bound. Qed.

Section example.
Local Existing Instances name_member fnv_hasher.

Definition ex_cfg : Config := mkConfig 7 20 default_load.
Definition ann : list byte := String.list_byte_of_string "ann:3320".
Definition joe : list byte := String.list_byte_of_string "joe:3320".
Definition ex_empty : Consistent (list byte) := New ex_cfg.
Definition ex_two : Consistent (list byte) := add joe (add ann ex_empty).

Lemma ex_two_wf : wf ex_two.
Proof.
  apply add_wf; [apply add_wf; [apply empty_ring_wf|done|]|by vm_compute|].
  - refine (bool_decide_eq_true_1 _ _). vm_compute. reflexivity.
  - refine (bool_decide_eq_true_1 _ _). vm_compute. reflexivity.
Qed.

Lemma Add_correct_witness :
  ∃ c' avg, Add ann ex_empty = Return c' ∧ wf c' ∧ AverageLoad c' = Return avg ∧ assigned c' avg.
Proof.
  destruct (Add_correct ann ex_empty) as (c' & avg & H1 & H2 & _ & H3 & H4).
  - apply empty_ring_wf.
  - done.
  - done.
  - done.
  - done.
  - refine (bool_decide_eq_true_1 _ _). vm_compute. reflexivity.
  - exists c', avg. exact (conj H1 (conj H2 (conj H3 H4))).
Defined.

Lemma Remove_correct_witness :
  ∃ c', Remove ann ex_two = Return c' ∧ wf c' ∧ members c' = base.delete ann (members ex_two).
Proof.
  destruct (Remove_correct ann ex_two) as (c' & H1 & H2 & H3 & _).
  - apply ex_two_wf.
  - exists ann. vm_compute. reflexivity.
  - vm_compute. discriminate.
  - reflexivity.
  - split; vm_compute; [discriminate|reflexivity].
  - exists c'. exact (conj H1 (conj H2 H3)).
Defined.

Lemma crowded_ring_witness :
  Add joe (add ann (New (mkConfig 1 20 default_load))) = Panic.
Proof.
  apply (crowded_ring_panics joe (add ann (New (mkConfig 1 20 default_load)))).
  - vm_compute. reflexivity.
  - split; vm_compute; [reflexivity|discriminate].
Defined.

Lemma ex_distinct c : members c = members ex_two → distinct_keys c.
Proof.
  intros E n1 n2. rewrite E. intros H1 H2 Hs.
  assert (∀ n, is_Some (members ex_two !! n) → n = ann ∨ n = joe) as Hn.
  { intros n [m Hm]. simpl in Hm. apply lookup_insert_Some in Hm as [[<- _]|[_ Hm]]; [by right|].
    apply lookup_insert_Some in Hm as [[<- _]|[_ Hm]]; [by left|done]. }
  destruct (Hn n1 H1) as [->| ->], (Hn n2 H2) as [->| ->]; try done; exfalso;
    revert Hs; by vm_compute.
Qed.

Lemma getClosestN_witness :
  ∃ c owner res, GetPartitionOwner c 3 = Some owner
    ∧ GetClosestNForPartition c 3 1 = Return (inr res) ∧ closest c owner 1 res.
Proof.
  destruct (distribute_default ex_two ex_two_wf) as (c & avg & _ & _ & Hwf & Has & Hcfg & Hmem);
    [vm_compute; discriminate|reflexivity|vm_compute; reflexivity
    |split; vm_compute; [reflexivity|discriminate]|].
  destruct (getClosestN_correct c avg 3 1 Hwf Has (ex_distinct c Hmem)) as (owner & res & H1 & H2 & H3).
  - rewrite Hcfg. split; vm_compute; [discriminate|reflexivity].
  - rewrite Hmem. split; vm_compute; [discriminate|reflexivity].
  - exists c, owner, res. exact (conj H1 (conj H2 H3)).
Defined.
End example.
End ringspec.
