(* ===== verification/Table.v ===== *)
(** The storage table: [internal/storage/table.go].

    A table is an append-only area of memory obtained from [mmap], a map from
    hashed keys to the offsets of their entries, and counters.  The file models
    every operation of the table, gives the layout of an entry a reference
    definition ([entry_bytes]/[decode_at]) and proves that the operations
    implement a finite map on the well-formed tables. *)

From S2P Require Export Bytes.

(** ** Data *)

(** The errors of the package [storage]; [Errno] is an error of a system call
    and [ErrMsgpack] one of the package [msgpack]. *)
Inductive serror :=
  | errNotEnoughSpace
  | ErrKeyTooLarge
  | ErrKeyNotFound
  | ErrFragmented
  | Errno (code : Z)
  | ErrMsgpack (code : Z).

#[export] Instance serror_eq_decision : EqDecision serror.
Proof. solve_decision. Defined.

Record VData := mkVData {
  vd_Key : list byte;
  vd_TTL : Z;
  vd_Value : list byte
}.

#[export] Instance VData_eq_decision : EqDecision VData.
Proof. solve_decision. Defined.

Module table.

Definition minimumSize : Z := Z.shiftl 1 20.
Definition maxKeyLen : Z := 256.

Record table := mkTable {
  hkeys : gmap Z Z;
  memory : mem;
  offset : Z;
  allocated : Z;
  inuse : Z;
  garbage : Z
}.

Definition set_hkeys (f : gmap Z Z → gmap Z Z) (t : table) : table :=
  mkTable (f (hkeys t)) (memory t) (offset t) (allocated t) (inuse t) (garbage t).
Definition set_memory (m : mem) (t : table) : table :=
  mkTable (hkeys t) m (offset t) (allocated t) (inuse t) (garbage t).
Definition add_offset (n : Z) (t : table) : table :=
  mkTable (hkeys t) (memory t) (offset t + n) (allocated t) (inuse t) (garbage t).
Definition add_inuse (n : Z) (t : table) : table :=
  mkTable (hkeys t) (memory t) (offset t) (allocated t) (inuse t + n) (garbage t).
Definition add_garbage (n : Z) (t : table) : table :=
  mkTable (hkeys t) (memory t) (offset t) (allocated t) (inuse t) (garbage t + n).

(** ** Operations *)

(** [malloc]: the memory is the result of an anonymous [mmap]; [mmap size] is the
    answer of the kernel, [None] for success and [Some errno] for a failure. *)
Definition malloc (mmap : Z → option Z) (t : table) (size : Z) : table * option serror :=
  match mmap size with
  | Some errno => (t, Some (Errno errno))
  | None => (set_memory (Mem size ∅) t, None)
  end.

Definition newTable (mmap : Z → option Z) (size : Z) : serror + table :=
  let size := if size <? minimumSize then minimumSize else size in
  let t := mkTable ∅ (Mem 0 ∅) 0 size 0 0 in
  match malloc mmap t size with
  | (_, Some err) => inl err
  | (t, None) => inr t
  end.

(** [close] unmaps the memory of the table; [munmap] is the answer of the kernel. *)
Definition close (munmap : Z → option Z) (t : table) : option serror :=
  Errno <$> munmap (mem_len (memory t)).

Definition putRaw (t : table) (hkey : Z) (value : list byte) : comp (table * option serror) :=
  let n := len value in
  if allocated t <=? n + offset t then Return (t, Some errNotEnoughSpace) else
  let t := set_hkeys <[hkey := offset t]> t in
  m ← mem_copy (memory t) (offset t) value;
  let t := set_memory m t in
  Return (add_offset n (add_inuse n t), None).

(** [delete] answers [true] when the key is not in this table. *)
Definition delete (t : table) (hkey : Z) : comp (table * bool) :=
  match hkeys t !! hkey with
  | None => Return (t, true)
  | Some off =>
      b ← mem_load (memory t) off;
      let klen := unsigned b in
      let off := off + (1 + klen) in
      let g := 1 + klen in
      let off := off + 8 in
      let g := g + 8 in
      vraw ← mem_slice (memory t) off (off + 4);
      let vlen := be_decode vraw in
      let g := g + (4 + vlen) in
      let t := set_hkeys (base.delete hkey) t in
      Return (add_inuse (- g) (add_garbage g t), false)
  end.

(** The two statements [copy(t.memory[t.offset:], src); t.offset += len(src)]. *)
Definition write_copy (t : table) (src : list byte) : comp table :=
  m ← mem_copy (memory t) (offset t) src;
  Return (add_offset (len src) (set_memory m t)).

(** [binary.BigEndian.PutUint64(t.memory[t.offset:], z); t.offset += 8], and the
    same for [PutUint32] and [4]. *)
Definition write_uint (n : nat) (t : table) (z : Z) : comp table :=
  m ← mem_put_uint n (memory t) (offset t) z;
  Return (add_offset (Z.of_nat n) (set_memory m t)).

Definition put (t : table) (hkey : Z) (value : VData) : comp (table * option serror) :=
  if maxKeyLen <=? len (vd_Key value) then Return (t, Some ErrKeyTooLarge) else
  let n := len (vd_Key value) + len (vd_Value value) + 13 in
  if allocated t <=? n + offset t then Return (t, Some errNotEnoughSpace) else
  t ← match hkeys t !! hkey with
      | Some _ => r ← delete t hkey; Return r.1
      | None => Return t
      end;
  let t := set_hkeys <[hkey := offset t]> t in
  let t := add_inuse n t in
  let klen := byte_of_Z (len (vd_Key value)) in
  t ← write_copy t [klen];
  t ← write_copy t (vd_Key value);
  t ← write_uint 8 t (to_unsigned 64 (vd_TTL value));
  t ← write_uint 4 t (to_unsigned 32 (len (vd_Value value)));
  t ← write_copy t (vd_Value value);
  Return (t, None).

(** [getRaw] and [get] answer the value and whether the previous table has to be
    tried. *)
Definition getRaw (t : table) (hkey : Z) : comp (list byte * bool) :=
  match hkeys t !! hkey with
  | None => Return ([], true)
  | Some off =>
      let start := off in
      b ← mem_load (memory t) off;
      let klen := unsigned b in
      let end_ := off + 1 + klen + 8 in
      vraw ← mem_slice (memory t) end_ (end_ + 4);
      let vlen := be_decode vraw in
      let end_ := end_ + 4 + vlen in
      src ← mem_slice (memory t) start end_;
      let rawval := replicate (Z.to_nat (end_ - start + 1)) x00 in
      Return (go_copy rawval src, false)
  end.

Definition get (t : table) (hkey : Z) : comp (option VData * bool) :=
  match hkeys t !! hkey with
  | None => Return (None, true)
  | Some off =>
      b ← mem_load (memory t) off;
      let klen := unsigned b in
      let off := off + 1 in
      key ← mem_slice (memory t) off (off + klen);
      let off := off + klen in
      traw ← mem_slice (memory t) off (off + 8);
      let ttl := to_signed 64 (be_decode traw) in
      let off := off + 8 in
      vraw ← mem_slice (memory t) off (off + 4);
      let vlen := be_decode vraw in
      let off := off + 4 in
      value ← mem_slice (memory t) off (off + vlen);
      Return (Some (mkVData key ttl value), false)
  end.

(** ** The layout of an entry

    KEY-LENGTH(uint8) | KEY | TTL(uint64) | VALUE-LENGTH(uint32) | VALUE *)
Definition entry_bytes (v : VData) : list byte :=
  [byte_of_Z (len (vd_Key v))] ++ vd_Key v
  ++ be_encode 8 (to_unsigned 64 (vd_TTL v))
  ++ be_encode 4 (to_unsigned 32 (len (vd_Value v)))
  ++ vd_Value v.

Definition klen_at (rd : reader) (off : Z) : Z := unsigned (rd off).
Definition vlen_at (rd : reader) (off : Z) : Z :=
  be_decode (read_bytes rd (off + 1 + klen_at rd off + 8) 4).
Definition size_at (rd : reader) (off : Z) : Z := 13 + klen_at rd off + vlen_at rd off.
Definition decode_at (rd : reader) (off : Z) : VData :=
  mkVData (read_bytes rd (off + 1) (Z.to_nat (klen_at rd off)))
    (to_signed 64 (be_decode (read_bytes rd (off + 1 + klen_at rd off) 8)))
    (read_bytes rd (off + 1 + klen_at rd off + 8 + 4) (Z.to_nat (vlen_at rd off))).

(** The values the format can represent. *)
Definition vdata_ok (v : VData) : Prop :=
  len (vd_Key v) < 256 ∧ in_int64 (vd_TTL v) ∧ len (vd_Value v) < 2 ^ 32.

#[export] Instance vdata_ok_dec v : Decision (vdata_ok v).
Proof. unfold vdata_ok, in_int64. apply _. Defined.

Definition entry_size (v : VData) : Z := len (vd_Key v) + len (vd_Value v) + 13.

(** ** Well-formed tables and the map they hold *)
Abbreviation rd t := (mem_reader (memory t)).

Definition live_bytes (t : table) : Z := map_sum (size_at (rd t)) (hkeys t).

Record wf (t : table) : Prop := {
  wf_len : mem_len (memory t) = allocated t;
  wf_min : minimumSize ≤ allocated t;
  wf_offset : 0 ≤ offset t < allocated t;
  wf_entries : ∀ k off, hkeys t !! k = Some off →
    0 ≤ off ∧ off + size_at (rd t) off ≤ offset t;
  wf_account : inuse t + garbage t = offset t;
  wf_live : live_bytes t ≤ inuse t;
  wf_garbage : 0 ≤ garbage t
}.

#[export] Instance wf_dec t : Decision (wf t).
Proof.
  refine (cast_if (decide (
    (mem_len (memory t) = allocated t ∧ minimumSize ≤ allocated t)
    ∧ 0 ≤ offset t < allocated t
    ∧ map_Forall (fun _ off => 0 ≤ off ∧ off + size_at (rd t) off ≤ offset t) (hkeys t)
    ∧ inuse t + garbage t = offset t ∧ live_bytes t ≤ inuse t ∧ 0 ≤ garbage t)));
    abstract (first [intros; split; tauto | intros []; tauto]).
Defined.

(** The finite map a table stands for. *)
Definition abs (t : table) : gmap Z VData := decode_at (rd t) <$> hkeys t.

(** ** The layout: decoding inverts encoding *)
Section layout.
Implicit Types rd : reader.

Lemma klen_at_range rd off : 0 ≤ klen_at rd off < 256.
Proof. apply unsigned_range. Qed.

Lemma vlen_at_range rd off : 0 ≤ vlen_at rd off < 2 ^ 32.
Proof.
  unfold vlen_at. pose proof (be_decode_range
    (read_bytes rd (off + 1 + klen_at rd off + 8) 4)) as H.
  rewrite length_read_bytes in H. exact H.
Qed.

Lemma size_at_bounds rd off : 13 ≤ size_at rd off.
Proof.
  unfold size_at. pose proof (klen_at_range rd off).
  pose proof (vlen_at_range rd off). lia.
Qed.

Lemma entry_size_decode rd off : entry_size (decode_at rd off) = size_at rd off.
Proof.
  unfold entry_size, size_at, decode_at, len. simpl. rewrite !length_read_bytes.
  pose proof (klen_at_range rd off). pose proof (vlen_at_range rd off). lia.
Qed.

Lemma len_entry_bytes v : len (entry_bytes v) = entry_size v.
Proof.
  unfold entry_bytes, entry_size. rewrite !len_app.
  unfold len. rewrite !length_be_encode. simpl. lia.
Qed.

(** An entry is decoded from its own bytes only. *)
Lemma size_at_ext rd1 rd2 off1 off2 :
  (∀ i, 0 ≤ i < size_at rd1 off1 → rd1 (off1 + i) = rd2 (off2 + i)) →
  klen_at rd2 off2 = klen_at rd1 off1 ∧ vlen_at rd2 off2 = vlen_at rd1 off1.
Proof.
  intros Hext. pose proof (size_at_bounds rd1 off1).
  pose proof (klen_at_range rd1 off1). pose proof (vlen_at_range rd1 off1).
  assert (klen_at rd2 off2 = klen_at rd1 off1) as Hk.
  { unfold klen_at. f_equal. rewrite <- (Z.add_0_r off1), <- (Z.add_0_r off2).
    symmetry. apply Hext. lia. }
  split; [done|]. unfold vlen_at. rewrite Hk. f_equal. symmetry.
  apply read_bytes_ext. intros i Hi. rewrite <- !Z.add_assoc. apply Hext.
  unfold size_at. lia.
Qed.

Lemma decode_at_ext rd1 rd2 off1 off2 :
  (∀ i, 0 ≤ i < size_at rd1 off1 → rd1 (off1 + i) = rd2 (off2 + i)) →
  decode_at rd2 off2 = decode_at rd1 off1 ∧ size_at rd2 off2 = size_at rd1 off1.
Proof.
  intros Hext. destruct (size_at_ext _ _ _ _ Hext) as [Hk Hv].
  pose proof (klen_at_range rd1 off1). pose proof (vlen_at_range rd1 off1).
  unfold size_at in *. rewrite Hk, Hv. split; [|done].
  unfold decode_at. rewrite Hk, Hv.
  f_equal; [|do 2 f_equal|]; symmetry; apply read_bytes_ext; intros i Hi;
    rewrite <- !Z.add_assoc; apply Hext; lia.
Qed.

Lemma decode_entry rd off v :
  vdata_ok v →
  read_bytes rd off (length (entry_bytes v)) = entry_bytes v →
  decode_at rd off = v ∧ size_at rd off = entry_size v.
Proof.
  destruct v as [key ttl value]. intros (Hkey & Httl & Hval) Hread.
  unfold entry_bytes in Hread. cbn [vd_Key vd_TTL vd_Value] in *.
  rewrite !length_app, !length_be_encode in Hread.
  cbn [length] in Hread. rewrite !read_bytes_app in Hread.
  repeat (apply app_inj_1 in Hread as [? Hread];
    [|by rewrite ?length_read_bytes, ?length_be_encode]).
  assert (klen_at rd off = len key) as Hk.
  { unfold klen_at. rewrite read_bytes_S in H. injection H as ->.
    rewrite unsigned_byte_of_Z. apply Z.mod_small. pose proof (len_nonneg key). lia. }
  assert (vlen_at rd off = len value) as Hv.
  { unfold vlen_at. rewrite Hk. unfold len at 1.
    change (Z.of_nat 1) with 1 in *. change (Z.of_nat 8) with 8 in *.
    rewrite H2, be_decode_encode. unfold to_unsigned.
    change (256 ^ Z.of_nat 4) with (2 ^ 32). rewrite Z.mod_mod by lia.
    apply Z.mod_small. pose proof (len_nonneg value). lia. }
  unfold decode_at, size_at. rewrite Hk, Hv. unfold len in *.
  change (Z.of_nat 1) with 1 in *. change (Z.of_nat 8) with 8 in *.
  change (Z.of_nat 4) with 4 in *. split; [|unfold entry_size, len; simpl; lia].
  rewrite !Nat2Z.id. f_equal; [done| |done].
  rewrite H1, be_decode_encode. change (256 ^ Z.of_nat 8) with (2 ^ 64).
  unfold to_unsigned. rewrite Z.mod_mod by lia.
  by apply to_signed_unsigned.
Qed.
End layout.

(** ** Reading an entry: no operation on a well-formed table panics *)
Section reading.
Variables (t : table) (k off : Z).
Hypothesis Hwf : wf t.
Hypothesis Hk : hkeys t !! k = Some off.

Lemma entry_bounds :
  0 ≤ off ∧ off + 13 + klen_at (rd t) off + vlen_at (rd t) off ≤ offset t
  ∧ offset t < mem_len (memory t)
  ∧ 0 ≤ klen_at (rd t) off ∧ 0 ≤ vlen_at (rd t) off.
Proof.
  pose proof (wf_entries _ Hwf _ _ Hk) as [? ?]. unfold size_at in *.
  pose proof (wf_offset _ Hwf). pose proof (wf_len _ Hwf).
  pose proof (klen_at_range (rd t) off). pose proof (vlen_at_range (rd t) off). lia.
Qed.

Lemma get_spec : get t k = Return (Some (decode_at (rd t) off), false).
Proof.
  pose proof entry_bounds as (? & ? & ? & ? & ?).
  unfold get. rewrite Hk. rewrite mem_load_ok by lia. rewrite bind_return.
  fold (klen_at (rd t) off). cbv zeta.
  do 3 rewrite mem_slice_ok by lia. cbn [mbind comp_bind].
  change (Z.to_nat 4) with 4%nat. change (Z.to_nat 8) with 8%nat.
  fold (vlen_at (rd t) off). by rewrite mem_slice_ok by lia.
Qed.

Lemma getRaw_spec :
  getRaw t k
  = Return (read_bytes (rd t) off (Z.to_nat (size_at (rd t) off)) ++ [x00], false).
Proof.
  pose proof entry_bounds as (? & ? & ? & ? & ?).
  unfold getRaw. rewrite Hk. rewrite mem_load_ok by lia. rewrite bind_return.
  fold (klen_at (rd t) off). cbv zeta.
  rewrite mem_slice_ok by lia. rewrite bind_return. change (Z.to_nat 4) with 4%nat.
  fold (vlen_at (rd t) off).
  replace (off + 1 + klen_at (rd t) off + 8 + 4 + vlen_at (rd t) off)
    with (off + size_at (rd t) off) by (unfold size_at; lia).
  pose proof (size_at_bounds (rd t) off).
  rewrite mem_slice_ok by (unfold size_at in *; lia). rewrite bind_return.
  replace (off + size_at (rd t) off - off + 1) with (size_at (rd t) off + 1) by lia.
  rewrite go_copy_longer by (rewrite length_read_bytes, length_replicate; lia).
  rewrite length_read_bytes, drop_replicate.
  by replace (Z.to_nat (size_at (rd t) off + 1) - Z.to_nat (size_at (rd t) off))%nat
    with 1%nat by lia.
Qed.

Lemma delete_spec :
  delete t k
  = Return (mkTable (base.delete k (hkeys t)) (memory t) (offset t) (allocated t)
              (inuse t - size_at (rd t) off) (garbage t + size_at (rd t) off), false).
Proof.
  pose proof entry_bounds as (? & ? & ? & ? & ?).
  unfold delete. rewrite Hk. rewrite mem_load_ok by lia. rewrite bind_return.
  fold (klen_at (rd t) off). cbv zeta. rewrite !Z.add_assoc.
  rewrite mem_slice_ok by lia. rewrite bind_return. change (Z.to_nat 4) with 4%nat.
  fold (vlen_at (rd t) off). unfold set_hkeys, add_inuse, add_garbage. simpl.
  do 3 f_equal; unfold size_at; lia.
Qed.
End reading.

Lemma get_missing t k : hkeys t !! k = None → get t k = Return (None, true).
Proof. intros H. unfold get. by rewrite H. Qed.

Lemma getRaw_missing t k : hkeys t !! k = None → getRaw t k = Return ([], true).
Proof. intros H. unfold getRaw. by rewrite H. Qed.

Lemma delete_missing t k : hkeys t !! k = None → delete t k = Return (t, true).
Proof. intros H. unfold delete. by rewrite H. Qed.

(** ** Appending an entry *)

(** The table after [bs] has been appended and bound to [k]. *)
Definition append (t : table) (k : Z) (bs : list byte) : table :=
  mkTable (<[k := offset t]> (hkeys t))
    (Mem (mem_len (memory t)) (write_bytes (mem_data (memory t)) (offset t) bs))
    (offset t + len bs) (allocated t) (inuse t + len bs) (garbage t).

(** The table after [bs] has been written at [offset]. *)
Definition pushed (t : table) (bs : list byte) : table :=
  mkTable (hkeys t)
    (Mem (mem_len (memory t)) (write_bytes (mem_data (memory t)) (offset t) bs))
    (offset t + len bs) (allocated t) (inuse t) (garbage t).

Lemma pushed_app t bs1 bs2 : pushed (pushed t bs1) bs2 = pushed t (bs1 ++ bs2).
Proof.
  unfold pushed. simpl. rewrite write_bytes_app, len_app. unfold len.
  by rewrite Z.add_assoc.
Qed.

Lemma write_copy_fits t src :
  0 ≤ offset t → offset t + len src ≤ mem_len (memory t) →
  write_copy t src = Return (pushed t src).
Proof. intros. unfold write_copy. by rewrite mem_copy_fits. Qed.

Lemma write_uint_fits n t z :
  0 ≤ offset t → offset t + Z.of_nat n ≤ mem_len (memory t) →
  write_uint n t z = Return (pushed t (be_encode n z)).
Proof.
  intros. unfold write_uint. rewrite mem_put_uint_fits by done.
  unfold pushed, len. by rewrite length_be_encode.
Qed.

(** The table after the entry of [k], if any, has been turned into garbage. *)
Definition discard (t : table) (k : Z) : table :=
  match hkeys t !! k with
  | None => t
  | Some off =>
      mkTable (base.delete k (hkeys t)) (memory t) (offset t) (allocated t)
        (inuse t - size_at (rd t) off) (garbage t + size_at (rd t) off)
  end.

Lemma delete_discard t k :
  wf t →
  delete t k = Return (discard t k, bool_decide (hkeys t !! k = None)).
Proof.
  intros Hwf. unfold discard. destruct (hkeys t !! k) as [off|] eqn:Hk.
  - by rewrite (delete_spec _ _ _ Hwf Hk).
  - by rewrite delete_missing.
Qed.

Lemma append_reader_below t k bs i :
  i < offset t → rd (append t k bs) i = rd t i.
Proof.
  intros. unfold append. simpl. destruct (memory t).
  apply mem_reader_write_out. lia.
Qed.

Lemma append_read t k bs :
  read_bytes (rd (append t k bs)) (offset t) (length bs) = bs.
Proof. apply read_bytes_write. Qed.

(** The entries below [offset] are not touched. *)
Lemma append_entry_below t k bs off :
  off + size_at (rd t) off ≤ offset t →
  decode_at (rd (append t k bs)) off = decode_at (rd t) off
  ∧ size_at (rd (append t k bs)) off = size_at (rd t) off.
Proof.
  intros Hoff. apply decode_at_ext. intros i Hi. symmetry.
  apply append_reader_below. lia.
Qed.

(** A sequence of bytes that starts with a complete entry. *)
Definition raw_ok (bs : list byte) : Prop := size_at (list_reader bs) 0 ≤ len bs.

#[export] Instance raw_ok_dec bs : Decision (raw_ok bs).
Proof. unfold raw_ok. apply _. Defined.

Lemma append_entry_new t k bs :
  raw_ok bs →
  decode_at (rd (append t k bs)) (offset t) = decode_at (list_reader bs) 0
  ∧ size_at (rd (append t k bs)) (offset t) = size_at (list_reader bs) 0.
Proof.
  intros Hraw. apply decode_at_ext. intros i Hi. unfold raw_ok in *.
  pose proof (append_read t k bs) as Hr.
  assert (read_bytes (rd (append t k bs)) (offset t) (length bs) !! Z.to_nat i
          = Some (rd (append t k bs) (offset t + i))) as Hl.
  { unfold read_bytes. rewrite list_lookup_fmap, lookup_seq_lt by (unfold len in *; lia).
    simpl. do 3 f_equal. lia. }
  rewrite Hr in Hl. unfold list_reader. rewrite Z.add_0_l.
  destruct (Z.leb_spec 0 i); [|lia]. by rewrite Hl.
Qed.

(** ** The operations on well-formed tables *)
Section operations.
Implicit Types t : table.

Lemma put_spec t k v :
  wf t → len (vd_Key v) < maxKeyLen → entry_size v + offset t < allocated t →
  put t k v = Return (append (discard t k) k (entry_bytes v), None).
Proof.
  intros Hwf Hkey Hfit. unfold put, entry_size in *.
  pose proof (wf_offset _ Hwf) as Hoff. pose proof (wf_len _ Hwf) as Hlen.
  pose proof (len_nonneg (vd_Key v)). pose proof (len_nonneg (vd_Value v)).
  destruct (Z.leb_spec maxKeyLen (len (vd_Key v))); [lia|].
  destruct (Z.leb_spec (allocated t) (len (vd_Key v) + len (vd_Value v) + 13 + offset t)); [lia|].
  assert (match hkeys t !! k with
          | Some _ => r ← delete t k; Return r.1
          | None => Return t
          end = Return (discard t k)) as ->.
  { rewrite delete_discard by done. unfold discard. by destruct (hkeys t !! k). }
  cbn [mbind comp_bind].
  assert (offset (discard t k) = offset t
          ∧ mem_len (memory (discard t k)) = mem_len (memory t)) as [Ho Hm].
  { unfold discard. by destruct (hkeys t !! k). }
  repeat (rewrite ?bind_return;
    first [rewrite write_copy_fits | rewrite write_uint_fits];
    [|simpl; rewrite ?Ho, ?Hm; unfold len in *; rewrite ?length_be_encode; simpl; lia..]).
  rewrite bind_return, !pushed_app. fold (entry_bytes v).
  unfold append, pushed, add_inuse, set_hkeys. simpl.
  by rewrite len_entry_bytes.
Qed.

Lemma putRaw_spec t k bs :
  wf t → len bs + offset t < allocated t →
  putRaw t k bs = Return (append t k bs, None).
Proof.
  intros Hwf Hfit. unfold putRaw. pose proof (wf_offset _ Hwf).
  pose proof (wf_len _ Hwf).
  destruct (Z.leb_spec (allocated t) (len bs + offset t)); [lia|].
  rewrite mem_copy_fits by (simpl; unfold len in *; lia). done.
Qed.

Lemma wf_discard t k : wf t → wf (discard t k).
Proof.
  intros Hwf. unfold discard. destruct (hkeys t !! k) as [off|] eqn:Hk; [|done].
  pose proof (size_at_bounds (rd t) off). pose proof (wf_live _ Hwf) as Hlive.
  unfold live_bytes in Hlive. rewrite (map_sum_delete _ _ _ _ Hk) in Hlive.
  destruct Hwf. split; simpl; unfold live_bytes; simpl; try (done || lia).
  intros k' off' Hk'. apply lookup_delete_Some in Hk' as [_ Hk']. eauto.
Qed.

Lemma wf_append t k bs :
  wf t → raw_ok bs → len bs + offset t < allocated t →
  wf (append t k bs).
Proof.
  intros Hwf Hraw Hfit. pose proof (append_entry_new t k bs Hraw) as [_ Hnew].
  assert (∀ off', (∃ k', hkeys t !! k' = Some off') →
    size_at (rd (append t k bs)) off' = size_at (rd t) off') as Hold.
  { intros off' [k' Hk']. apply append_entry_below. by apply (wf_entries _ Hwf k'). }
  pose proof (wf_live _ Hwf) as Hlive. unfold live_bytes in Hlive.
  assert (map_sum (size_at (rd t)) (base.delete k (hkeys t)) ≤ inuse t) as Hdel.
  { destruct (hkeys t !! k) as [off|] eqn:Hk; [|by rewrite delete_id].
    rewrite (map_sum_delete _ _ _ _ Hk) in Hlive.
    pose proof (size_at_bounds (rd t) off). lia. }
  pose proof (len_nonneg bs).
  split.
  - apply (wf_len _ Hwf).
  - apply (wf_min _ Hwf).
  - pose proof (wf_offset _ Hwf). simpl. lia.
  - intros k' off' Hk'. simpl in Hk'. pose proof (wf_offset _ Hwf). simpl.
    destruct (decide (k = k')) as [<-|Hne]; simplify_map_eq.
    + unfold raw_ok in Hraw. unfold append in Hnew. simpl in Hnew. lia.
    + pose proof (wf_entries _ Hwf _ _ Hk'). pose proof (Hold off' (ex_intro _ k' Hk')) as Ho.
      unfold append in Ho. simpl in Ho. lia.
  - pose proof (wf_account _ Hwf). simpl. lia.
  - unfold live_bytes. simpl hkeys. simpl inuse. rewrite <- insert_delete_eq.
    rewrite map_sum_insert by apply lookup_delete_eq. rewrite Hnew.
    rewrite (map_sum_ext _ (size_at (rd t))).
    + unfold raw_ok in Hraw. lia.
    + intros k' off' Hk'. apply lookup_delete_Some in Hk' as [_ Hk']. eauto.
  - apply (wf_garbage _ Hwf).
Qed.

Lemma abs_append t k bs :
  wf t → raw_ok bs →
  abs (append t k bs) = <[k := decode_at (list_reader bs) 0]> (abs t).
Proof.
  intros Hwf Hraw. unfold abs. simpl hkeys. rewrite fmap_insert.
  destruct (append_entry_new t k bs Hraw) as [-> _].
  apply map_eq. intros k'. destruct (decide (k = k')) as [<-|Hne]; [by simplify_map_eq|].
  rewrite !lookup_insert_ne, !lookup_fmap by done.
  destruct (hkeys t !! k') as [off|] eqn:Hk'; [|done]. simpl. f_equal.
  apply (append_entry_below t k bs). by apply (wf_entries _ Hwf k').
Qed.

Lemma abs_discard t k : abs (discard t k) = base.delete k (abs t).
Proof.
  unfold discard, abs. destruct (hkeys t !! k) as [off|] eqn:Hk; simpl.
  - apply fmap_delete.
  - rewrite delete_id; [done|]. by rewrite lookup_fmap, Hk.
Qed.

Lemma entry_bytes_raw v tl :
  vdata_ok v →
  raw_ok (entry_bytes v ++ tl) ∧ decode_at (list_reader (entry_bytes v ++ tl)) 0 = v
  ∧ size_at (list_reader (entry_bytes v ++ tl)) 0 = entry_size v.
Proof.
  intros Hv.
  assert (read_bytes (list_reader (entry_bytes v ++ tl)) 0 (length (entry_bytes v))
          = entry_bytes v) as Hr by apply (read_list_reader_app []).
  apply decode_entry in Hr as [Hd Hs]; [|done].
  unfold raw_ok. rewrite len_app, Hs, len_entry_bytes.
  pose proof (len_nonneg tl). auto with lia.
Qed.

Lemma raw_entry_ok t k off tl :
  wf t → hkeys t !! k = Some off →
  let bs := read_bytes (rd t) off (Z.to_nat (size_at (rd t) off)) ++ tl in
  raw_ok bs ∧ decode_at (list_reader bs) 0 = decode_at (rd t) off
  ∧ size_at (list_reader bs) 0 = size_at (rd t) off.
Proof.
  intros Hwf Hk bs. pose proof (size_at_bounds (rd t) off).
  destruct (decode_at_ext (rd t) (list_reader bs) off 0) as [Hd Hs].
  - intros i Hi. unfold list_reader, bs. destruct (Z.leb_spec 0 (0 + i)); [|lia].
    rewrite lookup_app_l by (rewrite length_read_bytes; lia).
    unfold read_bytes. rewrite list_lookup_fmap, lookup_seq_lt by lia. simpl.
    f_equal. lia.
  - split; [|done]. unfold raw_ok. rewrite Hs. unfold bs. rewrite len_app.
    unfold len. rewrite length_read_bytes. lia.
Qed.
End operations.

(** ** Tables that agree on the bytes in use

    The bytes at and above [offset] are never read: two tables that differ only
    there are indistinguishable. *)
Record eqv (t1 t2 : table) : Prop := {
  eqv_hkeys : hkeys t1 = hkeys t2;
  eqv_len : mem_len (memory t1) = mem_len (memory t2);
  eqv_offset : offset t1 = offset t2;
  eqv_allocated : allocated t1 = allocated t2;
  eqv_inuse : inuse t1 = inuse t2;
  eqv_garbage : garbage t1 = garbage t2;
  eqv_bytes : ∀ i, 0 ≤ i < offset t1 → rd t1 i = rd t2 i
}.

#[export] Instance eqv_equivalence : Equivalence eqv.
Proof.
  split.
  - by intros t.
  - intros t1 t2 [? ? Ho ? ? ? Hb]. split; try done.
    intros i Hi. symmetry. apply Hb. by rewrite Ho.
  - intros t1 t2 t3 [? ? Ho1 ? ? ? Hb1] [? ? Ho2 ? ? ? Hb2]. split; try congruence.
    intros i Hi. rewrite Hb1 by done. apply Hb2. by rewrite <- Ho1.
Qed.

Lemma eqv_entry t1 t2 k off :
  eqv t1 t2 → wf t1 → hkeys t1 !! k = Some off →
  decode_at (rd t2) off = decode_at (rd t1) off ∧ size_at (rd t2) off = size_at (rd t1) off.
Proof.
  intros Heq Hwf Hk. pose proof (wf_entries _ Hwf _ _ Hk) as [? ?].
  apply decode_at_ext. intros i Hi. apply (eqv_bytes _ _ Heq). lia.
Qed.

Lemma eqv_abs t1 t2 : eqv t1 t2 → wf t1 → abs t2 = abs t1.
Proof.
  intros Heq Hwf. unfold abs. rewrite <- (eqv_hkeys _ _ Heq).
  apply map_fmap_ext. intros k off Hk. by eapply eqv_entry.
Qed.

Lemma eqv_wf t1 t2 : eqv t1 t2 → wf t1 → wf t2.
Proof.
  intros Heq Hwf. pose proof (fun k off => eqv_entry t1 t2 k off Heq Hwf) as Hent.
  assert (live_bytes t2 = live_bytes t1) as Hlive.
  { unfold live_bytes. rewrite <- (eqv_hkeys _ _ Heq). apply map_sum_ext.
    intros k off Hk. by eapply Hent. }
  destruct Heq as [Eh El Eo Ea Ei Eg _].
  split; rewrite <- ?El, <- ?Eo, <- ?Ea, <- ?Ei, <- ?Eg, ?Hlive; try by apply Hwf.
  intros k off. rewrite <- Eh. intros Hk.
  destruct (Hent k off) as [_ ->]; [done..|]. by apply (wf_entries _ Hwf k).
Qed.

#[export] Instance eqv_wf_proper : Proper (eqv ==> iff) wf.
Proof. intros t1 t2 Heq. split; apply eqv_wf; [done|by symmetry]. Qed.

(** ** The table implements a finite map *)

(** [put] rejects a key of 256 bytes or more and an entry that does not leave
    a free byte, and changes nothing then; otherwise it succeeds, never panics,
    keeps the table well formed, binds the key to exactly the value given (key,
    TTL and value are read back unchanged) and appends exactly one entry. *)
Theorem put_correct t k v :
  wf t → in_int64 (vd_TTL v) → len (vd_Value v) < 2 ^ 32 →
  if maxKeyLen <=? len (vd_Key v) then put t k v = Return (t, Some ErrKeyTooLarge)
  else if allocated t <=? entry_size v + offset t
  then put t k v = Return (t, Some errNotEnoughSpace)
  else ∃ t', put t k v = Return (t', None) ∧ wf t' ∧ abs t' = <[k := v]> (abs t)
         ∧ offset t' = offset t + entry_size v.
Proof.
  intros Hwf Httl Hval. destruct (Z.leb_spec maxKeyLen (len (vd_Key v))) as [Hk|Hk].
  { unfold put. by rewrite (proj2 (Z.leb_le _ _) Hk). }
  destruct (Z.leb_spec (allocated t) (entry_size v + offset t)) as [Hf|Hf].
  { unfold put. destruct (Z.leb_spec maxKeyLen (len (vd_Key v))); [lia|].
    unfold entry_size in Hf. by rewrite (proj2 (Z.leb_le _ _) Hf). }
  exists (append (discard t k) k (entry_bytes v)).
  destruct (entry_bytes_raw v []) as (Hraw & Hdec & _); [done|]. rewrite app_nil_r in *.
  assert (offset (discard t k) = offset t ∧ allocated (discard t k) = allocated t) as [Ho Ha]
    by (unfold discard; by destruct (hkeys t !! k)).
  split; [by apply put_spec|]. split.
  - apply wf_append; [by apply wf_discard|done|]. rewrite len_entry_bytes. lia.
  - rewrite abs_append, Hdec, abs_discard by (done || by apply wf_discard).
    split; [apply insert_delete_eq|]. simpl. by rewrite Ho, len_entry_bytes.
Qed.

(** [delete] never panics on a well-formed table; it answers whether the key
    was absent, removes it and nothing else, and moves exactly the size of the
    removed entry from the bytes in use to the garbage. *)
Theorem delete_correct t k :
  wf t →
  ∃ t', delete t k = Return (t', bool_decide (abs t !! k = None)) ∧ wf t'
    ∧ abs t' = base.delete k (abs t) ∧ offset t' = offset t
    ∧ garbage t' - garbage t = inuse t - inuse t'
    ∧ garbage t' - garbage t = from_option (size_at (rd t)) 0 (hkeys t !! k).
Proof.
  intros Hwf. exists (discard t k). split.
  - rewrite delete_discard by done. do 2 f_equal. apply bool_decide_ext.
    unfold abs. by rewrite lookup_fmap, fmap_None.
  - split; [by apply wf_discard|]. split; [apply abs_discard|].
    unfold discard. destruct (hkeys t !! k); simpl; lia.
Qed.

(** ** Examples *)
Definition sample_value : VData := mkVData [x6b; x31] 1700000000000 [x01; x02; x03].
Definition sample_table : table :=
  append (mkTable ∅ (Mem minimumSize ∅) 0 minimumSize 0 0) 42 (entry_bytes sample_value).

Lemma put_correct_witness :
  ∃ t', put sample_table 7 sample_value = Return (t', None)
    ∧ wf t' ∧ abs t' = <[7 := sample_value]> (abs sample_table)
    ∧ offset t' = offset sample_table + entry_size sample_value.
Proof.
  assert (wf sample_table) as Hwf by (apply (bool_decide_unpack _); vm_compute; exact I).
  assert (in_int64 (vd_TTL sample_value)) as Httl by (unfold in_int64; simpl; lia).
  exact (put_correct sample_table 7 sample_value Hwf Httl eq_refl).
Defined.

Lemma delete_correct_witness :
  ∃ t', delete sample_table 42 = Return (t', false) ∧ wf t'
    ∧ abs t' = base.delete 42 (abs sample_table) ∧ offset t' = offset sample_table
    ∧ garbage t' - garbage sample_table = inuse sample_table - inuse t'
    ∧ garbage t' - garbage sample_table = 18.
Proof.
  assert (wf sample_table) as Hwf by (apply (bool_decide_unpack _); vm_compute; exact I).
  exact (delete_correct sample_table 42 Hwf).
Defined.

End table.
