(* ===== verification/Storage.v ===== *)
(** The storage engine: [internal/storage/storage.go].

    A storage is a list of tables, oldest first; writes go to the last table and
    reads scan from the last table to the first.  The file models the operations
    of the package and relates them to the copies of every key that the tables
    hold. *)

From S2P Require Export Table.

Export table(table, hkeys, memory, offset, allocated, inuse, garbage).

(** ** The codec of package [msgpack]

    The encoder is not part of the program: [Marshal] and [Unmarshal] are
    parameters, and the only fact used is that decoding inverts encoding. *)
Class Codec (A : Type) := {
  Marshal : A → serror + list byte;
  Unmarshal : list byte → serror + A;
  Unmarshal_Marshal : ∀ x bs, Marshal x = inr bs → Unmarshal bs = inr x
}.

Module storage.

Record Storage := mkStorage {
  tables : list table;
  merging : Z;               (* int32: 1 while a merge goroutine is running *)
  wg : nat;                  (* the goroutines the wait group counts *)
  ctx_done : bool            (* the context has been cancelled *)
}.

Definition set_tables (ts : list table) (s : Storage) : Storage :=
  mkStorage ts (merging s) (wg s) (ctx_done s).

(** [wg.Add(1); merging = 1; go mergeTables()] *)
Definition go_mergeTables (s : Storage) : Storage :=
  mkStorage (tables s) 1 (S (wg s)) (ctx_done s).

(** ** Creation and destruction *)
Definition New (mmap : Z → option Z) (size : Z) : serror + Storage :=
  match table.newTable mmap size with
  | inl err => inl err
  | inr t => inr (mkStorage [t] 0 0 false)
  end.

Fixpoint close_tables (munmap : Z → option Z) (ts : list table) : option serror :=
  match ts with
  | [] => None
  | t :: ts =>
      match table.close munmap t with
      | Some err => Some err
      | None => close_tables munmap ts
      end
  end.

(** [Close] does not return as long as [wg.Wait()] blocks. *)
Definition Close (munmap : Z → option Z) (s : Storage) : comp (Storage * option serror) :=
  if ctx_done s then Return (s, None) else
  let s := mkStorage (tables s) (merging s) (wg s) true in
  match wg s with
  | S _ => Running
  | O =>
      match close_tables munmap (tables s) with
      | Some err => Return (s, Some err)
      | None => Return (set_tables [] s, None)
      end
  end.

(** ** Writing

    The loop of [Put] and of [PutRaw], which differ only in the operation [op]
    they run on the last table.  [mmap i] is the answer of the kernel to the
    [i]-th allocation of the call. *)
Fixpoint put_loop (op : table → comp (table * option serror)) (fuel : nat)
    (mmap : nat → Z → option Z) (s : Storage) : comp (Storage * option serror) :=
  match fuel with
  | O => Running
  | S fuel =>
      match last (tables s) with
      | None => Panic
      | Some t =>
          r ← op t;
          let s := set_tables (take (length (tables s) - 1) (tables s) ++ [r.1]) s in
          if decide (r.2 = Some errNotEnoughSpace) then
            match table.newTable (mmap 0%nat) (inuse r.1 * 2) with
            | inl err => Return (s, Some err)
            | inr nt =>
                let s := set_tables (tables s ++ [nt]) s in
                let s := if merging s =? 0 then go_mergeTables s else s in
                put_loop op fuel (fun i => mmap (S i)) s
            end
          else Return (s, r.2)
      end
  end.

Definition PutRaw (fuel : nat) (mmap : nat → Z → option Z) (s : Storage)
    (hkey : Z) (value : list byte) : comp (Storage * option serror) :=
  if decide (tables s = []) then Panic
  else put_loop (fun t => table.putRaw t hkey value) fuel mmap s.

Definition Put (fuel : nat) (mmap : nat → Z → option Z) (s : Storage)
    (hkey : Z) (value : VData) : comp (Storage * option serror) :=
  if decide (tables s = []) then Panic
  else put_loop (fun t => table.put t hkey value) fuel mmap s.

(** ** Reading: the scans take the tables from the last to the first *)
Fixpoint getRaw_scan (ts : list table) (hkey : Z) : comp (list byte * option serror) :=
  match ts with
  | [] => Return ([], Some ErrKeyNotFound)
  | t :: ts =>
      r ← table.getRaw t hkey;
      if r.2 : bool then getRaw_scan ts hkey else Return (r.1, None)
  end.

Definition GetRaw (s : Storage) (hkey : Z) : comp (list byte * option serror) :=
  if decide (tables s = []) then Panic else getRaw_scan (rev (tables s)) hkey.

Fixpoint get_scan (ts : list table) (hkey : Z) : comp (option VData * option serror) :=
  match ts with
  | [] => Return (None, Some ErrKeyNotFound)
  | t :: ts =>
      r ← table.get t hkey;
      if r.2 : bool then get_scan ts hkey else Return (r.1, None)
  end.

Definition Get (s : Storage) (hkey : Z) : comp (option VData * option serror) :=
  if decide (tables s = []) then Panic else get_scan (rev (tables s)) hkey.

Fixpoint check_scan (ts : list table) (hkey : Z) : bool :=
  match ts with
  | [] => false
  | t :: ts => if decide (is_Some (hkeys t !! hkey)) then true else check_scan ts hkey
  end.

Definition Check (s : Storage) (hkey : Z) : comp bool :=
  if decide (tables s = []) then Panic else Return (check_scan (rev (tables s)) hkey).

Definition Len (s : Storage) : Z :=
  foldl (fun total t => total + Z.of_nat (size (hkeys t))) 0 (tables s).

(** ** Deleting *)
Fixpoint delete_scan (ts : list table) (hkey : Z) : comp (list table) :=
  match ts with
  | [] => Return []
  | t :: ts =>
      r ← table.delete t hkey;
      if r.2 : bool then ts' ← delete_scan ts hkey; Return (r.1 :: ts')
      else Return (r.1 :: ts)
  end.

(** [float64(allocated) * 0.40 <= float64(garbage)].  The constant is the double
    [ratio_num / 2^53]; the product is exact in [Z] after scaling by [2^53] and is
    then rounded to 53 significant bits, to the nearest and to even on ties. *)
Definition ratio_num : Z := 3602879701896397.

Definition garbage_ratio_reached (alloc garb : Z) : bool :=
  round53 (alloc * ratio_num) <=? garb * 2 ^ 53.

Definition Delete (mmap : nat → Z → option Z) (s : Storage) (hkey : Z)
    : comp (Storage * option serror) :=
  if decide (tables s = []) then Panic else
  ts ← delete_scan (rev (tables s)) hkey;
  let s := set_tables (rev ts) s in
  match tables s with
  | [t] =>
      if garbage_ratio_reached (allocated t) (garbage t) then
        if merging s =? 1 then Return (s, None) else
        let newSize := inuse t * 2 in
        let newSize := if allocated t <? newSize then allocated t else newSize in
        match table.newTable (mmap 0%nat) newSize with
        | inl err => Return (s, Some err)
        | inr nt => Return (go_mergeTables (set_tables (tables s ++ [nt]) s), None)
        end
      else Return (s, None)
  | _ => Return (s, None)
  end.

(** ** Iterating

    [Range] calls [f] on the entries, threading the state [acc] of the caller;
    [f] answers whether the iteration goes on.  [break] leaves the loop over the
    keys of one table. *)
Section Range.
Context `{!RangeOrder Z} {S : Type} (f : S → Z → option VData → S * bool).

Fixpoint range_table (t : table) (keys : list Z) (acc : S) : comp S :=
  match keys with
  | [] => Return acc
  | hkey :: keys =>
      r ← table.get t hkey;
      let '(acc, go_on) := f acc hkey r.1 in
      if go_on : bool then range_table t keys acc else Return acc
  end.

Fixpoint range_scan (n : nat) (ts : list table) (acc : S) : comp S :=
  match ts with
  | [] => Return acc
  | t :: ts =>
      acc ← range_table t (range_keys n (hkeys t)) acc;
      range_scan (Datatypes.S n) ts acc
  end.

Definition Range (s : Storage) (acc : S) : comp S :=
  if decide (tables s = []) then Panic else range_scan 0 (rev (tables s)) acc.
End Range.

(** ** Serialization *)
Record transport := mkTransport {
  HKeys : gmap Z Z;
  Memory : list byte;
  Offset : Z;
  Allocated : Z;
  Inuse : Z;
  Garbage : Z
}.

Definition Export `{Codec transport} (s : Storage) : comp (serror + list byte) :=
  match tables s with
  | [t] =>
      src ← mem_slice (memory t) 0 (offset t);
      let mem := go_copy (replicate (Z.to_nat (offset t + 1)) x00) src in
      Return (Marshal (mkTransport (hkeys t) mem (offset t) (allocated t)
                         (inuse t) (garbage t)))
  | _ => Return (inl ErrFragmented)
  end.

Definition Import `{Codec transport} (mmap : Z → option Z) (data : list byte)
    : comp (serror + Storage) :=
  match Unmarshal data with
  | inl err => Return (inl err)
  | inr tr =>
      match New mmap (Allocated tr) with
      | inl err => Return (inl err)
      | inr o =>
          match tables o with
          | [] => Panic
          | t :: ts =>
              m ← mem_copy (memory t) 0 (Memory tr);
              let t := table.mkTable (HKeys tr) m (Offset tr) (allocated t)
                         (Inuse tr) (Garbage tr) in
              Return (inr (set_tables (t :: ts) o))
          end
      end
  end.

(** [DecodeRaw] of a slice [raw]. *)
Definition DecodeRaw (raw : list byte) : comp VData :=
  let off := 0 in
  b ← list_load raw off;
  let klen := unsigned b in
  let off := off + 1 in
  key ← list_slice raw off (off + klen);
  let off := off + klen in
  traw ← list_slice raw off (off + 8);
  let ttl := to_signed 64 (be_decode traw) in
  let off := off + 8 in
  vraw ← list_slice raw off (off + 4);
  let vlen := be_decode vraw in
  let off := off + 4 in
  value ← list_slice raw off (off + vlen);
  Return (mkVData key ttl value).

(** ** What a storage holds

    [copies s k] lists the values the tables bind to [k], the newest table first.
    The storage stands for the map that binds [k] to the first of them. *)
Definition copies_in (ts : list table) (k : Z) : list VData :=
  omap (fun t => table.abs t !! k) ts.
Definition copies (s : Storage) (k : Z) : list VData := copies_in (rev (tables s)) k.

Definition contents (s : Storage) : gmap Z VData :=
  foldr (fun t acc => table.abs t ∪ acc) ∅ (rev (tables s)).

Definition wf (s : Storage) : Prop := tables s ≠ [] ∧ Forall table.wf (tables s).

(** No key is held by two tables. *)
Definition unique (s : Storage) : Prop := ∀ k, (length (copies s k) ≤ 1)%nat.

Lemma lookup_contents s k : contents s !! k = head (copies s k).
Proof.
  unfold contents, copies. induction (rev (tables s)) as [|t ts IH]; [done|]. simpl.
  rewrite lookup_union, IH. destruct (table.abs t !! k) as [v|] eqn:E; simpl; rewrite ?E.
  - by rewrite union_Some_l.
  - by rewrite (left_id_L None union).
Qed.

Lemma copies_snoc s ts t k :
  tables s = ts ++ [t] →
  copies s k = option_list (table.abs t !! k) ++ copies_in (rev ts) k.
Proof.
  intros Hs. unfold copies, copies_in. rewrite Hs, rev_app_distr. simpl.
  by destruct (table.abs t !! k).
Qed.

Lemma wf_snoc s ts t :
  tables s = ts ++ [t] → wf s ↔ Forall table.wf ts ∧ table.wf t.
Proof.
  intros Hs. unfold wf. rewrite Hs, Forall_app, Forall_singleton.
  split; [tauto|]. intros ?. split; [|done]. by destruct ts.
Qed.

Lemma tables_snoc s : wf s → ∃ ts t, tables s = ts ++ [t].
Proof.
  intros [Hne _]. destruct (tables s) as [|t ts _] using rev_ind; [done|]. eauto.
Qed.

Lemma take_init {A} (l : list A) x : take (length (l ++ [x]) - 1) (l ++ [x]) = l.
Proof. rewrite length_app. simpl. rewrite Nat.add_sub. apply take_app_length. Qed.

(** ** Fresh tables *)
Definition empty_table (n : Z) : table := table.mkTable ∅ (Mem n ∅) 0 n 0 0.

Lemma newTable_ok mmap size :
  mmap (Z.max size table.minimumSize) = None →
  table.newTable mmap size = inr (empty_table (Z.max size table.minimumSize)).
Proof.
  intros Hmm. unfold table.newTable, table.malloc.
  destruct (Z.ltb_spec size table.minimumSize).
  - rewrite Z.max_r in * by lia. by rewrite Hmm.
  - rewrite Z.max_l in * by lia. by rewrite Hmm.
Qed.

Lemma newTable_inv mmap size nt :
  table.newTable mmap size = inr nt → nt = empty_table (Z.max size table.minimumSize).
Proof.
  unfold table.newTable, table.malloc. destruct (Z.ltb_spec size table.minimumSize).
  - rewrite Z.max_r by lia. destruct (mmap _); naive_solver.
  - rewrite Z.max_l by lia. destruct (mmap _); naive_solver.
Qed.

Lemma newTable_err mmap size err :
  table.newTable mmap size = inl err →
  ∃ code, mmap (Z.max size table.minimumSize) = Some code ∧ err = Errno code.
Proof.
  unfold table.newTable, table.malloc. destruct (Z.ltb_spec size table.minimumSize).
  - rewrite Z.max_r by lia. destruct (mmap _); naive_solver.
  - rewrite Z.max_l by lia. destruct (mmap _); naive_solver.
Qed.

Lemma wf_empty_table n : table.minimumSize ≤ n → table.wf (empty_table n).
Proof.
  intros. assert (0 < table.minimumSize) by done.
  split; simpl; try lia; done.
Qed.

Lemma newTable_wf mmap size nt : table.newTable mmap size = inr nt → table.wf nt.
Proof. intros ->%newTable_inv. apply wf_empty_table. lia. Qed.

Lemma newTable_abs mmap size nt : table.newTable mmap size = inr nt → table.abs nt = ∅.
Proof. intros ->%newTable_inv. apply fmap_empty. Qed.

(** ** Reading *)
Lemma table_get_abs t k :
  table.wf t →
  table.get t k = Return (table.abs t !! k, bool_decide (table.abs t !! k = None)).
Proof.
  intros Hwf. unfold table.abs. rewrite lookup_fmap.
  destruct (hkeys t !! k) as [off|] eqn:Hk; simpl.
  - by rewrite (table.get_spec _ _ _ Hwf Hk).
  - by rewrite table.get_missing.
Qed.

Lemma get_scan_spec ts k :
  Forall table.wf ts →
  get_scan ts k
  = Return (head (copies_in ts k),
      match copies_in ts k with [] => Some ErrKeyNotFound | _ => None end).
Proof.
  induction 1 as [|t ts Hwf _ IH]; [done|]. simpl. rewrite table_get_abs by done.
  simpl. by destruct (table.abs t !! k).
Qed.

Lemma Get_spec s k :
  wf s →
  Get s k = Return (contents s !! k,
              match contents s !! k with None => Some ErrKeyNotFound | Some _ => None end).
Proof.
  intros [Hne Hwf]. unfold Get. rewrite decide_False by done.
  rewrite get_scan_spec by by apply Forall_rev.
  rewrite lookup_contents. unfold copies. by destruct (copies_in _ _).
Qed.

(** ** Writing *)
Lemma put_loop_last op fuel mmap s ts t r :
  tables s = ts ++ [t] → op t = Return r → r.2 ≠ Some errNotEnoughSpace →
  put_loop op (S fuel) mmap s = Return (set_tables (ts ++ [r.1]) s, r.2).
Proof.
  intros Hs Hop Hr. simpl. rewrite Hs, last_snoc, Hop. simpl.
  rewrite take_init. by rewrite decide_False.
Qed.

(** The state after a new table has been added by the loop. *)
Definition grown (s : Storage) (ts : list table) (n : Z) : Storage :=
  let s := set_tables (ts ++ [empty_table n]) s in
  if merging s =? 0 then go_mergeTables s else s.

Lemma put_loop_grow op fuel mmap s ts t t' :
  tables s = ts ++ [t] → op t = Return (t', Some errNotEnoughSpace) →
  mmap 0%nat (Z.max (inuse t' * 2) table.minimumSize) = None →
  put_loop op (S fuel) mmap s
  = put_loop op fuel (fun i => mmap (S i))
      (grown s (ts ++ [t']) (Z.max (inuse t' * 2) table.minimumSize)).
Proof.
  intros Hs Hop Hmm. simpl. rewrite Hs, last_snoc, Hop. simpl.
  rewrite take_init. by rewrite newTable_ok.
Qed.

Lemma tables_grown s ts n : tables (grown s ts n) = ts ++ [empty_table n].
Proof. unfold grown. simpl. by destruct (merging s =? 0). Qed.

Lemma table_put_full t k v :
  len (vd_Key v) < table.maxKeyLen → allocated t ≤ table.entry_size v + offset t →
  table.put t k v = Return (t, Some errNotEnoughSpace).
Proof.
  intros. unfold table.put, table.entry_size in *.
  destruct (Z.leb_spec table.maxKeyLen (len (vd_Key v))); [lia|].
  destruct (Z.leb_spec (allocated t) (len (vd_Key v) + len (vd_Value v) + 13 + offset t));
    [done|lia].
Qed.

(** Writing into one table: the table stays well formed and holds the value. *)
Lemma table_put_fits t k v :
  table.wf t → table.vdata_ok v → table.entry_size v + offset t < allocated t →
  ∃ t', table.put t k v = Return (t', None) ∧ table.wf t'
        ∧ table.abs t' = <[k := v]> (table.abs t).
Proof.
  intros Hwf Hv Hfit. pose proof Hv as (Hkey & _ & _).
  destruct (table.entry_bytes_raw v [] Hv) as (Hraw & Hdec & _).
  rewrite app_nil_r in *.
  exists (table.append (table.discard t k) k (table.entry_bytes v)).
  pose proof (table.wf_discard t k Hwf) as Hwf'.
  split; [by apply table.put_spec|]. split.
  - apply table.wf_append; [done..|]. rewrite table.len_entry_bytes.
    unfold table.discard. by destruct (hkeys t !! k).
  - rewrite table.abs_append, Hdec, table.abs_discard by done.
    apply insert_delete_eq.
Qed.

Lemma contents_snoc s ts t :
  tables s = ts ++ [t] →
  contents s = table.abs t ∪ foldr (fun t acc => table.abs t ∪ acc) ∅ (rev ts).
Proof. intros Hs. unfold contents. by rewrite Hs, rev_app_distr. Qed.

Lemma contents_replace_last s s' ts t t' k v :
  tables s = ts ++ [t] → tables s' = ts ++ [t'] →
  table.abs t' = <[k := v]> (table.abs t) →
  contents s' = <[k := v]> (contents s).
Proof.
  intros Hs Hs' Habs. rewrite (contents_snoc _ _ _ Hs), (contents_snoc _ _ _ Hs'), Habs.
  by rewrite insert_union_l.
Qed.

Lemma contents_grown s ts t n :
  tables s = ts ++ [t] → contents (grown s (ts ++ [t]) n) = contents s.
Proof.
  intros Hs. rewrite (contents_snoc _ (ts ++ [t]) (empty_table n)) by apply tables_grown.
  unfold table.abs at 1. simpl. rewrite fmap_empty, (left_id_L ∅ union).
  unfold contents. by rewrite Hs.
Qed.

Lemma wf_grown s ts n :
  Forall table.wf ts → table.minimumSize ≤ n → wf (grown s ts n).
Proof.
  intros. eapply wf_snoc; [apply tables_grown|]. eauto using wf_empty_table.
Qed.

(** Only the copies of one key have changed; a key that had none has one at most. *)
Definition one_key (s s' : Storage) (k : Z) : Prop :=
  (∀ k', k' ≠ k → copies s' k' = copies s k')
  ∧ (copies s k = [] → (length (copies s' k) ≤ 1)%nat).

Lemma one_key_replace_last s s' ts t t' k v :
  tables s = ts ++ [t] → tables s' = ts ++ [t'] →
  table.abs t' = <[k := v]> (table.abs t) → one_key s s' k.
Proof.
  intros Hs Hs' Habs. split.
  - intros k' Hne. rewrite (copies_snoc _ _ _ _ Hs), (copies_snoc _ _ _ _ Hs'), Habs.
    by rewrite lookup_insert_ne.
  - rewrite (copies_snoc _ _ _ _ Hs), (copies_snoc _ _ _ _ Hs'), Habs, lookup_insert_eq.
    destruct (table.abs t !! k); [done|]. simpl. intros ->. simpl. lia.
Qed.

Lemma copies_grown s ts t n k :
  tables s = ts ++ [t] → copies (grown s (ts ++ [t]) n) k = copies s k.
Proof.
  intros Hs. rewrite (copies_snoc _ _ _ k (tables_grown s (ts ++ [t]) n)).
  unfold copies. by rewrite Hs.
Qed.

(** The loop of [Put] once the value fits the last table, or the next one. *)
Lemma put_loop_fits fuel mmap s ts t k v :
  wf s → tables s = ts ++ [t] → table.vdata_ok v →
  table.entry_size v + offset t < allocated t →
  ∃ s', put_loop (fun t => table.put t k v) (S fuel) mmap s = Return (s', None)
        ∧ wf s' ∧ contents s' = <[k := v]> (contents s) ∧ one_key s s' k
        ∧ length (tables s') = length (tables s) ∧ merging s' = merging s.
Proof.
  intros Hwf Hs Hv Hfit. pose proof (proj1 (wf_snoc _ _ _ Hs) Hwf) as [Hts Ht].
  destruct (table_put_fits t k v Ht Hv Hfit) as (t' & Hput & Hwf' & Habs).
  exists (set_tables (ts ++ [t']) s).
  split; [by apply (put_loop_last _ _ _ _ ts t (t', None))|].
  split; [by eapply wf_snoc|]. split; [by eapply contents_replace_last|].
  split; [by eapply one_key_replace_last|]. simpl. rewrite Hs, !length_app. done.
Qed.

Lemma put_loop_fits_next fuel mmap s ts t k v :
  wf s → tables s = ts ++ [t] → table.vdata_ok v →
  allocated t ≤ table.entry_size v + offset t →
  table.entry_size v < Z.max (inuse t * 2) table.minimumSize →
  mmap 0%nat (Z.max (inuse t * 2) table.minimumSize) = None →
  ∃ s', put_loop (fun t => table.put t k v) (S (S fuel)) mmap s = Return (s', None)
        ∧ wf s' ∧ contents s' = <[k := v]> (contents s) ∧ one_key s s' k
        ∧ length (tables s') = S (length (tables s)) ∧ merging s' ≠ 0.
Proof.
  intros Hwf Hs Hv Hfull Hfit Hmm. pose proof Hv as (Hkey & _ & _).
  pose proof (proj1 (wf_snoc _ _ _ Hs) Hwf) as [Hts Ht].
  erewrite put_loop_grow; [|done| |done]; [|by apply table_put_full].
  edestruct (put_loop_fits fuel (fun i => mmap (S i)) (grown s (ts ++ [t])
    (Z.max (inuse t * 2) table.minimumSize)) (ts ++ [t])) as (s' & Hput & Hwf' & Hc & [Hk1 Hk2] & Hl & Hm).
  - apply wf_grown; [by apply Forall_app; auto|lia].
  - apply tables_grown.
  - done.
  - simpl. lia.
  - exists s'. split; [done|]. split; [done|]. rewrite Hc, Hl, Hm.
    rewrite (contents_grown _ _ _ _ Hs), tables_grown. split; [done|].
    split; [split; [intros k' Hne; by rewrite Hk1, (copies_grown _ _ _ _ _ Hs)
                   |by rewrite <-(copies_grown _ _ _ (Z.max (inuse t * 2) table.minimumSize) _ Hs)]|].
    split; [rewrite Hs, !length_app; simpl; lia|].
    unfold grown. simpl. destruct (Z.eqb_spec (merging s) 0); done.
Qed.

(** A value that does not fit the next table either never fits: the tables
    allocated from then on have the minimum size and are empty. *)
Lemma put_loop_oversized fuel mmap s ts t k v :
  tables s = ts ++ [t] → len (vd_Key v) < table.maxKeyLen →
  allocated t ≤ table.entry_size v + offset t →
  Z.max (inuse t * 2) table.minimumSize ≤ table.entry_size v →
  (∀ i n, mmap i n = None) →
  put_loop (fun t => table.put t k v) fuel mmap s = Running.
Proof.
  revert mmap s ts t. induction fuel as [|fuel IH]; intros mmap s ts t Hs Hkey Hfull Hbig Hmm;
    [done|].
  erewrite put_loop_grow; [|done| |done]; [|by apply table_put_full].
  assert (0 < table.minimumSize) by done.
  eapply IH; [apply tables_grown|done| |simpl; lia|done]. simpl. lia.
Qed.

(** ** Deleting *)
Lemma delete_scan_spec ts k :
  Forall table.wf ts →
  ∃ ts', delete_scan ts k = Return ts' ∧ Forall table.wf ts'
    ∧ length ts' = length ts
    ∧ copies_in ts' k = tail (copies_in ts k)
    ∧ (∀ k', k' ≠ k → copies_in ts' k' = copies_in ts k').
Proof.
  induction 1 as [|t ts Hwf Hts (ts' & IH & Hwf' & Hlen & Hk & Hne)]; [by exists []|].
  simpl. rewrite table.delete_discard by done. simpl.
  pose proof (table.wf_discard t k Hwf). pose proof (table.abs_discard t k) as Habs.
  assert (hkeys t !! k = None ↔ table.abs t !! k = None) as Hiff.
  { unfold table.abs. by rewrite lookup_fmap, fmap_None. }
  destruct (table.abs t !! k) as [v|] eqn:Hv.
  - rewrite bool_decide_eq_false_2 by (rewrite Hiff; done).
    eexists; split; [done|]. split; [by constructor|]. split; [done|].
    simpl. rewrite Habs. split; [by rewrite lookup_delete_eq|].
    intros. by rewrite lookup_delete_ne.
  - rewrite bool_decide_eq_true_2 by by rewrite Hiff. rewrite IH. simpl.
    eexists; split; [done|]. split; [by constructor|]. split; [simpl; lia|].
    simpl. rewrite Habs. split; [by rewrite lookup_delete_eq|].
    intros. rewrite lookup_delete_ne by done. by rewrite Hne.
Qed.

Lemma copies_in_app ts1 ts2 k :
  copies_in (ts1 ++ ts2) k = copies_in ts1 k ++ copies_in ts2 k.
Proof. apply omap_app. Qed.

Lemma go_merge_empty s t nt :
  tables s = [t] → table.wf nt → table.abs nt = ∅ → wf s →
  let s' := go_mergeTables (set_tables (tables s ++ [nt]) s) in
  wf s' ∧ ∀ k, copies s' k = copies s k.
Proof.
  intros Hs Hnt Habs [_ Hwf]. simpl. rewrite Hs in *. split.
  - split; [done|]. by apply (Forall_app_2 _ [t] [nt]); [|constructor].
  - intros k. unfold copies. simpl. by rewrite Habs, Hs, lookup_empty.
Qed.

(** The part of [Delete] after the scan only adds an empty table, if anything. *)
Definition delete_rest (mmap : nat → Z → option Z) (s : Storage)
    : Storage * option serror :=
  match tables s with
  | [t] =>
      if garbage_ratio_reached (allocated t) (garbage t) then
        if merging s =? 1 then (s, None) else
        let newSize := inuse t * 2 in
        let newSize := if allocated t <? newSize then allocated t else newSize in
        match table.newTable (mmap 0%nat) newSize with
        | inl err => (s, Some err)
        | inr nt => (go_mergeTables (set_tables (tables s ++ [nt]) s), None)
        end
      else (s, None)
  | _ => (s, None)
  end.

Lemma Delete_eq mmap s k :
  tables s ≠ [] →
  Delete mmap s k
  = (ts ← delete_scan (rev (tables s)) k;
     Return (delete_rest mmap (set_tables (rev ts) s))).
Proof.
  intros Hne. unfold Delete, delete_rest. rewrite decide_False by done.
  destruct (delete_scan _ _); simpl; [|done..].
  repeat case_match; naive_solver.
Qed.

Lemma delete_rest_spec mmap s :
  wf s → let r := delete_rest mmap s in
  wf r.1 ∧ (∀ k, copies r.1 k = copies s k)
  ∧ (r.2 = None ∨ ∃ n code, mmap 0%nat n = Some code ∧ r.2 = Some (Errno code)).
Proof.
  intros Hwf. unfold delete_rest.
  destruct (tables s) as [|t [|]] eqn:Hs; [by auto| |by auto].
  destruct (garbage_ratio_reached _ _); [|by auto].
  destruct (merging s =? 1); [by auto|].
  destruct (table.newTable _ _) as [err|nt] eqn:Hnt.
  - apply newTable_err in Hnt as (code & ? & ->). simpl. eauto 8.
  - destruct (go_merge_empty s t nt) as [Hwf2 Hc2];
      [done|by eapply newTable_wf|by eapply newTable_abs|done|].
    rewrite Hs in *. simpl in *. auto.
Qed.

(** [Delete] never drops a table. *)
Lemma delete_scan_length ts k ts' : delete_scan ts k = Return ts' → length ts' = length ts.
Proof.
  revert ts'. induction ts as [|t ts IH]; intros ts' Hd; [by injection Hd as <-|]. simpl in Hd.
  destruct (table.delete t k) as [r| |]; [|done..]. simpl in Hd.
  destruct (r.2); [|by injection Hd as <-].
  destruct (delete_scan ts k) as [ts1| |]; [|done..]. injection Hd as <-. simpl. by rewrite (IH ts1).
Qed.

Lemma Delete_tables mmap s k s' err :
  Delete mmap s k = Return (s', err) → (length (tables s) ≤ length (tables s'))%nat.
Proof.
  intros Hd. destruct (decide (tables s = [])) as [E|E].
  { rewrite E. simpl. lia. }
  rewrite Delete_eq in Hd by done. destruct (delete_scan _ k) as [ts| |] eqn:Hs; [|done..].
  apply delete_scan_length in Hs. rewrite length_rev, <-(length_rev ts) in Hs.
  cbn [mbind comp_bind] in Hd. injection Hd as Hd. unfold delete_rest in Hd.
  cbn [tables set_tables] in Hd. rewrite <-Hs.
  destruct (rev ts) as [|t [|]]; [by injection Hd as <- _| |by injection Hd as <- _].
  destruct (garbage_ratio_reached _ _); [|by injection Hd as <- _].
  destruct (merging _ =? 1); [by injection Hd as <- _|].
  destruct (table.newTable _ _); injection Hd as <- _; simpl; lia.
Qed.

(** [Delete] removes the newest copy of the key and nothing else; the tables may
    get a fresh companion. *)
Lemma Delete_spec mmap s k :
  wf s →
  ∃ s' err, Delete mmap s k = Return (s', err) ∧ wf s'
    ∧ copies s' k = tail (copies s k)
    ∧ (∀ k', k' ≠ k → copies s' k' = copies s k')
    ∧ (err = None ∨ ∃ n code, mmap 0%nat n = Some code ∧ err = Some (Errno code)).
Proof.
  intros [Hne Hwf]. rewrite Delete_eq by done.
  destruct (delete_scan_spec (rev (tables s)) k) as (ts & -> & Hwf' & Hlen & Hk & Hother);
    [by apply Forall_rev|]. cbn [mbind comp_bind].
  assert (wf (set_tables (rev ts) s)) as Hwf1.
  { split; simpl; [|by apply Forall_rev].
    intros Hts%(f_equal length). rewrite length_rev, Hlen, length_rev in Hts.
    by destruct (tables s). }
  assert (∀ k', copies (set_tables (rev ts) s) k' = copies_in ts k') as Hc.
  { intros. unfold copies. simpl. by rewrite rev_involutive. }
  destruct (delete_rest_spec mmap _ Hwf1) as (Hwf2 & Hc2 & Herr).
  destruct (delete_rest mmap _) as [s' err]. simpl in *.
  exists s', err. rewrite Hc2, Hc, Hk. do 3 (split; [done|]).
  split; [|done]. intros k' ?. by rewrite Hc2, Hc, Hother.
Qed.

(** ** The garbage ratio: the test on doubles is exact *)
Lemma round53_nearest p :
  0 ≤ p → let m := 2 ^ Z.max 0 (Z.log2 p - 52) in
  0 < m ∧ p < 2 ^ 53 * m ∧ (∃ q, round53 p = q * m)
  ∧ 2 * p - m ≤ 2 * round53 p ≤ 2 * p + m.
Proof.
  intros Hp m. set (e := Z.max 0 (Z.log2 p - 52)) in *.
  assert (0 < m) by (apply Z.pow_pos_nonneg; lia). split; [done|]. split.
  - unfold m. rewrite <- Z.pow_add_r by lia.
    destruct (decide (p = 0)) as [->|]; [lia|].
    pose proof (Z.log2_spec p) as [_ Hlt]; [lia|].
    eapply Z.lt_le_trans; [exact Hlt|]. apply Z.pow_le_mono_r; lia.
  - pose proof (Z.div_mod p m) as Hdm. pose proof (Z.mod_pos_bound p m) as Hr.
    unfold round53. fold e m. split; [by eexists|].
    destruct (_ || _) eqn:E.
    + apply orb_true_iff in E as [E|E]; zbool; nia.
    + zbool. nia.
Qed.

Lemma garbage_ratio_spec alloc garb :
  0 ≤ alloc < 2 ^ 50 → 0 ≤ garb < 2 ^ 50 →
  garbage_ratio_reached alloc garb = (2 * alloc <=? 5 * garb).
Proof.
  intros Ha Hg. unfold garbage_ratio_reached.
  assert (5 * ratio_num = 2 ^ 54 + 1) as Hnum by done.
  set (p := alloc * ratio_num). assert (0 ≤ p) by (unfold p, ratio_num; lia).
  destruct (round53_nearest p) as (Hm & Hp & [q Hq] & Hlo & Hhi); [done|].
  assert (5 * p = alloc * (2 ^ 54 + 1)) as H5 by (unfold p; lia).
  assert (∃ e, 0 ≤ e ≤ 49 ∧ 2 ^ Z.max 0 (Z.log2 p - 52) = 2 ^ e) as (e & He & Hpow).
  { eexists. split; [|done]. destruct (decide (p = 0)) as [->|]; [done|].
    assert (Z.log2 p < 102) by (apply Z.log2_lt_pow2; unfold p, ratio_num; lia). lia. }
  rewrite Hpow in *. clear Hpow.
  assert (2 ^ e ≤ 2 ^ 49) by (apply Z.pow_le_mono_r; lia).
  assert (2 ^ 53 = 2 ^ (53 - e) * 2 ^ e) as H53.
  { rewrite <- Z.pow_add_r by lia. f_equal. lia. }
  apply eq_bool_prop_intro. rewrite !Is_true_true, !Z.leb_le.
  set (M := 2 ^ e) in *. set (K := 2 ^ (53 - e)) in *. split; intros Hle.
  - nia.
  - destruct (Z.le_gt_cases (round53 p) (garb * 2 ^ 53)) as [|Hgt]; [done|exfalso].
    rewrite Hq, H53 in *. assert (garb * K + 1 ≤ q) by nia. nia.
Qed.

(** ** Raw entries *)
Lemma DecodeRaw_spec raw :
  table.raw_ok raw → DecodeRaw raw = Return (table.decode_at (list_reader raw) 0).
Proof.
  unfold table.raw_ok, table.size_at. intros Hraw. unfold DecodeRaw.
  pose proof (table.klen_at_range (list_reader raw) 0).
  pose proof (table.vlen_at_range (list_reader raw) 0).
  rewrite list_load_ok by lia. rewrite bind_return.
  fold (table.klen_at (list_reader raw) 0). cbv zeta.
  do 3 rewrite list_slice_ok by lia. cbn [mbind comp_bind].
  change (Z.to_nat 4) with 4%nat. change (Z.to_nat 8) with 8%nat.
  fold (table.vlen_at (list_reader raw) 0). by rewrite list_slice_ok by lia.
Qed.

Lemma table_getRaw_spec t k v :
  table.wf t → table.abs t !! k = Some v →
  ∃ raw, table.getRaw t k = Return (raw, false) ∧ table.raw_ok raw
    ∧ table.decode_at (list_reader raw) 0 = v
    ∧ len raw = table.size_at (list_reader raw) 0 + 1
    ∧ from_option (table.size_at (mem_reader (memory t))) 0 (hkeys t !! k)
      = table.size_at (list_reader raw) 0.
Proof.
  intros Hwf Hv. unfold table.abs in Hv. rewrite lookup_fmap in Hv.
  destruct (hkeys t !! k) as [off|] eqn:Hk; simplify_eq/=.
  destruct (table.raw_entry_ok t k off [x00] Hwf Hk) as (Hraw & Hdec & Hsize).
  eexists. split; [by apply table.getRaw_spec|]. split; [done|]. split; [done|].
  rewrite Hsize, len_app. unfold len. rewrite length_read_bytes.
  pose proof (table.size_at_bounds (mem_reader (memory t)) off). simpl. split; [lia|done].
Qed.

Lemma table_getRaw_missing t k :
  table.abs t !! k = None → table.getRaw t k = Return ([], true).
Proof.
  unfold table.abs. rewrite lookup_fmap, fmap_None. apply table.getRaw_missing.
Qed.

Lemma getRaw_scan_spec ts k v :
  Forall table.wf ts → head (copies_in ts k) = Some v →
  ∃ raw, getRaw_scan ts k = Return (raw, None) ∧ table.raw_ok raw
    ∧ table.decode_at (list_reader raw) 0 = v ∧ len raw = table.entry_size v + 1.
Proof.
  induction 1 as [|t ts Hwf _ IH]; [done|]. simpl.
  destruct (table.abs t !! k) as [v'|] eqn:Hv; intros Hh.
  - simplify_eq/=. destruct (table_getRaw_spec t k v Hwf Hv) as (raw & -> & ? & Hd & Hl & _).
    exists raw. rewrite <-Hd, table.entry_size_decode. done.
  - rewrite table_getRaw_missing by done. by apply IH.
Qed.

Lemma getRaw_scan_missing ts k :
  copies_in ts k = [] → getRaw_scan ts k = Return ([], Some ErrKeyNotFound).
Proof.
  induction ts as [|t ts IH]; [done|]. simpl.
  destruct (table.abs t !! k) eqn:Hv; [done|]. intros.
  rewrite table_getRaw_missing by done. by apply IH.
Qed.

Lemma table_putRaw_fits t k raw :
  table.wf t → table.raw_ok raw → len raw + offset t < allocated t →
  ∃ t', table.putRaw t k raw = Return (t', None) ∧ table.wf t'
        ∧ table.abs t' = <[k := table.decode_at (list_reader raw) 0]> (table.abs t)
        ∧ offset t' = offset t + len raw ∧ allocated t' = allocated t.
Proof.
  intros Hwf Hraw Hfit. exists (table.append t k raw).
  split; [by apply table.putRaw_spec|]. split; [by apply table.wf_append|].
  split; [by apply table.abs_append|done].
Qed.

(** ** Export and Import *)
Lemma Export_spec `{Codec transport} s t :
  table.wf t → tables s = [t] →
  Export s = Return (Marshal (mkTransport (hkeys t)
    (read_bytes (mem_reader (memory t)) 0 (Z.to_nat (offset t)) ++ [x00])
    (offset t) (allocated t) (inuse t) (garbage t))).
Proof.
  intros Hwf Hs. unfold Export. rewrite Hs.
  pose proof (table.wf_offset _ Hwf). pose proof (table.wf_len _ Hwf).
  pose proof (mem_slice_ok (memory t) 0 (offset t)) as Hsl. rewrite Z.add_0_l in Hsl.
  rewrite Hsl by lia. rewrite bind_return.
  rewrite go_copy_longer by (rewrite length_read_bytes, length_replicate; lia).
  rewrite length_read_bytes, drop_replicate.
  replace (Z.to_nat (offset t + 1) - Z.to_nat (offset t))%nat with 1%nat by lia. done.
Qed.

(** The table [Import] builds from what [Export] wrote. *)
Definition imported (t : table) : table :=
  table.mkTable (hkeys t)
    (Mem (allocated t) (write_bytes ∅ 0
       (read_bytes (mem_reader (memory t)) 0 (Z.to_nat (offset t)) ++ [x00])))
    (offset t) (allocated t) (inuse t) (garbage t).

Lemma imported_eqv t : table.wf t → table.eqv t (imported t).
Proof.
  intros Hwf. split; try done; simpl.
  - apply (table.wf_len _ Hwf).
  - intros i Hi. unfold mem_reader at 2. simpl.
    replace i with (0 + Z.of_nat (Z.to_nat i)) at 2 by lia.
    rewrite lookup_write_bytes_in by (rewrite length_app, length_read_bytes; simpl; lia).
    rewrite lookup_app_l by (rewrite length_read_bytes; lia).
    unfold read_bytes. rewrite list_lookup_fmap, lookup_seq_lt by lia. simpl.
    f_equal. lia.
Qed.

Lemma Import_spec `{Codec transport} mmap data t :
  table.wf t → mmap (allocated t) = None →
  Unmarshal data = inr (mkTransport (hkeys t)
    (read_bytes (mem_reader (memory t)) 0 (Z.to_nat (offset t)) ++ [x00])
    (offset t) (allocated t) (inuse t) (garbage t)) →
  Import mmap data = Return (inr (mkStorage [imported t] 0 0 false)).
Proof.
  intros Hwf Hmm Hdata. unfold Import. rewrite Hdata. simpl. unfold New.
  pose proof (table.wf_min _ Hwf). pose proof (table.wf_offset _ Hwf).
  rewrite newTable_ok; rewrite Z.max_l by lia; [|done]. simpl.
  rewrite mem_copy_fits; [done|lia|]. rewrite length_app, length_read_bytes. simpl. lia.
Qed.

(** ** Counting *)
Lemma Len_fold ts a :
  foldl (fun total t => total + Z.of_nat (size (hkeys t))) a ts
  = a + foldr (fun t n => Z.of_nat (size (table.abs t)) + n) 0 ts.
Proof.
  revert a. induction ts as [|t ts IH]; intros a; simpl; [lia|].
  rewrite IH. unfold table.abs. rewrite map_size_fmap. lia.
Qed.

Lemma foldr_size_app ts1 ts2 :
  foldr (fun t n => Z.of_nat (size (table.abs t)) + n) 0 (ts1 ++ ts2)
  = foldr (fun t n => Z.of_nat (size (table.abs t)) + n) 0 ts1
    + foldr (fun t n => Z.of_nat (size (table.abs t)) + n) 0 ts2.
Proof. induction ts1; simpl; lia. Qed.

Lemma Len_rev s :
  Len s = foldr (fun t n => Z.of_nat (size (table.abs t)) + n) 0 (rev (tables s)).
Proof.
  unfold Len. rewrite Len_fold, Z.add_0_l.
  induction (tables s) as [|t ts IH]; [done|]. simpl.
  rewrite IH, foldr_size_app. simpl. lia.
Qed.

(** The maps of the tables are apart when no key is held by two of them. *)
Lemma unique_disjoint t ts :
  (∀ k, (length (copies_in (t :: ts) k) ≤ 1)%nat) →
  (∀ k, (length (copies_in ts k) ≤ 1)%nat)
  ∧ table.abs t ##ₘ foldr (fun t acc => table.abs t ∪ acc) ∅ ts.
Proof.
  intros Hu. split.
  - intros k. specialize (Hu k). simpl in Hu. destruct (table.abs t !! k); simpl in Hu; lia.
  - apply map_disjoint_spec. intros k v1 v2 H1 H2. specialize (Hu k). simpl in Hu.
    rewrite H1 in Hu. simpl in Hu.
    pose proof (lookup_contents (mkStorage (rev ts) 0 0 false) k) as Hl.
    unfold contents, copies in Hl. simpl in Hl. rewrite rev_involutive in Hl.
    rewrite H2 in Hl. destruct (copies_in ts k); simpl in *; [done|lia].
Qed.

Lemma size_contents_unique s : unique s → Z.of_nat (size (contents s)) = Len s.
Proof.
  rewrite Len_rev. unfold unique, copies, contents.
  induction (rev (tables s)) as [|t ts IH]; intros Hu; [done|].
  destruct (unique_disjoint t ts Hu) as [Hts Hd]. simpl.
  rewrite map_size_disj_union by done. by rewrite Nat2Z.inj_add, IH.
Qed.

(** ** Iterating *)
Section Range_lemmas.
Context `{!RangeOrder Z}.

(** The entries the storage holds, the newest table first. *)
Definition entries (s : Storage) : list (Z * option VData) :=
  rev (tables s) ≫= fun t => prod_map id Some <$> map_to_list (table.abs t).

Definition collect (acc : list (Z * option VData)) (k : Z) (v : option VData)
    : list (Z * option VData) * bool := ((k, v) :: acc, true).

Lemma range_table_collect t keys acc :
  table.wf t →
  range_table collect t keys acc
  = Return (rev ((fun k => (k, table.abs t !! k)) <$> keys) ++ acc).
Proof.
  intros Hwf. revert acc. induction keys as [|k keys IH]; intros acc; [done|]. simpl.
  rewrite table_get_abs by done. simpl. rewrite IH. by rewrite <- app_assoc.
Qed.

Lemma lookup_keys_perm t n :
  (fun k => (k, table.abs t !! k)) <$> range_keys n (hkeys t)
  ≡ₚ prod_map id Some <$> map_to_list (table.abs t).
Proof.
  rewrite range_keys_perm. unfold table.abs. rewrite map_to_list_fmap.
  rewrite <- !list_fmap_compose. apply Permutation_refl', list_fmap_ext.
  intros i [k off] Hin. simpl. rewrite lookup_fmap.
  apply list_elem_of_lookup_2, elem_of_map_to_list in Hin. by rewrite Hin.
Qed.

Lemma range_scan_collect n ts acc :
  Forall table.wf ts →
  ∃ l, range_scan collect n ts acc = Return l
    ∧ l ≡ₚ (ts ≫= fun t => prod_map id Some <$> map_to_list (table.abs t)) ++ acc.
Proof.
  intros Hts. revert n acc. induction Hts as [|t ts Hwf _ IH]; intros n acc.
  - by exists acc.
  - simpl. rewrite range_table_collect by done. simpl.
    destruct (IH (S n) (rev ((fun k => (k, table.abs t !! k)) <$> range_keys n (hkeys t)) ++ acc))
      as (l & -> & Hl).
    exists l. split; [done|]. rewrite Hl, <- Permutation_rev, lookup_keys_perm.
    solve_Permutation.
Qed.

(** A callback that always goes on, on a list of entries. *)
Definition calls {A} (f : A → Z → option VData → A * bool) (a : A) (l : list (Z * VData)) : A :=
  foldl (fun a kv => (f a kv.1 (Some kv.2)).1) a l.

Fixpoint goes_on {A} (f : A → Z → option VData → A * bool) (a : A) (l : list (Z * VData)) : Prop :=
  match l with
  | [] => True
  | (k, v) :: l => (f a k (Some v)).2 = true ∧ goes_on f (f a k (Some v)).1 l
  end.

Lemma goes_on_app {A} (f : A → Z → option VData → A * bool) a l1 l2 :
  goes_on f a (l1 ++ l2) ↔ goes_on f a l1 ∧ goes_on f (calls f a l1) l2.
Proof.
  revert a. induction l1 as [|[k v] l1 IH]; intros a; simpl; [tauto|]. rewrite IH. tauto.
Qed.

Lemma range_table_calls {A} (f : A → Z → option VData → A * bool) t l a :
  table.wf t → (∀ k v, (k, v) ∈ l → table.abs t !! k = Some v) → goes_on f a l →
  range_table f t l.*1 a = Return (calls f a l).
Proof.
  intros Hwf. revert a. induction l as [|[k v] l IH]; intros a Hl Hg; [done|].
  destruct Hg as [Hgo Hg]. simpl. rewrite table_get_abs by done. simpl.
  rewrite (Hl k v) by by left. destruct (f a k (Some v)) as [a' go]. simpl in *. subst go.
  apply IH; [|done]. intros k' v' Hin. apply Hl. by right.
Qed.

(** The entries of a table in the order of the iteration. *)
Lemma table_in_order t n :
  ∃ l, l.*1 = range_keys n (hkeys t) ∧ l ≡ₚ map_to_list (table.abs t)
    ∧ ∀ k v, (k, v) ∈ l → table.abs t !! k = Some v.
Proof.
  exists (omap (fun k => pair k <$> table.abs t !! k) (range_keys n (hkeys t))).
  assert (∀ ks, (∀ k, k ∈ ks → is_Some (table.abs t !! k)) →
    (omap (fun k => pair k <$> table.abs t !! k) ks).*1 = ks) as Hfst.
  { induction ks as [|k ks IH]; intros Hks; [done|]. cbn. destruct (Hks k) as [v ->]; [by left|].
    cbn. f_equal. apply IH. intros k' Hk'. apply Hks. by right. }
  assert (∀ k v, (k, v) ∈ omap (fun k => pair k <$> table.abs t !! k) (range_keys n (hkeys t))
                 → table.abs t !! k = Some v) as Hin.
  { intros k v (k' & _ & Hk)%list_elem_of_omap. destruct (table.abs t !! k') eqn:E; by simplify_eq/=. }
  assert ((omap (fun k => pair k <$> table.abs t !! k) (range_keys n (hkeys t))).*1
          = range_keys n (hkeys t)) as Hkeys.
  { apply Hfst. intros k Hk%elem_of_range_keys. unfold table.abs. by rewrite lookup_fmap, fmap_is_Some. }
  split; [done|]. split; [|done]. apply NoDup_Permutation.
  - apply (NoDup_fmap_1 fst). rewrite Hkeys. apply NoDup_range_keys.
  - apply NoDup_map_to_list.
  - intros [k v]. rewrite elem_of_map_to_list. split; [apply Hin|]. intros Hk.
    apply list_elem_of_omap. exists k. rewrite Hk. split; [|done]. apply elem_of_range_keys.
    unfold table.abs in Hk. rewrite lookup_fmap in Hk. by destruct (hkeys t !! k).
Qed.

Lemma range_scan_calls {A} (f : A → Z → option VData → A * bool) n ts :
  Forall table.wf ts → ∃ l, l ≡ₚ (ts ≫= fun t => map_to_list (table.abs t))
    ∧ ∀ a, goes_on f a l → range_scan f n ts a = Return (calls f a l).
Proof.
  intros Hts. revert n. induction Hts as [|t ts Hwf _ IH]; intros n; [by exists []|].
  destruct (table_in_order t n) as (l1 & Hk & Hp & Hl), (IH (S n)) as (l2 & Hp2 & Hr).
  exists (l1 ++ l2). split; [simpl; by rewrite Hp, Hp2|]. intros a [H1 H2]%goes_on_app. simpl.
  rewrite <-Hk, range_table_calls by done. simpl. rewrite Hr by done.
  unfold calls. by rewrite foldl_app.
Qed.

(** [Range] over a storage without second copies calls a callback that always goes on once
    per binding. *)
Lemma Range_calls {A} (f : A → Z → option VData → A * bool) s :
  wf s → unique s → ∃ l, l ≡ₚ map_to_list (contents s)
    ∧ ∀ a, goes_on f a l → Range f s a = Return (calls f a l).
Proof.
  intros [Hne Hwf] Hu.
  destruct (range_scan_calls f 0 (rev (tables s))) as (l & Hp & Hr); [by apply Forall_rev|].
  exists l. split; last first.
  { intros a Hg. unfold Range. rewrite decide_False by done. by apply Hr. }
  rewrite Hp. unfold unique, copies, contents in *. clear -Hu.
  induction (rev (tables s)) as [|t ts IH]; [done|].
  destruct (unique_disjoint t ts Hu) as [Hts Hd]. simpl.
  by rewrite map_to_list_union, IH.
Qed.

(** A callback that asks to stop at once and counts its calls. *)
Definition stop_at_once (calls : Z) (k : Z) (v : option VData) : Z * bool :=
  (calls + 1, false).

Lemma range_scan_stop n ts calls :
  Forall table.wf ts →
  range_scan stop_at_once n ts calls
  = Return (calls + Z.of_nat (length (filter (fun t => hkeys t ≠ ∅) ts))).
Proof.
  intros Hts. revert n calls. induction Hts as [|t ts Hwf _ IH]; intros n calls; simpl.
  - f_equal. lia.
  - pose proof (length_range_keys n (hkeys t)) as Hl.
    destruct (range_keys n (hkeys t)) as [|k keys] eqn:E; simpl.
    + symmetry in Hl. apply map_size_empty_inv in Hl. rewrite IH.
      rewrite filter_cons_False by naive_solver. done.
    + rewrite table_get_abs by done. simpl. rewrite IH, filter_cons_True.
      * simpl. f_equal. lia.
      * intros He. by rewrite He, map_size_empty in Hl.
Qed.
End Range_lemmas.

Lemma check_scan_spec ts k :
  check_scan ts k = match copies_in ts k with [] => false | _ => true end.
Proof.
  induction ts as [|t ts IH]; [done|]. simpl. unfold table.abs. rewrite lookup_fmap.
  by destruct (hkeys t !! k) as [off|] eqn:Hk.
Qed.

Lemma Put_unfold fuel mmap s k v :
  wf s → Put fuel mmap s k v = put_loop (fun t => table.put t k v) fuel mmap s.
Proof. intros [Hne _]. unfold Put. by rewrite decide_False. Qed.

Lemma Export_Import_spec `{Codec transport} mmap s t data :
  table.wf t → tables s = [t] → mmap (allocated t) = None →
  Export s = Return (inr data) →
  ∃ s' t', Import mmap data = Return (inr s') ∧ wf s' ∧ tables s' = [t']
    ∧ contents s' = contents s ∧ table.eqv t t'.
Proof.
  intros Hwf Hs Hmm He. rewrite (Export_spec s t) in He by done. injection He as He.
  apply Unmarshal_Marshal in He. rewrite (Import_spec mmap data t) by done.
  pose proof (imported_eqv t Hwf) as Heq.
  eexists _, (imported t). split; [done|]. split.
  { split; [done|]. simpl. constructor; [|done]. by eapply table.eqv_wf. }
  split; [done|]. split; [|done]. unfold contents. rewrite Hs. simpl.
  by rewrite (table.eqv_abs _ _ Heq).
Qed.

(** ** The storage implements a finite map *)

(** C19: [Put] of a value with a key under 256 bytes, whose entry fits either the last
    table or the table that would be allocated next, returns after at most two rounds of
    its loop when memory is granted; the storage stays well formed and stands for the same
    map with the key bound to the value. When a table was added the merge goroutine has
    been requested. *)
Theorem Put_correct fuel mmap s ts t k v :
  wf s → tables s = ts ++ [t] → table.vdata_ok v → (2 ≤ fuel)%nat →
  (∀ i n, mmap i n = None) →
  table.entry_size v < Z.max (allocated t - offset t) (Z.max (inuse t * 2) table.minimumSize) →
  ∃ s', Put fuel mmap s k v = Return (s', None) ∧ wf s'
    ∧ contents s' = <[k := v]> (contents s)
    ∧ (length (tables s') = length (tables s) ∧ merging s' = merging s
       ∨ length (tables s') = S (length (tables s)) ∧ merging s' ≠ 0).
Proof.
  intros Hwf Hs Hv Hfuel Hmm Hsize. rewrite Put_unfold by done.
  destruct fuel as [|[|fuel]]; [lia..|].
  destruct (decide (table.entry_size v + offset t < allocated t)) as [Hf|Hf].
  - destruct (put_loop_fits (S fuel) mmap s ts t k v Hwf Hs Hv Hf)
      as (s' & ? & ? & ? & _ & ? & ?). eauto 8.
  - destruct (put_loop_fits_next fuel mmap s ts t k v Hwf Hs Hv)
      as (s' & ? & ? & ? & _ & ? & ?); [lia..|done|]. eauto 8.
Qed.

(** A key of 256 bytes or more is refused and nothing is changed. *)
Theorem Put_key_too_large fuel mmap s k v :
  wf s → (1 ≤ fuel)%nat → table.maxKeyLen ≤ len (vd_Key v) →
  Put fuel mmap s k v = Return (s, Some ErrKeyTooLarge).
Proof.
  intros Hwf Hfuel Hkey. rewrite Put_unfold by done.
  destruct (tables_snoc s Hwf) as (ts & t & Hs). destruct fuel as [|fuel]; [lia|].
  rewrite (put_loop_last _ _ _ _ ts t (t, Some ErrKeyTooLarge)); [|done| |done].
  - destruct s. simpl in *. by rewrite <- Hs.
  - unfold table.put. by rewrite (proj2 (Z.leb_le _ _) Hkey).
Qed.

(** [Put] of a value whose entry is larger than both 1 MiB and twice the bytes
    in use in the last table never returns while the kernel grants memory: the
    loop allocates one table after the other, none of which can hold the entry. *)
Theorem Put_oversized_never_returns fuel mmap s ts t k v :
  wf s → tables s = ts ++ [t] → len (vd_Key v) < table.maxKeyLen →
  allocated t ≤ table.entry_size v + offset t →
  Z.max (inuse t * 2) table.minimumSize ≤ table.entry_size v →
  (∀ i n, mmap i n = None) →
  Put fuel mmap s k v = Running.
Proof.
  intros Hwf Hs ? ? ? ?. rewrite Put_unfold by done. by eapply put_loop_oversized.
Qed.

(** C20: [Get], [GetRaw] and [Check] agree with each other and with the map the
    storage stands for, never panic, and answer ErrKeyNotFound exactly for the
    keys the map does not bind; the raw form decodes to the value of [Get]. *)
Theorem Get_GetRaw_Check_correct s k :
  wf s →
  match contents s !! k with
  | Some v => Get s k = Return (Some v, None) ∧ Check s k = Return true
      ∧ ∃ raw, GetRaw s k = Return (raw, None) ∧ DecodeRaw raw = Return v
  | None => Get s k = Return (None, Some ErrKeyNotFound) ∧ Check s k = Return false
      ∧ GetRaw s k = Return ([], Some ErrKeyNotFound)
  end.
Proof.
  intros Hwf. rewrite Get_spec by done. pose proof Hwf as [Hne Hts].
  apply Forall_rev in Hts. unfold Check, GetRaw. rewrite !decide_False by done.
  rewrite check_scan_spec. rewrite lookup_contents. fold (copies s k).
  destruct (copies s k) as [|v vs] eqn:Hc; simpl.
  - split; [done|]. split; [done|]. by apply getRaw_scan_missing.
  - split; [done|]. split; [done|].
    destruct (getRaw_scan_spec (rev (tables s)) k v) as (raw & -> & Hraw & Hdec & _);
      [done|unfold copies in Hc; by rewrite Hc|].
    exists raw. split; [done|]. rewrite DecodeRaw_spec by done. by rewrite Hdec.
Qed.

(** Bytes that are smaller than the smallest table always find room. *)
Lemma PutRaw_small mmap s k raw :
  wf s → table.raw_ok raw → len raw < table.minimumSize → (∀ i n, mmap i n = None) →
  ∃ s', PutRaw 2 mmap s k raw = Return (s', None) ∧ wf s'
    ∧ contents s' = <[k := table.decode_at (list_reader raw) 0]> (contents s).
Proof.
  intros Hwf Hraw Hlen Hmm. destruct (tables_snoc s Hwf) as (ts & t & Hs).
  pose proof (proj1 (wf_snoc _ _ _ Hs) Hwf) as [Hts Ht].
  unfold PutRaw. rewrite decide_False by (apply Hwf).
  destruct (decide (len raw + offset t < allocated t)) as [Hf|Hf].
  - destruct (table_putRaw_fits t k raw Ht Hraw Hf) as (t' & Hput & Hwf' & Habs & _).
    exists (set_tables (ts ++ [t']) s). split; [by apply (put_loop_last _ _ _ _ ts t (t', None))|].
    split; [by eapply wf_snoc|]. by eapply contents_replace_last.
  - erewrite put_loop_grow; [|done| |done]; last first.
    { unfold table.putRaw. by rewrite (proj2 (Z.leb_le _ _)) by lia. }
    set (g := grown s (ts ++ [t]) (Z.max (inuse t * 2) table.minimumSize)).
    set (e := empty_table (Z.max (inuse t * 2) table.minimumSize)).
    assert (tables g = (ts ++ [t]) ++ [e]) as Hg by apply tables_grown.
    assert (wf g) as Hwg by (apply wf_grown; [by apply Forall_app; auto|lia]).
    destruct (table_putRaw_fits e k raw) as (t' & Hput & Hwf' & Habs & _);
      [apply wf_empty_table; lia|done|simpl; lia|].
    exists (set_tables ((ts ++ [t]) ++ [t']) g).
    split; [by apply (put_loop_last _ _ _ _ _ e (t', None))|].
    split; [eapply wf_snoc; [done|split; [by apply Forall_app; auto|done]]|].
    erewrite contents_replace_last; [|done..]. unfold g. by rewrite (contents_grown _ _ _ _ Hs).
Qed.

(** [PutRaw] of bytes that hold a complete entry binds the key to the value
    [DecodeRaw] reads from them (this is how snapshots are restored and tables
    merged), whatever follows the entry in the slice. *)
Theorem PutRaw_correct fuel mmap s ts t k raw v :
  wf s → tables s = ts ++ [t] → (1 ≤ fuel)%nat → DecodeRaw raw = Return v →
  table.raw_ok raw → len raw + offset t < allocated t →
  ∃ s', PutRaw fuel mmap s k raw = Return (s', None) ∧ wf s'
    ∧ contents s' = <[k := v]> (contents s).
Proof.
  intros Hwf Hs Hfuel Hdec Hraw Hfit. rewrite DecodeRaw_spec in Hdec by done.
  injection Hdec as Hdec. pose proof (proj1 (wf_snoc _ _ _ Hs) Hwf) as [Hts Ht].
  destruct (table_putRaw_fits t k raw Ht Hraw Hfit) as (t' & Hput & Hwf' & Habs & _).
  rewrite Hdec in Habs. destruct fuel as [|fuel]; [lia|].
  exists (set_tables (ts ++ [t']) s). unfold PutRaw.
  rewrite decide_False by (apply Hwf).
  split; [by apply (put_loop_last _ _ _ _ ts t (t', None))|].
  split; [by eapply wf_snoc|]. by eapply contents_replace_last.
Qed.

(** C21: when no key is held by two tables, [Delete] removes the key from the map
    and leaves every other key, and a [Get] that follows answers ErrKeyNotFound. *)
Theorem Delete_correct mmap s k :
  wf s → unique s →
  ∃ s' err, Delete mmap s k = Return (s', err) ∧ wf s' ∧ unique s'
    ∧ contents s' = base.delete k (contents s)
    ∧ Get s' k = Return (None, Some ErrKeyNotFound)
    ∧ (err = None ∨ ∃ n code, mmap 0%nat n = Some code ∧ err = Some (Errno code)).
Proof.
  intros Hwf Hu. destruct (Delete_spec mmap s k Hwf) as (s' & err & Hd & Hwf' & Hk & Ho & He).
  assert (copies s' k = []) as Hnil.
  { rewrite Hk. specialize (Hu k). destruct (copies s k) as [|? [|]]; simpl in *; [done..|lia]. }
  exists s', err. split; [done|]. split; [done|]. split; [|split; [|split; [|done]]].
  - intros k'. destruct (decide (k' = k)) as [->|Hne]; [rewrite Hnil; simpl; lia|].
    by rewrite Ho.
  - apply map_eq. intros k'. rewrite lookup_contents.
    destruct (decide (k' = k)) as [->|Hne].
    + by rewrite Hnil, lookup_delete_eq.
    + by rewrite Ho, lookup_delete_ne, lookup_contents by done.
  - rewrite Get_spec, lookup_contents, Hnil by done. done.
Qed.

(** When an older table still holds a copy of the key (the key was overwritten
    after the storage had grown and the tables are not merged yet), [Delete]
    uncovers that copy: [Get] then answers the stale value. *)
Theorem Delete_uncovers_older_copy mmap s k v1 v0 vs :
  wf s → copies s k = v1 :: v0 :: vs →
  ∃ s' err, Delete mmap s k = Return (s', err) ∧ Get s' k = Return (Some v0, None).
Proof.
  intros Hwf Hc. destruct (Delete_spec mmap s k Hwf) as (s' & err & Hd & Hwf' & Hk & _).
  exists s', err. split; [done|]. rewrite Get_spec, lookup_contents, Hk, Hc by done. done.
Qed.

(** C40: the comparison of doubles [float64(allocated) * 0.40 <= float64(garbage)] in
    [Delete] is the exact test "garbage is at least two fifths of the allocated
    bytes" for every size below one pebibyte. *)
Theorem garbage_ratio_exact alloc garb :
  0 ≤ alloc < 2 ^ 50 → 0 ≤ garb < 2 ^ 50 →
  garbage_ratio_reached alloc garb = true ↔ 2 * alloc ≤ 5 * garb.
Proof. intros. rewrite garbage_ratio_spec by done. apply Z.leb_le. Qed.

(** C22: a storage with one table survives a round trip through [Export] and
    [Import]: the imported storage is well formed, stands for the same map, and
    keeps the offset and the counters of the table. *)
Theorem Export_Import_roundtrip `{Codec transport} mmap s t data :
  table.wf t → tables s = [t] → mmap (allocated t) = None →
  Export s = Return (inr data) →
  ∃ s' t', Import mmap data = Return (inr s') ∧ wf s' ∧ tables s' = [t']
    ∧ contents s' = contents s ∧ table.eqv t t'.
Proof. apply Export_Import_spec. Qed.

(** [Len] counts the bindings of the map when no key is held by two tables. *)
Theorem Len_correct s : unique s → Len s = Z.of_nat (size (contents s)).
Proof. intros. symmetry. by apply size_contents_unique. Qed.

(** [Range] with a callback that always goes on calls it exactly once on every
    entry of every table, whatever the order in which Go ranges over the maps. *)
Theorem Range_visits_every_entry `{!RangeOrder Z} s :
  wf s → ∃ l, Range collect s [] = Return l ∧ l ≡ₚ entries s.
Proof.
  intros [Hne Hwf]. unfold Range. rewrite decide_False by done.
  destruct (range_scan_collect 0 (rev (tables s)) []) as (l & Hl & Hp);
    [by apply Forall_rev|]. exists l. split; [done|]. by rewrite app_nil_r in Hp.
Qed.

(** A callback that answers [false] at its first call is still called once for
    every non-empty table: [break] leaves only the loop over one table's keys. *)
Theorem Range_false_stops_one_table `{!RangeOrder Z} s :
  wf s →
  Range stop_at_once s 0
  = Return (Z.of_nat (length (filter (fun t => hkeys t ≠ ∅) (rev (tables s))))).
Proof.
  intros [Hne Hwf]. unfold Range. rewrite decide_False by done.
  rewrite range_scan_stop by by apply Forall_rev. done.
Qed.

(** ** Examples *)

(** A concrete codec, for any countable type: the bits of the encoding. *)
Fixpoint pos_bytes (p : positive) : list byte :=
  match p with
  | xH => []
  | xO p => x00 :: pos_bytes p
  | xI p => x01 :: pos_bytes p
  end.
Fixpoint bytes_pos (l : list byte) : positive :=
  match l with
  | [] => xH
  | x00 :: l => xO (bytes_pos l)
  | _ :: l => xI (bytes_pos l)
  end.

Lemma bytes_pos_bytes p : bytes_pos (pos_bytes p) = p.
Proof. induction p; simpl; congruence. Qed.

Program Definition countable_codec (A : Type) `{Countable A} : Codec A := {|
  Marshal x := inr (pos_bytes (encode x));
  Unmarshal bs := match decode (bytes_pos bs) with
                  | Some x => inr x
                  | None => inl (ErrMsgpack 0)
                  end
|}.
Next Obligation. intros A ? ? x bs [= <-]. by rewrite bytes_pos_bytes, decode_encode. Qed.

#[export] Instance transport_eq_decision : EqDecision transport.
Proof. solve_decision. Defined.
#[export] Program Instance transport_countable : Countable transport :=
  inj_countable' (fun tr => (HKeys tr, Memory tr, (Offset tr, Allocated tr), (Inuse tr, Garbage tr)))
    (fun '(h, m, (o, a), (i, g)) => mkTransport h m o a i g) _.
Next Obligation. by intros []. Qed.

Definition other_value : VData := mkVData [x6b; x31] 0 [x09].
Definition one_table : Storage := mkStorage [table.sample_table] 0 0 false.
Definition two_tables : Storage :=
  mkStorage [table.sample_table;
             table.append (empty_table table.minimumSize) 42 (table.entry_bytes other_value)]
    1 1 false.

#[export] Existing Instances table.wf_dec table.vdata_ok_dec table.raw_ok_dec.

#[export] Instance wf_dec s : Decision (wf s).
Proof. unfold wf. apply _. Defined.

Lemma one_table_wf : wf one_table.
Proof. apply (bool_decide_unpack _). vm_compute. exact I. Qed.
Lemma two_tables_wf : wf two_tables.
Proof. apply (bool_decide_unpack _). vm_compute. exact I. Qed.
Lemma one_table_unique : unique one_table.
Proof. intros k. unfold copies. simpl. destruct (table.abs _ !! k); simpl; lia. Qed.

(** A value of 2 MiB. *)
Definition huge_value : VData := mkVData [] 0 (replicate (Z.to_nat (2 ^ 21)) x00).

Lemma entry_size_replicate key ttl n b :
  table.entry_size (mkVData key ttl (replicate n b)) = len key + Z.of_nat n + 13.
Proof. unfold table.entry_size, len at 2. cbn [vd_Key vd_Value]. by rewrite length_replicate. Qed.

Lemma huge_value_size : table.entry_size huge_value = 2 ^ 21 + 13.
Proof. unfold huge_value. rewrite entry_size_replicate, Z2Nat.id by lia. done. Qed.

Lemma Put_correct_witness :
  ∃ s', Put 2 (fun _ _ => None) one_table 7 other_value = Return (s', None) ∧ wf s'
    ∧ contents s' = <[7 := other_value]> (contents one_table)
    ∧ (length (tables s') = 1%nat ∧ merging s' = 0
       ∨ length (tables s') = 2%nat ∧ merging s' ≠ 0).
Proof.
  apply (Put_correct 2 (fun _ _ => None) one_table [] table.sample_table 7 other_value);
    [exact one_table_wf|reflexivity|apply (bool_decide_unpack _); vm_compute; exact I|lia
    |done|vm_compute; reflexivity].
Defined.

Lemma Put_key_too_large_witness :
  Put 1 (fun _ _ => None) one_table 7 (mkVData (replicate 300 x61) 0 [])
  = Return (one_table, Some ErrKeyTooLarge).
Proof.
  apply Put_key_too_large; [exact one_table_wf|lia|vm_compute; discriminate].
Defined.

Lemma Put_oversized_witness :
  Put 1000 (fun _ _ => None) one_table 7 huge_value = Running.
Proof.
  apply (Put_oversized_never_returns 1000 (fun _ _ => None) one_table [] table.sample_table);
    [exact one_table_wf|reflexivity|reflexivity| | |done];
    rewrite huge_value_size; vm_compute; discriminate.
Defined.

Lemma Get_GetRaw_Check_witness :
  Get two_tables 42 = Return (Some other_value, None) ∧ Check two_tables 42 = Return true
  ∧ ∃ raw, GetRaw two_tables 42 = Return (raw, None) ∧ DecodeRaw raw = Return other_value.
Proof.
  pose proof (Get_GetRaw_Check_correct two_tables 42 two_tables_wf) as H.
  assert (contents two_tables !! 42 = Some other_value) as Hc by (vm_compute; reflexivity).
  rewrite Hc in H. exact H.
Defined.

Lemma PutRaw_correct_witness :
  ∃ s', PutRaw 1 (fun _ _ => None) one_table 7 (table.entry_bytes other_value ++ [x00])
        = Return (s', None) ∧ wf s'
    ∧ contents s' = <[7 := other_value]> (contents one_table).
Proof.
  apply (PutRaw_correct 1 (fun _ _ => None) one_table [] table.sample_table);
    [exact one_table_wf|reflexivity|lia|vm_compute; reflexivity
    |apply (bool_decide_unpack _); vm_compute; exact I|vm_compute; reflexivity].
Defined.

Lemma Delete_correct_witness :
  ∃ s' err, Delete (fun _ _ => None) one_table 42 = Return (s', err) ∧ wf s' ∧ unique s'
    ∧ contents s' = base.delete 42 (contents one_table)
    ∧ Get s' 42 = Return (None, Some ErrKeyNotFound)
    ∧ (err = None ∨ ∃ (n code : Z), (None : option Z) = Some code ∧ err = Some (Errno code)).
Proof. exact (Delete_correct (fun _ (_ : Z) => None) one_table 42 one_table_wf one_table_unique). Defined.

Lemma Delete_uncovers_witness :
  ∃ s' err, Delete (fun _ _ => None) two_tables 42 = Return (s', err)
    ∧ Get s' 42 = Return (Some table.sample_value, None).
Proof.
  apply (Delete_uncovers_older_copy (fun _ _ => None) two_tables 42 other_value
           table.sample_value []); [exact two_tables_wf|vm_compute; reflexivity].
Defined.

Lemma garbage_ratio_exact_witness :
  garbage_ratio_reached 1048576 419431 = true ↔ 2 * 1048576 ≤ 5 * 419431.
Proof. apply garbage_ratio_exact; lia. Defined.

Lemma Export_Import_witness :
  ∃ s' t',
    @Import (countable_codec transport) (fun _ => None)
      (match @Export (countable_codec transport) one_table with
       | Return (inr d) => d | _ => [] end) = Return (inr s')
    ∧ wf s' ∧ tables s' = [t'] ∧ contents s' = contents one_table
    ∧ table.eqv table.sample_table t'.
Proof.
  apply (@Export_Import_roundtrip (countable_codec transport));
    [apply (bool_decide_unpack _); vm_compute; exact I|reflexivity|reflexivity
    |vm_compute; reflexivity].
Defined.

Lemma Len_correct_witness : Len one_table = Z.of_nat (size (contents one_table)).
Proof. apply Len_correct. exact one_table_unique. Defined.

Lemma Range_visits_witness :
  ∃ l, Range collect two_tables [] = Return l ∧ l ≡ₚ entries two_tables.
Proof. apply Range_visits_every_entry. exact two_tables_wf. Defined.

Lemma Range_false_witness : Range stop_at_once two_tables 0 = Return 2.
Proof. exact (Range_false_stops_one_table two_tables two_tables_wf). Defined.

End storage.
