(* ===== verification/Merge.v ===== *)
(** Merging tables: [internal/storage/merge.go].

    The goroutine started when a storage has more than one table moves the
    entries of the older tables to the last one, in chunks of bounded size. *)

From S2P Require Export Storage.

Export storage(Storage, tables, merging, wg, ctx_done).

Module merge.
Import storage.

(** ** Merging tables *)

(** How the loops of [chunkedMergeTables] end. *)
Inductive merge_end := MergeAll | MergeFull | MergeLimit.

(** The loop over the keys of one old table: the old table, the fresh table and
    the number of keys moved so far. *)
Fixpoint merge_keys (keys : list Z) (old fresh : table) (total : Z)
    : comp (table * table * Z * merge_end) :=
  match keys with
  | [] => Return (old, fresh, total, MergeAll)
  | hkey :: keys =>
      raw ← table.getRaw old hkey;
      p ← table.putRaw fresh hkey raw.1;
      if decide (p.2 = Some errNotEnoughSpace) then Return (old, p.1, total, MergeFull)
      else
        d ← table.delete old hkey;
        let total := total + 1 in
        if 1000 <? total then Return (d.1, p.1, total, MergeLimit)
        else merge_keys keys d.1 p.1 total
  end.

Fixpoint merge_tables `{!RangeOrder Z} (n : nat) (olds : list table) (fresh : table)
    (total : Z) : comp (list table * table * merge_end) :=
  match olds with
  | [] => Return ([], fresh, MergeAll)
  | old :: olds =>
      r ← merge_keys (range_keys n (hkeys old)) old fresh total;
      let '(old, fresh, total, e) := r in
      match e with
      | MergeAll =>
          r ← merge_tables (S n) olds fresh total;
          let '(olds, fresh, e) := r in Return (old :: olds, fresh, e)
      | _ => Return (old :: olds, fresh, e)
      end
  end.

(** [chunkedMergeTables] answers whether the merge is complete.  The errors of
    [close] are only logged. *)
Definition chunkedMergeTables `{!RangeOrder Z} (mmap : Z → option Z) (s : Storage)
    : comp (Storage * bool) :=
  if decide (length (tables s) = 1%nat) then Return (s, true) else
  match last (tables s) with
  | None => Panic
  | Some fresh =>
      r ← merge_tables 0 (take (length (tables s) - 1) (tables s)) fresh 0;
      let '(olds, fresh, e) := r in
      match e with
      | MergeLimit => Return (set_tables (olds ++ [fresh]) s, false)
      | MergeFull =>
          match table.newTable mmap (allocated fresh * 2) with
          | inl _ => Return (set_tables (olds ++ [fresh]) s, false)
          | inr nt => Return (set_tables (olds ++ [fresh; nt]) s, false)
          end
      | MergeAll =>
          let tmp := [fresh] ++ filter (fun t => size (hkeys t) ≠ 0%nat) olds in
          Return (set_tables tmp s, true)
      end
  end.


(** [mergeTables] runs the chunks until the merge is complete or the context is
    done: [cancel i] says whether the [i]-th [select] takes the branch of the
    cancelled context.  On its way out the goroutine clears [merging] and leaves
    the wait group. *)
Fixpoint merge_loop `{!RangeOrder Z} (fuel : nat) (mmap : nat → Z → option Z)
    (cancel : nat → bool) (s : Storage) : comp Storage :=
  match fuel with
  | O => Running
  | S fuel =>
      r ← chunkedMergeTables (mmap 0%nat) s;
      if (r.2 : bool) || cancel 0%nat then Return r.1
      else merge_loop fuel (fun i => mmap (S i)) (fun i => cancel (S i)) r.1
  end.

Definition mergeTables `{!RangeOrder Z} (fuel : nat) (mmap : nat → Z → option Z)
    (cancel : nat → bool) (s : Storage) : comp Storage :=
  s ← merge_loop fuel mmap cancel s;
  Return (mkStorage (tables s) 0 (wg s - 1) (ctx_done s)).

(** ** Moving one entry *)

(** The bytes that the raw form of the entries of a table takes. *)
Definition raw_bytes (t : table) : Z :=
  map_sum (fun off => table.size_at (mem_reader (memory t)) off + 1) (hkeys t).

(** One iteration of the loop over the keys: an entry of [old], whose raw form has
    [w] bytes, is appended to [fresh] and removed from [old]. *)
Record move_key (k : Z) (v : VData) (w : Z) (old fresh old' fresh' : table) : Prop := {
  mv_value : table.abs old !! k = Some v;
  mv_old : table.abs old' = base.delete k (table.abs old);
  mv_fresh : table.abs fresh' = <[k := v]> (table.abs fresh);
  mv_wf_old : table.wf old';
  mv_wf_fresh : table.wf fresh';
  mv_offset : offset fresh' = offset fresh + w;
  mv_allocated : allocated fresh' = allocated fresh;
  mv_raw_old : raw_bytes old' + w = raw_bytes old;
  mv_raw_fresh : raw_bytes fresh' ≤ raw_bytes fresh + w
}.

Lemma raw_bytes_nonneg t : 0 ≤ raw_bytes t.
Proof.
  unfold raw_bytes. induction (hkeys t) as [|i x m Hi IH] using map_ind.
  - by rewrite map_sum_empty.
  - rewrite map_sum_insert by done.
    pose proof (table.size_at_bounds (mem_reader (memory t)) x). lia.
Qed.

Lemma raw_bytes_append t k bs :
  table.wf t → table.raw_ok bs →
  raw_bytes (table.append t k bs)
  ≤ raw_bytes t + (table.size_at (list_reader bs) 0 + 1).
Proof.
  intros Hwf Hraw. destruct (table.append_entry_new t k bs Hraw) as [_ Hnew].
  unfold raw_bytes. simpl hkeys. rewrite <- insert_delete_eq.
  rewrite map_sum_insert by apply lookup_delete_eq. rewrite Hnew.
  rewrite (map_sum_ext _ (fun off => table.size_at (mem_reader (memory t)) off + 1)).
  - destruct (hkeys t !! k) as [off|] eqn:Hk; [|rewrite delete_id by done; lia].
    rewrite (map_sum_delete _ (hkeys t) _ _ Hk).
    pose proof (table.size_at_bounds (mem_reader (memory t)) off). lia.
  - intros k' off' Hk'. apply lookup_delete_Some in Hk' as [_ Hk'].
    destruct (table.append_entry_below t k bs off') as [_ Hs].
    + by apply (table.wf_entries _ Hwf k').
    + by rewrite Hs.
Qed.

(** What one iteration of [merge_keys] does, with or without room in [fresh]. *)
Lemma move_key_step old fresh k v :
  table.wf old → table.wf fresh → table.abs old !! k = Some v →
  ∃ raw, table.getRaw old k = Return (raw, false) ∧ 0 < len raw ≤ raw_bytes old
    ∧ if allocated fresh <=? len raw + offset fresh
      then table.putRaw fresh k raw = Return (fresh, Some errNotEnoughSpace)
      else ∃ old' fresh', table.putRaw fresh k raw = Return (fresh', None)
             ∧ table.delete old k = Return (old', false)
             ∧ move_key k v (len raw) old fresh old' fresh'.
Proof.
  intros Hwo Hwf Hv. destruct (table_getRaw_spec old k v Hwo Hv) as (raw & Hget & Hraw & Hdec & Hlen & Hsize).
  assert (∃ off, hkeys old !! k = Some off) as [off Hoff].
  { unfold table.abs in Hv. rewrite lookup_fmap in Hv.
    destruct (hkeys old !! k); [eauto|done]. }
  rewrite Hoff in Hsize. simpl in Hsize.
  pose proof (table.size_at_bounds (mem_reader (memory old)) off) as Hpos.
  assert (len raw + raw_bytes (table.discard old k) = raw_bytes old) as Hrb.
  { unfold raw_bytes at 2. rewrite (map_sum_delete _ _ _ _ Hoff).
    unfold table.discard. rewrite Hoff. unfold raw_bytes. simpl. lia. }
  pose proof (raw_bytes_nonneg (table.discard old k)).
  exists raw. split; [done|]. split; [lia|].
  destruct (Z.leb_spec (allocated fresh) (len raw + offset fresh)) as [Hfull|Hfit].
  { unfold table.putRaw. by rewrite (proj2 (Z.leb_le _ _) Hfull). }
  exists (table.discard old k), (table.append fresh k raw).
  split; [by apply table.putRaw_spec|]. split.
  { rewrite table.delete_discard by done. by rewrite Hoff. }
  split; [done|apply table.abs_discard| |by apply table.wf_discard|by apply table.wf_append
         |done|done|lia|].
  - by rewrite table.abs_append, Hdec by done.
  - pose proof (raw_bytes_append fresh k raw Hwf Hraw). lia.
Qed.

(** ** The loops as sequences of moves *)
Abbreviation mstate := (list table * table)%type.

(** A move from any of the old tables. *)
Inductive mstep : mstate → mstate → Prop :=
  | mstep_move l1 l2 old old' fresh fresh' k v w :
      move_key k v w old fresh old' fresh' → 0 < w →
      mstep (l1 ++ old :: l2, fresh) (l1 ++ old' :: l2, fresh').

Definition key_count (ts : list table) : nat :=
  foldr (fun t n => size (table.abs t) + n)%nat 0%nat ts.
Definition raw_total (ts : list table) : Z := foldr (fun t n => raw_bytes t + n) 0 ts.

Lemma raw_total_app ts1 ts2 : raw_total (ts1 ++ ts2) = raw_total ts1 + raw_total ts2.
Proof. unfold raw_total. induction ts1; simpl; lia. Qed.

Lemma raw_total_nonneg ts : 0 ≤ raw_total ts.
Proof.
  unfold raw_total. induction ts as [|t ts IH]; simpl; [lia|].
  pose proof (raw_bytes_nonneg t). lia.
Qed.

Lemma key_count_app ts1 ts2 : key_count (ts1 ++ ts2) = (key_count ts1 + key_count ts2)%nat.
Proof. unfold key_count. induction ts1; simpl; lia. Qed.

Lemma mstep_wf st st' :
  mstep st st' → Forall table.wf st.1 → Forall table.wf st'.1 ∧ table.wf st'.2.
Proof.
  intros [l1 l2 old old' fresh fresh' k v w Hmv _]. simpl.
  rewrite !Forall_app, !Forall_cons. destruct Hmv. tauto.
Qed.

(** What the fresh table will have received when the old tables are empty does not
    change, and the raw size of all tables does not grow. *)
Lemma mstep_measure st st' :
  mstep st st' →
  offset st'.2 + raw_total st'.1 = offset st.2 + raw_total st.1
  ∧ raw_bytes st'.2 + raw_total st'.1 ≤ raw_bytes st.2 + raw_total st.1
  ∧ allocated st'.2 = allocated st.2
  ∧ length st'.1 = length st.1
  ∧ key_count st.1 = S (key_count st'.1).
Proof.
  intros [l1 l2 old old' fresh fresh' k v w Hmv _]. cbn [fst snd].
  rewrite !raw_total_app, !key_count_app, !length_app. simpl.
  unfold key_count at 2 4. simpl.
  destruct Hmv as [Hv Ho Hf _ _ Hoff Hal Hro Hrf].
  assert (size (table.abs old) = S (size (table.abs old'))) as Hsz.
  { rewrite Ho. rewrite <- (insert_delete_id _ _ _ Hv) at 1.
    rewrite map_size_insert_None by apply lookup_delete_eq. done. }
  unfold key_count. rewrite Hsz. lia.
Qed.

(** Uniqueness: a key held by at most one of the tables stays so, with its value. *)
Lemma mstep_copies st st' k :
  mstep st st' → (length (copies_in (st.2 :: st.1) k) ≤ 1)%nat →
  copies_in (st'.2 :: st'.1) k ≡ₚ copies_in (st.2 :: st.1) k.
Proof.
  intros [l1 l2 old old' fresh fresh' k' v w Hmv _]. cbn [fst snd]. intros Hu.
  change (fresh :: l1 ++ old :: l2) with ([fresh] ++ l1 ++ [old] ++ l2) in *.
  change (fresh' :: l1 ++ old' :: l2) with ([fresh'] ++ l1 ++ [old'] ++ l2) in *.
  rewrite !copies_in_app in *. simpl in *. destruct Hmv as [Hv Ho Hf _ _ _ _ _ _].
  rewrite Ho, Hf in *. destruct (decide (k' = k)) as [->|Hne].
  - rewrite lookup_insert_eq, lookup_delete_eq. rewrite Hv in *. simpl.
    rewrite !length_app in Hu. simpl in Hu.
    destruct (table.abs fresh !! k); simpl in *; [lia|].
    destruct (copies_in l1 k); simpl in *; [done|lia].
  - by rewrite lookup_insert_ne, lookup_delete_ne by done.
Qed.

Lemma nsteps_wf n st st' :
  nsteps mstep n st st' → Forall table.wf st.1 → table.wf st.2 →
  Forall table.wf st'.1 ∧ table.wf st'.2.
Proof.
  induction 1 as [|n st1 st2 st3 Hs _ IH]; [done|]. intros H1 H2.
  destruct (mstep_wf _ _ Hs H1). auto.
Qed.

Lemma nsteps_measure n st st' :
  nsteps mstep n st st' →
  offset st'.2 + raw_total st'.1 = offset st.2 + raw_total st.1
  ∧ raw_bytes st'.2 + raw_total st'.1 ≤ raw_bytes st.2 + raw_total st.1
  ∧ allocated st'.2 = allocated st.2
  ∧ length st'.1 = length st.1
  ∧ key_count st.1 = (n + key_count st'.1)%nat.
Proof.
  induction 1 as [|n st1 st2 st3 Hs _ IH]; [lia|].
  pose proof (mstep_measure _ _ Hs). lia.
Qed.

Lemma nsteps_copies n st st' k :
  nsteps mstep n st st' → (length (copies_in (st.2 :: st.1) k) ≤ 1)%nat →
  copies_in (st'.2 :: st'.1) k ≡ₚ copies_in (st.2 :: st.1) k.
Proof.
  induction 1 as [|n st1 st2 st3 Hs _ IH]; [done|]. intros Hu.
  pose proof (mstep_copies _ _ k Hs Hu) as Hp. rewrite <- Hp. apply IH.
  by rewrite Hp.
Qed.

(** How a loop of the merge can end, in terms of the state it leaves. *)
Definition end_ok (e : merge_end) (n : nat) (all : Prop) (olds : list table) (fresh : table)
    : Prop :=
  match e with
  | MergeAll => all
  | MergeFull => ∃ w, w ≤ raw_total olds ∧ allocated fresh ≤ w + offset fresh
  | MergeLimit => (0 < n)%nat
  end.

Lemma merge_keys_spec l1 l2 keys old fresh total :
  table.wf old → table.wf fresh → NoDup keys →
  (∀ k, k ∈ keys → is_Some (table.abs old !! k)) → total ≤ 1000 →
  ∃ old' fresh' n e,
    merge_keys keys old fresh total = Return (old', fresh', total + Z.of_nat n, e)
    ∧ nsteps mstep n (l1 ++ old :: l2, fresh) (l1 ++ old' :: l2, fresh')
    ∧ table.wf old' ∧ table.wf fresh'
    ∧ end_ok e n
        ((∀ k, table.abs old' !! k = if decide (k ∈ keys) then None else table.abs old !! k)
         ∧ (∀ k, table.abs fresh' !! k
                 = if decide (k ∈ keys) then table.abs old !! k else table.abs fresh !! k)
         ∧ total + Z.of_nat n ≤ 1000) (l1 ++ old' :: l2) fresh'.
Proof.
  intros Hwo Hwf Hnd Hin Ht. revert old fresh total Hwo Hwf Hin Ht.
  induction Hnd as [|k keys Hk Hnd IH]; intros old fresh total Hwo Hwf Hin Ht; simpl.
  { exists old, fresh, 0%nat, MergeAll. rewrite Z.add_0_r.
    split; [done|]. split; [constructor|]. split; [done|]. split; [done|].
    split; [|split; [|lia]]; by intros k. }
  destruct (Hin k) as [v Hv]; [by left|].
  destruct (move_key_step old fresh k v Hwo Hwf Hv) as (raw & -> & Hlen & Hput). simpl.
  destruct (Z.leb_spec (allocated fresh) (len raw + offset fresh)) as [Hfull|Hfit].
  { rewrite Hput. simpl. exists old, fresh, 0%nat, MergeFull. rewrite Z.add_0_r.
    split; [done|]. split; [constructor|]. split; [done|]. split; [done|].
    exists (len raw). split; [|done]. rewrite raw_total_app. simpl.
    pose proof (raw_total_nonneg l1). pose proof (raw_total_nonneg l2). lia. }
  destruct Hput as (old1 & fresh1 & -> & -> & Hmv). simpl.
  pose proof (mstep_move l1 l2 _ _ _ _ _ _ _ Hmv (proj1 Hlen)) as Hstep.
  destruct Hmv as [_ Ho Hf Hwo1 Hwf1 _ _ _ _].
  destruct (Z.ltb_spec 1000 (total + 1)) as [Hlim|Hlim].
  { exists old1, fresh1, 1%nat, MergeLimit. split; [done|].
    split; [by apply nsteps_once|]. simpl. auto with lia. }
  destruct (IH old1 fresh1 (total + 1)) as (old' & fresh' & n & e & -> & Hn & ? & ? & He);
    [done|done| |lia|].
  { intros k' Hk'. rewrite Ho, lookup_delete_ne by (by intros ->). apply Hin. by right. }
  exists old', fresh', (S n), e. rewrite Nat2Z.inj_succ, <- Z.add_1_l, Z.add_assoc.
  split; [done|]. split; [by eapply nsteps_l|]. split; [done|]. split; [done|].
  destruct e; simpl in *; [|done|lia]. destruct He as (He1 & He2 & He3).
  split; [|split; [|lia]].
  - intros k'. rewrite He1, Ho. destruct (decide (k' = k)) as [->|Hne].
    + rewrite (decide_False (P := k ∈ keys)), lookup_delete_eq by done.
      by rewrite decide_True by left.
    + rewrite lookup_delete_ne by done.
      apply decide_ext. rewrite elem_of_cons. tauto.
  - intros k'. rewrite He2, Ho, Hf. destruct (decide (k' = k)) as [->|Hne].
    + rewrite (decide_False (P := k ∈ keys)), lookup_insert_eq by done.
      by rewrite decide_True by left.
    + rewrite lookup_delete_ne, lookup_insert_ne by done.
      apply decide_ext. rewrite elem_of_cons. tauto.
Qed.

(** Ranging over the keys of a table visits all of them. *)
Lemma merge_table_spec `{!RangeOrder Z} i l1 l2 old fresh total :
  table.wf old → table.wf fresh → total ≤ 1000 →
  ∃ old' fresh' n e,
    merge_keys (range_keys i (hkeys old)) old fresh total
    = Return (old', fresh', total + Z.of_nat n, e)
    ∧ nsteps mstep n (l1 ++ old :: l2, fresh) (l1 ++ old' :: l2, fresh')
    ∧ table.wf old' ∧ table.wf fresh'
    ∧ end_ok e n (table.abs old' = ∅ ∧ table.abs fresh' = table.abs old ∪ table.abs fresh
                  ∧ total + Z.of_nat n ≤ 1000) (l1 ++ old' :: l2) fresh'.
Proof.
  intros Hwo Hwf Ht.
  assert (∀ k, k ∈ range_keys i (hkeys old) ↔ is_Some (table.abs old !! k)) as Hkeys.
  { intros k. rewrite elem_of_range_keys. unfold table.abs.
    by rewrite lookup_fmap, fmap_is_Some. }
  destruct (merge_keys_spec l1 l2 (range_keys i (hkeys old)) old fresh total)
    as (old' & fresh' & n & e & ? & ? & ? & ? & He);
    [done|done|apply NoDup_range_keys|by intros; apply Hkeys|done|].
  exists old', fresh', n, e. do 4 (split; [done|]).
  destruct e; simpl in *; [|done..]. destruct He as (He1 & He2 & ?).
  split; [|split; [|done]]; apply map_eq; intros k.
  - rewrite He1, lookup_empty. case_decide as Hk; [done|].
    rewrite Hkeys, <- eq_None_not_Some in Hk. done.
  - rewrite He2, lookup_union. case_decide as Hk; rewrite Hkeys in Hk.
    + destruct Hk as [v ->]. by rewrite union_Some_l.
    + rewrite <- eq_None_not_Some in Hk. by rewrite Hk, (left_id_L None union).
Qed.

Lemma merge_tables_spec `{!RangeOrder Z} i done_ olds fresh total :
  Forall table.wf olds → table.wf fresh → total ≤ 1000 →
  ∃ olds' fresh' n e,
    merge_tables i olds fresh total = Return (olds', fresh', e)
    ∧ nsteps mstep n (done_ ++ olds, fresh) (done_ ++ olds', fresh')
    ∧ Forall table.wf olds' ∧ table.wf fresh'
    ∧ end_ok e n
        (Forall (fun t => table.abs t = ∅) olds'
         ∧ ∀ k, table.abs fresh' !! k
                = head (copies_in (rev olds) k ++ option_list (table.abs fresh !! k)))
        (done_ ++ olds') fresh'.
Proof.
  intros Hwo Hwf Ht. revert i done_ fresh total Hwf Ht.
  induction Hwo as [|old olds Hold Holds IH]; intros i done_ fresh total Hwf Ht; simpl.
  { exists [], fresh, 0%nat, MergeAll. split; [done|]. split; [constructor|].
    split; [done|]. split; [done|]. split; [done|].
    intros k. by destruct (table.abs fresh !! k). }
  destruct (merge_table_spec i done_ olds old fresh total Hold Hwf Ht)
    as (old' & fresh1 & n & e & -> & Hn & Hwo' & Hwf1 & He). simpl.
  destruct e; simpl in He.
  2, 3: eexists (old' :: olds), fresh1, n, _; repeat (split; [done|]);
    split; [by constructor|]; split; done.
  destruct He as (He1 & He2 & He3).
  destruct (IH (S i) (done_ ++ [old']) fresh1 (total + Z.of_nat n))
    as (olds' & fresh' & n' & e & -> & Hn' & Hwo'' & Hwf' & He'); [done|lia|]. simpl.
  rewrite <- (app_assoc _ _ olds), <- (app_assoc _ _ olds') in Hn'.
  rewrite <- (app_assoc _ _ olds') in He'. simpl in Hn', He'.
  exists (old' :: olds'), fresh', (n + n')%nat, e. split; [done|].
  split; [by eapply nsteps_trans; [exact Hn|exact Hn']|]. split; [by constructor|]. split; [done|].
  destruct e; simpl in *; [|done|lia]. destruct He' as [Hempty Hlook].
  split; [by constructor|]. intros k. rewrite Hlook, He2, lookup_union.
  rewrite copies_in_app, <- app_assoc. simpl.
  destruct (copies_in (rev olds) k); simpl; [|done].
  destruct (table.abs old !! k); simpl; [by rewrite union_Some_l|].
  by rewrite (left_id_L None union).
Qed.

(** ** A chunk, and the whole merge *)
Lemma filter_empty_tables ts :
  Forall (fun t => table.abs t = ∅) ts →
  filter (fun t => size (hkeys t) ≠ 0%nat) ts = [].
Proof.
  induction 1 as [|t ts Ht _ IH]; [done|]. rewrite filter_cons_False; [done|].
  intros Hn. apply Hn. apply (f_equal size) in Ht. unfold table.abs in Ht.
  by rewrite map_size_fmap, map_size_empty in Ht.
Qed.

Lemma chunk_single `{!RangeOrder Z} mmap s t :
  tables s = [t] → chunkedMergeTables mmap s = Return (s, true).
Proof. intros Hs. unfold chunkedMergeTables. by rewrite Hs. Qed.

Lemma chunk_spec `{!RangeOrder Z} mmap s olds fresh :
  wf s → tables s = olds ++ [fresh] → olds ≠ [] →
  ∃ olds' fresh' n e ts',
    nsteps mstep n (olds, fresh) (olds', fresh')
    ∧ Forall table.wf olds' ∧ table.wf fresh'
    ∧ end_ok e n
        (Forall (fun t => table.abs t = ∅) olds'
         ∧ ∀ k, table.abs fresh' !! k
                = head (copies_in (rev olds) k ++ option_list (table.abs fresh !! k)))
        olds' fresh'
    ∧ chunkedMergeTables mmap s
      = Return (set_tables ts' s, match e with MergeAll => true | _ => false end)
    ∧ match e with
      | MergeAll => ts' = [fresh']
      | MergeLimit => ts' = olds' ++ [fresh']
      | MergeFull =>
          (mmap (allocated fresh' * 2) ≠ None ∧ ts' = olds' ++ [fresh'])
          ∨ ts' = (olds' ++ [fresh']) ++ [empty_table (allocated fresh' * 2)]
      end.
Proof.
  intros Hwf Hs Hne. pose proof (proj1 (wf_snoc _ _ _ Hs) Hwf) as [Hwo Hwfr].
  destruct (merge_tables_spec 0 [] olds fresh 0 Hwo Hwfr) as
    (olds' & fresh' & n & e & Hm & Hn & Hwo' & Hwf' & He); [lia|]. simpl in Hn, He.
  assert (Z.max (allocated fresh' * 2) table.minimumSize = allocated fresh' * 2) as Hmax.
  { pose proof (table.wf_min _ Hwf'). assert (0 < table.minimumSize) by done. lia. }
  unfold chunkedMergeTables.
  rewrite decide_False by (rewrite Hs, length_app; destruct olds; simpl; [done|lia]).
  rewrite Hs, last_snoc, take_init, Hm. cbn [mbind comp_bind].
  destruct e; simpl in He.
  - exists olds', fresh', n, MergeAll, [fresh'].
    rewrite filter_empty_tables by apply He. done.
  - destruct (table.newTable mmap (allocated fresh' * 2)) as [err|nt] eqn:Hnt.
    + exists olds', fresh', n, MergeFull, (olds' ++ [fresh']).
      do 5 (split; [done|]). left.
      apply newTable_err in Hnt as (code & Hc & _). rewrite Hmax in Hc. by rewrite Hc.
    + apply newTable_inv in Hnt as ->. rewrite Hmax.
      exists olds', fresh', n, MergeFull,
        ((olds' ++ [fresh']) ++ [empty_table (allocated fresh' * 2)]).
      rewrite <- app_assoc. do 5 (split; [done|]). by right.
  - exists olds', fresh', n, MergeLimit, (olds' ++ [fresh']). done.
Qed.

#[export] Instance copies_in_perm : Proper ((≡ₚ) ==> eq ==> (≡ₚ)) copies_in.
Proof. intros ts1 ts2 Hp k ? <-. unfold copies_in. by rewrite Hp. Qed.

Lemma copies_perm s olds fresh k :
  tables s = olds ++ [fresh] → copies s k ≡ₚ copies_in (fresh :: olds) k.
Proof.
  intros Hs. unfold copies. rewrite Hs, <- Permutation_rev, Permutation_app_comm. done.
Qed.

Lemma perm_short {A} (l1 l2 : list A) :
  l1 ≡ₚ l2 → (length l2 ≤ 1)%nat → l1 = l2.
Proof.
  intros Hp Hl. destruct l2 as [|x [|]]; simpl in Hl; [..|lia].
  - by apply Permutation_nil_r in Hp.
  - by apply Permutation_singleton_r in Hp.
Qed.

(** The copies of a key that one table at most holds survive a chunk. *)
Lemma chunk_copies_of `{!RangeOrder Z} mmap s s' b :
  wf s → chunkedMergeTables mmap s = Return (s', b) →
  wf s' ∧ (∀ k, (length (copies s k) ≤ 1)%nat → copies s' k = copies s k)
  ∧ (b = true → length (tables s') = 1%nat).
Proof.
  intros Hwf Hc. destruct (tables_snoc s Hwf) as (olds & fresh & Hs).
  destruct (decide (olds = [])) as [->|Hne].
  { rewrite (chunk_single mmap s fresh) in Hc by done. simplify_eq. by rewrite Hs. }
  destruct (chunk_spec mmap s olds fresh Hwf Hs Hne) as
    (olds' & fresh' & n & e & ts' & Hn & Hwo' & Hwf' & He & Hc' & Hts).
  rewrite Hc' in Hc. injection Hc as <- <-.
  assert (∀ k, (length (copies s k) ≤ 1)%nat → copies_in (fresh' :: olds') k ≡ₚ copies s k) as Hperm.
  { intros k Hk. rewrite (copies_perm _ _ _ k Hs) in Hk |- *.
    by apply (nsteps_copies _ _ _ k Hn). }
  assert (∀ ts, (∀ k, copies_in ts k ≡ₚ copies_in (fresh' :: olds') k) →
    ∀ k, (length (copies s k) ≤ 1)%nat → copies (set_tables ts s) k = copies s k) as Heq.
  { intros ts Hp k Hk. apply perm_short; [|done]. unfold copies at 1. simpl.
    by rewrite <- Permutation_rev, Hp, Hperm. }
  assert (∀ k, copies_in (olds' ++ [fresh']) k ≡ₚ copies_in (fresh' :: olds') k) as Hsnoc.
  { intros k. by rewrite Permutation_app_comm. }
  assert (Forall table.wf (olds' ++ [fresh'])) as Hall by (by apply Forall_app; auto).
  pose proof (table.wf_min _ Hwf').
  assert (0 < table.minimumSize) by done.
  destruct e.
  - subst ts'. split; [|split; [|done]].
    + split; [done|]. simpl. by constructor.
    + apply Heq. intros k. destruct He as [Hem _].
      change (fresh' :: olds') with ([fresh'] ++ olds'). rewrite copies_in_app.
      replace (copies_in olds' k) with ([] : list VData); [by rewrite app_nil_r|].
      clear -Hem. induction Hem as [|t ts Ht _ IH]; [done|]. simpl.
      by rewrite Ht, lookup_empty.
  - destruct Hts as [[_ ->]| ->]; (split; [|split; [|done]]).
    + split; [by destruct olds'|done].
    + by apply Heq.
    + split; [by destruct olds'|]. simpl. apply Forall_app. split; [done|].
      constructor; [|done]. apply wf_empty_table. lia.
    + apply Heq. intros k. rewrite copies_in_app, Hsnoc.
      simpl copies_in at 2. unfold table.abs at 1. simpl.
      rewrite fmap_empty, lookup_empty. by rewrite app_nil_r.
  - subst ts'. split; [|split; [|done]].
    + split; [by destruct olds'|done].
    + by apply Heq.
Qed.

Lemma chunk_copies `{!RangeOrder Z} mmap s s' b :
  wf s → unique s → chunkedMergeTables mmap s = Return (s', b) →
  wf s' ∧ (∀ k, copies s' k = copies s k) ∧ (b = true → length (tables s') = 1%nat).
Proof.
  intros Hwf Hu Hc. destruct (chunk_copies_of _ _ _ _ Hwf Hc) as (? & Hk & ?).
  split; [done|]. split; [|done]. intros k. apply Hk, Hu.
Qed.

Lemma chunk_total `{!RangeOrder Z} mmap s :
  wf s → ∃ s' b, chunkedMergeTables mmap s = Return (s', b).
Proof.
  intros Hwf. destruct (tables_snoc s Hwf) as (olds & fresh & Hs).
  destruct (decide (olds = [])) as [->|Hne].
  - eexists _, _. by apply (chunk_single mmap s fresh).
  - destruct (chunk_spec mmap s olds fresh Hwf Hs Hne) as
      (olds' & fresh' & n & e & ts' & _ & _ & _ & _ & -> & _). eauto.
Qed.

Lemma contents_copies s s' :
  (∀ k, copies s' k = copies s k) → contents s' = contents s.
Proof. intros Hc. apply map_eq. intros k. by rewrite !lookup_contents, Hc. Qed.

(** What the fresh table will have received, and the raw size of all tables. *)
Definition pending (olds : list table) (fresh : table) : Z := offset fresh + raw_total olds.
Definition weight (olds : list table) (fresh : table) : Z := raw_bytes fresh + raw_total olds.

(** One chunk of an incomplete merge makes progress: either keys left the old
    tables, or the fresh table was too small and its size has been doubled. *)
Lemma chunk_progress `{!RangeOrder Z} mmap s olds fresh :
  wf s → tables s = olds ++ [fresh] → (∀ n, mmap n = None) →
  (∃ s', chunkedMergeTables mmap s = Return (s', true) ∧ wf s' ∧ length (tables s') = 1%nat)
  ∨ ∃ s' olds' fresh', chunkedMergeTables mmap s = Return (s', false) ∧ wf s'
      ∧ tables s' = olds' ++ [fresh']
      ∧ ((key_count olds' < key_count olds)%nat ∧ allocated fresh' = allocated fresh
         ∧ pending olds' fresh' = pending olds fresh
         ∧ weight olds' fresh' ≤ weight olds fresh
         ∨ allocated fresh ≤ pending olds fresh
           ∧ allocated fresh' = allocated fresh * 2
           ∧ pending olds' fresh' ≤ weight olds fresh
           ∧ weight olds' fresh' ≤ weight olds fresh).
Proof.
  intros Hwf Hs Hmm. destruct (decide (olds = [])) as [->|Hne].
  { left. exists s. by rewrite (chunk_single mmap s fresh), Hs by done. }
  destruct (chunk_spec mmap s olds fresh Hwf Hs Hne) as
    (olds' & fresh' & n & e & ts' & Hn & Hwo' & Hwf' & He & Hc' & Hts).
  apply nsteps_measure in Hn as (Hpend & Hweight & Hal & _ & Hcnt). simpl in *.
  unfold pending, weight. pose proof (table.wf_min _ Hwf').
  assert (0 < table.minimumSize) by done.
  assert (Forall table.wf (olds' ++ [fresh'])) as Hall by (by apply Forall_app; auto).
  destruct e; simpl in He.
  - left. subst ts'. eexists. split; [done|]. split; [|done]. split; [done|]. by constructor.
  - right. destruct Hts as [[Hbad _]| ->]; [by rewrite Hmm in Hbad|].
    destruct He as (w & Hw & Hfull).
    eexists _, (olds' ++ [fresh']), (empty_table (allocated fresh' * 2)).
    split; [done|]. split.
    { eapply wf_snoc; [done|]. split; [done|]. apply wf_empty_table. lia. }
    split; [done|]. right. rewrite raw_total_app.
    change (raw_total [fresh']) with (raw_bytes fresh' + 0).
    change (raw_bytes (empty_table _)) with 0. simpl. lia.
  - right. subst ts'. eexists _, olds', fresh'. split; [done|]. split.
    { by eapply wf_snoc. }
    split; [done|]. left. lia.
Qed.

(** The merge of [s] completes when nothing else runs on the storage. *)
Definition completes `{!RangeOrder Z} (s : Storage) : Prop :=
  ∀ mmap cancel, (∀ i sz, mmap i sz = None) → (∀ i, cancel i = false) →
  ∃ fuel s', merge_loop fuel mmap cancel s = Return s' ∧ wf s'
    ∧ length (tables s') = 1%nat ∧ (unique s → ∀ k, copies s' k = copies s k)
    ∧ wg s' = wg s.

Lemma chunk_flags `{!RangeOrder Z} mmap s s' b :
  chunkedMergeTables mmap s = Return (s', b) → merging s' = merging s ∧ wg s' = wg s.
Proof.
  unfold chunkedMergeTables. case_decide; [by intros [= <- <-]|].
  destruct (last (tables s)); [|done].
  destruct (merge_tables _ _ _ _) as [[[olds fresh] e]| |]; [|done..]. simpl.
  destruct e; [by intros [= <- <-]| |by intros [= <- <-]].
  destruct (table.newTable _ _); by intros [= <- <-].
Qed.

Lemma completes_step `{!RangeOrder Z} s :
  wf s →
  (∀ mmap, (∀ n, mmap n = None) → ∃ s1 b, chunkedMergeTables mmap s = Return (s1, b)
     ∧ wf s1 ∧ if b : bool then length (tables s1) = 1%nat else completes s1) →
  completes s.
Proof.
  intros Hwf Hstep mmap cancel Hmm Hca.
  destruct (Hstep (mmap 0%nat)) as (s1 & b & Hc & Hwf1 & Hb); [done|].
  assert (unique s → ∀ k, copies s1 k = copies s k) as Hcop.
  { intros Hu. by apply (chunk_copies _ _ _ _ Hwf Hu Hc). }
  pose proof (chunk_flags _ _ _ _ Hc) as [_ Hwg]. destruct b.
  - exists 1%nat, s1. simpl. rewrite Hc. done.
  - destruct (Hb (fun i => mmap (S i)) (fun i => cancel (S i))) as
      (fuel & s' & Hrun & Hwf' & Hl & Hcop' & Hwg'); [done|done|].
    exists (S fuel), s'. simpl. rewrite Hc. simpl. rewrite Hca. split; [done|].
    split; [done|]. split; [done|]. split; [|by rewrite Hwg'].
    intros Hu k. rewrite Hcop' by (intros k'; rewrite Hcop by done; apply Hu).
    by apply Hcop.
Qed.

Lemma merge_completes `{!RangeOrder Z} (n c : nat) s olds fresh :
  wf s → tables s = olds ++ [fresh] →
  pending olds fresh < allocated fresh * 2 ^ Z.of_nat n →
  weight olds fresh < allocated fresh * 2 ^ Z.of_nat n →
  (key_count olds ≤ c)%nat →
  completes s.
Proof.
  revert c s olds fresh. induction n as [|n IHn]; intros c; induction c as [|c IHc];
    intros s olds fresh Hwf Hs Hp Hw Hk; apply completes_step; try done; intros mmap Hmm.
  all: destruct (chunk_progress mmap s olds fresh Hwf Hs Hmm)
    as [(s1 & Hc & Hwf1 & Hl)|(s1 & olds1 & fresh1 & Hc & Hwf1 & Hs1 & Hprog)];
    [by exists s1, true|exists s1, false; do 2 (split; [done|])].
  all: rewrite ?Nat2Z.inj_succ, ?Z.pow_succ_r, ?Z.mul_assoc in * by lia.
  all: destruct Hprog as [(Hcnt & Hal & Hp1 & Hw1)|(Hfull & Hal & Hp1 & Hw1)]; try lia.
  - eapply IHc; [done|done|rewrite Hal; lia..|lia].
  - eapply IHn; [done|done|rewrite Hal; lia..|reflexivity].
  - eapply IHc; [done|done|rewrite Hal; lia..|lia].
  - eapply IHn; [done|done|rewrite Hal; lia..|reflexivity].
Qed.

(** ** Properties of the merge *)

(** C23: when no key is held by two tables, a chunk of the merge returns, keeps the
    storage well formed and changes the value of no key; when it reports that the
    merge is complete exactly one table is left. *)
Theorem chunkedMergeTables_correct `{!RangeOrder Z} mmap s :
  wf s → unique s →
  ∃ s' b, chunkedMergeTables mmap s = Return (s', b) ∧ wf s' ∧ unique s'
    ∧ contents s' = contents s ∧ (b = true → length (tables s') = 1%nat).
Proof.
  intros Hwf Hu. destruct (chunk_total mmap s Hwf) as (s' & b & Hc).
  destruct (chunk_copies _ _ _ _ Hwf Hu Hc) as (Hwf' & Hcop & Hl).
  exists s', b. split; [done|]. split; [done|]. split; [intros k; by rewrite Hcop|].
  split; [|done]. by apply contents_copies.
Qed.

(** The merge does not respect the order of the tables.  If the last table and
    an older one both hold a key, [Get] answers the newer value before the merge
    and the older, overwritten value after a merge completed in one chunk. *)
Theorem merge_restores_overwritten_value `{!RangeOrder Z} mmap s s' olds fresh k v1 v0 vs :
  wf s → tables s = olds ++ [fresh] →
  table.abs fresh !! k = Some v1 → copies_in (rev olds) k = v0 :: vs →
  chunkedMergeTables mmap s = Return (s', true) →
  Get s k = Return (Some v1, None) ∧ Get s' k = Return (Some v0, None).
Proof.
  intros Hwf Hs Hfresh Holds Hc.
  assert (olds ≠ []) as Hne by (by intros ->).
  split.
  { rewrite Get_spec, lookup_contents by done. rewrite (copies_snoc _ _ _ k Hs), Hfresh. done. }
  destruct (chunk_spec mmap s olds fresh Hwf Hs Hne) as
    (olds' & fresh' & n & e & ts' & _ & _ & Hwf' & He & Hc' & Hts).
  rewrite Hc' in Hc. injection Hc as <- Hb. destruct e; [|done..]. subst ts'.
  destruct He as [_ Hlook].
  rewrite Get_spec by (split; [done|by constructor]).
  rewrite lookup_contents. unfold copies. simpl. rewrite Hlook, Holds. done.
Qed.

(** C24: the merge goroutine terminates.  From every well-formed storage, when memory
    is granted and the context is not cancelled, [mergeTables] returns after
    finitely many chunks with a single table, leaves the wait group, clears
    [merging], and has kept the map if no key was held by two tables. *)
Theorem mergeTables_terminates `{!RangeOrder Z} mmap cancel s :
  wf s → (∀ i sz, mmap i sz = None) → (∀ i, cancel i = false) →
  ∃ fuel s', mergeTables fuel mmap cancel s = Return s' ∧ wf s'
    ∧ length (tables s') = 1%nat ∧ merging s' = 0 ∧ wg s' = (wg s - 1)%nat
    ∧ (unique s → contents s' = contents s).
Proof.
  intros Hwf Hmm Hca. destruct (tables_snoc s Hwf) as (olds & fresh & Hs).
  pose proof (proj1 (wf_snoc _ _ _ Hs) Hwf) as [_ Hfr].
  pose proof (table.wf_min _ Hfr). assert (0 < table.minimumSize) by done.
  set (b := Z.max 0 (Z.max (pending olds fresh) (weight olds fresh))).
  assert (b < allocated fresh * 2 ^ Z.of_nat (Z.to_nat b)) as Hb.
  { rewrite Z2Nat.id by lia. pose proof (Z.pow_gt_lin_r 2 b). nia. }
  destruct (merge_completes (Z.to_nat b) (key_count olds) s olds fresh Hwf Hs)
    with mmap cancel as (fuel & s' & Hrun & Hwf' & Hl & Hcop & Hwg); [lia..|done|done|].
  exists fuel, (mkStorage (tables s') 0 (wg s' - 1) (ctx_done s')).
  unfold mergeTables. rewrite Hrun. split; [done|]. split; [done|]. split; [done|].
  split; [done|]. split; [simpl; by rewrite Hwg|]. intros Hu.
  rewrite <- (contents_copies s s' (Hcop Hu)). done.
Qed.

(** ** Examples *)
Definition two_keys : Storage :=
  mkStorage [table.sample_table;
             table.append (empty_table table.minimumSize) 43 (table.entry_bytes other_value)]
    1 1 false.

Lemma two_keys_wf : wf two_keys.
Proof. apply (bool_decide_unpack _). vm_compute. exact I. Qed.

Lemma two_keys_unique : unique two_keys.
Proof.
  intros k. unfold copies, two_keys. simpl. unfold table.abs. simpl.
  rewrite !lookup_fmap. rewrite !lookup_insert, !lookup_empty.
  destruct (decide (43 = k)) as [<-|]; simpl; [lia|].
  destruct (decide (42 = k)) as [<-|]; simpl; lia.
Qed.

Lemma chunkedMergeTables_witness :
  ∃ s' b, chunkedMergeTables (fun _ => None) two_keys = Return (s', b) ∧ wf s' ∧ unique s'
    ∧ contents s' = contents two_keys ∧ (b = true → length (tables s') = 1%nat).
Proof. exact (chunkedMergeTables_correct _ two_keys two_keys_wf two_keys_unique). Defined.

Lemma merge_restores_witness :
  ∃ s', chunkedMergeTables (fun _ => None) two_tables = Return (s', true)
    ∧ Get two_tables 42 = Return (Some other_value, None)
    ∧ Get s' 42 = Return (Some table.sample_value, None).
Proof.
  eexists. split; [vm_compute; reflexivity|].
  eapply (merge_restores_overwritten_value (fun _ => None) two_tables _ [table.sample_table]
    (table.append (empty_table table.minimumSize) 42 (table.entry_bytes other_value))
    42 other_value table.sample_value []);
    [exact two_tables_wf|reflexivity|vm_compute; reflexivity|vm_compute; reflexivity
    |vm_compute; reflexivity].
Defined.

Lemma mergeTables_terminates_witness :
  ∃ fuel s', mergeTables fuel (fun _ _ => None) (fun _ => false) two_keys = Return s' ∧ wf s'
    ∧ length (tables s') = 1%nat ∧ merging s' = 0 ∧ wg s' = 0%nat
    ∧ (unique two_keys → contents s' = contents two_keys).
Proof.
  exact (mergeTables_terminates (fun _ _ => None) (fun _ => false) two_keys two_keys_wf
    (fun _ _ => eq_refl) (fun _ => eq_refl)).
Defined.

End merge.
