(* ===== verification/MergeSched.v ===== *)
(** The merge goroutine beside the operations of the storage.

    [internal/storage/storage.go] and [merge.go] run concurrently: the operations
    and the chunks of the merge exclude each other through the mutex [s.mu], the
    flag [merging] is cleared outside of it, and [Close] waits for the goroutine
    while it holds the mutex.  The file gives this protocol as a step relation. *)

From S2P Require Export Merge.

Module sched.
Import storage merge.

(** Where a merge goroutine is: at the [s.mu.Lock()] of its next chunk, in the [select]
    between two chunks, past its loop, or past the first of its two deferred calls,
    [StoreInt32(&s.merging, 0)], with [wg.Done()] still to run. *)
Inductive mphase := MLock | MSelect | MExit | MDone.

#[export] Instance mphase_eq_decision : EqDecision mphase.
Proof. solve_decision. Defined.

(** The goroutines in the order in which they were started.  [closing]: a call of [Close]
    holds the mutex and is in [wg.Wait()]. *)
Record sys := mkSys {
  str : Storage;
  mergers : list mphase;
  closing : bool
}.

Definition cancel_ctx (s : Storage) : Storage :=
  mkStorage (tables s) (merging s) (wg s) true.
Definition clear_merging (s : Storage) : Storage :=
  mkStorage (tables s) 0 (wg s) (ctx_done s).
Definition wg_Done (s : Storage) : Storage :=
  mkStorage (tables s) (merging s) (wg s - 1) (ctx_done s).

(** A goroutine is created when the operation added to the wait group. *)
Definition spawned (s s' : Storage) (ms : list mphase) : list mphase :=
  if decide (wg s' = wg s) then ms else ms ++ [MLock].

(** The operations that write run one at a time: [Put] and [PutRaw] hold [s.mu], and a node
    calls [Delete], which holds it for reading only, under the mutex of the map.  The test and
    the assignment of the flag in [Delete] are therefore one step beside the goroutines, which
    only ever clear the flag. *)
Inductive step `{!RangeOrder Z} : sys → sys → Prop :=
  | step_put s ms fuel mmap k v s' err :
      Put fuel mmap s k v = Return (s', err) →
      step (mkSys s ms false) (mkSys s' (spawned s s' ms) false)
  | step_putRaw s ms fuel mmap k raw s' err :
      PutRaw fuel mmap s k raw = Return (s', err) →
      step (mkSys s ms false) (mkSys s' (spawned s s' ms) false)
  | step_delete s ms mmap k s' err :
      Delete mmap s k = Return (s', err) →
      step (mkSys s ms false) (mkSys s' (spawned s s' ms) false)
  | step_chunk s ms1 ms2 mmap s' complete :
      chunkedMergeTables mmap s = Return (s', complete) →
      step (mkSys s (ms1 ++ MLock :: ms2) false)
        (mkSys s' (ms1 ++ (if complete : bool then MExit else MSelect) :: ms2) false)
  | step_tick s ms1 ms2 c :
      step (mkSys s (ms1 ++ MSelect :: ms2) c) (mkSys s (ms1 ++ MLock :: ms2) c)
  | step_cancelled s ms1 ms2 c :
      ctx_done s = true →
      step (mkSys s (ms1 ++ MSelect :: ms2) c) (mkSys s (ms1 ++ MExit :: ms2) c)
  | step_exit s ms1 ms2 c :
      step (mkSys s (ms1 ++ MExit :: ms2) c) (mkSys (clear_merging s) (ms1 ++ MDone :: ms2) c)
  | step_done s ms1 ms2 c :
      step (mkSys s (ms1 ++ MDone :: ms2) c) (mkSys (wg_Done s) (ms1 ++ ms2) c)
  | step_close s ms :
      ctx_done s = false →
      step (mkSys s ms false) (mkSys (cancel_ctx s) ms true)
  | step_closed s ms munmap s' err :
      ctx_done s = true → wg s = 0%nat →
      Close munmap (mkStorage (tables s) (merging s) (wg s) false) = Return (s', err) →
      step (mkSys s ms true) (mkSys s' ms false).

(** The goroutines that have not cleared the flag. *)
Definition merges (m : mphase) : bool := match m with MDone => false | _ => true end.
Definition active (ms : list mphase) : nat := length (List.filter merges ms).

Lemma active_app ms1 ms2 : active (ms1 ++ ms2) = (active ms1 + active ms2)%nat.
Proof. unfold active. by rewrite List.filter_app, length_app. Qed.
Lemma active_cons m ms : active (m :: ms) = ((if merges m then 1 else 0) + active ms)%nat.
Proof. unfold active. simpl. by destruct (merges m). Qed.

(** The flag counts the goroutines that merge, the wait group all of them. *)
Definition inv (y : sys) : Prop :=
  (merging (str y) = 0 ∨ merging (str y) = 1)
  ∧ merging (str y) = Z.of_nat (active (mergers y)) ∧ wg (str y) = length (mergers y).

Definition initial (s : Storage) : sys := mkSys s [] false.

(** ** What the operations do to the flag and to the wait group *)
Definition flags_step (s s' : Storage) : Prop :=
  merging s' = merging s ∧ wg s' = wg s
  ∨ merging s ≠ 1 ∧ merging s' = 1 ∧ wg s' = S (wg s).

Lemma put_loop_flags op fuel mmap s s' err :
  (merging s = 0 ∨ merging s = 1) →
  put_loop op fuel mmap s = Return (s', err) → flags_step s s'.
Proof.
  revert mmap s. induction fuel as [|fuel IH]; intros mmap s Hm Hrun; [done|].
  simpl in Hrun. destruct (last (tables s)) as [t|]; [|done].
  destruct (op t) as [r| |]; [|done..]. simpl in Hrun.
  case_decide; [|simplify_eq; by left].
  destruct (table.newTable _ _) as [e|nt]; [simplify_eq; by left|].
  destruct (Z.eqb_spec (merging s) 0) as [H0|H0]; apply IH in Hrun; simpl in *; try lia.
  - unfold flags_step in *. simpl in *. right.
    destruct Hrun as [[-> ->]|(? & ? & ?)]; [|done]. split; [lia|done].
  - done.
Qed.

Lemma Put_flags fuel mmap s k v s' err :
  (merging s = 0 ∨ merging s = 1) → Put fuel mmap s k v = Return (s', err) → flags_step s s'.
Proof. intros Hm. unfold Put. case_decide; [done|]. by apply put_loop_flags. Qed.

Lemma PutRaw_flags fuel mmap s k v s' err :
  (merging s = 0 ∨ merging s = 1) → PutRaw fuel mmap s k v = Return (s', err) → flags_step s s'.
Proof. intros Hm. unfold PutRaw. case_decide; [done|]. by apply put_loop_flags. Qed.

Lemma Delete_flags mmap s k s' err :
  Delete mmap s k = Return (s', err) → flags_step s s'.
Proof.
  unfold Delete. case_decide; [done|]. destruct (delete_scan _ _) as [ts| |]; [|done..].
  simpl. destruct (rev ts) as [|t [|]]; simpl; [intros; simplify_eq; by left| |
    intros; simplify_eq; by left].
  destruct (garbage_ratio_reached _ _); [|intros; simplify_eq; by left].
  destruct (Z.eqb_spec (merging s) 1); [intros; simplify_eq; by left|].
  destruct (table.newTable _ _); intros; simplify_eq; [by left|by right].
Qed.

Lemma inv_flags s s' ms :
  inv (mkSys s ms false) → flags_step s s' → inv (mkSys s' (spawned s s' ms) false).
Proof.
  unfold inv, spawned. simpl. intros (H01 & Ha & Hw) [[Hm Hw']|(Hm & Hm' & Hw')].
  - rewrite decide_True by done. by rewrite Hm, Hw'.
  - rewrite decide_False by lia. rewrite active_app, length_app, Hm', Hw', Hw. simpl.
    split; [by right|]. unfold active at 2. simpl. lia.
Qed.

(** A goroutine moves on without clearing the flag. *)
Lemma inv_moves s s' ms1 ms2 m m' c c' :
  inv (mkSys s (ms1 ++ m :: ms2) c) → merges m = true → merges m' = true →
  merging s' = merging s → wg s' = wg s → inv (mkSys s' (ms1 ++ m' :: ms2) c').
Proof.
  unfold inv. simpl. intros (H01 & Ha & Hw) Hm Hm' -> ->. rewrite !active_app, !active_cons in *.
  rewrite Hm in Ha. rewrite Hm'. rewrite length_app in *. simpl in *. done.
Qed.

Lemma step_inv `{!RangeOrder Z} y y' : step y y' → inv y → inv y'.
Proof.
  destruct 1 as [s ms fuel mmap k v s' err Hop|s ms fuel mmap k raw s' err Hop
    |s ms mmap k s' err Hop|s ms1 ms2 mmap s' b Hop|s ms1 ms2 c|s ms1 ms2 c _|s ms1 ms2 c|s ms1 ms2 c
    |s ms _|s ms munmap s' err _ Hw Hop]; intros Hinv.
  - eapply inv_flags; [done|]. eapply Put_flags; [apply Hinv|done].
  - eapply inv_flags; [done|]. eapply PutRaw_flags; [apply Hinv|done].
  - eapply inv_flags; [done|]. by eapply Delete_flags.
  - apply chunk_flags in Hop as [Hm Hwg]. eapply inv_moves; [done|done|by destruct b|done..].
  - by eapply inv_moves.
  - by eapply inv_moves.
  - destruct Hinv as (H01 & Ha & Hw). unfold inv. simpl in *. rewrite active_app, active_cons in *.
    rewrite length_app in *. simpl in *. split; [by left|]. split; [lia|done].
  - destruct Hinv as (H01 & Ha & Hw). unfold inv. simpl in *. rewrite !active_app, active_cons in *.
    rewrite !length_app in *. simpl in *. split; [done|]. split; [lia|]. rewrite Hw. lia.
  - done.
  - unfold inv in *. simpl in *. unfold Close in Hop. simpl in Hop. rewrite Hw in Hop.
    destruct (close_tables munmap (tables s)); simplify_eq/=; by rewrite Hw in *.
Qed.

(** ** Properties *)

(** C25: at most one goroutine merges. In every state that the operations of a storage,
    run one at a time (a node calls [Delete] under the mutex of the map, the others hold
    the one of the storage), [Close] and the goroutines they start can reach, the flag
    [merging] is 1 when a goroutine has not yet left its merge and 0 otherwise, there is
    never more than one such goroutine, and the wait group counts it and the ones that
    have cleared the flag but not yet called [wg.Done]. *)
Theorem one_merge_goroutine `{!RangeOrder Z} s y :
  merging s = 0 → wg s = 0%nat → rtc step (initial s) y →
  (active (mergers y) ≤ 1)%nat
  ∧ merging (str y) = (if decide (active (mergers y) = 0%nat) then 0 else 1)
  ∧ wg (str y) = length (mergers y).
Proof.
  intros Hm Hw Hr. assert (inv y) as (H01 & Ha & Hwg).
  { assert (inv (initial s)) as H0 by (split; [by left|done]).
    clear Hm Hw. induction Hr as [|y1 y2 y3 Hs _ IH]; [done|]. eauto using step_inv. }
  split; [lia|]. split; [|done]. case_decide; lia.
Qed.

(** Two goroutines can be there at once: the flag is cleared before the wait group is left, and
    a [Put] in between starts the next one. *)
Theorem merge_starts_before_the_last_has_left `{!RangeOrder Z} fuel mmap s k v s' err :
  inv (mkSys s [MExit] false) → Put fuel mmap (clear_merging s) k v = Return (s', err) →
  wg s' ≠ wg s → rtc step (mkSys s [MExit] false) (mkSys s' [MDone; MLock] false).
Proof.
  intros Hinv Hput Hw. eapply rtc_l; [apply (step_exit s [] [] false)|]. apply rtc_once.
  replace [MDone; MLock] with (spawned (clear_merging s) s' [MDone]); [by eapply step_put|].
  unfold spawned. by rewrite decide_False.
Qed.

(** [Close] can deadlock.  When the merge goroutine is about to lock the mutex
    (it is right after it has been started), a [Close] that gets the mutex first
    reaches a state in which nothing can ever happen: [Close] waits for the
    goroutine and the goroutine waits for the mutex. *)
Theorem Close_deadlocks `{!RangeOrder Z} s :
  ctx_done s = false → wg s = 1%nat →
  ∃ y, step (mkSys s [MLock] false) y ∧ closing y = true ∧ ∀ y', ¬ step y y'.
Proof.
  intros Hd Hw. exists (mkSys (cancel_ctx s) [MLock] true).
  split; [by constructor|]. split; [done|]. intros y' Hs.
  inversion Hs as [| | | |? ms1 ? ? E|? ms1 ? ? ? E|? ms1 ? ? E|? ms1 ? ? E| |]; subst;
    try (destruct ms1 as [|? [|]]; simplify_eq). simpl in *. congruence.
Qed.

(** A table added between the last chunk of a merge and the moment its
    goroutine clears [merging] is never merged by it: when the goroutine has left, the
    storage has two tables, no goroutine is running and [Export] answers
    ErrFragmented. *)
Theorem growth_during_exit_is_not_merged `{!RangeOrder Z} `{Codec transport}
    fuel mmap s t k v s' err :
  inv (mkSys s [MExit] false) → tables s = [t] →
  Put fuel mmap s k v = Return (s', err) → length (tables s') = 2%nat →
  ∃ y, rtc step (mkSys s [MExit] false) y ∧ mergers y = [] ∧ merging (str y) = 0
    ∧ Export (str y) = Return (inl ErrFragmented).
Proof.
  intros (H01 & Hm & Hw) Ht Hput Hl. unfold active in Hm. simpl in *.
  exists (mkSys (wg_Done (clear_merging s')) [] false).
  assert (flags_step s s') as Hf by (eapply Put_flags; [by right|done]).
  assert (spawned s s' [MExit] = [MExit]) as Hsp.
  { unfold spawned. destruct Hf as [[_ ->]|(? & _)]; [by rewrite decide_True|done]. }
  split.
  - eapply rtc_l; [by eapply step_put|]. rewrite Hsp.
    eapply rtc_l; [apply (step_exit s' [] [] false)|].
    apply rtc_once. apply (step_done _ [] [] false).
  - split; [done|]. split; [done|]. unfold Export. simpl.
    by destruct (tables s') as [|? [|? [|]]].
Qed.

(** ** Examples *)
Lemma Close_deadlocks_witness :
  ∃ y, step (mkSys two_tables [MLock] false) y ∧ closing y = true ∧ ∀ y', ¬ step y y'.
Proof. exact (Close_deadlocks two_tables eq_refl eq_refl). Defined.

(** A table with little room left, while a finished merge has not left yet. *)
Definition nearly_full : table :=
  table.mkTable ∅ (Mem table.minimumSize ∅) (table.minimumSize - 10) table.minimumSize
    0 (table.minimumSize - 10).
Definition idle : Storage := mkStorage [nearly_full] 0 0 false.

Definition idle_grown : Storage :=
  match Put 2 (fun _ _ => None) idle 7 other_value with
  | Return (s, _) => s
  | _ => idle
  end.

Lemma one_merge_goroutine_witness :
  rtc step (initial idle) (mkSys idle_grown [MLock] false)
  ∧ merging idle_grown = 1 ∧ wg idle_grown = 1%nat.
Proof.
  assert (rtc step (initial idle) (mkSys idle_grown [MLock] false)) as Hr.
  { apply rtc_once.
    assert ([MLock] = spawned idle idle_grown []) as -> by (vm_compute; reflexivity).
    apply (step_put idle [] 2 (fun _ _ => None) 7 other_value idle_grown None).
    vm_compute. reflexivity. }
  split; [exact Hr|].
  destruct (one_merge_goroutine idle (mkSys idle_grown [MLock] false) eq_refl eq_refl Hr) as (_ & Hm & Hw).
  split; [exact Hm|exact Hw].
Defined.

Definition exiting : Storage := mkStorage [nearly_full] 1 1 false.

Lemma growth_during_exit_witness :
  ∃ y, rtc step (mkSys exiting [MExit] false) y ∧ mergers y = [] ∧ merging (str y) = 0
    ∧ @Export (countable_codec transport) (str y) = Return (inl ErrFragmented).
Proof.
  eapply (@growth_during_exit_is_not_merged _ (countable_codec transport)
            2 (fun _ _ => None) exiting nearly_full 7 other_value);
    [split; [by right|split; reflexivity]|reflexivity|vm_compute; reflexivity|reflexivity].
Defined.

End sched.
