(* ===== verification/StorageTypes.v ===== *)
(** Type safety of the storage: programs of storage operations keep the well-formedness of
    the tables and never panic, whatever the kernel answers to requests for memory. *)

From S2P Require Export Merge.

Module stypes.
Import storage merge.

(** The operations that take the mutex, a chunk of the merge goroutine included. *)
Inductive sop :=
  | SPut (hkey : Z) (value : VData)
  | SPutRaw (hkey : Z) (value : list byte)
  | SGet (hkey : Z)
  | SGetRaw (hkey : Z)
  | SCheck (hkey : Z)
  | SDelete (hkey : Z)
  | SMerge.

Section programs.
Context `{!RangeOrder Z} (fuel : nat).

(** [mmap] answers the requests for memory of one operation. *)
Definition run_op (mmap : nat → Z → option Z) (s : Storage) (op : sop) : comp Storage :=
  match op with
  | SPut k v => r ← Put fuel mmap s k v; Return r.1
  | SPutRaw k raw => r ← PutRaw fuel mmap s k raw; Return r.1
  | SGet k => _ ← Get s k; Return s
  | SGetRaw k => _ ← GetRaw s k; Return s
  | SCheck k => _ ← Check s k; Return s
  | SDelete k => r ← Delete mmap s k; Return r.1
  | SMerge => r ← chunkedMergeTables (mmap 0%nat) s; Return r.1
  end.

Fixpoint run_ops (mmap : nat → nat → Z → option Z) (s : Storage) (ops : list sop) : comp Storage :=
  match ops with
  | [] => Return s
  | op :: ops => s ← run_op (mmap 0%nat) s op; run_ops (fun i => mmap (S i)) s ops
  end.

(** The arguments have the Go types of the parameters: the TTL is an int64 and the length
    of the value a uint32; raw bytes hold an entry. *)
Definition well_typed (op : sop) : Prop :=
  match op with
  | SPut _ v => in_int64 (vd_TTL v) ∧ len (vd_Value v) < 2 ^ 32
  | SPutRaw _ raw => table.raw_ok raw
  | _ => True
  end.

(** The entry fits into a table of the smallest size. *)
Definition modest (op : sop) : Prop :=
  match op with
  | SPut _ v => table.entry_size v < table.minimumSize
  | SPutRaw _ raw => len raw < table.minimumSize
  | _ => True
  end.

#[export] Instance well_typed_dec op : Decision (well_typed op).
Proof. destruct op; simpl; unfold in_int64, table.raw_ok; apply _. Defined.
#[export] Instance modest_dec op : Decision (modest op).
Proof. destruct op; simpl; apply _. Defined.

(** A computation that does not panic and, if [P], returns; what it returns is well
    formed. *)
Definition safe (P : Prop) (c : comp Storage) : Prop :=
  match c with
  | Return s => wf s
  | Panic => False
  | Running => ¬ P
  end.

(** An operation on a table that keeps it well formed; with [small], a table of the
    smallest size or more that is still empty has room. *)
Definition table_safe (op : table → comp (table * option serror)) (small : Prop) : Prop :=
  ∀ t, table.wf t → ∃ t' err, op t = Return (t', err) ∧ table.wf t'
    ∧ (small → offset t = 0 → err ≠ Some errNotEnoughSpace).

Lemma put_table_safe k v small :
  in_int64 (vd_TTL v) → len (vd_Value v) < 2 ^ 32 →
  (small → table.entry_size v < table.minimumSize) →
  table_safe (fun t => table.put t k v) small.
Proof.
  intros Httl Hlen Hsm t Ht.
  destruct (Z.leb_spec table.maxKeyLen (len (vd_Key v))) as [Hk|Hk].
  { exists t, (Some ErrKeyTooLarge). unfold table.put. by rewrite (proj2 (Z.leb_le _ _) Hk). }
  destruct (Z.leb_spec (allocated t) (table.entry_size v + offset t)) as [Hf|Hf].
  - exists t, (Some errNotEnoughSpace). rewrite table_put_full by done. split; [done|].
    split; [done|]. intros E Ho. specialize (Hsm E). pose proof (table.wf_min _ Ht). lia.
  - destruct (table_put_fits t k v) as (t' & Hput & Hwf & _); [done|by split|done|].
    by exists t', None.
Qed.

Lemma putRaw_table_safe k raw small :
  table.raw_ok raw → (small → len raw < table.minimumSize) →
  table_safe (fun t => table.putRaw t k raw) small.
Proof.
  intros Hraw Hsm t Ht. destruct (Z.leb_spec (allocated t) (len raw + offset t)) as [Hf|Hf].
  - exists t, (Some errNotEnoughSpace). unfold table.putRaw. rewrite (proj2 (Z.leb_le _ _) Hf).
    split; [done|]. split; [done|]. intros E Ho. specialize (Hsm E).
    pose proof (table.wf_min _ Ht). lia.
  - destruct (table_putRaw_fits t k raw Ht Hraw Hf) as (t' & Hput & Hwf & _). by exists t', None.
Qed.

(** The loop of [Put]: two rounds are enough for a small entry, the second one finds an
    empty table. *)
Lemma put_loop_safe op small f : ∀ mmap s,
  table_safe op small → wf s →
  safe (small ∧ ((1 < f)%nat ∨ f = 1%nat ∧ offset <$> last (tables s) = Some 0))
    (r ← put_loop op f mmap s; Return r.1).
Proof.
  induction f as [|f IH]; intros mmap s Hop Hwf; [intros [_ [?|[? _]]]; lia|].
  destruct (tables_snoc s Hwf) as (ts & t & Hs).
  pose proof (proj1 (wf_snoc _ _ _ Hs) Hwf) as [Hts Ht].
  destruct (Hop t Ht) as (t' & err & Ht1 & Ht' & Hroom).
  cbn [put_loop]. rewrite Hs, last_snoc, Ht1. cbn [mbind comp_bind fst snd]. rewrite take_init.
  assert (wf (set_tables (ts ++ [t']) s)) as Hwf' by by eapply wf_snoc.
  destruct (decide (err = Some errNotEnoughSpace)) as [Hfull|]; [|exact Hwf'].
  destruct (table.newTable _ _) as [e|nt] eqn:Hnt; [exact Hwf'|].
  set (s1 := if merging _ =? 0 then _ else _).
  assert (tables s1 = (ts ++ [t']) ++ [nt]) as Hs1 by (unfold s1; by case_match).
  assert (wf s1) as Hwf1.
  { eapply wf_snoc; [exact Hs1|]. split; [by apply Forall_app; auto|by eapply newTable_wf]. }
  specialize (IH (fun i => mmap (S i)) s1 Hop Hwf1). rewrite Hs1, last_snoc in IH.
  apply newTable_inv in Hnt as ->.
  unfold safe in *. case_match; try done. intros [Hsm Hf]. apply IH. split; [done|].
  destruct Hf as [Hf|[Hf Ho]].
  - destruct (decide (f = 1%nat)) as [->|]; [by right|left; lia].
  - simplify_eq/=. by destruct (Hroom Hsm Ho).
Qed.

Lemma chunk_safe mmap s : wf s → ∃ s' b, chunkedMergeTables mmap s = Return (s', b) ∧ wf s'.
Proof.
  intros Hwf. destruct (tables_snoc s Hwf) as (olds & fresh & Hs).
  destruct (decide (olds = [])) as [->|Hne].
  { exists s, true. split; [by apply (chunk_single mmap s fresh)|done]. }
  destruct (chunk_spec mmap s olds fresh Hwf Hs Hne) as
    (olds' & fresh' & n & e & ts' & _ & Hwo & Hwf' & _ & -> & Hts).
  eexists _, _. split; [done|]. pose proof (table.wf_min _ Hwf').
  assert (wf (set_tables (olds' ++ [fresh']) s)) as Hmid by by eapply wf_snoc.
  destruct e; subst; [by split; [|constructor]| |done].
  destruct Hts as [[_ ->]| ->]; [done|]. eapply wf_snoc; [done|].
  split; [by apply Forall_app; auto|]. apply wf_empty_table. assert (0 < table.minimumSize) by done. lia.
Qed.

Lemma GetRaw_total s k : wf s → ∃ r, GetRaw s k = Return r.
Proof.
  intros [Hne Hts]. unfold GetRaw. rewrite decide_False by done. apply Forall_rev in Hts.
  destruct (copies s k) as [|v vs] eqn:Hc.
  - eexists. by apply getRaw_scan_missing.
  - destruct (getRaw_scan_spec (rev (tables s)) k v) as (raw & -> & _); [done| |by eexists].
    unfold copies in Hc. by rewrite Hc.
Qed.

Lemma run_op_safe mmap s op :
  wf s → well_typed op → safe (modest op ∧ (1 < fuel)%nat) (run_op mmap s op).
Proof.
  intros Hwf Ht.
  assert (∀ opn, table_safe opn (modest op) →
    safe (modest op ∧ (1 < fuel)%nat)
      (r ← put_loop opn fuel mmap s; Return r.1)) as Hloop.
  { intros opn Hopn. pose proof (put_loop_safe opn _ fuel mmap s Hopn Hwf) as Hs.
    unfold safe in *. case_match; try done. intros [? ?]. apply Hs. by split; [|left]. }
  pose proof (Get_spec s) as Hget. pose proof Hwf as [Hne _].
  destruct op as [k v|k raw|k|k|k|k|]; cbn [run_op].
  - unfold Put. rewrite decide_False by done. by apply Hloop, put_table_safe; [apply Ht..|].
  - unfold PutRaw. rewrite decide_False by done. by apply Hloop, putRaw_table_safe.
  - by rewrite Hget.
  - destruct (GetRaw_total s k Hwf) as [r ->]. done.
  - unfold Check. by rewrite decide_False.
  - destruct (Delete_spec mmap s k Hwf) as (s' & err & -> & Hwf' & _). done.
  - destruct (chunk_safe (mmap 0%nat) s Hwf) as (s' & b & -> & Hwf'). done.
Qed.

(** C18: type safety of the storage. A program of puts, raw puts, reads, deletes and merge
    chunks on a storage fresh from [New], with times and lengths in the range of their Go
    types and with raw entries that are complete ([raw_ok]: the lengths they hold are
    those of their fields), never panics and keeps the invariant of every table, whether
    the kernel grants memory or not; and it returns if every entry is smaller than the
    smallest table. *)
Theorem storage_type_safe mmap0 size mmap ops s0 :
  New mmap0 size = inr s0 → Forall well_typed ops →
  run_ops mmap s0 ops ≠ Panic
  ∧ (∀ s, run_ops mmap s0 ops = Return s → wf s)
  ∧ (Forall modest ops → (1 < fuel)%nat → ∃ s, run_ops mmap s0 ops = Return s).
Proof.
  intros Hnew. assert (wf s0) as Hwf.
  { unfold New in Hnew. case_match eqn:Hn; simplify_eq. split; [done|]. constructor; [|done].
    by eapply newTable_wf. }
  clear Hnew. revert mmap s0 Hwf. induction ops as [|op ops IH]; intros mmap s0 Hwf Hty.
  { split; [done|]. split; [by intros s [= <-]|]. by exists s0. }
  apply Forall_cons in Hty as [Hop Hty].
  pose proof (run_op_safe (mmap 0%nat) s0 op Hwf Hop) as Hsafe. cbn [run_ops].
  destruct (run_op (mmap 0%nat) s0 op) as [s1| |]; cbn [mbind comp_bind]; [|done|].
  - destruct (IH (fun i => mmap (S i)) s1 Hsafe Hty) as (H1 & H2 & H3). split; [done|].
    split; [done|]. intros [_ ?]%Forall_cons ?. by apply H3.
  - split; [done|]. split; [done|]. intros [Hm _]%Forall_cons Hf. by destruct Hsafe.
Qed.
End programs.

(** A program that puts, overwrites, deletes and merges. *)
Lemma storage_type_safe_witness :
  ∃ s0 s, New (fun _ => None) 0 = inr s0
    ∧ run_ops 2 (fun _ _ _ => None) s0
        [SPut 7 other_value; SPutRaw 8 (table.entry_bytes other_value); SPut 7 table.sample_value;
         SDelete 8; SCheck 7; SMerge; SGet 8] = Return s.
Proof.
  destruct (New (fun _ => None) 0) as [|s0] eqn:Hnew; [discriminate Hnew|].
  destruct (storage_type_safe 2 (fun _ => None) 0 (fun _ _ _ => None)
    [SPut 7 other_value; SPutRaw 8 (table.entry_bytes other_value); SPut 7 table.sample_value;
     SDelete 8; SCheck 7; SMerge; SGet 8] s0 Hnew) as (_ & _ & H).
  - apply (bool_decide_unpack _). vm_compute. exact I.
  - destruct H as [s Hs]; [apply (bool_decide_unpack _); vm_compute; exact I|lia|].
    exists s0, s. by split.
Defined.
End stypes.
