(* ===== verification/Protocol.v ===== *)
(** The Olric binary protocol: [internal/protocol/protocol.go].

    Messages, their encoding by [Write] and their decoding by [Read] from a byte
    stream.  A connection is the list of the bytes that can still be read and the
    error reported once they are exhausted. *)

From Stdlib Require Import Strings.String.
From S2P Require Export Bytes.

Module protocol.

(** ** Data *)
Definition MagicReq : Z := 0xE2.
Definition MagicRes : Z := 0xE3.

Definition OpExPut : Z := 0.
Definition OpExPutEx : Z := 1.
Definition OpExGet : Z := 2.
Definition OpExDelete : Z := 3.
Definition OpExDestroy : Z := 4.
Definition OpExLockWithTimeout : Z := 5.
Definition OpExUnlock : Z := 6.
Definition OpExIncr : Z := 7.
Definition OpExDecr : Z := 8.
Definition OpExGetPut : Z := 9.
Definition OpUpdateRouting : Z := 10.
Definition OpPutBackup : Z := 11.
Definition OpDeletePrev : Z := 12.
Definition OpGetPrev : Z := 13.
Definition OpGetBackup : Z := 14.
Definition OpFindLock : Z := 15.
Definition OpLockPrev : Z := 16.
Definition OpUnlockPrev : Z := 17.
Definition OpDeleteBackup : Z := 18.
Definition OpDestroyDMap : Z := 19.
Definition OpMoveDMap : Z := 20.
Definition OpBackupMoveDMap : Z := 21.
Definition OpIsPartEmpty : Z := 22.
Definition OpIsBackupEmpty : Z := 23.

Definition StatusOK : Z := 0.
Definition StatusInternalServerError : Z := 1.
Definition StatusKeyNotFound : Z := 2.
Definition StatusNoSuchLock : Z := 3.
Definition StatusPartNotEmpty : Z := 4.
Definition StatusBackupNotEmpty : Z := 5.

Definition headerSize : Z := 12.

Record Header := mkHeader {
  Magic : Z;
  Op : Z;
  DMapLen : Z;
  KeyLen : Z;
  ExtraLen : Z;
  Status : Z;
  BodyLen : Z
}.

Inductive extra :=
  | LockWithTimeoutExtra (TTL : Z)
  | PutExExtra (TTL : Z)
  | IsPartEmptyExtra (PartID : Z).

Record Message := mkMessage {
  Hdr : Header;
  Extra : option extra;
  DMap : list byte;
  Key : list byte;
  Value : list byte
}.

Definition zero_header : Header := mkHeader 0 0 0 0 0 0 0.
Definition zero_message : Message := mkMessage zero_header None [] [] [].

(** The errors of [Read] and [Write]; [IOErr] is any other error of the connection,
    known by its message. *)
Inductive perror :=
  | IOEOF
  | ErrUnexpectedEOF
  | IOErr (msg : list byte)
  | ErrConnClosed
  | ErrInvalidMessage
  | ErrValueTooBig.

#[export] Instance extra_eq_decision : EqDecision extra.
Proof. solve_decision. Defined.
#[export] Instance header_eq_decision : EqDecision Header.
Proof. solve_decision. Defined.
#[export] Instance message_eq_decision : EqDecision Message.
Proof. solve_decision. Defined.
#[export] Instance perror_eq_decision : EqDecision perror.
Proof. solve_decision. Defined.

(** [strings.Contains(s, sub)] *)
Fixpoint contains (s sub : list byte) : bool :=
  bool_decide (sub `prefix_of` s)
  || match s with [] => false | _ :: s => contains s sub end.

Definition closed_msg : list byte :=
  list_byte_of_string "use of closed network connection".

Definition filterNetworkErrors (err : perror) : perror :=
  match err with
  | IOErr msg => if contains msg closed_msg then ErrConnClosed else err
  | _ => err
  end.

(** ** Reading *)

(** [io.CopyN(buf, conn, n)]: the bytes copied, what remains of the connection, and
    the error [e] of the connection if it ended before [n] bytes. *)
Definition copyN (n : Z) (conn : list byte) (e : perror) : list byte * list byte * option perror :=
  if n <=? len conn then (take (Z.to_nat n) conn, drop (Z.to_nat n) conn, None)
  else (conn, [], Some e).

(** [buf.Next(n)] *)
Definition next (n : Z) (buf : list byte) : list byte * list byte :=
  (take (Z.to_nat n) buf, drop (Z.to_nat n) buf).

(** [binary.Read(buf, binary.BigEndian, &header)] of the 12 bytes of a header. *)
Definition decode_header (h : list byte) : Header :=
  let f (a n : nat) := be_decode (take n (drop a h)) in
  mkHeader (f 0 1)%nat (f 1 1)%nat (f 2 2)%nat (f 4 2)%nat (f 6 1)%nat (f 7 1)%nat
    (f 8 4)%nat.

(** [binary.Read(bytes.NewReader(raw), binary.BigEndian, &p)] into a struct of one
    64-bit field: the bits read and the error. *)
Definition read_u64 (raw : list byte) : Z * option perror :=
  if decide (raw = []) then (0, Some IOEOF)
  else if len raw <? 8 then (0, Some ErrUnexpectedEOF)
  else (be_decode (take 8 raw), None).

(** The block that decodes the extras, by the operation of the request. *)
Definition read_extra (op : Z) (raw : list byte) (old : option extra)
    : option extra * option perror :=
  let '(bits, err) := read_u64 raw in
  if op =? OpExPutEx then (Some (PutExExtra (to_signed 64 bits)), err)
  else if (op =? OpExLockWithTimeout) || (op =? OpLockPrev) then
    (Some (LockWithTimeoutExtra (to_signed 64 bits)), err)
  else if (op =? OpIsPartEmpty) || (op =? OpIsBackupEmpty) then
    (Some (IsPartEmptyExtra bits), err)
  else (old, None).

(** [make([]byte, n)] *)
Definition make_bytes (n : Z) : comp (list byte) :=
  checked (0 <=? n) (Return (replicate (Z.to_nat n) x00)).

(** [Read] into the message [m]: the message, the error, and the unread part of the
    connection. *)
Definition Read (MaxValueSize : Z) (m : Message) (conn : list byte) (e : perror)
    : comp (Message * option perror * list byte) :=
  let '(hbuf, conn, err) := copyN headerSize conn e in
  match err with
  | Some err => Return (m, Some (filterNetworkErrors err), conn)
  | None =>
      let h := decode_header hbuf in
      let m := mkMessage h (Extra m) (DMap m) (Key m) (Value m) in
      if negb (Magic h =? MagicReq) && negb (Magic h =? MagicRes) then
        Return (m, Some ErrInvalidMessage, conn) else
      let vlen := BodyLen h - ExtraLen h - KeyLen h - DMapLen h in
      if MaxValueSize <? vlen then Return (m, Some ErrValueTooBig, conn) else
      let '(buf, conn, err) := copyN (BodyLen h) conn e in
      match err with
      | Some err => Return (m, Some (filterNetworkErrors err), conn)
      | None =>
          let '(x, err, buf) :=
            if (Magic h =? MagicReq) && (0 <? ExtraLen h) then
              let '(raw, buf) := next (ExtraLen h) buf in
              let '(x, err) := read_extra (Op h) raw (Extra m) in (x, err, buf)
            else (Extra m, None, buf) in
          match err with
          | Some err => Return (mkMessage h x (DMap m) (Key m) (Value m), Some err, conn)
          | None =>
              let '(dmap, buf) := next (DMapLen h) buf in
              let '(key, buf) := next (KeyLen h) buf in
              if vlen =? 0 then Return (mkMessage h x dmap key (Value m), None, conn)
              else
                dst ← make_bytes vlen;
                let '(src, _) := next vlen buf in
                Return (mkMessage h x dmap key (go_copy dst src), None, conn)
          end
      end
  end.

(** ** Writing *)

(** [binary.Size] of the extras is 8: each is a struct of one 64-bit field. *)
Definition extra_bytes (x : extra) : list byte :=
  match x with
  | LockWithTimeoutExtra ttl => be_encode 8 (to_unsigned 64 ttl)
  | PutExExtra ttl => be_encode 8 (to_unsigned 64 ttl)
  | IsPartEmptyExtra id => be_encode 8 id
  end.

Definition encode_header (h : Header) : list byte :=
  be_encode 1 (Magic h) ++ be_encode 1 (Op h) ++ be_encode 2 (DMapLen h)
  ++ be_encode 2 (KeyLen h) ++ be_encode 1 (ExtraLen h) ++ be_encode 1 (Status h)
  ++ be_encode 4 (BodyLen h).

(** The header [Write] computes before it encodes the message. *)
Definition write_header (m : Message) : Header :=
  let h := Hdr m in
  let xlen := match Extra m with
              | Some x => to_unsigned 8 (len (extra_bytes x))
              | None => ExtraLen h
              end in
  mkHeader (Magic h) (Op h) (to_unsigned 16 (len (DMap m))) (to_unsigned 16 (len (Key m)))
    xlen (Status h)
    (to_unsigned 32 (len (DMap m) + len (Key m) + len (Value m) + xlen)).

(** [Write]: the message with its header updated, the bytes handed to the connection,
    and the error of the connection, if any. *)
Definition Write (m : Message) (werr : option perror)
    : Message * list byte * option perror :=
  let h := write_header m in
  let m := mkMessage h (Extra m) (DMap m) (Key m) (Value m) in
  let buf := encode_header h
             ++ from_option extra_bytes [] (Extra m)
             ++ DMap m ++ Key m ++ Value m in
  (m, buf, filterNetworkErrors <$> werr).

(** ** Responses *)
Definition Error (m : Message) (status : Z) (text : list byte) : Message :=
  mkMessage (mkHeader MagicRes (Op (Hdr m)) 0 0 0 status 0) None [] [] text.

Definition Success (m : Message) : Message :=
  mkMessage (mkHeader MagicRes (Op (Hdr m)) 0 0 0 StatusOK 0) None [] [] [].

(** ** Headers *)
Definition header_ok (h : Header) : Prop :=
  (0 ≤ Magic h < 2 ^ 8 ∧ 0 ≤ Op h < 2 ^ 8) ∧ 0 ≤ DMapLen h < 2 ^ 16 ∧ 0 ≤ KeyLen h < 2 ^ 16
  ∧ 0 ≤ ExtraLen h < 2 ^ 8 ∧ 0 ≤ Status h < 2 ^ 8 ∧ 0 ≤ BodyLen h < 2 ^ 32.

Lemma length_encode_header h : length (encode_header h) = 12%nat.
Proof. reflexivity. Qed.

Lemma decode_encode_header h : header_ok h → decode_header (encode_header h) = h.
Proof.
  intros (H1 & H2 & H3 & H4 & H5 & H6). destruct h as [mg op dl kl xl st bl]. simpl in *.
  unfold decode_header.
  change (mkHeader (be_decode (be_encode 1 mg)) (be_decode (be_encode 1 op))
    (be_decode (be_encode 2 dl)) (be_decode (be_encode 2 kl)) (be_decode (be_encode 1 xl))
    (be_decode (be_encode 1 st)) (be_decode (be_encode 4 bl)) = mkHeader mg op dl kl xl st bl).
  rewrite !be_decode_encode.
  change (256 ^ Z.of_nat 1) with (2 ^ 8). change (256 ^ Z.of_nat 2) with (2 ^ 16).
  change (256 ^ Z.of_nat 4) with (2 ^ 32).
  rewrite !Z.mod_small by lia. done.
Qed.

Lemma copyN_app n (l rest : list byte) e :
  n = len l → copyN n (l ++ rest) e = (l, rest, None).
Proof.
  intros ->. unfold copyN. rewrite len_app. pose proof (len_nonneg rest).
  destruct (Z.leb_spec (len l) (len l + len rest)); [|lia].
  unfold len. by rewrite Nat2Z.id, take_app_length, drop_app_length.
Qed.

Lemma copyN_short n (l : list byte) e : len l < n → copyN n l e = (l, [], Some e).
Proof. intros. unfold copyN. destruct (Z.leb_spec n (len l)); [lia|done]. Qed.

Lemma next_app n (l rest : list byte) : n = len l → next n (l ++ rest) = (l, rest).
Proof.
  intros ->. unfold next, len. by rewrite Nat2Z.id, take_app_length, drop_app_length.
Qed.

(** [Read] after the header of the message has been decoded. *)
Definition read_body (MaxValueSize : Z) (m : Message) (h : Header) (conn : list byte)
    (e : perror) : comp (Message * option perror * list byte) :=
  let m := mkMessage h (Extra m) (DMap m) (Key m) (Value m) in
  let vlen := BodyLen h - ExtraLen h - KeyLen h - DMapLen h in
  if MaxValueSize <? vlen then Return (m, Some ErrValueTooBig, conn) else
  let '(buf, conn, err) := copyN (BodyLen h) conn e in
  match err with
  | Some err => Return (m, Some (filterNetworkErrors err), conn)
  | None =>
      let '(x, err, buf) :=
        if (Magic h =? MagicReq) && (0 <? ExtraLen h) then
          let '(raw, buf) := next (ExtraLen h) buf in
          let '(x, err) := read_extra (Op h) raw (Extra m) in (x, err, buf)
        else (Extra m, None, buf) in
      match err with
      | Some err => Return (mkMessage h x (DMap m) (Key m) (Value m), Some err, conn)
      | None =>
          let '(dmap, buf) := next (DMapLen h) buf in
          let '(key, buf) := next (KeyLen h) buf in
          if vlen =? 0 then Return (mkMessage h x dmap key (Value m), None, conn)
          else
            dst ← make_bytes vlen;
            let '(src, _) := next vlen buf in
            Return (mkMessage h x dmap key (go_copy dst src), None, conn)
      end
  end.

Definition valid_magic (h : Header) : Prop := Magic h = MagicReq ∨ Magic h = MagicRes.

Lemma Read_header MaxValueSize m h conn e :
  header_ok h → valid_magic h →
  Read MaxValueSize m (encode_header h ++ conn) e = read_body MaxValueSize m h conn e.
Proof.
  intros Hh Hm. unfold Read. rewrite copyN_app by done.
  rewrite decode_encode_header by done.
  assert (negb (Magic h =? MagicReq) && negb (Magic h =? MagicRes) = false) as ->.
  { destruct Hm as [-> | ->]; done. }
  done.
Qed.

(** ** Extras *)

(** The bytes [Write] puts for the extras of a message. *)
Definition xbytes (m : Message) : list byte := from_option extra_bytes [] (Extra m).

Lemma length_extra_bytes x : length (extra_bytes x) = 8%nat.
Proof. by destruct x. Qed.

Lemma read_u64_8 raw : length raw = 8%nat → read_u64 raw = (be_decode raw, None).
Proof.
  intros Hl. unfold read_u64, len. rewrite Hl. rewrite decide_False by (by intros ->).
  by rewrite take_ge by lia.
Qed.

Definition extra_ok (x : extra) : Prop :=
  match x with
  | LockWithTimeoutExtra ttl | PutExExtra ttl => in_int64 ttl
  | IsPartEmptyExtra id => in_uint64 id
  end.

Lemma decode_signed z :
  in_int64 z → to_signed 64 (be_decode (be_encode 8 (to_unsigned 64 z))) = z.
Proof.
  intros Hz. rewrite be_decode_encode. change (256 ^ Z.of_nat 8) with (2 ^ 64).
  rewrite Z.mod_small by (apply to_unsigned_range; lia). by apply to_signed_unsigned.
Qed.

(** The kind of extras [Read] decodes for each operation. *)
Definition extra_matches (op : Z) (x : extra) : bool :=
  match x with
  | PutExExtra _ => op =? OpExPutEx
  | LockWithTimeoutExtra _ => (op =? OpExLockWithTimeout) || (op =? OpLockPrev)
  | IsPartEmptyExtra _ => (op =? OpIsPartEmpty) || (op =? OpIsBackupEmpty)
  end.

Lemma read_extra_bytes op x old :
  extra_ok x → extra_matches op x = true → read_extra op (extra_bytes x) old = (Some x, None).
Proof.
  intros Hx Hop. unfold read_extra. rewrite read_u64_8 by apply length_extra_bytes.
  destruct x as [ttl|ttl|id]; simpl in Hop, Hx |- *.
  - rewrite Hop. apply orb_true_iff in Hop as [Hop|Hop]; zbool; subst op; simpl;
      by rewrite decode_signed.
  - rewrite Hop. by rewrite decode_signed.
  - rewrite Hop. unfold in_uint64 in Hx. rewrite be_decode_encode.
    change (256 ^ Z.of_nat 8) with (2 ^ 64). rewrite Z.mod_small by done.
    apply orb_true_iff in Hop as [Hop|Hop]; zbool; subst op; done.
Qed.

(** ** Round trip *)

(** The messages whose sizes the header can represent. *)
Definition sizes_ok (MaxValueSize : Z) (m : Message) : Prop :=
  len (DMap m) < 2 ^ 16 ∧ len (Key m) < 2 ^ 16 ∧ len (Value m) ≤ MaxValueSize
  ∧ len (DMap m) + len (Key m) + len (Value m) + 8 < 2 ^ 32
  ∧ 0 ≤ Op (Hdr m) < 2 ^ 8 ∧ 0 ≤ Status (Hdr m) < 2 ^ 8
  ∧ (Extra m = None → ExtraLen (Hdr m) = 0).

Lemma write_header_spec MaxValueSize m :
  sizes_ok MaxValueSize m → valid_magic (Hdr m) →
  write_header m
  = mkHeader (Magic (Hdr m)) (Op (Hdr m)) (len (DMap m)) (len (Key m)) (len (xbytes m))
      (Status (Hdr m)) (len (xbytes m ++ DMap m ++ Key m ++ Value m))
  ∧ header_ok (write_header m) ∧ valid_magic (write_header m).
Proof.
  intros (Hd & Hk & Hv & Hb & Ho & Hst & Hx) Hm.
  pose proof (len_nonneg (DMap m)). pose proof (len_nonneg (Key m)).
  pose proof (len_nonneg (Value m)).
  assert (match Extra m with
          | Some x => to_unsigned 8 (len (extra_bytes x))
          | None => ExtraLen (Hdr m)
          end = len (xbytes m)) as Hxl.
  { unfold xbytes. destruct (Extra m) as [x|]; [|by rewrite Hx].
    simpl. unfold len. by rewrite length_extra_bytes. }
  assert (0 ≤ len (xbytes m) ≤ 8) as Hxb.
  { unfold xbytes, len. destruct (Extra m); simpl; [rewrite length_extra_bytes|]; lia. }
  unfold write_header. rewrite Hxl. rewrite !to_unsigned_small by lia.
  rewrite !len_app.
  replace (len (DMap m) + len (Key m) + len (Value m) + len (xbytes m))
    with (len (xbytes m) + (len (DMap m) + (len (Key m) + len (Value m)))) by lia.
  split; [done|]. split; [|done].
  assert (0 ≤ Magic (Hdr m) < 2 ^ 8) by (destruct Hm as [-> | ->]; done).
  unfold header_ok. simpl. lia.
Qed.

(** The extras that are read as they were written, or skipped altogether: those of
    the operation, or any extras of an operation [Read] knows no extras for. *)
Definition extra_skipped (op : Z) : Prop :=
  op ≠ OpExPutEx ∧ op ≠ OpExLockWithTimeout ∧ op ≠ OpLockPrev
  ∧ op ≠ OpIsPartEmpty ∧ op ≠ OpIsBackupEmpty.

Lemma read_extra_skipped op raw old :
  extra_skipped op → read_extra op raw old = (old, None).
Proof.
  intros (H1 & H2 & H3 & H4 & H5). unfold read_extra. destruct (read_u64 raw).
  rewrite !(proj2 (Z.eqb_neq _ _)) by done. done.
Qed.

(** The fields after the extras, from a buffer that holds exactly them. *)
Lemma read_tail_spec h x dmap key value (v0 rest : list byte) :
  v0 = [] →
  (let '(d, buf) := next (len dmap) (dmap ++ key ++ value) in
   let '(k, buf) := next (len key) buf in
   if len value =? 0 then Return (mkMessage h x d k v0, @None perror, rest)
   else
     dst ← make_bytes (len value);
     let '(src, _) := next (len value) buf in
     Return (mkMessage h x d k (go_copy dst src), None, rest))
  = Return (mkMessage h x dmap key value, None, rest).
Proof.
  intros ->. rewrite next_app by done. cbn beta iota. rewrite next_app by done.
  cbn beta iota.
  destruct (Z.eqb_spec (len value) 0) as [Hz|Hz].
  { destruct value; [done|]. unfold len in Hz. simpl in Hz. lia. }
  assert (next (len value) value = (value, [])) as ->.
  { rewrite <-(app_nil_r value) at 2. by apply next_app. }
  unfold make_bytes, checked. pose proof (len_nonneg value).
  rewrite (proj2 (Z.leb_le _ _)) by done. simpl.
  unfold go_copy, len. rewrite length_replicate, Nat2Z.id, take_ge by done.
  by rewrite drop_ge, app_nil_r by (by rewrite length_replicate).
Qed.

(** The condition under which the extras [xb] of a message with header [h] are
    consumed, and the extras [x] that [Read] makes of them. *)
Definition reads_extra (h : Header) (xb : list byte) (old x : option extra) : Prop :=
  if (Magic h =? MagicReq) && (0 <? len xb)
  then read_extra (Op h) xb old = (x, None) else xb = [] ∧ x = old.

Lemma read_body_spec MaxValueSize m0 h x xb dmap key value rest e :
  len value ≤ MaxValueSize → Value m0 = [] →
  ExtraLen h = len xb → DMapLen h = len dmap → KeyLen h = len key →
  BodyLen h = len (xb ++ dmap ++ key ++ value) →
  reads_extra h xb (Extra m0) x →
  read_body MaxValueSize m0 h ((xb ++ dmap ++ key ++ value) ++ rest) e
  = Return (mkMessage h x dmap key value, None, rest).
Proof.
  intros Hmax Hv0 Hxl Hdl Hkl Hbl Hx. unfold read_body. cbn [Extra DMap Key Value Hdr].
  assert (BodyLen h - ExtraLen h - KeyLen h - DMapLen h = len value) as Hvl.
  { rewrite Hbl, Hxl, Hdl, Hkl, !len_app. lia. }
  rewrite Hvl. destruct (Z.ltb_spec MaxValueSize (len value)); [lia|].
  rewrite copyN_app by done. rewrite Hxl, Hdl, Hkl. unfold reads_extra in Hx.
  destruct ((Magic h =? MagicReq) && (0 <? len xb)).
  - rewrite next_app, Hx by done. by apply read_tail_spec.
  - destruct Hx as [-> ->]. exact (read_tail_spec h _ dmap key value _ rest Hv0).
Qed.

(** The bytes of a message as [Write] hands them to the connection, and the message
    with the header [Write] leaves in it. *)
Definition wire (m : Message) : list byte := (Write m None).1.2.
Definition written (m : Message) : Message := (Write m None).1.1.

Lemma wire_split m :
  wire m = encode_header (write_header m) ++ (xbytes m ++ DMap m ++ Key m ++ Value m).
Proof. done. Qed.

(** A read of a written message, given what becomes of the extras. *)
Lemma Read_wire MaxValueSize m0 m rest e x :
  sizes_ok MaxValueSize m → valid_magic (Hdr m) → Value m0 = [] →
  reads_extra (write_header m) (xbytes m) (Extra m0) x →
  Read MaxValueSize m0 (wire m ++ rest) e
  = Return (mkMessage (write_header m) x (DMap m) (Key m) (Value m), None, rest).
Proof.
  intros Hs Hm Hv0 Hx. destruct (write_header_spec _ _ Hs Hm) as (Hw & Hok & Hm').
  rewrite wire_split, <-app_assoc, Read_header by done.
  destruct Hs as (_ & _ & Hv & _).
  apply read_body_spec; try done; by rewrite Hw.
Qed.

(** The extras of a message survive [Write] and [Read]: a request carries none or
    those of its operation, a response none. *)
Definition extra_fits (m : Message) : Prop :=
  match Extra m with
  | None => True
  | Some x => Magic (Hdr m) = MagicReq ∧ extra_ok x ∧ extra_matches (Op (Hdr m)) x = true
  end.

Lemma reads_extra_fits m m0 :
  extra_fits m → Extra m0 = None → reads_extra (write_header m) (xbytes m) (Extra m0) (Extra m).
Proof.
  unfold extra_fits, reads_extra, xbytes. intros Hf ->. destruct (Extra m) as [x|]; simpl.
  - destruct Hf as (Hm & Hok & Hop). unfold len. rewrite length_extra_bytes, Hm. simpl.
    by apply read_extra_bytes.
  - by rewrite andb_false_r.
Qed.

(** C26: [Read] inverts [Write]. A message whose sizes fit the header fields, with a valid
    magic and with no extras or those that [Read] knows of its operation (which leaves out
    the extras of [OpPutBackup], see [Read_drops_unknown_extra]), is read back from the
    bytes [Write] produced, with the header [Write] computed, and exactly the bytes of the
    message are consumed: whatever follows on the connection is left for the next [Read].
    *)
Theorem Read_Write_roundtrip MaxValueSize m rest e :
  sizes_ok MaxValueSize m → valid_magic (Hdr m) → extra_fits m →
  Read MaxValueSize zero_message (wire m ++ rest) e = Return (written m, None, rest).
Proof.
  intros Hs Hm Hf.
  rewrite (Read_wire _ _ _ _ _ (Extra m)); [done..|by apply reads_extra_fits].
Qed.

Definition bs (s : string) : list byte := list_byte_of_string s.

Definition sample_request : Message :=
  mkMessage (mkHeader MagicReq OpExPutEx 0 0 0 0 0) (Some (PutExExtra (-5)))
    (bs "dmap") (bs "key") (bs "value").

Lemma Read_Write_witness :
  Read (2 ^ 20) zero_message (wire sample_request ++ bs "next") IOEOF
  = Return (written sample_request, None, bs "next").
Proof.
  apply Read_Write_roundtrip.
  - repeat split; try done; by vm_compute.
  - by left.
  - repeat split; by vm_compute.
Defined.

(** The extras of an operation for which [Read] knows no extras are dropped: the
    message comes back with [Extra = nil].  [OpPutBackup] is such an operation, although
    [dmap_put.go] sends it with [PutExExtra], so a backup never learns the TTL. *)
Theorem Read_drops_unknown_extra MaxValueSize m x rest e :
  sizes_ok MaxValueSize m → Magic (Hdr m) = MagicReq → Extra m = Some x →
  extra_skipped (Op (Hdr m)) →
  Read MaxValueSize zero_message (wire m ++ rest) e
  = Return (mkMessage (write_header m) None (DMap m) (Key m) (Value m), None, rest).
Proof.
  intros Hs Hm Hx Hop. apply Read_wire; [done|by left|done|].
  unfold reads_extra, xbytes. rewrite Hx. simpl. unfold len.
  rewrite length_extra_bytes, Hm. simpl. by apply read_extra_skipped.
Qed.

Definition sample_backup : Message :=
  mkMessage (mkHeader MagicReq OpPutBackup 0 0 0 0 0) (Some (PutExExtra 5000))
    (bs "dmap") (bs "key") (bs "value").

Lemma Read_drops_witness :
  Read (2 ^ 20) zero_message (wire sample_backup ++ []) IOEOF
  = Return (mkMessage (write_header sample_backup) None (bs "dmap") (bs "key") (bs "value"),
            None, []).
Proof.
  apply (Read_drops_unknown_extra (2 ^ 20) sample_backup (PutExExtra 5000) [] IOEOF);
    try done.
Defined.

(** ** Errors *)

(** A header that announces a body shorter than its own extras, map name and key
    together crashes the server that reads it: once the body is there and its extras, if
    any are decoded, are well formed, the negative value length reaches [make]. *)
Theorem Read_negative_vlen_panics MaxValueSize m h body rest e x :
  header_ok h → valid_magic h → 0 ≤ MaxValueSize →
  BodyLen h = len body → len body < ExtraLen h + KeyLen h + DMapLen h →
  ((Magic h = MagicReq ∧ 0 < ExtraLen h) →
    read_extra (Op h) (take (Z.to_nat (ExtraLen h)) body) (Extra m) = (x, None)) →
  Read MaxValueSize m (encode_header h ++ body ++ rest) e = Panic.
Proof.
  intros Hok Hm Hmax Hb Hlt Hx. rewrite Read_header by done. unfold read_body.
  cbn [Extra DMap Key Value Hdr].
  destruct (Z.ltb_spec MaxValueSize (BodyLen h - ExtraLen h - KeyLen h - DMapLen h)); [lia|].
  rewrite copyN_app by done.
  destruct ((Magic h =? MagicReq) && (0 <? ExtraLen h)) eqn:Hc.
  - apply andb_true_iff in Hc as [Hc1 Hc2]. zbool. unfold next at 1. rewrite Hx by done.
    unfold next. destruct (Z.eqb_spec (BodyLen h - ExtraLen h - KeyLen h - DMapLen h) 0); [lia|].
    unfold make_bytes, checked. by rewrite (proj2 (Z.leb_gt _ _)) by lia.
  - unfold next. destruct (Z.eqb_spec (BodyLen h - ExtraLen h - KeyLen h - DMapLen h) 0); [lia|].
    unfold make_bytes, checked. by rewrite (proj2 (Z.leb_gt _ _)) by lia.
Qed.

Lemma Read_negative_vlen_witness :
  Read (2 ^ 20) zero_message (encode_header (mkHeader MagicReq OpExGet 0 1 0 0 0) ++ [] ++ [])
    IOEOF = Panic.
Proof.
  apply (Read_negative_vlen_panics _ _ _ _ _ _ None); try done.
  by left.
Defined.

(** A value over [MaxValueSize] is refused right after the header, before the body
    is read: the connection still holds the whole body, which the next [Read] takes for
    the start of a message. *)
Theorem Read_value_too_big MaxValueSize m m0 rest e :
  sizes_ok (len (Value m)) m → valid_magic (Hdr m) → MaxValueSize < len (Value m) →
  Read MaxValueSize m0 (wire m ++ rest) e
  = Return (mkMessage (write_header m) (Extra m0) (DMap m0) (Key m0) (Value m0),
            Some ErrValueTooBig, (xbytes m ++ DMap m ++ Key m ++ Value m) ++ rest).
Proof.
  intros Hs Hm Hlt. destruct (write_header_spec _ _ Hs Hm) as (Hw & Hok & Hm').
  rewrite wire_split, <-app_assoc, Read_header by done. unfold read_body.
  rewrite Hw. cbn [BodyLen ExtraLen KeyLen DMapLen]. rewrite !len_app.
  destruct (Z.ltb_spec MaxValueSize (len (xbytes m)
    + (len (DMap m) + (len (Key m) + len (Value m))) - len (xbytes m) - len (Key m)
    - len (DMap m))); [done|lia].
Qed.

Lemma Read_value_too_big_witness :
  Read 4 zero_message (wire sample_request ++ []) IOEOF
  = Return (mkMessage (write_header sample_request) None [] [] [], Some ErrValueTooBig,
            (xbytes sample_request ++ bs "dmap" ++ bs "key" ++ bs "value") ++ []).
Proof.
  apply (Read_value_too_big 4 sample_request zero_message [] IOEOF).
  - repeat split; try done; by vm_compute.
  - by left.
  - by vm_compute.
Defined.

(** C27: A message cut anywhere is never accepted: for every strict prefix of the bytes
    of a message, [Read] returns the (filtered) error of the connection, without a
    panic, and leaves nothing unread. *)
Theorem Read_truncated MaxValueSize m m0 n e :
  sizes_ok MaxValueSize m → valid_magic (Hdr m) → (n < length (wire m))%nat →
  ∃ m', Read MaxValueSize m0 (take n (wire m)) e
        = Return (m', Some (filterNetworkErrors e), []).
Proof.
  intros Hs Hm Hn. destruct (write_header_spec _ _ Hs Hm) as (Hw & Hok & Hm').
  rewrite wire_split in *. destruct (decide (n < 12)%nat) as [Hh|Hh].
  { eexists. unfold Read. rewrite copyN_short; [done|].
    unfold len, headerSize. rewrite length_take. lia. }
  rewrite length_app, length_encode_header in Hn.
  rewrite take_app_ge, length_encode_header by (rewrite length_encode_header; lia).
  rewrite Read_header by done. unfold read_body. eexists.
  rewrite Hw. cbn [BodyLen ExtraLen KeyLen DMapLen]. rewrite !len_app.
  destruct Hs as (_ & _ & Hv & _).
  match goal with |- context [MaxValueSize <? ?v] =>
    destruct (Z.ltb_spec MaxValueSize v) as [Hbad|_]; [lia|] end.
  rewrite copyN_short; [done|]. rewrite !length_app in Hn. unfold len.
  rewrite length_take, !length_app. lia.
Qed.

Lemma Read_truncated_witness :
  ∃ m', Read (2 ^ 20) zero_message (take 20 (wire sample_request)) IOEOF
        = Return (m', Some IOEOF, []).
Proof.
  apply (Read_truncated (2 ^ 20) sample_request zero_message 20 IOEOF).
  - repeat split; try done; by vm_compute.
  - by left.
  - vm_compute. lia.
Defined.

(** The responses of the server are messages [Read] accepts. *)
Lemma Error_roundtrip MaxValueSize m status text rest e :
  0 ≤ Op (Hdr m) < 2 ^ 8 → 0 ≤ status < 2 ^ 8 → len text ≤ MaxValueSize →
  len text + 8 < 2 ^ 32 →
  Read MaxValueSize zero_message (wire (Error m status text) ++ rest) e
  = Return (written (Error m status text), None, rest).
Proof.
  intros Ho Hs Hl Hb. rewrite (Read_wire _ _ _ _ _ None); [done| |by right|done|done].
  repeat split; simpl; try done; try lia.
Qed.

End protocol.
