(* ===== verification/Locker.v ===== *)
(** Named locks: [locker.go].

    A locker keeps one reference-counted lock per name.  The critical sections of
    [locker.mu] are atomic steps; the locks themselves, their counters and the
    channels that announce an unlock live in heaps of the locker, so that a goroutine
    can hold a reference to a lock that has left the map.  The second part of the file
    runs any number of goroutines over a locker. *)

From S2P Require Export Bytes.

Module locker.

(** ** Data *)
Record lockCtr := mkLockCtr {
  mu : bool;             (* the mutex is locked *)
  waiters : Z;           (* int32 *)
  done_ : option nat     (* the channel, nil or a reference *)
}.

Record locker := mkLocker {
  locks : gmap (list byte) nat;
  ctrs : list lockCtr;      (* the locks, by reference *)
  chans : list bool         (* the channels, by reference: closed or not *)
}.

Inductive lerror := ErrNoSuchLock.

#[export] Instance lockCtr_eq_decision : EqDecision lockCtr.
Proof. solve_decision. Defined.
#[export] Instance locker_eq_decision : EqDecision locker.
Proof. solve_decision. Defined.
#[export] Instance lerror_eq_decision : EqDecision lerror.
Proof. solve_decision. Defined.

Definition set_ctr (a : nat) (c : lockCtr) (l : locker) : locker :=
  mkLocker (locks l) (<[a := c]> (ctrs l)) (chans l).

(** ** The operations of a lock *)
Definition inc (c : lockCtr) : lockCtr :=
  mkLockCtr (mu c) (to_signed 32 (waiters c + 1)) (done_ c).
Definition dec (c : lockCtr) : lockCtr :=
  mkLockCtr (mu c) (to_signed 32 (waiters c - 1)) (done_ c).
Definition count (c : lockCtr) : Z := waiters c.

(** [mu.Lock()]: [None] while the mutex is locked, when the caller waits. *)
Definition lockCtr_lock (c : lockCtr) : option lockCtr :=
  if mu c then None else Some (mkLockCtr true (waiters c) (done_ c)).

(** [mu.Unlock()]: unlocking an unlocked mutex is a fatal error of the run-time. *)
Definition lockCtr_unlock (c : lockCtr) : comp lockCtr :=
  checked (mu c) (Return (mkLockCtr false (waiters c) (done_ c))).

(** ** The operations of the locker *)
Definition newLocker : locker := mkLocker ∅ [] [].

Definition length_ (l : locker) : Z := Z.of_nat (size (locks l)).

Definition check (l : locker) (name : list byte) : bool :=
  bool_decide (is_Some (locks l !! name)).

Definition unlockNotifier (l : locker) (name : list byte) : comp (option nat) :=
  match locks l !! name with
  | None => Return None
  | Some a => match ctrs l !! a with
              | Some c => Return (done_ c)
              | None => Panic
              end
  end.

(** [lock], first part: the critical section of [l.mu]. *)
Definition lock_enter (l : locker) (name : list byte) : comp (nat * locker) :=
  let '(a, l) :=
    match locks l !! name with
    | Some a => (a, l)
    | None =>
        let a := length (ctrs l) in
        (a, mkLocker (<[name := a]> (locks l)) (ctrs l ++ [mkLockCtr false 0 None]) (chans l))
    end in
  match ctrs l !! a with
  | None => Panic
  | Some c =>
      let c := inc c in
      let d := length (chans l) in
      let c := mkLockCtr (mu c) (waiters c) (Some d) in
      Return (a, set_ctr a c (mkLocker (locks l) (ctrs l) (chans l ++ [false])))
  end.

(** [lock], second part: [nameLock.lock()]; [Running] while the caller waits. *)
Definition lock_acquire (l : locker) (a : nat) : comp locker :=
  match ctrs l !! a with
  | None => Panic
  | Some c => match lockCtr_lock c with
              | None => Running
              | Some c => Return (set_ctr a c l)
              end
  end.

(** [lock], third part: [nameLock.dec()]. *)
Definition lock_dec (l : locker) (a : nat) : comp locker :=
  match ctrs l !! a with
  | None => Panic
  | Some c => Return (set_ctr a (dec c) l)
  end.

(** [lock] when no other goroutine runs in between: [Running] if the name is locked. *)
Definition lock (l : locker) (name : list byte) : comp locker :=
  al ← lock_enter l name;
  l ← lock_acquire al.2 al.1;
  lock_dec l al.1.

(** [close(ch)]: closing a nil or closed channel panics. *)
Definition close_chan (l : locker) (ch : option nat) : comp locker :=
  match ch with
  | None => Panic
  | Some d => match chans l !! d with
              | Some false => Return (mkLocker (locks l) (ctrs l) (<[d := true]> (chans l)))
              | _ => Panic
              end
  end.

(** Whether a receive from the channel returns at once. *)
Definition chan_ready (l : locker) (ch : option nat) : bool :=
  match ch with
  | None => false
  | Some d => bool_decide (chans l !! d = Some true)
  end.

Definition unlock (l : locker) (name : list byte) : comp (locker * option lerror) :=
  match locks l !! name with
  | None => Return (l, Some ErrNoSuchLock)
  | Some a =>
      match ctrs l !! a with
      | None => Panic
      | Some c =>
          let l := if count c =? 0
                   then mkLocker (delete name (locks l)) (ctrs l) (chans l) else l in
          c ← lockCtr_unlock c;
          let l := set_ctr a c l in
          if chan_ready l (done_ c) then Return (l, None)
          else l ← close_chan l (done_ c); Return (l, None)
      end
  end.

(** ** One caller at a time *)

(** The name is locked and nobody waits for it. *)
Definition taken (l : locker) (name : list byte) : Prop :=
  ∃ a ch, locks l !! name = Some a ∧ ctrs l !! a = Some (mkLockCtr true 0 (Some ch))
    ∧ chans l !! ch = Some false.

(** The locker after [name], which was free, has been locked. *)
Definition with_lock (l : locker) (name : list byte) : locker :=
  mkLocker (<[name := length (ctrs l)]> (locks l))
    (ctrs l ++ [mkLockCtr true 0 (Some (length (chans l)))]) (chans l ++ [false]).

Lemma lock_free_run l name :
  locks l !! name = None → lock l name = Return (with_lock l name).
Proof.
  intros Hn. unfold with_lock. set (a := length (ctrs l)).
  assert (∀ x : lockCtr, (ctrs l ++ [x]) !! a = Some x) as Hlast.
  { intros x. unfold a. by rewrite lookup_app_r, Nat.sub_diag. }
  assert (∀ x y : lockCtr, <[a := y]> (ctrs l ++ [x]) = ctrs l ++ [y]) as Hset.
  { intros x y. unfold a. by rewrite insert_app_r_alt, Nat.sub_diag. }
  unfold lock, lock_enter. rewrite Hn. fold a. cbn [ctrs locks chans].
  rewrite Hlast, bind_return. unfold set_ctr, lock_acquire, lock_dec. cbn.
  rewrite !Hset, Hlast. cbn. rewrite Hset, Hlast. unfold set_ctr. cbn. by rewrite !Hset.
Qed.

Lemma with_lock_taken l name : taken (with_lock l name) name.
Proof.
  exists (length (ctrs l)), (length (chans l)). simpl.
  by rewrite lookup_insert_eq, !lookup_app_r, !Nat.sub_diag.
Qed.

Lemma lock_free l name :
  locks l !! name = None →
  ∃ l', lock l name = Return l' ∧ taken l' name
    ∧ ∀ other, other ≠ name → locks l' !! other = locks l !! other.
Proof.
  intros Hn. exists (with_lock l name). split; [by apply lock_free_run|].
  split; [apply with_lock_taken|]. intros other Hne. simpl. by rewrite lookup_insert_ne.
Qed.

Lemma lock_taken l name : taken l name → lock l name = Running.
Proof.
  intros (a & ch & Hn & Ha & _). unfold lock, lock_enter. rewrite Hn, Ha.
  rewrite !bind_return. unfold lock_acquire, set_ctr. cbn [fst snd ctrs locks chans].
  by rewrite list_lookup_insert_eq by by eapply lookup_lt_Some.
Qed.

Lemma unlock_taken l name :
  taken l name →
  ∃ l', unlock l name = Return (l', None) ∧ locks l' = delete name (locks l).
Proof.
  intros (a & ch & Hn & Ha & Hch). unfold unlock. rewrite Hn, Ha. cbn. rewrite Hch.
  by eexists.
Qed.

Lemma unlock_free l name :
  locks l !! name = None → unlock l name = Return (l, Some ErrNoSuchLock).
Proof. unfold unlock. by intros ->. Qed.

(** ** The names that are held

    Exactly the names in [L] are locked, nobody waits for one of them, and each has a
    counter and a channel of its own. *)
Record quiet (l : locker) (L : list byte → Prop) : Prop := {
  q_taken name : L name → taken l name;
  q_free name : ¬ L name → locks l !! name = None;
  q_apart n1 n2 a1 a2 ch : locks l !! n1 = Some a1 → locks l !! n2 = Some a2 →
    done_ <$> ctrs l !! a1 = Some (Some ch) → done_ <$> ctrs l !! a2 = Some (Some ch) → n1 = n2
}.

Lemma quiet_new : quiet newLocker (fun _ => False).
Proof. split; [done|done|]. intros n1 n2 a1 a2 ch Hn. simpl in Hn. by rewrite lookup_empty in Hn. Qed.

Lemma quiet_ext l L L' : (∀ name, L name ↔ L' name) → quiet l L → quiet l L'.
Proof.
  intros HL [Ht Hf Ha]. split; [..|done]; intros name Hn; [apply Ht|apply Hf]; by rewrite HL.
Qed.

(** A name that is in the table is held. *)
Lemma quiet_lt l L name a `{!∀ n, Decision (L n)} :
  quiet l L → locks l !! name = Some a →
  ∃ ch, ctrs l !! a = Some (mkLockCtr true 0 (Some ch)) ∧ chans l !! ch = Some false.
Proof.
  intros [Ht Hf _] Hn. destruct (decide (L name)) as [HL|HL]; [|by rewrite Hf in Hn].
  destruct (Ht name HL) as (b & ch & Hb & Hc & Hch). simplify_eq. eauto.
Qed.

Lemma quiet_lock l L name `{!∀ n, Decision (L n)} :
  quiet l L → ¬ L name →
  lock l name = Return (with_lock l name) ∧ quiet (with_lock l name) (fun k => k = name ∨ L k).
Proof.
  intros Hq HL. pose proof (q_free _ _ Hq name HL) as Hn. split; [by apply lock_free_run|].
  assert (∀ k a, k ≠ name → locks (with_lock l name) !! k = Some a →
    locks l !! k = Some a ∧ ∃ ch, ctrs l !! a = Some (mkLockCtr true 0 (Some ch))
      ∧ chans l !! ch = Some false ∧ (a < length (ctrs l))%nat ∧ (ch < length (chans l))%nat) as Hold.
  { intros k a Hne Hk. simpl in Hk. rewrite lookup_insert_ne in Hk by done. split; [done|].
    destruct (quiet_lt l L k a Hq Hk) as (ch & Hc & Hch). exists ch. do 2 (split; [done|]).
    split; by eapply lookup_lt_Some. }
  split.
  - intros k [->|Hk]; [apply with_lock_taken|].
    assert (k ≠ name) as Hne by congruence. destruct (q_taken _ _ Hq k Hk) as (a & ch & Ha & Hc & Hch).
    exists a, ch. simpl. rewrite lookup_insert_ne by done.
    by rewrite !lookup_app_l by by eapply lookup_lt_Some.
  - intros k Hk. simpl. rewrite lookup_insert_ne by (intros <-; tauto). apply (q_free _ _ Hq). tauto.
  - assert (∀ k a ch, k ≠ name → locks (with_lock l name) !! k = Some a →
      done_ <$> ctrs (with_lock l name) !! a = Some (Some ch) →
      (ch < length (chans l))%nat ∧ locks l !! k = Some a ∧ done_ <$> ctrs l !! a = Some (Some ch)) as Hd.
    { intros k a ch Hne Hk Hch. pose proof (Hold k a Hne Hk) as (Hk' & ch' & Hc & Hch' & Ha & Hlt).
      simpl in Hch. rewrite lookup_app_l, Hc in Hch by done. simplify_eq/=. by rewrite Hc. }
    intros n1 n2 a1 a2 ch H1 H2 C1 C2.
    assert (∀ a ch, locks (with_lock l name) !! name = Some a →
      done_ <$> ctrs (with_lock l name) !! a = Some (Some ch) → ch = length (chans l)) as Hnew.
    { intros a ch' Ha. simpl in Ha. rewrite lookup_insert_eq in Ha. injection Ha as <-. simpl.
      rewrite lookup_app_r, Nat.sub_diag by done. simpl. congruence. }
    destruct (decide (n1 = name)) as [->|N1], (decide (n2 = name)) as [->|N2]; [done|..].
    + destruct (Hd _ _ _ N2 H2 C2) as [? _]. pose proof (Hnew _ _ H1 C1). lia.
    + destruct (Hd _ _ _ N1 H1 C1) as [? _]. pose proof (Hnew _ _ H2 C2). lia.
    + destruct (Hd _ _ _ N1 H1 C1) as (_ & ? & ?), (Hd _ _ _ N2 H2 C2) as (_ & ? & ?).
      by eapply (q_apart _ _ Hq).
Qed.

Lemma quiet_unlock l L name :
  quiet l L → L name →
  ∃ l', unlock l name = Return (l', None) ∧ quiet l' (fun k => k ≠ name ∧ L k).
Proof.
  intros Hq HL. destruct (q_taken _ _ Hq name HL) as (a & ch & Hn & Ha & Hch).
  exists (mkLocker (delete name (locks l)) (<[a := mkLockCtr false 0 (Some ch)]> (ctrs l))
    (<[ch := true]> (chans l))).
  split; [unfold unlock; rewrite Hn, Ha; cbn; by rewrite Hch|].
  assert (done_ <$> ctrs l !! a = Some (Some ch)) as Hda by by rewrite Ha.
  assert (∀ k b, k ≠ name → locks l !! k = Some b → b ≠ a) as Hne.
  { intros k b Hk Hb ->. apply Hk. by eapply (q_apart _ _ Hq). }
  split; simpl.
  - intros k [Hk HLk]. destruct (q_taken _ _ Hq k HLk) as (b & chk & Hb & Hcb & Hchk).
    exists b, chk. simpl. rewrite lookup_delete_ne by done.
    rewrite list_lookup_insert_ne by (by apply not_eq_sym, (Hne k)).
    split; [done|]. split; [done|]. rewrite list_lookup_insert_ne; [done|]. intros ->.
    apply Hk. apply (q_apart _ _ Hq _ _ b a chk Hb Hn); [by rewrite Hcb|done].
  - intros k Hk. destruct (decide (k = name)) as [->|E]; [by rewrite lookup_delete_eq|].
    rewrite lookup_delete_ne by done. apply (q_free _ _ Hq). tauto.
  - intros n1 n2 a1 a2 c [E1 H1]%lookup_delete_Some [E2 H2]%lookup_delete_Some.
    rewrite !list_lookup_insert_ne by (by apply not_eq_sym; eauto).
    by apply (q_apart _ _ Hq).
Qed.

(** ** Goroutines

    Each goroutine locks a name, holds it and unlocks it; between the parts of [lock]
    the others run. *)
Inductive phase :=
  | Idle
  | Entered (name : list byte) (a : nat)
  | Acquired (name : list byte) (a : nat)
  | Holding (name : list byte) (a : nat).

Record sys := mkSys { lk : locker; thr : list phase }.

Inductive step : sys → sys → Prop :=
  | step_enter l ts i name a l' :
      ts !! i = Some Idle → lock_enter l name = Return (a, l') →
      step (mkSys l ts) (mkSys l' (<[i := Entered name a]> ts))
  | step_acquire l ts i name a l' :
      ts !! i = Some (Entered name a) → lock_acquire l a = Return l' →
      step (mkSys l ts) (mkSys l' (<[i := Acquired name a]> ts))
  | step_dec l ts i name a l' :
      ts !! i = Some (Acquired name a) → lock_dec l a = Return l' →
      step (mkSys l ts) (mkSys l' (<[i := Holding name a]> ts))
  | step_unlock l ts i name a l' e :
      ts !! i = Some (Holding name a) → unlock l name = Return (l', e) →
      step (mkSys l ts) (mkSys l' (<[i := Idle]> ts)).

Definition initial (n : nat) : sys := mkSys newLocker (replicate n Idle).

(** ** Counting goroutines *)
Definition counted (f : phase → bool) (ts : list phase) : nat := length (filter f ts).

Lemma counted_insert f ts i p q :
  ts !! i = Some p →
  (counted f (<[i := q]> ts) + Nat.b2n (f p) = counted f ts + Nat.b2n (f q))%nat.
Proof.
  intros Hi. rewrite insert_take_drop by (by eapply lookup_lt_Some).
  rewrite <-(take_drop_middle ts i p Hi) at 3. unfold counted.
  rewrite !filter_app, !length_app, !filter_cons. destruct (f p), (f q); simpl; lia.
Qed.

Lemma counted_le f ts : (counted f ts ≤ length ts)%nat.
Proof. apply length_filter. Qed.

Lemma counted_pos f ts i p : ts !! i = Some p → f p = true → (0 < counted f ts)%nat.
Proof.
  intros Hi Hf. unfold counted. assert (p ∈ filter f ts) as Hp.
  { apply list_elem_of_filter. rewrite Hf. split; [done|by eapply list_elem_of_lookup_2]. }
  destruct (filter f ts); [by apply not_elem_of_nil in Hp|simpl; lia].
Qed.

Definition waits (a : nat) (p : phase) : bool :=
  match p with Entered _ b | Acquired _ b => bool_decide (a = b) | _ => false end.
Definition owns (a : nat) (p : phase) : bool :=
  match p with Acquired _ b | Holding _ b => bool_decide (a = b) | _ => false end.
Definition refers (a : nat) (p : phase) : bool :=
  match p with
  | Idle => false
  | Entered _ b | Acquired _ b | Holding _ b => bool_decide (a = b)
  end.

(** ** The invariant *)
Definition phase_ok (l : locker) (p : phase) : Prop :=
  match p with
  | Idle => True
  | Entered n a | Acquired n a | Holding n a => locks l !! n = Some a
  end.

Record ctr_ok (l : locker) (ts : list phase) (a : nat) (c : lockCtr) : Prop := {
  ctr_waiters : waiters c = Z.of_nat (counted (waits a) ts);
  ctr_mu : counted (owns a) ts = Nat.b2n (mu c);
  ctr_used : (0 < counted (refers a) ts)%nat;
  ctr_done : ∃ d, done_ c = Some d ∧ (d < length (chans l))%nat
}.

Record inv (s : sys) : Prop := {
  inv_threads : Z.of_nat (length (thr s)) < 2 ^ 31;
  inv_phases : Forall (phase_ok (lk s)) (thr s);
  inv_inj : ∀ n1 n2 a, locks (lk s) !! n1 = Some a → locks (lk s) !! n2 = Some a → n1 = n2;
  inv_ctrs : ∀ n a, locks (lk s) !! n = Some a →
    ∃ c, ctrs (lk s) !! a = Some c ∧ ctr_ok (lk s) (thr s) a c
}.

Lemma counted_mono (f g : phase → bool) ts :
  (∀ p, f p = true → g p = true) → (counted f ts ≤ counted g ts)%nat.
Proof.
  intros Hfg. unfold counted. induction ts as [|p ts IH]; [done|].
  rewrite !filter_cons. specialize (Hfg p).
  destruct (f p), (g p); simpl; try lia.
Qed.

Lemma counted_or (f g h : phase → bool) ts :
  (∀ p, f p = true → g p = true ∨ h p = true) →
  (counted f ts ≤ counted g ts + counted h ts)%nat.
Proof.
  intros Hf. unfold counted. induction ts as [|p ts IH]; [done|].
  rewrite !filter_cons. specialize (Hf p).
  destruct (f p), (g p), (h p); simpl; try lia; naive_solver.
Qed.

Lemma counted_zero f ts : (∀ p, p ∈ ts → f p = false) → counted f ts = 0%nat.
Proof.
  intros Hf. unfold counted. induction ts as [|p ts IH]; [done|].
  rewrite filter_cons, Hf by set_solver. simpl. apply IH. set_solver.
Qed.

Lemma waits_refers a p : waits a p = true → refers a p = true.
Proof. by destruct p. Qed.
Lemma owns_refers a p : owns a p = true → refers a p = true.
Proof. by destruct p. Qed.
Lemma refers_split a p : refers a p = true → waits a p = true ∨ owns a p = true.
Proof. destruct p; simpl; auto. Qed.

(** A lock that neither phase refers to does not notice the step. *)
Lemma ctr_ok_frame l l' ts i p q b c :
  ts !! i = Some p → refers b p = false → refers b q = false →
  (length (chans l) ≤ length (chans l'))%nat →
  ctr_ok l ts b c → ctr_ok l' (<[i := q]> ts) b c.
Proof.
  intros Hi Hp Hq Hch [Hw Ho Hu (d & Hd & Hlt)].
  assert (∀ f : nat → phase → bool, (∀ p, f b p = true → refers b p = true) →
    counted (f b) (<[i := q]> ts) = counted (f b) ts) as Hsame.
  { intros f Hf. pose proof (counted_insert (f b) ts i p q Hi) as Hc.
    pose proof (Hf p). pose proof (Hf q).
    destruct (f b p), (f b q); simpl in Hc; try lia; exfalso; intuition congruence. }
  split.
  - by rewrite (Hsame waits) by apply waits_refers.
  - by rewrite (Hsame owns) by apply owns_refers.
  - by rewrite (Hsame refers).
  - exists d. split; [done|lia].
Qed.

Lemma refers_name l n m b p a :
  phase_ok l p → refers b p = true → locks l !! m = Some b →
  (∀ n1 n2 a, locks l !! n1 = Some a → locks l !! n2 = Some a → n1 = n2) →
  p = Entered n a ∨ p = Acquired n a ∨ p = Holding n a → n = m ∧ a = b.
Proof.
  intros Hok Hr Hm Hinj [-> | [-> | ->]]; simpl in *; apply bool_decide_eq_true in Hr;
    subst; eauto.
Qed.

(** The steps that change one lock [a] and the phase of one goroutine [i]. *)
Lemma inv_update l ts i p q a n c c' chs :
  inv (mkSys l ts) → ts !! i = Some p →
  (∀ b, b ≠ a → refers b p = false ∧ refers b q = false) →
  locks l !! n = Some a → ctrs l !! a = Some c →
  (length (chans l) ≤ length chs)%nat → phase_ok l q →
  (ctr_ok l ts a c →
   ctr_ok (mkLocker (locks l) (<[a := c']> (ctrs l)) chs) (<[i := q]> ts) a c') →
  inv (mkSys (mkLocker (locks l) (<[a := c']> (ctrs l)) chs) (<[i := q]> ts)).
Proof.
  intros [Ht Hph Hinj Hc] Hi Hne Hn Ha Hch Hq Hok. simpl in *. split; simpl.
  - by rewrite length_insert.
  - apply Forall_insert; [|done]. eapply Forall_impl; [done|]. by intros [].
  - done.
  - intros m b Hm. destruct (Hc m b Hm) as (cb & Hcb & Hbok).
    destruct (decide (b = a)) as [->|Hb].
    + exists c'. split; [apply list_lookup_insert_eq; by eapply lookup_lt_Some|].
      simplify_eq. by apply Hok.
    + exists cb. rewrite list_lookup_insert_ne by done. split; [done|].
      destruct (Hne b Hb). by eapply (ctr_ok_frame l).
Qed.

Lemma to_signed_32 z : - 2 ^ 31 ≤ z < 2 ^ 31 → to_signed 32 z = z.
Proof.
  intros ?. unfold to_signed. change (32 - 1) with 31. destruct (decide (0 ≤ z)).
  - rewrite Z.mod_small by lia. destruct (Z.ltb_spec z (2 ^ 31)); lia.
  - assert (z mod 2 ^ 32 = z + 2 ^ 32) as ->.
    { symmetry. apply Z.mod_unique with (-1); lia. }
    destruct (Z.ltb_spec (z + 2 ^ 32) (2 ^ 31)); lia.
Qed.

(** What a step does to the three counts of the lock it concerns. *)
Ltac counts Hi a q :=
  pose proof (counted_insert (waits a) _ _ _ q Hi);
  pose proof (counted_insert (owns a) _ _ _ q Hi);
  pose proof (counted_insert (refers a) _ _ _ q Hi);
  simpl in *; rewrite ?bool_decide_eq_true_2 in * by done; simpl in *.

Lemma inv_acquire l ts i n a l' :
  inv (mkSys l ts) → ts !! i = Some (Entered n a) → lock_acquire l a = Return l' →
  inv (mkSys l' (<[i := Acquired n a]> ts)).
Proof.
  intros Hinv Hi Hl. pose proof (Forall_lookup_1 _ _ _ _ (inv_phases _ Hinv) Hi) as Hn.
  destruct (inv_ctrs _ Hinv n a Hn) as (c & Ha & Hok). simpl in *.
  unfold lock_acquire, lockCtr_lock in Hl. rewrite Ha in Hl.
  destruct (mu c) eqn:Hmu; simplify_eq. unfold set_ctr.
  apply (inv_update l ts i (Entered n a) _ a n c); try done.
  - intros b Hb. simpl. by rewrite bool_decide_false.
  - intros [Hw Ho Hu Hd]. counts Hi a (Acquired n a). rewrite Hmu in Ho. simpl in Ho.
    split; simpl; [lia..|done].
Qed.

Lemma inv_dec l ts i n a l' :
  inv (mkSys l ts) → ts !! i = Some (Acquired n a) → lock_dec l a = Return l' →
  inv (mkSys l' (<[i := Holding n a]> ts)).
Proof.
  intros Hinv Hi Hl. pose proof (Forall_lookup_1 _ _ _ _ (inv_phases _ Hinv) Hi) as Hn.
  destruct (inv_ctrs _ Hinv n a Hn) as (c & Ha & Hok). simpl in *.
  unfold lock_dec in Hl. rewrite Ha in Hl. simplify_eq. unfold set_ctr.
  pose proof (inv_threads _ Hinv) as Hlen. simpl in Hlen.
  apply (inv_update l ts i (Acquired n a) _ a n c); try done.
  - intros b Hb. simpl. by rewrite bool_decide_false.
  - intros [Hw Ho Hu Hd]. pose proof (counted_le (waits a) ts). counts Hi a (Holding n a).
    split; simpl; [rewrite Hw, to_signed_32 by lia; lia|lia..|done].
Qed.

(** The goroutine that holds a name finds its lock, locked. *)
Lemma holding_ctr l ts i n a p :
  inv (mkSys l ts) → ts !! i = Some p → p = Acquired n a ∨ p = Holding n a →
  locks l !! n = Some a ∧ ∃ c, ctrs l !! a = Some c ∧ ctr_ok l ts a c ∧ mu c = true.
Proof.
  intros Hinv Hi Hp. pose proof (Forall_lookup_1 _ _ _ _ (inv_phases _ Hinv) Hi) as Hn.
  assert (locks l !! n = Some a) as Hla by (by destruct Hp as [-> | ->]).
  destruct (inv_ctrs _ Hinv n a Hla) as (c & Ha & Hok). split; [done|]. exists c.
  split; [done|]. split; [done|]. destruct Hok as [_ Ho _ _]. simpl in Ho.
  assert (0 < counted (owns a) ts)%nat as Hpos.
  { eapply counted_pos; [done|]. destruct Hp as [-> | ->]; by apply bool_decide_eq_true_2. }
  destruct (mu c); [done|]. simpl in Ho. lia.
Qed.

Lemma unlock_spec l ts i n a p :
  inv (mkSys l ts) → ts !! i = Some p → p = Acquired n a ∨ p = Holding n a →
  ∃ c chs, ctrs l !! a = Some c ∧ length chs = length (chans l)
    ∧ unlock l n
      = Return (mkLocker (if waiters c =? 0 then delete n (locks l) else locks l)
                  (<[a := mkLockCtr false (waiters c) (done_ c)]> (ctrs l)) chs, None).
Proof.
  intros Hinv Hi Hp. destruct (holding_ctr _ _ _ _ _ _ Hinv Hi Hp) as (Hn & c & Ha & Hok & Hmu).
  destruct (ctr_done _ _ _ _ Hok) as (d & Hd & Hlt).
  destruct (lookup_lt_is_Some_2 _ _ Hlt) as [b Hb].
  unfold unlock, lockCtr_unlock, count, set_ctr. rewrite Hn, Ha, Hmu. simpl.
  exists c. rewrite Hd. simpl. destruct (waiters c =? 0); simpl; (destruct b;
    [rewrite bool_decide_eq_true_2 by done; exists (chans l)
    |rewrite bool_decide_eq_false_2 by congruence; rewrite Hb; exists (<[d := true]> (chans l));
     rewrite length_insert]); done.
Qed.

Lemma inv_unlock l ts i n a l' e :
  inv (mkSys l ts) → ts !! i = Some (Holding n a) → unlock l n = Return (l', e) →
  inv (mkSys l' (<[i := Idle]> ts)).
Proof.
  intros Hinv Hi Hl.
  destruct (holding_ctr _ _ _ n a _ Hinv Hi) as (Hn & c & Ha & Hok & Hmu); [by right|].
  destruct (unlock_spec _ _ _ n a _ Hinv Hi) as (c' & chs & Ha' & Hlen & Hu); [by right|].
  rewrite Hu in Hl. simplify_eq.
  destruct (Z.eqb_spec (waiters c) 0) as [Hw0|Hw0].
  - destruct Hok as [Hw Ho Hr Hd]. counts Hi a Idle.
    rewrite Hmu in Ho. simpl in Ho.
    pose proof (counted_or _ _ _ (<[i := Idle]> ts) (refers_split a)) as Hle.
    assert (∀ p, p ∈ <[i := Idle]> ts → refers a p = false) as Hnone.
    { intros p Hp. apply list_elem_of_lookup_1 in Hp as [j Hj].
      destruct (refers a p) eqn:E; [|done]. pose proof (counted_pos _ _ _ _ Hj E). lia. }
    destruct Hinv as [Ht Hph Hinj Hc]. simpl in *.
    assert (Forall (phase_ok l) (<[i := Idle]> ts)) as Hph' by by apply Forall_insert.
    split; simpl.
    + by rewrite length_insert.
    + apply Forall_forall. intros p Hp. rewrite Forall_forall in Hph'.
      pose proof (Hph' p Hp) as Hpok. specialize (Hnone p Hp).
      destruct p as [|m b|m b|m b]; [done|..]; simpl in *;
        apply bool_decide_eq_false in Hnone;
        (rewrite lookup_delete_ne; [done|congruence]).
    + intros n1 n2 b Hb1 Hb2. apply lookup_delete_Some in Hb1 as [_ Hb1].
      apply lookup_delete_Some in Hb2 as [_ Hb2]. eauto.
    + intros m b Hm. apply lookup_delete_Some in Hm as [Hne Hm].
      destruct (Hc m b Hm) as (cb & Hcb & Hbok). assert (b ≠ a) by (intros ->; eauto).
      exists cb. rewrite list_lookup_insert_ne by done. split; [done|].
      eapply (ctr_ok_frame l); try done; simpl; [by apply bool_decide_eq_false_2|lia].
  - apply (inv_update l ts i (Holding n a) _ a n c); try done; [|lia|].
    + intros b Hb. simpl. by rewrite bool_decide_eq_false_2.
    + intros [Hw Ho Hr (d & Hd & Hlt)]. pose proof (counted_mono _ _ (<[i := Idle]> ts) (waits_refers a)).
      counts Hi a Idle. rewrite Hmu in Ho. simpl in Ho.
      split; simpl; [lia..|]. exists d. rewrite Hlen. done.
Qed.

(** A lock that is not in the table gets a counter no goroutine refers to yet. *)
Lemma fresh_ctr l ts :
  inv (mkSys l ts) → (∀ m b, locks l !! m = Some b → b < length (ctrs l))%nat
  ∧ counted (refers (length (ctrs l))) ts = 0%nat.
Proof.
  intros [_ Hph _ Hc]. simpl in *.
  assert (∀ m b, locks l !! m = Some b → b < length (ctrs l))%nat as Hfresh.
  { intros m b Hm. destruct (Hc m b Hm) as (c & Hb & _). by eapply lookup_lt_Some. }
  split; [done|]. apply counted_zero. intros p Hp. rewrite Forall_forall in Hph.
  pose proof (Hph p Hp) as Hpok.
  destruct p as [|m b|m b|m b]; [done|..]; simpl in *; apply bool_decide_eq_false;
    apply Hfresh in Hpok; lia.
Qed.

Lemma inv_enter_new l ts i n a l' :
  inv (mkSys l ts) → ts !! i = Some Idle → locks l !! n = None → lock_enter l n = Return (a, l') →
  inv (mkSys l' (<[i := Entered n a]> ts)).
Proof.
  intros Hinv Hi Hn Hl. pose proof (inv_threads _ Hinv) as Ht. simpl in Ht.
  destruct (fresh_ctr _ _ Hinv) as [Hfresh Hz]. unfold lock_enter in Hl. rewrite Hn in Hl.
  simpl in Hl. rewrite lookup_app_r, Nat.sub_diag in Hl by done. simpl in Hl. simplify_eq.
  destruct Hinv as [_ Hph Hinj Hc]. simpl in *. set (a := length (ctrs l)) in *.
  pose proof (counted_mono _ _ ts (waits_refers a)).
  pose proof (counted_mono _ _ ts (owns_refers a)).
  split; simpl.
  - by rewrite length_insert.
  - apply Forall_insert; [|simpl; by rewrite lookup_insert_eq]. eapply Forall_impl; [done|].
    intros [|m b|m b|m b] Hm; simpl in *; [done|..];
      (rewrite lookup_insert_ne; [done|congruence]).
  - intros n1 n2 b Hb1 Hb2. apply lookup_insert_Some in Hb1, Hb2.
    destruct Hb1 as [[<- <-]|[? Hb1]], Hb2 as [[<- ?]|[? Hb2]]; try done; [| |by eauto];
      exfalso; [apply Hfresh in Hb2|subst; apply Hfresh in Hb1]; lia.
  - intros m b Hm. apply lookup_insert_Some in Hm as [[<- <-]|[Hne Hm]].
    + rewrite list_lookup_insert_eq by (rewrite length_app; simpl; lia).
      eexists. split; [done|]. counts Hi a (Entered n a).
      split; simpl; [rewrite to_signed_32 by lia; lia|lia..|].
      eexists. split; [done|]. rewrite length_app. simpl. lia.
    + pose proof (Hfresh _ _ Hm). destruct (Hc m b Hm) as (cb & Hcb & Hbok).
      rewrite list_lookup_insert_ne by lia. exists cb. rewrite lookup_app_l by done.
      split; [done|]. eapply (ctr_ok_frame l); try done; simpl.
      * apply bool_decide_eq_false_2. lia.
      * rewrite length_app. lia.
Qed.

Lemma inv_enter l ts i n a l' :
  inv (mkSys l ts) → ts !! i = Some Idle → lock_enter l n = Return (a, l') →
  inv (mkSys l' (<[i := Entered n a]> ts)).
Proof.
  intros Hinv Hi Hl. destruct (locks l !! n) as [b|] eqn:Hn; [|by eapply inv_enter_new].
  pose proof (inv_threads _ Hinv) as Ht. simpl in Ht. unfold lock_enter in Hl. rewrite Hn in Hl.
  destruct (inv_ctrs _ Hinv n b Hn) as (c & Hb & Hok). simpl in Hb. rewrite Hb in Hl.
  simplify_eq. apply (inv_update l ts i Idle _ a n c); try done.
  - intros b Hne. simpl. by rewrite bool_decide_eq_false_2.
  - simpl. rewrite length_app. lia.
  - intros [Hw Ho Hr _]. pose proof (counted_le (waits a) (<[i := Entered n a]> ts)).
    rewrite length_insert in *. counts Hi a (Entered n a).
    split; simpl; [rewrite Hw, to_signed_32 by lia; lia|lia..|].
    eexists. split; [done|]. rewrite length_app. simpl. lia.
Qed.

Lemma inv_step s s' : step s s' → inv s → inv s'.
Proof.
  destruct 1; intros Hinv; eauto using inv_enter, inv_acquire, inv_dec, inv_unlock.
Qed.

Lemma inv_initial n : Z.of_nat n < 2 ^ 31 → inv (initial n).
Proof.
  intros. split; simpl; [by rewrite length_replicate| |done|done].
  apply Forall_replicate. done.
Qed.

Lemma inv_reachable n s : Z.of_nat n < 2 ^ 31 → rtc step (initial n) s → inv s.
Proof.
  intros Hn. apply (rtc_ind_r (fun s => inv s)); [by apply inv_initial|].
  intros s1 s2 _ Hs Hi. by eapply inv_step.
Qed.

(** ** What the locker promises *)

(** The names a goroutine holds: it is past [nameLock.lock()]. *)
Definition holds (n : list byte) (p : phase) : Prop :=
  match p with Acquired m _ | Holding m _ => m = n | _ => False end.

(** C28: mutual exclusion.  As long as every unlock is made by the goroutine that holds
    the name, no two goroutines ever hold the same name, however the parts of their
    calls interleave. *)
Theorem locker_mutual_exclusion k s n i j p q :
  Z.of_nat k < 2 ^ 31 → rtc step (initial k) s →
  thr s !! i = Some p → thr s !! j = Some q → holds n p → holds n q → i = j.
Proof.
  intros Hk Hr Hi Hj Hp Hq. pose proof (inv_reachable _ _ Hk Hr) as Hinv.
  destruct s as [l ts]. simpl in *.
  assert (∃ a, p = Acquired n a ∨ p = Holding n a) as [a Hpa].
  { destruct p; simpl in Hp; try done; subst; eauto. }
  assert (∃ b, q = Acquired n b ∨ q = Holding n b) as [b Hqb].
  { destruct q; simpl in Hq; try done; subst; eauto. }
  destruct (holding_ctr _ _ _ _ _ _ Hinv Hi Hpa) as (Hn & c & Ha & Hok & Hmu).
  destruct (holding_ctr _ _ _ _ _ _ Hinv Hj Hqb) as (Hn' & _).
  assert (b = a) as -> by congruence.
  destruct (decide (i = j)) as [|Hij]; [done|]. exfalso.
  pose proof (ctr_mu _ _ _ _ Hok) as Ho. rewrite Hmu in Ho. simpl in Ho.
  pose proof (counted_insert (owns a) ts i p Idle Hi) as Hc.
  assert (owns a p = true) as Hop by (destruct Hpa as [-> | ->]; by apply bool_decide_eq_true_2).
  assert (owns a q = true) as Hoq by (destruct Hqb as [-> | ->]; by apply bool_decide_eq_true_2).
  assert (0 < counted (owns a) (<[i := Idle]> ts))%nat.
  { eapply (counted_pos _ _ j q); [|done]. by rewrite list_lookup_insert_ne. }
  rewrite Hop in Hc. simpl in Hc. lia.
Qed.

(** C29: under the same discipline the goroutine that holds a name can always unlock it:
    [unlock] returns nil, neither reports a missing lock nor crashes on an unlocked
    mutex or a closed channel; and a name leaves the map exactly when the last
    goroutine that refers to it is done: with all of them idle the map is empty. *)
Theorem locker_unlock_and_no_leak k s :
  Z.of_nat k < 2 ^ 31 → rtc step (initial k) s →
  (∀ i n a, thr s !! i = Some (Holding n a) → ∃ l', unlock (lk s) n = Return (l', None))
  ∧ (Forall (eq Idle) (thr s) → locks (lk s) = ∅).
Proof.
  intros Hk Hr. pose proof (inv_reachable _ _ Hk Hr) as Hinv. destruct s as [l ts]. simpl.
  split.
  - intros i n a Hi.
    destruct (unlock_spec _ _ _ n a _ Hinv Hi) as (c & chs & _ & _ & Hu); [by right|]. eauto.
  - intros Hidle. apply map_empty. intros n. destruct (locks l !! n) as [a|] eqn:Hn; [|done].
    destruct (inv_ctrs _ Hinv n a Hn) as (c & _ & Hok).
    pose proof (ctr_used _ _ _ _ Hok) as Hu. simpl in Hu. rewrite counted_zero in Hu; [lia|].
    intros p Hp. rewrite Forall_forall in Hidle. by rewrite <-(Hidle p Hp).
Qed.

(** ** A lock handed over to a waiter

    [waitLockForTimeout] waits on the channel that [unlockNotifier] answers when the
    goroutine starts.  The channel is made anew by every call of [lock] that finds the
    lock taken, and only the last one is closed. *)
Definition hand_over (l : locker) (name : list byte) : comp (nat * locker) :=
  al ← lock_enter l name;
  r ← unlock al.2 name;
  l ← lock_acquire r.1 al.1;
  l ← lock_dec l al.1;
  Return (al.1, l).

(** A lock that passes from its holder to a waiter has its timeouts mixed up.  The
    channel the new holder is told to watch is closed already, so its own timeout is
    never enforced; the channel the former holder's goroutine watches stays open, and
    when the former holder's timeout elapses that goroutine's [unlock] takes the lock
    away from the new holder. *)
Theorem handover_confuses_timeouts l name a d :
  locks l !! name = Some a → ctrs l !! a = Some (mkLockCtr true 0 (Some d)) →
  chans l !! d = Some false →
  ∃ l', hand_over l name = Return (a, l')
    ∧ mu <$> ctrs l' !! a = Some true
    ∧ (∃ d', unlockNotifier l' name = Return (Some d') ∧ chan_ready l' (Some d') = true)
    ∧ chan_ready l' (Some d) = false
    ∧ ∃ l'', unlock l' name = Return (l'', None) ∧ mu <$> ctrs l'' !! a = Some false
        ∧ locks l'' !! name = None.
Proof.
  intros Hn Ha Hd. pose proof (lookup_lt_Some _ _ _ Ha). pose proof (lookup_lt_Some _ _ _ Hd).
  set (k := length (chans l)).
  assert (∀ c, <[a := c]> (ctrs l) !! a = Some c) as Hset
    by (intros; by apply list_lookup_insert_eq).
  assert ((chans l ++ [false]) !! k = Some false) as Hk.
  { unfold k. by rewrite lookup_app_r, Nat.sub_diag by done. }
  pose proof (lookup_lt_Some _ _ _ Hk) as Hklt.
  exists (mkLocker (locks l) (<[a := mkLockCtr true 0 (Some k)]> (ctrs l))
            (<[k := true]> (chans l ++ [false]))).
  unfold hand_over, lock_enter. rewrite Hn, Ha. fold k.
  unfold set_ctr, inc. cbn [mu waiters done_ locks ctrs chans].
  change (to_signed 32 (0 + 1)) with 1. rewrite bind_return. cbn [fst snd].
  unfold unlock, count, set_ctr. cbn [locks ctrs chans]. rewrite Hn, Hset.
  cbn [waiters]. change (1 =? 0) with false. cbn iota. unfold lockCtr_unlock.
  cbn [mu waiters done_ checked]. rewrite !bind_return. cbn [done_ chan_ready chans].
  rewrite bool_decide_eq_false_2 by (rewrite Hk; done). cbn [close_chan chans]. rewrite Hk.
  rewrite !bind_return. cbn [fst snd locks ctrs chans].
  unfold lock_acquire, lock_dec, lockCtr_lock, set_ctr. cbn [ctrs].
  rewrite !list_insert_insert_eq, Hset. cbn [mu]. rewrite !bind_return. cbn [ctrs locks chans].
  rewrite !list_insert_insert_eq, Hset. rewrite !bind_return. unfold dec. cbn [mu waiters done_].
  change (to_signed 32 (1 - 1)) with 0. rewrite ?list_insert_insert_eq. split; [done|].
  assert (<[k := true]> (chans l ++ [false]) !! k = Some true) as Hkt
    by by apply list_lookup_insert_eq.
  split; [by rewrite Hset|]. split; [|split].
  - exists k. unfold unlockNotifier. cbn [locks ctrs]. rewrite Hn, Hset. split; [done|].
    by apply bool_decide_eq_true_2.
  - apply bool_decide_eq_false_2. cbn [chans].
    rewrite list_lookup_insert_ne by (unfold k; lia). rewrite lookup_app_l by done.
    by rewrite Hd.
  - rewrite Hset.
    cbn [waiters mu done_ lockCtr_unlock checked locks ctrs chans]. change (0 =? 0) with true.
    cbn iota. rewrite bind_return. cbn [done_ chan_ready chans locks ctrs].
    rewrite bool_decide_eq_true_2 by done. eexists. split; [done|]. cbn [ctrs locks].
    rewrite list_insert_insert_eq, Hset. split; [done|]. apply lookup_delete_eq.
Qed.

(** ** Examples *)
Definition the_name : list byte := [x6b].
Definition two_goroutines : sys :=
  mkSys (mkLocker {[the_name := 0%nat]} [mkLockCtr true 0 (Some 0%nat)] [false])
    [Holding the_name 0%nat; Idle].

Lemma two_goroutines_reachable : rtc step (initial 2) two_goroutines.
Proof.
  eapply rtc_l; [by apply (step_enter _ _ 0 the_name 0); vm_compute|].
  eapply rtc_l; [by apply (step_acquire _ _ 0 the_name 0); vm_compute|].
  eapply rtc_l; [by apply (step_dec _ _ 0 the_name 0); vm_compute|].
  apply rtc_refl.
Qed.

Lemma locker_mutual_exclusion_witness :
  thr two_goroutines !! 0%nat = Some (Holding the_name 0) ∧ 0%nat = 0%nat.
Proof.
  split; [done|].
  apply (locker_mutual_exclusion 2 two_goroutines the_name 0 0 (Holding the_name 0)
           (Holding the_name 0)); [lia|apply two_goroutines_reachable|done..].
Defined.

Lemma locker_unlock_and_no_leak_witness :
  ∃ l', unlock (lk two_goroutines) the_name = Return (l', None).
Proof.
  apply (proj1 (locker_unlock_and_no_leak 2 two_goroutines ltac:(lia) two_goroutines_reachable)
           0%nat the_name 0%nat). done.
Defined.

Lemma handover_confuses_timeouts_witness :
  ∃ l', hand_over (lk two_goroutines) the_name = Return (0%nat, l')
    ∧ chan_ready l' (Some 0%nat) = false.
Proof.
  destruct (handover_confuses_timeouts (lk two_goroutines) the_name 0 0)
    as (l' & Hl & _ & _ & Hc & _); [done..|]. by exists l'.
Defined.

End locker.
