(* ===== verification/KV.v ===== *)
(** What the distributed map asks of its storage engine.

    [KV] lists the calls [package olric] makes of [internal/storage]; [KVLaws] states,
    through the finite map [kv_map] a store stands for, what it relies on.  The engine
    of [storage.go] and [merge.go] implements the interface ([storage_kv],
    [storage_kv_laws]); the theorems about the cluster are proved against it. *)

From S2P Require Export Storage Merge.

(** ** The interface *)
Class KV (S : Type) := {
  kv_new : comp (serror + S);                           (* storage.New(0) *)
  kv_put : S → Z → VData → comp (S * option serror);
  kv_get : S → Z → comp (option VData * option serror);
  kv_get_raw : S → Z → comp (list byte * option serror);
  kv_put_raw : S → Z → list byte → comp (S * option serror);
  kv_check : S → Z → comp bool;
  kv_delete : S → Z → comp (S * option serror);
  kv_len : S → Z;
  kv_close : S → comp (S * option serror);
  kv_export : S → comp (serror + list byte);
  kv_import : list byte → comp (serror + S);
  kv_range : ∀ {A}, (A → Z → option VData → A * bool) → S → A → comp A;
  (* [Range] step by step, for a callback that changes the store: the number of tables,
     the keys of a table in the order of the iteration, and the entry of a key in it,
     [None] once it is gone *)
  kv_tables : S → nat;
  kv_keys_at : S → nat → list Z;
  kv_get_at : S → nat → Z → comp (option VData);
  (* a chunk of the goroutine that merges the tables in the background, if one runs *)
  kv_merge : S → comp S
}.

Class KVLaws (S : Type) `{!KV S} := {
  kv_ok : S → Prop;                (* the store is open and well formed *)
  kv_map : S → gmap Z VData;       (* the bindings a reader sees *)
  kv_room : S → VData → Prop;      (* a value the store can take *)
  kv_single : S → Z → Prop;        (* at most one copy of the key is stored *)
  kv_small : VData → Prop;         (* a value every store can take *)
  kv_raw : list byte → VData → Prop;   (* the encoded form of a value *)
  kv_quiet : S → Prop;             (* nothing runs in the background of the store *)
  kv_new_ok : ∃ s, kv_new = Return (inr s) ∧ kv_ok s ∧ kv_map s = ∅;
  kv_get_ok s h : kv_ok s →
    kv_get s h = Return (match kv_map s !! h with
                         | Some v => (Some v, None)
                         | None => (None, Some ErrKeyNotFound)
                         end);
  kv_check_ok s h : kv_ok s → kv_check s h = Return (bool_decide (is_Some (kv_map s !! h)));
  kv_put_ok s h v : kv_ok s → kv_room s v →
    ∃ s', kv_put s h v = Return (s', None) ∧ kv_ok s' ∧ kv_map s' = <[h := v]> (kv_map s)
      ∧ (∀ h', kv_single s h' → h' ≠ h ∨ kv_map s !! h = None → kv_single s' h');
  kv_delete_ok s h : kv_ok s → kv_single s h →
    ∃ s', kv_delete s h = Return (s', None) ∧ kv_ok s' ∧ kv_map s' = delete h (kv_map s)
      ∧ (∀ h', kv_single s h' → kv_single s' h');
  kv_small_room s v : kv_ok s → kv_small v → kv_room s v;
  kv_get_raw_ok s h : kv_ok s →
    match kv_map s !! h with
    | Some v => ∃ raw, kv_get_raw s h = Return (raw, None) ∧ kv_raw raw v
    | None => kv_get_raw s h = Return ([], Some ErrKeyNotFound)
    end;
  kv_put_raw_ok s h raw v : kv_ok s → kv_raw raw v → kv_small v →
    ∃ s', kv_put_raw s h raw = Return (s', None) ∧ kv_ok s' ∧ kv_map s' = <[h := v]> (kv_map s);
  kv_get_at_ok s i h : kv_ok s → (i < kv_tables s)%nat →
    ∃ r, kv_get_at s i h = Return r
      ∧ ∀ v, r = Some v → kv_single s h → kv_map s !! h = Some v;
  kv_delete_tables s h s' err : kv_delete s h = Return (s', err) → (kv_tables s ≤ kv_tables s')%nat;
  kv_absent_single s h : kv_map s !! h = None → kv_single s h;
  kv_export_ok s data : kv_ok s → kv_export s = Return (inr data) →
    ∃ s', kv_import data = Return (inr s') ∧ kv_ok s' ∧ kv_map s' = kv_map s
      ∧ ∀ h, kv_single s' h;
  kv_range_ok {A} (f : A → Z → option VData → A * bool) s :
    kv_ok s → (∀ h, kv_single s h) → ∃ l, l ≡ₚ map_to_list (kv_map s)
      ∧ ∀ a, storage.goes_on f a l → kv_range f s a = Return (storage.calls f a l);
  kv_close_ok s : kv_quiet s → ∃ s' err, kv_close s = Return (s', err);
  kv_merge_ok s : kv_ok s → ∃ s', kv_merge s = Return s' ∧ kv_ok s'
    ∧ ∀ h, kv_single s h → kv_map s' !! h = kv_map s !! h ∧ kv_single s' h
}.

(** ** The implementation

    The kernel answers [mmap] and [munmap]; the laws hold as long as it grants the
    memory that is asked for. *)
Class Kernel := {
  mmap : nat → Z → option Z;
  munmap : Z → option Z
}.
Class Granting `{Kernel} : Prop := mmap_granted i n : mmap i n = None.

(** A step of the goroutine of [mergeTables]: a chunk under the lock of the storage, and,
    when the merge is complete, the way out. *)
Definition merge_chunk `{!RangeOrder Z} (mmap : Z → option Z) (s : storage.Storage)
    : comp storage.Storage :=
  if decide (wg s = O) then Return s else
  r ← merge.chunkedMergeTables mmap s;
  Return (if r.2 : bool then storage.mkStorage (tables r.1) 0 (wg r.1 - 1) (ctx_done r.1) else r.1).

(** Two rounds of the loop of [Put] are enough for every value that has room
    ([Put_correct]); for the others no number of rounds is. *)
#[export] Instance storage_kv `{Kernel} `{!Codec storage.transport} `{!RangeOrder Z}
    : KV storage.Storage := {
  kv_new := Return (storage.New (mmap 0) 0);
  kv_put s h v := storage.Put 2 mmap s h v;
  kv_get := storage.Get;
  kv_get_raw := storage.GetRaw;
  kv_put_raw s h raw := storage.PutRaw 2 mmap s h raw;
  kv_check := storage.Check;
  kv_delete s h := storage.Delete mmap s h;
  kv_len := storage.Len;
  kv_close := storage.Close munmap;
  kv_export := storage.Export;
  kv_import := storage.Import (mmap 0);
  kv_range A f s a := storage.Range f s a;
  kv_tables s := length (storage.tables s);
  kv_keys_at s i :=
    match storage.tables s !! i with
    | Some t => range_keys (length (storage.tables s) - 1 - i) (hkeys t)
    | None => []
    end;
  kv_get_at s i h :=
    match storage.tables s !! i with
    | Some t => r ← table.get t h; Return r.1
    | None => Panic
    end;
  kv_merge := merge_chunk (mmap 0)
}.

(** The values [Put] can take: those that fit the last table or the next one. *)
Definition has_room (s : storage.Storage) (v : VData) : Prop :=
  table.vdata_ok v ∧
  match last (storage.tables s) with
  | None => False
  | Some t => table.entry_size v
              < Z.max (allocated t - offset t) (Z.max (inuse t * 2) table.minimumSize)
  end.

Lemma storage_put_ok `{Granting} s h v :
  storage.wf s → has_room s v →
  ∃ s', storage.Put 2 mmap s h v = Return (s', None) ∧ storage.wf s'
        ∧ storage.contents s' = <[h := v]> (storage.contents s) ∧ storage.one_key s s' h.
Proof.
  intros Hwf [Hv Hroom]. destruct (storage.tables_snoc s Hwf) as (ts & t & Hs).
  rewrite Hs, last_snoc in Hroom. rewrite storage.Put_unfold by done.
  pose proof (mmap_granted : ∀ i n, mmap i n = None) as Hmm.
  destruct (decide (table.entry_size v + offset t < allocated t)) as [Hf|Hf].
  - destruct (storage.put_loop_fits 1 mmap s ts t h v Hwf Hs Hv Hf) as (s' & ? & ? & ? & ? & _).
    eauto 6.
  - destruct (storage.put_loop_fits_next 0 mmap s ts t h v Hwf Hs Hv)
      as (s' & ? & ? & ? & ? & _); [lia..|done|]. eauto 6.
Qed.

Lemma storage_delete_ok `{Granting} s h :
  storage.wf s → (length (storage.copies s h) ≤ 1)%nat →
  ∃ s', storage.Delete mmap s h = Return (s', None) ∧ storage.wf s'
        ∧ storage.contents s' = delete h (storage.contents s)
        ∧ ∀ k, (length (storage.copies s k) ≤ 1)%nat → (length (storage.copies s' k) ≤ 1)%nat.
Proof.
  intros Hwf Hu.
  destruct (storage.Delete_spec mmap s h Hwf) as (s' & err & Hd & Hwf' & Hk & Ho & He).
  destruct He as [-> | (n & code & Hc & _)]; [|by rewrite mmap_granted in Hc].
  exists s'. split; [done|]. split; [done|]. split; last first.
  { intros k Hk'. destruct (decide (k = h)) as [->|Hne]; [|by rewrite Ho].
    rewrite Hk. destruct (storage.copies s h); simpl in *; lia. }
  apply map_eq. intros k. rewrite storage.lookup_contents. destruct (decide (k = h)) as [->|Hne].
  - rewrite Hk, lookup_delete_eq. by destruct (storage.copies s h) as [|? [|]]; simpl in *; [..|lia].
  - by rewrite Ho, lookup_delete_ne, storage.lookup_contents by done.
Qed.

Lemma storage_check_ok s h :
  storage.wf s →
  storage.Check s h = Return (bool_decide (is_Some (storage.contents s !! h))).
Proof.
  intros [Hne _]. unfold storage.Check. rewrite decide_False by done. f_equal.
  rewrite storage.lookup_contents, storage.check_scan_spec. fold (storage.copies s h).
  by destruct (storage.copies s h).
Qed.

Lemma storage_export_ok `{Granting} `{!Codec storage.transport} s data :
  storage.wf s → storage.Export s = Return (inr data) →
  ∃ s', storage.Import (mmap 0) data = Return (inr s') ∧ storage.wf s'
        ∧ storage.contents s' = storage.contents s ∧ storage.unique s'.
Proof.
  intros [_ Hwf] He. pose proof He as He'. unfold storage.Export in He'.
  destruct (storage.tables s) as [|t [|]] eqn:Hs; [done| |done].
  apply Forall_cons in Hwf as [Hwf _].
  destruct (storage.Export_Import_spec (mmap 0) s t data Hwf Hs (mmap_granted 0 _) He)
    as (s' & t' & ? & ? & Ht & ? & _). exists s'. split; [done|]. split; [done|]. split; [done|].
  intros h. unfold storage.copies, storage.copies_in. rewrite Ht. simpl.
  destruct (table.abs t' !! h); simpl; lia.
Qed.

(** [Close] does not wait when no merge goroutine runs. *)
Lemma storage_close_ok `{Kernel} s :
  storage.wg s = O → ∃ s' err, storage.Close munmap s = Return (s', err).
Proof.
  intros Hw. unfold storage.Close. destruct (storage.ctx_done s); [by eauto|].
  simpl. rewrite Hw. destruct (storage.close_tables _ _); eauto.
Qed.

Lemma merge_chunk_ok `{!RangeOrder Z} mmap s :
  storage.wf s →
  ∃ s', merge_chunk mmap s = Return s' ∧ storage.wf s'
    ∧ ∀ h, (length (storage.copies s h) ≤ 1)%nat →
        storage.contents s' !! h = storage.contents s !! h
        ∧ (length (storage.copies s' h) ≤ 1)%nat.
Proof.
  intros Hwf. unfold merge_chunk. case_decide as Hw; [by exists s|].
  destruct (merge.chunk_total mmap s Hwf) as (s1 & b & Hc).
  destruct (merge.chunk_copies_of _ _ _ _ Hwf Hc) as (Hwf1 & Hk & _).
  assert (∀ h, (length (storage.copies s h) ≤ 1)%nat →
    storage.contents s1 !! h = storage.contents s !! h ∧ (length (storage.copies s1 h) ≤ 1)%nat) as Hkeep.
  { intros h Hh. by rewrite !storage.lookup_contents, !Hk. }
  rewrite Hc. cbn [mbind comp_bind fst snd]. eexists. split; [done|]. by destruct b.
Qed.

(** The values that fit an empty table of the smallest size, in their raw form. *)
Definition small_value (v : VData) : Prop :=
  table.vdata_ok v ∧ table.entry_size v + 1 < table.minimumSize.

#[export] Instance small_value_dec v : Decision (small_value v).
Proof. unfold small_value. apply _. Defined.

(** The raw form of a value carries one byte more than the entry. *)
Definition raw_form (raw : list byte) (v : VData) : Prop :=
  table.raw_ok raw ∧ table.decode_at (list_reader raw) 0 = v
  ∧ len raw = table.entry_size v + 1.

Lemma storage_small_room s v : storage.wf s → small_value v → has_room s v.
Proof.
  intros Hwf [Hv Hs]. split; [done|]. destruct (storage.tables_snoc s Hwf) as (ts & t & ->).
  rewrite last_snoc. lia.
Qed.

Lemma storage_get_raw_ok s h :
  storage.wf s →
  match storage.contents s !! h with
  | Some v => ∃ raw, storage.GetRaw s h = Return (raw, None) ∧ raw_form raw v
  | None => storage.GetRaw s h = Return ([], Some ErrKeyNotFound)
  end.
Proof.
  intros [Hne Hts]. apply Forall_rev in Hts. unfold storage.GetRaw. rewrite decide_False by done.
  rewrite storage.lookup_contents. destruct (storage.copies s h) as [|v vs] eqn:Hc.
  - by apply storage.getRaw_scan_missing.
  - destruct (storage.getRaw_scan_spec (rev (storage.tables s)) h v) as (raw & -> & Hraw & Hdec & Hl);
      [done|unfold storage.copies in Hc; by rewrite Hc|].
    by exists raw.
Qed.

Lemma storage_put_raw_ok `{Granting} s h raw v :
  storage.wf s → raw_form raw v → small_value v →
  ∃ s', storage.PutRaw 2 mmap s h raw = Return (s', None) ∧ storage.wf s'
    ∧ storage.contents s' = <[h := v]> (storage.contents s).
Proof.
  intros Hwf (Hraw & <- & Hl) [_ Hs]. apply storage.PutRaw_small; [done|done|lia|].
  exact (mmap_granted : ∀ i n, mmap i n = None).
Qed.

(** An entry of a table is the binding of its key when the key is stored once. *)
Lemma storage_get_at_ok s i h :
  storage.wf s → (i < length (storage.tables s))%nat →
  ∃ r, match storage.tables s !! i with
       | Some t => r ← table.get t h; Return r.1
       | None => Panic
       end = Return r
    ∧ ∀ v, r = Some v → (length (storage.copies s h) ≤ 1)%nat → storage.contents s !! h = Some v.
Proof.
  intros [_ Hts] Hi. destruct (lookup_lt_is_Some_2 _ _ Hi) as [t Ht]. rewrite Ht.
  rewrite Forall_lookup in Hts. rewrite storage.table_get_abs by by eapply Hts. simpl.
  eexists. split; [done|]. intros v Hv Hl. rewrite storage.lookup_contents.
  assert (v ∈ storage.copies s h) as Hin.
  { unfold storage.copies, storage.copies_in. apply list_elem_of_omap. exists t. split; [|done].
    apply list_elem_of_In, in_rev. rewrite rev_involutive. apply list_elem_of_In. by eapply list_elem_of_lookup_2. }
  destruct (storage.copies s h) as [|v' [|]]; simpl in *; [by apply not_elem_of_nil in Hin| |lia].
  by apply list_elem_of_singleton in Hin as ->.
Qed.

#[export] Program Instance storage_kv_laws `{Granting} `{!Codec storage.transport}
    `{!RangeOrder Z} : KVLaws storage.Storage := {
  kv_ok := storage.wf;
  kv_map := storage.contents;
  kv_room := has_room;
  kv_single s h := (length (storage.copies s h) ≤ 1)%nat;
  kv_small := small_value;
  kv_raw := raw_form;
  kv_quiet s := storage.wg s = O
}.
Next Obligation.
  intros. cbn. unfold storage.New. rewrite storage.newTable_ok by apply mmap_granted.
  eexists. split; [done|]. split.
  - split; [done|]. simpl. constructor; [|done]. by apply storage.wf_empty_table.
  - done.
Qed.
Next Obligation. intros ? ? ? ? s h ?. cbn. rewrite storage.Get_spec by done. by destruct (storage.contents s !! h).
Qed.
Next Obligation. intros. cbn. by apply storage_check_ok. Qed.
Next Obligation.
  intros ???? s h v Hs Hv. cbn. destruct (storage_put_ok s h v Hs Hv) as (s' & ? & ? & ? & Hk1 & Hk2).
  exists s'. split; [done|]. split; [done|]. split; [done|]. intros h' Hh'.
  destruct (decide (h' = h)) as [->|Hne]; [|by rewrite Hk1]. intros [?|Hn]; [done|].
  apply Hk2. rewrite storage.lookup_contents in Hn. by destruct (storage.copies s h).
Qed.
Next Obligation. intros. cbn. by apply storage_delete_ok. Qed.
Next Obligation. intros. by apply storage_small_room. Qed.
Next Obligation. intros. cbn. by apply storage_get_raw_ok. Qed.
Next Obligation. intros. cbn. by eapply storage_put_raw_ok. Qed.
Next Obligation. intros. cbn. by apply storage_get_at_ok. Qed.
Next Obligation. intros ???? s h s' err Hd. exact (storage.Delete_tables _ _ _ _ _ Hd). Qed.
Next Obligation.
  intros ???? s h Hn. rewrite storage.lookup_contents in Hn. cbn.
  destruct (storage.copies s h); [simpl; lia|done].
Qed.
Next Obligation. intros. cbn. by eapply storage_export_ok. Qed.
Next Obligation. intros. cbn. by apply storage.Range_calls. Qed.
Next Obligation. intros. cbn. by apply storage_close_ok. Qed.
Next Obligation. intros. cbn. by apply merge_chunk_ok. Qed.

(** A kernel that always grants memory. *)
Definition granting_kernel : Kernel := {| mmap _ _ := None; munmap _ := None |}.
