(* ===== verification/Snapshot.v ===== *)
(** The snapshot engine: [internal/snapshot/snapshot.go] and [loader.go].

    Every distributed map of a node has a log of the keys that have changed since the
    last synchronisation.  A worker per partition takes the log of each of its maps,
    writes the changed entries to BadgerDB and records which keys the map has.  The
    loader reads them back when the node starts.  The logs are shared between the maps
    and the engine: they live in a heap and the engine holds references to them. *)

From S2P Require Export KV.

(** ** BadgerDB

    The database is not part of the program.  [bg_get] is [txn.Get] and the copy of the
    value, [bg_accept] says whether [txn.Set], [wb.Set] or [wb.Delete] refuses the
    operation, and [bg_commit] is the commit of a transaction or the flush of a batch:
    when it fails, any part of the operations may have been applied. *)
Inductive bop := BSet (k v : list byte) | BDelete (k : list byte).

Class Badger (B : Type) := {
  bg_get : B → list byte → Z + option (list byte);
  bg_accept : B → bop → option Z;
  bg_commit : B → list bop → B * option Z;
  bg_gc : B → B * option Z;              (* RunValueLogGC *)
  bg_close : B → option Z
}.

(** What the operations mean, and that they succeed as long as the disk does. *)
Definition bop_apply (m : gmap (list byte) (list byte)) (o : bop) : gmap (list byte) (list byte) :=
  match o with BSet k v => <[k := v]> m | BDelete k => delete k m end.

Class BadgerLaws (B : Type) `{!Badger B} := {
  bg_ok : B → Prop;
  bg_map : B → gmap (list byte) (list byte);
  bg_get_ok b k : bg_ok b → bg_get b k = inr (bg_map b !! k);
  bg_accept_ok b o : bg_ok b → bg_accept b o = None;
  bg_commit_ok b ops : bg_ok b → ∃ b', bg_commit b ops = (b', None) ∧ bg_ok b'
    ∧ bg_map b' = foldl bop_apply (bg_map b) ops
}.

Module snapshot.

Definition opPut : Z := 0.
Definition opDel : Z := 1.

Definition PrimaryDMapKey : list byte := text "primary-dmap-key".
Definition BackupDMapKey : list byte := text "backup-dmap-key".

(** The errors of the package: those of BadgerDB, of the storage and of the codec, and
    its own. *)
Inductive snerror :=
  | BadgerErr (code : Z)
  | BErrKeyNotFound
  | SnErr (e : serror)
  | ErrLoaderDone
  | ErrFirstRun.

#[export] Instance snerror_eq_decision : EqDecision snerror.
Proof. solve_decision. Defined.

(** [map[uint64]struct{}] and [onDiskDMaps]. *)
Abbreviation hkeys_map := (gmap Z unit).
Abbreviation onDiskDMaps := (gmap Z (gmap (list byte) unit)).

Definition dmapKey (partID : Z) (name : list byte) : list byte :=
  text "dmap-keys-" ++ name ++ text "-" ++ text (pretty (to_signed 64 partID)).

(** [binary.BigEndian.PutUint64(bkey, hkey)] *)
Definition bkey_of (hkey : Z) : list byte := be_encode 8 hkey.

(** ** The log of a map *)
Record OpLog (S : Type) := mkOpLog { ol_m : gmap Z Z; ol_str : S }.
Arguments mkOpLog {S} _ _.
Arguments ol_m {S} _.
Arguments ol_str {S} _.

Definition OpLog_Put {S} (o : OpLog S) (hkey : Z) : OpLog S :=
  mkOpLog (<[hkey := opPut]> (ol_m o)) (ol_str o).
Definition OpLog_Delete {S} (o : OpLog S) (hkey : Z) : OpLog S :=
  mkOpLog (<[hkey := opDel]> (ol_m o)) (ol_str o).

(** ** The engine *)

(** A worker goroutine: it runs, its context has been cancelled, or it has returned. *)
Inductive wstate := WRunning | WCanceled | WExited.
Record worker := mkWorker { w_part : Z; w_state : wstate }.

Record Snapshot (B : Type) := mkSnapshot {
  db : B;
  workers : gmap Z nat;                          (* the cancel function, by worker *)
  oplogs : gmap Z (gmap (list byte) nat);        (* the logs, by reference *)
  goroutines : list worker;
  done : bool;                                   (* s.ctx has been cancelled *)
  snapshotInterval : Z
}.
Arguments mkSnapshot {B} _ _ _ _ _ _.
Arguments db {B} _.
Arguments workers {B} _.
Arguments oplogs {B} _.
Arguments goroutines {B} _.
Arguments done {B} _.
Arguments snapshotInterval {B} _.

Definition set_db {B} (b : B) (s : Snapshot B) : Snapshot B :=
  mkSnapshot b (workers s) (oplogs s) (goroutines s) (done s) (snapshotInterval s).
Definition set_goroutines {B} (gs : list worker) (s : Snapshot B) : Snapshot B :=
  mkSnapshot (db s) (workers s) (oplogs s) gs (done s) (snapshotInterval s).

Section snapshot.
Context {S B : Type} `{!KV S} `{!Badger B}.
Context `{!Codec hkeys_map} `{!Codec onDiskDMaps} `{!RangeOrder Z} `{!RangeOrder (list byte)}.

(** *** New and the garbage collection *)
Definition defaultSnapshotInterval : Z := 100000000.      (* 100 ms *)
Definition defaultGCInterval : Z := 300000000000.         (* 5 min *)

Record Options := mkOptions { Dir : list byte; ValueDir : list byte }.

(** [getwd] is the answer of [os.Getwd], [open] is [badger.Open], [default_opt] is
    [badger.DefaultOptions].  The interval of the garbage collection goes to the
    goroutine that is started. *)
Definition New (getwd : Z + list byte) (open : Options → Z + B) (default_opt : Options)
    (opt : option Options) (interval gcInterval : Z) : snerror + Snapshot B * Z :=
  let opt := default default_opt opt in
  let with_dir (dir : list byte) :=
    let opt := mkOptions dir dir in
    let gcInterval := if gcInterval =? 0 then defaultGCInterval else gcInterval in
    let interval := if interval =? 0 then defaultSnapshotInterval else interval in
    match open opt with
    | inl err => inl (BadgerErr err)
    | inr b => inr (mkSnapshot b ∅ ∅ [] false interval, gcInterval)
    end in
  if len (Dir opt) =? 0
  then match getwd with
       | inl err => inl (BadgerErr err)
       | inr dir => with_dir dir
       end
  else with_dir (Dir opt).

(** One tick of [garbageCollection]: it runs until BadgerDB has nothing left to collect,
    which it reports as an error. *)
Fixpoint garbageCollection (fuel : nat) (b : B) : comp B :=
  match fuel with
  | O => Running
  | Datatypes.S fuel =>
      let '(b, err) := bg_gc b in
      match err with
      | None => garbageCollection fuel b
      | Some _ => Return b
      end
  end.

(** *** Synchronising one map *)
Definition flush (b : B) (ops : list bop) : B * option snerror :=
  let '(b, err) := bg_commit b ops in (b, BadgerErr <$> err).

(** The loop over the working copy of the log: the operations of the batch, the keys
    that failed, and the keys of the map. *)
Fixpoint sync_loop (b : B) (str : S) (wcopy : gmap Z Z) (ks : list Z)
    (ops : list bop) (failed : gmap Z Z) (hkeys : hkeys_map)
    : comp (list bop * gmap Z Z * hkeys_map) :=
  match ks with
  | [] => Return (ops, failed, hkeys)
  | hkey :: ks =>
      let op := default opPut (wcopy !! hkey) in
      let bkey := bkey_of hkey in
      if op =? opPut then
        r ← kv_get_raw str hkey;
        match r.2 with
        | Some err =>
            if decide (err = ErrKeyNotFound)
            then sync_loop b str wcopy ks ops failed hkeys
            else sync_loop b str wcopy ks ops (<[hkey := op]> failed) hkeys
        | None =>
            match bg_accept b (BSet bkey r.1) with
            | Some _ => sync_loop b str wcopy ks ops (<[hkey := op]> failed) hkeys
            | None => sync_loop b str wcopy ks (ops ++ [BSet bkey r.1]) failed (<[hkey := tt]> hkeys)
            end
        end
      else
        match bg_accept b (BDelete bkey) with
        | Some _ => sync_loop b str wcopy ks ops (<[hkey := op]> failed) hkeys
        | None => sync_loop b str wcopy ks (ops ++ [BDelete bkey]) failed (delete hkey hkeys)
        end
  end.

(** The keys the map has on disk. *)
Definition stored_hkeys (b : B) (partID : Z) (name : list byte) : snerror + option hkeys_map :=
  match bg_get b (dmapKey partID name) with
  | inl err => inl (BadgerErr err)
  | inr None => inr None
  | inr (Some raw) =>
      match Unmarshal raw with
      | inl err => inl (SnErr err)
      | inr hkeys => inr (Some hkeys)
      end
  end.

(** [syncDMap]: the database, the log, the keys to process again, the error. *)
Definition syncDMap (b : B) (partID : Z) (name : list byte) (oplog : OpLog S)
    : comp (B * OpLog S * gmap Z Z * option snerror) :=
  if decide (ol_m oplog = ∅) then Return (b, oplog, ∅, None) else
  let wcopy := ol_m oplog in
  let oplog := mkOpLog ∅ (ol_str oplog) in
  match stored_hkeys b partID name with
  | inl err => Return (b, oplog, ∅, Some err)
  | inr hkeys =>
      r ← sync_loop b (ol_str oplog) wcopy (range_keys 0 wcopy) [] ∅ (default ∅ hkeys);
      let '(ops, failed, hkeys) := r in
      let finish (ops : list bop) (again : gmap Z Z) :=
        let '(b, err) := flush b ops in Return (b, oplog, again, err) in
      match Marshal hkeys with
      | inl err => finish ops wcopy
      | inr data =>
          match bg_accept b (BSet (dmapKey partID name) data) with
          | Some err => finish ops wcopy
          | None => finish (ops ++ [BSet (dmapKey partID name) data]) failed
          end
      end
  end.

(** *** The workers *)

(** The closure [sync] of a worker, for the maps [names] of its partition.  The logs are
    those of the heap [logs]. *)
Fixpoint sync_names (partID : Z) (part : gmap (list byte) nat) (names : list (list byte))
    (b : B) (logs : list (OpLog S)) : comp (B * list (OpLog S)) :=
  match names with
  | [] => Return (b, logs)
  | name :: names =>
      match part !! name ≫= (fun a => pair a <$> logs !! a) with
      | None => Panic
      | Some (a, oplog) =>
          r ← syncDMap b partID name oplog;
          let '(b, oplog, failed, err) := r in
          let oplog := mkOpLog (ol_m oplog ∪ failed) (ol_str oplog) in
          sync_names partID part names b (<[a := oplog]> logs)
      end
  end.

Definition sync (s : Snapshot B) (logs : list (OpLog S)) (partID : Z)
    : comp (Snapshot B * list (OpLog S)) :=
  match oplogs s !! partID with
  | None => Return (s, logs)
  | Some part =>
      r ← sync_names partID part (range_keys 0 part) (db s) logs;
      Return (set_db r.1 s, r.2)
  end.

(** The event a worker's [select] takes. *)
Inductive wevent := EngineDone | PartitionEmpty | Tick.

Definition set_worker (i : nat) (st : wstate) (s : Snapshot B) : Snapshot B :=
  match goroutines s !! i with
  | Some w => set_goroutines (<[i := mkWorker (w_part w) st]> (goroutines s)) s
  | None => s
  end.

Definition worker_step (i : nat) (ev : wevent) (s : Snapshot B) (logs : list (OpLog S))
    : comp (Snapshot B * list (OpLog S)) :=
  match goroutines s !! i with
  | Some (mkWorker partID st) =>
      match st, ev with
      | WExited, _ => Running
      | _, EngineDone =>
          if done s then r ← sync s logs partID; Return (set_worker i WExited r.1, r.2)
          else Running
      | WCanceled, PartitionEmpty => Return (set_worker i WExited s, logs)
      | WRunning, PartitionEmpty => Running
      | _, Tick => sync s logs partID
      end
  | None => Running
  end.

(** *** Registering maps *)
Definition update (b : B) (k v : list byte) : B * option snerror :=
  match bg_accept b (BSet k v) with
  | Some err => (b, Some (BadgerErr err))
  | None => flush b [BSet k v]
  end.

Definition store_dmaps (b : B) (dkey : list byte) (value : onDiskDMaps) : B * option snerror :=
  match Marshal value with
  | inl err => (b, Some (SnErr err))
  | inr res => update b dkey res
  end.

Definition registerOnBadger (b : B) (dkey : list byte) (partID : Z) (name : list byte)
    : B * option snerror :=
  let store (value : onDiskDMaps) :=
    store_dmaps b dkey (<[partID := <[name := tt]> (default ∅ (value !! partID))]> value) in
  match bg_get b dkey with
  | inl err => (b, Some (BadgerErr err))
  | inr None => store ∅
  | inr (Some raw) =>
      match Unmarshal raw with
      | inl err => (b, Some (SnErr err))
      | inr value => store value
      end
  end.

Definition RegisterDMap (s : Snapshot B) (dkey : list byte) (partID : Z) (name : list byte)
    (oplog : nat) : Snapshot B * option snerror :=
  let '(b, err) := registerOnBadger (db s) dkey partID name in
  let s := set_db b s in
  match err with
  | Some err => (s, Some err)
  | None =>
      let logs := <[partID := <[name := oplog]> (default ∅ (oplogs s !! partID))]> (oplogs s) in
      match workers s !! partID with
      | Some _ => (mkSnapshot b (workers s) logs (goroutines s) (done s) (snapshotInterval s), None)
      | None =>
          (mkSnapshot b (<[partID := length (goroutines s)]> (workers s)) logs
             (goroutines s ++ [mkWorker partID WRunning]) (done s) (snapshotInterval s), None)
      end
  end.

Definition unregisterOnBadger (b : B) (dkey : list byte) (partID : Z) (name : list byte)
    : B * option snerror :=
  match bg_get b dkey with
  | inl err => (b, Some (BadgerErr err))
  | inr None => (b, Some BErrKeyNotFound)
  | inr (Some raw) =>
      match Unmarshal raw with
      | inl err => (b, Some (SnErr err))
      | inr value =>
          let part := delete name (default ∅ ((value : onDiskDMaps) !! partID)) in
          let value := match value !! partID with
                       | Some _ => <[partID := part]> value
                       | None => value
                       end in
          store_dmaps b dkey (if decide (part = ∅) then delete partID value else value)
      end
  end.

(** [s.workers[partID]()] *)
Definition cancel_worker (s : Snapshot B) (partID : Z) : comp (Snapshot B) :=
  match workers s !! partID with
  | None => Panic
  | Some i =>
      match goroutines s !! i with
      | Some (mkWorker _ WRunning) => Return (set_worker i WCanceled s)
      | _ => Return s
      end
  end.

Definition UnregisterDMap (s : Snapshot B) (dkey : list byte) (partID : Z) (name : list byte)
    : comp (Snapshot B * option snerror) :=
  match oplogs s !! partID with
  | None => Return (s, None)
  | Some dmaps =>
      let '(b, err) := unregisterOnBadger (db s) dkey partID name in
      let s := set_db b s in
      match err with
      | Some err => Return (s, Some err)
      | None =>
          let dmaps := delete name dmaps in
          let logs := if decide (dmaps = ∅) then delete partID (oplogs s)
                      else <[partID := dmaps]> (oplogs s) in
          let s := mkSnapshot b (workers s) logs (goroutines s) (done s) (snapshotInterval s) in
          if decide (dmaps = ∅) then s ← cancel_worker s partID; Return (s, None)
          else Return (s, None)
      end
  end.

(** The batch of [DestroyDMap]: it stops at the first operation that is refused. *)
Fixpoint destroy_loop (b : B) (ks : list Z) (ops : list bop) : Z + list bop :=
  match ks with
  | [] => inr ops
  | hkey :: ks =>
      match bg_accept b (BDelete (bkey_of hkey)) with
      | Some err => inl err
      | None => destroy_loop b ks (ops ++ [BDelete (bkey_of hkey)])
      end
  end.

Definition DestroyDMap (s : Snapshot B) (dkey : list byte) (partID : Z) (name : list byte)
    : comp (Snapshot B * option snerror) :=
  match stored_hkeys (db s) partID name with
  | inl err => Return (s, Some err)
  | inr None => Return (s, Some BErrKeyNotFound)
  | inr (Some hkeys) =>
      match destroy_loop (db s) (range_keys 0 hkeys) [] with
      | inl err => Return (s, Some (BadgerErr err))
      | inr ops =>
          let '(b, err) := flush (db s) ops in
          match err with
          | Some err => Return (set_db b s, Some err)
          | None => UnregisterDMap (set_db b s) dkey partID name
          end
      end
  end.

(** *** Shutdown: the workers synchronise for the last time, then the database closes *)
Fixpoint last_syncs (ids : list nat) (s : Snapshot B) (logs : list (OpLog S))
    : comp (Snapshot B * list (OpLog S)) :=
  match ids with
  | [] => Return (s, logs)
  | i :: ids =>
      match goroutines s !! i with
      | Some (mkWorker _ WRunning) =>
          r ← worker_step i EngineDone s logs; last_syncs ids r.1 r.2
      | Some (mkWorker _ WCanceled) =>
          r ← worker_step i PartitionEmpty s logs; last_syncs ids r.1 r.2
      | _ => last_syncs ids s logs
      end
  end.

Definition Shutdown (s : Snapshot B) (logs : list (OpLog S))
    : comp (Snapshot B * list (OpLog S) * option snerror) :=
  if done s then Return (s, logs, None) else
  let s := mkSnapshot (db s) (workers s) (oplogs s) (goroutines s) true (snapshotInterval s) in
  r ← last_syncs (seq 0 (length (goroutines s))) s logs;
  Return (r.1, r.2, BadgerErr <$> bg_close (db r.1)).

(** ** The loader *)
Record DMap := mkDMap { PartID : Z; DName : list byte; DStorage : S }.

Definition NewLoader (s : Snapshot B) (dkey : list byte) : snerror + onDiskDMaps :=
  match bg_get (db s) dkey with
  | inl err => inl (BadgerErr err)
  | inr None => inl ErrFirstRun
  | inr (Some value) =>
      match Unmarshal value with
      | inl err => inl (SnErr err)
      | inr dmaps => inr dmaps
      end
  end.

Fixpoint load_loop (b : B) (ks : list Z) (o : S) : comp (snerror + S) :=
  match ks with
  | [] => Return (inr o)
  | hkey :: ks =>
      match bg_get b (bkey_of hkey) with
      | inl err => Return (inl (BadgerErr err))
      | inr None => Return (inl BErrKeyNotFound)
      | inr (Some val) =>
          r ← kv_put_raw o hkey val;
          match r.2 with
          | Some err => Return (inl (SnErr err))
          | None => load_loop b ks r.1
          end
      end
  end.

Definition loadFromBadger (b : B) (hkeys : hkeys_map) : comp (snerror + S) :=
  r ← kv_new;
  match r with
  | inl err => Return (inl (SnErr err))
  | inr o => load_loop b (range_keys 0 hkeys) o
  end.

(** The first map the nested [range] statements of [Next] meet. *)
Fixpoint first_dmap (dmaps : onDiskDMaps) (parts : list Z) : option (Z * list byte) :=
  match parts with
  | [] => None
  | partID :: parts =>
      match range_keys 1 (default ∅ (dmaps !! partID)) with
      | [] => first_dmap dmaps parts
      | name :: _ => Some (partID, name)
      end
  end.

Definition Next (s : Snapshot B) (dmaps : onDiskDMaps) : comp (onDiskDMaps * (snerror + DMap)) :=
  match first_dmap dmaps (range_keys 0 dmaps) with
  | None => Return (dmaps, inl ErrLoaderDone)
  | Some (partID, name) =>
      match stored_hkeys (db s) partID name with
      | inl err => Return (dmaps, inl err)
      | inr None => Return (dmaps, inl BErrKeyNotFound)
      | inr (Some hkeys) =>
          r ← loadFromBadger (db s) hkeys;
          match r with
          | inl err => Return (dmaps, inl err)
          | inr o =>
              let part := delete name (default ∅ (dmaps !! partID)) in
              let dmaps := if decide (part = ∅) then delete partID dmaps
                           else <[partID := part]> dmaps in
              Return (dmaps, inr (mkDMap partID name o))
          end
      end
  end.
End snapshot.
End snapshot.
