(* ===== verification/SnapshotSpec.v ===== *)
(** What the snapshot engine promises: the log of a map and its entries on disk together
    determine the map ([log_ok]); a synchronisation empties the log; the loader restores
    the maps that have been synchronised. *)

From S2P Require Export Consistent Snapshot.

Module snapspec.
Export snapshot.

Section snapspec.
Context {S B : Type} `{!KV S} `{!KVLaws S} `{!Badger B} `{!BadgerLaws B}.
Context `{!Codec hkeys_map} `{!Codec onDiskDMaps} `{!RangeOrder Z} `{!RangeOrder (list byte)}.
Abbreviation OpLog := (snapshot.OpLog S).
Abbreviation small := (kv_small (S := S)).
Abbreviation raw_of := (kv_raw (S := S)).

(** ** Keys on disk *)
Lemma bkey_inj h1 h2 : in_uint64 h1 → in_uint64 h2 → bkey_of h1 = bkey_of h2 → h1 = h2.
Proof.
  unfold bkey_of, in_uint64. intros H1 H2 Heq. apply (f_equal be_decode) in Heq.
  rewrite !be_decode_encode in Heq. change (256 ^ Z.of_nat 8) with (2 ^ 64) in Heq.
  by rewrite !Z.mod_small in Heq.
Qed.

Lemma length_bkey h : length (bkey_of h) = 8%nat.
Proof. apply length_be_encode. Qed.

Lemma dmapKey_bkey partID name h : dmapKey partID name ≠ bkey_of h.
Proof.
  intros Heq. apply (f_equal length) in Heq. rewrite length_bkey in Heq.
  unfold dmapKey in Heq. rewrite !length_app in Heq. simpl in Heq. lia.
Qed.

Lemma dkey_bkey h : PrimaryDMapKey ≠ bkey_of h ∧ BackupDMapKey ≠ bkey_of h.
Proof. split; intros Heq; apply (f_equal length) in Heq; by rewrite length_bkey in Heq. Qed.

(** The keys a map has on disk, and the entries. *)
Definition disk_keys (m : gmap (list byte) (list byte)) (partID : Z) (name : list byte)
    : option hkeys_map :=
  match m !! dmapKey partID name with
  | Some raw => match Unmarshal raw with inr hkeys => Some hkeys | inl _ => None end
  | None => None
  end.

Record disk_content (m : gmap (list byte) (list byte)) (hkeys : hkeys_map) (C : gmap Z VData)
    : Prop := {
  dc_dom h : is_Some (hkeys !! h) ↔ is_Some (C !! h);
  dc_range h : is_Some (C !! h) → in_uint64 h;
  dc_raw h v : C !! h = Some v → ∃ raw, m !! bkey_of h = Some raw ∧ raw_of raw v
}.

(** The map [name] is saved on disk with the content [C]. *)
Definition saved (b : B) (partID : Z) (name : list byte) (C : gmap Z VData) : Prop :=
  ∃ hkeys, disk_keys (bg_map b) partID name = Some hkeys ∧ disk_content (bg_map b) hkeys C.

(** ** Loading *)
Lemma load_loop_spec b (C : gmap Z VData) ks (o : S) :
  bg_ok b → kv_ok o → map_Forall (fun _ => small) C →
  (∀ h v, C !! h = Some v → ∃ raw, bg_map b !! bkey_of h = Some raw ∧ raw_of raw v) →
  Forall (fun h => is_Some (C !! h)) ks →
  ∃ s, load_loop b ks o = Return (inr s) ∧ kv_ok s
    ∧ ∀ h, kv_map s !! h = if decide (h ∈ ks) then C !! h else kv_map o !! h.
Proof.
  intros Hb Ho Hsmall Hraw Hks. revert o Ho.
  induction Hks as [|h ks [v Hv] _ IH]; intros o Ho.
  { exists o. split; [done|]. split; [done|]. intros h. by rewrite decide_False by apply not_elem_of_nil. }
  destruct (Hraw h v Hv) as (raw & Hr & Hrv).
  destruct (kv_put_raw_ok o h raw v Ho Hrv (Hsmall h v Hv)) as (o' & Hput & Ho' & Hm).
  destruct (IH o' Ho') as (s & Hrun & Hs & Hl). exists s. split; [|split; [done|]].
  - cbn [load_loop]. by rewrite (bg_get_ok b _ Hb), Hr, Hput.
  - intros k. rewrite Hl, Hm. destruct (decide (k = h)) as [->|Hne].
    + rewrite (decide_True (P := h ∈ h :: ks)) by by apply list_elem_of_here.
      rewrite lookup_insert_eq, Hv. by destruct (decide (h ∈ ks)).
    + rewrite lookup_insert_ne by done. destruct (decide (k ∈ ks)) as [Hin|Hin].
      * by rewrite decide_True by by apply list_elem_of_further.
      * by rewrite decide_False by (rewrite elem_of_cons; tauto).
Qed.

Lemma loadFromBadger_ok b hkeys C :
  bg_ok b → map_Forall (fun _ => small) C → disk_content (bg_map b) hkeys C →
  ∃ s : S, loadFromBadger b hkeys = Return (inr s) ∧ kv_ok s ∧ kv_map s = C.
Proof.
  intros Hb Hsmall [Hdom _ Hraw]. destruct kv_new_ok as (o & Hnew & Ho & Hempty).
  destruct (load_loop_spec b C (range_keys 0 hkeys) o Hb Ho Hsmall Hraw) as (s & Hrun & Hs & Hl).
  { apply Forall_forall. intros h Hh. by apply Hdom, (elem_of_range_keys 0). }
  exists s. unfold loadFromBadger. rewrite Hnew. split; [done|]. split; [done|].
  apply map_eq. intros h. rewrite Hl, Hempty, lookup_empty.
  destruct (decide (h ∈ range_keys 0 hkeys)) as [|Hn]; [done|].
  rewrite elem_of_range_keys, Hdom in Hn. destruct (C !! h); [|done]. exfalso. by apply Hn.
Qed.

Lemma stored_hkeys_ok b partID name hkeys :
  bg_ok b → disk_keys (bg_map b) partID name = Some hkeys →
  stored_hkeys b partID name = inr (Some hkeys).
Proof.
  intros Hb Hk. unfold stored_hkeys, disk_keys in *. rewrite bg_get_ok by done.
  destruct (bg_map b !! dmapKey partID name) as [raw|]; [|done].
  destruct (Unmarshal raw); by simplify_eq.
Qed.

(** ** Synchronising *)

(** The operation the log should hold for a key of a map that is now [C]. *)
Definition op_for (C : gmap Z VData) (h : Z) : Z :=
  match C !! h with Some _ => opPut | None => opDel end.

(** What a batch of operations for the keys [ks] does to the disk. *)
Record batch_for (C : gmap Z VData) (ks : list Z) (ops : list bop) : Prop := {
  bf_put m h v : h ∈ ks → C !! h = Some v →
    ∃ raw, foldl bop_apply m ops !! bkey_of h = Some raw ∧ raw_of raw v;
  bf_other m k : k ∉ map bkey_of ks → foldl bop_apply m ops !! k = m !! k
}.

Definition touch (C : gmap Z VData) (h : Z) (hkeys : hkeys_map) : hkeys_map :=
  match C !! h with Some _ => <[h := tt]> hkeys | None => delete h hkeys end.

Lemma lookup_touch C ks hkeys h :
  foldr (touch C) hkeys ks !! h
  = if decide (h ∈ ks) then (fun _ => tt) <$> C !! h else hkeys !! h.
Proof.
  induction ks as [|k ks IH]; [by rewrite decide_False by apply not_elem_of_nil|].
  cbn [foldr]. unfold touch at 1. destruct (decide (h = k)) as [->|Hne].
  - rewrite (decide_True (P := k ∈ k :: ks)) by by apply list_elem_of_here.
    destruct (C !! k); [by rewrite lookup_insert_eq|by rewrite lookup_delete_eq].
  - assert (foldr (touch C) hkeys ks !! h
      = if decide (h ∈ k :: ks) then (fun _ => tt) <$> C !! h else hkeys !! h) as <-.
    { rewrite IH. destruct (decide (h ∈ ks)), (decide (h ∈ k :: ks)) as [Hx|Hx]; try done.
      - exfalso. apply Hx. by apply list_elem_of_further.
      - apply elem_of_cons in Hx. tauto. }
    destruct (C !! k); [by rewrite lookup_insert_ne|by rewrite lookup_delete_ne].
Qed.

(** The operation for one key. *)
Definition op_of (C : gmap Z VData) (h : Z) (o : bop) : Prop :=
  match C !! h with
  | Some v => ∃ raw, o = BSet (bkey_of h) raw ∧ raw_of raw v
  | None => o = BDelete (bkey_of h)
  end.

Lemma batch_for_cons C h ks o ops :
  op_of C h o → in_uint64 h → Forall in_uint64 ks → h ∉ ks →
  batch_for C ks ops → batch_for C (h :: ks) (o :: ops).
Proof.
  intros Ho Hh Hks Hn [Hput Hother].
  assert (bkey_of h ∉ map bkey_of ks) as Hb.
  { intros Hin. apply list_elem_of_fmap_1 in Hin as (k & Hk & Hin). rewrite Forall_forall in Hks.
    apply bkey_inj in Hk; [|done|by apply Hks]. by subst. }
  split.
  - intros m k v Hk Hv. cbn [foldl]. apply elem_of_cons in Hk as [->|Hk]; [|by apply Hput].
    unfold op_of in Ho. rewrite Hv in Ho. destruct Ho as (raw & -> & Hr). exists raw.
    rewrite Hother by done. cbn [bop_apply]. by rewrite lookup_insert_eq.
  - intros m k Hk. cbn [foldl map] in *. apply not_elem_of_cons in Hk as [Hk1 Hk2].
    rewrite Hother by done. unfold op_of in Ho. destruct (C !! h).
    + destruct Ho as (raw & -> & _). by apply lookup_insert_ne.
    + subst o. by apply lookup_delete_ne.
Qed.

Lemma sync_loop_ok b str wcopy ks ops failed hkeys :
  (∀ o, bg_accept b o = None) → kv_ok str → Forall in_uint64 ks → NoDup ks →
  Forall (fun h => wcopy !! h = Some (op_for (kv_map str) h)) ks →
  ∃ ops', sync_loop b str wcopy ks ops failed hkeys
      = Return (ops ++ ops', failed, foldr (touch (kv_map str)) hkeys (reverse ks))
    ∧ batch_for (kv_map str) ks ops'.
Proof.
  intros Hb Hs Hr Hnd Hw. revert ops hkeys.
  induction Hw as [|h ks Hh _ IH]; intros ops hkeys.
  { exists []. rewrite app_nil_r. split; [done|]. split; [|done].
    intros m h v Hh. by apply not_elem_of_nil in Hh. }
  apply Forall_cons in Hr as [Hh64 Hr]. apply NoDup_cons in Hnd as [Hn Hnd].
  specialize (IH Hr Hnd).
  assert (∃ o, op_of (kv_map str) h o
    ∧ sync_loop b str wcopy (h :: ks) ops failed hkeys
      = sync_loop b str wcopy ks (ops ++ [o]) failed (touch (kv_map str) h hkeys)) as (o & Ho & ->).
  { cbn [sync_loop]. rewrite Hh. cbn [default]. unfold op_for, op_of, touch.
    pose proof (kv_get_raw_ok str h Hs) as Hg. destruct (kv_map str !! h) as [v|].
    - destruct Hg as (raw & Hg & Hraw). exists (BSet (bkey_of h) raw). split; [by exists raw|].
      cbn. rewrite Hg. cbn. by rewrite Hb.
    - exists (BDelete (bkey_of h)). split; [done|]. cbn. by rewrite Hb. }
  destruct (IH (ops ++ [o]) (touch (kv_map str) h hkeys)) as (ops' & Hrun & Hbf).
  exists (o :: ops'). split; [|by apply batch_for_cons].
  rewrite Hrun, reverse_cons, foldr_app, <-app_assoc. done.
Qed.

(** The map of the log is what is on disk, but for the keys the log names. *)
Record log_ok (b : B) (partID : Z) (name : list byte) (o : OpLog) : Prop := {
  log_kv : kv_ok (ol_str o);
  log_range h : is_Some (ol_m o !! h) ∨ is_Some (kv_map (ol_str o) !! h) → in_uint64 h;
  log_readable : is_Some (bg_map b !! dmapKey partID name) →
    is_Some (disk_keys (bg_map b) partID name);
  log_op h op : ol_m o !! h = Some op → op = op_for (kv_map (ol_str o)) h;
  log_keys h : ol_m o !! h = None →
    is_Some (default ∅ (disk_keys (bg_map b) partID name) !! h)
    ↔ is_Some (kv_map (ol_str o) !! h);
  log_raw h v : ol_m o !! h = None → kv_map (ol_str o) !! h = Some v →
    ∃ raw, bg_map b !! bkey_of h = Some raw ∧ raw_of raw v
}.

(** Encoding a set of integers does not fail. *)
Class EncodesKeys : Prop := keys_encoded (hkeys : hkeys_map) : ∃ data, Marshal hkeys = inr data.

Lemma stored_hkeys_log b partID name o :
  bg_ok b → log_ok b partID name o →
  stored_hkeys b partID name = inr (disk_keys (bg_map b) partID name).
Proof.
  intros Hb Hlog. pose proof (log_readable _ _ _ _ Hlog) as Hr. unfold stored_hkeys, disk_keys in *.
  rewrite bg_get_ok by done. destruct (bg_map b !! dmapKey partID name) as [raw|]; [|done].
  destruct (Unmarshal raw); [|done]. by destruct Hr.
Qed.

(** The disk after the batch for the whole log, with the record of the keys. *)
Lemma batch_content b partID name o ops data :
  log_ok b partID name o → batch_for (kv_map (ol_str o)) (range_keys 0 (ol_m o)) ops →
  let hkeys := foldr (touch (kv_map (ol_str o))) (default ∅ (disk_keys (bg_map b) partID name))
                 (reverse (range_keys 0 (ol_m o))) in
  let m' := foldl bop_apply (bg_map b) (ops ++ [BSet (dmapKey partID name) data]) in
  Marshal hkeys = inr data →
  disk_keys m' partID name = Some hkeys ∧ disk_content m' hkeys (kv_map (ol_str o))
  ∧ ∀ k, k ≠ dmapKey partID name → (∀ h, is_Some (ol_m o !! h) → k ≠ bkey_of h) →
      m' !! k = bg_map b !! k.
Proof.
  intros Hlog [Hput Hother] hkeys m' Hdata.
  assert (∀ k, k ≠ dmapKey partID name → m' !! k = foldl bop_apply (bg_map b) ops !! k) as Hm'.
  { intros k Hk. unfold m'. rewrite foldl_app. cbn [foldl bop_apply]. by apply lookup_insert_ne. }
  assert (∀ k, (∀ h, is_Some (ol_m o !! h) → k ≠ bkey_of h) →
    k ∉ map bkey_of (range_keys 0 (ol_m o))) as Hout.
  { intros k Hk Hin. apply list_elem_of_fmap_1 in Hin as (h & -> & Hh).
    apply elem_of_range_keys in Hh. by apply (Hk h). }
  split; [|split].
  - unfold disk_keys, m'. rewrite foldl_app. cbn [foldl bop_apply].
    by rewrite lookup_insert_eq, (Unmarshal_Marshal _ _ Hdata).
  - split.
    + intros h. unfold hkeys. rewrite lookup_touch. destruct (ol_m o !! h) eqn:Hh.
      * rewrite decide_True; [by rewrite fmap_is_Some|].
        by rewrite elem_of_reverse, elem_of_range_keys, Hh.
      * rewrite decide_False; [by apply (log_keys _ _ _ _ Hlog)|].
        rewrite elem_of_reverse, elem_of_range_keys, Hh. by intros [].
    + intros h Hh. apply (log_range _ _ _ _ Hlog). by right.
    + intros h v Hv. rewrite Hm' by apply not_eq_sym, dmapKey_bkey.
      destruct (ol_m o !! h) eqn:Hh.
      * apply Hput; [|done]. by rewrite elem_of_range_keys, Hh.
      * rewrite Hother; [by apply (log_raw _ _ _ _ Hlog)|]. apply Hout. intros k Hk Heq.
        apply bkey_inj in Heq; [|apply (log_range _ _ _ _ Hlog); eauto..].
        subst. rewrite Hh in Hk. by destruct Hk.
  - intros k Hk Hks. rewrite Hm' by done. by apply Hother, Hout.
Qed.

(** A map without a log that is saved is in order. *)
Lemma saved_log b partID name str :
  kv_ok str → saved b partID name (kv_map str) → log_ok b partID name (mkOpLog ∅ str).
Proof.
  intros Hs (hkeys & Hk & [Hdom Hr Hraw]). split; simpl.
  - done.
  - intros h [Hh|Hh]; [by rewrite lookup_empty in Hh; destruct Hh|by apply Hr].
  - by rewrite Hk.
  - intros h op. by rewrite lookup_empty.
  - intros h _. by rewrite Hk.
  - intros h v _. apply Hraw.
Qed.

Lemma syncDMap_ok `{!EncodesKeys} b partID name o :
  bg_ok b → log_ok b partID name o →
  ∃ b', syncDMap b partID name o = Return (b', mkOpLog ∅ (ol_str o), ∅, None) ∧ bg_ok b'
    ∧ (ol_m o ≠ ∅ → saved b' partID name (kv_map (ol_str o)))
    ∧ log_ok b' partID name (mkOpLog ∅ (ol_str o))
    ∧ ∀ k, k ≠ dmapKey partID name → (∀ h, is_Some (ol_m o !! h) → k ≠ bkey_of h) →
        bg_map b' !! k = bg_map b !! k.
Proof.
  intros Hb Hlog. unfold syncDMap. destruct (decide (ol_m o = ∅)) as [Hm|Hm].
  { assert (mkOpLog ∅ (ol_str o) = o) as -> by (destruct o; simpl in Hm; by subst). by exists b. }
  rewrite (stored_hkeys_log _ _ _ _ Hb Hlog). cbn [ol_str].
  destruct (sync_loop_ok b (ol_str o) (ol_m o) (range_keys 0 (ol_m o)) [] ∅
    (default ∅ (disk_keys (bg_map b) partID name)) (fun op => bg_accept_ok b op Hb)
    (log_kv _ _ _ _ Hlog)) as (ops & -> & Hbf).
  { apply Forall_forall. intros h Hh. apply elem_of_range_keys in Hh.
    apply (log_range _ _ _ _ Hlog). by left. }
  { apply NoDup_range_keys. }
  { apply Forall_forall. intros h Hh. apply elem_of_range_keys in Hh as [op Hop].
    by rewrite Hop, (log_op _ _ _ _ Hlog h op Hop). }
  rewrite bind_return. cbn [app].
  destruct (keys_encoded (foldr (touch (kv_map (ol_str o)))
    (default ∅ (disk_keys (bg_map b) partID name)) (reverse (range_keys 0 (ol_m o))))) as [data Hdata].
  rewrite Hdata, (bg_accept_ok b _ Hb). unfold flush.
  destruct (bg_commit_ok b (ops ++ [BSet (dmapKey partID name) data]) Hb) as (b' & -> & Hb' & Hmap).
  destruct (batch_content b partID name o ops data Hlog Hbf Hdata) as (Hk & Hc & Hother).
  rewrite <-Hmap in Hk, Hc, Hother.
  assert (saved b' partID name (kv_map (ol_str o))) as Hsaved by by eexists.
  exists b'. split; [done|]. split; [done|]. split; [done|].
  split; [by apply saved_log; [apply Hlog|]|done].
Qed.

(** ** Changing the map *)
Lemma log_change b partID name o str (C : gmap Z VData) h op :
  log_ok b partID name o → in_uint64 h → kv_ok str → kv_map str = C →
  (∀ k, k ≠ h → C !! k = kv_map (ol_str o) !! k) → op = op_for C h →
  log_ok b partID name (mkOpLog (<[h := op]> (ol_m o)) str).
Proof.
  intros [Hkv Hr Hread Hop Hk Hraw] Hh Hs HC Hsame ->. split; simpl.
  - done.
  - intros k Hx. destruct (decide (k = h)) as [->|Hne]; [done|]. apply Hr.
    rewrite lookup_insert_ne in Hx by done. by rewrite HC, Hsame in Hx by done.
  - done.
  - intros k op. destruct (decide (k = h)) as [->|Hne].
    + rewrite lookup_insert_eq, HC. congruence.
    + rewrite lookup_insert_ne by done. intros Hx. unfold op_for. rewrite HC, Hsame by done.
      by apply Hop.
  - intros k Hx. destruct (decide (k = h)) as [->|Hne]; [by rewrite lookup_insert_eq in Hx|].
    rewrite lookup_insert_ne in Hx by done. rewrite HC, Hsame by done. by apply Hk.
  - intros k v Hx. destruct (decide (k = h)) as [->|Hne]; [by rewrite lookup_insert_eq in Hx|].
    rewrite lookup_insert_ne in Hx by done. rewrite HC, Hsame by done. by apply Hraw.
Qed.

(** What happens to a map and its log: puts and deletes, each followed by its entry in
    the log, and synchronisations, after which the failed keys are logged again. *)
Inductive snap_step (partID : Z) (name : list byte) : B * OpLog → B * OpLog → Prop :=
  | step_put b o h v str' :
      in_uint64 h → kv_room (ol_str o) v → kv_put (ol_str o) h v = Return (str', None) →
      snap_step partID name (b, o) (b, OpLog_Put (mkOpLog (ol_m o) str') h)
  | step_delete b o h str' :
      in_uint64 h → kv_single (ol_str o) h → kv_delete (ol_str o) h = Return (str', None) →
      snap_step partID name (b, o) (b, OpLog_Delete (mkOpLog (ol_m o) str') h)
  | step_sync b o b' o' failed err :
      syncDMap b partID name o = Return (b', o', failed, err) →
      snap_step partID name (b, o) (b', mkOpLog (ol_m o' ∪ failed) (ol_str o')).

(** A map that has just been registered. *)
Record fresh_map (b : B) (partID : Z) (name : list byte) (o : OpLog) : Prop := {
  fresh_disk : bg_map b !! dmapKey partID name = None;
  fresh_log : ol_m o = ∅;
  fresh_ok : kv_ok (ol_str o);
  fresh_map_empty : kv_map (ol_str o) = ∅
}.

Lemma fresh_log_ok b partID name o : fresh_map b partID name o → log_ok b partID name o.
Proof.
  intros [Hd Hl Hk He].
  assert (disk_keys (bg_map b) partID name = None) as Hdk by (unfold disk_keys; by rewrite Hd).
  split; rewrite ?Hl, ?He, ?Hdk, ?Hd.
  - done.
  - intros h. rewrite !lookup_empty. by intros [[]|[]].
  - by intros [].
  - intros h op. by rewrite lookup_empty.
  - intros h _. simpl. by rewrite !lookup_empty.
  - intros h v _. by rewrite lookup_empty.
Qed.

Lemma snap_step_ok `{!EncodesKeys} partID name st st' :
  snap_step partID name st st' → bg_ok st.1 ∧ log_ok st.1 partID name st.2 →
  bg_ok st'.1 ∧ log_ok st'.1 partID name st'.2.
Proof.
  intros Hstep [Hb Hlog]. destruct Hstep as [b o h v str' Hh Hroom Hput|b o h str' Hh Hs Hdel|
    b o b' o' failed err Hsync]; simpl in *.
  - split; [done|].
    destruct (kv_put_ok (ol_str o) h v (log_kv _ _ _ _ Hlog) Hroom) as (s & Hrun & Hs & Hm & _).
    rewrite Hput in Hrun. simplify_eq. apply (log_change b partID name o _ _ h _ Hlog Hh Hs eq_refl).
    + intros k Hk. by rewrite Hm, lookup_insert_ne.
    + unfold op_for. by rewrite Hm, lookup_insert_eq.
  - split; [done|].
    destruct (kv_delete_ok (ol_str o) h (log_kv _ _ _ _ Hlog) Hs) as (s & Hrun & Hok & Hm & _).
    rewrite Hdel in Hrun. simplify_eq. apply (log_change b partID name o _ _ h _ Hlog Hh Hok eq_refl).
    + intros k Hk. by rewrite Hm, lookup_delete_ne.
    + unfold op_for. by rewrite Hm, lookup_delete_eq.
  - destruct (syncDMap_ok b partID name o Hb Hlog) as (b1 & Hrun & Hb1 & _ & Hlog1 & _).
    rewrite Hsync in Hrun. simplify_eq. simpl. by rewrite (left_id_L ∅ (∪)).
Qed.

Lemma snap_steps_ok `{!EncodesKeys} partID name st st' :
  rtc (snap_step partID name) st st' → bg_ok st.1 ∧ log_ok st.1 partID name st.2 →
  bg_ok st'.1 ∧ log_ok st'.1 partID name st'.2.
Proof. induction 1 as [|st1 st2 st3 Hs _ IH]; eauto using snap_step_ok. Qed.

(** C11: a map that is new, with no record of its keys on disk, and that has been through
    any puts, deletes of keys that are stored once, and synchronisations, while nothing
    else writes to the database and the disk never fails: one more synchronisation writes
    it to disk. When its log is not empty and its values are small, it empties the log,
    leaves nothing to process again, touches no key of the database but those of the log,
    and the loader then rebuilds the map with every binding it has. *)
Theorem sync_then_load `{!EncodesKeys} b0 o0 b o partID name :
  bg_ok b0 → fresh_map b0 partID name o0 →
  rtc (snap_step partID name) (b0, o0) (b, o) → ol_m o ≠ ∅ →
  map_Forall (fun _ => small) (kv_map (ol_str o)) →
  ∃ b' hkeys str, syncDMap b partID name o = Return (b', mkOpLog ∅ (ol_str o), ∅, None)
    ∧ stored_hkeys b' partID name = inr (Some hkeys)
    ∧ loadFromBadger b' hkeys = Return (inr str) ∧ kv_map str = kv_map (ol_str o)
    ∧ ∀ k, k ≠ dmapKey partID name → (∀ h, is_Some (ol_m o !! h) → k ≠ bkey_of h) →
        bg_map b' !! k = bg_map b !! k.
Proof.
  intros Hb0 Hf Hrtc Hm Hsmall.
  destruct (snap_steps_ok _ _ _ _ Hrtc (conj Hb0 (fresh_log_ok _ _ _ _ Hf))) as [Hb Hlog].
  destruct (syncDMap_ok b partID name o Hb Hlog) as (b' & Hrun & Hb' & Hsaved & _ & Hother).
  destruct (Hsaved Hm) as (hkeys & Hk & Hc).
  destruct (loadFromBadger_ok b' hkeys _ Hb' Hsmall Hc) as (str & Hload & _ & Hmap).
  exists b', hkeys, str. split; [done|]. split; [by apply stored_hkeys_ok|]. done.
Qed.

(** ** Registering *)
Class EncodesMaps : Prop := maps_encoded (d : onDiskDMaps) : ∃ data, Marshal d = inr data.

(** The maps that are registered under a key of the database. *)
Definition registered (b : B) (dkey : list byte) (d : onDiskDMaps) : Prop :=
  match bg_map b !! dkey with
  | Some raw => Unmarshal raw = inr d
  | None => d = ∅
  end.

Lemma store_dmaps_ok `{!EncodesMaps} b dkey d :
  bg_ok b → ∃ b', store_dmaps b dkey d = (b', None) ∧ bg_ok b' ∧ registered b' dkey d
    ∧ is_Some (bg_map b' !! dkey) ∧ ∀ k, k ≠ dkey → bg_map b' !! k = bg_map b !! k.
Proof.
  intros Hb. destruct (maps_encoded d) as [data Hd]. unfold store_dmaps, update, flush.
  rewrite Hd, (bg_accept_ok b _ Hb).
  destruct (bg_commit_ok b [BSet dkey data] Hb) as (b' & -> & Hb' & Hm).
  exists b'. split; [done|]. split; [done|]. unfold registered. rewrite Hm. cbn [foldl bop_apply].
  rewrite lookup_insert_eq. split; [by apply Unmarshal_Marshal|]. split; [done|].
  intros k Hk. by apply lookup_insert_ne.
Qed.

Definition add_map (partID : Z) (name : list byte) (d : onDiskDMaps) : onDiskDMaps :=
  <[partID := <[name := tt]> (default ∅ (d !! partID))]> d.

Lemma add_map_empty partID name : add_map partID name ∅ = {[partID := {[name := tt]}]}.
Proof. unfold add_map. rewrite lookup_empty. simpl. by rewrite !insert_empty. Qed.

Lemma registerOnBadger_ok `{!EncodesMaps} b dkey d partID name :
  bg_ok b → registered b dkey d →
  ∃ b', registerOnBadger b dkey partID name = (b', None) ∧ bg_ok b'
    ∧ registered b' dkey (add_map partID name d) ∧ is_Some (bg_map b' !! dkey)
    ∧ ∀ k, k ≠ dkey → bg_map b' !! k = bg_map b !! k.
Proof.
  intros Hb Hd. unfold registerOnBadger. rewrite bg_get_ok by done. unfold registered in Hd.
  destruct (bg_map b !! dkey) as [raw|].
  - rewrite Hd. by apply (store_dmaps_ok b dkey (add_map partID name d)).
  - subst d. by apply (store_dmaps_ok b dkey (add_map partID name ∅)).
Qed.

(** The loader of a database that has the record [dkey]. *)
Lemma NewLoader_ok s dkey d :
  bg_ok (db s) → registered (db s) dkey d → is_Some (bg_map (db s) !! dkey) →
  NewLoader s dkey = inr d.
Proof.
  intros Hb Hd [raw Hr]. unfold NewLoader, registered in *. rewrite bg_get_ok by done.
  rewrite Hr in *. by rewrite Hd.
Qed.

(** A map that has been registered but never written to blocks the next start of the
    node: synchronising its empty log does not record its keys, and the loader reports a
    missing key for it instead of an empty map, or of being done. *)
Theorem unsynced_map_blocks_the_loader `{!EncodesMaps} (s : Snapshot B) dkey partID name a str :
  bg_ok (db s) → bg_map (db s) !! dkey = None → bg_map (db s) !! dmapKey partID name = None →
  dmapKey partID name ≠ dkey →
  ∃ s' dmaps, RegisterDMap s dkey partID name a = (s', None)
    ∧ syncDMap (db s') partID name (mkOpLog ∅ str) = Return (db s', mkOpLog ∅ str, ∅, None)
    ∧ NewLoader s' dkey = inr dmaps
    ∧ Next (S := S) s' dmaps = Return (dmaps, inl BErrKeyNotFound).
Proof.
  intros Hb Hd Hk Hne. assert (registered (db s) dkey ∅) as Hreg by (unfold registered; by rewrite Hd).
  destruct (registerOnBadger_ok (db s) dkey ∅ partID name Hb Hreg)
    as (b' & Hrun & Hb' & Hreg' & Hs & Hother).
  unfold RegisterDMap. rewrite Hrun. cbn [set_db workers].
  assert (∀ s', db s' = b' → NewLoader s' dkey = inr (add_map partID name ∅)
    ∧ Next (S := S) s' (add_map partID name ∅) = Return (add_map partID name ∅, inl BErrKeyNotFound)) as Hl.
  { intros s' Hs'. split; [by apply NewLoader_ok; rewrite Hs'|]. unfold Next. rewrite add_map_empty.
    rewrite range_keys_singleton. cbn [first_dmap]. rewrite lookup_singleton_eq. simpl.
    rewrite range_keys_singleton. unfold stored_hkeys. rewrite Hs', bg_get_ok, Hother, Hk by done. done. }
  destruct (workers s !! partID); eexists _, (add_map partID name ∅);
    (split; [done|]); (split; [done|]); by apply Hl.
Qed.

(** A failed flush forgets changes: the log has already been emptied, only the keys
    the batch refused are logged again, and the error is only printed; nothing is
    written and the next synchronisation has nothing to do. *)
Theorem failed_flush_forgets_changes `{!EncodesKeys} (b : B) partID name a o (logs : list OpLog) code :
  logs !! a = Some o → kv_ok (ol_str o) →
  (∀ h op, ol_m o !! h = Some op → in_uint64 h ∧ op = op_for (kv_map (ol_str o)) h) →
  bg_get b (dmapKey partID name) = inr None → (∀ op, bg_accept b op = None) →
  (∀ ops, bg_commit b ops = (b, Some code)) →
  let logs' := <[a := mkOpLog ∅ (ol_str o)]> logs in
  sync_names partID {[name := a]} [name] b logs = Return (b, logs')
  ∧ sync_names partID {[name := a]} [name] b logs' = Return (b, logs').
Proof.
  intros Ha Hs Hlog Hget Hacc Hcommit logs'.
  assert (logs' !! a = Some (mkOpLog ∅ (ol_str o))) as Ha'
    by (apply list_lookup_insert_eq; by eapply lookup_lt_Some).
  split.
  - cbn [sync_names]. rewrite lookup_singleton_eq. cbn. rewrite Ha. cbn.
    unfold syncDMap. case_decide as Hm.
    { cbn. rewrite Hm, (left_id_L ∅ (∪)). done. }
    unfold stored_hkeys. rewrite Hget.
    destruct (sync_loop_ok b (ol_str o) (ol_m o) (range_keys 0 (ol_m o)) [] ∅ ∅ Hacc Hs)
      as (ops & Hrun & _).
    { apply Forall_forall. intros h Hh. apply elem_of_range_keys in Hh as [op Hop]. by eapply Hlog. }
    { apply NoDup_range_keys. }
    { apply Forall_forall. intros h Hh. apply elem_of_range_keys in Hh as [op Hop].
      rewrite Hop. by destruct (Hlog h op Hop) as [_ <-]. }
    cbn [default ol_str]. setoid_rewrite Hrun. rewrite bind_return. cbn beta iota zeta.
    destruct (keys_encoded (foldr (touch (kv_map (ol_str o))) ∅ (reverse (range_keys 0 (ol_m o)))))
      as [data Hdata]. rewrite Hdata, Hacc. unfold flush. rewrite Hcommit. cbn beta iota zeta.
    rewrite bind_return. cbn beta iota zeta. cbn [ol_m ol_str]. by rewrite (left_id_L ∅ (∪)).
  - cbn [sync_names]. rewrite lookup_singleton_eq. cbn. rewrite Ha'. cbn.
    unfold syncDMap. rewrite decide_True by done. cbn. rewrite (left_id_L ∅ (∪)). unfold logs'. by rewrite list_insert_insert_eq.
Qed.

(** ** Two maps with one key on disk *)
Lemma dmapKey_inj partID name1 name2 : dmapKey partID name1 = dmapKey partID name2 → name1 = name2.
Proof.
  unfold dmapKey. intros Heq. by apply app_inv_head, app_inv_tail in Heq.
Qed.

Lemma log_ok_frame b b' partID name o :
  log_ok b partID name o → bg_map b' !! dmapKey partID name = bg_map b !! dmapKey partID name →
  (∀ h, ol_m o !! h = None → is_Some (kv_map (ol_str o) !! h) →
     bg_map b' !! bkey_of h = bg_map b !! bkey_of h) →
  log_ok b' partID name o.
Proof.
  intros [Hkv Hr Hread Hop Hk Hraw] Hd Hsame.
  assert (disk_keys (bg_map b') partID name = disk_keys (bg_map b) partID name) as Hdk
    by (unfold disk_keys; by rewrite Hd).
  split; rewrite ?Hdk, ?Hd; try done.
  intros h v Hh Hv. rewrite Hsame by done. by apply Hraw.
Qed.

Lemma saved_raw b partID name C h v :
  saved b partID name C → C !! h = Some v →
  ∃ raw, bg_map b !! bkey_of h = Some raw ∧ raw_of raw v.
Proof. intros (hkeys & _ & [_ _ Hraw]). apply Hraw. Qed.

(** The entries of all maps share one key space on disk, the hash of the name of the
    map followed by the key: when the name and the key of one map read like those of
    another, the entry that is synchronised last replaces the other, and the loader
    restores the first map with the value of the second. *)
Theorem maps_share_their_keys_on_disk `{!EncodesKeys} `{!Hasher} b partID name1 name2 key1 key2 o1 o2 v1 v2 :
  let h := Sum64 (name1 ++ key1) in
  name1 ++ key1 = name2 ++ key2 → name1 ≠ name2 → bg_ok b →
  log_ok b partID name1 o1 → log_ok b partID name2 o2 →
  kv_map (ol_str o1) = {[h := v1]} → kv_map (ol_str o2) = {[Sum64 (name2 ++ key2) := v2]} →
  is_Some (ol_m o1 !! h) → is_Some (ol_m o2 !! h) → small v2 →
  ∃ b1 b2 hkeys str, syncDMap b partID name1 o1 = Return (b1, mkOpLog ∅ (ol_str o1), ∅, None)
    ∧ syncDMap b1 partID name2 o2 = Return (b2, mkOpLog ∅ (ol_str o2), ∅, None)
    ∧ stored_hkeys b2 partID name1 = inr (Some hkeys)
    ∧ loadFromBadger b2 hkeys = Return (inr str) ∧ kv_map str = {[h := v2]}.
Proof.
  intros h Hkeys Hne Hb Hlog1 Hlog2 HC1 HC2 Hm1 Hm2 Hsmall. rewrite <-Hkeys in HC2. fold h in HC2.
  destruct (syncDMap_ok b partID name1 o1 Hb Hlog1) as (b1 & Hrun1 & Hb1 & Hsaved1 & _ & Hother1).
  assert (log_ok b1 partID name2 o2) as Hlog2'.
  { apply (log_ok_frame b); [done|..].
    - apply Hother1; [intros Heq; by apply dmapKey_inj in Heq|]. intros k _. apply dmapKey_bkey.
    - intros k Hk Hs. rewrite HC2, lookup_singleton_is_Some in Hs. subst k.
      rewrite Hk in Hm2. by destruct Hm2. }
  destruct (syncDMap_ok b1 partID name2 o2 Hb1 Hlog2') as (b2 & Hrun2 & Hb2 & Hsaved2 & _ & Hother2).
  destruct Hsaved1 as (hkeys & Hk & Hc).
  { intros Hm. rewrite Hm, lookup_empty in Hm1. by destruct Hm1. }
  destruct (saved_raw b2 partID name2 _ h v2 (Hsaved2 ltac:(intros Hm; rewrite Hm, lookup_empty in Hm2;
    by destruct Hm2))) as (raw & Hraw & Hrv); [by rewrite HC2, lookup_singleton_eq|].
  assert (disk_keys (bg_map b2) partID name1 = Some hkeys) as Hk2.
  { unfold disk_keys in *. rewrite Hother2; [done|intros Heq; by apply dmapKey_inj in Heq|].
    intros k _. apply dmapKey_bkey. }
  assert (disk_content (bg_map b2) hkeys {[h := v2]}) as Hc2.
  { destruct Hc as [Hdom Hr _]. rewrite HC1 in Hdom, Hr.
    split.
    - intros k. by rewrite Hdom, !lookup_singleton_is_Some.
    - intros k Hk'. apply Hr. rewrite lookup_singleton_is_Some in *. done.
    - intros k w Hw. apply lookup_singleton_Some in Hw as [<- <-]. by exists raw. }
  destruct (loadFromBadger_ok b2 hkeys {[h := v2]} Hb2) as (str & Hload & _ & Hmap); [|done|].
  { by apply map_Forall_singleton. }
  exists b1, b2, hkeys, str. split; [done|]. split; [done|]. split; [by apply stored_hkeys_ok|done].
Qed.

(** ** The worker of a partition *)
Definition part_workers (s : Snapshot B) (partID : Z) : list wstate :=
  map w_state (filter (fun w => w_part w = partID) (goroutines s)).

Lemma unregisterOnBadger_last `{!EncodesMaps} b dkey partID name :
  bg_ok b → registered b dkey (add_map partID name ∅) → is_Some (bg_map b !! dkey) →
  ∃ b', unregisterOnBadger b dkey partID name = (b', None) ∧ bg_ok b' ∧ registered b' dkey ∅.
Proof.
  intros Hb Hreg [raw Hr]. unfold unregisterOnBadger, registered in *. rewrite bg_get_ok by done.
  rewrite Hr in *. rewrite Hreg, add_map_empty, lookup_singleton_eq. simpl.
  rewrite delete_singleton_eq, decide_True by done.
  rewrite insert_singleton_eq, delete_singleton_eq.
  destruct (store_dmaps_ok b dkey ∅ Hb) as (b' & Hrun & Hb' & Hreg' & _). by exists b'.
Qed.

(** A partition whose last map has been unregistered is not synchronised any more:
    its worker stops, but stays in the table of workers, and a map that is registered
    later does not get a new one. *)
Theorem reregistered_partition_has_no_worker `{!EncodesMaps} (s : Snapshot B) dkey partID name a1 a2 :
  bg_ok (db s) → registered (db s) dkey ∅ → oplogs s !! partID = None →
  workers s !! partID = None → part_workers s partID = [] →
  ∃ s1 s2 s3, RegisterDMap s dkey partID name a1 = (s1, None)
    ∧ part_workers s1 partID = [WRunning]
    ∧ UnregisterDMap s1 dkey partID name = Return (s2, None)
    ∧ RegisterDMap s2 dkey partID name a2 = (s3, None)
    ∧ oplogs s3 !! partID = Some {[name := a2]}
    ∧ part_workers s3 partID = [WCanceled].
Proof.
  intros Hb Hreg Hlogs Hw Hgs.
  destruct (registerOnBadger_ok (db s) dkey ∅ partID name Hb Hreg) as (b1 & Hr1 & Hb1 & Hreg1 & Hs1 & _).
  destruct (unregisterOnBadger_last b1 dkey partID name Hb1 Hreg1 Hs1) as (b2 & Hr2 & Hb2 & Hreg2).
  destruct (registerOnBadger_ok b2 dkey ∅ partID name Hb2 Hreg2) as (b3 & Hr3 & Hb3 & _).
  set (g := length (goroutines s)).
  assert (∀ st, part_workers (mkSnapshot b1 ∅ ∅ (goroutines s ++ [mkWorker partID st]) false 0) partID
    = [st]) as Hpw.
  { intros st. unfold part_workers in *. cbn [goroutines]. rewrite filter_app, map_app, Hgs. simpl.
    by rewrite filter_cons_True. }
  eexists _, _, _. split; [|split; [|split; [|split; [|split]]]].
  - unfold RegisterDMap. rewrite Hr1. cbn [set_db workers]. rewrite Hw. done.
  - exact (Hpw WRunning).
  - unfold UnregisterDMap. cbn [oplogs db]. rewrite lookup_insert_eq. cbn [set_db oplogs].
    rewrite Hr2. rewrite Hlogs. simpl. rewrite insert_empty, delete_singleton_eq.
    rewrite decide_True by done. unfold cancel_worker. cbn [workers goroutines].
    rewrite lookup_insert_eq. fold g. rewrite lookup_app_r, Nat.sub_diag by done. simpl.
    unfold set_worker. cbn [goroutines]. rewrite lookup_app_r, Nat.sub_diag by done. simpl.
    unfold set_goroutines. simpl. rewrite insert_app_r_alt, Nat.sub_diag by done. done.
  - unfold RegisterDMap. cbn [db set_db oplogs workers]. rewrite Hr3. cbn [set_db workers].
    by rewrite lookup_insert_eq.
  - cbn [oplogs]. rewrite lookup_insert_eq, decide_True, lookup_delete_eq by done. simpl.
    by rewrite insert_empty.
  - exact (Hpw WCanceled).
Qed.

(** ** The loader *)
Definition has_map (l : onDiskDMaps) (partID : Z) (name : list byte) : Prop :=
  is_Some (default ∅ (l !! partID) !! name).

Definition drop_map (partID : Z) (name : list byte) (l : onDiskDMaps) : onDiskDMaps :=
  let part := delete name (default ∅ (l !! partID)) in
  if decide (part = ∅) then delete partID l else <[partID := part]> l.

(** No partition is listed without maps. *)
Definition compact (l : onDiskDMaps) : Prop := map_Forall (fun _ part => part ≠ ∅) l.

Definition count_maps (l : onDiskDMaps) : Z := map_sum (fun part => Z.of_nat (size part)) l.

Lemma first_dmap_ok l :
  compact l → l ≠ ∅ → ∃ partID name,
    first_dmap l (range_keys 0 l) = Some (partID, name) ∧ has_map l partID name.
Proof.
  intros Hc Hl. destruct (range_keys_head 0 l Hl) as (partID & ks & part & -> & Hp).
  destruct (range_keys_head 1 part (Hc _ _ Hp)) as (name & ns & [] & Hn & Hx).
  exists partID, name. unfold has_map. cbn [first_dmap]. rewrite Hp. simpl. by rewrite Hn, Hx.
Qed.

Lemma has_map_drop l partID name p n :
  has_map (drop_map partID name l) p n ↔ has_map l p n ∧ (p, n) ≠ (partID, name).
Proof.
  assert (default ∅ (drop_map partID name l !! p)
    = if decide (p = partID) then delete name (default ∅ (l !! partID)) else default ∅ (l !! p)) as Hd.
  { unfold drop_map. destruct (decide (p = partID)) as [->|Hne]; destruct (decide (delete _ _ = ∅)) as [He|].
    - by rewrite lookup_delete_eq, He.
    - by rewrite lookup_insert_eq.
    - by rewrite lookup_delete_ne.
    - by rewrite lookup_insert_ne. }
  unfold has_map. rewrite Hd. destruct (decide (p = partID)) as [->|Hne].
  - rewrite lookup_delete_is_Some. split.
    + intros [Hn Hx]. split; [done|congruence].
    + intros [Hx Hn]. split; [congruence|done].
  - split; [|by intros []]. intros Hx. split; [done|congruence].
Qed.

Lemma compact_drop l partID name : compact l → compact (drop_map partID name l).
Proof.
  intros Hc p part. unfold drop_map. case_decide as He; intros Hp.
  - apply lookup_delete_Some in Hp as [_ Hp]. by eapply Hc.
  - apply lookup_insert_Some in Hp as [[<- <-]|[_ Hp]]; [done|by eapply Hc].
Qed.

Lemma count_drop l partID name :
  has_map l partID name → count_maps l = 1 + count_maps (drop_map partID name l).
Proof.
  unfold has_map, count_maps, drop_map. destruct (l !! partID) as [part|] eqn:Hp; simpl;
    [|rewrite lookup_empty; by intros []].
  intros [[] Hn]. rewrite (map_sum_delete _ l partID part Hp).
  assert (Z.of_nat (size part) = 1 + Z.of_nat (size (delete name part))) as Hsize.
  { rewrite map_size_delete, Hn. assert (size part ≠ 0%nat); [|lia].
    intros H0. apply map_size_empty_inv in H0. by rewrite H0, lookup_empty in Hn. }
  case_decide as He.
  - rewrite He, map_size_empty in Hsize. lia.
  - rewrite <-insert_delete_eq, map_sum_insert by apply lookup_delete_eq. lia.
Qed.

(** The maps of the list are on disk, with the contents [C]. *)
Definition loadable (b : B) (l : onDiskDMaps) (C : Z → list byte → gmap Z VData) : Prop :=
  ∀ partID name, has_map l partID name →
    saved b partID name (C partID name) ∧ map_Forall (fun _ => small) (C partID name).

Lemma Next_ok s l C :
  bg_ok (db s) → compact l → l ≠ ∅ → loadable (db s) l C →
  ∃ partID name str, has_map l partID name
    ∧ Next s l = Return (drop_map partID name l, inr (mkDMap partID name str))
    ∧ kv_ok str ∧ kv_map str = C partID name.
Proof.
  intros Hb Hc Hl HC. destruct (first_dmap_ok l Hc Hl) as (partID & name & Hf & Hh).
  destruct (HC partID name Hh) as [(hkeys & Hk & Hd) Hs].
  destruct (loadFromBadger_ok (db s) hkeys _ Hb Hs Hd) as (str & Hload & Hok & Hm).
  exists partID, name, str. split; [done|]. split; [|done].
  unfold Next. rewrite Hf, (stored_hkeys_ok _ _ _ _ Hb Hk), Hload. done.
Qed.

Lemma Next_done s : Next (S := S) s ∅ = Return (∅, inl ErrLoaderDone).
Proof.
  unfold Next. pose proof (range_keys_perm 0 (∅ : onDiskDMaps)) as Hp.
  rewrite map_to_list_empty in Hp. apply Permutation_nil_r in Hp. by rewrite Hp.
Qed.
End snapspec.
End snapspec.
