(* ===== verification/Cluster.v ===== *)
(** The cluster: the state of the nodes and the calls between them ([olric.go],
    [internal/transport/client.go] and [server.go]).

    A node is an [Olric] value: its partitions and backups, the distributed maps they
    hold (in a heap, because goroutines share them), its view of the members and of the
    ring, and its clock.  The nodes of a cluster are known by their address, which is
    their name.  A call to another node encodes the request with [protocol.Write],
    decodes it on the other side with [protocol.Read], runs the handler there and sends
    the response back the same way; the network may lose either message.  The handlers
    are a parameter [serve] of the operations: [Dispatch.v] ties the knot. *)

From S2P Require Export KV Snapshot Protocol Locker Consistent.

Module olric.
Export protocol(Message, mkMessage, Header, mkHeader, perror, extra).
#[export] Existing Instances protocol.perror_eq_decision protocol.message_eq_decision
  snapshot.snerror_eq_decision.

(** ** Data *)
Record host := mkHost { Birthdate : Z; Name : list byte }.

#[export] Instance host_eq_decision : EqDecision host.
Proof. solve_decision. Defined.

#[export] Instance host_member : Member host := Name.

(** A node as [memberlist] knows it: its name and the encoded metadata. *)
Record Node := mkNode { node_Name : list byte; node_Meta : list byte }.

(** [host.String()] *)
Definition host_String (h : host) : list byte := Name h.

Definition hostCmp (o1 o2 : host) : bool :=
  bool_decide (Name o1 = Name o2) && (Birthdate o1 =? Birthdate o2).

Definition SyncBackupMode : Z := 0.
Definition AsyncBackupMode : Z := 1.
Definition OpInMemory : Z := 0.
Definition OpInMemoryWithSnapshot : Z := 1.

Record Config := mkConfig {
  PartitionCount : Z;
  BackupCount : Z;
  BackupMode : Z;
  OperationMode : Z;
  MaxValueSize : Z;
  LoadFactor : consistent.float64
}.

(** The errors of [package olric].  [EStorage], [ESnap] and [ENet] are errors of the
    other packages, [EText] is any error known by its text. *)
Inductive oerror :=
  | OErrKeyNotFound
  | ErrOperationTimeout
  | ErrInternalServerError (wrapped : list byte)
  | errPartNotEmpty
  | errBackupNotEmpty
  | OErrNoSuchLock
  | errHostNotFound
  | EStorage (e : serror)
  | ESnap (e : snapshot.snerror)
  | ENet (e : perror)
  | EText (msg : list byte).

#[export] Instance oerror_eq_decision : EqDecision oerror.
Proof. solve_decision. Defined.

(** What the code takes from its environment: the hash function of the configuration
    and the texts of the errors of the system and of the codec. *)
Class Env := {
  hasher :: Hasher;
  errno_text : Z → list byte;
  msgpack_text : Z → list byte;
  dial_text : list byte → list byte     (* why an address cannot be reached *)
}.

Definition serror_text `{Env} (e : serror) : list byte :=
  match e with
  | errNotEnoughSpace => text "not enough space"
  | ErrKeyTooLarge => text "key too large"
  | ErrKeyNotFound => text "key not found"
  | ErrFragmented => text "storage fragmented"
  | Errno code => errno_text code
  | ErrMsgpack code => msgpack_text code
  end.

Definition snerror_text `{Env} (e : snapshot.snerror) : list byte :=
  match e with
  | snapshot.BadgerErr code => errno_text code
  | snapshot.BErrKeyNotFound => text "Key not found"
  | snapshot.SnErr e => serror_text e
  | snapshot.ErrLoaderDone => text "loader done"
  | snapshot.ErrFirstRun => text "first run"
  end.

Definition perror_text (e : perror) : list byte :=
  match e with
  | protocol.IOEOF => text "EOF"
  | protocol.ErrUnexpectedEOF => text "unexpected EOF"
  | protocol.IOErr msg => msg
  | protocol.ErrConnClosed => text "connection closed"
  | protocol.ErrInvalidMessage => text "invalid message"
  | protocol.ErrValueTooBig => text "value too big"
  end.

(** [err.Error()] *)
Definition error_text `{Env} (e : oerror) : list byte :=
  match e with
  | OErrKeyNotFound => text "key not found"
  | ErrOperationTimeout => text "operation timeout"
  | ErrInternalServerError w => w ++ text ": internal server error"
  | errPartNotEmpty => text "partition not empty"
  | errBackupNotEmpty => text "backup not empty"
  | OErrNoSuchLock => text "no such lock"
  | errHostNotFound => text "host not found"
  | EStorage e => serror_text e
  | ESnap e => snerror_text e
  | ENet e => perror_text e
  | EText msg => msg
  end.

(** What [package olric] asks of [internal/snapshot], on the state [N] of a snapshot
    engine; the flag tells the key of the primary copies from that of the backups.  A map
    is registered by the reference of its object, which holds the log of its operations;
    the calls that read the logs take all of them. *)
Class Snap (S N : Type) := {
  RegisterDMap : N → bool → Z → list byte → nat → comp (N * option snapshot.snerror);
  UnregisterDMap : N → bool → Z → list byte → comp (N * option snapshot.snerror);
  DestroyDMap : N → bool → Z → list byte → comp (N * option snapshot.snerror);
  NewLoader : N → bool → snapshot.snerror + snapshot.onDiskDMaps;
  Next : N → snapshot.onDiskDMaps →
    comp (snapshot.onDiskDMaps * (snapshot.snerror + snapshot.DMap (S := S)));
  worker_step : nat → snapshot.wevent → N → list (snapshot.OpLog S) →
    comp (N * list (snapshot.OpLog S));
  snap_Shutdown : N → list (snapshot.OpLog S) →
    comp (N * list (snapshot.OpLog S) * option snapshot.snerror)
}.

Abbreviation opPut := snapshot.opPut.
Abbreviation opDel := snapshot.opDel.

(** The engine of [Snapshot.v]. *)
Definition dkey_of (bk : bool) : list byte :=
  if bk then snapshot.BackupDMapKey else snapshot.PrimaryDMapKey.

#[export] Instance snapshot_snap {S B : Type} `{!KV S} `{!Badger B} `{!Codec snapshot.hkeys_map}
    `{!Codec snapshot.onDiskDMaps} `{!RangeOrder Z} `{!RangeOrder (list byte)}
    : Snap S (snapshot.Snapshot B) := {
  RegisterDMap s bk partID name dm := Return (snapshot.RegisterDMap s (dkey_of bk) partID name dm);
  UnregisterDMap s bk partID name := snapshot.UnregisterDMap s (dkey_of bk) partID name;
  DestroyDMap s bk partID name := snapshot.DestroyDMap s (dkey_of bk) partID name;
  NewLoader s bk := snapshot.NewLoader s (dkey_of bk);
  Next := snapshot.Next;
  worker_step := snapshot.worker_step;
  snap_Shutdown := snapshot.Shutdown
}.

(** ** The state of a node *)
Record dmap (S : Type) := mkDmap {
  dm_mu : bool;                       (* the mutex of the map is locked *)
  dm_locker : option locker.locker;   (* nil or the named locks *)
  dm_oplog : option (gmap Z Z);       (* nil or the operations not yet on disk *)
  dm_str : S
}.
Arguments mkDmap {S} _ _ _ _.
Arguments dm_mu {S} _.
Arguments dm_locker {S} _.
Arguments dm_oplog {S} _.
Arguments dm_str {S} _.

Record partition := mkPartition {
  p_count : Z;                        (* int32 *)
  p_id : Z;
  p_backup : bool;
  p_m : gmap (list byte) nat;         (* the maps, by reference *)
  p_owners : list host
}.

(** [bcx]: the node waits to be bootstrapped, it was, or the wait timed out. *)
Inductive bootstrap := BootPending | BootCanceled | BootDeadlineExceeded.

Record Olric (S N : Type) := mkOlric {
  this : host;
  config : Config;
  members : list Node;                (* memberlist.Members() *)
  ring : consistent.Consistent host;  (* db.consistent *)
  partitions : gmap Z partition;
  backups : gmap Z partition;
  heap : list (dmap S);
  snapshot : N;
  bcx : bootstrap;
  currentUnixNano : Z
}.
Arguments mkOlric {S N} _ _ _ _ _ _ _ _ _ _.
Arguments this {S N} _.
Arguments config {S N} _.
Arguments members {S N} _.
Arguments ring {S N} _.
Arguments partitions {S N} _.
Arguments backups {S N} _.
Arguments heap {S N} _.
Arguments snapshot {S N} _.
Arguments bcx {S N} _.
Arguments currentUnixNano {S N} _.

(** The goroutines that outlive the call that starts them. *)
Inductive task :=
  | TaskBackup (node : list byte) (hkey : Z) (name key value : list byte) (timeout : Z)
  | TaskLockTimeout (node : list byte) (dm : nat) (key : list byte) (timeout : Z)
  | TaskFsck (node : list byte).

(** What happens to a request: it is answered, it is lost before the handler runs, or
    its response is lost after the handler has run. *)
Inductive fault := Delivered | RequestLost (e : perror) | ResponseLost (e : perror).

Record cluster (S N : Type) := mkCluster {
  nodes : gmap (list byte) (Olric S N);
  net : list fault;                   (* the fate of the next requests *)
  tasks : list task                   (* the goroutines started so far *)
}.
Arguments mkCluster {S N} _ _ _.
Arguments nodes {S N} _.
Arguments net {S N} _.
Arguments tasks {S N} _.

(** ** The monad of the code that runs on the nodes *)
Definition M (S N A : Type) : Type := cluster S N → comp (A * cluster S N).

#[export] Instance M_ret {S N} : MRet (M S N) := fun A x c => Return (x, c).
#[export] Instance M_bind {S N} : MBind (M S N) := fun A B k m c =>
  match m c with
  | Return (x, c) => k x c
  | Panic => Panic
  | Running => Running
  end.

Definition lift {S N A} (m : comp A) : M S N A := fun c => x ← m; Return (x, c).
Definition panic {S N A} : M S N A := fun _ => Panic.
(** The caller waits for something that no one else will do: it never returns. *)
Definition block {S N A} : M S N A := fun _ => Running.

Section olric.
Context {S N : Type} `{!KV S} `{!Snap S N} `{!Env}.
Abbreviation M := (M S N).
Abbreviation Olric := (Olric S N).
Abbreviation cluster := (cluster S N).

(** The node the code runs on. *)
Definition get_node (n : list byte) : M Olric := fun c =>
  match nodes c !! n with
  | Some db => Return (db, c)
  | None => Panic
  end.

Definition put_node (n : list byte) (db : Olric) : M unit := fun c =>
  Return (tt, mkCluster (<[n := db]> (nodes c)) (net c) (tasks c)).

Definition go (t : task) : M unit := fun c =>
  Return (tt, mkCluster (nodes c) (net c) (tasks c ++ [t])).

(** The fate of the next request. *)
Definition next_fault : M fault := fun c =>
  match net c with
  | [] => Return (Delivered, c)
  | f :: fs => Return (f, mkCluster (nodes c) fs (tasks c))
  end.

(** Whether a server listens at the address. *)
Definition is_up (addr : list byte) : M bool := fun c =>
  Return (bool_decide (is_Some (nodes c !! addr)), c).

Definition set_heap (h : list (dmap S)) (db : Olric) : Olric :=
  mkOlric (this db) (config db) (members db) (ring db) (partitions db) (backups db) h
    (snapshot db) (bcx db) (currentUnixNano db).
Definition set_snapshot (x : N) (db : Olric) : Olric :=
  mkOlric (this db) (config db) (members db) (ring db) (partitions db) (backups db)
    (heap db) x (bcx db) (currentUnixNano db).
Definition set_bcx (x : bootstrap) (db : Olric) : Olric :=
  mkOlric (this db) (config db) (members db) (ring db) (partitions db) (backups db)
    (heap db) (snapshot db) x (currentUnixNano db).

Definition set_ring (r : consistent.Consistent host) (db : Olric) : Olric :=
  mkOlric (this db) (config db) (members db) r (partitions db) (backups db)
    (heap db) (snapshot db) (bcx db) (currentUnixNano db).

(** The partition table of the primary copies or of the backups. *)
Definition table_of (bk : bool) (db : Olric) : gmap Z partition :=
  if bk then backups db else partitions db.
Definition set_part (bk : bool) (p : partition) (db : Olric) : Olric :=
  mkOlric (this db) (config db) (members db) (ring db)
    (if bk then partitions db else <[p_id p := p]> (partitions db))
    (if bk then <[p_id p := p]> (backups db) else backups db)
    (heap db) (snapshot db) (bcx db) (currentUnixNano db).

Definition set_owners (os : list host) (p : partition) : partition :=
  mkPartition (p_count p) (p_id p) (p_backup p) (p_m p) os.
Definition add_count (z : Z) (p : partition) : partition :=
  mkPartition (to_signed 32 (p_count p + z)) (p_id p) (p_backup p) (p_m p) (p_owners p).
Definition set_m (m : gmap (list byte) nat) (p : partition) : partition :=
  mkPartition (p_count p) (p_id p) (p_backup p) m (p_owners p).

Definition joined (h : host) (mems : list Node) (r : consistent.Consistent host) (db : Olric) : Olric :=
  mkOlric h (config db) mems r (partitions db) (backups db) (heap db) (snapshot db)
    (bcx db) (currentUnixNano db).

(** ** A new node

    The loops of [New] that create the partitions and the backups. *)
Definition New_partitions (bk : bool) (count : Z) : gmap Z partition :=
  list_to_map (map (fun i => (Z.of_nat i, mkPartition 0 (Z.of_nat i) bk ∅ []))
                 (seq 0 (Z.to_nat count))).

Definition DefaultPartitionCount : Z := 271.
Definition DefaultLoadFactor : consistent.float64 := consistent.mkFloat 5 2.

(** The defaults of the fields of the configuration the model has.  [MaxValueSize] is the
    variable of [package protocol], 1 MiB unless the configuration sets it. *)
Definition defaults (c : Config) : Config :=
  mkConfig (if PartitionCount c =? 0 then DefaultPartitionCount else PartitionCount c)
    (BackupCount c) (BackupMode c) (OperationMode c)
    (if MaxValueSize c =? 0 then Z.shiftl 1 20 else MaxValueSize c)
    (if consistent.f_sig (LoadFactor c) =? 0 then DefaultLoadFactor else LoadFactor c).

(** [New]: the node has no owners, no members and an empty ring, and waits to be
    bootstrapped.  [open_snapshot] is what [snapshot.New] answers, [no_snapshot] the nil of
    a node that runs without snapshots. *)
Definition New (c : Config) (no_snapshot : N) (open_snapshot : snapshot.snerror + N)
    : snapshot.snerror + Olric :=
  let c := defaults c in
  let node (snap : N) : Olric :=
    mkOlric (mkHost 0 []) c []
      (consistent.New (consistent.mkConfig (PartitionCount c) 20 (LoadFactor c)))
      (New_partitions false (PartitionCount c))
      (New_partitions true (PartitionCount c)) [] snap BootPending 0 in
  if OperationMode c =? OpInMemoryWithSnapshot then
    match open_snapshot with
    | inl err => inl err
    | inr snap => inr (node snap)
    end
  else inr (node no_snapshot).

(** ** Locating keys *)
Definition getPartitionID (db : Olric) (hkey : Z) : comp Z :=
  checked (negb (PartitionCount (config db) =? 0))
    (Return (hkey mod PartitionCount (config db))).

(** [db.partitions[partID]] or [db.backups[partID]], whose nil is dereferenced by
    every caller. *)
Definition part_at (bk : bool) (db : Olric) (partID : Z) : comp partition :=
  match table_of bk db !! partID with
  | Some p => Return p
  | None => Panic
  end.

Definition getPartition (db : Olric) (hkey : Z) : comp partition :=
  id ← getPartitionID db hkey; part_at false db id.
Definition getBackupPartition (db : Olric) (hkey : Z) : comp partition :=
  id ← getPartitionID db hkey; part_at true db id.

Definition getBackupPartitionOwners (db : Olric) (hkey : Z) : comp (list host) :=
  p ← getBackupPartition db hkey; Return (p_owners p).
Definition getPartitionOwners (db : Olric) (hkey : Z) : comp (list host) :=
  p ← getPartition db hkey; Return (p_owners p).

Definition getHKey (name key : list byte) : Z := Sum64 (name ++ key).

(** [<-db.bcx.Done()] and the test of [db.bcx.Err()] that follows it: [true] when the
    operation has timed out. *)
Definition await_bootstrap (db : Olric) : comp bool :=
  match bcx db with
  | BootPending => Running
  | BootCanceled => Return false
  | BootDeadlineExceeded => Return true
  end.

Definition locateHKey (db : Olric) (hkey : Z) : comp (oerror + host) :=
  timed_out ← await_bootstrap db;
  if timed_out : bool then Return (inl ErrOperationTimeout) else
  part ← getPartition db hkey;
  match last (p_owners part) with
  | None => Return (inl (EText (text "no owner found for hkey: " ++ text (pretty hkey))))
  | Some h => Return (inr h)
  end.

Definition locateKey (db : Olric) (name key : list byte) : comp (oerror + host * Z) :=
  let hkey := getHKey name key in
  r ← locateHKey db hkey;
  match r with
  | inl err => Return (inl err)
  | inr member => Return (inr (member, hkey))
  end.

(** ** Distributed maps of a node *)
Definition createDMap (n : list byte) (bk : bool) (partID : Z) (name : list byte)
    : M (oerror + nat) :=
  db ← get_node n;
  part ← lift (part_at bk db partID);
  match p_m part !! name with
  | Some dm => mret (inr dm)
  | None =>
      r ← lift kv_new;
      match r with
      | inl err => mret (inl (EStorage err))
      | inr str =>
          let dm := length (heap db) in
          let register (db : Olric) (oplog : option (gmap Z Z)) : M (oerror + nat) :=
            let fresh := mkDmap false (Some locker.newLocker) oplog str in
            let part := add_count 1 (set_m (<[name := dm]> (p_m part)) part) in
            _ ← put_node n (set_heap (heap db ++ [fresh]) (set_part bk part db));
            mret (inr dm) in
          if OperationMode (config db) =? OpInMemoryWithSnapshot then
            r ← lift (RegisterDMap (snapshot db) (p_backup part) (p_id part) name dm);
            let db := set_snapshot r.1 db in
            match r.2 with
            | Some err => _ ← put_node n db; mret (inl (ESnap err))
            | None => register db (Some ∅)
            end
          else register db None
      end
  end.

Definition get_dmap_of (n : list byte) (bk : bool) (name : list byte) (hkey : Z)
    : M (oerror + nat) :=
  db ← get_node n;
  part ← lift (if bk then getBackupPartition db hkey else getPartition db hkey);
  match p_m part !! name with
  | Some dm => mret (inr dm)
  | None => createDMap n bk (p_id part) name
  end.
Definition getDMap (n name : list byte) (hkey : Z) : M (oerror + nat) :=
  get_dmap_of n false name hkey.
Definition getBackupDMap (n name : list byte) (hkey : Z) : M (oerror + nat) :=
  get_dmap_of n true name hkey.

(** ** The objects of the heap *)
Definition get_dm (n : list byte) (a : nat) : M (dmap S) :=
  db ← get_node n;
  match heap db !! a with Some d => mret d | None => panic end.
Definition put_dm (n : list byte) (a : nat) (d : dmap S) : M unit :=
  db ← get_node n; put_node n (set_heap (<[a := d]> (heap db)) db).

(** [dm.Lock()]: the mutex is not reentrant, and in a call that waits for its own
    caller nobody unlocks it. *)
Definition dm_Lock (n : list byte) (a : nat) : M unit :=
  d ← get_dm n a;
  if dm_mu d then block
  else put_dm n a (mkDmap true (dm_locker d) (dm_oplog d) (dm_str d)).
Definition dm_Unlock (n : list byte) (a : nat) : M unit :=
  d ← get_dm n a;
  if dm_mu d then put_dm n a (mkDmap false (dm_locker d) (dm_oplog d) (dm_str d))
  else panic.

(** A call of a method of [dm.str] that changes the storage. *)
Definition str_call (n : list byte) (a : nat) (f : S → comp (S * option serror))
    : M (option serror) :=
  d ← get_dm n a;
  r ← lift (f (dm_str d));
  _ ← put_dm n a (mkDmap (dm_mu d) (dm_locker d) (dm_oplog d) r.1);
  mret r.2.

(** [dm.oplog.Put(hkey)] and [dm.oplog.Delete(hkey)]: a nil log is dereferenced. *)
Definition oplog_set (n : list byte) (a : nat) (hkey op : Z) : M unit :=
  d ← get_dm n a;
  match dm_oplog d with
  | None => panic
  | Some m => put_dm n a (mkDmap (dm_mu d) (dm_locker d) (Some (<[hkey := op]> m)) (dm_str d))
  end.
Definition oplog_if_snapshot (n : list byte) (a : nat) (hkey op : Z) : M unit :=
  db ← get_node n;
  if OperationMode (config db) =? OpInMemoryWithSnapshot then oplog_set n a hkey op
  else mret tt.

(** ** Time *)
Definition getTTL (db : Olric) (timeout : Z) : Z :=
  Z.quot (to_signed 64 (timeout + currentUnixNano db)) 1000000.

Definition isKeyExpired (db : Olric) (ttl : Z) : bool :=
  if ttl =? 0 then false else ttl <=? Z.quot (currentUnixNano db) 1000000.

(** ** Requests

    [serve n req] runs the operation that the node at the address [n] has registered
    for the code of [req]; it answers [None] if there is none. *)
Section requests.
Variable serve : list byte → Message → M (option Message).

(** [waitForRequest] on the bytes [input] that have arrived, where [e] is the error of a
    read past them: the request, the bytes written back or the error with its cause, and
    the bytes that have not been read. *)
Definition waitForRequest (n input : list byte) (e : perror)
    : M (Message * (option perror * list byte + list byte) * list byte) :=
  db ← get_node n;
  r ← lift (protocol.Read (MaxValueSize (config db)) protocol.zero_message input e);
  let '(req, err, rest) := r in
  match err with
  | Some err =>
      mret (req, inl (Some err, text "failed to read request: " ++ perror_text err), rest)
  | None =>
      r ← serve n req;
      mret match r with
      | None => (req, inl (None, text "unknown operation: "
                             ++ text (pretty (protocol.Op (protocol.Hdr req)))), rest)
      | Some resp => (req, inr (protocol.wire resp), rest)
      end
  end.

(** The body of the loop of [handleConn]: the bytes written back and those left to read,
    or [None] when the loop ends. *)
Definition conn_turn (n input : list byte) (e : perror) : M (option (list byte * list byte)) :=
  r ← waitForRequest n input e;
  mret match r with
  | (_, inr out, rest) => Some (out, rest)
  | (req, inl (cause, msg), rest) =>
      if bool_decide (cause = Some protocol.IOEOF ∨ cause = Some protocol.ErrConnClosed) then None
      else Some (protocol.wire (protocol.Error req protocol.StatusInternalServerError msg), rest)
  end.

(** [handleConn] for a connection that carries one request. *)
Definition handleConn (n bytes : list byte) : M (option (list byte)) :=
  r ← conn_turn n bytes protocol.IOEOF; mret (fst <$> r).

(** The request with its magic and its operation. *)
Definition addressed (op : Z) (req : Message) : Message :=
  let h := protocol.Hdr req in
  mkMessage
    (mkHeader protocol.MagicReq op (protocol.DMapLen h) (protocol.KeyLen h)
       (protocol.ExtraLen h) (protocol.Status h) (protocol.BodyLen h))
    (protocol.Extra req) (protocol.DMap req) (protocol.Key req) (protocol.Value req).

(** [client.RequestTo], by a process that accepts values of up to [limit] bytes: every
    request is made on a fresh connection ([Transport.v] has the pool of connections). *)
Definition RequestTo (limit : M Z) (addr : list byte) (op : Z) (req : Message)
    : M (perror + Message) :=
  f ← next_fault;
  match f with
  | RequestLost e => mret (inl e)
  | _ =>
      up ← is_up addr;
      if negb up then mret (inl (protocol.IOErr (dial_text addr))) else
      answer ← handleConn addr (protocol.wire (addressed op req));
      match f with
      | ResponseLost e => mret (inl e)
      | _ =>
          max ← limit;
          r ← lift (protocol.Read max protocol.zero_message (default [] answer) protocol.IOEOF);
          match r with
          | (_, Some err, _) => mret (inl err)
          | (resp, None, _) => mret (inr resp)
          end
      end
  end.

(** [protocol.MaxValueSize] of the process of the node [n]. *)
Definition read_limit (n : list byte) : M Z :=
  db ← get_node n; mret (MaxValueSize (config db)).

(** The switch of [requestTo] on the status of the response. *)
Definition check_status (resp : Message) : oerror + Message :=
  let status := protocol.Status (protocol.Hdr resp) in
  if status =? protocol.StatusOK then inr resp
  else if status =? protocol.StatusInternalServerError
  then inl (ErrInternalServerError (protocol.Value resp))
  else if status =? protocol.StatusNoSuchLock then inl OErrNoSuchLock
  else if status =? protocol.StatusKeyNotFound then inl OErrKeyNotFound
  else if status =? protocol.StatusPartNotEmpty then inl errPartNotEmpty
  else if status =? protocol.StatusBackupNotEmpty then inl errBackupNotEmpty
  else inl (EText (text "unknown status code: " ++ text (pretty status))).

Definition requestTo (n addr : list byte) (op : Z) (req : Message) : M (oerror + Message) :=
  r ← RequestTo (read_limit n) addr op req;
  mret match r with
  | inl err => inl (ENet err)
  | inr resp => check_status resp
  end.
End requests.

(** A request as the callers build it: [&protocol.Message{DMap: name, Key: key, ...}]. *)
Definition request (x : option extra) (name key value : list byte) : Message :=
  mkMessage protocol.zero_header x name key value.
End olric.
End olric.
