(* ===== verification/Transport.v ===== *)
(** The transport between processes: the server's loop over the requests of a connection
    ([internal/transport/server.go]) and the client's pools of connections
    ([internal/transport/client.go], with [buraksezer/pool]). *)

From S2P Require Export Cluster.

Module transport.
Export olric.

(** ** Connections

    The end of a connection as the client sees it: the bytes it has sent and the server
    has not read, the bytes the server has sent and the client has not read, and whether
    the server still holds its end. *)
Record conn := mkConn { cn_in : list byte; cn_out : list byte; cn_open : bool }.

(** The error that stands for a read that has to wait for more bytes. *)
Definition IOWait : perror := protocol.IOErr [].

(** ** Pools: at most [maxCap] idle connections; [None] once the pool is closed. *)
Record pool := mkPool { conns : option (list conn); maxCap : Z }.

Definition ErrClosed : perror := protocol.IOErr (text "pool is closed").

(** A connection that does not go back to the pool is closed. *)
Definition put (c : conn) (p : pool) : pool :=
  match conns p with
  | None => p
  | Some cs => if len cs <? maxCap p then mkPool (Some (cs ++ [c])) (maxCap p) else p
  end.

Definition Close_pool (p : pool) : pool := mkPool None (maxCap p).

Definition Len (p : pool) : Z := len (default [] (conns p)).

(** ** The client *)
Record ClientConfig := mkClientConfig { Addrs : list (list byte); MinConn : Z; MaxConn : Z }.
Record Client := mkClient { cl_config : ClientConfig; pools : gmap (list byte) pool }.

Definition set_pool (addr : list byte) (p : pool) (cl : Client) : Client :=
  mkClient (cl_config cl) (<[addr := p]> (pools cl)).

Definition NewClient (cc : option ClientConfig) : comp Client :=
  match cc with None => Panic | Some cc => Return (mkClient cc ∅) end.

Definition Close (cl : Client) : Client := mkClient (cl_config cl) (Close_pool <$> pools cl).

(** [CloseWithAddr] closes the pool it has not found: a method of the nil interface. *)
Definition CloseWithAddr (addr : list byte) (cl : Client) : comp Client :=
  match pools cl !! addr with None => Panic | Some _ => Return cl end.

Section transport.
Context {S N : Type} `{!KV S} `{!Snap S N} `{!Env}.
Abbreviation M := (olric.M S N).
Variable serve : list byte → Message → M (option Message).

(** ** The loop of [handleConn] *)

(** The next read of a request finds no complete message. *)
Definition would_block (n input : list byte) : M bool :=
  db ← get_node n;
  r ← lift (protocol.Read (MaxValueSize (config db)) protocol.zero_message input IOWait);
  mret (bool_decide (r.1.2 = Some IOWait)).

(** The requests that have arrived are answered one after the other; then the loop waits.
    The result is what has not been read, what has been written, and whether the
    connection is still open.  [fuel] bounds the number of requests. *)
Fixpoint conn_loop (fuel : nat) (n input out : list byte) : M (list byte * list byte * bool) :=
  match fuel with
  | O => block
  | Datatypes.S fuel =>
      wait ← would_block n input;
      if wait : bool then mret (input, out, true) else
      r ← conn_turn serve n input IOWait;
      match r with
      | None => mret ([], out, false)
      | Some (o, rest) => conn_loop fuel n rest (out ++ o)
      end
  end.

(** ** Pools of connections *)

(** The factory of a pool: [dialer.Dial]. *)
Definition dial (addr : list byte) : M (perror + conn) :=
  up ← is_up addr;
  mret (if up : bool then inr (mkConn [] [] true) else inl (protocol.IOErr (dial_text addr))).

Fixpoint fill (addr : list byte) (n : nat) (cs : list conn) : M (perror + list conn) :=
  match n with
  | O => mret (inr cs)
  | Datatypes.S n =>
      r ← dial addr;
      match r with
      | inl err =>
          mret (inl (protocol.IOErr (text "factory is not able to fill the pool: " ++ perror_text err)))
      | inr c => fill addr n (cs ++ [c])
      end
  end.

Definition NewChannelPool (initialCap maxCap : Z) (addr : list byte) : M (perror + pool) :=
  if (initialCap <? 0) || (maxCap <=? 0) || (maxCap <? initialCap)
  then mret (inl (protocol.IOErr (text "invalid capacity settings")))
  else
    r ← fill addr (Z.to_nat initialCap) [];
    mret match r with inl err => inl err | inr cs => inr (mkPool (Some cs) maxCap) end.

(** [Get]: the oldest idle connection, or a new one. *)
Definition Get (addr : list byte) (p : pool) : M (perror + (conn * pool)) :=
  match conns p with
  | None => mret (inl ErrClosed)
  | Some (c :: cs) => mret (inr (c, mkPool (Some cs) (maxCap p)))
  | Some [] =>
      r ← dial addr;
      mret match r with inl err => inl err | inr c => inr (c, p) end
  end.

(** The part of [getPool] under the lock: a pool that has appeared since is kept. *)
Definition install (addr : list byte) (newpool : pool) (cl : Client) : Client * pool :=
  match pools cl !! addr with
  | Some tmp => (cl, tmp)
  | None => (set_pool addr newpool cl, newpool)
  end.

Definition getPool (addr : list byte) (cl : Client) : M (perror + (Client * pool)) :=
  match pools cl !! addr with
  | Some p => mret (inr (cl, p))
  | None =>
      r ← NewChannelPool (MinConn (cl_config cl)) (MaxConn (cl_config cl)) addr;
      mret match r with inl err => inl err | inr p => inr (install addr p cl) end
  end.

(** What the server does with the bytes sent to it, if it is still there. *)
Definition deliver (fuel : nat) (addr bytes : list byte) (c : conn) : M conn :=
  up ← is_up addr;
  if (up : bool) && cn_open c then
    r ← conn_loop fuel addr (cn_in c ++ bytes) [];
    let '(rest, out, open) := r in
    mret (mkConn rest (cn_out c ++ out) open)
  else mret (mkConn [] (cn_out c) false).

(** A connection on which the network has failed. *)
Definition broken (c : conn) : conn := mkConn [] (cn_out c) false.

(** The request is written to the connection and the response is read from it.  The network
    may fail during the write or during the read; without a fault the write to a connection
    that the server has closed succeeds, and the read finds its end.  The connection goes back
    to the pool in every case: the deferred [Close] puts it there. *)
Definition RequestTo (fuel : nat) (limit : M Z) (addr : list byte) (op : Z) (req : Message)
    (cl : Client) : M (Client * (perror + Message)) :=
  r ← getPool addr cl;
  match r with
  | inl err => mret (cl, inl err)
  | inr (cl, p) =>
      r ← Get addr p;
      match r with
      | inl err => mret (cl, inl err)
      | inr (c, p) =>
          f ← next_fault;
          match f with
          | RequestLost err => mret (set_pool addr (put (broken c) p) cl, inl err)
          | _ =>
              c ← deliver fuel addr (protocol.wire (addressed op req)) c;
              match f with
              | ResponseLost err => mret (set_pool addr (put (broken c) p) cl, inl err)
              | _ =>
                  max ← limit;
                  r ← lift (protocol.Read max protocol.zero_message (cn_out c)
                              (if cn_open c then IOWait else protocol.IOEOF));
                  let '(resp, err, rest) := r in
                  if bool_decide (err = Some IOWait) then block else
                  let cl := set_pool addr (put (mkConn (cn_in c) rest (cn_open c)) p) cl in
                  mret (cl, match err with Some err => inl err | None => inr resp end)
              end
          end
      end
  end.

(** [Request]; [i] is the number [rand.Intn] answers. *)
Definition Request (fuel : nat) (limit : M Z) (i : nat) (op : Z) (req : Message) (cl : Client)
    : M (Client * (perror + Message)) :=
  match Addrs (cl_config cl) !! i with
  | None => panic
  | Some addr => RequestTo fuel limit addr op req cl
  end.
End transport.
End transport.
