(* ===== verification/Server.v ===== *)
(** The goroutines of the TCP server ([internal/transport/server.go]): the acceptor, the
    dispatcher of connections, and for each connection its handler and the goroutine that
    closes it, with [Shutdown] that waits for them.  What a handler does with the bytes
    of a connection is in [Transport.v]. *)

From S2P Require Export Prelude.

Module server.

(** ** One connection *)

(** The handler: not in its loop yet, in [req.Read], with a request that is read but not
    marked busy yet, running the operation, about to write, past the write (with its
    success) before the deferred reset of the status, past its loop, gone. *)
Inductive hphase := HStart | HReading | HGot | HBusy | HWriting | HWrote (ok : bool) | HExit | HGone.

(** The closer: not started, in its [select], about to load the status, polling it, about
    to close the connection, gone. *)
Inductive cphase := CNone | CSelect | CLoad | CPoll | CClosing | CGone.

#[export] Instance hphase_eq_decision : EqDecision hphase.
Proof. solve_decision. Defined.
#[export] Instance cphase_eq_decision : EqDecision cphase.
Proof. solve_decision. Defined.

Record conn := mkConn {
  handler : hphase;
  closer : cphase;
  busy : bool;          (* connStatus *)
  sock : bool;          (* the connection is open *)
  done : bool           (* the channel done is closed *)
}.

(** The steps of [handleConn], [waitForRequest] and the closer; [ctx] tells whether the
    context of the server is done, the number is what is added to the wait group. *)
Inductive cstep (ctx : bool) : conn → conn → Z → Prop :=
| c_start s o d : cstep ctx (mkConn HStart CNone s o d) (mkConn HReading CSelect s o d) 1
| c_read c s d : cstep ctx (mkConn HReading c s true d) (mkConn HGot c s true d) 0
| c_read_end c s o d :   (* the peer has closed the connection, or we have *)
    cstep ctx (mkConn HReading c s o d) (mkConn HExit c false o d) 0
| c_read_bad c s d :     (* a protocol error is answered *)
    cstep ctx (mkConn HReading c s true d) (mkConn HReading c false true d) 0
| c_mark c s o d : cstep ctx (mkConn HGot c s o d) (mkConn HBusy c true o d) 0
| c_unknown c s o d :    (* no such operation: an error is answered *)
    cstep ctx (mkConn HBusy c s o d) (mkConn HReading c false o d) 0
| c_run c s o d : cstep ctx (mkConn HBusy c s o d) (mkConn HWriting c s o d) 0
| c_write c s o d : cstep ctx (mkConn HWriting c s o d) (mkConn (HWrote o) c s o d) 0
| c_idle c s o d ok :
    cstep ctx (mkConn (HWrote ok) c s o d)
      (mkConn (if ok : bool then HReading else HExit) c false o d) 0
| c_exit c s o d : cstep ctx (mkConn HExit c s o d) (mkConn HGone c s o true) (-1)
| c_select h s o d : ctx || d = true → cstep ctx (mkConn h CSelect s o d) (mkConn h CLoad s o d) 0
| c_load h s o d :
    cstep ctx (mkConn h CLoad s o d) (mkConn h (if s : bool then CPoll else CClosing) s o d) 0
| c_poll h o d : cstep ctx (mkConn h CPoll false o d) (mkConn h CClosing false o d) 0
| c_close h s o d : cstep ctx (mkConn h CClosing s o d) (mkConn h CGone s false d) (-1).

(** ** The server *)

(** [waitForConnections]: in [Accept], in the send to [connCh], returned. *)
Inductive aphase := ANone | AAccept | ASend | AReturned.
(** [Shutdown]: not called, past [s.cancel()], waiting, returned because the goroutines
    are gone, or because the context of the caller expired. *)
Inductive sphase := SNone | SCanceled | SWaiting | SReturned | SExpired.

Record Server := mkServer {
  started : bool;              (* StartCh is closed *)
  listening : bool;            (* the listener is open *)
  ctx_done : bool;
  acceptor : aphase;
  dispatcher : bool;           (* handleConns runs *)
  shutdown : sphase;
  conns : list conn;
  wg : Z
}.

Definition NewServer : Server := mkServer false false false ANone false SNone [] 0.

(** [tls.Listen] answers a listener of another type than [net.Listen]. *)
Inductive listener := TCPListener | TLSListener.

(** The start of [waitForConnections]: the type assertion on the listener. *)
Definition waitForConnections (l : listener) (s : Server) : comp Server :=
  match l with
  | TLSListener => Panic
  | TCPListener =>
      Return (mkServer true true (ctx_done s) AAccept true (shutdown s) (conns s) (wg s + 1))
  end.

(** [StartCh] is closed by the deferred function if it is not closed yet. *)
Definition close_start (s : Server) : Server :=
  mkServer true (listening s) (ctx_done s) AReturned (dispatcher s) (shutdown s) (conns s) (wg s).

(** [ListenAndServe]; [err] is the error of [net.Listen]. *)
Definition ListenAndServe (err : option Z) (s : Server) : comp (Server * option Z) :=
  match err with
  | Some _ => Return (close_start s, err)
  | None => s ← waitForConnections TCPListener s; Return (s, None)
  end.

(** [ListenAndServeTLS]; [cert] and [err] are the errors of [tls.LoadX509KeyPair] and
    [tls.Listen]. *)
Definition ListenAndServeTLS (cert err : option Z) (s : Server) : comp (Server * option Z) :=
  match cert, err with
  | Some _, _ => Return (close_start s, cert)
  | None, Some _ => Return (close_start s, err)
  | None, None => s ← waitForConnections TLSListener s; Return (s, None)
  end.

(** A connection that has just been accepted. *)
Definition accepted : conn := mkConn HStart CNone false true false.

Inductive step : Server → Server → Prop :=
| s_listen s s' : acceptor s = ANone → ListenAndServe None s = Return (s', None) → step s s'
| s_conn s i c c' d :
    conns s !! i = Some c → cstep (ctx_done s) c c' d →
    step s (mkServer (started s) (listening s) (ctx_done s) (acceptor s) (dispatcher s)
              (shutdown s) (<[i := c']> (conns s)) (wg s + d))
| s_accept st x dp sh cs w :
    step (mkServer st true x AAccept dp sh cs w) (mkServer st true x ASend dp sh cs w)
| s_keepalive st x dp sh cs w :   (* the options of the connection cannot be set *)
    step (mkServer st true x AAccept dp sh cs w) (mkServer st true x AReturned dp sh cs w)
| s_accept_end st sh cs dp w :
    step (mkServer st false true AAccept dp sh cs w) (mkServer st false true AReturned dp sh cs w)
| s_dispatch st l x sh cs w :   (* the rendezvous on connCh *)
    step (mkServer st l x ASend true sh cs w)
      (mkServer st l x AAccept true sh (cs ++ [accepted]) (w + 1))
| s_dispatch_end st l a sh cs w :
    step (mkServer st l true a true sh cs w) (mkServer st l true a false sh cs (w - 1))
| s_cancel st l a dp cs w :
    step (mkServer st l false a dp SNone cs w) (mkServer st l true a dp SCanceled cs w)
| s_close_listener st l x a dp cs w :
    step (mkServer st l x a dp SCanceled cs w) (mkServer st false x a dp SWaiting cs w)
| s_waited st l x a dp cs :
    step (mkServer st l x a dp SWaiting cs 0) (mkServer st l x a dp SReturned cs 0)
| s_expired st l x a dp cs w :
    step (mkServer st l x a dp SWaiting cs w) (mkServer st l x a dp SExpired cs w).

(** ** The wait group counts the goroutines *)
Definition b2z (b : bool) : Z := if b then 1 else 0.

Definition live (c : conn) : Z :=
  b2z (negb (bool_decide (handler c = HGone)))
  + b2z (negb (bool_decide (closer c = CNone ∨ closer c = CGone))).

Definition live_conns (cs : list conn) : Z := foldr (fun c z => live c + z) 0 cs.

Lemma live_nonneg c : 0 ≤ live c.
Proof. unfold live, b2z. repeat case_match; lia. Qed.

Lemma live_conns_nonneg cs : 0 ≤ live_conns cs.
Proof. induction cs as [|c cs IH]; simpl; [lia|]. pose proof (live_nonneg c). lia. Qed.

Lemma live_conns_app cs c : live_conns (cs ++ [c]) = live_conns cs + live c.
Proof. induction cs as [|c' cs IH]; simpl; lia. Qed.

Lemma live_conns_insert cs i c c' :
  cs !! i = Some c → live_conns (<[i := c']> cs) = live_conns cs - live c + live c'.
Proof.
  revert i. induction cs as [|c0 cs IH]; intros [|i] Hi; simplify_eq/=; [lia|].
  rewrite (IH i Hi). lia.
Qed.

Lemma live_conns_zero cs i c : live_conns cs = 0 → cs !! i = Some c → live c = 0.
Proof.
  revert i. induction cs as [|c0 cs IH]; intros [|i] Hz Hi; [done|done|..]; simpl in Hz, Hi;
    pose proof (live_nonneg c0); pose proof (live_conns_nonneg cs).
  - simplify_eq. lia.
  - apply (IH i); [lia|done].
Qed.

Definition idle_phase (h : hphase) : bool :=
  match h with HStart | HReading | HExit | HGone => true | _ => false end.

(** The two goroutines of a connection agree on how far they are. *)
Definition conn_ok (c : conn) : bool :=
  eqb (bool_decide (closer c = CNone)) (bool_decide (handler c = HStart))
  && (negb (bool_decide (closer c = CGone)) || negb (sock c))
  && eqb (done c) (bool_decide (handler c = HGone))
  && (negb (idle_phase (handler c)) || negb (busy c)).

Lemma cstep_ok ctx c c' d : cstep ctx c c' d → conn_ok c = true → conn_ok c' = true ∧ live c' = live c + d.
Proof.
  intros Hs Hok. destruct Hs;
    repeat match goal with
      | x : bool |- _ => destruct x
      | x : cphase |- _ => destruct x
      | x : hphase |- _ => destruct x
      end; by first [vm_compute in Hok; discriminate Hok|split; vm_compute].
Qed.

Record inv (s : Server) : Prop := {
  inv_wg : wg s = b2z (dispatcher s) + live_conns (conns s);
  inv_conns : Forall (fun c => conn_ok c = true) (conns s);
  inv_none : acceptor s = ANone → dispatcher s = false
}.

Lemma server_step_inv s s' : step s s' → inv s → inv s'.
Proof.
  intros Hs [Hwg Hcs Ha].
  destruct Hs as [s s' Hn Hl|s i c c' d Hi Hc| | | | | | | | |]; cbn [wg dispatcher conns acceptor] in *.
  - unfold ListenAndServe, waitForConnections in Hl. simplify_eq/=. rewrite (Ha Hn) in Hwg.
    split; [simpl in *; lia|done|done].
  - rewrite Forall_lookup in Hcs. destruct (cstep_ok _ _ _ _ Hc (Hcs i c Hi)) as [Hok Hlive].
    split; [cbn [wg dispatcher conns]; rewrite (live_conns_insert _ _ _ _ Hi); lia| |done].
    apply Forall_insert; [by apply Forall_lookup|done].
  - by split.
  - by split.
  - by split.
  - split; [cbn [wg dispatcher conns]; rewrite live_conns_app; change (live accepted) with 1; lia| |done].
    apply Forall_app. split; [done|]. by constructor.
  - split; [simpl in *; lia|done|done].
  - by split.
  - by split.
  - by split.
  - by split.
Qed.

Lemma reachable_inv s : rtc step NewServer s → inv s.
Proof.
  apply (rtc_ind_r inv); [by split|]. intros. by eapply server_step_inv.
Qed.

(** ** Draining *)

(** The handler is in an operation or in the write of a response, which may both block: the
    operation on a lock, the write on a peer that does not read. *)
Definition awaits (c : conn) : bool :=
  match handler c with HBusy => true | HWriting => sock c | _ => false end.

(** A step that needs nothing from the peer: a read ends only if the connection is closed.
    [returns] tells whether operations and writes return. *)
Definition internal (returns : bool) (c c' : conn) : Prop :=
  (∃ d, cstep true c c' d)
  ∧ (handler c = HReading → closer c' ≠ closer c ∨ sock c = false ∧ handler c' = HExit)
  ∧ (awaits c = true → closer c' ≠ closer c ∨ returns = true).

Definition finished (c : conn) : bool :=
  bool_decide (handler c = HGone) && bool_decide (closer c = CGone) && negb (sock c).

(** How many such steps are left at most. *)
Definition left_steps (c : conn) : nat :=
  match handler c with
  | HGone => 0 | HExit => 1 | HReading => 2 | HWrote _ | HStart => 3 | HWriting => 4 | HBusy => 5
  | HGot => 6
  end
  + match closer c with
    | CGone => 0 | CClosing => 1 | CPoll => 2 | CLoad => 3 | CSelect => 4 | CNone => 5
    end.

Lemma internal_left r c c' : internal r c c' → (left_steps c' < left_steps c)%nat.
Proof.
  intros ([d Hs] & Hr & _). destruct Hs; unfold left_steps; simpl in *; try lia.
  - by destruct (Hr eq_refl) as [?|[? ?]].
  - by destruct (Hr eq_refl) as [?|[? ?]].
  - destruct ok; lia.
  - destruct s; lia.
Qed.

(** A step that is always possible: the handler goes on until it has to wait, then the
    closer does. *)
Definition drain (returns : bool) (c : conn) : conn :=
  let '(mkConn h cl s o d) := c in
  let close :=
    match cl with
    | CSelect => mkConn h CLoad s o d
    | CLoad => mkConn h (if s : bool then CPoll else CClosing) s o d
    | CPoll => if s : bool then c else mkConn h CClosing s o d
    | CClosing => mkConn h CGone s false d
    | _ => c
    end in
  if awaits c && negb returns then close else
  match h with
  | HStart => mkConn HReading CSelect s o d
  | HGot => mkConn HBusy cl true o d
  | HBusy => mkConn HWriting cl s o d
  | HWriting => mkConn (HWrote o) cl s o d
  | HWrote ok => mkConn (if ok : bool then HReading else HExit) cl false o d
  | HExit => mkConn HGone cl s o true
  | HReading | HGone =>
      if bool_decide (h = HReading) && negb o then mkConn HExit cl false o d else close
  end.

Lemma drain_internal r c :
  conn_ok c = true → finished c = false → internal r c (drain r c) ∨ r = false ∧ awaits c = true.
Proof.
  intros Hok Hf. destruct c as [h cl s o d].
  destruct r, h as [| | | | |ok| |]; [..|destruct ok| | | | | | | |destruct ok| |]; destruct cl, s, o, d;
    first [vm_compute in Hok; discriminate Hok|vm_compute in Hf; discriminate Hf|by right|
      left; split; [eexists; by constructor
             |split; intros E; first [discriminate E|by left|right; by split|by right]]].
Qed.

(** Without a read nothing new is started. *)
Lemma internal_idle r c c' :
  internal r c c' → idle_phase (handler c) = true → idle_phase (handler c') = true.
Proof.
  intros ([d Hs] & Hr & _) Hi. destruct Hs; simpl in *; try done.
  by destruct (Hr eq_refl) as [?|[? ?]].
Qed.

(** ** Theorems *)

(** C35: when [Shutdown] has waited for the goroutines, none of those it counts is left: the
    dispatcher has returned, and for every connection that the dispatcher has received the
    handler and the closer have ended and the connection is closed, in every run of the
    server.  A connection that the acceptor has not handed over is not among them (see
    [accept_during_shutdown_hangs]). *)
Theorem Shutdown_waits_for_goroutines s s' :
  rtc step NewServer s → step s s' → shutdown s = SWaiting → shutdown s' = SReturned →
  dispatcher s' = false
  ∧ Forall (fun c => handler c = HGone ∧ closer c = CGone ∧ sock c = false) (conns s').
Proof.
  intros Hr Hs Hw Hret. pose proof (reachable_inv s Hr) as [Hwg Hcs _].
  destruct Hs as [s s' Hn Hl| | | | | | | | |st l x a dp cs|]; simplify_eq/=; [congruence..|].
  pose proof (live_conns_nonneg cs). destruct dp; simpl in Hwg; [lia|]. split; [done|].
  rewrite Forall_lookup in Hcs |- *. intros i c Hi. specialize (Hcs i c Hi).
  pose proof (live_conns_zero cs i c ltac:(lia) Hi) as Hz.
  destruct c as [h cl b o d]. destruct h, cl, b, o, d; try (vm_compute in Hz; discriminate Hz);
    first [vm_compute in Hcs; discriminate Hcs|done].
Qed.


(** The state after the steps of a list of connection steps. *)
Definition with_conn (c : conn) (w : Z) (s : Server) : Server :=
  mkServer (started s) (listening s) (ctx_done s) (acceptor s) (dispatcher s) (shutdown s) [c] w.

Lemma one_conn s c c' d :
  conns s = [c] → cstep (ctx_done s) c c' d → step s (with_conn c' (wg s + d) s).
Proof.
  intros Hc Hs. assert ([c'] = <[0%nat := c']> (conns s)) as E by by rewrite Hc.
  unfold with_conn. rewrite E. by apply (s_conn s 0 c); [rewrite Hc|].
Qed.

(** [Shutdown] can cut off a request that is being served: the status of the
    connection is idle until after the request has been read, so that the closer may
    close the connection while the operation runs; its response is lost. *)
Theorem Shutdown_cuts_a_request :
  ∃ s c, rtc step NewServer s ∧ shutdown s = SCanceled ∧ conns s = [c]
    ∧ handler c = HBusy ∧ sock c = false
    ∧ ∀ c' d, cstep true c c' d → handler c' = HWriting →
      ∀ c'' d', cstep true c' c'' d' → handler c'' = HWrote false.
Proof.
  eexists _, (mkConn HBusy CGone true false false). split; [|split; [|split; [|split; [|split]]]].
  - eapply rtc_l; [by eapply s_listen|].
    eapply rtc_l; [apply s_accept|]. eapply rtc_l; [apply s_dispatch|].
    eapply rtc_l; [by eapply one_conn; [|apply c_start]|].
    eapply rtc_l; [by eapply one_conn; [|apply c_read]|].
    eapply rtc_l; [apply s_cancel|].
    eapply rtc_l; [by eapply one_conn; [|by apply c_select]|].
    eapply rtc_l; [by eapply one_conn; [|apply c_load]|].
    eapply rtc_l; [by eapply one_conn; [|apply c_mark]|].
    eapply rtc_l; [by eapply one_conn; [|apply c_close]|]. apply rtc_refl.
  - done.
  - done.
  - done.
  - done.
  - intros c' d H1 Hw c'' d' H2. inversion H1; subst; [done|]. by inversion H2; subst.
Qed.

(** A connection that is accepted while the server shuts down blocks the acceptor for
    ever: once the dispatcher has returned, nobody receives from the channel, although
    [Shutdown] returns; [ListenAndServe] never does. *)
Theorem accept_during_shutdown_hangs :
  ∃ s, rtc step NewServer s ∧ shutdown s = SReturned ∧ acceptor s = ASend
    ∧ ∀ s', rtc step s s' → acceptor s' = ASend.
Proof.
  exists (mkServer true false true ASend false SReturned [] 0). split; [|split; [|split]]; [|done|done|].
  - eapply rtc_l; [by eapply s_listen|]. eapply rtc_l; [apply s_accept|].
    eapply rtc_l; [apply s_cancel|]. eapply rtc_l; [apply s_dispatch_end|].
    eapply rtc_l; [apply s_close_listener|]. eapply rtc_l; [apply s_waited|]. apply rtc_refl.
  - intros s' Hr. assert (acceptor s' = ASend ∧ dispatcher s' = false) as [? _]; [|done].
    revert s' Hr. apply (rtc_ind_r (fun s' => acceptor s' = ASend ∧ dispatcher s' = false)); [done|].
    intros s1 s2 _ Hs [Ha Hd]. destruct Hs; simplify_eq/=; first [congruence|done].
Qed.

(** With TLS the server never starts: the listener is not a [net.TCPListener]. *)
Lemma ListenAndServeTLS_panics s : ListenAndServeTLS None None s = Panic.
Proof. done. Qed.

(** ** A run of the server, with one connection that is served and closed *)
Definition ex_run : Server := mkServer true false true AReturned false SWaiting [mkConn HGone CGone false false true] 0.

Lemma ex_run_reachable : rtc step NewServer ex_run.
Proof.
  eapply rtc_l; [by eapply s_listen|]. eapply rtc_l; [apply s_accept|]. eapply rtc_l; [apply s_dispatch|].
  eapply rtc_l; [by eapply one_conn; [|apply c_start]|].
  eapply rtc_l; [apply s_cancel|]. eapply rtc_l; [apply s_dispatch_end|].
  eapply rtc_l; [by eapply one_conn; [|by apply c_select]|].
  eapply rtc_l; [by eapply one_conn; [|apply c_load]|].
  eapply rtc_l; [by eapply one_conn; [|apply c_close]|].
  eapply rtc_l; [by eapply one_conn; [|apply c_read_end]|].
  eapply rtc_l; [by eapply one_conn; [|apply c_exit]|].
  eapply rtc_l; [apply s_close_listener|]. eapply rtc_l; [apply s_accept_end|]. apply rtc_refl.
Qed.

Lemma Shutdown_waits_witness :
  ∃ s', step ex_run s' ∧ dispatcher s' = false
    ∧ Forall (fun c => handler c = HGone ∧ closer c = CGone ∧ sock c = false) (conns s').
Proof.
  eexists. split; [apply s_waited|].
  apply (Shutdown_waits_for_goroutines ex_run _ ex_run_reachable (s_waited _ _ _ _ _ _)); reflexivity.
Defined.

(** A connection whose handler is serving a request when the context is canceled. *)
Definition ex_busy : Server :=
  mkServer true true true AAccept true SCanceled [mkConn HBusy CSelect true true false] 3.

Lemma ex_busy_reachable : rtc step NewServer ex_busy.
Proof.
  eapply rtc_l; [by eapply s_listen|]. eapply rtc_l; [apply s_accept|]. eapply rtc_l; [apply s_dispatch|].
  eapply rtc_l; [by eapply one_conn; [|apply c_start]|].
  eapply rtc_l; [by eapply one_conn; [|apply c_read]|].
  eapply rtc_l; [by eapply one_conn; [|apply c_mark]|].
  eapply rtc_l; [apply s_cancel|]. apply rtc_refl.
Qed.

End server.
