(* ===== verification/DMap.v ===== *)
(** The operations of a distributed map on a key: [dmap_put.go], [dmap_get.go],
    [dmap_delete.go].

    Every definition takes the address [n] of the node it runs on, where the code has
    the receiver [db].  Goroutines that are waited for (an [errgroup]) run one after the
    other, in the order in which they are started. *)

From S2P Require Export Cluster.

(** ** Values of the user and their serializer ([serializers.go])

    The program sees a value as an [interface{}]; what it asks is whether the value is
    nil, an empty struct or an [int].  [Serializers.v] has the serializers themselves. *)
Inductive vkind := KNil | KEmptyStruct | KInt (i : Z) | KOther (type_name : list byte).

Class Serializer (V : Type) := {
  sMarshal : V → olric.oerror + list byte;
  sUnmarshal : list byte → olric.oerror + V;
  v_kind : V → vkind;
  v_nil : V;
  v_empty_struct : V;
  v_int : Z → V;
  v_kind_nil : v_kind v_nil = KNil;
  v_kind_empty : v_kind v_empty_struct = KEmptyStruct;
  v_kind_int z : v_kind (v_int z) = KInt z
}.

(** A serializer that decodes what it has encoded, type included. *)
Class SerializerLaws (V : Type) `{!Serializer V} :=
  sUnmarshal_sMarshal (v : V) bs : sMarshal v = inr bs → sUnmarshal bs = inr v.

Module dmaps.
Export olric.

Definition maxBackupCount : Z := 3.

Definition calcMaxBackupCount (backupCount memCount : Z) : Z :=
  let backupCount := if maxBackupCount <? backupCount then maxBackupCount else backupCount in
  if memCount - 1 <? backupCount then memCount - 1 else backupCount.

Definition nilTimeout : Z := 0.

Section dmaps.
Context {S N : Type} `{!KV S} `{!Snap S N} `{!Env}.
Abbreviation M := (olric.M S N).
Variable serve : list byte → Message → M (option Message).

(** [db.discovery.numMembers()] *)
Definition numMembers (db : Olric S N) : Z := len (members db).

(** ** Put *)

(** The loops over [owners[:len(owners)-1]] take the hosts in reverse order. *)
Definition previous (owners : list host) : list host := rev (take (length owners - 1) owners).

Fixpoint purge_loop (n name key : list byte) (owners : list host)
    : M unit :=
  match owners with
  | [] => mret tt
  | owner :: owners =>
      db ← get_node n;
      if hostCmp owner (this db) then purge_loop n name key owners else
      _ ← requestTo serve n (host_String owner) protocol.OpDeletePrev (request None name key []);
      purge_loop n name key owners
  end.

Definition purgeOldVersions (n : list byte) (hkey : Z) (name key : list byte) : M unit :=
  db ← get_node n;
  owners ← lift (getPartitionOwners db hkey);
  if decide (owners = []) then panic
  else purge_loop n name key (previous owners).

(** The goroutines of the errgroup: the number of successes and the first error. *)
Fixpoint backup_loop (n name key value : list byte) (timeout : Z) (owners : list host)
    (successful : Z) (werr : option oerror) : M (Z * option oerror) :=
  match owners with
  | [] => mret (successful, werr)
  | mem :: owners =>
      let x := if timeout =? nilTimeout then None else Some (protocol.PutExExtra timeout) in
      r ← requestTo serve n (host_String mem) protocol.OpPutBackup (request x name key value);
      match r with
      | inl err =>
          backup_loop n name key value timeout owners successful
            (Some (default err werr))
      | inr _ => backup_loop n name key value timeout owners (to_signed 32 (successful + 1)) werr
      end
  end.

Definition putKeyValBackup (n : list byte) (hkey : Z) (name key value : list byte)
    (timeout : Z) : M (option oerror) :=
  db ← get_node n;
  let memCount := numMembers db in
  let backupCount := calcMaxBackupCount (BackupCount (config db)) memCount in
  owners ← lift (getBackupPartitionOwners db hkey);
  backupOwners ← lift
    (if backupCount <? len owners
     then checked (0 <=? backupCount) (Return (drop (Z.to_nat (len owners - backupCount)) owners))
     else Return owners);
  match backupOwners with
  | [] => mret None
  | _ =>
      r ← backup_loop n name key value timeout backupOwners 0 None;
      mret (if 1 <=? r.1 then None else r.2)
  end.

(** The body of [putKeyVal] between [dm.Lock()] and the deferred [dm.Unlock()]. *)
Definition putKeyVal_locked (n : list byte) (dm : nat) (hkey : Z) (name key value : list byte)
    (timeout : Z) : M (option oerror) :=
  db ← get_node n;
  berr ← (if negb (BackupCount (config db) =? 0) then
            if BackupMode (config db) =? AsyncBackupMode then
              _ ← go (TaskBackup n hkey name key value timeout); mret None
            else putKeyValBackup n hkey name key value timeout
          else mret None);
  match berr with
  | Some err => mret (Some (EText (text "failed to create backup in sync mode: " ++ error_text err)))
  | None =>
      db ← get_node n;
      let ttl := if timeout =? 0 then 0 else getTTL db timeout in
      err ← str_call n dm (fun s => kv_put s hkey (mkVData key ttl value));
      match err with
      | Some err => mret (Some (EStorage err))
      | None =>
          _ ← oplog_if_snapshot n dm hkey opPut;
          _ ← purgeOldVersions n hkey name key;
          mret None
      end
  end.

Definition putKeyVal (n : list byte) (hkey : Z) (name key value : list byte) (timeout : Z)
    : M (option oerror) :=
  r ← getDMap n name hkey;
  match r with
  | inl err => mret (Some err)
  | inr dm =>
      _ ← dm_Lock n dm;
      err ← putKeyVal_locked n dm hkey name key value timeout;
      _ ← dm_Unlock n dm;
      mret err
  end.

(** The error of a call whose response is not used. *)
Definition error_of {A} (r : oerror + A) : option oerror :=
  match r with inl err => Some err | inr _ => None end.

Definition put (n name key value : list byte) (timeout : Z) : M (option oerror) :=
  db ← get_node n;
  r ← lift (locateKey db name key);
  match r with
  | inl err => mret (Some err)
  | inr (member, hkey) =>
      if negb (hostCmp member (this db)) then
        let '(opcode, x) :=
          if timeout =? nilTimeout then (protocol.OpExPut, None)
          else (protocol.OpExPutEx, Some (protocol.PutExExtra timeout)) in
        r ← requestTo serve n (host_String member) opcode (request x name key value);
        mret (error_of r)
      else putKeyVal n hkey name key value timeout
  end.

(** The response of a handler that reports every error alike. *)
Definition answer (req : Message) (err : option oerror) : Message :=
  match err with
  | Some err => protocol.Error req protocol.StatusInternalServerError (error_text err)
  | None => protocol.Success req
  end.

Definition exPutOperation (n : list byte) (req : Message) : M Message :=
  err ← put n (protocol.DMap req) (protocol.Key req) (protocol.Value req) nilTimeout;
  mret (answer req err).

Definition exPutExOperation (n : list byte) (req : Message) : M Message :=
  match protocol.Extra req with
  | Some (protocol.PutExExtra ttl) =>
      err ← put n (protocol.DMap req) (protocol.Key req) (protocol.Value req) ttl;
      mret (answer req err)
  | _ => panic
  end.

Definition putBackupOperation (n : list byte) (req : Message) : M Message :=
  let hkey := getHKey (protocol.DMap req) (protocol.Key req) in
  r ← getBackupDMap n (protocol.DMap req) hkey;
  match r with
  | inl err => mret (answer req (Some err))
  | inr dm =>
      db ← get_node n;
      ttl ← lift match protocol.Extra req with
                 | None => Return 0
                 | Some (protocol.PutExExtra t) => Return (if t =? 0 then 0 else getTTL db t)
                 | Some _ => Panic
                 end;
      err ← str_call n dm
              (fun s => kv_put s hkey (mkVData (protocol.Key req) ttl (protocol.Value req)));
      match err with
      | Some err => mret (answer req (Some (EStorage err)))
      | None => _ ← oplog_if_snapshot n dm hkey opPut; mret (protocol.Success req)
      end
  end.

(** ** Get *)

(** The loop over the previous owners and the one over the backups differ in the code
    of the request; the loop ends at the first host that does not answer that it does
    not have the key. *)
Fixpoint get_loop (n : list byte) (op : Z) (name key : list byte) (owners : list host)
    : M (option (oerror + list byte)) :=
  match owners with
  | [] => mret None
  | owner :: owners =>
      r ← requestTo serve n (host_String owner) op (request None name key []);
      match r with
      | inl err =>
          if decide (err = OErrKeyNotFound) then get_loop n op name key owners
          else mret (Some (inl err))
      | inr resp => mret (Some (inr (protocol.Value resp)))
      end
  end.

Definition getKeyVal (n : list byte) (hkey : Z) (name key : list byte)
    : M (oerror + list byte) :=
  r ← getDMap n name hkey;
  match r with
  | inl err => mret (inl err)
  | inr dm =>
      d ← get_dm n dm;
      db ← get_node n;
      r ← lift (kv_get (dm_str d) hkey);
      match r with
      | (Some value, None) =>
          mret (if isKeyExpired db (vd_TTL value) then inl OErrKeyNotFound
                else inr (vd_Value value))
      | (None, None) => panic
      | (_, Some _) =>
          owners ← lift (getPartitionOwners db hkey);
          if decide (owners = []) then panic else
          r ← get_loop n protocol.OpGetPrev name key (previous owners);
          match r with
          | Some r => mret r
          | None =>
              db ← get_node n;
              backups ← lift (getBackupPartitionOwners db hkey);
              r ← get_loop n protocol.OpGetBackup name key backups;
              mret (default (inl OErrKeyNotFound) r)
          end
      end
  end.

Definition get (n name key : list byte) : M (oerror + list byte) :=
  db ← get_node n;
  r ← lift (locateKey db name key);
  match r with
  | inl err => mret (inl err)
  | inr (member, hkey) =>
      if negb (hostCmp member (this db)) then
        r ← requestTo serve n (host_String member) protocol.OpExGet (request None name key []);
        mret match r with inl err => inl err | inr resp => inr (protocol.Value resp) end
      else getKeyVal n hkey name key
  end.

Definition with_value (v : list byte) (m : Message) : Message :=
  mkMessage (protocol.Hdr m) (protocol.Extra m) (protocol.DMap m) (protocol.Key m) v.

Definition exGetOperation (n : list byte) (req : Message) : M Message :=
  r ← get n (protocol.DMap req) (protocol.Key req);
  mret match r with
  | inl err =>
      if decide (err = OErrKeyNotFound) then protocol.Error req protocol.StatusKeyNotFound []
      else answer req (Some err)
  | inr value => with_value value (protocol.Success req)
  end.

(** The response of the handlers that read the storage of their node. *)
Definition found (db : Olric S N) (req : Message) (r : option VData * option serror)
    : comp Message :=
  match r with
  | (_, Some err) =>
      Return (if decide (err = ErrKeyNotFound)
              then protocol.Error req protocol.StatusKeyNotFound []
              else answer req (Some (EStorage err)))
  | (None, None) => Panic
  | (Some vdata, None) =>
      Return (if isKeyExpired db (vd_TTL vdata)
              then protocol.Error req protocol.StatusKeyNotFound []
              else with_value (vd_Value vdata) (protocol.Success req))
  end.

Definition getBackupOperation (n : list byte) (req : Message) : M Message :=
  let hkey := getHKey (protocol.DMap req) (protocol.Key req) in
  r ← getBackupDMap n (protocol.DMap req) hkey;
  match r with
  | inl err => mret (answer req (Some err))
  | inr dm =>
      d ← get_dm n dm;
      db ← get_node n;
      r ← lift (kv_get (dm_str d) hkey);
      lift (found db req r)
  end.

Definition getPrevOperation (n : list byte) (req : Message) : M Message :=
  let hkey := getHKey (protocol.DMap req) (protocol.Key req) in
  db ← get_node n;
  part ← lift (getPartition db hkey);
  match p_m part !! protocol.DMap req with
  | None => mret (protocol.Error req protocol.StatusKeyNotFound [])
  | Some dm =>
      d ← get_dm n dm;
      r ← lift (kv_get (dm_str d) hkey);
      lift (found db req r)
  end.

(** ** Delete *)
Fixpoint delete_loop (n name key : list byte) (owners : list host) : M (option oerror) :=
  match owners with
  | [] => mret None
  | owner :: owners =>
      r ← requestTo serve n (host_String owner) protocol.OpDeletePrev (request None name key []);
      match r with
      | inl err => mret (Some err)
      | inr _ => delete_loop n name key owners
      end
  end.

(** The goroutines of the errgroup: all of them run, the first error is reported. *)
Fixpoint delete_backup_loop (n name key : list byte) (owners : list host)
    (werr : option oerror) : M (option oerror) :=
  match owners with
  | [] => mret werr
  | mem :: owners =>
      r ← requestTo serve n (host_String mem) protocol.OpDeleteBackup (request None name key []);
      delete_backup_loop n name key owners
        (match werr with Some _ => werr | None => error_of r end)
  end.

Definition deleteKeyValBackup (n : list byte) (hkey : Z) (name key : list byte)
    : M (option oerror) :=
  db ← get_node n;
  backupOwners ← lift (getBackupPartitionOwners db hkey);
  delete_backup_loop n name key backupOwners None.

Definition delKeyVal (n : list byte) (dm : nat) (hkey : Z) (name key : list byte)
    : M (option oerror) :=
  db ← get_node n;
  owners ← lift (getPartitionOwners db hkey);
  if decide (owners = []) then panic else
  err ← delete_loop n name key (previous owners);
  match err with
  | Some err => mret (Some err)
  | None =>
      err ← (if negb (BackupCount (config db) =? 0) then deleteKeyValBackup n hkey name key
             else mret None);
      match err with
      | Some err => mret (Some err)
      | None =>
          _ ← oplog_if_snapshot n dm hkey opDel;
          err ← str_call n dm (fun s => kv_delete s hkey);
          mret (EStorage <$> err)
      end
  end.

Definition deleteKey (n name key : list byte) : M (option oerror) :=
  db ← get_node n;
  r ← lift (locateKey db name key);
  match r with
  | inl err => mret (Some err)
  | inr (member, hkey) =>
      if negb (hostCmp member (this db)) then
        r ← requestTo serve n (host_String member) protocol.OpExDelete (request None name key []);
        mret (error_of r)
      else
        r ← getDMap n name hkey;
        match r with
        | inl err => mret (Some err)
        | inr dm =>
            _ ← dm_Lock n dm;
            err ← delKeyVal n dm hkey name key;
            _ ← dm_Unlock n dm;
            mret err
        end
  end.

Definition exDeleteOperation (n : list byte) (req : Message) : M Message :=
  err ← deleteKey n (protocol.DMap req) (protocol.Key req);
  mret (answer req err).

(** [deletePrevOperation] and [deleteBackupOperation] differ in the table of the map. *)
Definition delete_local (bk : bool) (n : list byte) (req : Message) : M Message :=
  let hkey := getHKey (protocol.DMap req) (protocol.Key req) in
  r ← get_dmap_of n bk (protocol.DMap req) hkey;
  match r with
  | inl err => mret (answer req (Some err))
  | inr dm =>
      _ ← dm_Lock n dm;
      err ← str_call n dm (fun s => kv_delete s hkey);
      match err with
      | Some err => _ ← dm_Unlock n dm; mret (answer req (Some (EStorage err)))
      | None =>
          _ ← oplog_if_snapshot n dm hkey opDel;
          _ ← dm_Unlock n dm;
          mret (protocol.Success req)
      end
  end.
Definition deletePrevOperation : list byte → Message → M Message := delete_local false.
Definition deleteBackupOperation : list byte → Message → M Message := delete_local true.

(** ** The methods of [DMap] *)
Section api.
Context {V : Type} `{!Serializer V}.

Definition unmarshalValue (rawval : list byte) : oerror + V :=
  match sUnmarshal rawval with
  | inl err => inl err
  | inr value => inr (match v_kind value with KEmptyStruct => v_nil | _ => value end)
  end.

Definition DMap_PutEx (n name key : list byte) (value : V) (timeout : Z) : M (option oerror) :=
  match sMarshal value with
  | inl err => mret (Some err)
  | inr val => put n name key val timeout
  end.
Definition DMap_Put (n name key : list byte) (value : V) : M (option oerror) :=
  DMap_PutEx n name key value nilTimeout.

Definition DMap_Get (n name key : list byte) : M (oerror + V) :=
  r ← get n name key;
  mret match r with
  | inl err => inl err
  | inr rawval => unmarshalValue rawval
  end.

Definition DMap_Delete (n name key : list byte) : M (option oerror) := deleteKey n name key.
End api.
End dmaps.
End dmaps.
