(* ===== verification/DMapLock.v ===== *)
(** Locks and atomic operations on the keys of a distributed map: [dmap_lock.go],
    [dmap_atomic.go]. *)

From S2P Require Export DMap.

Module dlocks.
Export dmaps.

Section dlocks.
Context {S N : Type} `{!KV S} `{!Snap S N} `{!Env}.
Abbreviation M := (olric.M S N).
Variable serve : list byte → Message → M (option Message).

(** A method call on [dm.locker]; a nil locker is dereferenced. *)
Definition locker_call {E} (n : list byte) (a : nat)
    (f : locker.locker → comp (locker.locker * E)) : M E :=
  d ← get_dm n a;
  match dm_locker d with
  | None => panic
  | Some l =>
      r ← lift (f l);
      _ ← put_dm n a (mkDmap (dm_mu d) (Some r.1) (dm_oplog d) (dm_str d));
      mret r.2
  end.

Definition locker_check (n : list byte) (a : nat) (key : list byte) : M bool :=
  locker_call n a (fun l => Return (l, locker.check l key)).
Definition locker_lock (n : list byte) (a : nat) (key : list byte) : M unit :=
  locker_call n a (fun l => l ← locker.lock l key; Return (l, tt)).
Definition locker_unlock (n : list byte) (a : nat) (key : list byte) : M (option oerror) :=
  err ← locker_call n a (fun l => locker.unlock l key);
  mret ((fun _ : locker.lerror => OErrNoSuchLock) <$> err).

(** ** Finding a lock *)
Fixpoint find_lock_loop (n name key : list byte) (owners : list host)
    : M (oerror + host) :=
  db ← get_node n;
  match owners with
  | [] => mret (inr (this db))
  | owner :: owners =>
      if hostCmp (this db) owner then find_lock_loop n name key owners else
      r ← requestTo serve n (host_String owner) protocol.OpFindLock (request None name key []);
      match r with
      | inr _ => mret (inr owner)
      | inl err =>
          if decide (err = OErrNoSuchLock) then find_lock_loop n name key owners
          else mret (inl err)
      end
  end.

Definition findLockKey (n : list byte) (hkey : Z) (name key : list byte) : M (oerror + host) :=
  db ← get_node n;
  part ← lift (getPartition db hkey);
  match p_owners part with
  | [] => panic
  | [o] => if hostCmp (this db) o then mret (inr (this db))
           else find_lock_loop n name key [o]
  | owners => find_lock_loop n name key (rev owners)
  end.

(** ** The goroutine that enforces the timeout

    It asks for the channel when it starts and then waits for one of three events; [ev]
    is the event the [select] takes. *)
Inductive wait_event := TimeoutElapsed | ContextDone | UnlockNotified.

Definition wait_start (n : list byte) (dm : nat) (key : list byte) : M (option nat) :=
  locker_call n dm (fun l => ch ← locker.unlockNotifier l key; Return (l, ch)).

Definition waitLockForTimeout (n : list byte) (dm : nat) (key : list byte)
    (unlockCh : option nat) (ev : wait_event) : M unit :=
  match ev with
  | UnlockNotified =>
      ready ← locker_call n dm (fun l => Return (l, locker.chan_ready l unlockCh));
      if ready : bool then mret tt else block
  | _ => _ ← locker_unlock n dm key; mret tt
  end.

(** ** Lock and unlock *)
Definition lockKey (n : list byte) (hkey : Z) (name key : list byte) (timeout : Z)
    : M (option oerror) :=
  r ← getDMap n name hkey;
  match r with
  | inl err => mret (Some err)
  | inr dm =>
      held ← locker_check n dm key;
      if held : bool then
        _ ← locker_lock n dm key;
        _ ← go (TaskLockTimeout n dm key timeout);
        mret None
      else
        r ← findLockKey n hkey name key;
        match r with
        | inl err => mret (Some err)
        | inr owner =>
            db ← get_node n;
            if negb (hostCmp (this db) owner) then
              r ← requestTo serve n (host_String owner) protocol.OpLockPrev
                    (request (Some (protocol.LockWithTimeoutExtra timeout)) name key []);
              mret (error_of r)
            else
              _ ← locker_lock n dm key;
              _ ← go (TaskLockTimeout n dm key timeout);
              mret None
        end
  end.

Definition lockWithTimeout (n name key : list byte) (timeout : Z) : M (option oerror) :=
  db ← get_node n;
  r ← lift (locateKey db name key);
  match r with
  | inl err => mret (Some err)
  | inr (member, hkey) =>
      if negb (hostCmp member (this db)) then
        r ← requestTo serve n (host_String member) protocol.OpExLockWithTimeout
              (request (Some (protocol.LockWithTimeoutExtra timeout)) name key []);
        mret (error_of r)
      else lockKey n hkey name key timeout
  end.

Definition DMap_LockWithTimeout (n name key : list byte) (timeout : Z) : M (option oerror) :=
  lockWithTimeout n name key timeout.

Definition unlockKey (n : list byte) (hkey : Z) (name key : list byte) : M (option oerror) :=
  r ← findLockKey n hkey name key;
  match r with
  | inl err => mret (Some err)
  | inr owner =>
      db ← get_node n;
      if negb (hostCmp (this db) owner) then
        r ← requestTo serve n (host_String owner) protocol.OpUnlockPrev (request None name key []);
        mret (error_of r)
      else
        r ← getDMap n name hkey;
        match r with
        | inl err => mret (Some err)
        | inr dm => locker_unlock n dm key
        end
  end.

Definition unlock (n name key : list byte) : M (option oerror) :=
  db ← get_node n;
  timed_out ← lift (await_bootstrap db);
  if timed_out : bool then mret (Some ErrOperationTimeout) else
  r ← lift (locateKey db name key);
  match r with
  | inl err => mret (Some err)
  | inr (member, hkey) =>
      if negb (hostCmp member (this db)) then
        r ← requestTo serve n (host_String member) protocol.OpExUnlock (request None name key []);
        mret (error_of r)
      else unlockKey n hkey name key
  end.

Definition DMap_Unlock (n name key : list byte) : M (option oerror) := unlock n name key.

Definition exLockWithTimeoutOperation (n : list byte) (req : Message) : M Message :=
  match protocol.Extra req with
  | Some (protocol.LockWithTimeoutExtra ttl) =>
      err ← lockWithTimeout n (protocol.DMap req) (protocol.Key req) ttl;
      mret (answer req err)
  | _ => panic
  end.

(** The response of the handlers that tell a missing lock from the other errors. *)
Definition unlock_answer (req : Message) (err : option oerror) : Message :=
  if decide (err = Some OErrNoSuchLock) then protocol.Error req protocol.StatusNoSuchLock []
  else answer req err.

Definition exUnlockOperation (n : list byte) (req : Message) : M Message :=
  err ← unlock n (protocol.DMap req) (protocol.Key req);
  mret (unlock_answer req err).

Definition findLockOperation (n : list byte) (req : Message) : M Message :=
  let hkey := getHKey (protocol.DMap req) (protocol.Key req) in
  r ← getDMap n (protocol.DMap req) hkey;
  match r with
  | inl err => mret (answer req (Some err))
  | inr dm =>
      held ← locker_check n dm (protocol.Key req);
      mret (if held : bool then protocol.Success req
            else protocol.Error req protocol.StatusNoSuchLock [])
  end.

Definition unlockPrevOperation (n : list byte) (req : Message) : M Message :=
  let hkey := getHKey (protocol.DMap req) (protocol.Key req) in
  r ← getDMap n (protocol.DMap req) hkey;
  match r with
  | inl err => mret (answer req (Some err))
  | inr dm =>
      err ← locker_unlock n dm (protocol.Key req);
      mret (unlock_answer req err)
  end.

Definition lockPrevOperation (n : list byte) (req : Message) : M Message :=
  let hkey := getHKey (protocol.DMap req) (protocol.Key req) in
  r ← getDMap n (protocol.DMap req) hkey;
  match r with
  | inl err => mret (answer req (Some err))
  | inr dm =>
      _ ← locker_lock n dm (protocol.Key req);
      match protocol.Extra req with
      | Some (protocol.LockWithTimeoutExtra ttl) =>
          _ ← go (TaskLockTimeout n dm (protocol.Key req) ttl);
          mret (protocol.Success req)
      | _ => panic
      end
  end.

(** ** Atomic operations *)
Definition minute : Z := 60000000000.

Inductive oper := incr | decr | other_oper.

Section atomic.
Context {V : Type} `{!Serializer V}.

(** The body of [atomicIncrDecr] under the lock; the deferred unlock follows. *)
Definition incr_locked (n name key : list byte) (opr : oper) (delta : Z) : M (oerror + Z) :=
  r ← get serve n name key;
  let cur : comp (oerror + Z) :=
    match r with
    | inl err => Return (if decide (err = OErrKeyNotFound) then inr 0 else inl err)
    | inr rawval =>
        match sUnmarshal (V := V) rawval with
        | inl err => Return (inl err)
        | inr value =>
            match v_kind value with
            | KInt i => Return (inr i)
            | KNil => Panic
            | KEmptyStruct => Return (inl (EText (text "mismatched type: ")))
            | KOther t => Return (inl (EText (text "mismatched type: " ++ t)))
            end
        end
    end in
  cur ← lift cur;
  match cur with
  | inl err => mret (inl err)
  | inr curval =>
      let newval :=
        match opr with
        | incr => Some (to_signed 64 (curval + delta))
        | decr => Some (to_signed 64 (curval - delta))
        | other_oper => None
        end in
      match newval with
      | None => mret (inl (EText (text "invalid operation")))
      | Some newval =>
          match sMarshal (v_int newval) with
          | inl err => mret (inl err)
          | inr nval =>
              err ← put serve n name key nval nilTimeout;
              mret (match err with Some err => inl err | None => inr newval end)
          end
      end
  end.

Definition atomicIncrDecr (n name key : list byte) (opr : oper) (delta : Z) : M (oerror + Z) :=
  err ← lockWithTimeout n name key minute;
  match err with
  | Some err => mret (inl err)
  | None =>
      r ← incr_locked n name key opr delta;
      _ ← unlock n name key;
      mret r
  end.

Definition DMap_Incr (n name key : list byte) (delta : Z) : M (oerror + Z) :=
  atomicIncrDecr n name key incr delta.
Definition DMap_Decr (n name key : list byte) (delta : Z) : M (oerror + Z) :=
  atomicIncrDecr n name key decr delta.

(** Whether [get] reads the value of the key from the storage of the node itself. *)
Definition owns_value (n name key : list byte) : M bool :=
  db ← get_node n;
  r ← lift (locateKey db name key);
  match r with
  | inl _ => mret false
  | inr (member, hkey) =>
      if negb (hostCmp member (this db)) then mret false else
      r ← getDMap n name hkey;
      match r with
      | inl _ => mret false
      | inr dm => d ← get_dm n dm; lift (kv_check (dm_str d) hkey)
      end
  end.

(** [getPut]: [None] is the nil slice that stands for a missing key; an empty value is a nil
    slice, too, when it has been read from the wire. *)
Definition getPut_locked (n name key value : list byte) : M (oerror + option (list byte)) :=
  r ← get serve n name key;
  old ← match r with
        | inl err => mret (if decide (err = OErrKeyNotFound) then inr None else inl err)
        | inr [] => own ← owns_value n name key; mret (inr (if own : bool then Some [] else None))
        | inr rawval => mret (inr (Some rawval))
        end;
  match old with
  | inl err => mret (inl err)
  | inr rawval =>
      err ← put serve n name key value nilTimeout;
      mret (match err with Some err => inl err | None => inr rawval end)
  end.

Definition getPut (n name key value : list byte) : M (oerror + option (list byte)) :=
  err ← lockWithTimeout n name key minute;
  match err with
  | Some err => mret (inl err)
  | None =>
      r ← getPut_locked n name key value;
      _ ← unlock n name key;
      mret r
  end.

Definition DMap_GetPut (n name key : list byte) (value : V) : M (oerror + V) :=
  let value := match v_kind value with KNil => v_empty_struct | _ => value end in
  match sMarshal value with
  | inl err => mret (inl err)
  | inr val =>
      r ← getPut n name key val;
      mret match r with
      | inl err => inl err
      | inr None => inr v_nil
      | inr (Some rawval) => sUnmarshal rawval
      end
  end.

Definition exIncrDecrOperation (n : list byte) (req : Message) : M Message :=
  match sUnmarshal (V := V) (protocol.Value req) with
  | inl err => mret (answer req (Some err))
  | inr delta =>
      let op := if protocol.Op (protocol.Hdr req) =? protocol.OpExDecr then decr else incr in
      match v_kind delta with
      | KInt d =>
          r ← atomicIncrDecr n (protocol.DMap req) (protocol.Key req) op d;
          mret match r with
          | inl err => answer req (Some err)
          | inr newval =>
              match sMarshal (v_int newval) with
              | inl err => answer req (Some err)
              | inr data => with_value data (protocol.Success req)
              end
          end
      | _ => panic
      end
  end.

Definition exGetPutOperation (n : list byte) (req : Message) : M Message :=
  r ← getPut n (protocol.DMap req) (protocol.Key req) (protocol.Value req);
  mret match r with
  | inl err => answer req (Some err)
  | inr oldval => with_value (default [] oldval) (protocol.Success req)
  end.
End atomic.
End dlocks.
End dlocks.
