(* ===== verification/Routing.v ===== *)
(** Membership and the routing table: [discovery.go], [routing.go].

    The coordinator, the oldest member, computes the owners and the backups of every
    partition from the consistent-hash ring and sends them to the other members. *)

From stdpp Require Export sorting.
From S2P Require Export DMap.

(** [NodeMetadata] as [msgpack] encodes it. *)
Record NodeMetadata := mkMetadata { md_Birthdate : Z }.

(** [sort.Slice] by birth date: some sorted permutation, the sort is not stable. *)
Class BirthdateSort := {
  sort_members : list olric.host → list olric.host;
  sort_members_perm l : sort_members l ≡ₚ l;
  sort_members_sorted l :
    StronglySorted (fun h1 h2 => olric.Birthdate h1 ≤ olric.Birthdate h2) (sort_members l)
}.

Record route := mkRoute { Owners : list olric.host; Backups : list olric.host }.

Module routing.
Export dmaps.

Section routing.
Context {S N : Type} `{!KV S} `{!Snap S N} `{!Env}.
Context `{!BirthdateSort} `{!Codec NodeMetadata} `{!RangeOrder (list byte)} `{!Codec (gmap Z route)}.
Abbreviation M := (olric.M S N).
Abbreviation Olric := (olric.Olric S N).
Variable serve : list byte → Message → M (option Message).

(** ** Discovery *)

(** The metadata of a member; a failure to decode it is ignored. *)
Definition DecodeMeta (buf : list byte) : NodeMetadata :=
  match Unmarshal buf with inr md => md | inl _ => mkMetadata 0 end.

Definition member_host (nd : Node) : host :=
  mkHost (md_Birthdate (DecodeMeta (node_Meta nd))) (node_Name nd).

Definition getMembers (db : Olric) : list host := sort_members (map member_host (members db)).

Fixpoint find_name (name : list byte) (hs : list host) : oerror + host :=
  match hs with
  | [] => inl errHostNotFound
  | h :: hs => if decide (Name h = name) then inr h else find_name name hs
  end.

Definition findMember (db : Olric) (name : list byte) : oerror + host :=
  find_name name (getMembers db).

Definition getCoordinator (db : Olric) : comp host :=
  match getMembers db with h :: _ => Return h | [] => Panic end.

Definition isCoordinator (db : Olric) : comp bool :=
  h ← getCoordinator db; Return (bool_decide (Name h = Name (this db))).

(** ** Events of the membership *)
Inductive node_event := NodeJoin | NodeLeave | NodeUpdate.

(** [handleEvent]: the events sent to the subscribers, in order.  [self] is the
    name of the node.  The loop overwrites the kind of an update in the variable it shares
    between its rounds. *)
Fixpoint handleEvent (self : list byte) (subscribers : list nat) (ev : node_event) (nd : Node)
    : list (nat * (node_event * Node)) :=
  match subscribers with
  | [] => []
  | ch :: chs =>
      if decide (node_Name nd = self) then handleEvent self chs ev nd
      else match ev with
           | NodeUpdate =>
               (ch, (NodeLeave, nd)) :: (ch, (NodeJoin, nd)) :: handleEvent self chs NodeLeave nd
           | _ => (ch, (ev, nd)) :: handleEvent self chs ev nd
           end
  end.

Definition processNodeEvent (n : list byte) (ev : node_event) (nd : Node) : M unit :=
  db ← get_node n;
  match ev with
  | NodeJoin => r ← lift (consistent.Add (member_host nd) (ring db)); put_node n (set_ring r db)
  | NodeLeave => r ← lift (consistent.Remove (node_Name nd) (ring db)); put_node n (set_ring r db)
  | NodeUpdate => mret tt
  end.

(** ** The owners of a partition *)

(** The loop that puts [owner] at the end of the list, removing its first occurrence. *)
Fixpoint remove_first (o : host) (os : list host) : option (list host) :=
  match os with
  | [] => None
  | x :: os => if hostCmp x o then Some os
               else (fun l => x :: l) <$> remove_first o os
  end.
Definition move_to_end (o : host) (os : list host) : list host :=
  match remove_first o os with
  | Some os => os ++ [o]
  | None => os ++ [o]
  end.

(** Prune dead nodes: the hosts that are members, with the same birth date. *)
Fixpoint prune_dead (db : Olric) (os : list host) : list host :=
  match os with
  | [] => []
  | o :: os =>
      match findMember db (Name o) with
      | inl _ => prune_dead db os
      | inr cur => if hostCmp o cur then cur :: prune_dead db os else prune_dead db os
      end
  end.

(** Prune empty nodes: the hosts that still hold maps of the partition, or may. *)
Fixpoint prune_empty (n : list byte) (bk : bool) (partID : Z) (os : list host)
    : M (list host) :=
  match os with
  | [] => mret []
  | o :: os =>
      db ← get_node n;
      if hostCmp (this db) o then
        part ← lift (part_at bk db partID);
        rest ← prune_empty n bk partID os;
        mret (if p_count part =? 0 then rest else o :: rest)
      else
        r ← requestTo serve n (host_String o)
              (if bk then protocol.OpIsBackupEmpty else protocol.OpIsPartEmpty)
              (request (Some (protocol.IsPartEmptyExtra partID)) [] [] []);
        rest ← prune_empty n bk partID os;
        mret (match r with inl _ => o :: rest | inr _ => rest end)
  end.

(** [part.owners = os] on the partition [partID] of the node. *)
Definition put_owners (n : list byte) (bk : bool) (partID : Z) (os : list host) : M unit :=
  db ← get_node n;
  part ← lift (part_at bk db partID);
  put_node n (set_part bk (set_owners os part) db).

Definition rt_get (rt : gmap Z route) (partID : Z) : route :=
  default (mkRoute [] []) (rt !! partID).

Definition distributePrimaryCopies (n : list byte) (partID : Z) (rt : gmap Z route)
    : M (gmap Z route) :=
  db ← get_node n;
  part ← lift (part_at false db partID);
  match consistent.GetPartitionOwner (ring db) partID with
  | None => panic
  | Some owner =>
      let data := rt_get rt partID in
      let finish (os : list host) : M (gmap Z route) :=
        _ ← put_owners n false partID os;
        mret (<[partID := mkRoute os (Backups data)]> rt) in
      if decide (p_owners part = []) then finish [owner] else
      let os := move_to_end owner (p_owners part) in
      _ ← put_owners n false partID os;
      match rev (prune_dead db os) with
      | [] => panic
      | lst :: init =>
          owners ← prune_empty n false partID (rev init);
          finish (owners ++ [lst])
      end
  end.

Definition distributeBackups (n : list byte) (partID : Z) (rt : gmap Z route)
    (backupCount : Z) : M (gmap Z route) :=
  db ← get_node n;
  r ← lift (consistent.GetClosestNForPartition (ring db) partID backupCount);
  match r with
  | inl _ => mret rt
  | inr bs =>
      part ← lift (part_at true db partID);
      let data := rt_get rt partID in
      let finish (os : list host) : M (gmap Z route) :=
        _ ← put_owners n true partID os;
        mret (<[partID := mkRoute (Owners data) os]> rt) in
      if decide (p_owners part = []) then finish bs else
      let os := foldl (fun os b => move_to_end b os) (p_owners part) bs in
      _ ← put_owners n true partID os;
      let tmp := prune_dead db os in
      let k := len tmp - backupCount in
      if (k <? 0) || (len tmp <? k) then panic else
      tbackups ← prune_empty n true partID (take (Z.to_nat k) tmp);
      finish (tbackups ++ drop (Z.to_nat k) tmp)
  end.

Fixpoint distribute_loop (n : list byte) (backupCount : Z) (ids : list Z) (rt : gmap Z route)
    : M (gmap Z route) :=
  match ids with
  | [] => mret rt
  | partID :: ids =>
      rt ← distributePrimaryCopies n partID rt;
      db ← get_node n;
      rt ← (if negb (BackupCount (config db) =? 0) && negb (backupCount =? 0)
            then distributeBackups n partID rt backupCount else mret rt);
      distribute_loop n backupCount ids rt
  end.

(** The partition identifiers, in the order of the loops. *)
Definition part_ids (db : Olric) : list Z :=
  map Z.of_nat (seq 0 (Z.to_nat (PartitionCount (config db)))).

Definition distributePartitions (n : list byte) : M (gmap Z route) :=
  db ← get_node n;
  let memCount := len (consistent.GetMembers (ring db)) in
  let backupCount := calcMaxBackupCount (BackupCount (config db)) memCount in
  distribute_loop n backupCount (part_ids db) ∅.

(** ** Sending the table *)
Fixpoint update_loop (n : list byte) (data : list byte) (mems : list host)
    (werr : option oerror) : M (option oerror) :=
  match mems with
  | [] => mret werr
  | mem :: mems =>
      db ← get_node n;
      if hostCmp mem (this db) then update_loop n data mems werr else
      r ← requestTo serve n (host_String mem) protocol.OpUpdateRouting (request None [] [] data);
      update_loop n data mems (match werr with Some _ => werr | None => error_of r end)
  end.

Definition updateRoutingOnCluster (n : list byte) (rt : gmap Z route) : M (option oerror) :=
  match Marshal rt with
  | inl _ => mret None
  | inr data => db ← get_node n; update_loop n data (consistent.GetMembers (ring db)) None
  end.

Fixpoint set_routes (n : list byte) (rs : list (Z * route)) : M unit :=
  match rs with
  | [] => mret tt
  | (partID, data) :: rs =>
      _ ← put_owners n false partID (Owners data);
      _ ← put_owners n true partID (Backups data);
      set_routes n rs
  end.

(** [db.bcancel()]: a context that has expired stays so. *)
Definition bcancel (n : list byte) : M unit :=
  db ← get_node n;
  put_node n (match bcx db with BootPending => set_bcx BootCanceled db | _ => db end).

Definition updateRoutingOperation (n : list byte) (req : Message) : M Message :=
  match Unmarshal (A := gmap Z route) (protocol.Value req) with
  | inl err => mret (answer req (Some (EStorage err)))
  | inr rt =>
      _ ← set_routes n (map_to_list rt);
      _ ← bcancel n;
      _ ← go (TaskFsck n);
      mret (protocol.Success req)
  end.

Definition part_empty (bk : bool) (status : Z) (n : list byte) (req : Message) : M Message :=
  match protocol.Extra req with
  | Some (protocol.IsPartEmptyExtra partID) =>
      db ← get_node n;
      part ← lift (part_at bk db partID);
      mret (if p_count part =? 0 then protocol.Success req else protocol.Error req status [])
  | _ => panic
  end.
Definition isPartEmptyOperation : list byte → Message → M Message :=
  part_empty false protocol.StatusPartNotEmpty.
Definition isBackupEmptyOperation : list byte → Message → M Message :=
  part_empty true protocol.StatusBackupNotEmpty.

(** ** Joining the cluster

    [dsc] is what [newDiscovery] and [join] give: an error, or the members known after the
    join; [serr] is the error of [discovery.shutdown], if any.  The node is named after its
    configuration, so [n] is [db.config.Name]. *)
Definition startDiscovery (n : list byte) (dsc : oerror + list Node) (serr : option oerror)
    : M (option oerror) :=
  match dsc with
  | inl err => mret (Some err)
  | inr mems =>
      db ← get_node n;
      let db := joined (this db) mems (ring db) db in
      _ ← put_node n db;
      match findMember db n with
      | inl err => mret (Some (default err serr))
      | inr self =>
          r ← lift (consistent.Add self (ring db));
          let db := joined self mems r db in
          _ ← put_node n db;
          coordinator ← lift (isCoordinator db);
          if coordinator : bool then
            _ ← distributePartitions n;
            _ ← bcancel n;
            mret None
          else mret None
      end
  end.
End routing.
End routing.
