(* ===== verification/Lifecycle.v ===== *)
(** The life of a node: [Start], the restoration of its maps from the snapshot, the
    synchronisation of its logs, its clock, and [Shutdown] ([olric.go]). *)

From S2P Require Export Routing.

Module lifecycle.
Export routing.

Section lifecycle.
Context {S N : Type} `{!KV S} `{!Snap S N} `{!Env}.
Context `{!BirthdateSort} `{!Codec NodeMetadata} `{!RangeOrder (list byte)} `{!Codec (gmap Z route)}.
Abbreviation M := (olric.M S N).
Abbreviation Olric := (olric.Olric S N).
Abbreviation OpLog := (snapshot.OpLog S).

(** ** Restoring the maps *)
Definition restoreDMap (n : list byte) (bk : bool) (partID : Z) (name : list byte) (str : S)
    : M (option oerror) :=
  db ← get_node n;
  part ← lift (part_at bk db partID);
  let dm := length (heap db) in
  r ← lift (RegisterDMap (snapshot db) bk (p_id part) name dm);
  let db := set_snapshot r.1 db in
  match r.2 with
  | Some err => _ ← put_node n db; mret (Some (ESnap err))
  | None =>
      let d := mkDmap false (Some locker.newLocker) (Some ∅) str in
      let part := add_count 1 (set_m (<[name := dm]> (p_m part)) part) in
      _ ← put_node n (set_heap (heap db ++ [d]) (set_part bk part db));
      mret None
  end.

(** The loop of [restoreFromSnapshot]; [fuel] bounds the number of maps. *)
Fixpoint restore_loop (fuel : nat) (n : list byte) (bk : bool) (l : snapshot.onDiskDMaps)
    : M (option oerror) :=
  match fuel with
  | O => block
  | Datatypes.S fuel =>
      db ← get_node n;
      r ← lift (Next (snapshot db) l);
      match r.2 with
      | inl err =>
          if decide (err = snapshot.ErrLoaderDone) then mret None else mret (Some (ESnap err))
      | inr dm =>
          err ← restoreDMap n bk (snapshot.PartID dm) (snapshot.DName dm) (snapshot.DStorage dm);
          match err with
          | Some err => mret (Some err)
          | None => restore_loop fuel n bk r.1
          end
      end
  end.

Definition restoreFromSnapshot (fuel : nat) (n : list byte) (bk : bool) : M (option oerror) :=
  db ← get_node n;
  match NewLoader (snapshot db) bk with
  | inl err =>
      if decide (err = snapshot.ErrFirstRun) then mret None else mret (Some (ESnap err))
  | inr l => restore_loop fuel n bk l
  end.

(** ** Start

    [listen] is the error of [ListenAndServe], if it ends before the server accepts
    connections; the other arguments are those of [startDiscovery].  [None] means that the
    node has started: the call then waits for the server, and the goroutines for the
    routing table, the eviction and the stale maps run. *)
Variable serve : list byte → Message → M (option Message).

Definition Start (fuel : nat) (n : list byte) (listen : option oerror)
    (dsc : oerror + list Node) (serr : option oerror) : M (option oerror) :=
  db ← get_node n;
  err ← (if OperationMode (config db) =? OpInMemoryWithSnapshot then
           err ← restoreFromSnapshot fuel n false;
           match err with
           | Some err => mret (Some err)
           | None => restoreFromSnapshot fuel n true
           end
         else mret None);
  match err with
  | Some err => mret (Some err)
  | None =>
      match listen with
      | Some err => mret (Some err)
      | None => startDiscovery serve n dsc serr
      end
  end.

(** ** The logs of the maps, as the snapshot engine sees them *)
Definition logs_of (h : list (dmap S)) : list OpLog :=
  map (fun d => snapshot.mkOpLog (default ∅ (dm_oplog d)) (dm_str d)) h.

Definition with_log (d : dmap S) (o : OpLog) : dmap S :=
  mkDmap (dm_mu d) (dm_locker d) ((fun _ => snapshot.ol_m o) <$> dm_oplog d) (dm_str d).
Definition with_logs (h : list (dmap S)) (logs : list OpLog) : list (dmap S) :=
  zip_with with_log h logs.

(** A step of the worker [i] of the engine. *)
Definition snapshot_worker (n : list byte) (i : nat) (ev : snapshot.wevent) : M unit :=
  db ← get_node n;
  r ← lift (worker_step i ev (snapshot db) (logs_of (heap db)));
  put_node n (set_heap (with_logs (heap db) r.2) (set_snapshot r.1 db)).

(** ** The clock: one tick of [updateCurrentUnixNano] *)
Definition updateCurrentUnixNano (n : list byte) (now : Z) : M unit :=
  db ← get_node n;
  put_node n (mkOlric (this db) (config db) (members db) (ring db) (partitions db) (backups db)
                (heap db) (snapshot db) (bcx db) now).

(** ** Shutdown *)

(** [purgeDMaps]: the storages of the maps of a partition are closed; the errors are
    collected. *)
Fixpoint purgeDMaps (n : list byte) (dms : list nat) (result : list oerror) : M (list oerror) :=
  match dms with
  | [] => mret result
  | dm :: dms =>
      err ← str_call n dm kv_close;
      purgeDMaps n dms (result ++ match err with Some err => [EStorage err] | None => [] end)
  end.

(** The references of the maps of all partitions. *)
Definition part_dms (t : gmap Z partition) : list nat :=
  concat (map (fun p => (map_to_list (p_m p.2)).*2) (map_to_list t)).

(** Nobody can reach the node any more. *)
Definition leave (n : list byte) : M unit := fun c =>
  Return (tt, mkCluster (delete n (nodes c)) (net c) (tasks c)).

(** [server_err] and [member_err] are the errors of [db.server.Shutdown] and
    [memberlist.Shutdown]. *)
Definition Shutdown (n : list byte) (server_err member_err : option oerror)
    : M (list oerror * Olric) :=
  let of_option (e : option oerror) := match e with Some e => [e] | None => [] end in
  let result := of_option server_err ++ of_option member_err in
  db ← get_node n;
  result ← (if OperationMode (config db) =? OpInMemoryWithSnapshot then
              r ← lift (snap_Shutdown (snapshot db) (logs_of (heap db)));
              let '(x, logs, err) := r in
              _ ← put_node n (set_heap (with_logs (heap db) logs) (set_snapshot x db));
              mret (result ++ match err with Some err => [ESnap err] | None => [] end)
            else mret result);
  result ← purgeDMaps n (part_dms (partitions db) ++ part_dms (backups db)) result;
  db ← get_node n;
  let db := mkOlric (this db) (config db) (members db) (ring db) ∅ ∅ (heap db) (snapshot db)
              (bcx db) (currentUnixNano db) in
  _ ← leave n;
  mret (result, db).
End lifecycle.
End lifecycle.
