(* ===== verification/Fsck.v ===== *)
(** Moving and removing whole maps: [fsck.go], [dmap_destroy.go] and the janitor of
    [dmap_delete.go].

    [fsck] starts one goroutine per map to move and waits for all of them; they run here
    one after the other, once all of them have been started. *)

From S2P Require Export Routing DMapLock.

Record dmapbox := mkDmapbox {
  box_PartID : Z;
  box_Name : list byte;
  box_Payload : list byte
}.

Module fsck.
Export routing dlocks.

Section fsck.
Context {S N : Type} `{!KV S} `{!Snap S N} `{!Env}.
Context `{!BirthdateSort} `{!Codec NodeMetadata} `{!RangeOrder (list byte)} `{!Codec (gmap Z route)}.
Context `{!Codec dmapbox}.
Abbreviation M := (olric.M S N).
Abbreviation Olric := (olric.Olric S N).
Variable serve : list byte → Message → M (option Message).

(** A call of the snapshot engine of the node. *)
Definition snap_call (n : list byte) (f : N → comp (N * option snapshot.snerror))
    : M (option oerror) :=
  db ← get_node n;
  r ← lift (f (snapshot db));
  _ ← put_node n (set_snapshot r.1 db);
  mret (ESnap <$> r.2).

(** [part.m.Delete(name)], followed by a change [z] of the count of the partition. *)
Definition m_delete (n : list byte) (bk : bool) (partID : Z) (name : list byte) (z : Z) : M unit :=
  db ← get_node n;
  part ← lift (part_at bk db partID);
  let part := set_m (delete name (p_m part)) part in
  put_node n (set_part bk (if z =? 0 then part else add_count z part) db).

(** ** Moving a map *)
Definition moveDMap_locked (n : list byte) (bk : bool) (partID : Z) (name : list byte)
    (dm : nat) (owner : host) : M unit :=
  d ← get_dm n dm;
  busy ← (if bk then mret false
          else match dm_locker d with
               | None => panic
               | Some l => mret (negb (locker.length_ l =? 0))
               end);
  if busy : bool then mret tt else
  payload ← lift (kv_export (dm_str d));
  match payload with
  | inl _ => mret tt
  | inr payload =>
      match Marshal (mkDmapbox partID name payload) with
      | inl _ => mret tt
      | inr value =>
          r ← requestTo serve n (host_String owner)
                (if bk then protocol.OpBackupMoveDMap else protocol.OpMoveDMap)
                (request None [] [] value);
          match r with
          | inl _ => mret tt
          | inr _ =>
              _ ← m_delete n bk partID name (-1);
              _ ← str_call n dm kv_close;
              db ← get_node n;
              if OperationMode (config db) =? OpInMemoryWithSnapshot then
                _ ← snap_call n (fun x => DestroyDMap x bk partID name); mret tt
              else mret tt
          end
      end
  end.

Definition moveDMap (n : list byte) (bk : bool) (partID : Z) (name : list byte) (dm : nat)
    (owner : host) : M unit :=
  _ ← dm_Lock n dm;
  _ ← moveDMap_locked n bk partID name dm owner;
  dm_Unlock n dm.

Fixpoint move_all (n : list byte) (bk : bool) (partID : Z) (jobs : list (host * (list byte * nat)))
    : M unit :=
  match jobs with
  | [] => mret tt
  | (owner, (name, dm)) :: jobs =>
      _ ← moveDMap n bk partID name dm owner;
      move_all n bk partID jobs
  end.

Definition moveDMaps (n : list byte) (part : partition) (owner : host) : M unit :=
  move_all n false (p_id part) (map (fun x => (owner, x)) (map_to_list (p_m part))).

Definition moveBackupDMaps (n : list byte) (part : partition) (backups : list host) : M unit :=
  move_all n true (p_id part)
    (b ← backups; map (fun x => (b, x)) (map_to_list (p_m part))).

(** ** Receiving a map *)

(** The callback of the [Range] in [mergeDMaps]: the state is the storage of the map and
    [merr]. *)
Definition merge_entry (acc : comp (S * option serror)) (hkey : Z) (vdata : option VData)
    : comp (S * option serror) * bool :=
  match acc with
  | Return (d, merr) =>
      match kv_check d hkey, vdata with
      | Return true, _ => (Return (d, merr), true)
      | Return false, Some v =>
          match kv_put d hkey v with
          | Return (d, err) => (Return (d, err), bool_decide (err = None))
          | other => (other, false)
          end
      | Return false, None => (Panic, false)
      | Panic, _ => (Panic, false)
      | Running, _ => (Running, false)
      end
  | other => (other, false)
  end.

Definition mergeDMaps (n : list byte) (bk : bool) (partID : Z) (data : dmapbox)
    : M (option oerror) :=
  r ← lift (kv_import (box_Payload data));
  match r with
  | inl err => mret (Some (EStorage err))
  | inr str =>
      db ← get_node n;
      part ← lift (part_at bk db partID);
      match p_m part !! box_Name data with
      | None =>
          let dm := length (heap db) in
          let fresh := mkDmap false (if bk then None else Some locker.newLocker) None str in
          let part := set_m (<[box_Name data := dm]> (p_m part)) part in
          _ ← put_node n (set_heap (heap db ++ [fresh]) (set_part bk part db));
          mret None
      | Some dm =>
          _ ← dm_Lock n dm;
          d ← get_dm n dm;
          acc ← lift (kv_range merge_entry str (Return (dm_str d, None)));
          r ← lift acc;
          _ ← put_dm n dm (mkDmap (dm_mu d) (dm_locker d) (dm_oplog d) r.1);
          _ ← dm_Unlock n dm;
          mret (EStorage <$> r.2)
      end
  end.

Definition move_operation (bk : bool) (n : list byte) (req : Message) : M Message :=
  match Unmarshal (A := dmapbox) (protocol.Value req) with
  | inl err => mret (answer req (Some (EStorage err)))
  | inr dbox =>
      db ← get_node n;
      part ← lift (part_at bk db (box_PartID dbox));
      if decide (p_owners part = []) then panic else
      err ← mergeDMaps n bk (box_PartID dbox) dbox;
      mret (answer req err)
  end.
Definition moveBackupDMapOperation : list byte → Message → M Message := move_operation true.
Definition moveDMapOperation : list byte → Message → M Message := move_operation false.

(** ** The check of the partitions of a node *)
Fixpoint fsck_primary (n : list byte) (ids : list Z) : M unit :=
  match ids with
  | [] => mret tt
  | partID :: ids =>
      db ← get_node n;
      part ← lift (part_at false db partID);
      _ ← (if p_count part =? 0 then mret tt else
           match rev (p_owners part) with
           | [] => panic
           | primaryOwner :: previous =>
               if existsb (fun node => hostCmp node (this db)) previous
               then moveDMaps n part primaryOwner else mret tt
           end);
      fsck_primary n ids
  end.

Fixpoint fsck_backup (n : list byte) (backupCount : Z) (ids : list Z) : M unit :=
  match ids with
  | [] => mret tt
  | partID :: ids =>
      db ← get_node n;
      bpart ← lift (part_at true db partID);
      let owners := p_owners bpart in
      let k := len owners - backupCount in
      _ ← (if (p_count bpart =? 0) || (len owners <=? backupCount) then mret tt else
           if len owners <? k then panic else
           if existsb (fun node => hostCmp node (this db)) (take (Z.to_nat k) owners)
           then moveBackupDMaps n bpart (drop (Z.to_nat k) owners) else mret tt);
      fsck_backup n backupCount ids
  end.

Definition fsck (n : list byte) : M unit :=
  db ← get_node n;
  _ ← fsck_primary n (part_ids db);
  let backupCount := calcMaxBackupCount (BackupCount (config db)) (numMembers db) in
  fsck_backup n backupCount (part_ids db).

Definition updateRouting (n : list byte) : M unit :=
  db ← get_node n;
  coordinator ← lift (isCoordinator db);
  if negb coordinator then mret tt else
  pm ← distributePartitions serve n;
  _ ← updateRoutingOnCluster serve n pm;
  fsck n.

(** ** Destroying a map on every member *)
Fixpoint destroy_loop (n name : list byte) (mems : list host) (werr : option oerror)
    : M (option oerror) :=
  match mems with
  | [] => mret werr
  | mem :: mems =>
      r ← requestTo serve n (host_String mem) protocol.OpDestroyDMap (request None name [] []);
      destroy_loop n name mems (match werr with Some _ => werr | None => error_of r end)
  end.

Definition destroyDMap (n name : list byte) : M (option oerror) :=
  db ← get_node n;
  timed_out ← lift (await_bootstrap db);
  if timed_out : bool then mret (Some ErrOperationTimeout)
  else destroy_loop n name (getMembers db) None.

Definition DMap_Destroy (n name : list byte) : M (option oerror) := destroyDMap n name.

Definition exDestroyOperation (n : list byte) (req : Message) : M Message :=
  err ← destroyDMap n (protocol.DMap req);
  mret (answer req err).

(** The closure [destroy] on one partition. *)
Definition destroy (n : list byte) (bk : bool) (partID : Z) (name : list byte)
    : M (option oerror) :=
  db ← get_node n;
  part ← lift (part_at bk db partID);
  match p_m part !! name with
  | None => mret None
  | Some dm =>
      err ← str_call n dm kv_close;
      match err with
      | Some err => mret (Some (EStorage err))
      | None =>
          err ← (if OperationMode (config db) =? OpInMemoryWithSnapshot
                 then snap_call n (fun x => DestroyDMap x bk partID name) else mret None);
          match err with
          | Some err => mret (Some err)
          | None => _ ← m_delete n bk partID name 0; mret None
          end
      end
  end.

Fixpoint destroy_parts (n name : list byte) (ids : list Z) : M (option oerror) :=
  match ids with
  | [] => mret None
  | partID :: ids =>
      err ← destroy n false partID name;
      match err with
      | Some err => mret (Some err)
      | None =>
          db ← get_node n;
          err ← (if negb (BackupCount (config db) =? 0) then destroy n true partID name
                 else mret None);
          match err with
          | Some err => mret (Some err)
          | None => destroy_parts n name ids
          end
      end
  end.

Definition destroyDMapOperation (n : list byte) (req : Message) : M Message :=
  db ← get_node n;
  err ← destroy_parts n (protocol.DMap req) (part_ids db);
  mret (answer req err).

(** ** Removing empty maps *)
Fixpoint janitor (n : list byte) (bk : bool) (partID : Z) (l : list (list byte * nat))
    : M unit :=
  match l with
  | [] => mret tt
  | (name, dm) :: l =>
      _ ← dm_Lock n dm;
      d ← get_dm n dm;
      _ ← (if negb (kv_len (dm_str d) =? 0) then mret tt else
           err ← str_call n dm kv_close;
           match err with
           | Some _ => mret tt
           | None =>
               db ← get_node n;
               err ← (if OperationMode (config db) =? OpInMemoryWithSnapshot
                      then snap_call n (fun x => UnregisterDMap x bk partID name)
                      else mret None);
               match err with
               | Some _ => mret tt
               | None => m_delete n bk partID name (-1)
               end
           end);
      _ ← dm_Unlock n dm;
      janitor n bk partID l
  end.

Fixpoint stale_loop (n : list byte) (ids : list Z) : M unit :=
  match ids with
  | [] => mret tt
  | partID :: ids =>
      db ← get_node n;
      part ← lift (part_at false db partID);
      _ ← janitor n false partID (map_to_list (p_m part));
      db ← get_node n;
      bpart ← lift (part_at true db partID);
      _ ← janitor n true partID (map_to_list (p_m bpart));
      stale_loop n ids
  end.

Definition deleteStaleDMaps (n : list byte) : M unit :=
  db ← get_node n; stale_loop n (part_ids db).
End fsck.
End fsck.
