(* ===== verification/Discovery.v ===== *)
(** The discovery of members ([discovery.go]): the delegate of memberlist, and the events of
    the membership on their way from memberlist to the node.

    memberlist sends its events to the channel [eventsCh]; the goroutine [eventLoop] takes
    them from there and sends them to the channels of the subscribers, from which
    [listenMemberlistEvents] of the node receives.  The goroutines are a step relation. *)

From S2P Require Export Fsck.

Module discovery.
Export fsck.

Abbreviation NodeEvent := (node_event * Node)%type.

Definition eventChanCapacity : nat := 32.

(** ** The delegate *)
Record delegate := mkDelegate { dlg_meta : list byte }.

Definition newDelegate `{!Codec NodeMetadata} (birthdate : Z) : oerror + delegate :=
  match Marshal (mkMetadata birthdate) with
  | inl err => inl (EStorage err)
  | inr data => inr (mkDelegate data)
  end.

Definition NodeMeta (d : delegate) (limit : Z) : list byte := dlg_meta d.

(** The messages that memberlist may carry for the program: there are none. *)
Definition NotifyMsg (d : delegate) (data : list byte) : delegate := d.
Definition GetBroadcasts (d : delegate) (overhead limit : Z) : list (list byte) := [].
Definition LocalState (d : delegate) (join : bool) : list byte := [].
Definition MergeRemoteState (d : delegate) (buf : list byte) (join : bool) : delegate := d.

(** ** The discovery *)

(** [eventLoop]: not started; not started while [memberlist.Join] runs, which has the events
    [evs] left to send; in its [select], in the sends of [handleEvent] that are left, returned. *)
Inductive lphase :=
| LNone | LJoining (evs : list NodeEvent)
| LSelect | LSend (todo : list (nat * NodeEvent)) | LReturned.

(** [join] has returned. *)
Definition has_joined (l : lphase) : bool := match l with LNone | LJoining _ => false | _ => true end.

Record discovery := mkDiscovery {
  dsc_Name : list byte;
  dsc_peers : list (list byte);
  dsc_Birthdate : Z;
  dsc_done : bool;                              (* the channel done is closed *)
  dsc_wg : nat;
  eventsCh : list NodeEvent;
  eventSubscribers : list (list NodeEvent);     (* the buffers of their channels *)
  dsc_loop : lphase
}.

(** [newDiscovery]; [birthdate] is the time, [err] the error of [memberlist.Create]. *)
Definition newDiscovery `{!Codec NodeMetadata} (birthdate : Z) (name : list byte)
    (peers : list (list byte)) (err : option oerror) : oerror + discovery :=
  match newDelegate birthdate with
  | inl err => inl err
  | inr _ =>
      match err with
      | Some err => inl err
      | None => inr (mkDiscovery name peers birthdate false 0 [] [] LNone)
      end
  end.

Definition set_events (evs : list NodeEvent) (subs : list (list NodeEvent)) (l : lphase)
    (d : discovery) : discovery :=
  mkDiscovery (dsc_Name d) (dsc_peers d) (dsc_Birthdate d) (dsc_done d) (dsc_wg d) evs subs l.

(** [join]: the call of [memberlist.Join], which sends the events [evs] about the members it
    finds, and what follows it; what it answers is only logged. *)
Definition join_call (evs : list NodeEvent) (d : discovery) : discovery :=
  set_events (eventsCh d) (eventSubscribers d) (LJoining evs) d.
Definition join (d : discovery) : discovery :=
  mkDiscovery (dsc_Name d) (dsc_peers d) (dsc_Birthdate d) (dsc_done d) (dsc_wg d + 1)
    (eventsCh d) (eventSubscribers d) LSelect.

(** The channel of the new subscriber is known by its number. *)
Definition subscribeNodeEvents (d : discovery) : nat * discovery :=
  (length (eventSubscribers d), set_events (eventsCh d) (eventSubscribers d ++ [[]]) (dsc_loop d) d).

(** [eventLoop] returns. *)
Definition loop_return (d : discovery) : discovery :=
  mkDiscovery (dsc_Name d) (dsc_peers d) (dsc_Birthdate d) (dsc_done d) (dsc_wg d - 1)
    (eventsCh d) (eventSubscribers d) LReturned.

Definition close_done (d : discovery) : discovery :=
  mkDiscovery (dsc_Name d) (dsc_peers d) (dsc_Birthdate d) true (dsc_wg d)
    (eventsCh d) (eventSubscribers d) (dsc_loop d).

(** [shutdown] up to [d.wg.Wait()]: the discovery and whether it goes on to wait. *)
Definition shutdown (d : discovery) : discovery * bool :=
  if dsc_done d then (d, false) else (close_done d, true).

(** ** The goroutines *)

(** A call of [shutdown]: none, waiting for the event loop, returned. *)
Inductive dphase := DNone | DWaiting | DReturned.

(** [notified] is what memberlist has sent so far, [received] what the listener of the
    first subscription has received; [listening] tells whether the listener runs. *)
Record sys := mkSys {
  dsc : discovery;
  stopping : dphase;
  listening : bool;
  notified : list NodeEvent;
  received : list NodeEvent
}.

Inductive step : sys → sys → Prop :=
| e_notify d st l ns rs ev :
    (length (eventsCh d) < eventChanCapacity)%nat →
    step (mkSys d st l ns rs)
      (mkSys (set_events (eventsCh d ++ [ev]) (eventSubscribers d) (dsc_loop d) d) st l (ns ++ [ev]) rs)
| e_join_event d st l ns rs ev evs :
    dsc_loop d = LJoining (ev :: evs) → (length (eventsCh d) < eventChanCapacity)%nat →
    step (mkSys d st l ns rs)
      (mkSys (set_events (eventsCh d ++ [ev]) (eventSubscribers d) (LJoining evs) d) st l (ns ++ [ev]) rs)
| e_joined d st l ns rs :
    dsc_loop d = LJoining [] → step (mkSys d st l ns rs) (mkSys (join d) st l ns rs)
| e_take d st l ns rs ev nd evs :
    dsc_loop d = LSelect → eventsCh d = (ev, nd) :: evs →
    step (mkSys d st l ns rs)
      (mkSys (set_events evs (eventSubscribers d)
         (LSend (handleEvent (dsc_Name d) (seq 0 (length (eventSubscribers d))) ev nd)) d) st l ns rs)
| e_send d st l ns rs i ev todo buf :
    dsc_loop d = LSend ((i, ev) :: todo) → eventSubscribers d !! i = Some buf →
    (length buf < eventChanCapacity)%nat →
    step (mkSys d st l ns rs)
      (mkSys (set_events (eventsCh d) (<[i := buf ++ [ev]]> (eventSubscribers d)) (LSend todo) d) st l ns rs)
| e_sent d st l ns rs :
    dsc_loop d = LSend [] →
    step (mkSys d st l ns rs)
      (mkSys (set_events (eventsCh d) (eventSubscribers d) LSelect d) st l ns rs)
| e_return d st l ns rs :
    dsc_loop d = LSelect → dsc_done d = true →
    step (mkSys d st l ns rs) (mkSys (loop_return d) st l ns rs)
| e_listen d ns rs :
    has_joined (dsc_loop d) = true →
    step (mkSys d DNone false ns rs) (mkSys d DNone true ns rs)
| e_receive d st ns rs ev buf :
    eventSubscribers d !! 0%nat = Some (ev :: buf) →
    step (mkSys d st true ns rs)
      (mkSys (set_events (eventsCh d) (<[0%nat := buf]> (eventSubscribers d)) (dsc_loop d) d)
         st true ns (rs ++ [ev]))
| e_unlisten d st ns rs :
    step (mkSys d st true ns rs) (mkSys d st false ns rs)
| e_shutdown d d' l ns rs :
    has_joined (dsc_loop d) = true → shutdown d = (d', true) → step (mkSys d DNone l ns rs) (mkSys d' DWaiting l ns rs)
| e_waited d l ns rs :
    dsc_wg d = 0%nat → step (mkSys d DWaiting l ns rs) (mkSys d DReturned l ns rs).

(** [startDiscovery] subscribes once, joins, and starts the listener or shuts down. *)
Definition started (d : discovery) (evs : list NodeEvent) : sys :=
  mkSys (join_call evs (subscribeNodeEvents d).2) DNone false [] [].

(** ** The listener of a node *)
Section listener.
Context {S N : Type} `{!KV S} `{!Snap S N} `{!Env}.
Context `{!BirthdateSort} `{!Codec NodeMetadata} `{!RangeOrder (list byte)} `{!Codec (gmap Z route)}.
Context `{!Codec dmapbox}.
Abbreviation M := (olric.M S N).
Variable serve : list byte → Message → M (option Message).

(** [listenMemberlistEvents] on the events it receives, until it waits again. *)
Fixpoint listenMemberlistEvents (n : list byte) (evs : list NodeEvent) : M unit :=
  match evs with
  | [] => mret tt
  | evt :: evs =>
      _ ← processNodeEvent n evt.1 evt.2;
      _ ← updateRouting serve n;
      listenMemberlistEvents n evs
  end.
End listener.
End discovery.
