(* ===== verification/Dispatch.v ===== *)
(** The operations a node registers ([olric.go], [registerOperations]) and the cluster
    as a whole: [serve] runs the handler a request asks for, whose own requests are
    served by [serve] in turn.  The fuel bounds the depth of requests within requests. *)

From S2P Require Export Fsck.

Module dispatch.
Export fsck.

Section dispatch.
Context {S N : Type} `{!KV S} `{!Snap S N} `{!Env}.
Context `{!BirthdateSort} `{!Codec NodeMetadata} `{!RangeOrder (list byte)} `{!Codec (gmap Z route)}.
Context `{!Codec dmapbox}.
Context {V : Type} `{!Serializer V}.
Abbreviation M := (olric.M S N).

Section operations.
Variable serve : list byte → Message → M (option Message).

(** The table [server.operations], as [registerOperations] fills it. *)
Definition operation (op : Z) : option (list byte → Message → M Message) :=
  (* Put *)
  if op =? protocol.OpExPut then Some (exPutOperation serve)
  else if op =? protocol.OpExPutEx then Some (exPutExOperation serve)
  else if op =? protocol.OpPutBackup then Some putBackupOperation
  (* Get *)
  else if op =? protocol.OpExGet then Some (exGetOperation serve)
  else if op =? protocol.OpGetPrev then Some getPrevOperation
  else if op =? protocol.OpGetBackup then Some getBackupOperation
  (* Delete *)
  else if op =? protocol.OpExDelete then Some (exDeleteOperation serve)
  else if op =? protocol.OpDeleteBackup then Some deleteBackupOperation
  else if op =? protocol.OpDeletePrev then Some deletePrevOperation
  (* Lock/Unlock *)
  else if op =? protocol.OpExLockWithTimeout then Some (exLockWithTimeoutOperation serve)
  else if op =? protocol.OpExUnlock then Some (exUnlockOperation serve)
  else if op =? protocol.OpFindLock then Some findLockOperation
  else if op =? protocol.OpLockPrev then Some lockPrevOperation
  else if op =? protocol.OpUnlockPrev then Some unlockPrevOperation
  (* Destroy *)
  else if op =? protocol.OpExDestroy then Some (exDestroyOperation serve)
  else if op =? protocol.OpDestroyDMap then Some destroyDMapOperation
  (* Atomic *)
  else if op =? protocol.OpExIncr then Some (exIncrDecrOperation serve (V := V))
  else if op =? protocol.OpExDecr then Some (exIncrDecrOperation serve (V := V))
  else if op =? protocol.OpExGetPut then Some (exGetPutOperation serve)
  (* Internal *)
  else if op =? protocol.OpUpdateRouting then Some updateRoutingOperation
  else if op =? protocol.OpMoveDMap then Some moveDMapOperation
  else if op =? protocol.OpBackupMoveDMap then Some moveBackupDMapOperation
  else if op =? protocol.OpIsPartEmpty then Some isPartEmptyOperation
  else if op =? protocol.OpIsBackupEmpty then Some isBackupEmptyOperation
  else None.
End operations.

Fixpoint serve (fuel : nat) (n : list byte) (req : Message) : M (option Message) :=
  match fuel with
  | O => block
  | Datatypes.S fuel =>
      match operation (serve fuel) (protocol.Op (protocol.Hdr req)) with
      | None => mret None
      | Some opr => resp ← opr n req; mret (Some resp)
      end
  end.
End dispatch.
End dispatch.
