(* ===== verification/Client.v ===== *)
(** The client of a cluster ([client/client.go]): a process of its own that sends its
    requests to one of the addresses it was configured with. *)

From S2P Require Export Dispatch.

Module client.
Export dispatch.

(** ** Configuration *)
Record Config := mkClientConfig { Addrs : list (list byte); MaxConn : Z }.

(** The process of a client has the default of [protocol.MaxValueSize]. *)
Definition MaxValueSize : Z := 2 ^ 20.

Section client.
Context {S N : Type} `{!KV S} `{!Snap S N} `{!Env}.
Context {V : Type} `{!Serializer V}.
Abbreviation M := (olric.M S N).

(** [New]: a nil configuration and an empty list of addresses are refused. *)
Definition New (c : option Config) : oerror + Config :=
  match c with
  | None => inl (EText (text "config cannot be nil"))
  | Some c =>
      if decide (Addrs c = []) then inl (EText (text "addrs list cannot be empty"))
      else inr (mkClientConfig (Addrs c) (if MaxConn c =? 0 then 1 else MaxConn c))
  end.

Variable serve : list byte → Message → M (option Message).
Variable cc : Config.

(** [transport.Client.Request]; [i] is the number [rand.Intn] answers. *)
Definition Request (i : nat) (op : Z) (req : Message) : M (perror + Message) :=
  match Addrs cc !! i with
  | None => panic
  | Some addr => RequestTo serve (mret MaxValueSize) addr op req
  end.

(** The methods that only report an error of the transport. *)
Definition Request_ (i : nat) (op : Z) (req : Message) : M (option oerror) :=
  r ← Request i op req;
  mret match r with inl err => Some (ENet err) | inr _ => None end.

Definition Get (i : nat) (name key : list byte) : M (oerror + V) :=
  r ← Request i protocol.OpExGet (request None name key []);
  mret match r with
  | inl err => inl (ENet err)
  | inr resp =>
      if protocol.Status (protocol.Hdr resp) =? protocol.StatusKeyNotFound
      then inl OErrKeyNotFound else sUnmarshal (protocol.Value resp)
  end.

Definition Put (i : nat) (name key : list byte) (value : V) : M (option oerror) :=
  match sMarshal value with
  | inl err => mret (Some err)
  | inr data => Request_ i protocol.OpExPut (request None name key data)
  end.

Definition PutEx (i : nat) (name key : list byte) (value : V) (timeout : Z) : M (option oerror) :=
  match sMarshal value with
  | inl err => mret (Some err)
  | inr data =>
      Request_ i protocol.OpExPutEx (request (Some (protocol.PutExExtra timeout)) name key data)
  end.

Definition Delete (i : nat) (name key : list byte) : M (option oerror) :=
  Request_ i protocol.OpExDelete (request None name key []).

Definition LockWithTimeout (i : nat) (name key : list byte) (timeout : Z) : M (option oerror) :=
  Request_ i protocol.OpExLockWithTimeout
    (request (Some (protocol.LockWithTimeoutExtra timeout)) name key []).

(** [Unlock] looks at the status of the response before it looks at the error, with
    which the response is nil. *)
Definition Unlock (i : nat) (name key : list byte) : M (option oerror) :=
  r ← Request i protocol.OpExUnlock (request None name key []);
  match r with
  | inl _ => panic
  | inr resp =>
      mret (if protocol.Status (protocol.Hdr resp) =? protocol.StatusNoSuchLock
            then Some OErrNoSuchLock else None)
  end.

Definition Destroy (i : nat) (name : list byte) : M (option oerror) :=
  Request_ i protocol.OpExDestroy (request None name [] []).

(** [incrDecr]: the type assertion [res.(int)] is made before the error is looked at. *)
Definition incrDecr (i : nat) (op : Z) (name key : list byte) (delta : Z) : M (oerror + Z) :=
  match sMarshal (v_int delta) with
  | inl err => mret (inl err)
  | inr value =>
      r ← Request i op (request None name key value);
      match r with
      | inl err => mret (inl (ENet err))
      | inr resp =>
          match sUnmarshal (V := V) (protocol.Value resp) with
          | inl _ => panic
          | inr res => match v_kind res with KInt z => mret (inr z) | _ => panic end
          end
      end
  end.

Definition Incr (i : nat) (name key : list byte) (delta : Z) : M (oerror + Z) :=
  incrDecr i protocol.OpExIncr name key delta.
Definition Decr (i : nat) (name key : list byte) (delta : Z) : M (oerror + Z) :=
  incrDecr i protocol.OpExDecr name key delta.

Definition GetPut (i : nat) (name key : list byte) (value : V) : M (oerror + V) :=
  match sMarshal value with
  | inl err => mret (inl err)
  | inr data =>
      r ← Request i protocol.OpExGetPut (request None name key data);
      mret match r with
      | inl err => inl (ENet err)
      | inr resp =>
          if decide (protocol.Value resp = []) then inr v_nil
          else sUnmarshal (protocol.Value resp)
      end
  end.
End client.
End client.
