(* ===== verification/Eviction.v ===== *)
(** The eviction of expired keys in the background ([dmap_eviction.go]). *)

From S2P Require Export DMap.

Module eviction.
Export dmaps.

Definition maxKcount : Z := 20.

Section eviction.
Context {S N : Type} `{!KV S} `{!Snap S N} `{!Env} `{!RangeOrder (list byte)}.
Abbreviation M := (olric.M S N).
Variable serve : list byte → Message → M (option Message).

(** The storage as the callback of [Range] finds it: [Range] holds the read lock of the
    storage while it calls the callback, and [Delete] takes the read lock again.  When a
    writer, such as the goroutine that merges the tables, has asked for the lock in the
    meantime ([waiting]), the second read lock waits for the writer, which waits for the
    first. *)
Definition under_range (waiting : Z → bool) : KV S := {|
  kv_new := kv_new; kv_put := kv_put; kv_get := kv_get; kv_get_raw := kv_get_raw;
  kv_put_raw := kv_put_raw; kv_check := kv_check;
  kv_delete s h := if waiting h then Running else kv_delete s h;
  kv_len := kv_len; kv_close := kv_close; kv_export := kv_export; kv_import := kv_import;
  kv_range A f s a := kv_range f s a; kv_tables := kv_tables; kv_keys_at := kv_keys_at;
  kv_get_at := kv_get_at; kv_merge := kv_merge
|}.

(** The callback of [janitor] on the keys of one table: [(kcount, dcount)] are its
    counters; it deletes from the storage that is being iterated over. *)
Fixpoint scan_keys (waiting : Z → bool) (n : list byte) (dm : nat) (name : list byte) (i : nat)
    (keys : list Z) (kcount dcount : Z) : M (Z * Z) :=
  match keys with
  | [] => mret (kcount, dcount)
  | hkey :: keys =>
      d ← get_dm n dm;
      r ← lift (kv_get_at (dm_str d) i hkey);
      match r with
      | None => scan_keys waiting n dm name i keys kcount dcount
      | Some vdata =>
          let kcount := kcount + 1 in
          if maxKcount <=? kcount then mret (kcount, dcount) else
          db ← get_node n;
          if isKeyExpired db (vd_TTL vdata) then
            err ← delKeyVal (KV0 := under_range waiting) serve n dm hkey name (vd_Key vdata);
            match err with
            | Some _ => scan_keys waiting n dm name i keys kcount dcount
            | None => scan_keys waiting n dm name i keys kcount (dcount + 1)
            end
          else scan_keys waiting n dm name i keys kcount dcount
      end
  end.

(** The tables, from the last one to the first; [i] tables are left. *)
Fixpoint scan_tables (waiting : nat → Z → bool) (n : list byte) (dm : nat) (name : list byte)
    (i : nat) (kcount dcount : Z) : M Z :=
  match i with
  | O => mret dcount
  | Datatypes.S i =>
      d ← get_dm n dm;
      r ← scan_keys (waiting i) n dm name i (kv_keys_at (dm_str d) i) kcount dcount;
      scan_tables waiting n dm name i r.1 r.2
  end.

(** [janitor]: the number of keys it has deleted. *)
Definition janitor (waiting : nat → Z → bool) (n : list byte) (dm : nat) (name : list byte) : M Z :=
  d ← get_dm n dm;
  scan_tables waiting n dm name (kv_tables (dm_str d)) 0 0.

(** The loop of [scanDMapForEviction]; [fuel] bounds its rounds.  [done] tells at which
    round the context of the node is found done, [waiting], for each round, table and key,
    whether a writer waits for the storage when the key is to be deleted. *)
Fixpoint scan_rounds (fuel : nat) (done : nat → bool) (waiting : nat → nat → Z → bool)
    (n : list byte) (dm : nat) (name : list byte) (totalCount : Z) : M Z :=
  match fuel with
  | O => block
  | Datatypes.S fuel =>
      if done 0%nat then mret totalCount else
      dcount ← janitor (waiting 0%nat) n dm name;
      let totalCount := totalCount + dcount in
      if maxKcount / 4 <=? dcount then
        scan_rounds fuel (fun k => done (Datatypes.S k)) (fun k => waiting (Datatypes.S k)) n dm name totalCount
      else mret totalCount
  end.

Definition scanDMapForEviction (fuel : nat) (done : nat → bool) (waiting : nat → nat → Z → bool)
    (n : list byte) (name : list byte) (dm : nat) : M Z :=
  _ ← dm_Lock n dm;
  totalCount ← scan_rounds fuel done waiting n dm name 0;
  _ ← dm_Unlock n dm;
  mret totalCount.

(** [evictKeys] on the partition that was drawn: [dcount] is set to 0 for each map, so
    that the limit of 20 maps is never reached.  The goroutines run in the order in which
    they are started; none takes a map of another. *)
Fixpoint evict_maps (fuel : nat) (done : nat → bool) (waiting : list byte → nat → nat → Z → bool)
    (n : list byte) (m : gmap (list byte) nat) (names : list (list byte)) : M unit :=
  match names with
  | [] => mret tt
  | name :: names =>
      let dcount := 0 in
      let dcount := dcount + 1 in
      if 20 <=? dcount then mret tt else
      match m !! name with
      | None => evict_maps fuel done waiting n m names
      | Some dm =>
          _ ← scanDMapForEviction fuel done (waiting name) n name dm;
          evict_maps fuel done waiting n m names
      end
  end.

Definition evictKeys (fuel : nat) (done : nat → bool) (waiting : list byte → nat → nat → Z → bool)
    (n : list byte) (partID : Z) : M unit :=
  db ← get_node n;
  part ← lift (part_at false db partID);
  evict_maps fuel done waiting n (p_m part) (range_keys 0 (p_m part)).
End eviction.
End eviction.
