(* ===== verification/GoText.v ===== *)
(** What the command line tools use of Go's standard library: [strings], the regular
    expression of a quoted word, [strconv.Atoi], [time.ParseDuration], [net.SplitHostPort]
    and [flag], on strings as lists of bytes. *)

From Stdlib Require SpecFloat.
From S2P Require Export Bytes.

Module gotext.

Abbreviation str := (list byte).
Definition quote : byte := x22.

(** ** [strings] *)
Fixpoint cut_prefix (p s : str) : option str :=
  match p, s with
  | [], _ => Some s
  | _, [] => None
  | a :: p, b :: s => if decide (a = b) then cut_prefix p s else None
  end.

Definition HasPrefix (s p : str) : bool :=
  match cut_prefix p s with Some _ => true | None => false end.

(** The cutset of every call consists of ASCII characters. *)
Fixpoint TrimLeft (s cutset : str) : str :=
  match s with
  | [] => []
  | b :: s' => if decide (b ∈ cutset) then TrimLeft s' cutset else s
  end.
Definition TrimRight (s cutset : str) : str := rev (TrimLeft (rev s) cutset).
Definition Trim (s cutset : str) : str := TrimRight (TrimLeft s cutset) cutset.

(** [unicode.IsSpace], by the encoding of the character. *)
Definition space1 (b : byte) : bool :=
  (9 <=? unsigned b) && (unsigned b <=? 13) || (unsigned b =? 32).
Definition space2 (b1 b2 : byte) : bool :=
  bool_decide (b1 = xc2 ∧ (b2 = x85 ∨ b2 = xa0)).
Definition space3 (b1 b2 b3 : byte) : bool :=
  bool_decide ((b1, b2, b3) ∈ [(xe1, x9a, x80); (xe2, x80, xa8); (xe2, x80, xa9); (xe2, x80, xaf);
                               (xe2, x81, x9f); (xe3, x80, x80)])
  || bool_decide (b1 = xe2 ∧ b2 = x80) && (128 <=? unsigned b3) && (unsigned b3 <=? 138).

(** Dropping characters, of one, two or three bytes. *)
Fixpoint drop_chars (p1 : byte → bool) (p2 : byte → byte → bool) (p3 : byte → byte → byte → bool)
    (s : str) : str :=
  match s with
  | [] => []
  | b1 :: s1 =>
      if p1 b1 then drop_chars p1 p2 p3 s1 else
      match s1 with
      | [] => s
      | b2 :: s2 =>
          if p2 b1 b2 then drop_chars p1 p2 p3 s2 else
          match s2 with
          | [] => s
          | b3 :: s3 => if p3 b1 b2 b3 then drop_chars p1 p2 p3 s3 else s
          end
      end
  end.
Definition trim_left_space (s : str) : str := drop_chars space1 space2 space3 s.
Definition trim_right_space (s : str) : str :=
  rev (drop_chars space1 (fun b2 b1 => space2 b1 b2) (fun b3 b2 b1 => space3 b1 b2 b3) (rev s)).
Definition TrimSpace (s : str) : str := trim_right_space (trim_left_space s).

(** The parts before and after the first [sep]. *)
Fixpoint cut (s sep : str) : option (str * str) :=
  match cut_prefix sep s with
  | Some rest => Some ([], rest)
  | None =>
      match s with
      | [] => None
      | b :: s => (fun r => (b :: r.1, r.2)) <$> cut s sep
      end
  end.

(** [Split] with a separator that is not empty: each round takes a part off, so the length
    of the string bounds the rounds. *)
Fixpoint split_loop (fuel : nat) (s sep : str) : list str :=
  match fuel with
  | O => [s]
  | S fuel =>
      match cut s sep with
      | None => [s]
      | Some (a, rest) => a :: split_loop fuel rest sep
      end
  end.
Definition Split (s sep : str) : list str := split_loop (length s) s sep.

(** [SplitN(s, sep, 2)]. *)
Definition SplitN2 (s sep : str) : list str :=
  match cut s sep with None => [s] | Some (a, rest) => [a; rest] end.

(** The first group of the first match of the regular expression of a quoted word: what
    is between the first quote and the next one. *)
Definition first_quoted (s : str) : option str :=
  match cut s [quote] with
  | None => None
  | Some (_, rest) => fst <$> cut rest [quote]
  end.

(** ** [strconv.Atoi] *)
Definition digit (b : byte) : option Z :=
  if (48 <=? unsigned b) && (unsigned b <=? 57) then Some (unsigned b - 48) else None.

Fixpoint digits (s : str) (acc : Z) : option Z :=
  match s with
  | [] => Some acc
  | b :: s => match digit b with Some d => digits s (acc * 10 + d) | None => None end
  end.

(** An optional sign. *)
Definition sign (s : str) : bool * str :=
  match s with
  | x2d :: s => (true, s)
  | x2b :: s => (false, s)
  | _ => (false, s)
  end.

Definition Atoi (s : str) : option Z :=
  let '(neg, ds) := sign s in
  if decide (ds = []) then None else
  match digits ds 0 with
  | None => None
  | Some n =>
      let z := if neg : bool then - n else n in
      if (- 2 ^ 63 <=? z) && (z <? 2 ^ 63) then Some z else None
  end.

(** ** [time.ParseDuration] *)

(** [leadingInt]: the number and the rest, or [None] when it does not fit an int64. *)
Fixpoint leadingInt (s : str) (x : Z) : option (Z * str) :=
  match s with
  | [] => Some (x, s)
  | b :: s' =>
      match digit b with
      | None => Some (x, s)
      | Some d =>
          if (2 ^ 63 - 1) / 10 <? x then None else
          let x := x * 10 + d in
          if 2 ^ 63 <=? x then None else leadingInt s' x
      end
  end.

(** [leadingFraction]: the digits that fit, the power of ten and the rest. *)
Fixpoint leadingFraction (s : str) (x scale : Z) (overflow : bool) : Z * Z * str :=
  match s with
  | [] => (x, scale, s)
  | b :: s' =>
      match digit b with
      | None => (x, scale, s)
      | Some d =>
          if overflow then leadingFraction s' x scale true
          else if (2 ^ 63 - 1) / 10 <? x then leadingFraction s' x scale true
          else let y := x * 10 + d in
          if 2 ^ 63 <=? y then leadingFraction s' x scale true
          else leadingFraction s' y (scale * 10) false
      end
  end.

(** The unit, up to the next digit or point. *)
Fixpoint unit_name (s : str) : str * str :=
  match s with
  | [] => ([], [])
  | b :: s' =>
      if decide (b = x2e ∨ is_Some (digit b)) then ([], s)
      else let r := unit_name s' in (b :: r.1, r.2)
  end.

(** [unitMap]; the micro sign has two code points. *)
Definition unitMap (u : str) : option Z :=
  if decide (u = text "ns") then Some 1
  else if decide (u = text "us" ∨ u = [xc2; xb5; x73] ∨ u = [xce; xbc; x73]) then Some 1000
  else if decide (u = text "ms") then Some 1000000
  else if decide (u = text "s") then Some 1000000000
  else if decide (u = text "m") then Some (60 * 1000000000)
  else if decide (u = text "h") then Some (3600 * 1000000000)
  else None.

(** [int64(float64(f) * (float64(unit) / scale))], in double precision. *)
Definition float64_of (z : Z) : SpecFloat.spec_float := SpecFloat.binary_normalize 53 1024 z 0 false.
Definition trunc (x : SpecFloat.spec_float) : Z :=
  match x with
  | SpecFloat.S754_finite s m e =>
      let z := if 0 <=? e then Z.pos m * 2 ^ e else Z.pos m / 2 ^ (- e) in
      if s : bool then - z else z
  | _ => 0
  end.
Definition fraction (f unit scale : Z) : Z :=
  trunc (SpecFloat.SFmul 53 1024 (float64_of f)
           (SpecFloat.SFdiv 53 1024 (float64_of unit) (float64_of scale))).

Inductive derror := DInvalid (orig : str) | DMissingUnit (orig : str) | DUnknownUnit (u orig : str).

(** The loop of [ParseDuration]; each round takes a unit off, so the length of the string
    bounds the rounds. *)
Fixpoint duration_loop (fuel : nat) (orig s : str) (d : Z) : derror + Z :=
  match fuel with
  | O => inl (DInvalid orig)
  | S fuel =>
      match s with
      | [] => inr d
      | b :: _ =>
          if negb (bool_decide (b = x2e ∨ is_Some (digit b))) then inl (DInvalid orig) else
          match leadingInt s 0 with
          | None => inl (DInvalid orig)
          | Some (v, s1) =>
              let pre := negb (length s =? length s1)%nat in
              let '(f, scale, s2, post) :=
                match s1 with
                | x2e :: s1 =>
                    let '(f, scale, s2) := leadingFraction s1 0 1 false in
                    (f, scale, s2, negb (length s1 =? length s2)%nat)
                | _ => (0, 1, s1, false)
                end in
              if negb pre && negb post then inl (DInvalid orig) else
              let '(u, s3) := unit_name s2 in
              if decide (u = []) then inl (DMissingUnit orig) else
              match unitMap u with
              | None => inl (DUnknownUnit u orig)
              | Some unit =>
                  if (2 ^ 63 - 1) / unit <? v then inl (DInvalid orig) else
                  let v := v * unit in
                  let v := if 0 <? f then v + fraction f unit scale else v in
                  if 2 ^ 63 <=? v then inl (DInvalid orig) else
                  let d := d + v in
                  if 2 ^ 63 <=? d then inl (DInvalid orig) else duration_loop fuel orig s3 d
              end
          end
      end
  end.

Definition ParseDuration (s : str) : derror + Z :=
  let '(neg, rest) := sign s in
  if decide (rest = text "0") then inr 0 else
  if decide (rest = []) then inl (DInvalid s) else
  match duration_loop (S (length rest)) s rest 0 with
  | inl e => inl e
  | inr d => inr (if neg : bool then - d else d)
  end.

Definition derror_text (e : derror) : str :=
  match e with
  | DInvalid orig => text "time: invalid duration " ++ orig
  | DMissingUnit orig => text "time: missing unit in duration " ++ orig
  | DUnknownUnit u orig => text "time: unknown unit " ++ u ++ text " in duration " ++ orig
  end.

(** ** [net.SplitHostPort] *)
Fixpoint byteIndex (s : str) (c : byte) : option nat :=
  match s with
  | [] => None
  | b :: s => if decide (b = c) then Some 0%nat else S <$> byteIndex s c
  end.
Fixpoint last_index (s : str) (c : byte) : option nat :=
  match s with
  | [] => None
  | b :: s =>
      match last_index s c with
      | Some i => Some (S i)
      | None => if decide (b = c) then Some 0%nat else None
      end
  end.

(** [AddrError]: what is wrong and the address. *)
Record AddrError := mkAddrError { addr_Err : str; addr_Addr : str }.
Definition missingPort : str := text "missing port in address".
Definition tooManyColons : str := text "too many colons in address".

Definition SplitHostPort (hostport : str) : AddrError + (str * str) :=
  let addrErr why := inl (mkAddrError why hostport) in
  match last_index hostport x3a with
  | None => addrErr missingPort
  | Some i =>
      let finish (host : str) (j k : nat) : AddrError + (str * str) :=
        if decide (is_Some (byteIndex (drop j hostport) x5b))
        then addrErr (text "unexpected '[' in address")
        else if decide (is_Some (byteIndex (drop k hostport) x5d))
        then addrErr (text "unexpected ']' in address")
        else inr (host, drop (S i) hostport) in
      match hostport with
      | x5b :: _ =>
          match byteIndex hostport x5d with
          | None => addrErr (text "missing ']' in address")
          | Some e =>
              if decide (S e = length hostport) then addrErr missingPort
              else if decide (S e = i) then finish (take (e - 1) (drop 1 hostport)) 1%nat (S e)
              else if decide (hostport !! S e = Some x3a) then addrErr tooManyColons
              else addrErr missingPort
          end
      | _ =>
          let host := take i hostport in
          if decide (is_Some (byteIndex host x3a)) then addrErr tooManyColons
          else finish host 0%nat 0%nat
      end
  end.

Definition addr_text (e : AddrError) : str :=
  if decide (addr_Addr e = []) then addr_Err e
  else text "address " ++ addr_Addr e ++ text ": " ++ addr_Err e.

(** ** [flag]

    The flags of a [FlagSet] are boolean or strings; [flags name] is the kind of a flag.
    The result is the list of the settings, in their order. *)
Inductive fkind := FBool | FString.
Inductive fvalue := VBool (b : bool) | VString (s : str).
Inductive ferror :=
  | ErrBadSyntax (s : str) | ErrNotDefined (name : str) | ErrHelp
  | ErrBadBool (value name : str) | ErrNoArgument (name : str).

(** [strconv.ParseBool]. *)
Definition ParseBool (s : str) : option bool :=
  if decide (s ∈ [text "1"; text "t"; text "T"; text "true"; text "TRUE"; text "True"])
  then Some true
  else if decide (s ∈ [text "0"; text "f"; text "F"; text "false"; text "FALSE"; text "False"])
  then Some false
  else None.

(** [name=value], where the equals sign is not the first character. *)
Definition name_value (name : str) : str * option str :=
  match name with
  | [] => ([], None)
  | b :: rest =>
      match cut rest [x3d] with
      | None => (name, None)
      | Some (n, v) => (b :: n, Some v)
      end
  end.

(** The name of a flag after its minus signs: [None] if the argument is no flag, and then
    whether it is the terminator. *)
Definition flag_name (s : str) : option str * bool :=
  match s with
  | x2d :: x2d :: [] => (None, true)
  | x2d :: x2d :: name => (Some name, false)
  | x2d :: b :: name => (Some (b :: name), false)
  | _ => (None, false)
  end.

Definition add_setting (x : str * fvalue) (r : ferror + list (str * fvalue))
    : ferror + list (str * fvalue) :=
  match r with inl err => inl err | inr xs => inr (x :: xs) end.

Fixpoint parse_flags (flags : str → option fkind) (args : list str) : ferror + list (str * fvalue) :=
  match args with
  | [] => inr []
  | s :: args =>
      match (flag_name s).1 with
      | None => inr []
      | Some name =>
          if bool_decide (name = []) || HasPrefix name [x2d] || HasPrefix name [x3d]
          then inl (ErrBadSyntax s) else
          let '(name, value) := name_value name in
          match flags name, value, args with
          | None, _, _ =>
              inl (if decide (name = text "help" ∨ name = text "h") then ErrHelp else ErrNotDefined name)
          | Some FBool, Some v, _ =>
              match ParseBool v with
              | None => inl (ErrBadBool v name)
              | Some b => add_setting (name, VBool b) (parse_flags flags args)
              end
          | Some FBool, None, _ => add_setting (name, VBool true) (parse_flags flags args)
          | Some FString, Some v, _ => add_setting (name, VString v) (parse_flags flags args)
          | Some FString, None, v :: args => add_setting (name, VString v) (parse_flags flags args)
          | Some FString, None, [] => inl (ErrNoArgument name)
          end
      end
  end.

(** The last setting of a variable that several names stand for. *)
Fixpoint last_set (names : list str) (sets : list (str * fvalue)) (v : fvalue) : fvalue :=
  match sets with
  | [] => v
  | (n, x) :: sets => last_set names sets (if decide (n ∈ names) then x else v)
  end.
Definition bool_var (names : list str) (sets : list (str * fvalue)) : bool :=
  match last_set names sets (VBool false) with VBool b => b | VString _ => false end.
Definition string_var (names : list str) (dflt : str) (sets : list (str * fvalue)) : str :=
  match last_set names sets (VString dflt) with VString s => s | VBool _ => dflt end.

(** ** Examples *)
Example duration_minutes : ParseDuration (text "1h15m30.918273645s") = inr 4530918273645.
Proof. vm_compute. reflexivity. Qed.
Example duration_bare : ParseDuration (text "3") = inl (DMissingUnit (text "3")).
Proof. vm_compute. reflexivity. Qed.
Example duration_negative : ParseDuration (text "-1.5h") = inr (-5400000000000).
Proof. vm_compute. reflexivity. Qed.
Example host_port_v6 : SplitHostPort (text "[::1]:80") = inr (text "::1", text "80").
Proof. vm_compute. reflexivity. Qed.
Example host_port_colons :
  SplitHostPort (text "a:b:80") = inl (mkAddrError tooManyColons (text "a:b:80")).
Proof. vm_compute. reflexivity. Qed.
End gotext.
