(* ===== verification/Cli.v ===== *)
(** The command line client ([cmd/olric-cli]): the commands of a terminal, carried out by
    the client of [Client.v]. *)

From S2P Require Export Client GoText.

(** ** Serializers by name ([serializers.go]) *)
Inductive serializer := gobSerializer | jsonSerializer | msgpackSerializer.
Definition NewGobSerializer : serializer := gobSerializer.
Definition NewJSONSerializer : serializer := jsonSerializer.
Definition NewMsgpackSerializer : serializer := msgpackSerializer.

Definition serializer_named (name : list byte) : option serializer :=
  if decide (name = text "json") then Some NewJSONSerializer
  else if decide (name = text "msgpack") then Some NewMsgpackSerializer
  else if decide (name = text "gob") then Some NewGobSerializer
  else None.

(** Strings as values, and what [fmt] prints for a value. *)
Class Printing (V : Type) := {
  v_string : list byte → V;
  show : V → list byte;
  show_string s : show (v_string s) = s
}.

Module cli.
Export client gotext.

Definition newline : list byte := [x0a].

(** [New]: the serializer and the client of the single address. *)
Record CLI := mkCLI { cli_addr : list byte; cli_serializer : serializer; cli_client : Config }.

Definition New (addr : list byte) (insecureSkipVerify : bool) (serializer timeout : list byte)
    : oerror + CLI :=
  match serializer_named serializer with
  | None => inl (EText (text "invalid serializer: " ++ serializer))
  | Some s =>
      match client.New (Some (mkClientConfig [addr] 0)) with
      | inl err => inl err
      | inr c => inr (mkCLI addr s c)
      end
  end.

(** ** Parsing *)
Definition extractKey (s : list byte) : option (list byte) := first_quoted s.

(** A quoted key is assigned to a variable of an inner scope, so that the key that is
    returned is empty; the value is what precedes the key. *)
Definition parseLine (tmp : list byte) : option (list byte * list byte) :=
  let tmp := TrimSpace tmp in
  if HasPrefix tmp [quote] then
    match extractKey tmp with
    | None => None
    | Some key =>
        match Split tmp ([quote] ++ key ++ [quote]) with
        | [] => None
        | value :: _ => Some ([], TrimSpace value)
        end
    end
  else match SplitN2 tmp (text " ") with
       | [key; value] => Some (key, value)
       | _ => None
       end.

(** The key and the rest of a [putex] command. *)
Definition parse_putex (tmp : list byte) : option (list byte * list byte) :=
  if HasPrefix tmp [quote] then
    match extractKey tmp with
    | None => None
    | Some key =>
        match Split tmp ([quote] ++ key ++ [quote]) with
        | [] => None
        | tval :: _ => Some (key, tval)
        end
    end
  else match SplitN2 tmp (text " ") with
       | [key; tval] => Some (key, tval)
       | _ => None
       end.

(** The key of [get] and [delete]. *)
Definition parse_key (key : list byte) : option (list byte) :=
  if HasPrefix key [quote] then extractKey key else Some key.

(** What [use] selects: [None] stands for an error, after which no map is selected. *)
Definition parse_use (line : list byte) : comp (option (list byte)) :=
  match Split line (text "use") with
  | _ :: tmp :: _ =>
      let dmap := Trim tmp (text " ") in
      Return (if HasPrefix dmap [quote] then extractKey dmap else Some dmap)
  | _ => Panic
  end.

Section cli.
Context {S N : Type} `{!KV S} `{!Snap S N} `{!Env}.
Context {V : Type} `{!Serializer V} `{!Printing V}.
Abbreviation M := (olric.M S N).
Variable serve : list byte → Message → M (option Message).
Variable c : CLI.

Definition invalid (line : list byte) : list byte :=
  text "[ERROR] invalid command: " ++ line ++ newline.
Definition failed (call dmap key : list byte) (err : oerror) : list byte :=
  text "[ERROR] Failed to call " ++ call ++ text " on " ++ dmap ++ text " with key " ++ key
    ++ text ": " ++ error_text err ++ newline.
Definition OK : list byte := text "OK" ++ newline.

(** What a call that may only fail prints. *)
Definition report (call dmap key : list byte) (err : option oerror) : list byte :=
  match err with Some err => failed call dmap key err | None => OK end.

Definition put_command (dmap line : list byte) : M (list byte) :=
  let tmp := TrimSpace (TrimLeft line (text "put ")) in
  match parseLine tmp with
  | None => mret (invalid line)
  | Some (key, value) =>
      err ← Put serve (cli_client c) 0 dmap key (v_string value);
      mret (report (text "Put") dmap key err)
  end.

Definition putex_command (dmap line : list byte) : M (list byte) :=
  let tmp := TrimSpace (TrimLeft line (text "putex ")) in
  match parse_putex tmp with
  | None => mret (invalid line)
  | Some (key, tval) =>
      match SplitN2 (TrimSpace tval) (text " ") with
      | [ttl; value] =>
          match ParseDuration ttl with
          | inl err =>
              mret (text "[ERROR] " ++ derror_text err ++ text ": " ++ line ++ newline)
          | inr ttl =>
              err ← PutEx serve (cli_client c) 0 dmap key (v_string value) ttl;
              mret (report (text "PutEx") dmap key err)
          end
      | _ => mret (invalid line)
      end
  end.

Definition get_command (dmap line : list byte) : M (list byte) :=
  match parse_key (TrimLeft line (text "get ")) with
  | None => mret (invalid line)
  | Some key =>
      r ← Get (V := V) serve (cli_client c) 0 dmap key;
      mret match r with
      | inl err =>
          if decide (err = OErrKeyNotFound) then text "nil" ++ newline
          else failed (text "Get") dmap key err
      | inr value => show value ++ newline
      end
  end.

Definition delete_command (dmap line : list byte) : M (list byte) :=
  match parse_key (TrimLeft line (text "delete ")) with
  | None => mret (invalid line)
  | Some key =>
      err ← Delete serve (cli_client c) 0 dmap key;
      mret (report (text "Delete") dmap key err)
  end.

Definition destroy_command (dmap : list byte) : M (list byte) :=
  err ← Destroy serve (cli_client c) 0 dmap;
  mret match err with
  | Some err =>
      text "[ERROR] Failed to call Destroy on " ++ dmap ++ text ": " ++ error_text err ++ newline
  | None => OK
  end.

(** [incr] and [decr]. *)
Definition incr_command (call cutset : list byte)
    (run : nat → list byte → list byte → Z → M (oerror + Z)) (dmap line : list byte)
    : M (list byte) :=
  match parseLine (TrimLeft line cutset) with
  | None => mret (invalid line)
  | Some (key, value) =>
      match Atoi value with
      | None => mret (text "[ERROR] invalid delta: " ++ value ++ newline)
      | Some delta =>
          r ← run 0%nat dmap key delta;
          mret match r with
          | inl err => failed call dmap key err
          | inr current => text (pretty current) ++ newline
          end
      end
  end.

(** The commands on the selected map. *)
Definition map_command (dmap line : list byte) : M (list byte) :=
  if HasPrefix line (text "put ") then put_command dmap line
  else if HasPrefix line (text "putex ") then putex_command dmap line
  else if HasPrefix line (text "get ") then get_command dmap line
  else if HasPrefix line (text "delete ") then delete_command dmap line
  else if HasPrefix line (text "destroy") then destroy_command dmap
  else if HasPrefix line (text "incr ") then
    incr_command (text "Incr") (text "incr ") (Incr (V := V) serve (cli_client c)) dmap line
  else if HasPrefix line (text "decr ") then
    incr_command (text "Decr") (text "decr ") (Decr (V := V) serve (cli_client c)) dmap line
  else mret (text "[ERROR] Invalid command. Available commands: put, putex, get, delete, destroy and exit."
               ++ newline).

(** One line: the map that is selected afterwards and what is printed; [None] to leave. *)
Definition command (dmap line : list byte) : M (option (list byte * list byte)) :=
  let line := TrimSpace line in
  if HasPrefix line (text "exit") then mret None
  else if HasPrefix line (text "use ") then
    r ← lift (parse_use line);
    mret (Some match r with
      | None => ([], invalid line)
      | Some dmap => (dmap, text "use " ++ dmap ++ newline)
      end)
  else if decide (dmap = []) then
    mret (Some (dmap, text "[ERROR] Call 'use' command before accessing database." ++ newline))
  else
    out ← map_command dmap line;
    mret (Some (dmap, out)).

(** ** The loop of [Start] *)

(** What [Readline] answers. *)
Inductive event := ELine (line : list byte) | EInterrupt (line : list byte) | EEOF | EFail (err : oerror).

(** What is printed, and the error of [Start]; without further events it waits. *)
Fixpoint start_loop (dmap : list byte) (evs : list event) (out : list byte)
    : M (list byte * option oerror) :=
  match evs with
  | [] => block
  | EInterrupt line :: evs => if decide (line = []) then mret (out, None) else start_loop dmap evs out
  | EEOF :: _ => mret (out, None)
  | EFail err :: _ => mret (out, Some err)
  | ELine line :: evs =>
      r ← command dmap line;
      match r with
      | None => mret (out, None)
      | Some (dmap, o) => start_loop dmap evs (out ++ o)
      end
  end.

(** [Start]; [home] is the variable [HOME] and [err] the error of [readline.NewEx].  The
    warning about an empty [HOME] is written before there is an output to write it to. *)
Definition Start (home : list byte) (err : option oerror) (evs : list event)
    : M (list byte * option oerror) :=
  if decide (home = []) then panic else
  match err with
  | Some err => mret ([], Some err)
  | None => start_loop [] evs []
  end.

End cli.

(** ** [main] *)
Definition defaultSerializer : list byte := text "gob".
Definition defaultAddr : list byte := text "127.0.0.1:3320".

(** What [main] does with its arguments: print a text and return, exit with an error, or
    start with a client. *)
Inductive action := AExit | AVersion | AHelp | AStart (c : CLI) | AFail (err : oerror).

Definition cli_flags (name : list byte) : option fkind :=
  if decide (name ∈ [text "h"; text "help"; text "v"; text "version"; text "k"; text "insecure"])
  then Some FBool
  else if decide (name ∈ [text "t"; text "timeout"; text "a"; text "addr"; text "s"; text "serializer"])
  then Some FString
  else None.

Definition main (args : list (list byte)) : action :=
  match parse_flags cli_flags args with
  | inl _ => AExit
  | inr sets =>
      let timeout := string_var [text "t"; text "timeout"] (text "10s") sets in
      let addr := string_var [text "a"; text "addr"] defaultAddr sets in
      let serializer := string_var [text "s"; text "serializer"] defaultSerializer sets in
      let insecure := bool_var [text "k"; text "insecure"] sets in
      if bool_var [text "v"; text "version"] sets then AVersion
      else if bool_var [text "h"; text "help"] sets then AHelp
      else match New addr insecure serializer timeout with
           | inl err => AFail err
           | inr c => AStart c
           end
  end.
End cli.
