(* ===== verification/Serializers.v ===== *)
(** The serializers of values ([serializers.go]): gob with its registry of types, and msgpack,
    both on the values that are neither composite nor of a declared type, and JSON.  What gob and
    msgpack write for the other values and the JSON package are parameters. *)

From S2P Require Export Cli.

Module serializers.

(** ** Types and values *)
Inductive gotype :=
  | TBasic (name : list byte)                 (* a predeclared type *)
  | TNamed (path pkg name : list byte)        (* import path, package name and name *)
  | TPointer (t : gotype)
  | TSlice (t : gotype)
  | TMap (k v : gotype).
#[export] Instance gotype_eq_decision : EqDecision gotype.
Proof. solve_decision. Defined.

Fixpoint type_tree (t : gotype) : gen_tree (list byte) :=
  match t with
  | TBasic n => GenNode 0 [GenLeaf n]
  | TNamed p k n => GenNode 1 [GenLeaf p; GenLeaf k; GenLeaf n]
  | TPointer t => GenNode 2 [type_tree t]
  | TSlice t => GenNode 3 [type_tree t]
  | TMap k v => GenNode 4 [type_tree k; type_tree v]
  end.
Fixpoint tree_type (t : gen_tree (list byte)) : gotype :=
  match t with
  | GenNode 0 [GenLeaf n] => TBasic n
  | GenNode 1 [GenLeaf p; GenLeaf k; GenLeaf n] => TNamed p k n
  | GenNode 2 [t] => TPointer (tree_type t)
  | GenNode 3 [t] => TSlice (tree_type t)
  | GenNode 4 [k; v] => TMap (tree_type k) (tree_type v)
  | _ => TBasic []
  end.
#[export] Program Instance gotype_countable : Countable gotype := inj_countable' type_tree tree_type _.
Next Obligation. by induction x; simpl; f_equal. Qed.

(** [reflect.Type.String] *)
Fixpoint String (t : gotype) : list byte :=
  match t with
  | TBasic n => n
  | TNamed _ pkg n => pkg ++ text "." ++ n
  | TPointer t => text "*" ++ String t
  | TSlice t => text "[]" ++ String t
  | TMap k v => text "map[" ++ String k ++ text "]" ++ String v
  end.

(** The integer types. *)
Inductive kind := Int | Int8 | Int16 | Int32 | Int64 | Uint | Uint8 | Uint16 | Uint32 | Uint64.
Definition width (k : kind) : Z :=
  match k with Int8 | Uint8 => 8 | Int16 | Uint16 => 16 | Int32 | Uint32 => 32 | _ => 64 end.
Definition is_signed (k : kind) : bool :=
  match k with Int | Int8 | Int16 | Int32 | Int64 => true | _ => false end.
Definition kind_name (k : kind) : list byte :=
  match k with
  | Int => text "int" | Int8 => text "int8" | Int16 => text "int16" | Int32 => text "int32"
  | Int64 => text "int64" | Uint => text "uint" | Uint8 => text "uint8" | Uint16 => text "uint16"
  | Uint32 => text "uint32" | Uint64 => text "uint64"
  end.

(** An [interface{}]; floats are given by their bits, [O] has the values of all other types. *)
Inductive value {O : Type} :=
  | VNil
  | VBool (b : bool)
  | VNumber (k : kind) (z : Z)
  | VFloat32 (bits : Z)
  | VFloat64 (bits : Z)
  | VString (s : list byte)
  | VBytes (s : option (list byte))           (* None is the nil slice *)
  | VOther (o : O).
Arguments value : clear implicits.

Inductive serror :=
  | EOF | ErrUnexpectedEOF
  | SUnknownCode (c : Z)                      (* msgpack: unknown code decoding interface{} *)
  | SLength (c : Z)                           (* msgpack: invalid code decoding bytes length *)
  | SBadUint                                  (* gob: encoded unsigned integer out of range *)
  | STooBig                                   (* gob: a message over the limit *)
  | SCorrupt                                  (* gob: non-zero delta for singleton, invalid length *)
  | SNameTooLong
  | STypeMismatch (id : Z) (t : gotype)       (* gob: decoding into local type, received remote type *)
  | SOverflow (z : Z)                         (* gob: value out of range *)
  | STypeNotRegistered (t : gotype)           (* gob: type not registered for interface *)
  | SNameNotRegistered (name : list byte)     (* gob: name not registered for interface *)
  | SOther (code : Z).

Section serializers.
Context {O : Type}.
Abbreviation value := (value O).

(** ** msgpack ([vmihailenco/msgpack]) *)

(** [write1], [write2], [write4], [write8]: a code and a number in big-endian order. *)
Definition write_code (n : nat) (code z : Z) : list byte := byte_of_Z code :: be_encode n z.

Definition encodeStrLen (l : Z) : list byte :=
  if l <? 32 then [byte_of_Z (Z.lor 0xa0 l)]
  else if l <? 256 then write_code 1 0xd9 (to_unsigned 8 l)
  else if l <? 65536 then write_code 2 0xda (to_unsigned 16 l)
  else write_code 4 0xdb (to_unsigned 32 l).
Definition EncodeBytesLen (l : Z) : list byte :=
  if l <? 256 then write_code 1 0xc4 (to_unsigned 8 l)
  else if l <? 65536 then write_code 2 0xc5 (to_unsigned 16 l)
  else write_code 4 0xc6 (to_unsigned 32 l).

(** The number is encoded in the width of its type; an [int] has that of an [int64]. *)
Definition encode_number (k : kind) (z : Z) : list byte :=
  match k with
  | Int8 => write_code 1 0xd0 (to_unsigned 8 z)
  | Int16 => write_code 2 0xd1 (to_unsigned 16 z)
  | Int32 => write_code 4 0xd2 (to_unsigned 32 z)
  | Int | Int64 => write_code 8 0xd3 (to_unsigned 64 z)
  | Uint8 => write_code 1 0xcc z
  | Uint16 => write_code 2 0xcd z
  | Uint32 => write_code 4 0xce z
  | Uint | Uint64 => write_code 8 0xcf z
  end.

Variable encode_other : O → serror + list byte.
Variable decode_other : Z → list byte → serror + O.

Definition msgpack_Marshal (v : value) : serror + list byte :=
  match v with
  | VNil => inr [byte_of_Z 0xc0]
  | VBool b => inr [byte_of_Z (if b then 0xc3 else 0xc2)]
  | VNumber k z => inr (encode_number k z)
  | VFloat32 bits => inr (write_code 4 0xca bits)
  | VFloat64 bits => inr (write_code 8 0xcb bits)
  | VString s => inr (encodeStrLen (len s) ++ s)
  | VBytes None => inr [byte_of_Z 0xc0]
  | VBytes (Some s) => inr (EncodeBytesLen (len s) ++ s)
  | VOther o => encode_other o
  end.

(** [readN] *)
Definition readN (n : nat) (bs : list byte) : serror + list byte * list byte :=
  if (n <=? length bs)%nat then inr (take n bs, drop n bs)
  else inl (match bs with [] => EOF | _ => ErrUnexpectedEOF end).

(** A number of [n] bytes, converted to the type [k]. *)
Definition read_number (n : nat) (k : kind) (bs : list byte) : serror + value :=
  match readN n bs with
  | inl err => inl err
  | inr (b, _) =>
      inr (VNumber k (if is_signed k then to_signed (width k) (be_decode b) else be_decode b))
  end.

Definition IsFixedNum (c : Z) : bool := (c <=? 0x7f) || (0xe0 <=? c).
Definition IsFixedMap (c : Z) : bool := (0x80 <=? c) && (c <=? 0x8f).
Definition IsFixedArray (c : Z) : bool := (0x90 <=? c) && (c <=? 0x9f).
Definition IsFixedString (c : Z) : bool := (0xa0 <=? c) && (c <=? 0xbf).

Definition bytesLen (c : Z) (bs : list byte) : serror + Z * list byte :=
  let sized n := match readN n bs with inl err => inl err | inr (b, rest) => inr (be_decode b, rest) end in
  if c =? 0xc0 then inr (-1, bs)
  else if IsFixedString c then inr (Z.land c 0x1f, bs)
  else if (c =? 0xd9) || (c =? 0xc4) then sized 1%nat
  else if (c =? 0xda) || (c =? 0xc5) then sized 2%nat
  else if (c =? 0xdb) || (c =? 0xc6) then sized 4%nat
  else inl (SLength c).

(** The [n] bytes of a string or of a slice; the length of nil is -1. *)
Definition read_sized (c : Z) (bs : list byte) : serror + option (list byte) :=
  match bytesLen c bs with
  | inl err => inl err
  | inr (n, rest) =>
      if n =? -1 then inr None
      else match readN (Z.to_nat n) rest with inl err => inl err | inr (b, _) => inr (Some b) end
  end.
Definition read_string (c : Z) (bs : list byte) : serror + value :=
  match read_sized c bs with inl err => inl err | inr s => inr (VString (default [] s)) end.
Definition read_bytes (c : Z) (bs : list byte) : serror + value :=
  match read_sized c bs with inl err => inl err | inr s => inr (VBytes s) end.
Definition read_float (n : nat) (mk : Z → value) (bs : list byte) : serror + value :=
  match readN n bs with inl err => inl err | inr (b, _) => inr (mk (be_decode b)) end.
Definition read_other (c : Z) (bs : list byte) : serror + value :=
  match decode_other c bs with inl err => inl err | inr o => inr (VOther o) end.

Definition DecodeInterface (bs : list byte) : serror + value :=
  match bs with
  | [] => inl EOF
  | b :: bs =>
      let c := unsigned b in
      if IsFixedNum c then inr (VNumber Int8 (to_signed 8 c))
      else if IsFixedMap c || IsFixedArray c then read_other c bs
      else if IsFixedString c then read_string c bs
      else if c =? 0xc0 then inr VNil
      else if (c =? 0xc2) || (c =? 0xc3) then inr (VBool (c =? 0xc3))
      else if c =? 0xca then read_float 4 VFloat32 bs
      else if c =? 0xcb then read_float 8 VFloat64 bs
      else if c =? 0xcc then read_number 1 Uint8 bs
      else if c =? 0xcd then read_number 2 Uint16 bs
      else if c =? 0xce then read_number 4 Uint32 bs
      else if c =? 0xcf then read_number 8 Uint64 bs
      else if c =? 0xd0 then read_number 1 Int8 bs
      else if c =? 0xd1 then read_number 2 Int16 bs
      else if c =? 0xd2 then read_number 4 Int32 bs
      else if c =? 0xd3 then read_number 8 Int64 bs
      else if bool_decide (c ∈ [0xc4; 0xc5; 0xc6]) then read_bytes c bs
      else if bool_decide (c ∈ [0xd9; 0xda; 0xdb]) then read_string c bs
      else if bool_decide (c ∈ [0xdc; 0xdd; 0xde; 0xdf; 0xd4; 0xd5; 0xd6; 0xd7; 0xd8; 0xc7; 0xc8; 0xc9])
           then read_other c bs
      else inl (SUnknownCode c)
  end.
Definition msgpack_Unmarshal (data : list byte) : serror + value := DecodeInterface data.

(** ** gob ([encoding/gob]) *)

(** The types registered in the process: the type of a name, and the name of a type without
    its pointers. *)
Record registry := mkRegistry { names : gmap (list byte) gotype; types : gmap gotype (list byte) }.

Fixpoint base (t : gotype) : gotype := match t with TPointer t => base t | _ => t end.

(** The name that [Register] gives to a type; a declared one has its import path. *)
Definition type_name (t : gotype) : list byte :=
  match t with TNamed path _ n => path ++ text "." ++ n | _ => String t end.

(** [Register]: a name has one type, and a type without its pointers has one name. *)
Definition Register (t : gotype) (r : registry) : comp registry :=
  let name := type_name t in
  let added := mkRegistry (<[name := t]> (names r)) (<[base t := name]> (types r)) in
  checked (bool_decide (default t (names r !! name) = t))
    (checked (bool_decide (default name (types r !! base t) = name)) (Return added)).

(** The types of [registerBasics]. *)
Definition basics : list gotype :=
  let scalars := map (TBasic ∘ text)
    ["int"; "int8"; "int16"; "int32"; "int64"; "uint"; "uint8"; "uint16"; "uint32"; "uint64";
     "float32"; "float64"; "complex64"; "complex128"; "uintptr"; "bool"; "string"]%string in
  scalars ++ map TSlice scalars.
Fixpoint register_all (ts : list gotype) (r : registry) : comp registry :=
  match ts with [] => Return r | t :: ts => r ← Register t r; register_all ts r end.
Definition registerBasics : comp registry := register_all basics (mkRegistry ∅ ∅).

(** [reflect.TypeOf]; None is the type of nil. *)
Variable other_type : O → gotype.
Definition TypeOf (v : value) : option gotype :=
  match v with
  | VNil => None
  | VBool _ => Some (TBasic (text "bool"))
  | VNumber k _ => Some (TBasic (kind_name k))
  | VFloat32 _ => Some (TBasic (text "float32"))
  | VFloat64 _ => Some (TBasic (text "float64"))
  | VString _ => Some (TBasic (text "string"))
  | VBytes _ => Some (TSlice (TBasic (text "uint8")))
  | VOther o => Some (other_type o)
  end.

(** *** The format of gob *)

(** An unsigned integer: one byte up to 127, otherwise the negated number of its bytes and the
    bytes in big-endian order. *)
Definition bytelen (x : Z) : nat := Z.to_nat (Z.log2 x / 8 + 1).
Definition encodeUint (x : Z) : list byte :=
  if x <=? 0x7f then [byte_of_Z x] else byte_of_Z (- Z.of_nat (bytelen x)) :: be_encode (bytelen x) x.
(** A signed one: the sign is the lowest bit. *)
Definition encodeInt (i : Z) : list byte :=
  encodeUint (to_unsigned 64 (if i <? 0 then Z.lor (Z.shiftl (Z.lnot i) 1) 1 else Z.shiftl i 1)).

Definition parser (A : Type) : Type := list byte → serror + A * list byte.
#[local] Instance parser_ret : MRet parser := fun A x bs => inr (x, bs).
#[local] Instance parser_bind : MBind parser := fun A B k m bs =>
  match m bs with inl err => inl err | inr (x, rest) => k x rest end.
Definition fail {A} (err : serror) : parser A := fun _ => inl err.

Definition read_n (n : Z) (err : serror) : parser (list byte) := fun bs =>
  if len bs <? n then inl err else inr (take (Z.to_nat n) bs, drop (Z.to_nat n) bs).
Definition decodeUint : parser Z := fun bs =>
  match bs with
  | [] => inl EOF
  | b :: bs =>
      let b := unsigned b in
      if b <=? 0x7f then inr (b, bs)
      else let n := 256 - b in
           if 8 <? n then inl SBadUint
           else (x ← read_n n SCorrupt; mret (be_decode x)) bs
  end.
Definition decodeInt : parser Z :=
  x ← decodeUint;
  mret (if Z.testbit x 0 then Z.lnot (Z.shiftr x 1) else Z.shiftr x 1).

(** The types of the values whose format is modelled, with the number of the type. *)
Inductive basic := BBool | BNumber (k : kind) | BFloat64 | BString | BBytes.
Definition type_id (b : basic) : Z :=
  match b with
  | BBool => 1
  | BNumber k => if is_signed k then 2 else 3
  | BFloat64 => 4
  | BBytes => 5
  | BString => 6
  end.
Definition interface_id : Z := 8.

Definition kinds : list kind := [Int; Int8; Int16; Int32; Int64; Uint; Uint8; Uint16; Uint32; Uint64].
Definition basic_of (t : gotype) : option basic :=
  match t with
  | TSlice t => if decide (t = TBasic (text "uint8")) then Some BBytes else None
  | TBasic n =>
      if decide (n = text "bool") then Some BBool
      else if decide (n = text "float64") then Some BFloat64
      else if decide (n = text "string") then Some BString
      else (BNumber ∘ snd) <$> list_find (fun k => kind_name k = n) kinds
  | _ => None
  end.

(** The value alone; the bytes of a float are reversed. *)
Definition write_value (v : value) : option (list byte) :=
  match v with
  | VBool b => Some (encodeUint (if b then 1 else 0))
  | VNumber k z => Some (if is_signed k then encodeInt z else encodeUint z)
  | VFloat64 bits => Some (encodeUint (be_decode (rev (be_encode 8 bits))))
  | VString s => Some (encodeUint (len s) ++ s)
  | VBytes s => Some (encodeUint (len (default [] s)) ++ default [] s)
  | VNil | VFloat32 _ | VOther _ => None
  end.

Definition in_range (k : kind) (z : Z) : bool :=
  if is_signed k then (- 2 ^ (width k - 1) <=? z) && (z <? 2 ^ (width k - 1))
  else (0 <=? z) && (z <? 2 ^ width k).

(** An empty slice is read as the nil slice. *)
Definition read_value (b : basic) : parser value :=
  match b with
  | BBool => x ← decodeUint; mret (VBool (negb (x =? 0)))
  | BNumber k =>
      x ← (if is_signed k then decodeInt else decodeUint);
      if in_range k x then mret (VNumber k x) else fail (SOverflow x)
  | BFloat64 => x ← decodeUint; mret (VFloat64 (be_decode (rev (be_encode 8 x))))
  | BString => n ← decodeUint; s ← read_n n SCorrupt; mret (VString s)
  | BBytes => n ← decodeUint; s ← read_n n SCorrupt; mret (VBytes (if n =? 0 then None else Some s))
  end.

(** A message: its length and its bytes; a value that is not a struct follows a zero. *)
Definition tooBig : Z := 2 ^ 30.
Definition message (bs : list byte) : serror + list byte :=
  if tooBig <=? len bs then inl STooBig else inr (encodeUint (len bs) ++ bs).

(** What is written for the values of other types under a name, and what is read for a type. *)
Variable gob_other_write : list byte → value → serror + list byte.
Variable gob_other_read : list byte → serror + value.

(** [Encode] of a pointer to an interface: a nil interface has an empty name; otherwise the
    name, the number of the type and the value as a message of its own. *)
Definition Encode (r : registry) (v : value) : serror + list byte :=
  let frame (bs : list byte) := message (encodeInt interface_id ++ encodeUint 0 ++ bs) in
  match TypeOf v with
  | None => frame (encodeUint 0)
  | Some t =>
      match types r !! base t with
      | None => inl (STypeNotRegistered (base t))
      | Some name =>
          match basic_of t, write_value v with
          | Some b, Some bs =>
              match message (encodeUint 0 ++ bs) with
              | inl err => inl err
              | inr data => frame (encodeUint (len name) ++ name ++ encodeInt (type_id b) ++ data)
              end
          | _, _ => gob_other_write name v
          end
      end
  end.

(** The delta in front of a value that is not a struct. *)
Definition singleton : parser unit := x ← decodeUint; if x =? 0 then mret tt else fail SCorrupt.

(** [decodeInterface]; what is composite is read by [other]. *)
Definition decodeInterface (r : registry) (other : parser value) : parser value :=
  n ← decodeUint;
  name ← read_n n SCorrupt;
  if decide (name = []) then mret VNil
  else if 1024 <? len name then fail SNameTooLong
  else match names r !! name with
  | None => fail (SNameNotRegistered name)
  | Some t =>
      match basic_of t with
      | None => other
      | Some b =>
          id ← decodeInt;
          if id =? type_id b then _ ← decodeUint; _ ← singleton; read_value b
          else if id <? 0 then other
          else fail (STypeMismatch id t)
      end
  end.

(** [Decode] into a pointer to an interface: one message. *)
Definition Decode (r : registry) (data : list byte) : serror + value :=
  let other : parser value := fun _ =>
    match gob_other_read data with inl err => inl err | inr v => inr (v, []) end in
  match decodeUint data with
  | inl err => inl err
  | inr (n, rest) =>
      if tooBig <=? n then inl STooBig else
      match read_n n ErrUnexpectedEOF rest with
      | inl err => inl err
      | inr (msg, _) =>
          match (id ← decodeInt;
                 if id =? interface_id then _ ← singleton; decodeInterface r other else other) msg with
          | inl err => inl err
          | inr (v, _) => inr v
          end
      end
  end.

Definition gob_Marshal (v : value) (r : registry) : comp ((serror + list byte) * registry) :=
  r ← match TypeOf v with Some t => Register t r | None => Return r end;
  Return (Encode r v, r).
Definition gob_Unmarshal (r : registry) (data : list byte) : serror + value := Decode r data.

(** ** The interface, by the serializer that is chosen *)
Variable json_Marshal : value → serror + list byte.
Variable json_Unmarshal : list byte → serror + value.

Definition Marshal (s : serializer) (v : value) (r : registry) : comp ((serror + list byte) * registry) :=
  match s with
  | gobSerializer => gob_Marshal v r
  | jsonSerializer => Return (json_Marshal v, r)
  | msgpackSerializer => Return (msgpack_Marshal v, r)
  end.
Definition Unmarshal (s : serializer) (r : registry) (data : list byte) : serror + value :=
  match s with
  | gobSerializer => gob_Unmarshal r data
  | jsonSerializer => json_Unmarshal data
  | msgpackSerializer => msgpack_Unmarshal data
  end.
End serializers.
End serializers.
