(* ===== verification/Olricd.v ===== *)
(** The standalone server ([cmd/olricd]): its configuration file, the configuration of the
    node made from it, and the process that runs the node until a signal stops it. *)

From S2P Require Export Cli Lifecycle.

Module olricd.
Export gotext olric.

(** The error monad of the configuration. *)
#[local] Instance sum_ret (E : Type) : MRet (sum E) := fun A x => inr x.
#[local] Instance sum_bind (E : Type) : MBind (sum E) := fun A B k m =>
  match m with inl e => inl e | inr x => k x end.

(** ** The configuration file ([config.go]), as [toml] decodes it *)
Record olricd := mkOlricd {
  f_Name : str; f_CertFile : str; f_KeyFile : str;
  f_BackupMode : Z; f_PartitionCount : Z; f_BackupCount : Z;
  f_LoadFactor : consistent.float64; f_Serializer : str;
  f_KeepAlivePeriod : str; f_MaxValueSize : Z
}.
Record snapshot_section := mkSnapshotSection {
  f_Enabled : bool; f_Interval : str; f_Dir : str; f_GCInterval : str;
  f_GCDiscardRatio : consistent.float64
}.
Record logging := mkLogging { f_Level : str; f_Output : str }.
Record memberlist := mkMemberlist {
  f_Environment : str; f_Addr : str; f_EnableCompression : bool; f_Peers : list str;
  f_IndirectChecks : Z; f_RetransmitMult : Z; f_SuspicionMult : Z;
  f_TCPTimeout : str; f_PushPullInterval : str; f_ProbeTimeout : str; f_ProbeInterval : str;
  f_GossipInterval : str; f_GossipToTheDeadTime : str
}.
Record Config := mkFile {
  Memberlist : memberlist; Logging : logging; Olricd_ : olricd; Snapshot_ : snapshot_section
}.

Definition DefaultConfigFile : str := text "olricd.toml".

(** The path that [NewConfig] reads; [env] is the value of [OLRICD_CONFIG]. *)
Definition config_path (path env : str) : str :=
  let path := if decide (path = []) then env else path in
  if decide (path = []) then DefaultConfigFile else path.

(** [NewConfig]; [decode] is [toml.DecodeFile]. *)
Definition NewConfig {E : Type} (decode : str → E + Config) (path env : str) : E + Config :=
  decode (config_path path env).

(** ** Errors *)
Inductive cerror :=
  | CAddr (e : AddrError)
  | CPort (s : str)
  | CEnvironment (env : str)
  | CDuration (e : derror)
  | CSerializer (s : str)
  | CAccess (errno : Z)
  | CWithMessage (what value : str) (e : cerror).

(** ** memberlist *)
Definition second : Z := 1000000000.
Definition millisecond : Z := 1000000.

(** The fields of [memberlist.Config] that the program sets. *)
Record memlist_Config := mkMemlist {
  BindAddr : str; BindPort : Z; EnableCompression : bool; TCPTimeout : Z;
  IndirectChecks : Z; RetransmitMult : Z; SuspicionMult : Z;
  PushPullInterval : Z; ProbeTimeout : Z; ProbeInterval : Z;
  GossipInterval : Z; GossipToTheDeadTime : Z
}.

Definition DefaultLANConfig : memlist_Config :=
  mkMemlist (text "0.0.0.0") 7946 true (10 * second) 3 4 4
    (30 * second) (500 * millisecond) second (200 * millisecond) (30 * second).
Definition DefaultWANConfig : memlist_Config :=
  mkMemlist (text "0.0.0.0") 7946 true (30 * second) 3 4 6
    (60 * second) (3 * second) (5 * second) (500 * millisecond) (60 * second).
Definition DefaultLocalConfig : memlist_Config :=
  mkMemlist (text "0.0.0.0") 7946 true second 1 2 3
    (15 * second) (200 * millisecond) second (100 * millisecond) (15 * second).

(** [NewMemberlistConfig] of [config.go]. *)
Definition NewMemberlistConfig (env : str) : cerror + memlist_Config :=
  if decide (env = text "local") then inr DefaultLocalConfig
  else if decide (env = text "lan") then inr DefaultLANConfig
  else if decide (env = text "wan") then inr DefaultWANConfig
  else inl (CEnvironment env).

(** A duration that overrides [old] if it is set, and a number that does. *)
Definition set_duration (s : str) (old : Z) : cerror + Z :=
  if decide (s = []) then inr old
  else match ParseDuration s with inl e => inl (CDuration e) | inr d => inr d end.
Definition set_number (z old : Z) : Z := if z =? 0 then old else z.

(** [newMemberlistConf] of [memberlist.go]. *)
Definition newMemberlistConf (c : Config) : cerror + memlist_Config :=
  let m := Memberlist c in
  addr ← (match SplitHostPort (f_Addr m) with inl e => inl (CAddr e) | inr hp => inr hp end);
  bindPort ← (match Atoi addr.2 with None => inl (CPort addr.2) | Some p => inr p end);
  mc ← NewMemberlistConfig (f_Environment m);
  tcp ← set_duration (f_TCPTimeout m) (TCPTimeout mc);
  pushpull ← set_duration (f_PushPullInterval m) (PushPullInterval mc);
  probe ← set_duration (f_ProbeTimeout m) (ProbeTimeout mc);
  interval ← set_duration (f_ProbeInterval m) (ProbeInterval mc);
  gossip ← set_duration (f_GossipInterval m) (GossipInterval mc);
  dead ← set_duration (f_GossipToTheDeadTime m) (GossipToTheDeadTime mc);
  mret (mkMemlist addr.1 bindPort (f_EnableCompression m) tcp
          (set_number (f_IndirectChecks m) (IndirectChecks mc))
          (set_number (f_RetransmitMult m) (RetransmitMult mc))
          (set_number (f_SuspicionMult m) (SuspicionMult mc))
          pushpull probe interval gossip dead).

(** ** The configuration of the node *)

(** [olric.Config], with the fields of [Cluster.v] in [c_node]. *)
Record node_config := mkNodeConfig {
  c_Name : str; c_node : olric.Config; c_MemberlistConfig : memlist_Config;
  c_KeyFile : str; c_CertFile : str; c_LogLevel : str; c_Peers : list str;
  c_Serializer : serializer; c_KeepAlivePeriod : Z;
  c_SnapshotInterval : Z; c_GCInterval : Z; c_GCDiscardRatio : consistent.float64;
  c_Badger : option str              (* the directory of the database *)
}.
Record Olricd := mkOlricdServer { s_stdout : bool; s_config : node_config }.

Definition DefaultLogLevel : str := text "DEBUG".
Definition no_ratio : consistent.float64 := consistent.mkFloat 0 0.

(** A duration whose error is wrapped with the name of the setting. *)
Definition named_duration (what s : str) : cerror + Z :=
  if decide (s = []) then inr 0
  else match ParseDuration s with
       | inl e => inl (CWithMessage what s (CDuration e))
       | inr d => inr d
       end.

(** The part of [New] for snapshots; [access] is the answer of [unix.Access] on the
    directory. *)
Definition with_snapshot (s : snapshot_section) (access : option Z) (c : node_config)
    : cerror + node_config :=
  if f_Enabled s then
    _ ← (match access with
         | Some errno => inl (CWithMessage (text "snapshot.dir") (f_Dir s) (CAccess errno))
         | None => inr tt
         end);
    gc ← named_duration (text "snapshot.gcInterval") (f_GCInterval s);
    interval ← named_duration (text "snapshot.interval") (f_Interval s);
    let n := c_node c in
    mret (mkNodeConfig (c_Name c)
            (mkConfig (PartitionCount n) (BackupCount n) (BackupMode n) OpInMemoryWithSnapshot
               (MaxValueSize n) (LoadFactor n))
            (c_MemberlistConfig c) (c_KeyFile c) (c_CertFile c) (c_LogLevel c) (c_Peers c)
            (c_Serializer c) (c_KeepAlivePeriod c) interval gc (f_GCDiscardRatio s) (Some (f_Dir s)))
  else mret c.

(** [New] of [server.go]. *)
Definition New (c : Config) (access : option Z) : cerror + Olricd :=
  let stdout := bool_decide (f_Output (Logging c) = text "stdout") in
  let level := if decide (f_Level (Logging c) = []) then DefaultLogLevel else f_Level (Logging c) in
  let o := Olricd_ c in
  ser ← (match serializer_named (f_Serializer o) with
         | None => inl (CSerializer (f_Serializer o))
         | Some s => inr s
         end);
  mc ← newMemberlistConf c;
  keepAlive ← named_duration (text "olricd.keepAlivePeriod") (f_KeepAlivePeriod o);
  nc ← with_snapshot (Snapshot_ c) access
         (mkNodeConfig (f_Name o)
            (mkConfig (f_PartitionCount o) (f_BackupCount o) (f_BackupMode o) OpInMemory
               (f_MaxValueSize o) (f_LoadFactor o))
            mc (f_KeyFile o) (f_CertFile o) level (f_Peers (Memberlist c)) ser keepAlive 0 0 no_ratio None);
  mret (mkOlricdServer stdout nc).

(** ** [main] *)
Definition olricd_flags (name : str) : option fkind :=
  if decide (name ∈ [text "h"; text "help"; text "v"; text "version"]) then Some FBool
  else if decide (name ∈ [text "c"; text "config"]) then Some FString
  else None.

(** What [main] does: print a text and return, exit with an error, or start a server. *)
Inductive action {E : Type} := AExit | AVersion | AHelp | ABadFile (err : E) | ABadConfig (err : cerror)
  | AStart (s : Olricd).
Arguments action : clear implicits.

Definition main {E : Type} (decode : str → E + Config) (access : str → option Z)
    (args : list str) (env : str) : action E :=
  match parse_flags olricd_flags args with
  | inl _ => AExit
  | inr sets =>
      let cpath := string_var [text "c"; text "config"] DefaultConfigFile sets in
      if bool_var [text "v"; text "version"] sets then AVersion
      else if bool_var [text "h"; text "help"] sets then AHelp
      else match NewConfig decode cpath env with
           | inl err => ABadFile err
           | inr c =>
               match New c (access (f_Dir (Snapshot_ c))) with
               | inl err => ABadConfig err
               | inr s => AStart s
               end
           end
  end.

(** ** The process

    [Start] runs in the main goroutine, [waitForInterrupt] in another one; the errgroup runs
    [db.Start] and, after a signal, [db.Shutdown]. *)

(** [Start]: creating the node, about to start it, in [errgr.Wait()], returned. *)
Inductive pphase := PNew | PGo | PWaiting | PReturned.
(** [waitForInterrupt]: waiting for a signal, having caught one, returned. *)
Inductive wphase := WWait | WCaught | WReturned.
Inductive gphase := GNone | GRunning | GEnded.

Record proc := mkProc {
  p_db : bool;            (* s.db is set *)
  p_main : pphase;
  p_sig : wphase;
  p_run : gphase;         (* db.Start *)
  p_down : gphase;        (* db.Shutdown *)
  p_failed : bool;        (* db.Start has ended by itself *)
  p_crashed : bool
}.

Definition proc_initial : proc := mkProc false PNew WWait GNone GNone false false.

(** A goroutine runs until [Start] has returned: [main] then ends the process. *)
Inductive proc_step : proc → proc → Prop :=
| o_signal db m r d f :
    m ≠ PReturned → proc_step (mkProc db m WWait r d f false) (mkProc db m WCaught r d f false)
| o_spawn db m r d f :
    m ≠ PReturned →
    proc_step (mkProc db m WCaught r d f false) (mkProc db m WReturned r GRunning f false)
| o_new db w r d f : proc_step (mkProc db PNew w r d f false) (mkProc true PGo w r d f false)
| o_new_fails db w r d f : proc_step (mkProc db PNew w r d f false) (mkProc db PReturned w r d f false)
| o_go db w r d f : proc_step (mkProc db PGo w r d f false) (mkProc db PWaiting w GRunning d f false)
| o_down m w r f :
    m ≠ PReturned → proc_step (mkProc true m w r GRunning f false) (mkProc true m w r GEnded f false)
| o_down_crash m w r f :
    m ≠ PReturned →
    proc_step (mkProc false m w r GRunning f false) (mkProc false m w r GRunning f true)
| o_run_fails db m w d f :
    m ≠ PReturned →
    proc_step (mkProc db m w GRunning d f false) (mkProc db m w GEnded d true false)
| o_run_stopped db m w d f :
    m ≠ PReturned → d ≠ GNone →
    proc_step (mkProc db m w GRunning d f false) (mkProc db m w GEnded d f false)
| o_wait db w d f :
    d ≠ GRunning → proc_step (mkProc db PWaiting w GEnded d f false) (mkProc db PReturned w GEnded d f false).
End olricd.
