(* ===== verification/Setup.v ===== *)
(** The creation of a node ([olric.New]): the configuration the caller passes by reference and
    which [New] completes, the logger with its filter of levels ([hashicorp/logutils]), and the
    limit of values, which is a variable of the process. *)

From S2P Require Export Hash Transport Olricd.

Module setup.
Export olricd.

(** ** Logging ([logutils]) *)
Inductive writer := os_Stderr | Writer (id : nat).

Record LevelFilter := mkFilter { Levels : list str; MinLevel : str; FWriter : writer }.

(** The levels that do not pass ([init]). *)
Fixpoint bad_levels (levels : list str) (min : str) : list str :=
  match levels with
  | [] => []
  | level :: levels => if decide (level = min) then [] else level :: bad_levels levels min
  end.

(** The level of a line is what its first brackets hold. *)
Definition IndexByte (s : str) (b : byte) : option nat := fst <$> list_find (eq b) s.
Definition level_of (line : str) : str :=
  match IndexByte line x5b with
  | Some x =>
      match IndexByte (drop x line) x5d with
      | Some y => take (y - 1) (drop (x + 1) line)
      | None => []
      end
  | None => []
  end.

Definition Check (f : LevelFilter) (line : str) : bool :=
  negb (bool_decide (level_of line ∈ bad_levels (Levels f) (MinLevel f))).

(** What the underlying writer gets, and the number of bytes [Write] answers. *)
Definition Write (f : LevelFilter) (p : str) : option (writer * str) * Z :=
  (if Check f p then Some (FWriter f, p) else None, len p).

(** A logger: one of the caller, or one made by [New]. *)
Inductive Logger := CustomLogger (id : nat) | FilteredLogger (f : LevelFilter).

(** ** The configuration ([config.go]); [u_node] has the fields of [Cluster.v] *)
Record Config := mkSetup {
  u_LogLevel : str; u_Name : str; u_node : olric.Config;
  u_KeepAlivePeriod : Z; u_DialTimeout : Z; u_Peers : list str;
  u_Hasher : option Hasher; u_Serializer : option serializer;
  u_CertFile : str; u_KeyFile : str;
  u_LogOutput : option writer; u_Logger : option Logger;
  u_SnapshotInterval : Z; u_GCInterval : Z; u_GCDiscardRatio : consistent.float64;
  u_BadgerOptions : option str;
  u_MemberlistConfig : option memlist_Config
}.

(** [&Config{}] *)
Definition zero_node : olric.Config := mkConfig 0 0 0 0 0 (consistent.mkFloat 0 0).
Definition zero_Config : Config :=
  mkSetup [] [] zero_node 0 0 [] None None [] [] None None 0 0 (consistent.mkFloat 0 0) None None.

(** The assignments of [New] to the fields of the configuration. *)
Definition set_logger (level : str) (l : Logger) (c : Config) : Config :=
  mkSetup level (u_Name c) (u_node c) (u_KeepAlivePeriod c) (u_DialTimeout c) (u_Peers c)
    (u_Hasher c) (u_Serializer c) (u_CertFile c) (u_KeyFile c) (u_LogOutput c) (Some l)
    (u_SnapshotInterval c) (u_GCInterval c) (u_GCDiscardRatio c) (u_BadgerOptions c) (u_MemberlistConfig c).
Definition set_codecs (h : Hasher) (s : serializer) (c : Config) : Config :=
  mkSetup (u_LogLevel c) (u_Name c) (u_node c) (u_KeepAlivePeriod c) (u_DialTimeout c) (u_Peers c)
    (Some h) (Some s) (u_CertFile c) (u_KeyFile c) (u_LogOutput c) (u_Logger c)
    (u_SnapshotInterval c) (u_GCInterval c) (u_GCDiscardRatio c) (u_BadgerOptions c) (u_MemberlistConfig c).
Definition set_node (name : str) (n : olric.Config) (m : memlist_Config) (c : Config) : Config :=
  mkSetup (u_LogLevel c) name n (u_KeepAlivePeriod c) (u_DialTimeout c) (u_Peers c)
    (u_Hasher c) (u_Serializer c) (u_CertFile c) (u_KeyFile c) (u_LogOutput c) (u_Logger c)
    (u_SnapshotInterval c) (u_GCInterval c) (u_GCDiscardRatio c) (u_BadgerOptions c) (Some m).

(** ** The process: the configurations by their addresses, [protocol.MaxValueSize], and the
    directories whose lock is held by an open database *)
Record process := mkProcess { configs : gmap nat Config; limit : Z; locked : gset str }.
Definition initial_limit : Z := Z.shiftl 1 20.

Definition store (a : nat) (c : Config) (p : process) : process :=
  mkProcess (<[a := c]> (configs p)) (limit p) (locked p).

(** [c == nil] makes a new configuration. *)
Definition config_at (p : process) (a : option nat) : nat * Config :=
  match a with
  | Some a => (a, default zero_Config (configs p !! a))
  | None => (fresh (dom (configs p)), zero_Config)
  end.

Definition both_loggers : str := text "cannot specify both LogOutput and Logger".

(** The part of [New] about logging. *)
Definition log_levels : list str := [text "DEBUG"; text "WARN"; text "ERROR"; text "INFO"].
Definition with_logger (c : Config) : Config :=
  match u_Logger c with
  | Some _ => c
  | None =>
      let dest := default os_Stderr (u_LogOutput c) in
      let level := if decide (u_LogLevel c = []) then DefaultLogLevel else u_LogLevel c in
      set_logger level (FilteredLogger (mkFilter log_levels level dest)) c
  end.

(** The hasher and the serializer. *)
Definition with_codecs (c : Config) : Config :=
  set_codecs (default NewDefaultHasher (u_Hasher c)) (default NewGobSerializer (u_Serializer c)) c.

(** The load factor and the partition count. *)
Definition with_counts (n : olric.Config) : olric.Config :=
  mkConfig (if PartitionCount n =? 0 then DefaultPartitionCount else PartitionCount n)
    (BackupCount n) (BackupMode n) (OperationMode n) (MaxValueSize n)
    (if consistent.f_sig (LoadFactor n) =? 0 then DefaultLoadFactor else LoadFactor n).

(** The configuration of the node itself, whose limit is the one of the process. *)
Definition with_limit (z : Z) (n : olric.Config) : olric.Config :=
  mkConfig (PartitionCount n) (BackupCount n) (BackupMode n) (OperationMode n) z (LoadFactor n).

Section setup.
Context {S N : Type}.

(** [*Olric], with what [New] takes from the configuration; the node of [Cluster.v] is
    [n_db]. *)
Record node := mkNode {
  n_log : Logger; n_config : nat; n_hasher : Hasher; n_serializer : serializer;
  n_dialer : Z * Z;                  (* timeout and keep-alive *)
  n_client : transport.Client; n_server_addr : str; n_server_keepalive : Z;
  n_db : olric.Olric S N
}.

(** The errors of [New]: its own, the one of [os.Hostname], the one of [snapshot.New]. *)
Inductive nerror := NText (t : str) | NHostname (errno : Z) | NSnapshot (e : snapshot.snerror).

(** What the system answers: [os.Hostname], [os.Getwd], and [snapshot.New] on a directory whose
    lock is free, the intervals and the ratio of the configuration. *)
Record system := mkSystem {
  hostname : Z + str;
  getwd : Z + str;
  open_snapshot : str → Z → Z → consistent.float64 → snapshot.snerror + N
}.

(** The directory of the database: the working directory if none is set. *)
Definition snapshot_dir (sys : system) (c : Config) : Z + str :=
  match u_BadgerOptions c with
  | Some dir => if decide (dir = []) then getwd sys else inr dir
  | None => getwd sys
  end.

(** [snapshot.New]: [badger.Open] locks its directory and fails if the lock is taken, also by
    this process. *)
Definition lock_taken : Z := 11.   (* EWOULDBLOCK *)
Definition open_database (sys : system) (held : gset str) (c : Config) : snapshot.snerror + N :=
  match snapshot_dir sys c with
  | inl errno => inl (snapshot.BadgerErr errno)
  | inr dir =>
      if decide (dir ∈ held) then inl (snapshot.BadgerErr lock_taken)
      else open_snapshot sys dir (u_SnapshotInterval c) (u_GCInterval c) (u_GCDiscardRatio c)
  end.

(** The locks after the node has been made. *)
Definition lock_dir (sys : system) (held : gset str) (c : Config) : gset str :=
  if OperationMode (u_node c) =? OpInMemoryWithSnapshot then
    match snapshot_dir sys c with inl _ => held | inr dir => {[dir]} ∪ held end
  else held.
Variable no_snapshot : N.

(** The name of the node: the one of the machine with port 0 if none is set. *)
Definition node_name (sys : system) (c : Config) : Z + str :=
  if decide (u_Name c = []) then
    match hostname sys with inl errno => inl errno | inr host => inr (host ++ text ":0") end
  else inr (u_Name c).

(** The end of [New]: a complete configuration makes a node. *)
Definition make_node (sys : system) (held : gset str) (limit : Z) (a : nat) (c : Config) (l : Logger) (h : Hasher)
    (s : serializer) : comp (nerror + node) :=
  client ← transport.NewClient (Some (transport.mkClientConfig [] 0 1024));
  Return (match olric.New (with_limit limit (u_node c)) no_snapshot
                  (open_database sys held c) with
          | inl err => inl (NSnapshot err)
          | inr db => inr (mkNode l a h s (u_DialTimeout c, u_KeepAlivePeriod c) client (u_Name c) (u_KeepAlivePeriod c) db)
          end).

(** [New].  Every error leaves the assignments made before it in the configuration. *)
Definition New (sys : system) (a : option nat) (p : process) : comp ((nerror + node) * process) :=
  let '(a, c) := config_at p a in
  if bool_decide (is_Some (u_LogOutput c)) && bool_decide (is_Some (u_Logger c))
  then Return (inl (NText both_loggers), p) else
  let c := with_codecs (with_logger c) in
  match node_name sys c with
  | inl errno => Return (inl (NHostname errno), store a c p)
  | inr name =>
      let c := set_node name (with_counts (u_node c)) (default DefaultLocalConfig (u_MemberlistConfig c)) c in
      let lim := if MaxValueSize (u_node c) =? 0 then limit p else MaxValueSize (u_node c) in
      match u_Logger c, u_Hasher c, u_Serializer c with
      | Some l, Some h, Some s =>
          r ← make_node sys (locked p) lim a c l h s;
          Return (r, mkProcess (<[a := c]> (configs p)) lim
                       match r with inl _ => locked p | inr _ => lock_dir sys (locked p) c end)
      | _, _, _ => Panic
      end
  end.
End setup.
Arguments node : clear implicits.
Arguments system : clear implicits.
End setup.
