(* ===== verification/NodeSpec.v ===== *)
(** What a node holds, and what the operations on one node do to it.

    [view db bk pid name] is the finite map a node stores for the map [name] in the
    partition [pid], as a primary copy or as a backup.  The operations that stay on the
    node are specified by their effect on the views. *)

From S2P Require Export Dispatch.

Module node.
Export dispatch.

(** ** Running the monad *)
Section run.
Context {S N : Type}.
Abbreviation M := (olric.M S N).
Abbreviation cluster := (olric.cluster S N).

Lemma bind_run {A B} (m : M A) (k : A → M B) c x c' :
  m c = Return (x, c') → mbind k m c = k x c'.
Proof. intros Hm. unfold mbind, M_bind. by rewrite Hm. Qed.

Lemma ret_run {A} (x : A) c : (mret x : M A) c = Return (x, c).
Proof. done. Qed.

Lemma lift_run {A} (m : comp A) x c : m = Return x → (lift m : M A) c = Return (x, c).
Proof. by intros ->. Qed.

Lemma get_node_run n db (c : cluster) :
  nodes c !! n = Some db → get_node n c = Return (db, c).
Proof. intros Hn. unfold get_node. by rewrite Hn. Qed.

End run.

(** [step H] runs the first call of a chain, whose result [H] gives; [at_node H] runs
    [get_node] on a node that [H] knows; [calc H] runs a computation that [H] evaluates. *)
Tactic Notation "step" uconstr(H) := rewrite (bind_run _ _ _ _ _ H).
Tactic Notation "at_node" uconstr(H) := rewrite (bind_run _ _ _ _ _ (get_node_run _ _ _ H)).
Tactic Notation "calc" uconstr(H) := rewrite (bind_run _ _ _ _ _ (lift_run _ _ _ H)).

Section node.
Context {S N : Type} `{!KV S} `{!KVLaws S} `{!Snap S N} `{!Env}.
Abbreviation M := (olric.M S N).
Abbreviation Olric := (olric.Olric S N).
Abbreviation cluster := (olric.cluster S N).

(** The cluster with the node at [n] replaced. *)
Definition with_node (n : list byte) (db : Olric) (c : cluster) : cluster :=
  mkCluster (<[n := db]> (nodes c)) (net c) (tasks c).

Lemma put_node_run n db c : put_node n db c = Return (tt, with_node n db c).
Proof. done. Qed.

Lemma with_node_lookup n db c : nodes (with_node n db c) !! n = Some db.
Proof. apply lookup_insert_eq. Qed.

Lemma with_node_twice n db db' c : with_node n db (with_node n db' c) = with_node n db c.
Proof. unfold with_node. simpl. by rewrite insert_insert_eq. Qed.

Lemma with_node_id n db c : nodes c !! n = Some db → with_node n db c = c.
Proof. intros Hn. unfold with_node. rewrite insert_id by done. by destruct c. Qed.

(** ** The maps of a node *)
Definition ref (db : Olric) (bk : bool) (pid : Z) (name : list byte) : option nat :=
  match table_of bk db !! pid with Some p => p_m p !! name | None => None end.

Definition view (db : Olric) (bk : bool) (pid : Z) (name : list byte) : gmap Z VData :=
  match ref db bk pid name with
  | Some a => match heap db !! a with Some d => kv_map (dm_str d) | None => ∅ end
  | None => ∅
  end.

(** At most one copy of the key is stored (see [kv_single]). *)
Definition view_single (db : Olric) (bk : bool) (pid : Z) (name : list byte) (h : Z) : Prop :=
  match ref db bk pid name with
  | Some a => match heap db !! a with Some d => kv_single (dm_str d) h | None => True end
  | None => True
  end.

(** The storage of a map has room for a value; a map that does not exist yet is created
    with an empty storage. *)
Definition view_room (db : Olric) (bk : bool) (pid : Z) (name : list byte) (v : VData) : Prop :=
  match ref db bk pid name with
  | Some a => match heap db !! a with Some d => kv_room (dm_str d) v | None => False end
  | None => ∀ s, kv_new = Return (inr s) → kv_room s v
  end.

(** No binding has changed, no map has lost room, and no key has got a second copy. *)
Record undisturbed (db db' : Olric) : Prop := {
  und_view bk pid name : view db' bk pid name = view db bk pid name;
  und_room bk pid name v : view_room db bk pid name v → view_room db' bk pid name v;
  und_single bk pid name h : view_single db bk pid name h → view_single db' bk pid name h
}.

#[export] Instance undisturbed_preorder : PreOrder undisturbed.
Proof.
  split; [done|]. intros db1 db2 db3 H1 H2. split.
  - intros bk pid name. by rewrite (und_view _ _ H2), (und_view _ _ H1).
  - intros bk pid name v Hv. by apply (und_room _ _ H2), (und_room _ _ H1).
  - intros bk pid name h Hv. by apply (und_single _ _ H2), (und_single _ _ H1).
Qed.

(** A node in order; [lk] is the map whose mutex is locked, if any. *)
Record wf_node (lk : option nat) (db : Olric) : Prop := {
  wf_pc : 0 < PartitionCount (config db);
  wf_mode : OperationMode (config db) = OpInMemory;
  wf_parts bk pid : 0 ≤ pid < PartitionCount (config db) →
    ∃ p, table_of bk db !! pid = Some p ∧ p_id p = pid ∧ p_backup p = bk;
  wf_ref bk pid name a : ref db bk pid name = Some a →
    ∃ d, heap db !! a = Some d ∧ dm_mu d = bool_decide (lk = Some a) ∧ kv_ok (dm_str d);
  wf_inj bk1 bk2 pid1 pid2 name1 name2 a :
    ref db bk1 pid1 name1 = Some a → ref db bk2 pid2 name2 = Some a →
    bk1 = bk2 ∧ pid1 = pid2 ∧ name1 = name2
}.

Lemma New_partitions_lookup bk cnt pid :
  0 ≤ pid < cnt → New_partitions bk cnt !! pid = Some (mkPartition 0 pid bk ∅ []).
Proof.
  intros Hpid. unfold New_partitions. apply elem_of_list_to_map_1.
  - rewrite <-list_fmap_compose. apply NoDup_fmap_2_strong; [|apply NoDup_seq].
    intros i j _ _. simpl. lia.
  - apply list_elem_of_fmap. exists (Z.to_nat pid). rewrite Z2Nat.id by lia. split; [done|].
    apply elem_of_seq. lia.
Qed.

Lemma New_partitions_empty bk cnt pid p : New_partitions bk cnt !! pid = Some p → p_m p = ∅.
Proof.
  unfold New_partitions. intros Hp. apply elem_of_list_to_map_2, list_elem_of_fmap in Hp
    as (i & Hi & _). by simplify_eq.
Qed.

(** A new node is in order: all its partitions are there, and empty. *)
Lemma New_wf cfg snap opened :
  0 ≤ PartitionCount cfg → OperationMode cfg = OpInMemory →
  ∃ db, New cfg snap opened = inr db ∧ wf_node None db ∧ config db = defaults cfg.
Proof.
  intros Hpc Hmode. eexists. split; [unfold New; simpl; by rewrite Hmode|].
  split; [|done]. set (db := mkOlric _ _ _ _ _ _ _ _ _ _).
  assert (0 < PartitionCount (defaults cfg)).
  { simpl. unfold DefaultPartitionCount. case_match eqn:Heq; lia. }
  assert (∀ bk pid name, ref db bk pid name = None) as Hnone.
  { intros bk pid name. unfold ref. destruct (table_of bk _ !! pid) as [p|] eqn:Hp; [|done].
    assert (p_m p = ∅) as ->.
    { destruct bk; simpl in Hp; eapply New_partitions_empty; exact Hp. }
    apply lookup_empty. }
  split; [done|done| | |].
  - intros bk pid Hpid. exists (mkPartition 0 pid bk ∅ []).
    split; [|done]. destruct bk; by apply New_partitions_lookup.
  - intros bk pid name a. by rewrite Hnone.
  - intros bk1 bk2 pid1 pid2 name1 name2 a. by rewrite Hnone.
Qed.

(** What the operations on keys leave alone. *)
Record same_node (db db' : Olric) : Prop := {
  same_this : this db' = this db;
  same_config : config db' = config db;
  same_members : members db' = members db;
  same_bcx : bcx db' = bcx db;
  same_time : currentUnixNano db' = currentUnixNano db;
  same_owners bk pid : p_owners <$> table_of bk db' !! pid = p_owners <$> table_of bk db !! pid
}.

#[export] Instance same_node_equivalence : Equivalence same_node.
Proof.
  split.
  - done.
  - intros db1 db2 []. split; congruence.
  - intros db1 db2 db3 [] []. split; congruence.
Qed.

(** The maps stay where they are, with the same named locks; a map that is new has none. *)
Record keeps_locks (db db' : Olric) : Prop := {
  kl_old bk pid name a d : ref db bk pid name = Some a → heap db !! a = Some d →
    ref db' bk pid name = Some a ∧ dm_locker <$> heap db' !! a = Some (dm_locker d);
  kl_new bk pid name a : ref db bk pid name = None → ref db' bk pid name = Some a →
    dm_locker <$> heap db' !! a = Some (Some locker.newLocker)
}.

#[export] Instance keeps_locks_preorder : PreOrder keeps_locks.
Proof.
  split.
  - intros db. split; [intros bk pid name a d Hr Hd; by rewrite Hd|congruence].
  - intros db1 db2 db3 H1 H2. split; intros bk pid name a.
    + intros d Hr Hd. destruct (kl_old _ _ H1 _ _ _ _ _ Hr Hd) as [Hr2 Hd2].
      destruct (heap db2 !! a) as [d2|] eqn:E; [|done]. simpl in Hd2. injection Hd2 as Hd2.
      rewrite <-Hd2. by eapply kl_old.
    + intros Hr Hr3. destruct (ref db2 bk pid name) as [b|] eqn:Hr2; [|by eapply kl_new].
      pose proof (kl_new _ _ H1 _ _ _ _ Hr Hr2) as Hb.
      destruct (heap db2 !! b) as [d|] eqn:Hd; [|done].
      destruct (kl_old _ _ H2 _ _ _ _ _ Hr2 Hd) as [Hr3' Hb']. simplify_eq/=. congruence.
Qed.

Definition pid_of (db : Olric) (h : Z) : Z := h mod PartitionCount (config db).

Lemma pid_of_range lk db h :
  wf_node lk db → 0 ≤ pid_of db h < PartitionCount (config db).
Proof. intros Hwf. apply Z.mod_pos_bound, Hwf. Qed.

Lemma getPartitionID_ok lk db h : wf_node lk db → getPartitionID db h = Return (pid_of db h).
Proof.
  intros Hwf. unfold getPartitionID, checked. pose proof (wf_pc _ _ Hwf).
  by rewrite (proj2 (Z.eqb_neq _ 0)) by lia.
Qed.

Lemma part_of_ok lk db (bk : bool) h :
  wf_node lk db →
  ∃ p, (if bk then getBackupPartition db h else getPartition db h) = Return p
    ∧ table_of bk db !! pid_of db h = Some p ∧ p_id p = pid_of db h ∧ p_backup p = bk.
Proof.
  intros Hwf. destruct (wf_parts _ _ Hwf bk (pid_of db h)) as (p & Hp & Hid & Hbk);
    [by eapply pid_of_range|].
  exists p. split; [|done]. unfold getBackupPartition, getPartition.
  destruct bk; rewrite (getPartitionID_ok lk) by done; simpl; unfold part_at; by rewrite Hp.
Qed.

(** ** Creating a map *)
Definition set_dm (a : nat) (d : dmap S) (db : Olric) : Olric :=
  set_heap (<[a := d]> (heap db)) db.

(** The node after [createDMap] has added a map with the storage [s]. *)
Definition with_map (bk : bool) (p : partition) (name : list byte) (s : S) (db : Olric) : Olric :=
  set_heap (heap db ++ [mkDmap false (Some locker.newLocker) None s])
    (set_part bk (add_count 1 (set_m (<[name := length (heap db)]> (p_m p)) p)) db).

(** A node with one more map, under [name] in the partition that has become [p']. *)
Definition add_dmap (bk : bool) (p' : partition) (d : dmap S) (db : Olric) : Olric :=
  set_heap (heap db ++ [d]) (set_part bk p' db).

Lemma table_of_add_dmap bk p' d db bk' pid :
  table_of bk' (add_dmap bk p' d db) !! pid
  = if decide (bk' = bk ∧ pid = p_id p') then Some p' else table_of bk' db !! pid.
Proof.
  unfold add_dmap, table_of, set_heap, set_part. simpl. case_decide as Hd.
  - destruct Hd as [-> ->]. destruct bk; apply lookup_insert_eq.
  - destruct bk, bk'; try done; rewrite lookup_insert_ne; naive_solver.
Qed.

Lemma ref_add_dmap bk p p' name d db bk' pid name' :
  table_of bk db !! p_id p = Some p → p_id p' = p_id p →
  p_m p' = <[name := length (heap db)]> (p_m p) →
  ref (add_dmap bk p' d db) bk' pid name'
  = if decide (bk' = bk ∧ pid = p_id p ∧ name' = name) then Some (length (heap db))
    else ref db bk' pid name'.
Proof.
  intros Hp Hid Hm. unfold ref. rewrite table_of_add_dmap, Hid.
  destruct (decide (bk' = bk ∧ pid = p_id p)) as [[-> ->]|Hne].
  - rewrite Hp, Hm. destruct (decide (name' = name)) as [->|Hn].
    + rewrite decide_True by done. apply lookup_insert_eq.
    + rewrite decide_False by tauto. by apply lookup_insert_ne.
  - rewrite decide_False by tauto. done.
Qed.

Lemma view_add_dmap bk p p' name d db bk' pid name' :
  table_of bk db !! p_id p = Some p → p_id p' = p_id p →
  p_m p' = <[name := length (heap db)]> (p_m p) →
  (∀ bk pid name a, ref db bk pid name = Some a → (a < length (heap db))%nat) →
  view (add_dmap bk p' d db) bk' pid name'
  = if decide (bk' = bk ∧ pid = p_id p ∧ name' = name) then kv_map (dm_str d)
    else view db bk' pid name'.
Proof.
  intros Hp Hid Hm Hlt. unfold view. rewrite (ref_add_dmap bk p p' name) by done. case_decide.
  - simpl. by rewrite lookup_app_r, Nat.sub_diag by done.
  - destruct (ref db bk' pid name') as [a|] eqn:Ha; [|done]. simpl.
    by rewrite lookup_app_l by by eapply Hlt.
Qed.

Lemma table_of_with_map bk bk' p name s db pid :
  table_of bk' (with_map bk p name s db) !! pid
  = if decide (bk' = bk ∧ pid = p_id p)
    then Some (add_count 1 (set_m (<[name := length (heap db)]> (p_m p)) p))
    else table_of bk' db !! pid.
Proof. exact (table_of_add_dmap bk (add_count 1 (set_m _ p)) _ db bk' pid). Qed.

Lemma ref_with_map bk bk' p name s db pid name' :
  table_of bk db !! p_id p = Some p →
  ref (with_map bk p name s db) bk' pid name'
  = if decide (bk' = bk ∧ pid = p_id p ∧ name' = name) then Some (length (heap db))
    else ref db bk' pid name'.
Proof. intros Hp. by apply (ref_add_dmap bk p). Qed.

Lemma ref_lt lk db bk pid name a :
  wf_node lk db → ref db bk pid name = Some a → (a < length (heap db))%nat.
Proof. intros Hwf Hr. destruct (wf_ref _ _ Hwf _ _ _ _ Hr) as (d & Hd & _).
  by eapply lookup_lt_Some. Qed.

Lemma wf_add_dmap lk db bk p p' name d :
  wf_node lk db → table_of bk db !! p_id p = Some p → p_id p' = p_id p → p_backup p' = p_backup p →
  p_m p' = <[name := length (heap db)]> (p_m p) → dm_mu d = false → kv_ok (dm_str d) →
  lk ≠ Some (length (heap db)) →
  wf_node lk (add_dmap bk p' d db).
Proof.
  intros Hwf Hp Hid Hb Hm Hmu Hs Hlk. split.
  - apply Hwf.
  - apply Hwf.
  - intros bk' pid Hpid. rewrite table_of_add_dmap.
    destruct (wf_parts _ _ Hwf bk' pid Hpid) as (q & Hq & Hqid & Hbk).
    case_decide as Hd; [|by exists q]. destruct Hd as [-> ->]. rewrite Hid in Hq. simplify_eq.
    exists p'. split; [done|]. by split.
  - intros bk' pid name' a. rewrite (ref_add_dmap bk p p' name) by done.
    case_decide; intros Ha.
    + simplify_eq. exists d. simpl. rewrite lookup_app_r, Nat.sub_diag by done.
      by rewrite bool_decide_eq_false_2 by done.
    + destruct (wf_ref _ _ Hwf _ _ _ _ Ha) as (e & He & Hemu & Hok). exists e. simpl.
      rewrite lookup_app_l by by eapply lookup_lt_Some. done.
  - intros b1 b2 p1 p2 n1 n2 a. rewrite !(ref_add_dmap bk p p' name) by done.
    case_decide; case_decide; intros Ha1 Ha2.
    + intuition congruence.
    + simplify_eq. apply (ref_lt lk) in Ha2; [lia|done].
    + simplify_eq. apply (ref_lt lk) in Ha1; [lia|done].
    + by eapply (wf_inj _ _ Hwf).
Qed.

Lemma same_add_dmap db bk p p' d :
  table_of bk db !! p_id p = Some p → p_id p' = p_id p → p_owners p' = p_owners p →
  same_node db (add_dmap bk p' d db).
Proof.
  intros Hp Hid Ho. split; try done. intros bk' pid. rewrite table_of_add_dmap, Hid.
  case_decide as Hd; [|done]. destruct Hd as [-> ->]. rewrite Hp. simpl. by rewrite Ho.
Qed.

Lemma wf_with_map lk db bk p name s :
  wf_node lk db → table_of bk db !! p_id p = Some p → p_m p !! name = None → kv_ok s →
  lk ≠ Some (length (heap db)) →
  wf_node lk (with_map bk p name s db).
Proof. intros Hwf Hp _ Hs Hlk. by eapply (wf_add_dmap lk db bk p). Qed.

Lemma view_with_map lk db bk p name s bk' pid name' :
  wf_node lk db → table_of bk db !! p_id p = Some p → p_m p !! name = None → kv_map s = ∅ →
  view (with_map bk p name s db) bk' pid name' = view db bk' pid name'.
Proof.
  intros Hwf Hp Hn Hs. unfold view. rewrite ref_with_map by done. case_decide as Hd.
  - destruct Hd as (-> & -> & ->). unfold ref. rewrite Hp, Hn. simpl.
    by rewrite lookup_app_r, Nat.sub_diag by done.
  - destruct (ref db bk' pid name') as [a|] eqn:Ha; [|done]. simpl.
    by rewrite lookup_app_l by by eapply ref_lt.
Qed.

Lemma same_with_map db bk p name s :
  table_of bk db !! p_id p = Some p → same_node db (with_map bk p name s db).
Proof. intros Hp. by apply (same_add_dmap db bk p). Qed.

(** [get_dmap_of] finds or creates the map; no view changes. *)
Record got_map (db db' : Olric) (lk : option nat) (bk : bool) (h : Z) (name : list byte)
    (a : nat) : Prop := {
  got_wf : wf_node lk db';
  got_same : same_node db db';
  got_locks : keeps_locks db db';
  got_fresh : ref db bk (pid_of db h) name = None →
    dm_locker <$> heap db' !! a = Some (Some locker.newLocker);
  got_view bk' pid name' : view db' bk' pid name' = view db bk' pid name';
  got_ref : ref db' bk (pid_of db h) name = Some a;
  got_room v : view_room db bk (pid_of db h) name v → view_room db' bk (pid_of db h) name v;
  got_single h' : view_single db bk (pid_of db h) name h' →
    view_single db' bk (pid_of db h) name h';
  got_others bk' pid name' : (bk', pid, name') ≠ (bk, pid_of db h, name) →
    ref db' bk' pid name' = ref db bk' pid name'
    ∧ ∀ b, ref db bk' pid name' = Some b → heap db' !! b = heap db !! b
}.

Lemma get_dmap_of_spec lk n db c bk name h :
  nodes c !! n = Some db → wf_node lk db → (∀ a, lk = Some a → (a < length (heap db))%nat) →
  ∃ a db', get_dmap_of n bk name h c = Return (inr a, with_node n db' c)
    ∧ got_map db db' lk bk h name a.
Proof.
  intros Hn Hwf Hlk. destruct (part_of_ok lk db bk h Hwf) as (p & Hpart & Hp & Hid & Hbk).
  unfold get_dmap_of. at_node Hn.
  calc Hpart.
  destruct (p_m p !! name) as [a|] eqn:Hm.
  { exists a, db. rewrite with_node_id by done. split; [done|].
    assert (ref db bk (pid_of db h) name = Some a) as Hr by (unfold ref; by rewrite Hp).
    split; try done. by rewrite Hr. }
  unfold createDMap. at_node Hn.
  assert (part_at bk db (p_id p) = Return p) as Hat by (unfold part_at; by rewrite Hid, Hp).
  calc Hat. rewrite Hm.
  destruct kv_new_ok as (s & Hnew & Hok & Hempty).
  calc Hnew.
  rewrite (wf_mode _ _ Hwf). cbn [Z.eqb OpInMemory OpInMemoryWithSnapshot]. cbn beta iota zeta.
  rewrite (bind_run _ _ _ _ _ (put_node_run _ _ _)).
  assert (table_of bk db !! p_id p = Some p) as Hp' by by rewrite Hid.
  exists (length (heap db)), (with_map bk p name s db). split; [done|].
  assert (ref db bk (pid_of db h) name = None) as Hnone by (unfold ref; by rewrite Hp).
  assert (ref (with_map bk p name s db) bk (pid_of db h) name = Some (length (heap db))) as Hr.
  { rewrite ref_with_map by done. by rewrite decide_True by done. }
  split.
  - apply wf_with_map; try done. intros Heq. apply Hlk in Heq. lia.
  - by apply same_with_map.
  - split.
    + intros bk' i name' b d Hb Hd. rewrite ref_with_map by done. rewrite decide_False.
      * split; [done|]. simpl. by rewrite lookup_app_l, Hd by by eapply lookup_lt_Some.
      * intros (-> & -> & ->). rewrite Hid in Hb. congruence.
    + intros bk' i name' b Hb. rewrite ref_with_map by done. case_decide; [|congruence].
      intros [= <-]. simpl. by rewrite lookup_app_r, Nat.sub_diag by done.
  - intros _. simpl. by rewrite lookup_app_r, Nat.sub_diag by done.
  - intros. by eapply view_with_map.
  - done.
  - unfold view_room. rewrite Hr, Hnone. simpl. rewrite lookup_app_r, Nat.sub_diag by done.
    simpl. intros v Hv. by apply Hv.
  - unfold view_single. rewrite Hr. simpl. rewrite lookup_app_r, Nat.sub_diag by done. simpl.
    intros h' _. apply kv_absent_single. by rewrite Hempty.
  - intros bk' pid name' Hne. rewrite ref_with_map by done.
    rewrite decide_False by (intros (-> & -> & ->); apply Hne; by rewrite Hid). split; [done|].
    intros b Hb. simpl. by rewrite lookup_app_l by by eapply ref_lt.
Qed.

(** ** Changing the storage of a map *)
Lemma table_of_set_dm a d db bk : table_of bk (set_dm a d db) = table_of bk db.
Proof. by destruct bk. Qed.

Lemma ref_set_dm a d db bk pid name : ref (set_dm a d db) bk pid name = ref db bk pid name.
Proof. unfold ref. by rewrite table_of_set_dm. Qed.

Lemma same_set_dm a d db : same_node db (set_dm a d db).
Proof. by split. Qed.

(** Changing the map [a]: its mutex follows [lk'], its storage stays well formed. *)
Lemma wf_set_dm lk lk' db a d d' :
  wf_node lk db → heap db !! a = Some d → dm_mu d' = bool_decide (lk' = Some a) →
  kv_ok (dm_str d') → (∀ b, b ≠ a → lk = Some b ↔ lk' = Some b) →
  wf_node lk' (set_dm a d' db).
Proof.
  intros Hwf Ha Hmu Hok Hlk. split; [exact (wf_pc _ _ Hwf)|exact (wf_mode _ _ Hwf)|..].
  - intros bk pid Hpid. rewrite table_of_set_dm. by apply (wf_parts _ _ Hwf).
  - intros bk pid name b Hr. rewrite ref_set_dm in Hr. unfold set_dm. simpl.
    destruct (decide (b = a)) as [->|Hne].
    + exists d'. by rewrite list_lookup_insert_eq by by eapply lookup_lt_Some.
    + destruct (wf_ref _ _ Hwf _ _ _ _ Hr) as (e & He & Hemu & Heok). exists e.
      rewrite list_lookup_insert_ne by done. split; [done|]. split; [|done].
      rewrite Hemu. apply bool_decide_ext. by apply Hlk.
  - intros b1 b2 p1 p2 n1 n2 b. rewrite !ref_set_dm. apply (wf_inj _ _ Hwf).
Qed.

(** The views after a change of the storage of one map. *)
Lemma view_set_dm lk db a d d' bk pid name bk' pid' name' :
  wf_node lk db → heap db !! a = Some d → ref db bk pid name = Some a →
  view (set_dm a d' db) bk' pid' name'
  = if decide ((bk', pid', name') = (bk, pid, name)) then kv_map (dm_str d')
    else view db bk' pid' name'.
Proof.
  intros Hwf Ha Hr. unfold view. rewrite ref_set_dm. unfold set_dm. simpl.
  case_decide as Hd.
  - simplify_eq. rewrite Hr, list_lookup_insert_eq by by eapply lookup_lt_Some. done.
  - destruct (ref db bk' pid' name') as [b|] eqn:Hb; [|done].
    rewrite list_lookup_insert_ne; [done|]. intros ->.
    destruct (wf_inj _ _ Hwf _ _ _ _ _ _ _ Hr Hb) as (-> & -> & ->). done.
Qed.

(** ** The primitives on the heap *)
Lemma get_dm_run n db (c : cluster) a d :
  nodes c !! n = Some db → heap db !! a = Some d → get_dm n a c = Return (d, c).
Proof.
  intros Hn Ha. unfold get_dm. at_node Hn.
  by rewrite Ha.
Qed.

Lemma put_dm_run n db (c : cluster) a d :
  nodes c !! n = Some db → put_dm n a d c = Return (tt, with_node n (set_dm a d db) c).
Proof.
  intros Hn. unfold put_dm. by rewrite (bind_run _ _ _ _ _ (get_node_run _ _ _ Hn)).
Qed.

Definition with_mu (b : bool) (d : dmap S) : dmap S :=
  mkDmap b (dm_locker d) (dm_oplog d) (dm_str d).
Definition with_str (s : S) (d : dmap S) : dmap S :=
  mkDmap (dm_mu d) (dm_locker d) (dm_oplog d) s.

Lemma dm_Lock_run n db (c : cluster) a d :
  nodes c !! n = Some db → heap db !! a = Some d → dm_mu d = false →
  dm_Lock n a c = Return (tt, with_node n (set_dm a (with_mu true d) db) c).
Proof.
  intros Hn Ha Hmu. unfold dm_Lock. rewrite (bind_run _ _ _ _ _ (get_dm_run _ _ _ _ _ Hn Ha)).
  rewrite Hmu. by apply put_dm_run.
Qed.

Lemma dm_Unlock_run n db (c : cluster) a d :
  nodes c !! n = Some db → heap db !! a = Some d → dm_mu d = true →
  dm_Unlock n a c = Return (tt, with_node n (set_dm a (with_mu false d) db) c).
Proof.
  intros Hn Ha Hmu. unfold dm_Unlock. rewrite (bind_run _ _ _ _ _ (get_dm_run _ _ _ _ _ Hn Ha)).
  rewrite Hmu. by apply put_dm_run.
Qed.

(** A nested [dm.Lock()] on a map that its own caller has locked never returns. *)
Lemma dm_Lock_blocks n db (c : cluster) a d :
  nodes c !! n = Some db → heap db !! a = Some d → dm_mu d = true → dm_Lock n a c = Running.
Proof.
  intros Hn Ha Hmu. unfold dm_Lock. rewrite (bind_run _ _ _ _ _ (get_dm_run _ _ _ _ _ Hn Ha)).
  by rewrite Hmu.
Qed.

Lemma str_call_run n db (c : cluster) a d f s e :
  nodes c !! n = Some db → heap db !! a = Some d → f (dm_str d) = Return (s, e) →
  str_call n a f c = Return (e, with_node n (set_dm a (with_str s d) db) c).
Proof.
  intros Hn Ha Hf. unfold str_call. rewrite (bind_run _ _ _ _ _ (get_dm_run _ _ _ _ _ Hn Ha)).
  calc Hf.
  by rewrite (bind_run _ _ _ _ _ (put_dm_run _ _ _ _ _ Hn)).
Qed.

Lemma oplog_skipped n db (c : cluster) a h op :
  nodes c !! n = Some db → OperationMode (config db) = OpInMemory →
  oplog_if_snapshot n a h op c = Return (tt, c).
Proof.
  intros Hn Hmode. unfold oplog_if_snapshot.
  by rewrite (bind_run _ _ _ _ _ (get_node_run _ _ _ Hn)), Hmode.
Qed.

Lemma set_dm_twice a d d' db : set_dm a d (set_dm a d' db) = set_dm a d db.
Proof. unfold set_dm, set_heap. simpl. by rewrite list_insert_insert_eq. Qed.

Lemma set_dm_lookup a d d' db : heap db !! a = Some d' → heap (set_dm a d db) !! a = Some d.
Proof. intros Ha. apply list_lookup_insert_eq. by eapply lookup_lt_Some. Qed.

(** ** The effect of an operation on a key

    The map [name] of the partition [pid] has become [m], by an operation on the key
    [h]; every other map of the node is the same object in the same state. *)
Record stored (lk : option nat) (db db' : Olric) (bk : bool) (pid : Z) (name : list byte)
    (h : Z) (m : gmap Z VData) : Prop := {
  stored_wf : wf_node lk db';
  stored_same : same_node db db';
  stored_locks : keeps_locks db db';
  stored_view : view db' bk pid name = m;
  stored_single h' : view_single db bk pid name h' →
    h' ≠ h ∨ view db bk pid name !! h = None → view_single db' bk pid name h';
  stored_others bk' pid' name' : (bk', pid', name') ≠ (bk, pid, name) →
    ref db' bk' pid' name' = ref db bk' pid' name'
    ∧ ∀ b, ref db bk' pid' name' = Some b → heap db' !! b = heap db !! b
}.

Lemma stored_view_others lk db db' bk pid name h m bk' pid' name' :
  stored lk db db' bk pid name h m → (bk', pid', name') ≠ (bk, pid, name) →
  view db' bk' pid' name' = view db bk' pid' name'.
Proof.
  intros Hst Hne. destruct (stored_others _ _ _ _ _ _ _ _ Hst _ _ _ Hne) as [Hr Hh].
  unfold view. rewrite Hr. destruct (ref db bk' pid' name') as [b|]; [|done]. by rewrite Hh.
Qed.

(** The object of a map that has been found or created. *)
Lemma got_dmap db db' lk bk h name a :
  got_map db db' lk bk h name a →
  ∃ d, heap db' !! a = Some d ∧ dm_mu d = bool_decide (lk = Some a) ∧ kv_ok (dm_str d)
    ∧ kv_map (dm_str d) = view db bk (pid_of db h) name
    ∧ (∀ v, view_room db bk (pid_of db h) name v → kv_room (dm_str d) v)
    ∧ (∀ h', view_single db bk (pid_of db h) name h' → kv_single (dm_str d) h').
Proof.
  intros Hg. pose proof (got_ref _ _ _ _ _ _ _ Hg) as Hr.
  destruct (wf_ref _ _ (got_wf _ _ _ _ _ _ _ Hg) _ _ _ _ Hr) as (d & Hd & Hmu & Hok).
  exists d. split; [done|]. split; [done|]. split; [done|]. split; [|split].
  - rewrite <-(got_view _ _ _ _ _ _ _ Hg). unfold view. by rewrite Hr, Hd.
  - intros v Hv. apply (got_room _ _ _ _ _ _ _ Hg) in Hv. unfold view_room in Hv.
    by rewrite Hr, Hd in Hv.
  - intros h' Hh. apply (got_single _ _ _ _ _ _ _ Hg) in Hh. unfold view_single in Hh.
    by rewrite Hr, Hd in Hh.
Qed.

Lemma got_undisturbed db db' lk bk h name a :
  got_map db db' lk bk h name a → undisturbed db db'.
Proof.
  intros Hg. split; [apply (got_view _ _ _ _ _ _ _ Hg)|..]; intros bk' i name' v Hv;
    (destruct (decide ((bk', i, name') = (bk, pid_of db h, name))) as [E|E];
     [simplify_eq; by first [apply (got_room _ _ _ _ _ _ _ Hg)|apply (got_single _ _ _ _ _ _ _ Hg)]|]);
    destruct (got_others _ _ _ _ _ _ _ Hg _ _ _ E) as [Hr Hh]; unfold view_room, view_single in *;
    rewrite Hr; (destruct (ref db bk' i name') as [b|]; [|done]); by rewrite Hh.
Qed.

(** Replacing the object of the map that was found. *)
Lemma stored_set_dm lk lk' db db' bk h name a d d' :
  got_map db db' lk bk h name a → heap db' !! a = Some d →
  dm_mu d' = bool_decide (lk' = Some a) → kv_ok (dm_str d') →
  (∀ b, b ≠ a → lk = Some b ↔ lk' = Some b) → dm_locker d' = dm_locker d →
  (∀ h', kv_single (dm_str d) h' → h' ≠ h ∨ kv_map (dm_str d) !! h = None → kv_single (dm_str d') h') →
  stored lk' db (set_dm a d' db') bk (pid_of db h) name h (kv_map (dm_str d')).
Proof.
  intros Hg Ha Hmu Hok Hlk Hlkr Hsg. pose proof (got_ref _ _ _ _ _ _ _ Hg) as Hr.
  pose proof (got_wf _ _ _ _ _ _ _ Hg) as Hwf. split.
  - by eapply wf_set_dm.
  - etrans; [apply (got_same _ _ _ _ _ _ _ Hg)|apply same_set_dm].
  - etrans; [apply (got_locks _ _ _ _ _ _ _ Hg)|].
    split; [|intros bk' i name' b Hb Hb'; rewrite ref_set_dm in Hb'; congruence].
    intros bk' i name' b e Hb He.
    rewrite ref_set_dm. split; [done|]. simpl. destruct (decide (b = a)) as [->|Hne].
    + rewrite list_lookup_insert_eq by by eapply lookup_lt_Some. simpl. congruence.
    + by rewrite list_lookup_insert_ne, He.
  - rewrite (view_set_dm lk _ _ d _ bk (pid_of db h) name) by done. by rewrite decide_True.
  - intros h' Hh' Hor. destruct (got_dmap _ _ _ _ _ _ _ Hg) as (e & He & _ & _ & Hm & _ & Hs).
    assert (e = d) as -> by congruence. rewrite <-Hm in Hor. unfold view_single.
    rewrite ref_set_dm, Hr. simpl. rewrite list_lookup_insert_eq by by eapply lookup_lt_Some.
    apply Hsg; [by apply Hs|done].
  - intros bk' pid' name' Hne. rewrite ref_set_dm.
    destruct (got_others _ _ _ _ _ _ _ Hg _ _ _ Hne) as [Hr' Hh]. split; [done|].
    intros b Hb. rewrite <-Hh by done. simpl. apply list_lookup_insert_ne. intros ->.
    rewrite <-Hr' in Hb. destruct (wf_inj _ _ Hwf _ _ _ _ _ _ _ Hr Hb) as (E1 & E2 & E3).
  apply Hne. congruence.
Qed.

(** ** The handlers that stay on their node *)

(** The TTL a backup computes from the extras of the request. *)
Definition backup_ttl (db : Olric) (x : option extra) : option Z :=
  match x with
  | None => Some 0
  | Some (protocol.PutExExtra t) => Some (if t =? 0 then 0 else getTTL db t)
  | Some _ => None
  end.

Lemma same_getTTL db db' t : same_node db db' → getTTL db' t = getTTL db t.
Proof. intros Hs. unfold getTTL. by rewrite (same_time _ _ Hs). Qed.

Lemma same_expired db db' t : same_node db db' → isKeyExpired db' t = isKeyExpired db t.
Proof. intros Hs. unfold isKeyExpired. by rewrite (same_time _ _ Hs). Qed.

Lemma putBackup_spec lk n db (c : cluster) req ttl :
  let name := protocol.DMap req in
  let h := getHKey name (protocol.Key req) in
  let v := mkVData (protocol.Key req) ttl (protocol.Value req) in
  nodes c !! n = Some db → wf_node lk db → (∀ a, lk = Some a → (a < length (heap db))%nat) →
  backup_ttl db (protocol.Extra req) = Some ttl → view_room db true (pid_of db h) name v →
  ∃ db', putBackupOperation n req c = Return (protocol.Success req, with_node n db' c)
    ∧ stored lk db db' true (pid_of db h) name h (<[h := v]> (view db true (pid_of db h) name)).
Proof.
  intros name h v Hn Hwf Hlk Httl Hroom.
  destruct (get_dmap_of_spec lk n db c true name h Hn Hwf Hlk) as (a & db1 & Hget & Hg).
  destruct (got_dmap _ _ _ _ _ _ _ Hg) as (d & Hd & Hmu & Hok & Hmap & Hr & _).
  destruct (kv_put_ok (dm_str d) h v Hok (Hr v Hroom)) as (s & Hput & Hsok & Hsmap & Hsone).
  exists (set_dm a (with_str s d) db1).
  unfold putBackupOperation. fold name. fold h.
  step Hget. cbn beta iota.
  at_node (with_node_lookup n db1 c).
  erewrite bind_run; last first.
  { apply (lift_run _ ttl). pose proof (got_same _ _ _ _ _ _ _ Hg) as Hs.
    destruct (protocol.Extra req) as [[t|t|t]|]; simpl in Httl; simplify_eq; [|done].
    by rewrite (same_getTTL db). }
  fold v. rewrite (bind_run _ _ _ _ _ (str_call_run _ _ _ _ _ _ _ _ (with_node_lookup n db1 c) Hd Hput)).
  rewrite with_node_twice. rewrite (bind_run _ _ _ _ _
    (oplog_skipped _ _ _ _ _ _ (with_node_lookup n (set_dm a (with_str s d) db1) c)
       (wf_mode _ _ (got_wf _ _ _ _ _ _ _ Hg)))).
  split; [done|]. rewrite <-Hmap, <-Hsmap. by apply (stored_set_dm lk lk _ db1 _ _ _ _ d).
Qed.

(** What a handler does between [dm.Lock()] and [dm.Unlock()]: the map it leaves, whatever
    it does to the other nodes, is the map of the node afterwards. *)
Lemma locked_section {A} n db (c c' : cluster) a d s (body : M A) (r : A) :
  let locked := set_dm a (with_mu true d) db in
  heap db !! a = Some d → dm_mu d = false →
  body (with_node n locked c) = Return (r, with_node n (set_dm a (with_str s (with_mu true d)) locked) c') →
  (_ ← dm_Lock n a; x ← body; _ ← dm_Unlock n a; mret x) (with_node n db c)
  = Return (r, with_node n (set_dm a (with_mu false (with_str s (with_mu true d))) db) c').
Proof.
  intros locked Hd Hmu Hbody. step (dm_Lock_run _ _ _ _ _ (with_node_lookup n db c) Hd Hmu).
  rewrite with_node_twice. step Hbody. unfold locked. rewrite set_dm_twice.
  step (dm_Unlock_run _ _ _ _ (with_str s (with_mu true d)) (with_node_lookup n _ c')
    (set_dm_lookup _ _ _ _ Hd) eq_refl).
  by rewrite with_node_twice, set_dm_twice.
Qed.

Lemma delete_local_spec n db (c : cluster) bk req :
  let name := protocol.DMap req in
  let h := getHKey name (protocol.Key req) in
  nodes c !! n = Some db → wf_node None db → view_single db bk (pid_of db h) name h →
  ∃ db', delete_local bk n req c = Return (protocol.Success req, with_node n db' c)
    ∧ stored None db db' bk (pid_of db h) name h (delete h (view db bk (pid_of db h) name)).
Proof.
  intros name h Hn Hwf Hsingle.
  destruct (get_dmap_of_spec None n db c bk name h Hn Hwf ltac:(done)) as (a & db1 & Hget & Hg).
  destruct (got_dmap _ _ _ _ _ _ _ Hg) as (d & Hd & Hmu & Hok & Hmap & _ & Hsg).
  destruct (kv_delete_ok (dm_str d) h Hok (Hsg h Hsingle)) as (s & Hdel & Hsok & Hsmap & Hsone).
  exists (set_dm a (with_mu false (with_str s (with_mu true d))) db1).
  unfold delete_local. fold name. fold h. step Hget. cbn beta iota.
  rewrite (bind_run _ _ _ _ _ (dm_Lock_run _ _ _ _ _ (with_node_lookup n db1 c) Hd Hmu)).
  rewrite with_node_twice.
  rewrite (bind_run _ _ _ _ _ (str_call_run _ _ _ _ (with_mu true d) _ s None
    (with_node_lookup n _ c) (set_dm_lookup _ _ _ _ Hd) Hdel)).
  rewrite with_node_twice, set_dm_twice. cbn beta iota.
  rewrite (bind_run _ _ _ _ _ (oplog_skipped _ _ _ _ _ _
    (with_node_lookup n (set_dm a (with_str s (with_mu true d)) db1) c)
    (wf_mode _ _ (got_wf _ _ _ _ _ _ _ Hg)))).
  rewrite (bind_run _ _ _ _ _ (dm_Unlock_run _ _ _ _ (with_str s (with_mu true d))
    (with_node_lookup n _ c) (set_dm_lookup _ _ _ _ Hd) eq_refl)).
  rewrite with_node_twice, set_dm_twice. split; [done|].
  rewrite <-Hmap, <-Hsmap. apply (stored_set_dm None None _ db1 _ _ _ _ d); try done.
  intros h' Hh' _. by apply Hsone.
Qed.

(** A value that every store can take has room in every map. *)
Lemma view_room_small lk db bk i name v :
  wf_node lk db → kv_small v → view_room db bk i name v.
Proof.
  intros Hwf Hv. unfold view_room. destruct (ref db bk i name) as [a|] eqn:Hr.
  - destruct (wf_ref _ _ Hwf _ _ _ _ Hr) as (d & -> & _ & Hok). by apply kv_small_room.
  - intros s Hs. destruct kv_new_ok as (s' & Hs' & Hok & _).
    assert (s' = s) as -> by congruence. by apply kv_small_room.
Qed.

Lemma view_single_absent db bk i name h :
  view db bk i name !! h = None → view_single db bk i name h.
Proof.
  unfold view, view_single. destruct (ref db bk i name) as [a|]; [|done].
  destruct (heap db !! a) as [d|]; [|done]. apply kv_absent_single.
Qed.

(** What a reader gets: the value, unless it has expired. *)
Definition visible (db : Olric) (v : option VData) : option (list byte) :=
  match v with
  | Some v => if isKeyExpired db (vd_TTL v) then None else Some (vd_Value v)
  | None => None
  end.

(** The response that carries what a reader gets. *)
Definition found_response (req : Message) (r : option (list byte)) : Message :=
  match r with
  | Some value => with_value value (protocol.Success req)
  | None => protocol.Error req protocol.StatusKeyNotFound []
  end.

Lemma found_spec db req v :
  found db req match v with
               | Some v => (Some v, None)
               | None => (None, Some ErrKeyNotFound)
               end = Return (found_response req (visible db v)).
Proof. destruct v as [v|]; [|done]. simpl. by destruct (isKeyExpired db (vd_TTL v)). Qed.

Lemma getPrev_spec n db (c : cluster) req :
  let name := protocol.DMap req in
  let h := getHKey name (protocol.Key req) in
  nodes c !! n = Some db → wf_node None db →
  getPrevOperation n req c
  = Return (found_response req (visible db (view db false (pid_of db h) name !! h)), c).
Proof.
  intros name h Hn Hwf. unfold getPrevOperation. fold name. fold h.
  at_node Hn.
  destruct (part_of_ok None db false h Hwf) as (p & Hpart & Hp & Hid & _).
  calc Hpart.
  unfold view, ref. rewrite Hp. destruct (p_m p !! name) as [a|] eqn:Hm; [|done].
  destruct (wf_ref _ _ Hwf false (pid_of db h) name a) as (d & Hd & _ & Hok);
    [unfold ref; by rewrite Hp|].
  rewrite (bind_run _ _ _ _ _ (get_dm_run _ _ _ _ _ Hn Hd)), Hd.
  calc (kv_get_ok _ _ Hok).
  apply lift_run, found_spec.
Qed.

Lemma getBackup_spec n db (c : cluster) req :
  let name := protocol.DMap req in
  let h := getHKey name (protocol.Key req) in
  nodes c !! n = Some db → wf_node None db →
  ∃ db', getBackupOperation n req c
    = Return (found_response req (visible db (view db true (pid_of db h) name !! h)),
              with_node n db' c)
    ∧ wf_node None db' ∧ same_node db db' ∧ keeps_locks db db' ∧ undisturbed db db'.
Proof.
  intros name h Hn Hwf.
  destruct (get_dmap_of_spec None n db c true name h Hn Hwf ltac:(done)) as (a & db1 & Hget & Hg).
  destruct (got_dmap _ _ _ _ _ _ _ Hg) as (d & Hd & _ & Hok & Hmap & _).
  exists db1.
  split; [|split; [apply Hg|split; [apply Hg|split; [apply Hg|by eapply got_undisturbed]]]].
  unfold getBackupOperation. fold name. fold h.
  step Hget. cbn beta iota.
  rewrite (bind_run _ _ _ _ _ (get_dm_run _ _ _ _ _ (with_node_lookup n db1 c) Hd)).
  at_node (with_node_lookup n db1 c).
  calc (kv_get_ok _ _ Hok). rewrite Hmap.
  apply lift_run. rewrite found_spec. do 2 f_equal.
  destruct (view db true (pid_of db h) name !! h); [|done]. simpl.
  by rewrite (same_expired db db1) by apply (got_same _ _ _ _ _ _ _ Hg).
Qed.
End node.
End node.
