(* ===== verification/OlricdSpec.v ===== *)
(** What the standalone server promises about its configuration, and how it can crash. *)

From S2P Require Export Olricd NodeSpec.

Module olricdspec.
Export olricd.

(** ** The configuration *)

(** A setting that is empty keeps the default, another one is a duration. *)
Definition duration_is (s : str) (dflt d : Z) : Prop :=
  (s = [] ∧ d = dflt) ∨ (s ≠ [] ∧ ParseDuration s = inr d).
Definition number_is (z dflt n : Z) : Prop := (z = 0 ∧ n = dflt) ∨ (z ≠ 0 ∧ n = z).

Lemma duration_cases {E : Type} (f : derror → E) s dflt d :
  (if decide (s = []) then inr dflt
   else match ParseDuration s with inl e => inl (f e) | inr d => inr d end) = inr d
  ↔ duration_is s dflt d.
Proof.
  unfold duration_is. case_decide as Hs.
  - split; [intros [= ->]; by left|]. intros [[_ ->]|[? _]]; done.
  - destruct (ParseDuration s); split; intros H; [done|by destruct H as [[? _]|[_ ?]]| |].
    + injection H as ->. by right.
    + destruct H as [[? _]|[_ [= ->]]]; done.
Qed.

Lemma set_duration_spec s dflt d : set_duration s dflt = inr d ↔ duration_is s dflt d.
Proof. apply duration_cases. Qed.

Lemma named_duration_spec what s d : named_duration what s = inr d ↔ duration_is s 0 d.
Proof. apply (duration_cases (fun e => CWithMessage what s (CDuration e))). Qed.

Lemma set_number_spec z dflt n : set_number z dflt = n ↔ number_is z dflt n.
Proof. unfold set_number, number_is. destruct (Z.eqb_spec z 0); split; intuition congruence. Qed.

(** The defaults of memberlist by the name of an environment. *)
Definition environments : list (str * memlist_Config) :=
  [(text "local", DefaultLocalConfig); (text "lan", DefaultLANConfig); (text "wan", DefaultWANConfig)].

Lemma NewMemberlistConfig_spec env mc :
  NewMemberlistConfig env = inr mc ↔ (env, mc) ∈ environments.
Proof.
  unfold NewMemberlistConfig, environments. rewrite !elem_of_cons, elem_of_nil.
  repeat case_decide; subst; split; intros Hin; simplify_eq; auto;
    destruct_or?; simplify_eq; done.
Qed.

(** The configuration of memberlist that the file asks for. *)
Record memlist_ok (m : memberlist) (mc : memlist_Config) : Prop := {
  ml_addr : ∃ port, SplitHostPort (f_Addr m) = inr (BindAddr mc, port) ∧ Atoi port = Some (BindPort mc);
  ml_compression : EnableCompression mc = f_EnableCompression m;
  ml_rest : ∃ d, (f_Environment m, d) ∈ environments
    ∧ duration_is (f_TCPTimeout m) (TCPTimeout d) (TCPTimeout mc)
    ∧ number_is (f_IndirectChecks m) (IndirectChecks d) (IndirectChecks mc)
    ∧ number_is (f_RetransmitMult m) (RetransmitMult d) (RetransmitMult mc)
    ∧ number_is (f_SuspicionMult m) (SuspicionMult d) (SuspicionMult mc)
    ∧ duration_is (f_PushPullInterval m) (PushPullInterval d) (PushPullInterval mc)
    ∧ duration_is (f_ProbeTimeout m) (ProbeTimeout d) (ProbeTimeout mc)
    ∧ duration_is (f_ProbeInterval m) (ProbeInterval d) (ProbeInterval mc)
    ∧ duration_is (f_GossipInterval m) (GossipInterval d) (GossipInterval mc)
    ∧ duration_is (f_GossipToTheDeadTime m) (GossipToTheDeadTime d) (GossipToTheDeadTime mc)
}.

(** A bind of the error monad. *)
Lemma bind_inr {E A B} (m : E + A) (k : A → E + B) y :
  sum_bind E A B k m = inr y ↔ ∃ x, m = inr x ∧ k x = inr y.
Proof.
  destruct m as [e|x]; simpl; split.
  - done.
  - by intros (? & ? & _).
  - intros H. by exists x.
  - by intros (? & [= ->] & ?).
Qed.

Lemma newMemberlistConf_spec c mc : newMemberlistConf c = inr mc ↔ memlist_ok (Memberlist c) mc.
Proof.
  unfold newMemberlistConf. cbv beta zeta. split.
  - intros ([host port] & Ha & H)%bind_inr. apply bind_inr in H as (p & Hp & H).
    apply bind_inr in H as (d & Hd & H). apply bind_inr in H as (tcp & Htcp & H).
    apply bind_inr in H as (pp & Hpp & H). apply bind_inr in H as (pt & Hpt & H).
    apply bind_inr in H as (pi & Hpi & H). apply bind_inr in H as (gi & Hgi & H).
    apply bind_inr in H as (gd & Hgd & H). injection H as <-.
    rewrite set_duration_spec in Htcp, Hpp, Hpt, Hpi, Hgi, Hgd. apply NewMemberlistConfig_spec in Hd.
    split; simpl in *; [|done|].
    + exists port. destruct (SplitHostPort _); simplify_eq. destruct (Atoi port); by simplify_eq.
    + exists d. split; [done|]. by rewrite <-!set_number_spec.
  - intros [(port & Ha & Hp) Hc (d & Hd & H1 & H2 & H3 & H4 & H5 & H6 & H7 & H8 & H9)].
    rewrite <-set_duration_spec in H1, H5, H6, H7, H8, H9. rewrite <-set_number_spec in H2, H3, H4.
    apply NewMemberlistConfig_spec in Hd. rewrite Ha. simpl. rewrite Hp. simpl. rewrite Hd. simpl.
    rewrite H1. simpl. rewrite H5. simpl. rewrite H6. simpl. rewrite H7. simpl. rewrite H8. simpl.
    rewrite H9. simpl. rewrite H2, H3, H4, <-Hc. by destruct mc.
Qed.

(** What the file says about the node, whatever the operation mode. *)
Record node_ok (c : Config) (s : Olricd) : Prop := {
  no_serializer : serializer_named (f_Serializer (Olricd_ c)) = Some (c_Serializer (s_config s));
  no_memlist : memlist_ok (Memberlist c) (c_MemberlistConfig (s_config s));
  no_keepalive : duration_is (f_KeepAlivePeriod (Olricd_ c)) 0 (c_KeepAlivePeriod (s_config s));
  no_name : c_Name (s_config s) = f_Name (Olricd_ c);
  no_files : c_KeyFile (s_config s) = f_KeyFile (Olricd_ c) ∧ c_CertFile (s_config s) = f_CertFile (Olricd_ c);
  no_peers : c_Peers (s_config s) = f_Peers (Memberlist c);
  no_level : c_LogLevel (s_config s)
    = if decide (f_Level (Logging c) = []) then DefaultLogLevel else f_Level (Logging c);
  no_output : s_stdout s = bool_decide (f_Output (Logging c) = text "stdout");
  no_node : c_node (s_config s)
    = mkConfig (f_PartitionCount (Olricd_ c)) (f_BackupCount (Olricd_ c)) (f_BackupMode (Olricd_ c))
        (if f_Enabled (Snapshot_ c) then OpInMemoryWithSnapshot else OpInMemory)
        (f_MaxValueSize (Olricd_ c)) (f_LoadFactor (Olricd_ c))
}.

(** What it says about snapshots. *)
Record snapshot_ok (c : snapshot_section) (access : option Z) (s : node_config) : Prop := {
  sn_off : f_Enabled c = false →
    c_SnapshotInterval s = 0 ∧ c_GCInterval s = 0 ∧ c_GCDiscardRatio s = no_ratio ∧ c_Badger s = None;
  sn_on : f_Enabled c = true →
    access = None ∧ duration_is (f_Interval c) 0 (c_SnapshotInterval s)
    ∧ duration_is (f_GCInterval c) 0 (c_GCInterval s)
    ∧ c_GCDiscardRatio s = f_GCDiscardRatio c ∧ c_Badger s = Some (f_Dir c)
}.

Lemma with_snapshot_spec sec access c s :
  with_snapshot sec access c = inr s ↔
  if f_Enabled sec then
    access = None ∧ ∃ gc interval,
      duration_is (f_GCInterval sec) 0 gc ∧ duration_is (f_Interval sec) 0 interval
      ∧ s = mkNodeConfig (c_Name c)
              (mkConfig (PartitionCount (c_node c)) (BackupCount (c_node c)) (BackupMode (c_node c))
                 OpInMemoryWithSnapshot (MaxValueSize (c_node c)) (LoadFactor (c_node c)))
              (c_MemberlistConfig c) (c_KeyFile c) (c_CertFile c) (c_LogLevel c) (c_Peers c)
              (c_Serializer c) (c_KeepAlivePeriod c) interval gc (f_GCDiscardRatio sec) (Some (f_Dir sec))
  else s = c.
Proof.
  unfold with_snapshot. destruct (f_Enabled sec); [|split; [by intros [= ->]|by intros ->]]. split.
  - intros ([] & Ha & H)%bind_inr. apply bind_inr in H as (gc & Hgc & H).
    apply bind_inr in H as (iv & Hiv & H). injection H as <-. rewrite named_duration_spec in Hgc, Hiv.
    destruct access; [done|]. split; [done|]. by exists gc, iv.
  - intros (-> & gc & iv & Hgc & Hiv & ->). rewrite <-named_duration_spec in Hgc, Hiv.
    simpl. rewrite Hgc. simpl. by rewrite Hiv.
Qed.

Lemma olricd_New_spec c access s :
  New c access = inr s ↔ node_ok c s ∧ snapshot_ok (Snapshot_ c) access (s_config s).
Proof.
  unfold New. cbv beta zeta. split.
  - intros (ser & Hser & H)%bind_inr. apply bind_inr in H as (mc & Hmc & H).
    apply bind_inr in H as (ka & Hka & H). apply bind_inr in H as (nc & Hnc & H). injection H as <-.
    apply newMemberlistConf_spec in Hmc. rewrite named_duration_spec in Hka.
    apply with_snapshot_spec in Hnc.
    destruct (serializer_named _) as [ser'|] eqn:Hs; simplify_eq. simpl s_config.
    destruct (f_Enabled (Snapshot_ c)) eqn:He.
    + destruct Hnc as (-> & gc & iv & Hgc & Hiv & ->). split; split; simpl; rewrite ?He; done.
    + subst nc. split; split; simpl; rewrite ?He; done.
  - intros [[Hs Hm Hk Hn [Hkf Hcf] Hp Hl Ho Hnode] [Hoff Hon]]. rewrite Hs. simpl.
    apply newMemberlistConf_spec in Hm. rewrite Hm. simpl. apply (named_duration_spec (text "olricd.keepAlivePeriod")) in Hk.
    rewrite Hk. simpl. apply bind_inr. exists (s_config s). split; last first.
    { rewrite <-Ho. by destruct s. }
    apply with_snapshot_spec. destruct s as [so sc]. destruct sc. simpl in *. subst.
    destruct (f_Enabled (Snapshot_ c)); simpl.
    + destruct Hon as (-> & Hiv & Hgc & -> & ->); [done|]. split; [done|]. eauto 10.
    + by destruct Hoff as (-> & -> & -> & ->).
Qed.

(** C37: the server is configured exactly as its file says: [New] answers a server if and
    only if the file names one of the three serializers, the address has a host and a port,
    the environment is known, every duration that is set can be parsed and, with snapshots,
    the directory is writable.  Every setting of the file is then in the configuration of the
    node and of memberlist; an empty setting of memberlist has the default of the environment,
    an empty log level is DEBUG, and the numbers of the node that are 0 stay 0.  A file that
    names no serializer is refused. *)
Theorem olricd_New_correct c access :
  (∀ s, New c access = inr s ↔ node_ok c s ∧ snapshot_ok (Snapshot_ c) access (s_config s))
  ∧ (f_Serializer (Olricd_ c) = [] → New c access = inl (CSerializer [])).
Proof.
  split; [intros s; apply olricd_New_spec|]. intros Hs. unfold New. by rewrite Hs.
Qed.

(** ** The node *)
Lemma New_partitions_range bk cnt i : is_Some (New_partitions bk cnt !! i) ↔ 0 ≤ i < cnt.
Proof.
  split.
  - intros [p Hp]. unfold New_partitions in Hp. apply elem_of_list_to_map_2 in Hp.
    apply list_elem_of_fmap in Hp as (k & [= -> _] & Hk%elem_of_seq). lia.
  - intros Hi. rewrite node.New_partitions_lookup by done. by eexists.
Qed.

(** The node that the server creates has the partitions the file asks for, 271 if it
    asks for none, for the primary copies and for the backups, the number and the mode of
    backups of the file, and snapshots if the file enables them. *)
Theorem olricd_builds_node {S N : Type} `{!KV S} `{!Snap S N} `{!Env} c access s (none snap : N) :
  New c access = inr s →
  let n := if f_PartitionCount (Olricd_ c) =? 0 then 271 else f_PartitionCount (Olricd_ c) in
  ∃ db : olric.Olric S N,
    olric.New (c_node (s_config s)) none (inr snap) = inr db
    ∧ (∀ bk i, is_Some (table_of bk db !! i) ↔ 0 ≤ i < n)
    ∧ PartitionCount (config db) = n ∧ BackupCount (config db) = f_BackupCount (Olricd_ c)
    ∧ BackupMode (config db) = f_BackupMode (Olricd_ c)
    ∧ MaxValueSize (config db) = (if f_MaxValueSize (Olricd_ c) =? 0 then 2 ^ 20 else f_MaxValueSize (Olricd_ c))
    ∧ snapshot db = (if f_Enabled (Snapshot_ c) then snap else none).
Proof.
  intros Hs n. assert (node_ok c s) as Hok by by apply olricd_New_spec in Hs as [? _].
  unfold olric.New. rewrite (no_node _ _ Hok). unfold defaults. simpl.
  destruct (f_Enabled (Snapshot_ c)); simpl; eexists; (split; [done|]); (split; [|done]);
    intros [] i; apply New_partitions_range.
Qed.

(** ** The file that is read *)

(** The environment variable [OLRICD_CONFIG] has no effect unless the command line
    gives an empty path: without a flag the default file is read. *)
Theorem main_ignores_environment {E} (decode : str → E + Config) access args env :
  (∀ sets, parse_flags olricd_flags args = inr sets →
     string_var [text "c"; text "config"] DefaultConfigFile sets ≠ []) →
  main decode access args env = main decode access args [].
Proof.
  intros Hp. unfold main. destruct (parse_flags _ _) as [|sets]; [done|].
  specialize (Hp sets eq_refl). unfold NewConfig, config_path. by repeat case_decide.
Qed.

(** ** The process *)
Lemma crashed_without_db p : rtc proc_step proc_initial p → p_crashed p = true → p_db p = false.
Proof.
  revert p. apply (rtc_ind_r (fun p => p_crashed p = true → p_db p = false)); [done|].
  intros p1 p2 _ Hs Hc. by destruct Hs.
Qed.

(** A signal that arrives before the node has been created crashes the process, and
    nothing else does: the node that [waitForInterrupt] shuts down is nil until then. *)
Theorem early_signal_crashes :
  (∃ p, rtc proc_step proc_initial p ∧ p_crashed p = true)
  ∧ ∀ p, rtc proc_step proc_initial p → p_crashed p = true → p_db p = false ∧ p_sig p = WReturned.
Proof.
  split.
  - eexists. split.
    + eapply rtc_l; [by apply o_signal|]. eapply rtc_l; [by apply o_spawn|].
      eapply rtc_l; [by apply o_down_crash|]. apply rtc_refl.
    + done.
  - intros p Hr Hc. split; [by apply crashed_without_db|].
    assert ((p_down p ≠ GNone → p_sig p = WReturned) ∧ (p_crashed p = true → p_down p ≠ GNone)) as [H1 H2];
      [|by apply H1, H2].
    clear Hc. revert p Hr. apply rtc_ind_r; [done|]. intros p1 p2 _ Hs [H1 H2].
    destruct Hs; simpl in *; split; intros; auto; try done; try (by specialize (H1 ltac:(done))).
    all: by destruct d.
Qed.

(** ** Examples *)

(** The file of the repository, without snapshots. *)
Definition ex_file : Config :=
  mkFile
    (mkMemberlist (text "local") (text "0.0.0.0:3322") false [text "localhost:3325"] 0 0 0 [] [] [] [] []
       (text "10s"))
    (mkLogging (text "DEBUG") (text "stderr"))
    (mkOlricd (text "0.0.0.0:3320") [] [] 0 19 0 no_ratio (text "msgpack") (text "300s") 1048576)
    (mkSnapshotSection false [] [] [] no_ratio).

Definition ex_server : Olricd :=
  mkOlricdServer false
    (mkNodeConfig (text "0.0.0.0:3320") (mkConfig 19 0 0 OpInMemory 1048576 no_ratio)
       (mkMemlist (text "0.0.0.0") 3322 false second 1 2 3 (15 * second) (200 * millisecond) second
          (100 * millisecond) (10 * second))
       [] [] (text "DEBUG") [text "localhost:3325"] msgpackSerializer (300 * second) 0 0 no_ratio None).

Example ex_New : New ex_file None = inr ex_server.
Proof. vm_compute. reflexivity. Qed.

Lemma main_ignores_environment_witness :
  main (E := unit) (fun path => if decide (path = DefaultConfigFile) then inr ex_file else inl tt)
    (fun _ => None) [] (text "/etc/olricd.toml") = AStart ex_server.
Proof.
  rewrite (main_ignores_environment _ _ [] (text "/etc/olricd.toml")).
  - vm_compute. reflexivity.
  - intros sets Hs. injection Hs as <-. discriminate.
Defined.

Lemma olricd_New_witness :
  node_ok ex_file ex_server ∧ snapshot_ok (Snapshot_ ex_file) None (s_config ex_server).
Proof. exact (proj1 (proj1 (olricd_New_correct ex_file None) ex_server) ex_New). Defined.
End olricdspec.
