(* ===== verification/SetupSpec.v ===== *)
(** What [olric.New] makes of a configuration ([Setup.v]): which configurations it accepts,
    the defaults, the node, and what a second call with the same configuration does.  The filter
    of log levels. *)

From S2P Require Export Setup NodeSpec.
From S2P Require Import OlricdSpec.

Module setupspec.
Export node setup.

(** ** The filter of levels *)

Lemma bad_levels_prefix levels min l :
  l ∈ bad_levels levels min ↔ ∃ k, levels !! k = Some l ∧ ∀ j, (j ≤ k)%nat → levels !! j ≠ Some min.
Proof.
  induction levels as [|x levels IH]; simpl.
  - split; [by intros ?%elem_of_nil|]. by intros (k & ? & _).
  - case_decide as Hx; [subst x|].
    + split; [by intros ?%elem_of_nil|]. intros (k & _ & H). by destruct (H 0%nat ltac:(lia)).
    + rewrite elem_of_cons, IH. split.
      * intros [->|(k & Hk & H)].
        -- exists 0%nat. split; [done|]. intros j Hj. assert (j = 0%nat) as -> by lia. simpl. congruence.
        -- exists (Datatypes.S k). split; [done|]. intros [|j] Hj; [simpl; congruence|]. apply H. lia.
      * intros ([|k] & Hk & H); [left; simpl in Hk; congruence|]. right. exists k. split; [done|].
        intros j Hj. apply (H (Datatypes.S j)). lia.
Qed.

(** The levels of the node are not in the order of severity that [logutils] asks for: a node
    that logs from [INFO] on hides its warnings and its errors. *)
Theorem info_hides_errors c dest line :
  u_Logger c = None → u_LogLevel c = text "INFO" → u_LogOutput c = Some dest →
  ∃ f, u_Logger (with_logger c) = Some (FilteredLogger f) ∧ FWriter f = dest
    ∧ (level_of line = text "ERROR" ∨ level_of line = text "WARN" → (Write f line).1 = None)
    ∧ (level_of line = text "INFO" → (Write f line).1 = Some (dest, line)).
Proof.
  intros Hl Hv Ho. unfold with_logger. rewrite Hl, Hv, Ho. eexists. split; [done|].
  split; [done|]. unfold Write, Check. simpl.
  split; [intros [->| ->]|intros ->]; vm_compute; reflexivity.
Qed.

(** ** The node *)
Section setupspec.
Context {S N : Type} `{!KV S} `{!KVLaws S} `{!Snap S N} `{!Env}.
Variable no_snapshot : N.

(** What [New] needs: one way to log, a name, and a database if there are snapshots. *)
Record accepts (sys : system N) (held : gset str) (c : Config) : Prop := {
  ac_log : u_LogOutput c = None ∨ u_Logger c = None;
  ac_name : u_Name c = [] → ∃ host, hostname sys = inr host;
  ac_snap : OperationMode (u_node c) = OpInMemoryWithSnapshot →
    ∃ snap, open_database sys held c = inr snap
}.

(** The configuration that [New] leaves: what was set is as it was, what was not has its
    default. *)
Record completed (sys : system N) (c c' : Config) : Prop := {
  co_name : u_Name c' = u_Name c ∧ u_Name c ≠ []
    ∨ u_Name c = [] ∧ ∃ host, hostname sys = inr host ∧ u_Name c' = host ++ text ":0";
  co_hasher : u_Hasher c' = Some (default xxhasher (u_Hasher c));
  co_serializer : u_Serializer c' = Some (default gobSerializer (u_Serializer c));
  co_memberlist : u_MemberlistConfig c' = Some (default DefaultLocalConfig (u_MemberlistConfig c));
  co_partitions : PartitionCount (u_node c')
    = if PartitionCount (u_node c) =? 0 then 271 else PartitionCount (u_node c);
  co_backups : BackupCount (u_node c') = BackupCount (u_node c) ∧ BackupMode (u_node c') = BackupMode (u_node c);
  co_mode : OperationMode (u_node c') = OperationMode (u_node c);
  co_logger : (∃ l, u_Logger c = Some l ∧ u_Logger c' = Some l)
    ∨ u_Logger c = None ∧ ∃ f, u_Logger c' = Some (FilteredLogger f)
        ∧ FWriter f = default os_Stderr (u_LogOutput c) ∧ MinLevel f = u_LogLevel c'
        ∧ u_LogLevel c' = (if decide (u_LogLevel c = []) then text "DEBUG" else u_LogLevel c);
  co_output : u_LogOutput c' = u_LogOutput c;
  co_peers : u_Peers c' = u_Peers c;
  co_tls : u_CertFile c' = u_CertFile c ∧ u_KeyFile c' = u_KeyFile c
}.

(** The node made from a complete configuration. *)
Record built (a : nat) (c : Config) (limit : Z) (n : node S N) : Prop := {
  bu_config : n_config n = a;
  bu_parts : u_Logger c = Some (n_log n) ∧ u_Hasher c = Some (n_hasher n) ∧ u_Serializer c = Some (n_serializer n);
  bu_server : n_server_addr n = u_Name c ∧ n_server_keepalive n = u_KeepAlivePeriod c;
  bu_tables bk i : is_Some (table_of bk (n_db n) !! i) ↔ 0 ≤ i < PartitionCount (u_node c);
  bu_limit : config (n_db n) = with_limit limit (u_node c);
  bu_wf : OperationMode (u_node c) = OpInMemory → wf_node None (n_db n);
  bu_pending : bcx (n_db n) = BootPending ∧ members (n_db n) = []
}.

(** The configuration that [New] completes, by the name of the node. *)
Definition complete (name : str) (c : Config) : Config :=
  let c := with_codecs (with_logger c) in
  set_node name (with_counts (u_node c)) (default DefaultLocalConfig (u_MemberlistConfig c)) c.
Definition next_limit (c : Config) (old : Z) : Z :=
  if MaxValueSize (u_node c) =? 0 then old else MaxValueSize (u_node c).

Lemma with_logger_frame c :
  let c' := with_logger c in
  u_Name c' = u_Name c ∧ u_node c' = u_node c ∧ u_Hasher c' = u_Hasher c ∧ u_Serializer c' = u_Serializer c
  ∧ u_MemberlistConfig c' = u_MemberlistConfig c ∧ u_LogOutput c' = u_LogOutput c ∧ u_Peers c' = u_Peers c
  ∧ (u_CertFile c' = u_CertFile c ∧ u_KeyFile c' = u_KeyFile c) ∧ u_KeepAlivePeriod c' = u_KeepAlivePeriod c
  ∧ (u_BadgerOptions c' = u_BadgerOptions c ∧ u_SnapshotInterval c' = u_SnapshotInterval c
     ∧ u_GCInterval c' = u_GCInterval c ∧ u_GCDiscardRatio c' = u_GCDiscardRatio c)
  ∧ is_Some (u_Logger c').
Proof. unfold with_logger. destruct (u_Logger c) eqn:Hl; simpl; rewrite ?Hl; by eauto 20. Qed.

Lemma complete_ok (sys : system N) c name : node_name sys c = inr name → completed sys c (complete name c).
Proof.
  intros Hn. destruct (with_logger_frame c) as (H1 & H2 & H3 & H4 & H5 & H6 & H7 & H8 & _).
  unfold complete, with_codecs. split; simpl; rewrite ?H2, ?H3, ?H4, ?H5, ?H6, ?H7; try done.
  - unfold node_name in Hn. case_decide; [right|left; by simplify_eq].
    split; [done|]. destruct (hostname sys) as [|host]; simplify_eq. by exists host.
  - unfold with_logger. destruct (u_Logger c) as [l|] eqn:Hl; [left; by exists l|right].
    split; [done|]. eexists. split; [done|]. by repeat split.
Qed.

Lemma named (sys : system N) c name : node_name sys c = inr name → name ≠ [].
Proof.
  unfold node_name. case_decide; [|congruence]. destruct (hostname sys) as [|host]; [done|].
  intros [= <-]. by destruct host.
Qed.

(** A complete configuration stays as it is. *)
Lemma complete_idem name c : name ≠ [] → complete name (complete name c) = complete name c.
Proof.
  intros Hn. destruct (with_logger_frame c) as (_ & _ & _ & _ & _ & _ & _ & _ & _ & _ & [l Hl]).
  assert (with_logger (complete name c) = complete name c) as E.
  { unfold with_logger at 1. unfold complete, with_codecs. cbn [u_Logger set_node set_codecs].
    by rewrite Hl. }
  unfold complete at 1. rewrite E. unfold complete, with_codecs, set_node, set_codecs, with_counts. simpl.
  destruct (PartitionCount (u_node (with_logger c)) =? 0) eqn:Hp,
    (consistent.f_sig (LoadFactor (u_node (with_logger c))) =? 0) eqn:Hf; simpl; by rewrite ?Hp, ?Hf.
Qed.

Lemma New_snapshot cfg opened (db : Olric S N) :
  olric.New cfg no_snapshot opened = inr db →
  config db = defaults cfg ∧ bcx db = BootPending ∧ members db = []
  ∧ (∀ bk i, is_Some (table_of bk db !! i) ↔ 0 ≤ i < PartitionCount (defaults cfg)).
Proof.
  unfold olric.New. case_match; [case_match; [done|]|]; intros [= <-];
    (split; [done|]); (split; [done|]); (split; [done|]); intros [] i; apply olricdspec.New_partitions_range.
Qed.

Lemma defaults_with_counts z n :
  z ≠ 0 → defaults (with_limit z (with_counts n)) = with_limit z (with_counts n).
Proof.
  intros Hz. unfold defaults, with_limit, with_counts. simpl.
  apply Z.eqb_neq in Hz. rewrite Hz.
  destruct (PartitionCount n =? 0) eqn:Hp, (consistent.f_sig (LoadFactor n) =? 0) eqn:Hf; simpl; by rewrite ?Hp, ?Hf.
Qed.

(** Nothing about the database is completed. *)
Lemma snapshot_dir_complete (sys : system N) name c : snapshot_dir sys (complete name c) = snapshot_dir sys c.
Proof.
  destruct (with_logger_frame c) as (_ & _ & _ & _ & _ & _ & _ & _ & _ & (E1 & _) & _).
  unfold snapshot_dir, complete. simpl. by rewrite E1.
Qed.
Lemma open_complete (sys : system N) held name c :
  open_database sys held (complete name c) = open_database sys held c.
Proof.
  destruct (with_logger_frame c) as (_ & _ & _ & _ & _ & _ & _ & _ & _ & (_ & E2 & E3 & E4) & _).
  unfold open_database. rewrite snapshot_dir_complete. unfold complete. simpl. by rewrite E2, E3, E4.
Qed.
Lemma lock_complete (sys : system N) held name c :
  lock_dir sys held (complete name c) = lock_dir sys held c.
Proof.
  destruct (with_logger_frame c) as (_ & H2 & _). unfold lock_dir. rewrite snapshot_dir_complete.
  unfold complete. simpl. by rewrite H2.
Qed.

(** The end of [New] on a completed configuration. *)
Definition made (sys : system N) (held : gset str) (lim : Z) (a : nat) (name : str) (c : Config)
    : comp (nerror + node S N) :=
  let c' := complete name c in
  make_node no_snapshot sys held lim a c' (default (CustomLogger 0) (u_Logger c'))
    (default xxhasher (u_Hasher c')) (default gobSerializer (u_Serializer c')).

(** One call of [New] on a stored configuration. *)
Lemma New_run (sys : system N) a p c :
  configs p !! a = Some c →
  New (S := S) no_snapshot sys (Some a) p =
    (if bool_decide (is_Some (u_LogOutput c)) && bool_decide (is_Some (u_Logger c))
     then Return (inl (NText both_loggers), p)
     else match node_name sys c with
          | inl errno => Return (inl (NHostname errno), store a (with_codecs (with_logger c)) p)
          | inr name =>
              let lim := next_limit c (limit p) in
              r ← made sys (locked p) lim a name c;
              Return (r, mkProcess (<[a := complete name c]> (configs p)) lim
                           match r with inl _ => locked p | inr _ => lock_dir sys (locked p) c end)
          end).
Proof.
  intros Hc. unfold New, config_at. rewrite Hc. simpl. case_match; [done|].
  destruct (with_logger_frame c) as (H1 & H2 & _ & _ & _ & _ & _ & _ & _ & _ & [l Hl]).
  assert (node_name sys (with_codecs (with_logger c)) = node_name sys c) as ->.
  { unfold node_name. cbn [u_Name with_codecs set_codecs]. by rewrite H1. }
  destruct (node_name sys c) as [errno|name]; [done|]. rewrite <-(lock_complete sys (locked p) name c).
  unfold made, next_limit, complete. simpl. by rewrite Hl, H2.
Qed.

(** When the node is made, and what it is. *)
Lemma make_node_ok (sys : system N) held lim a name c (n : node S N) :
  lim ≠ 0 → 0 ≤ PartitionCount (u_node c) →
  made sys held lim a name c = Return (inr n) → built a (complete name c) lim n.
Proof.
  intros Hlim Hpc. unfold made, make_node. set (c' := complete name c). simpl.
  destruct (olric.New _ _ _) as [|db] eqn:Hdb; [done|]. intros [= <-].
  pose proof (New_snapshot _ _ _ Hdb) as (Hcfg & Hb & Hm & Ht).
  destruct (with_logger_frame c) as (H1 & H2 & _ & _ & _ & _ & _ & _ & Hk & _ & [l Hl]).
  assert (u_node c' = with_counts (u_node c)) as Hu by (unfold c', complete; simpl; by rewrite H2).
  assert (config db = with_limit lim (u_node c')) as Hcfg'.
  { rewrite Hcfg, Hu, H2. by apply defaults_with_counts. }
  split; simpl; try done.
  - unfold c', complete. simpl. by rewrite Hl.
  - intros bk i. rewrite Ht, <-Hcfg, Hcfg'. done.
  - intros Hmode. destruct (New_wf (with_limit lim (u_node c')) no_snapshot
      (open_database sys held c'))
      as (db' & E & Hwf & _); [rewrite Hu; simpl; case_match; unfold DefaultPartitionCount; lia|done|].
    change (u_node c') with (with_counts (u_node (with_logger c))) in E. rewrite Hdb in E. by simplify_eq.
Qed.

(** The node is made unless the database cannot be opened. *)
Lemma make_node_accepts (sys : system N) held lim a name c :
  (∃ n : node S N, made sys held lim a name c = Return (inr n)) ↔
  (OperationMode (u_node c) = OpInMemoryWithSnapshot →
    ∃ snap, open_database sys held c = inr snap).
Proof.
  destruct (with_logger_frame c) as (_ & H2 & _).
  unfold made, make_node, olric.New. rewrite open_complete. unfold complete. simpl. rewrite H2.
  destruct (OperationMode (u_node c) =? _) eqn:Ho.
  - apply Z.eqb_eq in Ho. rewrite Ho. destruct (open_database _ _ _) as [e|snap].
    + split; [intros [? ?]; done|intros H'; by destruct (H' eq_refl)].
    + split; [by exists snap|by eexists].
  - apply Z.eqb_neq in Ho. split; [done|by eexists].
Qed.

(** Made again, with the lock that the first node holds. *)
Lemma made_again (sys : system N) held lim a name c (n : node S N) :
  name ≠ [] → made sys held lim a name c = Return (inr n) →
  made sys (lock_dir sys held c) lim a name (complete name c) =
    Return (if OperationMode (u_node c) =? OpInMemoryWithSnapshot
            then inl (NSnapshot (snapshot.BadgerErr lock_taken)) else inr n).
Proof.
  intros Hne Hmk. unfold made in *. rewrite complete_idem by done. unfold make_node in *.
  rewrite open_complete in *. simpl in *.
  destruct (with_logger_frame c) as (_ & H2 & _). unfold olric.New in *. simpl in *.
  rewrite H2 in *. destruct (OperationMode (u_node c) =? _) eqn:Ho; [|done].
  unfold open_database in *. destruct (snapshot_dir sys c) as [e|dir] eqn:Hdir; [done|].
  assert (lock_dir sys held c = {[dir]} ∪ held) as -> by (unfold lock_dir; by rewrite Ho, Hdir).
  by rewrite decide_True by set_solver.
Qed.

Lemma one_log c :
  bool_decide (is_Some (u_LogOutput c)) && bool_decide (is_Some (u_Logger c)) = false ↔
  u_LogOutput c = None ∨ u_Logger c = None.
Proof.
  rewrite andb_false_iff, !bool_decide_eq_false, !eq_None_not_Some. done.
Qed.

Lemma node_name_accepts (sys : system N) c :
  (∃ name, node_name sys c = inr name) ↔ (u_Name c = [] → ∃ host, hostname sys = inr host).
Proof.
  unfold node_name. case_decide as Hn.
  - destruct (hostname sys) as [e|host]; [|by split; eauto].
    split; [by intros [? ?]|]. intros H'. by destruct (H' Hn).
  - split; [done|by eexists].
Qed.

Lemma New_accepts (sys : system N) a p c :
  configs p !! a = Some c →
  (∃ (n : node S N) p', New no_snapshot sys (Some a) p = Return (inr n, p')) ↔ accepts sys (locked p) c.
Proof.
  intros Hc. rewrite (New_run sys a p c Hc). split.
  - intros (n & p' & Hrun). case_match eqn:Hlog; [done|]. apply one_log in Hlog.
    destruct (node_name sys c) as [|name] eqn:Hn; [done|]. cbv zeta in Hrun.
    destruct (made _ _ _ _ _ _) as [[e|n']| |] eqn:Hmk; simpl in Hrun; try done.
    split; [done|apply node_name_accepts; by eexists|]. by eapply make_node_accepts; exists n'; exact Hmk.
  - intros [Hlog Hname Hsnap]. apply one_log in Hlog. rewrite Hlog.
    apply node_name_accepts in Hname as [name ->].
    eapply (make_node_accepts sys (locked p) (next_limit c (limit p)) a name c) in Hsnap as [n Hn]. cbv zeta.
    rewrite Hn. by do 2 eexists.
Qed.

(** The second call. *)
Lemma New_again (sys : system N) a p name c (n : node S N) :
  let c' := complete name c in
  let lim := next_limit c (limit p) in
  let p' := mkProcess (<[a := c']> (configs p)) lim (lock_dir sys (locked p) c) in
  name ≠ [] → made sys (locked p) lim a name c = Return (inr n) →
  New no_snapshot sys (Some a) p' =
    match u_LogOutput c with
    | None => if OperationMode (u_node c) =? OpInMemoryWithSnapshot
              then Return (inl (NSnapshot (snapshot.BadgerErr lock_taken)), p') else Return (inr n, p')
    | Some _ => Return (inl (NText both_loggers), p')
    end.
Proof.
  intros c' lim p' Hne Hmk. rewrite (New_run sys a p' c') by (simpl; by rewrite lookup_insert_eq).
  destruct (with_logger_frame c) as (_ & H2 & _ & _ & _ & H6 & _ & _ & _ & _ & [l Hl]).
  assert (u_LogOutput c' = u_LogOutput c) as -> by done || (unfold c', complete; simpl; by rewrite H6).
  assert (u_Logger c' = Some l) as Hl' by done. rewrite Hl'.
  destruct (u_LogOutput c); [done|]. cbv zeta. change (bool_decide (is_Some None) && _) with false. cbn iota.
  assert (node_name sys c' = inr name) as ->.
  { unfold node_name. assert (u_Name c' = name) as -> by done. by case_decide. }
  assert (complete name c' = c') as Hidem by by apply complete_idem.
  assert (next_limit c' (limit p') = lim) as ->.
  { unfold p', lim, next_limit, c', complete. simpl. rewrite H2. by destruct (_ =? 0). }
  pose proof (made_again sys (locked p) lim a name c n Hne Hmk) as Hm. fold c' in Hm.
  cbv zeta. change (locked p') with (lock_dir sys (locked p) c). rewrite Hm, Hidem.
  destruct (OperationMode (u_node c) =? _) eqn:Ho; unfold p'; simpl; rewrite insert_insert_eq; [done|].
  unfold c'. rewrite lock_complete. unfold lock_dir. by rewrite Ho.
Qed.

End setupspec.
End setupspec.
