(* ===== verification/SerializersSpec.v ===== *)
(** What the serializers keep of a value: msgpack its value but not always its type, gob both
    where the type is registered. *)

From S2P Require Export Serializers.

Module serspec.
Export serializers.

Section serspec.
Context {O : Type} (encode_other : O → serror + list byte) (decode_other : Z → list byte → serror + O).
Abbreviation value := (value O).

(** ** msgpack *)

(** The values of Go types that are not composite. *)
Definition in_kind (k : kind) (z : Z) : Prop :=
  if is_signed k then - 2 ^ (width k - 1) ≤ z < 2 ^ (width k - 1) else 0 ≤ z < 2 ^ width k.
Definition scalar (v : value) : Prop :=
  match v with
  | VNil | VBool _ => True
  | VNumber k z => in_kind k z
  | VFloat32 bits => 0 ≤ bits < 2 ^ 32
  | VFloat64 bits => 0 ≤ bits < 2 ^ 64
  | VString s | VBytes (Some s) => len s < 2 ^ 32
  | VBytes None => True
  | VOther _ => False
  end.

(** What is read back: the types [int] and [uint] have become [int64] and [uint64], and a nil
    slice nil. *)
Definition widened (v : value) : value :=
  match v with
  | VNumber Int z => VNumber Int64 z
  | VNumber Uint z => VNumber Uint64 z
  | VBytes None => VNil
  | v => v
  end.

Lemma signed_unsigned k z :
  is_signed k = true → in_kind k z → to_signed (width k) (to_unsigned (width k) z) = z.
Proof.
  unfold in_kind, to_signed, to_unsigned. intros -> Hz.
  assert (2 ^ width k = 2 * 2 ^ (width k - 1)) as E by (destruct k; reflexivity).
  assert (0 < 2 ^ (width k - 1)) by (destruct k; reflexivity). rewrite E.
  destruct (decide (0 ≤ z)).
  - rewrite (Z.mod_small z) by lia. repeat case_match; rewrite ?Z.mod_small in * by lia; lia.
  - rewrite <-(Z.mod_unique z (2 * 2 ^ (width k - 1)) (-1) (z + 2 * 2 ^ (width k - 1))) by lia.
    repeat case_match; rewrite ?Z.mod_small in * by lia; lia.
Qed.

Lemma readN_app n b rest : length b = n → readN n (b ++ rest) = inr (b, rest).
Proof.
  intros <-. unfold readN. rewrite length_app.
  destruct (_ <=? _)%nat eqn:H; [|apply Nat.leb_gt in H; lia].
  by rewrite take_app_length, drop_app_length.
Qed.

Lemma readN_encode n z rest : readN n (be_encode n z ++ rest) = inr (be_encode n z, rest).
Proof. apply readN_app, length_be_encode. Qed.

Lemma readN_all n z : readN n (be_encode n z) = inr (be_encode n z, []).
Proof. rewrite <-(app_nil_r (be_encode n z)) at 1. apply readN_encode. Qed.

Lemma decode_small n z : 0 ≤ z < 256 ^ Z.of_nat n → be_decode (be_encode n z) = z.
Proof. intros H. rewrite be_decode_encode. by apply Z.mod_small. Qed.

(** A number after its code. *)
Lemma read_number_encode n k z :
  width k = 8 * Z.of_nat n → in_kind k z →
  read_number n k (be_encode n (if is_signed k then to_unsigned (width k) z else z)) = inr (VNumber k z : value).
Proof.
  intros Hw Hz. unfold read_number. rewrite readN_all.
  assert (256 ^ Z.of_nat n = 2 ^ width k) as E by (rewrite Hw, Z.pow_mul_r by lia; done).
  destruct (is_signed k) eqn:Hk.
  - rewrite decode_small; [by rewrite signed_unsigned|]. rewrite E. apply to_unsigned_range. lia.
  - unfold in_kind in Hz. rewrite Hk in Hz. by rewrite decode_small by by rewrite E.
Qed.

Lemma number_read k z :
  in_kind k z → DecodeInterface decode_other (encode_number k z) = inr (widened (VNumber k z)).
Proof.
  intros Hz. pose proof (read_number_encode (Z.to_nat (width k / 8)) k z) as Hr.
  destruct k; cbn [encode_number]; try (by apply Hr).
  - by apply (read_number_encode 8 Int64 z).
  - by apply (read_number_encode 8 Uint64 z).
Qed.

(** The length of a string or slice after its code. *)
Lemma sized_read (c : Z) n s :
  bytesLen c (be_encode n (len s) ++ s) =
    match readN n (be_encode n (len s) ++ s) with inl err => inl err | inr (b, rest) => inr (be_decode b, rest) end →
  len s < 256 ^ Z.of_nat n →
  read_sized c (be_encode n (len s) ++ s) = inr (Some s).
Proof.
  intros Hb Hs. unfold read_sized. rewrite Hb, readN_encode.
  pose proof (len_nonneg s). rewrite decode_small by lia.
  destruct (len s =? -1) eqn:E; [apply Z.eqb_eq in E; lia|].
  rewrite <-(app_nil_r s) at 2. rewrite readN_app; [done|]. unfold len. lia.
Qed.

Lemma short_code l : 0 ≤ l < 32 → Z.lor 0xa0 l = 0xa0 + l ∧ Z.land (0xa0 + l) 0x1f = l.
Proof.
  intros Hl. assert (forallb (fun n => (Z.lor 0xa0 (Z.of_nat n) =? 0xa0 + Z.of_nat n)
    && (Z.land (0xa0 + Z.of_nat n) 0x1f =? Z.of_nat n)) (seq 0 32) = true) as H by (vm_compute; reflexivity).
  rewrite forallb_forall in H. specialize (H (Z.to_nat l)). rewrite Z2Nat.id in H by lia.
  destruct (andb_prop _ _ (H ltac:(apply in_seq; lia))) as [H1 H2]. lia.
Qed.

Lemma short_string_code l :
  0 ≤ l < 32 → IsFixedString (0xa0 + l) = true ∧ IsFixedNum (0xa0 + l) = false
    ∧ IsFixedMap (0xa0 + l) || IsFixedArray (0xa0 + l) = false.
Proof.
  intros Hl. unfold IsFixedString, IsFixedNum, IsFixedMap, IsFixedArray.
  repeat split; lia.
Qed.

Lemma short_string_read s :
  len s < 32 → DecodeInterface decode_other (byte_of_Z (Z.lor 0xa0 (len s)) :: s) = inr (VString s).
Proof.
  intros Hs. pose proof (len_nonneg s). destruct (short_code (len s)) as [H1 H2]; [lia|].
  unfold DecodeInterface. rewrite H1, unsigned_byte_of_Z, Z.mod_small by lia.
  destruct (short_string_code (len s)) as (Hf & -> & ->); [lia|].
  rewrite Hf. unfold read_string, read_sized, bytesLen.
  destruct (_ =? 0xc0) eqn:E; [lia|]. rewrite Hf, H2.
  destruct (len s =? -1) eqn:E'; [lia|]. rewrite <-(app_nil_r s) at 2.
  rewrite readN_app; [done|]. unfold len. lia.
Qed.

Lemma sized_value (mk : option (list byte) → value) (n : nat) c s :
  len s < 256 ^ Z.of_nat n →
  (∀ bs, DecodeInterface decode_other (byte_of_Z c :: bs) =
     match read_sized c bs with inl err => inl err | inr o => inr (mk o) end) →
  bytesLen c (be_encode n (len s) ++ s) =
    match readN n (be_encode n (len s) ++ s) with inl err => inl err | inr (b, rest) => inr (be_decode b, rest) end →
  DecodeInterface decode_other (write_code n c (len s) ++ s) = inr (mk (Some s)).
Proof.
  intros Hn Hc Hb. unfold write_code. rewrite <-app_comm_cons, Hc. by rewrite sized_read.
Qed.

Lemma string_read s : len s < 2 ^ 32 → DecodeInterface decode_other (encodeStrLen (len s) ++ s) = inr (VString s).
Proof.
  intros Hs. pose proof (len_nonneg s). unfold encodeStrLen.
  destruct (Z.ltb_spec (len s) 32); [by apply short_string_read|].
  destruct (Z.ltb_spec (len s) 256); [|destruct (Z.ltb_spec (len s) 65536)];
    rewrite to_unsigned_small by lia; by apply (sized_value (fun o => VString (default [] o))).
Qed.

Lemma bytes_read s :
  len s < 2 ^ 32 → DecodeInterface decode_other (EncodeBytesLen (len s) ++ s) = inr (VBytes (Some s)).
Proof.
  intros Hs. pose proof (len_nonneg s). unfold EncodeBytesLen.
  destruct (Z.ltb_spec (len s) 256); [|destruct (Z.ltb_spec (len s) 65536)];
    rewrite to_unsigned_small by lia; by apply (sized_value VBytes).
Qed.

Lemma float_read (mk : Z → value) n bits :
  0 ≤ bits < 256 ^ Z.of_nat n → read_float n mk (be_encode n bits) = inr (mk bits).
Proof. intros H. unfold read_float. by rewrite readN_all, decode_small. Qed.

Lemma msgpack_read v :
  scalar v →
  ∃ bs, msgpack_Marshal encode_other v = inr bs ∧ msgpack_Unmarshal decode_other bs = inr (widened v).
Proof.
  intros Hv. unfold msgpack_Unmarshal.
  destruct v as [|b|k z|bits|bits|s|[s|]|o]; simpl in Hv; try done; eexists; (split; [done|]).
  - done.
  - by destruct b.
  - by apply number_read.
  - by apply (float_read VFloat32 4).
  - by apply (float_read VFloat64 8).
  - by apply string_read.
  - by apply bytes_read.
  - done.
Qed.

(** ** gob *)
Variable other_type : O → gotype.
Variable gob_other_write : list byte → value → serror + list byte.
Variable gob_other_read : list byte → serror + value.

(** A type that can be registered: its name is not the one of another type, and without its
    pointers it has no other name. *)
Definition registrable (t : gotype) (r : registry) : Prop :=
  default t (names r !! type_name t) = t ∧ default (type_name t) (types r !! base t) = type_name t.

Definition registered (t : gotype) (r : registry) : registry :=
  mkRegistry (<[type_name t := t]> (names r)) (<[base t := type_name t]> (types r)).

Lemma Register_run t r : registrable t r → Register t r = Return (registered t r).
Proof. intros [H1 H2]. unfold Register. by rewrite !checked_true by by apply bool_decide_eq_true. Qed.

Lemma Register_panics t r : ¬ registrable t r → Register t r = Panic.
Proof.
  intros Hn. unfold Register.
  destruct (decide (default t (names r !! type_name t) = t)) as [H1|H1].
  - rewrite checked_true by by apply bool_decide_eq_true.
    apply checked_false, bool_decide_eq_false. intros H2. by apply Hn.
  - by apply checked_false, bool_decide_eq_false.
Qed.

(** Nothing that was registered is changed. *)
Lemma registered_extends t r : registrable t r → names r ⊆ names (registered t r) ∧ types r ⊆ types (registered t r).
Proof.
  intros [H1 H2]. unfold registered. simpl. split.
  - destruct (names r !! type_name t) as [t'|] eqn:E; simpl in H1; [subst t'; by rewrite insert_id|by apply insert_subseteq].
  - destruct (types r !! base t) as [n'|] eqn:E; simpl in H2; [subst n'; by rewrite insert_id|by apply insert_subseteq].
Qed.

(** *** Integers *)
Lemma bytelen_ok x : 0x7f < x < 2 ^ 64 → (1 ≤ bytelen x ≤ 8)%nat ∧ x < 256 ^ Z.of_nat (bytelen x).
Proof.
  intros Hx. unfold bytelen. pose proof (Z.log2_spec x ltac:(lia)) as [_ Hlt].
  assert (Z.log2 x < 64) as Hl by (apply Z.log2_lt_pow2; lia). pose proof (Z.log2_nonneg x) as Hl0.
  pose proof (Z.div_mod (Z.log2 x) 8 ltac:(lia)). pose proof (Z.mod_pos_bound (Z.log2 x) 8 ltac:(lia)).
  rewrite Z2Nat.id by lia. split; [lia|].
  change 256 with (2 ^ 8). rewrite <-Z.pow_mul_r by lia.
  eapply Z.lt_le_trans; [exact Hlt|]. apply Z.pow_le_mono_r; lia.
Qed.

Lemma read_n_app n bs rest err : len bs = n → read_n n err (bs ++ rest) = inr (bs, rest).
Proof.
  intros <-. unfold read_n. rewrite len_app. pose proof (len_nonneg rest).
  destruct (Z.ltb_spec (len bs + len rest) (len bs)); [lia|].
  assert (Z.to_nat (len bs) = length bs) as -> by (unfold len; lia).
  by rewrite take_app_length, drop_app_length.
Qed.

Lemma uint_read x rest : in_uint64 x → decodeUint (encodeUint x ++ rest) = inr (x, rest).
Proof.
  unfold in_uint64. intros Hx. unfold encodeUint. destruct (Z.leb_spec x 0x7f).
  - simpl. rewrite unsigned_byte_of_Z, Z.mod_small by lia. by destruct (Z.leb_spec x 127); [|lia].
  - destruct (bytelen_ok x ltac:(lia)) as [Hn Hlt]. set (n := bytelen x) in *. simpl.
    rewrite unsigned_byte_of_Z. assert ((- Z.of_nat n) mod 256 = 256 - Z.of_nat n) as ->.
    { symmetry. apply Z.mod_unique with (-1); lia. }
    destruct (Z.leb_spec (256 - Z.of_nat n) 127); [lia|].
    replace (256 - (256 - Z.of_nat n)) with (Z.of_nat n) by lia.
    destruct (Z.ltb_spec 8 (Z.of_nat n)); [lia|]. unfold mbind, parser_bind.
    rewrite read_n_app by (unfold len; by rewrite length_be_encode). simpl.
    by rewrite decode_small by lia.
Qed.

Lemma sign_last z : in_int64 z →
  let x := if z <? 0 then Z.lor (Z.shiftl (Z.lnot z) 1) 1 else Z.shiftl z 1 in
  in_uint64 x ∧ (if Z.testbit x 0 then Z.lnot (Z.shiftr x 1) else Z.shiftr x 1) = z.
Proof.
  unfold in_int64, in_uint64. intros Hz. destruct (Z.ltb_spec z 0); cbv zeta.
  - assert (Z.lor (Z.shiftl (Z.lnot z) 1) 1 = 2 * Z.lnot z + 1) as ->.
    { pose proof (Z.add_lnot_diag z). rewrite Z.shiftl_mul_pow2, Z.mul_comm by lia. change (2 ^ 1) with 2.
      by destruct (Z.lnot z) eqn:E; [..|lia]. }
    pose proof (Z.add_lnot_diag z). split; [lia|].
    rewrite Z.testbit_odd_0. rewrite Z.shiftr_div_pow2 by lia. change (2 ^ 1) with 2.
    rewrite Z.add_comm, Z.mul_comm, Z.div_add by lia. change (1 / 2) with 0.
    rewrite Z.add_0_l. apply Z.lnot_involutive.
  - rewrite Z.shiftl_mul_pow2 by lia. change (2 ^ 1) with 2. split; [lia|].
    rewrite (Z.mul_comm z 2), Z.testbit_even_0, Z.shiftr_div_pow2 by lia. change (2 ^ 1) with 2.
    by rewrite Z.mul_comm, Z.div_mul.
Qed.

Lemma int_read z rest : in_int64 z → decodeInt (encodeInt z ++ rest) = inr (z, rest).
Proof.
  intros Hz. destruct (sign_last z Hz) as [Hu Hs]. cbv zeta in Hu, Hs. unfold encodeInt, decodeInt.
  set (x := if z <? 0 then _ else _) in *. rewrite to_unsigned_small by exact Hu.
  unfold mbind, parser_bind. rewrite uint_read by done.
  unfold mret, parser_ret. by rewrite Hs.
Qed.

(** *** Values *)

(** The values whose format is modelled, of a size that a message can have. *)
Definition gob_scalar (v : value) : Prop :=
  match v with
  | VBool _ => True
  | VNumber k z => in_kind k z
  | VFloat64 bits => 0 ≤ bits < 2 ^ 64
  | VString s => len s < 2 ^ 29
  | VBytes s => len (default [] s) < 2 ^ 29
  | VNil | VFloat32 _ | VOther _ => False
  end.

(** What is read back: everything but the difference of an empty slice from the nil slice. *)
Definition gob_read_back (v : value) : value :=
  match v with VBytes (Some []) => VBytes None | v => v end.

Lemma in_kind_range k z : in_kind k z → in_range k z = true ∧ (if is_signed k then in_int64 z else in_uint64 z).
Proof.
  unfold in_kind, in_range, in_int64, in_uint64. destruct k; simpl; intros Hz; split; lia.
Qed.

Lemma be_reverse bits : 0 ≤ bits < 2 ^ 64 →
  in_uint64 (be_decode (rev (be_encode 8 bits)))
  ∧ be_decode (rev (be_encode 8 (be_decode (rev (be_encode 8 bits))))) = bits.
Proof.
  intros Hb. assert (length (rev (be_encode 8 bits)) = 8%nat) as Hl by by rewrite length_rev, length_be_encode.
  split; [pose proof (be_decode_range (rev (be_encode 8 bits))) as Hr; rewrite Hl in Hr; exact Hr|].
  rewrite <-Hl at 1. rewrite be_encode_decode, rev_involutive. by apply decode_small.
Qed.

Lemma value_read b v bs rest :
  gob_scalar v → TypeOf other_type v ≫= basic_of = Some b → write_value v = Some bs →
  read_value b (bs ++ rest) = inr (gob_read_back v, rest).
Proof.
  intros Hv Hb Hw. destruct v as [|x|k z|bits|bits|s|s|o]; try done; simpl in Hv.
  - injection Hb as <-. injection Hw as <-. simpl. unfold mbind, parser_bind.
    rewrite uint_read by (by destruct x). by destruct x.
  - assert (b = BNumber k) as -> by (destruct k; by injection Hb). injection Hw as <-.
    destruct (in_kind_range k z Hv) as [Hr Hw]. unfold read_value, mbind, parser_bind.
    destruct (is_signed k); [rewrite int_read by done|rewrite uint_read by done]; by rewrite Hr.
  - injection Hb as <-. cbn [write_value] in Hw. apply (inj Some) in Hw. subst bs.
    destruct (be_reverse bits Hv) as [Hu Hr]. cbn [read_value gob_read_back].
    unfold mbind, parser_bind. rewrite (uint_read _ _ Hu). unfold mret, parser_ret. by rewrite Hr.
  - injection Hb as <-. injection Hw as <-. pose proof (len_nonneg s).
    unfold read_value, mbind, parser_bind. rewrite <-app_assoc, uint_read by (unfold in_uint64; lia).
    by rewrite read_n_app.
  - injection Hb as <-. injection Hw as <-. pose proof (len_nonneg (default [] s)).
    unfold read_value, mbind, parser_bind. rewrite <-app_assoc, uint_read by (unfold in_uint64; lia).
    rewrite read_n_app by done. unfold mret, parser_ret. destruct s as [[|x s]|]; simpl; [done| |done].
    destruct (Z.eqb_spec (len (x :: s)) 0) as [E|]; [unfold len in E; simpl in E; lia|done].
Qed.

(** *** Messages *)
Lemma len_encodeUint x : in_uint64 x → len (encodeUint x) ≤ 9.
Proof.
  unfold in_uint64. intros Hx. unfold encodeUint. destruct (Z.leb_spec x 127); [done|].
  destruct (bytelen_ok x ltac:(lia)) as [Hn _]. unfold len. simpl. rewrite length_be_encode. lia.
Qed.

Lemma len_encodeInt z : in_int64 z → len (encodeInt z) ≤ 9.
Proof.
  intros Hz. destruct (sign_last z Hz) as [Hu _]. unfold encodeInt. cbv zeta in Hu.
  rewrite to_unsigned_small by exact Hu. by apply len_encodeUint.
Qed.

Lemma message_ok bs : len bs < tooBig → message bs = inr (encodeUint (len bs) ++ bs).
Proof. intros H. unfold message. by destruct (Z.leb_spec tooBig (len bs)); [lia|]. Qed.

Lemma value_written v t :
  gob_scalar v → TypeOf other_type v = Some t →
  ∃ b bs, basic_of t = Some b ∧ write_value v = Some bs ∧ len bs < 2 ^ 29 + 9.
Proof.
  intros Hv Ht. destruct v as [|x|k z|bits|bits|s|s|o]; try done; injection Ht as <-; simpl in Hv.
  - eexists _, _. split; [done|]. split; [done|]. by destruct x.
  - exists (BNumber k). eexists. split; [by destruct k|]. split; [done|].
    destruct (in_kind_range k z Hv) as [_ Hr]. destruct (is_signed k);
      [pose proof (len_encodeInt z Hr)|pose proof (len_encodeUint z Hr)]; lia.
  - eexists _, _. split; [done|]. split; [done|].
    pose proof (len_encodeUint _ (proj1 (be_reverse bits Hv))). lia.
  - eexists _, _. split; [done|]. split; [done|]. rewrite len_app. pose proof (len_nonneg s).
    pose proof (len_encodeUint (len s) ltac:(unfold in_uint64; lia)). lia.
  - eexists _, _. split; [done|]. split; [done|]. rewrite len_app. pose proof (len_nonneg (default [] s)).
    pose proof (len_encodeUint (len (default [] s)) ltac:(unfold in_uint64; lia)). lia.
Qed.

(** The types of these values have short names. *)
Lemma scalar_name v t :
  gob_scalar v → TypeOf other_type v = Some t →
  base t = t ∧ type_name t ≠ [] ∧ len (type_name t) ≤ 16.
Proof.
  intros Hv Ht. destruct v as [|x|k z|bits|bits|s|s|o]; try done; injection Ht as <-;
    first [by vm_compute|by destruct k; vm_compute].
Qed.

Abbreviation Encode := (Encode other_type gob_other_write).
Abbreviation Decode := (Decode gob_other_read).

(** What an interface is read as. *)
Lemma interface_read r other name t b v bs data rest :
  name ≠ [] → len name ≤ 1024 → gob_scalar v → TypeOf other_type v = Some t → basic_of t = Some b →
  write_value v = Some bs → message (encodeUint 0 ++ bs) = inr data →
  let written := encodeUint (len name) ++ name ++ encodeInt (type_id b) ++ data ++ rest in
  (names r !! name = Some t → decodeInterface r other written = inr (gob_read_back v, rest))
  ∧ (names r !! name = None → decodeInterface r other written = inl (SNameNotRegistered name)).
Proof.
  intros Hne Hlen Hv Ht Hb Hw Hm written. pose proof (len_nonneg name).
  split; intros Hr; unfold written, decodeInterface, mbind, parser_bind;
    rewrite uint_read by (unfold in_uint64; lia);
    rewrite read_n_app by done; rewrite decide_False by done;
    (destruct (Z.ltb_spec 1024 (len name)); [lia|]); rewrite Hr; [|done].
  rewrite Hb. rewrite int_read by (unfold in_int64; destruct b as [|k| | |]; [| destruct k|..]; vm_compute; done).
  rewrite Z.eqb_refl. unfold message in Hm. case_match eqn:Hbig; [done|]. apply (inj inr) in Hm. subst data.
  pose proof (len_nonneg (encodeUint 0 ++ bs)). apply Z.leb_gt in Hbig. unfold tooBig in Hbig.
  rewrite <-!app_assoc, uint_read by (unfold in_uint64; lia). unfold singleton, mbind, parser_bind.
  rewrite uint_read by done. simpl.
  apply (value_read b v bs rest); [done| |done]. by rewrite Ht.
Qed.

(** One message around an interface. *)
Lemma frame_read r body data :
  message (encodeInt interface_id ++ encodeUint 0 ++ body) = inr data →
  Decode r data =
    match decodeInterface r (fun _ => match gob_other_read data with inl err => inl err | inr v => inr (v, []) end)
            body with
    | inl err => inl err
    | inr (v, _) => inr v
    end.
Proof.
  unfold message. set (msg := encodeInt interface_id ++ encodeUint 0 ++ body).
  destruct (Z.leb_spec tooBig (len msg)) as [|Hlt]; [done|]. intros [= E]. pose proof (len_nonneg msg).
  set (other := fun _ : list byte => _). unfold serializers.Decode. fold other. clearbody other. subst data.
  unfold tooBig in *. rewrite uint_read by (unfold in_uint64; lia).
  destruct (Z.leb_spec (2 ^ 30) (len msg)); [lia|].
  rewrite <-(app_nil_r msg) at 2. rewrite read_n_app by done.
  unfold msg, mbind, parser_bind, singleton.
  rewrite int_read by done. rewrite Z.eqb_refl. unfold mbind, parser_bind. by rewrite uint_read.
Qed.

Lemma nil_read r r'' : ∃ bs, Encode r VNil = inr bs ∧ Decode r'' bs = inr VNil.
Proof. exists [x03; x10; x00; x00]. split; vm_compute; reflexivity. Qed.

Lemma scalar_read r v t :
  gob_scalar v → TypeOf other_type v = Some t → types r !! base t = Some (type_name t) →
  ∃ bs, Encode r v = inr bs ∧ ∀ r'',
    (names r'' !! type_name t = Some t → Decode r'' bs = inr (gob_read_back v))
    ∧ (names r'' !! type_name t = None → Decode r'' bs = inl (SNameNotRegistered (type_name t))).
Proof.
  intros Hv Ht Hr. destruct (value_written v t Hv Ht) as (b & bs & Hb & Hw & Hlen).
  destruct (scalar_name v t Hv Ht) as (_ & Hne & Hname). pose proof (len_nonneg bs). pose proof (len_nonneg (type_name t)).
  assert (len (encodeUint 0 ++ bs) < 2 ^ 29 + 18) as Hd.
  { rewrite len_app. pose proof (len_encodeUint 0 ltac:(done)). lia. }
  pose proof (message_ok (encodeUint 0 ++ bs) ltac:(unfold tooBig; lia)) as Hm.
  set (data := encodeUint (len (encodeUint 0 ++ bs)) ++ encodeUint 0 ++ bs) in *.
  assert (len data < 2 ^ 29 + 27) as Hdata.
  { unfold data. rewrite len_app. pose proof (len_nonneg (encodeUint 0 ++ bs)).
    pose proof (len_encodeUint (len (encodeUint 0 ++ bs)) ltac:(unfold in_uint64; lia)). lia. }
  set (body := encodeUint (len (type_name t)) ++ type_name t ++ encodeInt (type_id b) ++ data).
  assert (len (encodeInt interface_id ++ encodeUint 0 ++ body) < tooBig) as Hbody.
  { unfold body, tooBig. rewrite !len_app. pose proof (len_encodeInt interface_id ltac:(done)).
    pose proof (len_encodeUint 0 ltac:(done)).
    pose proof (len_encodeUint (len (type_name t)) ltac:(unfold in_uint64; lia)).
    pose proof (len_encodeInt (type_id b) ltac:(unfold in_int64; destruct b as [|k| | |]; [|destruct k|..]; vm_compute; done)). lia. }
  exists (encodeUint (len (encodeInt interface_id ++ encodeUint 0 ++ body)) ++ encodeInt interface_id ++ encodeUint 0 ++ body).
  split; [unfold serializers.Encode; rewrite Ht, Hr, Hb, Hw, Hm; by apply (message_ok _ Hbody)|].
  intros r''. rewrite (frame_read r'' body _ (message_ok _ Hbody)). unfold body. rewrite <-(app_nil_r data).
  set (other := fun _ : list byte => _).
  destruct (interface_read r'' other (type_name t) t b v bs data [] Hne ltac:(lia) Hv Ht Hb Hw Hm) as [H1 H2].
  split; intros Hn; [by rewrite (H1 Hn)|by rewrite (H2 Hn)].
Qed.

(** ** The serializers *)
Variable json_Marshal : value → serror + list byte.
Variable json_Unmarshal : list byte → serror + value.
Abbreviation Marshal := (Marshal encode_other other_type gob_other_write json_Marshal).
Abbreviation Unmarshal := (Unmarshal decode_other gob_other_read json_Unmarshal).
Abbreviation gob_Marshal := (gob_Marshal other_type gob_other_write).

Lemma gob_Marshal_run v t r :
  TypeOf other_type v = Some t → registrable t r →
  gob_Marshal v r = Return (Encode (registered t r) v, registered t r).
Proof. intros Ht Hr. unfold serializers.gob_Marshal. by rewrite Ht, (Register_run t r Hr). Qed.

Lemma gob_Marshal_panics v t r :
  TypeOf other_type v = Some t → ¬ registrable t r → gob_Marshal v r = Panic.
Proof. intros Ht Hr. unfold serializers.gob_Marshal. by rewrite Ht, Register_panics. Qed.

(** C10: what the serializers keep of a value.  gob registers the type of the value in the
    process, changes no type that was registered and takes the process down exactly when the
    type cannot be registered.  What it writes for a boolean, an integer of any kind, a
    [float64], a string or a byte slice under half a gigabyte is read as a value of the same
    type by every process in which the type is registered, and as an error where its name is
    not; only an empty slice is read as a nil one.  nil is read as nil.  msgpack reads back these values and
    [float32], in all the widths of its format and under four gigabytes, but gives an [int] the
    type [int64], a [uint] the type [uint64] and turns a nil slice into nil. *)
Theorem serializers_correct v r :
  (∀ t, TypeOf other_type v = Some t →
     (Marshal gobSerializer v r = Panic ↔ ¬ registrable t r) ∧
     (registrable t r → ∃ res r', Marshal gobSerializer v r = Return (res, r')
        ∧ names r ⊆ names r' ∧ types r ⊆ types r' ∧ names r' !! type_name t = Some t
        ∧ (gob_scalar v → ∃ bs, res = inr bs ∧ ∀ r'',
            (names r'' !! type_name t = Some t → Unmarshal gobSerializer r'' bs = inr (gob_read_back v))
            ∧ (names r'' !! type_name t = None →
               Unmarshal gobSerializer r'' bs = inl (SNameNotRegistered (type_name t))))))
  ∧ (v = VNil → ∃ bs, Marshal gobSerializer v r = Return (inr bs, r)
       ∧ ∀ r'', Unmarshal gobSerializer r'' bs = inr VNil)
  ∧ (scalar v → ∃ bs, Marshal msgpackSerializer v r = Return (inr bs, r)
       ∧ Unmarshal msgpackSerializer r bs = inr (widened v)).
Proof.
  split; [|split].
  - intros t Ht. split.
    + split; [|by apply gob_Marshal_panics]. intros Hp Hr.
      pose proof (gob_Marshal_run v t r Ht Hr) as Hrun. simpl in Hp. by rewrite Hrun in Hp.
    + intros Hr. eexists _, _. split; [by apply gob_Marshal_run|].
      destruct (registered_extends t r Hr) as [H1 H2]. split; [done|]. split; [done|].
      split; [apply lookup_insert_eq|]. intros Hv.
      destruct (scalar_read (registered t r) v t Hv Ht (lookup_insert_eq _ _ _)) as (bs & He & Hd).
      exists bs. split; [done|]. intros r''. exact (Hd r'').
  - intros ->. destruct (nil_read r r) as (bs & He & _). exists bs. split.
    + simpl. unfold serializers.gob_Marshal. simpl. by rewrite He.
    + intros r''. destruct (nil_read r r'') as (bs' & He' & Hd). rewrite He in He'.
      apply (inj inr) in He'. subst bs'. exact Hd.
  - intros Hv. destruct (msgpack_read v Hv) as (bs & Hm & Hu). exists bs. simpl. by rewrite Hm.
Qed.

(** ** Pointers *)

(** Where the type [t] has been registered, by a value of it or from the start, a pointer to it
    cannot be: the first value of type [*t] takes the process down. *)
Theorem gob_pointer_panics v t r :
  base t = t → types r !! t = Some (type_name t) → TypeOf other_type v = Some (TPointer t) →
  type_name t ≠ text "*" ++ String t → Marshal gobSerializer v r = Panic.
Proof.
  intros Hb Hr Ht Hne. apply (gob_Marshal_panics v _ r Ht). intros [_ H2]. simpl in H2.
  rewrite Hb, Hr in H2. done.
Qed.
End serspec.

(** The types a process knows from the start. *)
Lemma basics_registered :
  ∃ r, registerBasics = Return r
    ∧ ∀ t, t ∈ basics → names r !! type_name t = Some t ∧ types r !! t = Some (type_name t).
Proof.
  assert (match registerBasics with
          | Return r => forallb (fun t => bool_decide (names r !! type_name t = Some t)
                                   && bool_decide (types r !! t = Some (type_name t))) basics
          | _ => false
          end = true) as H by (vm_compute; reflexivity).
  destruct registerBasics as [r| |]; try done. exists r. split; [done|]. intros t Ht.
  rewrite forallb_forall in H. specialize (H t). rewrite <-list_elem_of_In in H.
  apply andb_prop in H as [H1 H2]; [|done]. by split; eapply bool_decide_eq_true_1.
Qed.
End serspec.
