(* ===== verification/DiscoverySpec.v ===== *)
(** The events of the membership reach the node in their order, and the ring follows them. *)

From S2P Require Export Discovery NodeSpec ConsistentSpec.

Module dspec.
Export discovery node.

(** ** The events on their way *)

(** What a subscriber receives for an event: nothing about the node itself, and an update
    as a leave that is followed by a join. *)
Definition expand (self : list byte) (ev : NodeEvent) : list NodeEvent :=
  if decide (node_Name ev.2 = self) then []
  else match ev.1 with
       | NodeUpdate => [(NodeLeave, ev.2); (NodeJoin, ev.2)]
       | _ => [ev]
       end.
Definition expand_all (self : list byte) (evs : list NodeEvent) : list NodeEvent :=
  concat (map (expand self) evs).

Definition sends_left (d : discovery) : list (nat * NodeEvent) :=
  match dsc_loop d with LSend todo => todo | _ => [] end.

(** Every event is at one place, and the places are in the order of the events. *)
Record inv (self : list byte) (s : sys) : Prop := {
  inv_name : dsc_Name (dsc s) = self;
  inv_one : Forall (fun x => x.1 = 0%nat) (sends_left (dsc s));
  inv_wg : dsc_wg (dsc s) = match dsc_loop (dsc s) with LNone | LJoining _ | LReturned => 0 | _ => 1 end%nat;
  inv_events : ∃ buf, eventSubscribers (dsc s) = [buf]
    ∧ received s ++ buf ++ (sends_left (dsc s)).*2 ++ expand_all self (eventsCh (dsc s))
      = expand_all self (notified s)
}.

Lemma expand_all_app self l1 l2 : expand_all self (l1 ++ l2) = expand_all self l1 ++ expand_all self l2.
Proof. unfold expand_all. by rewrite map_app, concat_app. Qed.

Lemma handle_one self ev nd :
  Forall (fun x => x.1 = 0%nat) (handleEvent self [0%nat] ev nd)
  ∧ (handleEvent self [0%nat] ev nd).*2 = expand self (ev, nd).
Proof.
  unfold expand. simpl. case_decide; [done|]. destruct ev; simpl; by repeat constructor.
Qed.

Lemma started_inv `{!Codec NodeMetadata} birthdate self peers d evs :
  newDiscovery birthdate self peers None = inr d → inv self (started d evs).
Proof.
  unfold newDiscovery. intros Hd. case_match; simplify_eq. split; [done|by constructor|done|].
  by exists [].
Qed.

Lemma step_delivers self s s' : step s s' → inv self s → inv self s'.
Proof.
  intros Hs [Hn H1 Hw (buf & Hb & He)].
  destruct Hs as [d st l ns rs ev Hc|d st l ns rs ev evs Hl Hc|d st l ns rs Hl|d st l ns rs ev nd evs Hl Hc
    |d st l ns rs i ev todo buf' Hl Hi Hc
    |d st l ns rs Hl|d st l ns rs Hl Hd|d ns rs Hj|d st ns rs ev buf' Hi|d st ns rs|d d' l ns rs Hj Hd|d l ns rs Hz];
    cbn [dsc received notified] in *.
  - split; [done|done|done|]. exists buf. split; [done|]. cbn [set_events eventsCh dsc received notified].
    by rewrite !expand_all_app, !app_assoc, <-He, <-!app_assoc.
  - unfold sends_left in He, H1. rewrite Hl in *. split; [done|done|done|]. exists buf. split; [done|].
    cbn [set_events eventsCh dsc received notified sends_left dsc_loop] in *.
    rewrite !expand_all_app, <-He. simpl. by rewrite <-!app_assoc.
  - unfold sends_left in He, H1. rewrite Hl in *. split; [done|done| |by exists buf].
    cbn [join dsc dsc_wg dsc_loop]. by rewrite Hw.
  - unfold sends_left in He, H1. rewrite Hl, Hc in *. rewrite Hb.
    destruct (handle_one (dsc_Name d) ev nd) as [Hh1 Hh2].
    split; [done|exact Hh1|done|]. exists buf. split; [done|].
    cbn [set_events eventsCh dsc received notified sends_left dsc_loop length seq].
    rewrite Hh2, Hn. exact He.
  - unfold sends_left in He, H1. rewrite Hl in *. apply Forall_cons in H1 as [Hi0 H1].
    simpl in Hi0. subst i. rewrite Hb in Hi. simplify_eq/=.
    split; [done|done|done|]. exists (buf' ++ [ev]). rewrite Hb. split; [done|].
    cbn [set_events eventsCh dsc received notified sends_left dsc_loop]. rewrite <-He. simpl.
    by rewrite <-!app_assoc.
  - unfold sends_left in He, H1. rewrite Hl in *. split; [done|by constructor|done|].
    by exists buf.
  - unfold sends_left in He, H1. rewrite Hl in *. split; [done|by constructor| |by exists buf].
    cbn. by rewrite Hw.
  - split; [done..|]. by exists buf.
  - rewrite Hb in Hi. simplify_eq/=. split; [done|done|done|]. exists buf'. rewrite Hb.
    split; [done|]. cbn [set_events eventsCh dsc received notified dsc_loop]. rewrite <-He. simpl.
    by rewrite <-!app_assoc.
  - split; [done..|]. by exists buf.
  - unfold shutdown in Hd. destruct (dsc_done d); [discriminate Hd|]. injection Hd as <-.
    split; [exact Hn|exact H1|exact Hw|]. by exists buf.
  - split; [done..|]. by exists buf.
Qed.

(** [shutdown] does not return before the event loop. *)
Definition waits (s : sys) : Prop :=
  (stopping s = DReturned → dsc_loop (dsc s) = LReturned)
  ∧ (stopping s ≠ DNone → has_joined (dsc_loop (dsc s)) = true).

Lemma step_waits self s s' : step s s' → inv self s → waits s → waits s'.
Proof.
  intros Hs Hi [Hret Hne]. pose proof (inv_wg _ _ Hi) as Hw.
  destruct Hs as [d st l ns rs ev Hc|d st l ns rs ev evs Hl Hc|d st l ns rs Hl|d st l ns rs ev nd evs Hl Hc
    |d st l ns rs i ev todo buf' Hl Hi' Hc
    |d st l ns rs Hl|d st l ns rs Hl Hd|d ns rs Hj|d st ns rs ev buf' Hi'|d st ns rs|d d' l ns rs Hj Hd|d l ns rs Hz];
    cbn [dsc stopping] in *.
  - exact (conj Hret Hne).
  - rewrite Hl in *. split; [intros E; discriminate (Hret E)|done].
  - rewrite Hl in *. split; [intros E; discriminate (Hret E)|done].
  - split; [intros E; by rewrite (Hret E) in Hl|done].
  - split; [intros E; by rewrite (Hret E) in Hl|done].
  - split; [intros E; by rewrite (Hret E) in Hl|done].
  - by split.
  - exact (conj Hret Hne).
  - exact (conj Hret Hne).
  - exact (conj Hret Hne).
  - unfold shutdown in Hd. destruct (dsc_done d); [discriminate Hd|]. injection Hd as <-.
    by split.
  - split; [intros _|intros _; by apply Hne]. cbn [dsc]. rewrite Hz in Hw.
    specialize (Hne ltac:(done)). by destruct (dsc_loop d).
Qed.

(** C33: the listener receives the events of memberlist in their order, none lost and none
    twice, without those about the node itself and with an update replaced by a leave and
    a join: what it has received, what its channel holds, what the event loop is about to
    send and what the loop has not taken yet is, together, what memberlist has sent.  And
    when [shutdown] has returned the event loop has. *)
Theorem events_reach_the_listener `{!Codec NodeMetadata} birthdate self peers d evs s :
  newDiscovery birthdate self peers None = inr d → rtc step (started d evs) s →
  (∃ buf, eventSubscribers (dsc s) = [buf]
    ∧ received s ++ buf ++ (sends_left (dsc s)).*2 ++ expand_all self (eventsCh (dsc s))
      = expand_all self (notified s))
  ∧ (stopping s = DReturned → dsc_loop (dsc s) = LReturned).
Proof.
  intros Hd Hr. assert (inv self s ∧ waits s) as [Hi [Hs _]]; [|by destruct Hi].
  revert s Hr. apply rtc_ind_r; [split; [by eapply started_inv|by split]|].
  intros s1 s2 _ Hst [Hi Hw]. split; [by eapply step_delivers|by eapply step_waits].
Qed.

(** *** The start of a node that is not found among its members *)

(** After [k] joins, with nobody listening. *)
Definition flooded (d : discovery) (ev : NodeEvent) (k : nat) : sys :=
  mkSys (set_events [] [replicate k ev] LSelect (join d)) DNone false (replicate k ev) [].

Lemma flood d ev k :
  node_Name ev.2 ≠ dsc_Name d → ev.1 = NodeJoin → (k < eventChanCapacity)%nat →
  rtc step (flooded d ev k) (flooded d ev (S k)).
Proof.
  intros Hn He Hk. destruct ev as [ev nd]. simpl in *. subst ev.
  eapply rtc_l; [apply (e_notify _ _ _ _ _ (NodeJoin, nd)); simpl; unfold eventChanCapacity; lia|].
  eapply rtc_l; [by eapply e_take|]. cbn. rewrite decide_False by done.
  eapply rtc_l; [eapply e_send; [done|done|by rewrite length_replicate]|].
  eapply rtc_l; [by apply e_sent|]. cbn. unfold flooded.
  rewrite replicate_S_end. apply rtc_refl.
Qed.

Lemma flood_all d ev k :
  node_Name ev.2 ≠ dsc_Name d → ev.1 = NodeJoin → (k ≤ eventChanCapacity)%nat →
  rtc step (flooded d ev 0) (flooded d ev k).
Proof.
  intros Hn He. induction k as [|k IH]; intros Hk; [done|].
  etrans; [apply IH; lia|]. by apply flood; [..|lia].
Qed.

(** [shutdown] of the discovery may wait for ever: [startDiscovery] calls it when the
    node is not found among its members, before anybody listens; if 33 events have come
    by then the event loop is stuck in the send to the channel of the subscriber. *)
Theorem discovery_shutdown_hangs `{!Codec NodeMetadata} birthdate self peers d nd :
  newDiscovery birthdate self peers None = inr d → node_Name nd ≠ self →
  ∃ s, rtc step (started d []) s ∧ stopping s = DWaiting
    ∧ ∀ s', rtc step s s' → stopping s' = DWaiting.
Proof.
  intros Hd Hne. unfold newDiscovery in Hd. case_match; simplify_eq.
  set (ev := (NodeJoin, nd)). set (d := mkDiscovery self peers birthdate false 0 [] [] LNone).
  set (d1 := set_events [] [replicate 32 ev] (LSend [(0%nat, ev)]) (join d)).
  exists (mkSys (close_done d1) DWaiting false (replicate 32 ev ++ [ev]) []).
  split; [|split; [done|]].
  - eapply rtc_l; [by apply e_joined|].
    etrans; [apply (flood_all d ev 32); by try done|].
    eapply rtc_l; [apply (e_notify _ _ _ _ _ ev); simpl; unfold eventChanCapacity; lia|].
    eapply rtc_l; [by eapply e_take|]. cbn. rewrite decide_False by done.
    eapply rtc_l; [by apply e_shutdown|]. apply rtc_refl.
  - intros s' Hr. assert (stopping s' = DWaiting ∧ listening s' = false ∧ dsc_wg (dsc s') = 1%nat
      ∧ dsc_loop (dsc s') = LSend [(0%nat, ev)] ∧ eventSubscribers (dsc s') = [replicate 32 ev])
      as [? _]; [|done].
    revert s' Hr. apply rtc_ind_r; [done|].
    intros s1 s2 _ Hs (Hst & Hl & Hw & Hlo & Hb). destruct Hs; simplify_eq/=; try done; try congruence.
    rewrite Hlo in *. simplify_eq/=. rewrite Hb in *. simplify_eq/=.
    unfold eventChanCapacity in *. lia.
Qed.

(** [join] may never return: nobody takes events before the event loop is started, which
    happens after [memberlist.Join] has returned, and [Join] waits once the channel is full.  A
    node that finds more than 32 members hangs in [startDiscovery]. *)
Theorem join_hangs `{!Codec NodeMetadata} birthdate self peers d evs s :
  newDiscovery birthdate self peers None = inr d → (eventChanCapacity < length evs)%nat →
  rtc step (started d evs) s → has_joined (dsc_loop (dsc s)) = false ∧ stopping s = DNone.
Proof.
  intros Hd Hlen Hr. unfold newDiscovery in Hd. case_match; simplify_eq.
  assert (stopping s = DNone ∧ listening s = false ∧ ∃ rest, dsc_loop (dsc s) = LJoining rest
    ∧ (length evs ≤ length rest + length (eventsCh (dsc s)))%nat
    ∧ (length (eventsCh (dsc s)) ≤ eventChanCapacity)%nat) as (Hst & _ & rest & -> & _); [|done].
  revert s Hr. apply rtc_ind_r.
  { split; [done|]. split; [done|]. exists evs. simpl. unfold eventChanCapacity. split; [done|]. lia. }
  intros s1 s2 _ Hs (Hst & Hl & rest & Hlo & Hle & Hcap).
  destruct Hs; simplify_eq/=; try congruence; rewrite Hlo in *; simplify_eq/=; try done.
  - split; [done|]. split; [done|]. exists rest. rewrite length_app. simpl. split; [done|]. lia.
  - split; [done|]. split; [done|]. eexists. split; [done|]. rewrite length_app. simpl in *. lia.
  - lia.
Qed.

(** ** The ring follows the members *)
Section ring.
Context {S N : Type} `{!KV S} `{!Snap S N} `{!Env}.
Context `{!BirthdateSort} `{!Codec NodeMetadata} `{!RangeOrder (list byte)} `{!Codec (gmap Z route)}.
Context `{!Codec dmapbox}.
Abbreviation M := (olric.M S N).
Abbreviation Olric := (olric.Olric S N).
Abbreviation cluster := (olric.cluster S N).
Abbreviation ring_ := (consistent.Consistent host).
Context (sv : list byte → Message → M (option Message)).

(** The hosts that may ever be members, with the replicas of all of them apart, and a ring
    that has room for them. *)
Context (cfg : consistent.Config) (U : list (list byte)).
Record roomy : Prop := {
  ro_apart : NoDup (concat (map (consistent.replicas cfg) U));
  ro_names : NoDup U;
  ro_replicas : 2 ≤ consistent.ReplicationFactor cfg;
  ro_load : consistent.Load cfg = ringspec.default_load;
  ro_size : Z.of_nat (length U) ≤ consistent.PartitionCount cfg < 2 ^ 50
}.

(** A ring of such hosts, with the partitions distributed over them. *)
Record sound (r : ring_) : Prop := {
  so_wf : ringspec.wf r;
  so_config : consistent.config r = cfg;
  so_members name : is_Some (consistent.members r !! name) → name ∈ U;
  so_assigned : consistent.members r ≠ ∅ →
    ∃ avg, consistent.AverageLoad r = Return avg ∧ ringspec.assigned r avg
}.

(** What an event means for the members, by name; a join of a member that is known already
    changes nothing. *)
Definition follow_one (ms : gmap (list byte) host) (ev : NodeEvent) : gmap (list byte) host :=
  match ev.1 with
  | NodeJoin =>
      match ms !! node_Name ev.2 with
      | Some _ => ms
      | None => <[node_Name ev.2 := member_host ev.2]> ms
      end
  | NodeLeave => delete (node_Name ev.2) ms
  | NodeUpdate => ms
  end.

(** The events of memberlist: an update replaces the member. *)
Definition follow (self : list byte) (ms : gmap (list byte) host) (ev : NodeEvent)
    : gmap (list byte) host :=
  if decide (node_Name ev.2 = self) then ms
  else match ev.1 with
       | NodeUpdate => <[node_Name ev.2 := member_host ev.2]> ms
       | _ => follow_one ms ev
       end.

Lemma follow_expand self ms evs :
  foldl follow_one ms (expand_all self evs) = foldl (follow self) ms evs.
Proof.
  revert ms. induction evs as [|[ev nd] evs IH]; intros ms; [done|].
  unfold expand_all. cbn [map concat]. fold (expand_all self evs). rewrite foldl_app, IH. cbn [foldl].
  f_equal. unfold expand, follow. simpl. case_decide; [done|]. destruct ev; [done|done|].
  simpl. unfold follow_one. simpl. by rewrite lookup_delete_eq, insert_delete_eq.
Qed.

(** The members of a sound ring are no more than the hosts, and one fewer if a host is
    missing. *)
Lemma sound_le r :
  roomy → sound r → Z.of_nat (size (consistent.members r)) ≤ consistent.PartitionCount cfg.
Proof.
  intros Hro Hr.
  assert (size (dom (consistent.members r) : gset (list byte)) ≤ length U)%nat as Hle.
  { rewrite <-(size_list_to_set (C := gset (list byte)) U (ro_names Hro)). apply subseteq_size.
    intros x Hx%elem_of_dom. apply elem_of_list_to_set. by apply (so_members _ Hr). }
  rewrite size_dom in Hle. pose proof (ro_size Hro). lia.
Qed.

Lemma sound_size r name :
  roomy → sound r → name ∈ U → consistent.members r !! name = None →
  Z.of_nat (Datatypes.S (size (consistent.members r))) ≤ consistent.PartitionCount cfg.
Proof.
  intros Hro Hr Hin Hnone.
  assert (size (dom (consistent.members r) ∪ {[name]} : gset (list byte)) ≤ length U)%nat as Hle.
  { rewrite <-(size_list_to_set (C := gset (list byte)) U (ro_names Hro)). apply subseteq_size.
    intros x [Hx%elem_of_dom| ->%elem_of_singleton]%elem_of_union; apply elem_of_list_to_set; [|done].
    by apply (so_members _ Hr). }
  rewrite size_union in Hle by (intros x Hx%elem_of_dom ->%elem_of_singleton; by rewrite Hnone in Hx; destruct Hx).
  rewrite size_dom, size_singleton in Hle. pose proof (ro_size Hro). lia.
Qed.

Lemma sound_apart r name :
  roomy → sound r → name ∈ U → consistent.members r !! name = None →
  NoDup (consistent.sortedSet r ++ consistent.replicas cfg name).
Proof.
  intros Hro Hr Hin Hnone. pose proof (ro_apart Hro) as Hnd.
  apply NoDup_app. split; [apply (ringspec.wf_nodup _ (so_wf _ Hr))|]. split.
  - intros h Hh Hh'. apply (ringspec.wf_set _ (so_wf _ Hr)) in Hh as (m & Hm & Hh). rewrite (so_config _ Hr) in Hh.
    rewrite (concat_apart _ _ m name h Hnd (so_members _ Hr m Hm) Hin Hh Hh') in Hm. rewrite Hnone in Hm. by destruct Hm.
  - by eapply concat_part.
Qed.

(** An event on a sound ring. *)
Lemma sound_event r ev :
  roomy → sound r → node_Name ev.2 ∈ U →
  ∃ r', match ev.1 with
        | NodeJoin => consistent.Add (member_host ev.2) r
        | NodeLeave => consistent.Remove (node_Name ev.2) r
        | NodeUpdate => Return r
        end = Return r'
    ∧ sound r' ∧ consistent.members r' = follow_one (consistent.members r) ev.
Proof.
  intros Hro Hr Hin. destruct ev as [ev nd]. unfold follow_one. simpl in *.
  pose proof (so_wf _ Hr) as Hwf. pose proof (ro_size Hro) as Hsz.
  pose proof (sound_le r Hro Hr) as Hle.
  destruct ev.
  - destruct (consistent.members r !! node_Name nd) as [m|] eqn:Hm.
    { exists r. unfold consistent.Add. change (String_of (member_host nd)) with (node_Name nd).
      by rewrite Hm. }
    destruct (ringspec.Add_spec (member_host nd) r) as (r' & avg & -> & Hwf' & Hmem & Havg & Has & Hcfg);
      [done|done|rewrite (so_config _ Hr)..|].
    { apply (ro_replicas Hro). }
    { apply (ro_load Hro). }
    { split; [by apply (sound_size r (node_Name nd))|lia]. }
    { by apply sound_apart. }
    exists r'. split; [done|]. split; [|done].
    split; [done|by rewrite Hcfg, (so_config _ Hr)| |intros _; by exists avg].
    intros name. rewrite Hmem. intros [<-|[_ ?]]%lookup_insert_is_Some; [done|by apply (so_members _ Hr)].
  - destruct (consistent.members r !! node_Name nd) as [m|] eqn:Hm; last first.
    { exists r. unfold consistent.Remove. rewrite Hm. split; [done|]. split; [done|]. by rewrite delete_id. }
    destruct (ringspec.Remove_spec (node_Name nd) r) as (r' & -> & Hwf' & Hmem & _ & Has & Hcfg);
      [done|by exists m|rewrite (so_config _ Hr)..|].
    { apply (ro_replicas Hro). }
    { apply (ro_load Hro). }
    { lia. }
    exists r'. split; [done|]. split; [|done].
    split; [done|by rewrite Hcfg, (so_config _ Hr)| |done].
    intros name. rewrite Hmem. intros [_ ?]%lookup_delete_is_Some. by apply (so_members _ Hr).
  - by exists r.
Qed.

Lemma listen_follows n evs : ∀ (c : cluster) db,
  roomy → nodes c !! n = Some db → isCoordinator db = Return false → sound (ring db) →
  Forall (fun ev => node_Name ev.2 ∈ U) evs →
  ∃ r, listenMemberlistEvents sv n evs c = Return (tt, with_node n (set_ring r db) c)
    ∧ sound r ∧ consistent.members r = foldl follow_one (consistent.members (ring db)) evs.
Proof.
  induction evs as [|ev evs IH]; intros c db Hro Hn Hco Hr HU.
  { exists (ring db). assert (set_ring (ring db) db = db) as -> by by destruct db.
    by rewrite with_node_id. }
  apply Forall_cons in HU as [Hev HU]. destruct (sound_event _ ev Hro Hr Hev) as (r1 & Hrun & Hr1 & Hm1).
  destruct (IH (with_node n (set_ring r1 db) c) (set_ring r1 db) Hro (with_node_lookup _ _ _) Hco Hr1 HU)
    as (r & Hrun2 & Hr2 & Hm2).
  exists r. cbn [listenMemberlistEvents foldl].
  setoid_rewrite (bind_run _ _ _ tt (with_node n (set_ring r1 db) c)); last first.
  { unfold processNodeEvent. setoid_rewrite (bind_run _ _ _ _ _ (get_node_run _ _ _ Hn)).
    destruct ev as [[] nd]; simpl in Hrun.
    - by setoid_rewrite (bind_run _ _ _ _ _ (lift_run _ _ _ Hrun)).
    - by setoid_rewrite (bind_run _ _ _ _ _ (lift_run _ _ _ Hrun)).
    - injection Hrun as <-. assert (set_ring (ring db) db = db) as -> by by destruct db.
      by rewrite with_node_id. }
  setoid_rewrite (bind_run _ _ _ tt (with_node n (set_ring r1 db) c)); last first.
  { unfold updateRouting. setoid_rewrite (bind_run _ _ _ _ _ (get_node_run _ _ _ (with_node_lookup _ _ _))).
    by setoid_rewrite (bind_run _ _ _ _ _ (lift_run _ _ _ Hco)). }
  rewrite Hrun2, with_node_twice. split; [done|]. split; [done|]. rewrite Hm2. simpl. by rewrite Hm1.
Qed.

(** C32: the ring of a node follows the members: when the listener of a node that is not the
    coordinator has received what memberlist has sent, the members of its ring are those
    that the joins, leaves and updates give (an update replaces the host), every partition
    has an owner among them and none has more than the average load; nothing else on the
    node changes, and no event makes it crash.  The hosts are no more than the partitions,
    and the hashes of their replicas do not collide. *)
Theorem ring_follows_members n (c : cluster) db evs :
  roomy → nodes c !! n = Some db → isCoordinator db = Return false → sound (ring db) →
  Forall (fun ev => node_Name ev.2 ∈ U) evs →
  ∃ r, listenMemberlistEvents sv n (expand_all n evs) c = Return (tt, with_node n (set_ring r db) c)
    ∧ sound r ∧ consistent.members r = foldl (follow n) (consistent.members (ring db)) evs.
Proof.
  intros Hro Hn Hco Hr HU. rewrite <-follow_expand. apply listen_follows; [done..|].
  apply Forall_forall. intros ev Hev. apply list_elem_of_In, in_concat in Hev as (l & Hl & Hev).
  apply in_map_iff in Hl as (ev0 & <- & Hin%list_elem_of_In). rewrite Forall_forall in HU.
  specialize (HU ev0 Hin). unfold expand in Hev. case_decide; [done|].
  destruct ev0 as [[] nd]; simpl in *; by repeat destruct Hev as [<-|Hev].
Qed.
End ring.
End dspec.
