(* ===== verification/EvictionSpec.v ===== *)
(** What the eviction of expired keys promises, on a node that keeps no backups. *)

From S2P Require Export Eviction NodeSpec.

Module evspec.
Export eviction node.

(** The node writes to no other node: it keeps no backups and has no previous owners. *)
Record alone {S N : Type} (db : olric.Olric S N) : Prop := {
  al_backups : BackupCount (config db) = 0;
  al_mode : OperationMode (config db) = OpInMemory;
  al_owners h : ∃ o, getPartitionOwners db h = Return [o]
}.

Section evspec.
Context {S N : Type} `{!KV S} `{!KVLaws S} `{!Snap S N} `{!Env} `{!RangeOrder (list byte)}.
Abbreviation M := (olric.M S N).
Abbreviation Olric := (olric.Olric S N).
Abbreviation cluster := (olric.cluster S N).
Context (sv : list byte → Message → M (option Message)).

Lemma alone_set_dm a d (db : Olric) : alone db → alone (set_dm a d db).
Proof. by intros []. Qed.

(** The store [s] has lost expired bindings and nothing else. *)
Record evicted (db : Olric) (s s' : S) : Prop := {
  ev_ok : kv_ok s';
  ev_single h : kv_single s' h;
  ev_tables : (kv_tables s ≤ kv_tables s')%nat;
  ev_map h : kv_map s' !! h = kv_map s !! h
    ∨ kv_map s' !! h = None ∧ ∃ v, kv_map s !! h = Some v ∧ isKeyExpired db (vd_TTL v) = true
}.

Definition tidy (s : S) : Prop := kv_ok s ∧ ∀ h, kv_single s h.

Lemma evicted_refl db s : tidy s → evicted db s s.
Proof. intros [Hok Hs]. split; [done|done|done|]. by left. Qed.

Lemma evicted_trans db s1 s2 s3 : evicted db s1 s2 → evicted db s2 s3 → evicted db s1 s3.
Proof.
  intros [_ _ Ht1 Hm1] [Hok Hs Ht2 Hm2]. split; [done|done|lia|]. intros h.
  destruct (Hm1 h) as [E1|[E1 Hx1]], (Hm2 h) as [E2|[E2 Hx2]].
  - left. by rewrite E2.
  - right. split; [done|]. by rewrite <-E1.
  - right. split; [by rewrite E2|done].
  - right. by split.
Qed.

Lemma evicted_set_dm a d db s s' : evicted (set_dm a d db) s s' → evicted db s s'.
Proof. by intros []. Qed.

(** How many bindings are gone. *)
Definition counted (s s' : S) (k : Z) : Prop :=
  Z.of_nat (size (kv_map s')) + k = Z.of_nat (size (kv_map s)).

Lemma same_store n a d (db : Olric) (c : cluster) :
  nodes c !! n = Some db → heap db !! a = Some d →
  with_node n (set_dm a (with_str (dm_str d) d) db) c = c.
Proof.
  intros Hn Hd. assert (with_str (dm_str d) d = d) as -> by by destruct d.
  assert (set_dm a d db = db) as ->; [|by apply with_node_id].
  unfold set_dm. rewrite list_insert_id by done. by destruct db.
Qed.

Lemma delKeyVal_run w n a h name key (c : cluster) db d s' :
  nodes c !! n = Some db → alone db → heap db !! a = Some d → w h = false →
  kv_delete (dm_str d) h = Return (s', None) →
  delKeyVal (KV0 := under_range w) sv n a h name key c = Return (None, with_node n (set_dm a (with_str s' d) db) c).
Proof.
  intros Hn [Hb Hm Hown] Hd Hw Hdel. destruct (Hown h) as [o Ho].
  unfold delKeyVal. at_node Hn. calc Ho. rewrite decide_False by done.
  change (previous [o]) with (@nil host). cbn [delete_loop]. setoid_rewrite (bind_run _ _ _ None c); [|done].
  rewrite Hb. cbn [negb Z.eqb]. setoid_rewrite (bind_run _ _ _ None c); [|done].
  setoid_rewrite (bind_run _ _ _ tt c); [|by eapply oplog_skipped].
  cbn [kv_delete under_range]. rewrite Hw.
  by setoid_rewrite (bind_run _ _ _ _ _ (str_call_run _ _ _ _ _ _ _ _ Hn Hd Hdel)).
Qed.

(** The nested read lock waits for the writer that waits. *)
Lemma delKeyVal_waits w n a h name key (c : cluster) db d :
  nodes c !! n = Some db → alone db → heap db !! a = Some d → w h = true →
  delKeyVal (KV0 := under_range w) sv n a h name key c = Running.
Proof.
  intros Hn [Hb Hm Hown] Hd Hw. destruct (Hown h) as [o Ho].
  unfold delKeyVal. at_node Hn. calc Ho. rewrite decide_False by done.
  change (previous [o]) with (@nil host). cbn [delete_loop]. setoid_rewrite (bind_run _ _ _ None c); [|done].
  rewrite Hb. cbn [negb Z.eqb]. setoid_rewrite (bind_run _ _ _ None c); [|done].
  setoid_rewrite (bind_run _ _ _ tt c); [|by eapply oplog_skipped].
  cbn [kv_delete under_range]. rewrite Hw. unfold str_call, mbind, M_bind.
  by rewrite (get_dm_run _ _ _ _ _ Hn Hd).
Qed.

Lemma delKeyVal_alone w n a h name key (c : cluster) db d v :
  w h = false → nodes c !! n = Some db → alone db → heap db !! a = Some d → tidy (dm_str d) →
  kv_map (dm_str d) !! h = Some v → isKeyExpired db (vd_TTL v) = true →
  ∃ s', delKeyVal (KV0 := under_range w) sv n a h name key c
      = Return (None, with_node n (set_dm a (with_str s' d) db) c)
    ∧ evicted db (dm_str d) s' ∧ counted (dm_str d) s' 1.
Proof.
  intros Hw Hn Hal Hd [Hok Hsg] Hv Hexp.
  destruct (kv_delete_ok (dm_str d) h Hok (Hsg h)) as (s' & Hdel & Hok' & Hmap & Hone).
  exists s'. split; [by apply delKeyVal_run|split].
  - split; [done|intros h'; by apply Hone|by eapply kv_delete_tables|]. intros h'. rewrite Hmap.
    destruct (decide (h' = h)) as [->|Hne]; [|left; by rewrite lookup_delete_ne].
    right. rewrite lookup_delete_eq. eauto.
  - unfold counted. rewrite Hmap, map_size_delete_Some by (by exists v).
    assert (size (kv_map (dm_str d)) ≠ 0%nat); [|lia].
    intros E%map_size_empty_inv. by rewrite E, lookup_empty in Hv.
Qed.

Lemma scan_keys_spec w n a name i keys : (∀ h, w h = false) → ∀ kc dc (c : cluster) db d,
  nodes c !! n = Some db → alone db → heap db !! a = Some d → tidy (dm_str d) →
  (i < kv_tables (dm_str d))%nat →
  ∃ kc' k s', scan_keys sv w n a name i keys kc dc c
      = Return ((kc', dc + k), with_node n (set_dm a (with_str s' d) db) c)
    ∧ evicted db (dm_str d) s' ∧ counted (dm_str d) s' k ∧ 0 ≤ k.
Proof.
  intros Hw. induction keys as [|h keys IH]; intros kc dc c db d Hn Hal Hd Ht Hi.
  { exists kc, 0, (dm_str d). rewrite same_store, Z.add_0_r by done. split; [done|].
    split; [by apply evicted_refl|]. split; [|done]. unfold counted. lia. }
  destruct (kv_get_at_ok (dm_str d) i h (proj1 Ht) Hi) as (r & Hget & Hr).
  cbn [scan_keys]. setoid_rewrite (bind_run _ _ _ _ _ (get_dm_run _ _ _ _ _ Hn Hd)).
  setoid_rewrite (bind_run _ _ _ _ _ (lift_run _ _ _ Hget)).
  destruct r as [v|]; [|by apply IH]. specialize (Hr v eq_refl (proj2 Ht h)).
  destruct (maxKcount <=? kc + 1).
  { exists (kc + 1), 0, (dm_str d). rewrite same_store, Z.add_0_r by done. split; [done|].
    split; [by apply evicted_refl|]. split; [|done]. unfold counted. lia. }
  setoid_rewrite (bind_run _ _ _ _ _ (get_node_run _ _ _ Hn)).
  destruct (isKeyExpired db (vd_TTL v)) eqn:Hexp; [|by apply IH].
  destruct (delKeyVal_alone w n a h name (vd_Key v) c db d v (Hw h) Hn Hal Hd Ht Hr Hexp)
    as (s1 & Hdel & Hev1 & Hc1).
  setoid_rewrite (bind_run _ _ _ _ _ Hdel).
  destruct (IH (kc + 1) (dc + 1) (with_node n (set_dm a (with_str s1 d) db) c)
    (set_dm a (with_str s1 d) db) (with_str s1 d)) as (kc' & k & s' & Hrun & Hev2 & Hc2 & Hk).
  { apply with_node_lookup. }
  { by apply alone_set_dm. }
  { by eapply set_dm_lookup. }
  { exact (conj (ev_ok _ _ _ Hev1) (ev_single _ _ _ Hev1)). }
  { pose proof (ev_tables _ _ _ Hev1). simpl. lia. }
  rewrite with_node_twice, set_dm_twice in Hrun.
  exists kc', (1 + k), s'. setoid_rewrite Hrun. rewrite Z.add_assoc. split; [done|].
  split; [exact (evicted_trans _ _ _ _ Hev1 (evicted_set_dm _ _ _ _ _ Hev2))|]. split; [|lia]. unfold counted in *. simpl in Hc2. lia.
Qed.

Lemma scan_tables_spec w n a name i : (∀ i h, w i h = false) → ∀ kc dc (c : cluster) db d,
  nodes c !! n = Some db → alone db → heap db !! a = Some d → tidy (dm_str d) →
  (i ≤ kv_tables (dm_str d))%nat →
  ∃ k s', scan_tables sv w n a name i kc dc c
      = Return (dc + k, with_node n (set_dm a (with_str s' d) db) c)
    ∧ evicted db (dm_str d) s' ∧ counted (dm_str d) s' k ∧ 0 ≤ k.
Proof.
  intros Hw. induction i as [|i IH]; intros kc dc c db d Hn Hal Hd Ht Hi.
  { exists 0, (dm_str d). rewrite same_store, Z.add_0_r by done. split; [done|].
    split; [by apply evicted_refl|]. split; [|done]. unfold counted. lia. }
  cbn [scan_tables]. setoid_rewrite (bind_run _ _ _ _ _ (get_dm_run _ _ _ _ _ Hn Hd)).
  destruct (scan_keys_spec (w i) n a name i (kv_keys_at (dm_str d) i) (Hw i) kc dc c db d Hn Hal Hd Ht ltac:(lia))
    as (kc1 & k1 & s1 & Hrun1 & Hev1 & Hc1 & Hk1).
  setoid_rewrite (bind_run _ _ _ _ _ Hrun1). cbn [fst snd].
  pose proof (ev_tables _ _ _ Hev1).
  destruct (IH kc1 (dc + k1) (with_node n (set_dm a (with_str s1 d) db) c)
    (set_dm a (with_str s1 d) db) (with_str s1 d) (with_node_lookup _ _ _) (alone_set_dm _ _ _ Hal)
    (set_dm_lookup _ _ _ _ Hd) (conj (ev_ok _ _ _ Hev1) (ev_single _ _ _ Hev1)) ltac:(simpl; lia))
    as (k2 & s2 & Hrun2 & Hev2 & Hc2 & Hk2).
  rewrite with_node_twice, set_dm_twice in Hrun2. exists (k1 + k2), s2.
  setoid_rewrite Hrun2. rewrite Z.add_assoc. split; [done|].
  split; [exact (evicted_trans _ _ _ _ Hev1 (evicted_set_dm _ _ _ _ _ Hev2))|]. split; [|lia]. unfold counted in *. simpl in Hc2. lia.
Qed.

Lemma scan_rounds_spec n a name fuel : ∀ done w total (c : cluster) db d,
  (∀ r i h, w r i h = false) → nodes c !! n = Some db → alone db → heap db !! a = Some d → tidy (dm_str d) →
  (size (kv_map (dm_str d)) < fuel)%nat →
  ∃ k s', scan_rounds sv fuel done w n a name total c
      = Return (total + k, with_node n (set_dm a (with_str s' d) db) c)
    ∧ evicted db (dm_str d) s' ∧ counted (dm_str d) s' k.
Proof.
  induction fuel as [|fuel IH]; intros done w total c db d Hw Hn Hal Hd Ht Hf; [lia|].
  cbn [scan_rounds]. destruct (done 0%nat).
  { exists 0, (dm_str d). rewrite same_store, Z.add_0_r by done. split; [done|].
    split; [by apply evicted_refl|]. unfold counted. lia. }
  destruct (scan_tables_spec (w 0%nat) n a name (kv_tables (dm_str d)) (Hw 0%nat) 0 0 c db d Hn Hal Hd Ht ltac:(lia))
    as (k1 & s1 & Hrun1 & Hev1 & Hc1 & Hk1).
  setoid_rewrite (bind_run _ _ _ (0 + k1) (with_node n (set_dm a (with_str s1 d) db) c)); last first.
  { unfold janitor. by setoid_rewrite (bind_run _ _ _ _ _ (get_dm_run _ _ _ _ _ Hn Hd)). }
  cbn beta zeta. rewrite Z.add_0_l. destruct (Z.leb_spec (maxKcount / 4) k1) as [Hmore|]; last first.
  { exists k1, s1. by split. }
  change (maxKcount / 4) with 5 in Hmore. unfold counted in Hc1.
  destruct (IH (fun k => done (Datatypes.S k)) (fun k => w (Datatypes.S k)) (total + k1) (with_node n (set_dm a (with_str s1 d) db) c)
    (set_dm a (with_str s1 d) db) (with_str s1 d) (fun r => Hw (Datatypes.S r)) (with_node_lookup _ _ _)
    (alone_set_dm _ _ _ Hal)
    (set_dm_lookup _ _ _ _ Hd) (conj (ev_ok _ _ _ Hev1) (ev_single _ _ _ Hev1)) ltac:(simpl; lia))
    as (k2 & s2 & Hrun2 & Hev2 & Hc2).
  rewrite with_node_twice, set_dm_twice in Hrun2. exists (k1 + k2), s2.
  setoid_rewrite Hrun2. rewrite Z.add_assoc. split; [done|].
  split; [exact (evicted_trans _ _ _ _ Hev1 (evicted_set_dm _ _ _ _ _ Hev2))|]. unfold counted in *. simpl in Hc2. lia.
Qed.

End evspec.

(** ** On the storage engine *)
Section engine.
Context `{Granting} `{!Codec storage.transport} `{!RangeOrder Z} `{!RangeOrder (list byte)}.
Context {N : Type} `{!Snap storage.Storage N} `{!Env}.
Abbreviation M := (olric.M storage.Storage N).
Abbreviation cluster := (olric.cluster storage.Storage N).
Context (sv : list byte → Message → M (option Message)).

Lemma get_at_run (s : storage.Storage) i t h :
  storage.wf s → storage.tables s !! i = Some t → kv_get_at s i h = Return (table.abs t !! h).
Proof.
  intros [_ Hts] Ht. cbn. rewrite Ht. rewrite Forall_lookup in Hts.
  by rewrite storage.table_get_abs by by eapply Hts.
Qed.

(** The visit of a table whose only key is [h]: a live value is left, an expired one
    deletes the key. *)
Lemma scan_one_key wt n name a i kc dc (c : cluster) db d t h o v s' :
  nodes c !! n = Some db → alone db → heap db !! a = Some d → storage.wf (dm_str d) →
  storage.tables (dm_str d) !! i = Some t → hkeys t = {[h := o]} → table.abs t !! h = Some v →
  kc < 10 → kv_delete (dm_str d) h = Return (s', None) →
  scan_keys sv wt n a name i (kv_keys_at (dm_str d) i) kc dc c =
    if isKeyExpired db (vd_TTL v)
    then if wt h then Running
         else Return ((kc + 1, dc + 1), with_node n (set_dm a (with_str s' d) db) c)
    else Return ((kc + 1, dc), c).
Proof.
  intros Hn Hal Hd Hwf Ht Hk Hv Hkc Hdel. cbn [kv_keys_at storage_kv].
  rewrite Ht, Hk, range_keys_singleton. cbn [scan_keys].
  setoid_rewrite (bind_run _ _ _ _ _ (get_dm_run _ _ _ _ _ Hn Hd)).
  setoid_rewrite (bind_run _ _ _ _ _ (lift_run _ _ _ (get_at_run (dm_str d) i t h Hwf Ht))).
  rewrite Hv. cbn beta iota zeta. unfold maxKcount.
  destruct (Z.leb_spec 20 (kc + 1)); [lia|].
  setoid_rewrite (bind_run _ _ _ _ _ (get_node_run _ _ _ Hn)).
  destruct (isKeyExpired db (vd_TTL v)); [|done]. destruct (wt h) eqn:Hw.
  - unfold mbind at 1, M_bind. by rewrite (delKeyVal_waits sv wt n a h name (vd_Key v) c db d).
  - by setoid_rewrite (bind_run _ _ _ _ _ (delKeyVal_run sv wt n a h name (vd_Key v) c db d s' Hn Hal Hd Hw Hdel)).
Qed.

(** The eviction deletes a live value when an older table still holds an expired value
    of the key: it visits the old copy and deletes the key, which removes the current
    value, and leaves the expired one. *)
Theorem eviction_deletes_a_live_value fuel n name a (c : cluster) db d t0 t1 o0 o1 h v w :
  nodes c !! n = Some db → alone db → heap db !! a = Some d → dm_mu d = false →
  storage.wf (dm_str d) → storage.tables (dm_str d) = [t0; t1] →
  hkeys t0 = {[h := o0]} → hkeys t1 = {[h := o1]} →
  table.abs t1 !! h = Some v → table.abs t0 !! h = Some w →
  isKeyExpired db (vd_TTL v) = false → isKeyExpired db (vd_TTL w) = true →
  ∃ s', scanDMapForEviction sv (S fuel) (fun _ => false) (fun _ _ _ => false) n name a c
      = Return (1, with_node n (set_dm a (with_str s' d) db) c)
    ∧ storage.contents (dm_str d) !! h = Some v ∧ storage.contents s' !! h = Some w.
Proof.
  intros Hn Hal Hd Hmu Hwf Hts Hk0 Hk1 Hv Hw Hlive Hexp.
  assert (storage.copies (dm_str d) h = [v; w]) as Hcp.
  { unfold storage.copies, storage.copies_in. rewrite Hts. simpl. by rewrite Hv, Hw. }
  destruct (storage.Delete_spec mmap (dm_str d) h Hwf) as (s' & err & Hdel & _ & Hk & _ & Herr).
  destruct Herr as [-> | (k & code & Hm & _)]; [|by rewrite mmap_granted in Hm].
  exists s'. split; last first.
  { rewrite !storage.lookup_contents, Hk, Hcp. done. }
  set (d1 := with_mu true d). set (db1 := set_dm a d1 db). set (c1 := with_node n db1 c).
  assert (nodes c1 !! n = Some db1) as Hn1 by apply with_node_lookup.
  assert (heap db1 !! a = Some d1) as Hd1 by by eapply set_dm_lookup.
  assert (get_dm n a c1 = Return (d1, c1)) as Hg by by apply (get_dm_run n db1).
  assert (kv_delete (dm_str d1) h = Return (s', None)) as Hkv by exact Hdel.
  pose proof (scan_one_key (fun _ => false) n name a 1 0 0 c1 db1 d1 t1 h o1 v s' Hn1 (alone_set_dm _ _ _ Hal) Hd1
    Hwf ltac:(cbn; by rewrite Hts) Hk1 Hv ltac:(lia) Hkv) as Hone1.
  pose proof (scan_one_key (fun _ => false) n name a 0 1 0 c1 db1 d1 t0 h o0 w s' Hn1 (alone_set_dm _ _ _ Hal) Hd1
    Hwf ltac:(cbn; by rewrite Hts) Hk0 Hw ltac:(lia) Hkv) as Hone0.
  change (isKeyExpired db1) with (isKeyExpired db) in Hone0, Hone1. rewrite Hlive in Hone1.
  rewrite Hexp in Hone0.
  assert (eviction.janitor sv (fun _ _ => false) n a name c1 = Return (1, with_node n (set_dm a (with_str s' d1) db1) c1)) as Hj.
  { unfold eviction.janitor. setoid_rewrite (bind_run _ _ _ _ _ Hg).
    change (kv_tables (dm_str d1)) with (length (storage.tables (dm_str d))). rewrite Hts.
    cbn [length scan_tables]. setoid_rewrite (bind_run _ _ _ _ _ Hg).
    setoid_rewrite (bind_run _ _ _ _ _ Hone1). cbn [fst snd].
    setoid_rewrite (bind_run _ _ _ _ _ Hg). by setoid_rewrite (bind_run _ _ _ _ _ Hone0). }
  unfold scanDMapForEviction. setoid_rewrite (bind_run _ _ _ _ _ (dm_Lock_run _ _ _ _ _ Hn Hd Hmu)).
  fold d1 db1 c1. setoid_rewrite (bind_run _ _ _ 1 (with_node n (set_dm a (with_str s' d1) db1) c1)); last first.
  { cbn [scan_rounds]. by setoid_rewrite (bind_run _ _ _ _ _ Hj). }
  setoid_rewrite (bind_run _ _ _ _ _ (dm_Unlock_run _ _ _ _ (with_str s' d1)
    (with_node_lookup n _ c1) (set_dm_lookup _ _ _ _ Hd1) eq_refl)).
  unfold c1, db1. rewrite !with_node_twice, !set_dm_twice. do 5 f_equal. unfold d1.
  destruct d. simpl in *. by subst.
Qed.
(** The eviction deadlocks when a writer asks for the lock of the storage after [Range] has
    taken it, as the goroutine that merges its tables does: the [Delete] of an expired key
    waits for the writer, the writer for [Range], and [Range] for the [Delete]. *)
Theorem eviction_deadlocks fuel done waiting n name a (c : cluster) db d t o h v :
  nodes c !! n = Some db → alone db → heap db !! a = Some d → dm_mu d = false →
  storage.wf (dm_str d) → storage.tables (dm_str d) = [t] → hkeys t = {[h := o]} →
  table.abs t !! h = Some v → isKeyExpired db (vd_TTL v) = true →
  done 0%nat = false → waiting 0%nat 0%nat h = true →
  scanDMapForEviction sv fuel done waiting n name a c = Running.
Proof.
  intros Hn Hal Hd Hmu Hwf Hts Hk Hv Hexp Hdone Hw. unfold scanDMapForEviction.
  setoid_rewrite (bind_run _ _ _ _ _ (dm_Lock_run _ _ _ _ _ Hn Hd Hmu)).
  destruct (storage.Delete_spec mmap (dm_str d) h Hwf) as (s' & err & Hdel & _ & _ & _ & Herr).
  destruct Herr as [-> | (k & code & Hm & _)]; [|by rewrite mmap_granted in Hm].
  set (d1 := with_mu true d). set (db1 := set_dm a d1 db). set (c1 := with_node n db1 c).
  assert (heap db1 !! a = Some d1) as Hd1 by by eapply set_dm_lookup.
  assert (get_dm n a c1 = Return (d1, c1)) as Hg by (apply (get_dm_run n db1); [apply with_node_lookup|done]).
  pose proof (scan_one_key (waiting 0%nat 0%nat) n name a 0 0 0 c1 db1 d1 t h o v s' (with_node_lookup _ _ _)
    (alone_set_dm _ _ _ Hal) Hd1 Hwf ltac:(cbn; by rewrite Hts) Hk Hv ltac:(lia) Hdel) as Hone.
  change (isKeyExpired db1) with (isKeyExpired db) in Hone. rewrite Hexp, Hw in Hone.
  unfold mbind at 1, M_bind. destruct fuel as [|fuel]; [done|]. cbn [scan_rounds]. rewrite Hdone.
  assert (eviction.janitor sv (waiting 0%nat) n a name c1 = Running) as Hj.
  { unfold eviction.janitor. setoid_rewrite (bind_run _ _ _ _ _ Hg).
    change (kv_tables (dm_str d1)) with (length (storage.tables (dm_str d))). rewrite Hts.
    cbn [length scan_tables]. setoid_rewrite (bind_run _ _ _ _ _ Hg).
    unfold mbind at 1, M_bind. by rewrite Hone. }
  unfold mbind at 1, M_bind. by rewrite Hj.
Qed.
End engine.
End evspec.
