(* ===== verification/LifecycleSpec.v ===== *)
(** What a node finds again when it starts: the maps that were synchronised. *)

From S2P Require Export Lifecycle SnapshotSpec NodeSpec.

Module lifespec.
Export lifecycle snapspec node.

Section lifespec.
Context {S B : Type} `{!KV S} `{!KVLaws S} `{!Badger B} `{!BadgerLaws B} `{!Env}.
Context `{!Codec snapshot.hkeys_map} `{!Codec snapshot.onDiskDMaps} `{!RangeOrder Z}.
Context `{!BirthdateSort} `{!Codec NodeMetadata} `{!RangeOrder (list byte)} `{!Codec (gmap Z route)}.
Context `{!EncodesMaps}.
Abbreviation N := (snapshot.Snapshot B).
Abbreviation M := (olric.M S N).
Abbreviation Olric := (olric.Olric S N).
Abbreviation cluster := (olric.cluster S N).
Abbreviation disk db := (snapshot.db (snapshot db)).

(** A node whose partitions are there and whose disk works. *)
Record restorable (db : Olric) (bk : bool) : Prop := {
  re_disk : bg_ok (disk db);
  re_registered : ∃ d, registered (disk db) (dkey_of bk) d;
  re_parts i : 0 ≤ i < PartitionCount (config db) →
    ∃ p, table_of bk db !! i = Some p ∧ p_id p = i;
  re_refs bk' pid name a : ref db bk' pid name = Some a → (a < length (heap db))%nat
}.

(** The keys of the lists of maps are no keys of a map. *)
Lemma dkey_apart bk partID name h :
  dmapKey partID name ≠ dkey_of bk ∧ bkey_of h ≠ dkey_of bk.
Proof.
  split.
  - unfold dmapKey, dkey_of, snapshot.PrimaryDMapKey, snapshot.BackupDMapKey. by destruct bk.
  - intros Heq. apply (f_equal length) in Heq. rewrite length_bkey in Heq. by destruct bk.
Qed.

Lemma saved_frame (b b' : B) bk partID name (C : gmap Z VData) :
  (∀ k, k ≠ dkey_of bk → bg_map b' !! k = bg_map b !! k) →
  saved (S := S) b partID name C → saved (S := S) b' partID name C.
Proof.
  intros Hsame (hkeys & Hk & [Hdom Hr Hraw]). exists hkeys. split.
  - unfold disk_keys in *. by rewrite Hsame by apply (dkey_apart bk partID name 0).
  - split; [done|done|]. intros h v Hv. rewrite Hsame by apply (dkey_apart bk partID name h).
    by apply Hraw.
Qed.

Lemma table_of_set_snapshot bk x (db : Olric) : table_of bk (set_snapshot x db) = table_of bk db.
Proof. by destruct bk. Qed.

Lemma ref_set_snapshot x (db : Olric) bk pid name :
  ref (set_snapshot x db) bk pid name = ref db bk pid name.
Proof. unfold ref. by rewrite table_of_set_snapshot. Qed.

Lemma view_set_snapshot x (db : Olric) bk pid name :
  view (set_snapshot x db) bk pid name = view db bk pid name.
Proof. unfold view. by rewrite ref_set_snapshot. Qed.

(** Restoring one map. *)
Lemma restoreDMap_ok n bk (c : cluster) db partID name str :
  nodes c !! n = Some db → restorable db bk → 0 ≤ partID < PartitionCount (config db) →
  ∃ db', restoreDMap n bk partID name str c = Return (None, with_node n db' c)
    ∧ restorable db' bk ∧ config db' = config db
    ∧ (∀ k, k ≠ dkey_of bk → bg_map (disk db') !! k = bg_map (disk db) !! k)
    ∧ ∀ bk' pid name', view db' bk' pid name'
      = if decide (bk' = bk ∧ pid = partID ∧ name' = name) then kv_map str
        else view db bk' pid name'.
Proof.
  intros Hn [Hd (d & Hreg) Hparts Hrefs] Hid. destruct (Hparts partID Hid) as (p & Hp & <-).
  destruct (registerOnBadger_ok (disk db) (dkey_of bk) d (p_id p) name Hd Hreg)
    as (b' & Hrun & Hb' & Hreg' & _ & Hother).
  assert (∃ x, snapshot.RegisterDMap (snapshot db) (dkey_of bk) (p_id p) name (length (heap db))
    = (x, None) ∧ snapshot.db x = b') as (x & Hx & Hxb).
  { unfold snapshot.RegisterDMap. rewrite Hrun.
    destruct (snapshot.workers (snapshot.set_db b' (snapshot db)) !! p_id p); by eexists. }
  set (p' := add_count 1 (set_m (<[name := length (heap db)]> (p_m p)) p)).
  set (dm := mkDmap false (Some locker.newLocker) (Some ∅) str).
  exists (add_dmap bk p' dm (set_snapshot x db)). split; [|split; [|split; [done|split]]].
  - assert (part_at bk db (p_id p) = Return p) as Hat by (unfold part_at; by rewrite Hp).
    unfold restoreDMap. at_node Hn. calc Hat. cbn zeta.
    assert (RegisterDMap (snapshot db) bk (p_id p) name (length (heap db)) = Return (x, None)) as Hr
      by (cbn; by rewrite Hx). calc Hr. done.
  - split.
    + simpl. by rewrite Hxb.
    + eexists. simpl. by rewrite Hxb.
    + intros i Hi. rewrite table_of_add_dmap, table_of_set_snapshot. case_decide as Hc; [|by apply Hparts].
      destruct Hc as [_ ->]. by eexists.
    + intros bk' pid name' a. rewrite (ref_add_dmap bk p p' name) by by rewrite ?table_of_set_snapshot.
      unfold add_dmap. simpl. rewrite length_app. simpl. case_decide; intros Ha.
      * simplify_eq. lia.
      * rewrite ref_set_snapshot in Ha. apply Hrefs in Ha. lia.
  - intros k Hk. simpl. rewrite Hxb. by apply Hother.
  - intros bk' pid name'. rewrite (view_add_dmap bk p p' name); [by rewrite view_set_snapshot|..].
    + by rewrite table_of_set_snapshot.
    + done.
    + done.
    + intros *. rewrite ref_set_snapshot. apply Hrefs.
Qed.

(** The lists of maps that fit the node. *)
Definition in_parts (db : Olric) (l : onDiskDMaps) : Prop :=
  ∀ partID name, has_map l partID name → 0 ≤ partID < PartitionCount (config db).

Lemma restore_loop_ok fuel n bk C l :
  ∀ (c : cluster) db, nodes c !! n = Some db → restorable db bk → compact l → in_parts db l →
  loadable (disk db) l C → count_maps l < Z.of_nat fuel →
  ∃ db', restore_loop fuel n bk l c = Return (None, with_node n db' c)
    ∧ restorable db' bk ∧ config db' = config db
    ∧ (∀ k, k ≠ dkey_of bk → bg_map (disk db') !! k = bg_map (disk db) !! k)
    ∧ ∀ bk' pid name, view db' bk' pid name
      = if decide (bk' = bk ∧ has_map l pid name) then C pid name else view db bk' pid name.
Proof.
  revert l. induction fuel as [|fuel IH]; intros l c db Hn Hre Hc Hin Hload Hlt.
  { pose proof (map_sum_nonneg (fun part : gmap (list byte) unit => Z.of_nat (size part)) l
      (fun part => Zle_0_nat (size part))). unfold count_maps in Hlt. lia. }
  cbn [restore_loop]. setoid_rewrite (bind_run _ _ _ _ _ (get_node_run _ _ _ Hn)).
  destruct (decide (l = ∅)) as [->|Hl].
  { exists db. setoid_rewrite (bind_run _ _ _ _ _ (lift_run _ _ _ (Next_done (snapshot db)))).
    rewrite with_node_id by done. split; [done|]. split; [done|]. split; [done|]. split; [done|].
    intros bk' pid name. rewrite decide_False; [done|]. intros [_ Hh]. unfold has_map in Hh.
    rewrite lookup_empty in Hh. simpl in Hh. rewrite lookup_empty in Hh. by destruct Hh. }
  destruct (Next_ok (snapshot db) l C (re_disk _ _ Hre) Hc Hl Hload)
    as (partID & name & str & Hh & Hnext & _ & Hmap).
  setoid_rewrite (bind_run _ _ _ _ _ (lift_run _ _ _ Hnext)). cbn beta iota.
  destruct (restoreDMap_ok n bk c db partID name str Hn Hre (Hin _ _ Hh))
    as (db1 & Hrun & Hre1 & Hcfg1 & Hdisk1 & Hview1).
  setoid_rewrite (bind_run _ _ _ _ _ Hrun). cbn beta iota.
  destruct (IH (drop_map partID name l) (with_node n db1 c) db1) as (db2 & Hrun2 & Hre2 & Hcfg2 & Hdisk2 & Hview2).
  - apply with_node_lookup.
  - done.
  - by apply compact_drop.
  - intros p nm Hp. rewrite Hcfg1. apply has_map_drop in Hp as [Hp _]. by eapply Hin.
  - intros p nm Hp. apply has_map_drop in Hp as [Hp _]. destruct (Hload p nm Hp) as [Hs Hsm].
    split; [|done]. by eapply saved_frame.
  - rewrite (count_drop l partID name Hh) in Hlt. lia.
  - exists db2. rewrite with_node_twice in Hrun2. split; [done|]. split; [done|].
    split; [congruence|]. split; [intros k Hk; rewrite Hdisk2 by done; by apply Hdisk1|].
    intros bk' pid nm. rewrite Hview2, Hview1.
    pose proof (has_map_drop l partID name pid nm) as Hd.
    destruct (decide (bk' = bk ∧ has_map (drop_map partID name l) pid nm)) as [[-> Hx]|Hx].
    + rewrite decide_True; [done|]. apply Hd in Hx. tauto.
    + destruct (decide (bk' = bk ∧ pid = partID ∧ nm = name)) as [(-> & -> & ->)|Hy].
      * by rewrite decide_True.
      * rewrite decide_False; [done|]. intros [-> Hh']. apply Hx. split; [done|]. apply Hd.
        split; [done|]. intros Heq. simplify_eq. by apply Hy.
Qed.

(** C12: one call of [restoreFromSnapshot], for the primary copies or for the backups, on
    a node that holds no binding: for every map that is registered on its disk, where all
    of them have been synchronised with small values, the node then holds exactly the
    bindings that were saved, and holds no other map. The restoration ends after one round
    per map. *)
Theorem restoreFromSnapshot_correct fuel n bk (c : cluster) db l C :
  nodes c !! n = Some db → restorable db bk → (∀ bk' pid name, view db bk' pid name = ∅) →
  registered (disk db) (dkey_of bk) l → compact l → in_parts db l →
  loadable (disk db) l C → count_maps l < Z.of_nat fuel →
  ∃ db', restoreFromSnapshot fuel n bk c = Return (None, with_node n db' c)
    ∧ ∀ bk' pid name, view db' bk' pid name
      = if decide (bk' = bk ∧ has_map l pid name) then C pid name else ∅.
Proof.
  intros Hn Hre Hempty Hreg Hc Hin Hload Hlt.
  unfold restoreFromSnapshot. setoid_rewrite (bind_run _ _ _ _ _ (get_node_run _ _ _ Hn)).
  cbn [NewLoader snapshot_snap]. unfold snapshot.NewLoader.
  rewrite (bg_get_ok (disk db) _ (re_disk _ _ Hre)). unfold registered in Hreg.
  destruct (bg_map (disk db) !! dkey_of bk) as [raw|].
  - rewrite Hreg. destruct (restore_loop_ok fuel n bk C l c db Hn Hre Hc Hin Hload Hlt)
      as (db' & Hrun & _ & _ & _ & Hview).
    exists db'. split; [done|]. intros. by rewrite Hview, Hempty.
  - subst l. exists db. rewrite decide_True, with_node_id by done. split; [done|].
    intros bk' pid name. rewrite Hempty, decide_False; [done|]. intros [_ Hh]. unfold has_map in Hh.
    rewrite lookup_empty in Hh. simpl in Hh. rewrite lookup_empty in Hh. by destruct Hh.
Qed.
End lifespec.
End lifespec.
