(* ===== verification/ClusterSpec.v ===== *)
(** What the distributed map promises on a settled cluster.

    A cluster is settled when every node knows the same single owner and the same
    backups for every partition and the network delivers every request.  The cluster
    then stands for one finite map per name: the bindings of the owners.  Put, Get and
    Delete, called on any node, are specified by their effect on it. *)

From S2P Require Export NodeSpec.

Module cspec.
Export node.

Section cspec.
Context {S N : Type} `{!KV S} `{!KVLaws S} `{!Snap S N} `{!Env}.
Context `{!BirthdateSort} `{!Codec NodeMetadata} `{!RangeOrder (list byte)} `{!Codec (gmap Z route)}.
Context `{!Codec dmapbox}.
Context {V : Type} `{!Serializer V}.
Abbreviation M := (olric.M S N).
Abbreviation Olric := (olric.Olric S N).
Abbreviation cluster := (olric.cluster S N).
Abbreviation serve := (dispatch.serve (S := S) (N := N) (V := V)).

(** ** One request *)

(** A request as the client sends it and as the server reads it. *)
Definition outgoing (op : Z) (x : option extra) (name key value : list byte) : Message :=
  mkMessage (mkHeader protocol.MagicReq op 0 0 0 0 0) x name key value.
Definition incoming (op : Z) (x x' : option extra) (name key value : list byte) : Message :=
  mkMessage (protocol.write_header (outgoing op x name key value)) x' name key value.

(** The sizes the header of a message can express. *)
Definition fits (max : Z) (name key value : list byte) : Prop :=
  len name < 2 ^ 16 ∧ len key < 2 ^ 16 ∧ len value ≤ max
  ∧ len name + len key + len value + 8 < 2 ^ 32.

Lemma fits_less max name key value : fits max name key value → fits max name key [].
Proof.
  intros (H1 & H2 & H3 & H4). pose proof (len_nonneg value). unfold fits.
  change (len (@nil byte)) with 0. lia.
Qed.

Definition response_ok (max : Z) (resp : Message) : Prop :=
  protocol.Magic (protocol.Hdr resp) = protocol.MagicRes ∧ protocol.Extra resp = None
  ∧ protocol.sizes_ok max resp.

Lemma conn_turn_run sv n req input rest e (c c' : cluster) db resp :
  nodes c !! n = Some db →
  protocol.Read (MaxValueSize (config db)) protocol.zero_message input e = Return (req, None, rest) →
  sv n req c = Return (Some resp, c') →
  conn_turn sv n input e c = Return (Some (protocol.wire resp, rest), c').
Proof.
  intros Hn Hread Hsv. unfold conn_turn, waitForRequest.
  erewrite bind_run; last first.
  { at_node Hn. calc Hread. cbn beta iota zeta. by rewrite (bind_run _ _ _ _ _ Hsv). }
  done.
Qed.

Lemma read_limit_run n (c : cluster) db :
  nodes c !! n = Some db → read_limit n c = Return (MaxValueSize (config db), c).
Proof. intros Hn. unfold read_limit. at_node Hn. done. Qed.

Lemma handleConn_run sv n req bytes (c c' : cluster) db resp :
  nodes c !! n = Some db →
  protocol.Read (MaxValueSize (config db)) protocol.zero_message bytes protocol.IOEOF
  = Return (req, None, []) →
  sv n req c = Return (Some resp, c') →
  handleConn sv n bytes c = Return (Some (protocol.wire resp), c').
Proof.
  intros Hn Hread Hsv. unfold handleConn. by step (conn_turn_run _ _ _ _ _ _ _ _ _ _ Hn Hread Hsv).
Qed.

Lemma read_outgoing_rest max op x x' name key value rest e :
  fits max name key value → 0 ≤ op < 2 ^ 8 →
  protocol.reads_extra (protocol.write_header (outgoing op x name key value))
    (protocol.xbytes (outgoing op x name key value)) None x' →
  protocol.Read max protocol.zero_message (protocol.wire (outgoing op x name key value) ++ rest) e
  = Return (incoming op x x' name key value, None, rest).
Proof.
  intros (Hn & Hk & Hv & Ht) Hop Hx.
  rewrite (protocol.Read_wire _ _ _ _ _ x'); [done| |by left|done|done].
  repeat split; simpl; try done; lia.
Qed.

Lemma read_outgoing max op x x' name key value :
  fits max name key value → 0 ≤ op < 2 ^ 8 →
  protocol.reads_extra (protocol.write_header (outgoing op x name key value))
    (protocol.xbytes (outgoing op x name key value)) None x' →
  protocol.Read max protocol.zero_message (protocol.wire (outgoing op x name key value))
    protocol.IOEOF = Return (incoming op x x' name key value, None, []).
Proof.
  intros Hf Hop Hx. rewrite <-(app_nil_r (protocol.wire _)). by apply read_outgoing_rest.
Qed.

Lemma read_response_rest max resp rest e :
  response_ok max resp →
  protocol.Read max protocol.zero_message (protocol.wire resp ++ rest) e
  = Return (protocol.written resp, None, rest).
Proof.
  intros (Hm & Hx & Hs).
  rewrite (protocol.Read_wire _ _ _ _ _ None); [|done|by right|done|].
  - unfold protocol.written, protocol.Write. simpl. by rewrite Hx.
  - unfold protocol.reads_extra, protocol.xbytes. rewrite Hx. simpl. by rewrite andb_false_r.
Qed.

Lemma read_response max resp :
  response_ok max resp →
  protocol.Read max protocol.zero_message (protocol.wire resp) protocol.IOEOF
  = Return (protocol.written resp, None, []).
Proof. intros Hr. rewrite <-(app_nil_r (protocol.wire _)). by apply read_response_rest. Qed.

Lemma RequestTo_run sv limit addr op x x' name key value (c c' : cluster) dba max resp :
  nodes c !! addr = Some dba → net c = [] →
  fits (MaxValueSize (config dba)) name key value → 0 ≤ op < 2 ^ 8 →
  protocol.reads_extra (protocol.write_header (outgoing op x name key value))
    (protocol.xbytes (outgoing op x name key value)) None x' →
  sv addr (incoming op x x' name key value) c = Return (Some resp, c') →
  limit c' = Return (max, c') → response_ok max resp →
  RequestTo sv limit addr op (request x name key value) c
  = Return (inr (protocol.written resp), c').
Proof.
  intros Ha Hnet Hfit Hop Hx Hsv Hlim Hresp. unfold RequestTo.
  erewrite bind_run; last first.
  { unfold next_fault. by rewrite Hnet. }
  cbn beta iota. erewrite bind_run; last first.
  { unfold is_up. by rewrite Ha, bool_decide_eq_true_2. }
  cbn [negb]. erewrite bind_run; last first.
  { apply (handleConn_run _ _ _ _ _ _ _ _ Ha (read_outgoing _ _ _ _ _ _ _ Hfit Hop Hx) Hsv). }
  cbn beta iota. step Hlim. calc (read_response _ _ Hresp). done.
Qed.

Lemma requestTo_run sv n addr op x x' name key value (c c' : cluster) db dba db' resp :
  nodes c !! n = Some db → nodes c !! addr = Some dba → net c = [] →
  fits (MaxValueSize (config dba)) name key value → 0 ≤ op < 2 ^ 8 →
  protocol.reads_extra (protocol.write_header (outgoing op x name key value))
    (protocol.xbytes (outgoing op x name key value)) None x' →
  sv addr (incoming op x x' name key value) c = Return (Some resp, c') →
  nodes c' !! n = Some db' → response_ok (MaxValueSize (config db')) resp →
  requestTo sv n addr op (request x name key value) c
  = Return (check_status (protocol.written resp), c').
Proof.
  intros Hn Ha Hnet Hfit Hop Hx Hsv Hn' Hresp. unfold requestTo.
  rewrite (bind_run _ _ _ (inr (protocol.written resp)) c'); [done|].
  by eapply RequestTo_run; [..|by apply read_limit_run|].
Qed.

(** ** Settled clusters *)
Context (cfg : Config) (owner : Z → host) (bowners : Z → list host).

Definition pid (h : Z) : Z := h mod PartitionCount cfg.

Record settled (c : cluster) : Prop := {
  st_net : net c = [];
  st_node n db : nodes c !! n = Some db →
    wf_node None db ∧ config db = cfg ∧ bcx db = BootCanceled ∧ Name (this db) = n;
  st_owners n db i : nodes c !! n = Some db → 0 ≤ i < PartitionCount cfg →
    p_owners <$> partitions db !! i = Some [owner i]
    ∧ p_owners <$> backups db !! i = Some (bowners i);
  st_up i : 0 ≤ i < PartitionCount cfg →
    ∃ db, nodes c !! Name (owner i) = Some db ∧ this db = owner i;
  st_bup i b : 0 ≤ i < PartitionCount cfg → b ∈ bowners i → is_Some (nodes c !! Name b);
  st_apart i : 0 ≤ i < PartitionCount cfg →
    NoDup (map Name (bowners i)) ∧ Name (owner i) ∉ map Name (bowners i)
}.

(** The nodes keep everything but their maps. *)
Definition evolves (c c' : cluster) : Prop :=
  net c' = net c ∧ ∀ n,
  match nodes c !! n, nodes c' !! n with
  | Some db, Some db' => same_node db db' ∧ (wf_node None db → wf_node None db')
                         ∧ keeps_locks db db'
  | None, None => True
  | _, _ => False
  end.

#[export] Instance evolves_preorder : PreOrder evolves.
Proof.
  split.
  - intros c. split; [done|]. intros n. by destruct (nodes c !! n).
  - intros c1 c2 c3 [Hn1 Hx1] [Hn2 Hx2]. split; [congruence|]. intros n.
    specialize (Hx1 n). specialize (Hx2 n).
    destruct (nodes c1 !! n), (nodes c2 !! n), (nodes c3 !! n); try done.
    destruct Hx1 as (Hx1 & ? & Hk1), Hx2 as (Hx2 & ? & Hk2). split; [by rewrite Hx1|].
    split; [tauto|by etrans].
Qed.

Lemma evolves_with_node n db db' (c : cluster) :
  nodes c !! n = Some db → same_node db db' → wf_node None db' → keeps_locks db db' →
  evolves c (with_node n db' c).
Proof.
  intros Hn Hs Hwf Hk. split; [done|]. intros m. simpl. destruct (decide (m = n)) as [->|Hne].
  - by rewrite lookup_insert_eq, Hn.
  - rewrite lookup_insert_ne by done. by destruct (nodes c !! m).
Qed.

Lemma evolves_node (c c' : cluster) n db :
  evolves c c' → nodes c !! n = Some db →
  ∃ db', nodes c' !! n = Some db' ∧ same_node db db' ∧ (wf_node None db → wf_node None db')
    ∧ keeps_locks db db'.
Proof.
  intros [_ He] Hn. specialize (He n). rewrite Hn in He.
  destruct (nodes c' !! n) as [db'|]; [|done]. by exists db'.
Qed.

(** The same, but for the named locks. *)
Definition shifts (c c' : cluster) : Prop :=
  net c' = net c ∧ ∀ n,
  match nodes c !! n, nodes c' !! n with
  | Some db, Some db' => same_node db db' ∧ (wf_node None db → wf_node None db')
  | None, None => True
  | _, _ => False
  end.

#[export] Instance shifts_preorder : PreOrder shifts.
Proof.
  split.
  - intros c. split; [done|]. intros n. by destruct (nodes c !! n).
  - intros c1 c2 c3 [Hn1 Hx1] [Hn2 Hx2]. split; [congruence|]. intros n.
    specialize (Hx1 n). specialize (Hx2 n).
    destruct (nodes c1 !! n), (nodes c2 !! n), (nodes c3 !! n); try done.
    destruct Hx1 as [Hx1 ?], Hx2 as [Hx2 ?]. split; [by rewrite Hx1|tauto].
Qed.

Lemma shifts_with_node n db db' (c : cluster) :
  nodes c !! n = Some db → same_node db db' → wf_node None db' → shifts c (with_node n db' c).
Proof.
  intros Hn Hs Hwf. split; [done|]. intros m. simpl. destruct (decide (m = n)) as [->|Hne].
  - by rewrite lookup_insert_eq, Hn.
  - rewrite lookup_insert_ne by done. by destruct (nodes c !! m).
Qed.

Lemma shifts_node (c c' : cluster) n db :
  shifts c c' → nodes c !! n = Some db →
  ∃ db', nodes c' !! n = Some db' ∧ same_node db db' ∧ (wf_node None db → wf_node None db').
Proof.
  intros [_ He] Hn. specialize (He n). rewrite Hn in He.
  destruct (nodes c' !! n) as [db'|]; [|done]. by exists db'.
Qed.

Lemma evolves_shifts c c' : evolves c c' → shifts c c'.
Proof.
  intros [Hn He]. split; [done|]. intros n. specialize (He n).
  destruct (nodes c !! n), (nodes c' !! n); tauto.
Qed.

Lemma settled_shifts c c' : settled c → shifts c c' → settled c'.
Proof.
  intros [Hnet Hnode Hown Hup Hbup Hap] [Hn He]. split.
  - by rewrite Hn.
  - intros n db' Hdb. specialize (He n). rewrite Hdb in He.
    destruct (nodes c !! n) as [db|] eqn:E; [|done]. destruct He as [[] Hw].
    destruct (Hnode n db E) as (? & ? & ? & ?).
    split; [by apply Hw|]. split; [congruence|]. split; congruence.
  - intros n db' i Hdb Hi. specialize (He n). rewrite Hdb in He.
    destruct (nodes c !! n) as [db|] eqn:E; [|done]. destruct He as [Hs _].
    destruct (Hown n db i E Hi) as [Hx1 Hx2].
    pose proof (same_owners _ _ Hs false i) as Hx3. pose proof (same_owners _ _ Hs true i) as Hx4.
    simpl in Hx3, Hx4. by rewrite Hx3, Hx4.
  - intros i Hi. destruct (Hup i Hi) as (db & Hdb & Ht). specialize (He (Name (owner i))).
    rewrite Hdb in He. destruct (nodes c' !! Name (owner i)) as [db'|]; [|done].
    exists db'. split; [done|]. by rewrite (same_this _ _ (proj1 He)).
  - intros i b Hi Hb. destruct (Hbup i b Hi Hb) as [db Hdb]. specialize (He (Name b)).
    rewrite Hdb in He. by destruct (nodes c' !! Name b).
  - done.
Qed.

Lemma settled_evolves c c' : settled c → evolves c c' → settled c'.
Proof. intros Hc He. eapply settled_shifts; [done|]. by apply evolves_shifts. Qed.

Lemma pid_range n db (c : cluster) h :
  settled c → nodes c !! n = Some db → 0 ≤ pid h < PartitionCount cfg.
Proof.
  intros Hc Hn. destruct (st_node _ Hc n db Hn) as (Hwf & Hcfg & _).
  pose proof (wf_pc _ _ Hwf). rewrite Hcfg in *. by apply Z.mod_pos_bound.
Qed.

Lemma pid_of_cfg (db : Olric) h : config db = cfg → pid_of db h = pid h.
Proof. unfold pid_of. by intros ->. Qed.

(** ** Locating a key *)
Lemma owners_ok n db (c : cluster) h :
  settled c → nodes c !! n = Some db →
  getPartitionOwners db h = Return [owner (pid h)]
  ∧ getBackupPartitionOwners db h = Return (bowners (pid h)).
Proof.
  intros Hc Hn. destruct (st_node _ Hc n db Hn) as (Hwf & Hcfg & _).
  destruct (st_owners _ Hc n db (pid h) Hn (pid_range _ _ _ _ Hc Hn)) as [Hx1 Hx2].
  destruct (part_of_ok None db false h Hwf) as (p & Hp & Htp & _).
  destruct (part_of_ok None db true h Hwf) as (q & Hq & Htq & _).
  rewrite pid_of_cfg in Htp, Htq by done. simpl in Htp, Htq. rewrite Htp in Hx1. rewrite Htq in Hx2.
  simpl in Hx1, Hx2. injection Hx1 as Hx1. injection Hx2 as Hx2.
  unfold getPartitionOwners, getBackupPartitionOwners. simpl in Hp, Hq. rewrite Hp, Hq. simpl.
  by rewrite Hx1, Hx2.
Qed.

Lemma locateKey_ok n db (c : cluster) name key :
  settled c → nodes c !! n = Some db →
  let h := getHKey name key in locateKey db name key = Return (inr (owner (pid h), h)).
Proof.
  intros Hc Hn h. destruct (st_node _ Hc n db Hn) as (Hwf & Hcfg & Hb & _).
  destruct (owners_ok n db c h Hc Hn) as [Ho _]. unfold getPartitionOwners in Ho.
  unfold locateKey, locateHKey, await_bootstrap. fold h. rewrite Hb. simpl.
  destruct (getPartition db h) as [p| |]; try done. simpl in Ho |- *. injection Ho as ->. done.
Qed.

(** A host compares equal to the node it names exactly when it is that node. *)
Lemma owner_cmp n db (c : cluster) i :
  settled c → nodes c !! n = Some db → 0 ≤ i < PartitionCount cfg →
  hostCmp (owner i) (this db) = bool_decide (Name (owner i) = n).
Proof.
  intros Hc Hn Hi. destruct (st_node _ Hc n db Hn) as (_ & _ & _ & Hname).
  destruct (st_up _ Hc i Hi) as (dbo & Ho & Ht). unfold hostCmp. rewrite Hname.
  destruct (decide (Name (owner i) = n)) as [E|E].
  - rewrite E in Ho. simplify_eq. rewrite Ht, Z.eqb_refl. by rewrite bool_decide_eq_true_2.
  - by rewrite bool_decide_eq_false_2.
Qed.

(** ** Responses *)
Lemma success_ok max req :
  0 ≤ max → 0 ≤ protocol.Op (protocol.Hdr req) < 2 ^ 8 → response_ok max (protocol.Success req).
Proof. intros. split; [done|]. split; [done|]. repeat split; simpl; try done; lia. Qed.

Lemma error_ok max req status :
  0 ≤ max → 0 ≤ protocol.Op (protocol.Hdr req) < 2 ^ 8 → 0 ≤ status < 2 ^ 8 →
  response_ok max (protocol.Error req status []).
Proof. intros. split; [done|]. split; [done|]. repeat split; simpl; try done; lia. Qed.

Lemma value_ok max req v :
  len v ≤ max → len v + 8 < 2 ^ 32 → 0 ≤ protocol.Op (protocol.Hdr req) < 2 ^ 8 →
  response_ok max (with_value v (protocol.Success req)).
Proof.
  intros. split; [done|]. split; [done|]. repeat split; simpl; try done; try lia.
Qed.

Lemma op_incoming op x x' name key value :
  protocol.Op (protocol.Hdr (incoming op x x' name key value)) = op.
Proof. done. Qed.

Lemma serve_op fuel n req opr (c : cluster) resp c' :
  operation (V := V) (serve fuel) (protocol.Op (protocol.Hdr req)) = Some opr →
  opr n req c = Return (resp, c') →
  serve (Datatypes.S fuel) n req c = Return (Some resp, c').
Proof.
  intros Hop Hrun. cbn [dispatch.serve]. rewrite Hop. by rewrite (bind_run _ _ _ _ _ Hrun).
Qed.

(** ** Sending a value to the backups *)
Definition timeout_extra (timeout : Z) : option extra :=
  if timeout =? nilTimeout then None else Some (protocol.PutExExtra timeout).

(** The extras of [OpPutBackup] are lost on the way. *)
Lemma backup_extra_lost timeout name key value :
  protocol.reads_extra
    (protocol.write_header (outgoing protocol.OpPutBackup (timeout_extra timeout) name key value))
    (protocol.xbytes (outgoing protocol.OpPutBackup (timeout_extra timeout) name key value))
    None None.
Proof.
  unfold protocol.reads_extra, protocol.xbytes, timeout_extra. simpl.
  destruct (timeout =? nilTimeout); [done|]. simpl.
  apply protocol.read_extra_skipped. repeat split; done.
Qed.

(** A backup that can take the value. *)
Definition backup_ready (c : cluster) (h : Z) (name key value : list byte) (b : host) : Prop :=
  ∃ db, nodes c !! Name b = Some db ∧ wf_node None db ∧ config db = cfg
    ∧ view_room db true (pid h) name (mkVData key 0 value).

(** The map [name] of the node [n] has become [f] of what it was, by an operation on the
    key [h]. *)
Definition changed (c c' : cluster) (n : list byte) (bk : bool) (h : Z) (name : list byte)
    (f : gmap Z VData → gmap Z VData) : Prop :=
  ∃ db db', nodes c !! n = Some db ∧ nodes c' !! n = Some db'
    ∧ stored None db db' bk (pid h) name h (f (view db bk (pid h) name)).

Lemma putBackup_request fuel n b c db h name key value timeout :
  h = getHKey name key → nodes c !! n = Some db → config db = cfg → net c = [] →
  fits (MaxValueSize cfg) name key value → Name b ≠ n →
  backup_ready c h name key value b →
  ∃ dbb dbb' resp, nodes c !! Name b = Some dbb
    ∧ requestTo (serve (Datatypes.S fuel)) n (host_String b) protocol.OpPutBackup
        (request (timeout_extra timeout) name key value) c
      = Return (inr resp, with_node (Name b) dbb' c)
    ∧ stored None dbb dbb' true (pid h) name h (<[h := mkVData key 0 value]> (view dbb true (pid h) name)).
Proof.
  intros Hh Hn Hcfg Hnet Hfit Hne (dbb & Hb & Hwf & Hbc & Hroom).
  set (req := incoming protocol.OpPutBackup (timeout_extra timeout) None name key value).
  rewrite <-(pid_of_cfg dbb) in Hroom by done. rewrite Hh in Hroom.
  destruct (putBackup_spec None (Name b) dbb c req 0 Hb Hwf ltac:(done) eq_refl Hroom)
    as (dbb' & Hput & Hst).
  exists dbb, dbb', (protocol.written (protocol.Success req)). split; [done|].
  split; [|by rewrite Hh, <-(pid_of_cfg dbb)].
  rewrite (requestTo_run _ _ _ _ _ None _ _ _ _ (with_node (Name b) dbb' c) db dbb db
    (protocol.Success req)); try done.
  - by rewrite Hbc.
  - apply backup_extra_lost.
  - by apply (serve_op _ _ _ putBackupOperation).
  - simpl. by rewrite lookup_insert_ne.
  - rewrite Hcfg. apply success_ok; [|done]. destruct Hfit as (_ & _ & Hv & _).
    len_lia.
Qed.

Lemma backup_ready_other c n db' h name key value b :
  backup_ready c h name key value b → Name b ≠ n →
  backup_ready (with_node n db' c) h name key value b.
Proof.
  intros (db & Hb & ?) Hne. exists db. simpl. by rewrite lookup_insert_ne.
Qed.

Lemma backup_loop_spec fuel n db h name key value timeout bs :
  h = getHKey name key → config db = cfg → fits (MaxValueSize cfg) name key value →
  ∀ c ok werr, nodes c !! n = Some db → net c = [] →
  NoDup (map Name bs) → n ∉ map Name bs → Forall (backup_ready c h name key value) bs →
  0 ≤ ok → ok + len bs < 2 ^ 31 →
  ∃ c', backup_loop (serve (Datatypes.S fuel)) n name key value timeout bs ok werr c
        = Return ((ok + len bs, werr), c')
    ∧ evolves c c' ∧ tasks c' = tasks c
    ∧ (∀ m, m ∉ map Name bs → nodes c' !! m = nodes c !! m)
    ∧ Forall (fun b => changed c c' (Name b) true h name (insert h (mkVData key 0 value))) bs.
Proof.
  intros Hh Hcfg Hfit. induction bs as [|b bs IH]; intros c ok werr Hn Hnet Hnd Hni Hready Hok Hlt.
  { exists c. change (len (@nil host)) with 0. rewrite Z.add_0_r.
    split; [done|]. split; [reflexivity|done]. }
  simpl in Hnd, Hni. apply NoDup_cons in Hnd as [Hb Hnd]. apply not_elem_of_cons in Hni as [Hnb Hni].
  apply Forall_cons in Hready as [Hr Hready].
  destruct (putBackup_request fuel n b c db h name key value timeout Hh Hn Hcfg Hnet Hfit
    ltac:(done) Hr) as (dbb & dbb' & resp & Hdbb & Hreq & Hst).
  assert (len (b :: bs) = 1 + len bs) as Hlen by (unfold len; simpl; lia). rewrite Hlen in *.
  pose proof (len_nonneg bs).
  destruct (IH (with_node (Name b) dbb' c) (ok + 1) werr) as (c' & Hrun & Hev & Htasks & Hsame & Hall);
    try done.
  { simpl. by rewrite lookup_insert_ne. }
  { apply Forall_forall. intros b' Hb'. rewrite Forall_forall in Hready.
    apply backup_ready_other; [by apply Hready|]. intros E. apply Hb. rewrite <-E.
    by apply list_elem_of_fmap_2. }
  { lia. } { lia. }
  exists c'. split; [|split; [|split; [|split]]].
  - cbn [backup_loop]. fold (timeout_extra timeout). step Hreq.
    cbn beta iota. rewrite locker.to_signed_32 by lia. rewrite Hrun. do 3 f_equal. lia.
  - etrans; [|done]. eapply evolves_with_node; [done| | |]; apply Hst.
  - by rewrite Htasks.
  - intros m Hm. apply not_elem_of_cons in Hm as [Hmb Hm]. rewrite Hsame by done. simpl.
    by apply lookup_insert_ne.
  - constructor.
    + exists dbb, dbb'. split; [done|]. split; [|done]. rewrite Hsame by done.
      apply lookup_insert_eq.
    + eapply Forall_impl; [apply Forall_and; split; [exact Hall|apply Forall_forall]|].
      { intros b' Hb'. exact Hb'. }
      intros b' [(d1 & d2 & Hd1 & Hd2 & Hs) Hb']. exists d1, d2. split; [|done].
      simpl in Hd1. rewrite lookup_insert_ne in Hd1; [done|]. intros E. apply Hb. rewrite E.
      by apply list_elem_of_fmap_2.
Qed.

(** The backups a node writes to: the last ones of the list. *)
Definition backup_count (db : Olric) : Z :=
  calcMaxBackupCount (BackupCount (config db)) (numMembers db).
Definition targets (db : Olric) (owners : list host) : list host :=
  if backup_count db <? len owners
  then drop (Z.to_nat (len owners - backup_count db)) owners else owners.

Lemma putKeyValBackup_spec fuel n db (c : cluster) h name key value timeout :
  h = getHKey name key → nodes c !! n = Some db → config db = cfg → net c = [] →
  getBackupPartitionOwners db h = Return (bowners (pid h)) →
  fits (MaxValueSize cfg) name key value → 0 ≤ backup_count db →
  NoDup (map Name (bowners (pid h))) → n ∉ map Name (bowners (pid h)) →
  len (bowners (pid h)) < 2 ^ 31 →
  let bs := targets db (bowners (pid h)) in
  Forall (backup_ready c h name key value) bs →
  ∃ c', putKeyValBackup (serve (Datatypes.S fuel)) n h name key value timeout c = Return (None, c')
    ∧ evolves c c' ∧ tasks c' = tasks c
    ∧ (∀ m, m ∉ map Name bs → nodes c' !! m = nodes c !! m)
    ∧ Forall (fun b => changed c c' (Name b) true h name (insert h (mkVData key 0 value))) bs.
Proof.
  intros Hh Hn Hcfg Hnet Hown Hfit Hbc Hnd Hni Hlen bs Hready.
  assert (bs ⊆+ bowners (pid h)) as Hsub.
  { unfold bs, targets. destruct (_ <? _); [apply submseteq_drop|done]. }
  assert (len bs < 2 ^ 31) as Hlbs.
  { apply submseteq_length in Hsub. unfold len in *. lia. }
  assert (NoDup (map Name bs)) as Hnd'.
  { unfold bs, targets. destruct (_ <? _); [|done]. rewrite <-(take_drop (Z.to_nat (len (bowners (pid h)) - backup_count db)) (bowners (pid h))) in Hnd.
    rewrite map_app in Hnd. by apply NoDup_app in Hnd as (_ & _ & ?). }
  assert (n ∉ map Name bs) as Hni'.
  { intros Hin. apply Hni. apply list_elem_of_fmap_1 in Hin as (b & -> & Hb).
    apply list_elem_of_fmap_2. by eapply elem_of_submseteq. }
  destruct (backup_loop_spec fuel n db h name key value timeout bs Hh Hcfg Hfit c 0 None)
    as (c' & Hrun & Hrest); [done|done|done|done|done|lia|lia|].
  unfold putKeyValBackup. at_node Hn.
  cbn beta zeta. calc Hown.
  fold (backup_count db). erewrite bind_run; last first.
  { apply (lift_run _ bs). unfold bs, targets, checked.
    destruct (_ <? _); [by rewrite (proj2 (Z.leb_le _ _))|done]. }
  destruct bs as [|b bs'] eqn:Ebs.
  { exists c. split; [done|]. split; [reflexivity|done]. }
  step Hrun. exists c'. split; [|done]. simpl.
  pose proof (len_nonneg bs'). rewrite (proj2 (Z.leb_le _ _)); [done|].
  unfold len in *. simpl. lia.
Qed.

(** ** Put on the owner of the key *)
Lemma same_owner_lists lk lk' (db db' : Olric) h :
  wf_node lk db → wf_node lk' db' → same_node db db' →
  getPartitionOwners db' h = getPartitionOwners db h
  ∧ getBackupPartitionOwners db' h = getBackupPartitionOwners db h.
Proof.
  intros Hwf Hwf' Hs.
  assert (∀ bk : bool,
    (p ← (if bk then getBackupPartition db' h else getPartition db' h); Return (p_owners p))
    = (p ← (if bk then getBackupPartition db h else getPartition db h); Return (p_owners p)))
    as Hbk.
  { intros bk. destruct (part_of_ok lk db bk h Hwf) as (p & -> & Hp & _).
    destruct (part_of_ok lk' db' bk h Hwf') as (p' & -> & Hp' & _). simpl. f_equal.
    pose proof (same_owners _ _ Hs bk (pid_of db h)) as Ho. rewrite Hp in Ho.
    unfold pid_of in Hp', Ho. rewrite (same_config _ _ Hs) in Hp'. rewrite Hp' in Ho.
    by injection Ho. }
  split; [apply (Hbk false)|apply (Hbk true)].
Qed.

Lemma evolves_patch n db db2 db5 (c c3 : cluster) :
  nodes c !! n = Some db → evolves (with_node n db2 c) c3 →
  same_node db db5 → wf_node None db5 → keeps_locks db db5 → evolves c (with_node n db5 c3).
Proof.
  intros Hn [Hnet He] Hs Hwf Hk. split; [done|]. intros m. simpl.
  destruct (decide (m = n)) as [->|Hne].
  - by rewrite lookup_insert_eq, Hn.
  - specialize (He m). simpl in He. by rewrite lookup_insert_ne in He |- *.
Qed.

(** What a successful put leaves behind: [v] on the owner, the same value without its
    TTL on the backups [bs], nothing else. *)
Record put_done (c c' : cluster) (h : Z) (name : list byte) (v : VData) (bs : list host)
    : Prop := {
  put_evolves : evolves c c';
  put_tasks : tasks c' = tasks c;
  put_owner : changed c c' (Name (owner (pid h))) false h name (insert h v);
  put_backups : Forall (fun b => changed c c' (Name b) true h name
                  (insert h (mkVData (vd_Key v) 0 (vd_Value v)))) bs;
  put_others m : m ≠ Name (owner (pid h)) → m ∉ map Name bs → nodes c' !! m = nodes c !! m
}.

(** The backups a put writes to, and what it needs of the nodes it writes to. *)
Definition put_targets (db : Olric) (h : Z) : list host :=
  if BackupCount cfg =? 0 then [] else targets db (bowners (pid h)).

Definition put_value (db : Olric) (key value : list byte) (timeout : Z) : VData :=
  mkVData key (if timeout =? 0 then 0 else getTTL db timeout) value.

Record put_ready (c : cluster) (db : Olric) (h : Z) (name key value : list byte) (timeout : Z)
    : Prop := {
  ready_fits : fits (MaxValueSize cfg) name key value;
  ready_sync : BackupCount cfg = 0 ∨ BackupMode cfg ≠ AsyncBackupMode;
  ready_count : 0 ≤ backup_count db;
  ready_len : len (bowners (pid h)) < 2 ^ 31;
  ready_backups : Forall (backup_ready c h name key value) (put_targets db h);
  ready_room : view_room db false (pid h) name (put_value db key value timeout)
}.

(** The step that writes to the backups, with the map on the owner locked. *)
Lemma put_backup_step fuel n db db2 lk (c : cluster) h name key value timeout :
  settled c → h = getHKey name key → Name (owner (pid h)) = n → nodes c !! n = Some db →
  put_ready c db h name key value timeout → same_node db db2 → wf_node lk db2 →
  ∃ c3,
    (if negb (BackupCount (config db2) =? 0) then
       if BackupMode (config db2) =? AsyncBackupMode then
         _ ← go (TaskBackup n h name key value timeout); mret None
       else putKeyValBackup (serve (Datatypes.S fuel)) n h name key value timeout
     else mret None) (with_node n db2 c) = Return (None, c3)
    ∧ evolves (with_node n db2 c) c3 ∧ tasks c3 = tasks c ∧ nodes c3 !! n = Some db2
    ∧ (∀ m, m ≠ n → m ∉ map Name (put_targets db h) → nodes c3 !! m = nodes c !! m)
    ∧ Forall (fun b => Name b ≠ n ∧ changed (with_node n db2 c) c3 (Name b) true h name
                (insert h (mkVData key 0 value))) (put_targets db h).
Proof.
  intros Hc Hh Ho Hn [Hfit Hsync Hbc Hlen Hready Hroom] Hs Hwf2.
  destruct (st_node _ Hc n db Hn) as (Hwf & Hcfg & _).
  pose proof (pid_range _ _ _ h Hc Hn) as Hpid.
  assert (config db2 = cfg) as Hcfg2 by (by rewrite (same_config _ _ Hs)).
  rewrite Hcfg2. unfold put_targets in *. destruct (Z.eqb_spec (BackupCount cfg) 0) as [H0c|H0c].
  { exists (with_node n db2 c). split; [done|]. split; [reflexivity|]. split; [done|].
    split; [apply lookup_insert_eq|]. split; [|done]. intros m Hm _. simpl.
    by apply lookup_insert_ne. }
  cbn [negb]. rewrite (proj2 (Z.eqb_neq _ AsyncBackupMode)) by (destruct Hsync; done).
  destruct (st_apart _ Hc _ Hpid) as [Hnd Hni]. rewrite Ho in Hni.
  assert (targets db2 (bowners (pid h)) = targets db (bowners (pid h)) ∧ backup_count db2 = backup_count db)
    as [Ht Hb2].
  { unfold targets, backup_count, numMembers.
    by rewrite (same_config _ _ Hs), (same_members _ _ Hs). }
  assert (∀ b, b ∈ targets db (bowners (pid h)) → Name b ≠ n) as Hbn.
  { intros b Hb E. apply Hni. rewrite <-E. apply list_elem_of_fmap_2. unfold targets in Hb.
    destruct (_ <? _); [|done]. eapply elem_of_submseteq; [done|apply submseteq_drop]. }
  destruct (putKeyValBackup_spec fuel n db2 (with_node n db2 c) h name key value timeout Hh)
    as (c3 & Hrun & Hev & Htasks & Hsame & Hall); try done.
  - apply lookup_insert_eq.
  - apply (st_net _ Hc).
  - rewrite (proj2 (same_owner_lists _ _ _ _ h Hwf Hwf2 Hs)).
    by apply (owners_ok n db c h Hc Hn).
  - by rewrite Hb2.
  - rewrite Ht. apply Forall_forall. intros b Hb. rewrite Forall_forall in Hready.
    apply backup_ready_other; [by apply Hready|by apply Hbn].
  - rewrite Ht in *. exists c3. split; [done|]. split; [done|]. split; [done|]. split; [|split].
    + rewrite Hsame; [apply lookup_insert_eq|]. intros Hin.
      apply list_elem_of_fmap_1 in Hin as (b & E & Hb). by apply (Hbn b Hb).
    + intros m Hm Hmb. rewrite Hsame by done. simpl. by apply lookup_insert_ne.
    + rewrite Forall_forall in Hall |- *. intros b Hb. split; [by apply Hbn|by apply Hall].
Qed.

Lemma changed_other n db2 db5 (c c3 : cluster) m bk i name f :
  m ≠ n → changed (with_node n db2 c) c3 m bk i name f →
  changed c (with_node n db5 c3) m bk i name f.
Proof.
  intros Hne (d1 & d2 & H1' & H2' & Hs). exists d1, d2. simpl in *.
  rewrite lookup_insert_ne in H1' by done. by rewrite lookup_insert_ne.
Qed.

(** The owner's own write joins the writes of the other nodes [bs]. *)
Lemma owner_written bk n db db2 db5 (c c3 : cluster) h name f g bs :
  Name (owner (pid h)) = n → nodes c !! n = Some db →
  stored None db db5 false (pid h) name h (f (view db false (pid h) name)) →
  evolves (with_node n db2 c) c3 →
  (∀ m, m ≠ n → m ∉ map Name bs → nodes c3 !! m = nodes c !! m) →
  Forall (fun b => Name b ≠ n ∧ changed (with_node n db2 c) c3 (Name b) bk h name g) bs →
  let c' := with_node n db5 c3 in
  evolves c c' ∧ changed c c' (Name (owner (pid h))) false h name f
  ∧ Forall (fun b => changed c c' (Name b) bk h name g) bs
  ∧ ∀ m, m ≠ Name (owner (pid h)) → m ∉ map Name bs → nodes c' !! m = nodes c !! m.
Proof.
  intros Ho Hn Hst Hev Hothers Hall c'. split; [eapply evolves_patch; [done|exact Hev|apply Hst..]|].
  split; [|split].
  - rewrite Ho. exists db, db5. split; [done|]. split; [apply lookup_insert_eq|done].
  - eapply Forall_impl; [exact Hall|]. intros b [Hne Hch]. by eapply changed_other.
  - intros m Hm Hmb. simpl. rewrite lookup_insert_ne by congruence. apply Hothers; [congruence|done].
Qed.

Lemma purge_nothing sv n db (c : cluster) h name key o :
  nodes c !! n = Some db → getPartitionOwners db h = Return [o] →
  purgeOldVersions sv n h name key c = Return (tt, c).
Proof.
  intros Hn Ho. unfold purgeOldVersions. at_node Hn.
  by rewrite (bind_run _ _ _ _ _ (lift_run _ _ _ Ho)).
Qed.

Lemma putKeyVal_spec fuel n db (c : cluster) h name key value timeout :
  settled c → h = getHKey name key → Name (owner (pid h)) = n → nodes c !! n = Some db →
  put_ready c db h name key value timeout →
  ∃ c', putKeyVal (serve (Datatypes.S fuel)) n h name key value timeout c = Return (None, c')
    ∧ put_done c c' h name (put_value db key value timeout) (put_targets db h).
Proof.
  intros Hc Hh Ho Hn Hready. destruct (st_node _ Hc n db Hn) as (Hwf & Hcfg & _).
  pose proof (ready_room _ _ _ _ _ _ _ Hready) as Hroom. set (v := put_value db key value timeout).
  destruct (get_dmap_of_spec None n db c false name h Hn Hwf ltac:(done)) as (a & db1 & Hget & Hg).
  destruct (got_dmap _ _ _ _ _ _ _ Hg) as (d & Hd & Hmu & Hok & Hmap & Hr & _).
  rewrite pid_of_cfg in Hmap, Hr by done.
  destruct (kv_put_ok (dm_str d) h v Hok (Hr v Hroom)) as (s & Hput & Hsok & Hsmap & Hsone).
  set (db2 := set_dm a (with_mu true d) db1).
  pose proof (stored_set_dm None (Some a) _ _ _ _ _ _ _ (with_mu true d) Hg Hd
    ltac:(simpl; by rewrite bool_decide_eq_true_2) Hok ltac:(naive_solver) eq_refl
    ltac:(done)) as Hst2.
  pose proof (stored_set_dm None None _ _ _ _ _ _ _ (with_mu false (with_str s (with_mu true d)))
    Hg Hd eq_refl Hsok ltac:(done) eq_refl Hsone) as Hst5.
  pose proof (stored_same _ _ _ _ _ _ _ _ Hst2) as Hs2. fold db2 in Hst2, Hs2.
  destruct (put_backup_step fuel n db db2 (Some a) c h name key value timeout Hc Hh Ho Hn Hready
    Hs2 (stored_wf _ _ _ _ _ _ _ _ Hst2)) as (c3 & Hb & Hev & Htasks & Hn3 & Hothers & Hall).
  set (db5 := set_dm a (with_mu false (with_str s (with_mu true d))) db1) in *.
  exists (with_node n db5 c3). split.
  - unfold putKeyVal, getDMap. step Hget. cbn beta iota.
    apply locked_section; [done..|]. fold db2.
    unfold putKeyVal_locked.
    at_node (with_node_lookup n db2 c).
    cbn beta iota zeta. step Hb. cbn beta iota.
    at_node Hn3. cbn zeta.
    rewrite (same_getTTL db db2) by done. fold (put_value db key value timeout). fold v.
    rewrite (bind_run _ _ _ _ _ (str_call_run _ _ _ _ (with_mu true d) _ s None Hn3
      (set_dm_lookup _ _ _ _ Hd) Hput)). cbn beta iota.
    rewrite (bind_run _ _ _ _ _ (oplog_skipped _ _ _ _ _ _
      (with_node_lookup n (set_dm a (with_str s (with_mu true d)) db2) c3)
      (wf_mode _ _ (got_wf _ _ _ _ _ _ _ Hg)))).
    rewrite (bind_run _ _ _ _ _ (purge_nothing _ _ _ _ _ _ _ (owner (pid h))
      (with_node_lookup n (set_dm a (with_str s (with_mu true d)) db2) c3)
      (eq_trans (proj1 (same_owner_lists None (Some a) db db2 h Hwf
        (stored_wf _ _ _ _ _ _ _ _ Hst2) Hs2)) (proj1 (owners_ok n db c h Hc Hn))))). done.
  - cbn [dm_str with_mu with_str] in Hst5. rewrite Hsmap, Hmap in Hst5. rewrite pid_of_cfg in Hst5 by done.
    destruct (owner_written true n db db2 db5 c c3 h name (insert h v) _ _ Ho Hn Hst5 Hev Hothers Hall) as (? & ? & ? & ?).
    by split.
Qed.

(** ** Put on any node *)
Lemma put_at_owner fuel n db (c : cluster) name key value timeout :
  let h := getHKey name key in
  settled c → Name (owner (pid h)) = n → nodes c !! n = Some db →
  put_ready c db h name key value timeout →
  ∃ c', put (serve (Datatypes.S fuel)) n name key value timeout c = Return (None, c')
    ∧ put_done c c' h name (put_value db key value timeout) (put_targets db h).
Proof.
  intros h Hc Ho Hn Hready.
  destruct (putKeyVal_spec fuel n db c h name key value timeout Hc eq_refl Ho Hn Hready)
    as (c' & Hrun & Hdone). exists c'. split; [|done].
  unfold put. at_node Hn.
  calc (locateKey_ok n db c name key Hc Hn).
  cbn beta iota. fold h. rewrite (owner_cmp n db c _ Hc Hn (pid_range _ _ _ _ Hc Hn)).
  by rewrite bool_decide_eq_true_2.
Qed.

Lemma put_extra_kept timeout name key value :
  in_int64 timeout →
  let op := if timeout =? nilTimeout then protocol.OpExPut else protocol.OpExPutEx in
  protocol.reads_extra
    (protocol.write_header (outgoing op (timeout_extra timeout) name key value))
    (protocol.xbytes (outgoing op (timeout_extra timeout) name key value))
    None (timeout_extra timeout).
Proof.
  intros Ht op. unfold op, timeout_extra, protocol.reads_extra, protocol.xbytes.
  destruct (timeout =? nilTimeout); [done|]. simpl.
  by apply (protocol.read_extra_bytes _ (protocol.PutExExtra timeout)).
Qed.

(** A put on a node that does not own the key: the owner carries it out. *)
Lemma put_forwarded fuel n dbn dbo o h (c c' : cluster) name key value timeout :
  nodes c !! n = Some dbn → nodes c !! Name o = Some dbo → config dbn = cfg → config dbo = cfg →
  net c = [] → locateKey dbn name key = Return (inr (o, h)) → hostCmp o (this dbn) = false →
  in_int64 timeout → fits (MaxValueSize cfg) name key value →
  put (serve (Datatypes.S fuel)) (Name o) name key value timeout c = Return (None, c') → evolves c c' →
  put (serve (Datatypes.S (Datatypes.S fuel))) n name key value timeout c = Return (None, c').
Proof.
  intros Hn Ho Hcfg Hcfgo Hnet Hloc Hcmp Ht Hfit Hrun Hev.
  unfold put. at_node Hn. calc Hloc. cbn beta iota. rewrite Hcmp. cbn [negb].
  set (op := if timeout =? nilTimeout then protocol.OpExPut else protocol.OpExPutEx).
  replace (if timeout =? nilTimeout then _ else _) with (op, timeout_extra timeout)
    by (unfold op, timeout_extra; by destruct (timeout =? nilTimeout)). cbn beta iota.
  set (req := incoming op (timeout_extra timeout) (timeout_extra timeout) name key value).
  destruct (evolves_node _ _ _ _ Hev Hn) as (dbn' & Hn' & Hs & _).
  erewrite bind_run; last first.
  { apply (requestTo_run _ _ _ op _ (timeout_extra timeout) name key value c c' dbn dbo dbn'
      (protocol.Success req)); try done.
    - by rewrite Hcfgo.
    - unfold op. by destruct (timeout =? nilTimeout).
    - by apply put_extra_kept.
    - apply (serve_op _ _ _
        (if timeout =? nilTimeout then exPutOperation (serve (Datatypes.S fuel))
         else exPutExOperation (serve (Datatypes.S fuel)))).
      + unfold req. rewrite op_incoming. unfold op. by destruct (timeout =? nilTimeout).
      + unfold req, op, timeout_extra. unfold nilTimeout in *.
        destruct (Z.eqb_spec timeout 0) as [->|_].
        * unfold exPutOperation. by rewrite (bind_run _ _ _ _ _ Hrun).
        * unfold exPutExOperation.
          cbn [incoming protocol.Extra protocol.DMap protocol.Key protocol.Value host_String].
          by rewrite (bind_run _ _ _ _ _ Hrun).
    - rewrite (same_config _ _ Hs), Hcfg. apply success_ok.
      + destruct Hfit as (_ & _ & Hv & _). len_lia.
      + unfold req. rewrite op_incoming. unfold op. by destruct (timeout =? nilTimeout). }
  done.
Qed.

Lemma cluster_put_spec fuel n dbn dbo (c : cluster) name key value timeout :
  let h := getHKey name key in
  settled c → nodes c !! n = Some dbn → nodes c !! Name (owner (pid h)) = Some dbo →
  in_int64 timeout → put_ready c dbo h name key value timeout →
  ∃ c', put (serve (Datatypes.S (Datatypes.S fuel))) n name key value timeout c = Return (None, c')
    ∧ put_done c c' h name (put_value dbo key value timeout) (put_targets dbo h).
Proof.
  intros h Hc Hn Ho Ht Hready. pose proof (pid_range _ _ _ h Hc Hn) as Hpid.
  destruct (decide (Name (owner (pid h)) = n)) as [E|E].
  { rewrite E in Ho. simplify_eq. by apply put_at_owner. }
  destruct (put_at_owner fuel _ dbo c name key value timeout Hc eq_refl Ho Hready)
    as (c' & Hrun & Hdone). exists c'. split; [|done].
  apply (put_forwarded fuel n dbn dbo (owner (pid h)) h); try done.
  - by destruct (st_node _ Hc _ _ Hn) as (_ & ? & _).
  - by destruct (st_node _ Hc _ _ Ho) as (_ & ? & _).
  - apply (st_net _ Hc).
  - apply (locateKey_ok n dbn c name key Hc Hn).
  - rewrite (owner_cmp n dbn c _ Hc Hn Hpid). by rewrite bool_decide_eq_false_2.
  - apply Hready.
  - apply Hdone.
Qed.

(** ** Get *)

(** The nodes hold the same bindings, with as much room. *)
Definition same_views (c c' : cluster) : Prop :=
  ∀ n db db', nodes c !! n = Some db → nodes c' !! n = Some db' → undisturbed db db'.

Lemma same_views_with_node n db db' (c : cluster) :
  nodes c !! n = Some db → undisturbed db db' → same_views c (with_node n db' c).
Proof.
  intros Hn Hu m d d' Hd Hd'. simpl in Hd'. destruct (decide (m = n)) as [->|Hne].
  - rewrite lookup_insert_eq in Hd'. by simplify_eq.
  - rewrite lookup_insert_ne in Hd' by done. by simplify_eq.
Qed.

(** The values a response can carry. *)
Definition value_fits (v : list byte) : Prop :=
  len v ≤ MaxValueSize cfg ∧ len v + 8 < 2 ^ 32.

(** What the backup [b] answers for a key. *)
Definition backup_answer (c : cluster) (h : Z) (name : list byte) (b : host)
    : option (list byte) :=
  match nodes c !! Name b with
  | Some db => visible db (view db true (pid h) name !! h)
  | None => None
  end.

(** What a get answers: the owner's binding decides; without one the first backup that
    has the key does. *)
Definition get_answer (c : cluster) (db : Olric) (h : Z) (name : list byte)
    : option (list byte) :=
  match view db false (pid h) name !! h with
  | Some v => visible db (Some v)
  | None => head (omap (backup_answer c h name) (bowners (pid h)))
  end.

Definition get_result (r : option (list byte)) : oerror + list byte :=
  match r with Some v => inr v | None => inl OErrKeyNotFound end.

Lemma found_ok req r :
  0 ≤ MaxValueSize cfg → 0 ≤ protocol.Op (protocol.Hdr req) < 2 ^ 8 →
  (∀ v, r = Some v → value_fits v) → response_ok (MaxValueSize cfg) (found_response req r).
Proof.
  intros Hmax Hop Hfit. destruct r as [v|].
  - destruct (Hfit v eq_refl). by apply value_ok.
  - by apply error_ok.
Qed.

(** The response seen by the caller of a get. *)
Lemma found_status req r :
  match check_status (protocol.written (found_response req r)) with
  | inr resp => r = Some (protocol.Value resp)
  | inl err => err = OErrKeyNotFound ∧ r = None
  end.
Proof. by destruct r. Qed.

Lemma no_extra op name key value :
  protocol.reads_extra (protocol.write_header (outgoing op None name key value))
    (protocol.xbytes (outgoing op None name key value)) None None.
Proof. done. Qed.

Lemma fits_key name key : fits (MaxValueSize cfg) name key [] → 0 ≤ MaxValueSize cfg.
Proof. by intros (_ & _ & ? & _). Qed.

(** One request to a backup. *)
Lemma getBackup_request fuel n db (c : cluster) name key b :
  let h := getHKey name key in
  nodes c !! n = Some db → config db = cfg → net c = [] → fits (MaxValueSize cfg) name key [] →
  (∃ dbb, nodes c !! Name b = Some dbb ∧ wf_node None dbb ∧ config dbb = cfg) →
  (∀ v, backup_answer c h name b = Some v → value_fits v) →
  ∃ c' r, requestTo (serve (Datatypes.S fuel)) n (host_String b) protocol.OpGetBackup
            (request None name key []) c = Return (r, c')
    ∧ evolves c c' ∧ same_views c c' ∧ tasks c' = tasks c
    ∧ match r with
      | inr resp => backup_answer c h name b = Some (protocol.Value resp)
      | inl err => err = OErrKeyNotFound ∧ backup_answer c h name b = None
      end.
Proof.
  intros h Hn Hcfg Hnet Hfit (dbb & Hb & Hwf & Hbc) Hvf.
  set (req := incoming protocol.OpGetBackup None None name key []).
  destruct (getBackup_spec (Name b) dbb c req Hb Hwf) as (dbb' & Hget & Hwfb & Hsb & Hkb & Hub).
  change (getHKey (protocol.DMap req) (protocol.Key req)) with h in *.
  change (protocol.DMap req) with name in *. rewrite pid_of_cfg in Hget by done.
  assert (backup_answer c h name b = visible dbb (view dbb true (pid h) name !! h)) as Ha
    by (unfold backup_answer; by rewrite Hb).
  exists (with_node (Name b) dbb' c).
  exists (check_status (protocol.written (found_response req (backup_answer c h name b)))).
  assert (evolves c (with_node (Name b) dbb' c)) as Hev
    by by eapply evolves_with_node.
  split; [|split; [done|split; [|split; [done|]]]].
  - destruct (evolves_node _ _ _ _ Hev Hn) as (db' & Hn' & Hs & _).
    rewrite (requestTo_run _ _ _ _ _ None name key [] c (with_node (Name b) dbb' c) db dbb db'
      (found_response req (backup_answer c h name b))); try done.
    + by rewrite Hbc.
    + apply (serve_op _ _ _ getBackupOperation); [done|]. by rewrite Ha.
    + rewrite (same_config _ _ Hs), Hcfg. apply found_ok; [by eapply fits_key|done|done].
  - by eapply same_views_with_node.
  - pose proof (found_status req (backup_answer c h name b)) as Hf.
    by destruct (check_status _).
Qed.

#[export] Instance same_views_refl : Reflexive same_views.
Proof. intros c n db db' Hx1 Hx2. simplify_eq. reflexivity. Qed.

Lemma shifts_views_trans c1 c2 c3 :
  shifts c1 c2 → same_views c1 c2 → same_views c2 c3 → same_views c1 c3.
Proof.
  intros He Hx1 Hx2 n db1 db3 Hn1 Hn3.
  destruct (shifts_node _ _ _ _ He Hn1) as (db2 & Hn2 & _).
  etrans; [by eapply Hx1|by eapply Hx2].
Qed.

Lemma same_views_trans c1 c2 c3 :
  evolves c1 c2 → same_views c1 c2 → same_views c2 c3 → same_views c1 c3.
Proof. intros He. by apply shifts_views_trans, evolves_shifts. Qed.

Lemma backup_answer_shifts c c' h name b :
  shifts c c' → same_views c c' → backup_answer c' h name b = backup_answer c h name b.
Proof.
  intros He Hv. unfold backup_answer. destruct (nodes c !! Name b) as [db|] eqn:Hb.
  - destruct (shifts_node _ _ _ _ He Hb) as (db' & Hb' & Hs & _). rewrite Hb'.
    rewrite (und_view _ _ (Hv _ _ _ Hb Hb')). destruct (view db true (pid h) name !! h); [|done].
    simpl. by rewrite (same_expired db db').
  - destruct He as [_ He]. specialize (He (Name b)). rewrite Hb in He.
    by destruct (nodes c' !! Name b).
Qed.

Lemma backup_answer_same c c' h name b :
  evolves c c' → same_views c c' → backup_answer c' h name b = backup_answer c h name b.
Proof. intros He. by apply backup_answer_shifts, evolves_shifts. Qed.

Lemma omap_pointwise {A B} (f g : A → option B) (l : list A) :
  (∀ x, f x = g x) → omap f l = omap g l.
Proof. intros Hfg. induction l as [|x l IH]; [done|]. change (omap f l = omap g l) in IH. cbn. rewrite Hfg. destruct (g x); [f_equal|]; apply IH. Qed.

Lemma omap_none {A B} (f : A → option B) (l : list A) :
  Forall (fun x => f x = None) l → omap f l = [].
Proof. induction 1 as [|x l Hx _ IH]; [done|]. cbn. rewrite Hx. apply IH. Qed.

Lemma get_backups_spec fuel n name key bs :
  let h := getHKey name key in
  fits (MaxValueSize cfg) name key [] →
  ∀ c db, nodes c !! n = Some db → config db = cfg → net c = [] →
  Forall (fun b => (∃ dbb, nodes c !! Name b = Some dbb ∧ wf_node None dbb ∧ config dbb = cfg)
                   ∧ ∀ v, backup_answer c h name b = Some v → value_fits v) bs →
  ∃ c', get_loop (serve (Datatypes.S fuel)) n protocol.OpGetBackup name key bs c
        = Return (inr <$> head (omap (backup_answer c h name) bs), c')
    ∧ evolves c c' ∧ same_views c c' ∧ tasks c' = tasks c.
Proof.
  intros h Hfit. induction bs as [|b bs IH]; intros c db Hn Hcfg Hnet Hbs.
  { exists c. split; [done|]. split; [reflexivity|]. split; [reflexivity|done]. }
  apply Forall_cons in Hbs as [[Hb Hbv] Hbs].
  destruct (getBackup_request fuel n db c name key b Hn Hcfg Hnet Hfit Hb Hbv)
    as (c1 & r & Hreq & Hev & Hsv & Htasks & Hr). fold h in Hr.
  cbn [get_loop]. setoid_rewrite (bind_run _ _ _ _ _ Hreq).
  destruct r as [err|resp].
  - destruct Hr as [-> Hnone]. rewrite decide_True by done.
    destruct (evolves_node _ _ _ _ Hev Hn) as (db1 & Hn1 & Hs1 & _).
    destruct (IH c1 db1 Hn1) as (c2 & Hrun & Hev2 & Hsv2 & Htasks2).
    + by rewrite (same_config _ _ Hs1).
    + by rewrite (proj1 Hev).
    + eapply Forall_impl; [done|]. intros b' [(d & Hd & Hwd & Hcd) Hfv]. split.
      * destruct (evolves_node _ _ _ _ Hev Hd) as (d' & Hd' & Hs' & Hw & _). exists d'.
        split; [done|]. split; [by apply Hw|]. by rewrite (same_config _ _ Hs').
      * intros v. rewrite (backup_answer_same c c1) by done. apply Hfv.
    + exists c2. split; [|split; [by etrans|split; [by eapply same_views_trans|congruence]]].
      rewrite Hrun. cbn [omap list_omap]. rewrite Hnone. do 4 f_equal.
      apply omap_pointwise. intros. by apply backup_answer_same.
  - exists c1. split; [|done]. cbn [omap list_omap]. rewrite Hr. done.
Qed.

(** The values a get may have to carry fit a message. *)
Definition get_fits (c : cluster) (db : Olric) (h : Z) (name : list byte) : Prop :=
  (view db false (pid h) name !! h = None →
     Forall (fun b => ∀ v, backup_answer c h name b = Some v → value_fits v) (bowners (pid h)))
  ∧ ∀ v, get_answer c db h name = Some v → value_fits v.

Lemma same_views_got n db db1 (c : cluster) lk bk h name a :
  nodes c !! n = Some db → got_map db db1 lk bk h name a → same_views c (with_node n db1 c).
Proof.
  intros Hn Hg. eapply same_views_with_node; [done|by eapply got_undisturbed].
Qed.

Lemma settled_backups c h n db :
  settled c → nodes c !! n = Some db →
  Forall (fun b => ∃ dbb, nodes c !! Name b = Some dbb ∧ wf_node None dbb ∧ config dbb = cfg)
    (bowners (pid h)).
Proof.
  intros Hc Hn. apply Forall_forall. intros b Hb.
  destruct (st_bup _ Hc (pid h) b (pid_range _ _ _ h Hc Hn) Hb) as [dbb Hdbb].
  exists dbb. destruct (st_node _ Hc _ _ Hdbb) as (? & ? & _). done.
Qed.

Lemma getKeyVal_spec fuel n db (c : cluster) name key :
  let h := getHKey name key in
  settled c → nodes c !! n = Some db → fits (MaxValueSize cfg) name key [] →
  get_fits c db h name →
  ∃ c', getKeyVal (serve (Datatypes.S fuel)) n h name key c
        = Return (get_result (get_answer c db h name), c')
    ∧ evolves c c' ∧ same_views c c' ∧ tasks c' = tasks c.
Proof.
  intros h Hc Hn Hfit [Hbfit _]. destruct (st_node _ Hc n db Hn) as (Hwf & Hcfg & _).
  destruct (get_dmap_of_spec None n db c false name h Hn Hwf ltac:(done)) as (a & db1 & Hget & Hg).
  destruct (got_dmap _ _ _ _ _ _ _ Hg) as (d & Hd & _ & Hok & Hmap & _).
  rewrite pid_of_cfg in Hmap by done. pose proof (got_same _ _ _ _ _ _ _ Hg) as Hs1.
  pose proof (got_wf _ _ _ _ _ _ _ Hg) as Hwf1.
  assert (evolves c (with_node n db1 c)) as Hev1
    by (eapply evolves_with_node; [done|done|done|apply Hg]).
  pose proof (same_views_got _ _ _ _ _ _ _ _ _ Hn Hg) as Hsv1.
  pose proof (settled_evolves _ _ Hc Hev1) as Hc1. pose proof (with_node_lookup n db1 c) as Hn1.
  unfold getKeyVal, getDMap. setoid_rewrite (bind_run _ _ _ _ _ Hget). cbn beta iota.
  setoid_rewrite (bind_run _ _ _ _ _ (get_dm_run _ _ _ _ _ Hn1 Hd)).
  setoid_rewrite (bind_run _ _ _ _ _ (get_node_run _ _ _ Hn1)).
  setoid_rewrite (bind_run _ _ _ _ _ (lift_run _ _ _ (kv_get_ok _ _ Hok))).
  rewrite Hmap. unfold get_answer. destruct (view db false (pid h) name !! h) as [v|] eqn:Hview.
  { exists (with_node n db1 c). split; [|done]. simpl. rewrite (same_expired db db1) by done.
    by destruct (isKeyExpired db (vd_TTL v)). }
  setoid_rewrite (bind_run _ _ _ _ _ (lift_run _ _ _ (proj1 (owners_ok n db1 _ h Hc1 Hn1)))).
  cbn [decide]. rewrite decide_False by done. cbn [previous rev take length Nat.sub get_loop].
  setoid_rewrite (bind_run _ _ _ _ _ (ret_run None (with_node n db1 c))). cbn beta iota.
  setoid_rewrite (bind_run _ _ _ _ _ (get_node_run _ _ _ Hn1)).
  setoid_rewrite (bind_run _ _ _ _ _ (lift_run _ _ _ (proj2 (owners_ok n db1 _ h Hc1 Hn1)))).
  destruct (get_backups_spec fuel n name key (bowners (pid h)) Hfit (with_node n db1 c) db1 Hn1)
    as (c' & Hrun & Hev2 & Hsv2 & Htasks); [by rewrite (same_config _ _ Hs1)|apply (st_net _ Hc1)| |].
  { apply Forall_and. split; [by eapply settled_backups|]. eapply Forall_impl; [by apply Hbfit|].
    intros b Hb v. fold h. rewrite (backup_answer_same c) by done. apply Hb. }
  exists c'. setoid_rewrite (bind_run _ _ _ _ _ Hrun).
  split; [|split; [by etrans|split; [by eapply same_views_trans|done]]]. fold h.
  rewrite (omap_pointwise _ (backup_answer c h name)) by (intros; by apply backup_answer_same).
  by destruct (head (omap (backup_answer c h name) (bowners (pid h)))) as [v|].
Qed.

Lemma get_at_owner fuel n db (c : cluster) name key :
  let h := getHKey name key in
  settled c → Name (owner (pid h)) = n → nodes c !! n = Some db →
  fits (MaxValueSize cfg) name key [] → get_fits c db h name →
  ∃ c', get (serve (Datatypes.S fuel)) n name key c
        = Return (get_result (get_answer c db h name), c')
    ∧ evolves c c' ∧ same_views c c' ∧ tasks c' = tasks c.
Proof.
  intros h Hc Ho Hn Hfit Hgf.
  destruct (getKeyVal_spec fuel n db c name key Hc Hn Hfit Hgf) as (c' & Hrun & Hrest).
  exists c'. split; [|done]. unfold get. at_node Hn.
  calc (locateKey_ok n db c name key Hc Hn).
  cbn beta iota. fold h. rewrite (owner_cmp n db c _ Hc Hn (pid_range _ _ _ _ Hc Hn)).
  by rewrite bool_decide_eq_true_2.
Qed.

Lemma exGet_answer req r c :
  (mret match get_result r with
        | inl err =>
            if decide (err = OErrKeyNotFound) then protocol.Error req protocol.StatusKeyNotFound []
            else answer req (Some err)
        | inr value => with_value value (protocol.Success req)
        end : M Message) c = Return (found_response req r, c).
Proof. by destruct r. Qed.

Lemma cluster_get_spec fuel n dbn dbo (c : cluster) name key :
  let h := getHKey name key in
  settled c → nodes c !! n = Some dbn → nodes c !! Name (owner (pid h)) = Some dbo →
  fits (MaxValueSize cfg) name key [] → get_fits c dbo h name →
  ∃ c', get (serve (Datatypes.S (Datatypes.S fuel))) n name key c
        = Return (get_result (get_answer c dbo h name), c')
    ∧ evolves c c' ∧ same_views c c' ∧ tasks c' = tasks c.
Proof.
  intros h Hc Hn Ho Hfit Hgf. pose proof (pid_range _ _ _ h Hc Hn) as Hpid.
  destruct (decide (Name (owner (pid h)) = n)) as [E|E].
  { rewrite E in Ho. simplify_eq. by apply get_at_owner. }
  destruct (st_node _ Hc _ _ Hn) as (_ & Hcfg & _).
  destruct (st_node _ Hc _ _ Ho) as (_ & Hcfgo & _).
  destruct (get_at_owner fuel _ dbo c name key Hc eq_refl Ho Hfit Hgf)
    as (c' & Hrun & Hev & Hrest). exists c'. split; [|done].
  unfold get. at_node Hn.
  calc (locateKey_ok n dbn c name key Hc Hn).
  cbn beta iota. fold h. rewrite (owner_cmp n dbn c _ Hc Hn Hpid).
  rewrite bool_decide_eq_false_2 by done. cbn [negb].
  set (req := incoming protocol.OpExGet None None name key []).
  destruct (evolves_node _ _ _ _ Hev Hn) as (dbn' & Hn' & Hs & _).
  set (resp := found_response req (get_answer c dbo h name)).
  erewrite bind_run; last first.
  { apply (requestTo_run _ _ _ _ _ None name key [] c c' dbn dbo dbn' resp); try done.
    - apply (st_net _ Hc).
    - by rewrite Hcfgo.
    - apply (serve_op _ _ _ (exGetOperation (serve (Datatypes.S fuel)))); [done|].
      unfold exGetOperation. step Hrun. apply exGet_answer.
    - rewrite (same_config _ _ Hs), Hcfg.
      apply found_ok; [by eapply fits_key|done|apply Hgf]. }
  unfold resp. by destruct (get_answer c dbo h name).
Qed.

(** ** Delete *)

(** A node that can remove the key from its partitions or, with [bk], from its backups. *)
Definition delete_ready (bk : bool) (c : cluster) (h : Z) (name : list byte) (b : host) : Prop :=
  ∃ db, nodes c !! Name b = Some db ∧ wf_node None db ∧ config db = cfg
    ∧ view_single db bk (pid h) name h.

Lemma delete_ready_other bk c n db' h name b :
  delete_ready bk c h name b → Name b ≠ n → delete_ready bk (with_node n db' c) h name b.
Proof. intros (db & Hb & ?) Hne. exists db. simpl. by rewrite lookup_insert_ne. Qed.

Definition op_delete (bk : bool) : Z := if bk then protocol.OpDeleteBackup else protocol.OpDeletePrev.

Lemma delete_request fuel bk n b (c : cluster) db name key :
  let h := getHKey name key in
  nodes c !! n = Some db → config db = cfg → net c = [] → fits (MaxValueSize cfg) name key [] →
  Name b ≠ n → delete_ready bk c h name b →
  ∃ dbb dbb' resp, nodes c !! Name b = Some dbb
    ∧ requestTo (serve (Datatypes.S fuel)) n (host_String b) (op_delete bk)
        (request None name key []) c = Return (inr resp, with_node (Name b) dbb' c)
    ∧ stored None dbb dbb' bk (pid h) name h (delete h (view dbb bk (pid h) name)).
Proof.
  intros h Hn Hcfg Hnet Hfit Hne (dbb & Hb & Hwf & Hbc & Hsg).
  set (req := incoming (op_delete bk) None None name key []).
  rewrite <-(pid_of_cfg dbb) in Hsg by done.
  destruct (delete_local_spec (Name b) dbb c bk req Hb Hwf Hsg) as (dbb' & Hdel & Hst).
  exists dbb, dbb', (protocol.written (protocol.Success req)). split; [done|].
  split; [|by rewrite <-(pid_of_cfg dbb)].
  rewrite (requestTo_run _ _ _ _ _ None name key [] _ (with_node (Name b) dbb' c) db dbb db
    (protocol.Success req)); try done.
  - by rewrite Hbc.
  - by destruct bk.
  - destruct bk; [by apply (serve_op _ _ _ deleteBackupOperation)|by apply (serve_op _ _ _ deletePrevOperation)].
  - simpl. by rewrite lookup_insert_ne.
  - rewrite Hcfg. apply success_ok; [by eapply fits_key|by destruct bk].
Qed.

(** The key has been removed on the nodes [bs] and nothing else has changed. *)
Record cleared (bk : bool) (h : Z) (name : list byte) (bs : list host) (c c' : cluster) : Prop := {
  cl_evolves : evolves c c';
  cl_tasks : tasks c' = tasks c;
  cl_others m : m ∉ map Name bs → nodes c' !! m = nodes c !! m;
  cl_on : Forall (fun b => changed c c' (Name b) bk h name (delete h)) bs
}.

Lemma cleared_none bk h name c : cleared bk h name [] c c.
Proof. by split. Qed.

Lemma cleared_cons bk h name b bs dbb dbb' c c' :
  Name b ∉ map Name bs → nodes c !! Name b = Some dbb →
  stored None dbb dbb' bk (pid h) name h (delete h (view dbb bk (pid h) name)) →
  cleared bk h name bs (with_node (Name b) dbb' c) c' → cleared bk h name (b :: bs) c c'.
Proof.
  intros Hb Hdbb Hst [Hev Htasks Hsame Hall]. split.
  - etrans; [|done]. eapply evolves_with_node; [done| | |]; apply Hst.
  - by rewrite Htasks.
  - intros m Hm. apply not_elem_of_cons in Hm as [Hmb Hm]. rewrite Hsame by done. simpl.
    by apply lookup_insert_ne.
  - constructor.
    + exists dbb, dbb'. split; [done|]. split; [|done]. rewrite Hsame by done.
      apply lookup_insert_eq.
    + rewrite Forall_forall in Hall |- *. intros b' Hb'.
      destruct (Hall b' Hb') as (d1 & d2 & Hd1 & Hd2 & Hs). exists d1, d2. split; [|done].
      simpl in Hd1. rewrite lookup_insert_ne in Hd1; [done|]. intros E. apply Hb. rewrite E.
      by apply list_elem_of_fmap_2.
Qed.

(** A loop that asks one node after the other to remove the key. *)
Lemma clear_loop {A} (loop : list host → M A) (r : A) fuel bk n db name key bs :
  let h := getHKey name key in
  config db = cfg → fits (MaxValueSize cfg) name key [] →
  (∀ c, loop [] c = Return (r, c)) →
  (∀ b bs c c1 resp, Name b ≠ n → nodes c !! n = Some db →
     requestTo (serve (Datatypes.S fuel)) n (host_String b) (op_delete bk) (request None name key []) c
       = Return (inr resp, c1) → loop (b :: bs) c = loop bs c1) →
  ∀ c, nodes c !! n = Some db → net c = [] →
  NoDup (map Name bs) → n ∉ map Name bs → Forall (delete_ready bk c h name) bs →
  ∃ c', loop bs c = Return (r, c') ∧ cleared bk h name bs c c'.
Proof.
  intros h Hcfg Hfit Hnil Hcons. induction bs as [|b bs IH]; intros c Hn Hnet Hnd Hni Hready.
  { exists c. split; [done|apply cleared_none]. }
  simpl in Hnd, Hni. apply NoDup_cons in Hnd as [Hb Hnd]. apply not_elem_of_cons in Hni as [Hnb Hni].
  apply Forall_cons in Hready as [Hr Hready].
  destruct (delete_request fuel bk n b c db name key Hn Hcfg Hnet Hfit ltac:(done) Hr)
    as (dbb & dbb' & resp & Hdbb & Hreq & Hst).
  destruct (IH (with_node (Name b) dbb' c)) as (c' & Hrun & Hcl); try done.
  { simpl. by rewrite lookup_insert_ne. }
  { rewrite Forall_forall in Hready |- *. intros b' Hb'. apply delete_ready_other; [by apply Hready|].
    intros E. apply Hb. rewrite <-E. by apply list_elem_of_fmap_2. }
  exists c'. split; [by rewrite (Hcons _ _ _ _ _ ltac:(done) Hn Hreq)|by eapply cleared_cons].
Qed.

Lemma delete_backup_loop_spec fuel n db name key bs :
  let h := getHKey name key in
  config db = cfg → fits (MaxValueSize cfg) name key [] →
  ∀ c, nodes c !! n = Some db → net c = [] →
  NoDup (map Name bs) → n ∉ map Name bs → Forall (delete_ready true c h name) bs →
  ∃ c', delete_backup_loop (serve (Datatypes.S fuel)) n name key bs None c = Return (None, c')
    ∧ cleared true h name bs c c'.
Proof.
  intros h Hcfg Hfit.
  apply (clear_loop (fun bs => delete_backup_loop _ n name key bs None) None fuel true n db); [done..|].
  intros b bs' c c1 resp _ _ Hreq. cbn [delete_backup_loop]. by step Hreq.
Qed.

(** What a successful delete leaves behind. *)
Record delete_done (c c' : cluster) (h : Z) (name : list byte) (bs : list host) : Prop := {
  del_evolves : evolves c c';
  del_tasks : tasks c' = tasks c;
  del_owner : changed c c' (Name (owner (pid h))) false h name (delete h);
  del_backups : Forall (fun b => changed c c' (Name b) true h name (delete h)) bs;
  del_others m : m ≠ Name (owner (pid h)) → m ∉ map Name bs → nodes c' !! m = nodes c !! m
}.

(** The backups a delete clears. *)
Definition delete_targets (h : Z) : list host :=
  if BackupCount cfg =? 0 then [] else bowners (pid h).

Record deletable (c : cluster) (db : Olric) (h : Z) (name key : list byte) : Prop := {
  able_fits : fits (MaxValueSize cfg) name key [];
  able_single : view_single db false (pid h) name h;
  able_backups : Forall (delete_ready true c h name) (delete_targets h)
}.

(** The step that clears the backups, with the map on the owner locked. *)
Lemma delete_backup_step fuel n db db2 lk (c : cluster) name key :
  let h := getHKey name key in
  settled c → Name (owner (pid h)) = n → nodes c !! n = Some db →
  deletable c db h name key → same_node db db2 → wf_node lk db2 →
  ∃ c3,
    (if negb (BackupCount (config db2) =? 0)
     then deleteKeyValBackup (serve (Datatypes.S fuel)) n h name key
     else mret None) (with_node n db2 c) = Return (None, c3)
    ∧ evolves (with_node n db2 c) c3 ∧ tasks c3 = tasks c ∧ nodes c3 !! n = Some db2
    ∧ (∀ m, m ≠ n → m ∉ map Name (delete_targets h) → nodes c3 !! m = nodes c !! m)
    ∧ Forall (fun b => Name b ≠ n
                ∧ changed (with_node n db2 c) c3 (Name b) true h name (delete h))
        (delete_targets h).
Proof.
  intros h Hc Ho Hn [Hfit _ Hready] Hs Hwf2. destruct (st_node _ Hc n db Hn) as (Hwf & Hcfg & _).
  pose proof (pid_range _ _ _ h Hc Hn) as Hpid.
  assert (config db2 = cfg) as Hcfg2 by (by rewrite (same_config _ _ Hs)).
  rewrite Hcfg2. unfold delete_targets in *. destruct (Z.eqb_spec (BackupCount cfg) 0) as [H0c|H0c].
  { exists (with_node n db2 c). split; [done|]. split; [reflexivity|]. split; [done|].
    split; [apply lookup_insert_eq|]. split; [|done]. intros m Hm _. simpl.
    by apply lookup_insert_ne. }
  cbn [negb]. destruct (st_apart _ Hc _ Hpid) as [Hnd Hni]. rewrite Ho in Hni.
  assert (∀ b, b ∈ bowners (pid h) → Name b ≠ n) as Hbn.
  { intros b Hb E. apply Hni. rewrite <-E. by apply list_elem_of_fmap_2. }
  destruct (delete_backup_loop_spec fuel n db2 name key (bowners (pid h)) Hcfg2 Hfit
    (with_node n db2 c)) as (c3 & Hrun & [Hev Htasks Hsame Hall]); try done.
  - apply lookup_insert_eq.
  - apply (st_net _ Hc).
  - rewrite Forall_forall in Hready |- *. intros b Hb.
    apply delete_ready_other; [by apply Hready|by apply Hbn].
  - exists c3. split; [|split; [done|split; [done|split; [|split]]]].
    + unfold deleteKeyValBackup.
      at_node (with_node_lookup n db2 c).
      calc (eq_trans
        (proj2 (same_owner_lists _ _ _ _ h Hwf Hwf2 Hs)) (proj2 (owners_ok n db c h Hc Hn))).
      exact Hrun.
    + rewrite Hsame by done. apply lookup_insert_eq.
    + intros m Hm Hmb. rewrite Hsame by done. simpl. by apply lookup_insert_ne.
    + rewrite Forall_forall in Hall |- *. intros b Hb. split; [by apply Hbn|by apply Hall].
Qed.

Lemma delete_at_owner fuel n db (c : cluster) name key :
  let h := getHKey name key in
  settled c → Name (owner (pid h)) = n → nodes c !! n = Some db → deletable c db h name key →
  ∃ c', deleteKey (serve (Datatypes.S fuel)) n name key c = Return (None, c')
    ∧ delete_done c c' h name (delete_targets h).
Proof.
  intros h Hc Ho Hn Hable. destruct (st_node _ Hc n db Hn) as (Hwf & Hcfg & _).
  destruct (get_dmap_of_spec None n db c false name h Hn Hwf ltac:(done)) as (a & db1 & Hget & Hg).
  destruct (got_dmap _ _ _ _ _ _ _ Hg) as (d & Hd & Hmu & Hok & Hmap & _ & Hsg).
  rewrite pid_of_cfg in Hmap, Hsg by done.
  destruct (kv_delete_ok (dm_str d) h Hok (Hsg h (able_single _ _ _ _ _ Hable)))
    as (s & Hdel & Hsok & Hsmap & Hsone).
  set (db2 := set_dm a (with_mu true d) db1).
  pose proof (stored_set_dm None (Some a) _ _ _ _ _ _ _ (with_mu true d) Hg Hd
    ltac:(simpl; by rewrite bool_decide_eq_true_2) Hok ltac:(naive_solver) eq_refl
    ltac:(done)) as Hst2.
  pose proof (stored_set_dm None None _ _ _ _ _ _ _ (with_mu false (with_str s (with_mu true d)))
    Hg Hd eq_refl Hsok ltac:(done) eq_refl (fun h' Hh _ => Hsone h' Hh)) as Hst5.
  pose proof (stored_same _ _ _ _ _ _ _ _ Hst2) as Hs2. fold db2 in Hst2, Hs2.
  pose proof (stored_wf _ _ _ _ _ _ _ _ Hst2) as Hwf2.
  destruct (delete_backup_step fuel n db db2 (Some a) c name key Hc Ho Hn Hable Hs2 Hwf2)
    as (c3 & Hb & Hev & Htasks & Hn3 & Hothers & Hall). fold h in Hb, Hothers, Hall.
  set (db5 := set_dm a (with_mu false (with_str s (with_mu true d))) db1) in *.
  assert (heap db2 !! a = Some (with_mu true d)) as Hd2 by by eapply set_dm_lookup.
  exists (with_node n db5 c3). split.
  - unfold deleteKey, getDMap. at_node Hn.
    calc (locateKey_ok n db c name key Hc Hn).
    cbn beta iota. fold h. rewrite (owner_cmp n db c _ Hc Hn (pid_range _ _ _ _ Hc Hn)).
    rewrite bool_decide_eq_true_2 by done. cbn [negb].
    step Hget. cbn beta iota.
    apply locked_section; [done..|]. fold db2.
    unfold delKeyVal. at_node (with_node_lookup n db2 c).
    calc (eq_trans
      (proj1 (same_owner_lists _ _ _ _ h Hwf Hwf2 Hs2)) (proj1 (owners_ok n db c h Hc Hn))).
    rewrite decide_False by done. cbn [previous rev take length Nat.sub delete_loop].
    rewrite (bind_run _ _ _ _ _ (ret_run None (with_node n db2 c))). cbn beta iota.
    step Hb. cbn beta iota.
    rewrite (bind_run _ _ _ _ _ (oplog_skipped _ _ _ _ _ _ Hn3
      (wf_mode _ _ (got_wf _ _ _ _ _ _ _ Hg)))).
    by rewrite (bind_run _ _ _ _ _ (str_call_run _ _ _ _ (with_mu true d) _ s None Hn3 Hd2 Hdel)).
  - cbn [dm_str with_mu with_str] in Hst5. rewrite Hsmap, Hmap in Hst5.
    rewrite pid_of_cfg in Hst5 by done.
    destruct (owner_written true n db db2 db5 c c3 h name (delete h) _ _ Ho Hn Hst5 Hev Hothers Hall) as (? & ? & ? & ?).
    by split.
Qed.

(** A delete on a node that does not own the key. *)
Lemma delete_forwarded fuel n dbn dbo o h (c c' : cluster) name key :
  nodes c !! n = Some dbn → nodes c !! Name o = Some dbo → config dbn = cfg → config dbo = cfg →
  net c = [] → locateKey dbn name key = Return (inr (o, h)) → hostCmp o (this dbn) = false →
  fits (MaxValueSize cfg) name key [] →
  deleteKey (serve (Datatypes.S fuel)) (Name o) name key c = Return (None, c') → evolves c c' →
  deleteKey (serve (Datatypes.S (Datatypes.S fuel))) n name key c = Return (None, c').
Proof.
  intros Hn Ho Hcfg Hcfgo Hnet Hloc Hcmp Hfit Hrun Hev.
  unfold deleteKey. at_node Hn. calc Hloc. cbn beta iota. rewrite Hcmp. cbn [negb].
  set (req := incoming protocol.OpExDelete None None name key []).
  destruct (evolves_node _ _ _ _ Hev Hn) as (dbn' & Hn' & Hs & _).
  erewrite bind_run; last first.
  { apply (requestTo_run _ _ _ _ _ None name key [] c c' dbn dbo dbn' (protocol.Success req));
      try done.
    - by rewrite Hcfgo.
    - apply (serve_op _ _ _ (exDeleteOperation (serve (Datatypes.S fuel)))); [done|].
      unfold exDeleteOperation. by rewrite (bind_run _ _ _ _ _ Hrun).
    - rewrite (same_config _ _ Hs), Hcfg. apply success_ok; [by eapply fits_key|done]. }
  done.
Qed.

Lemma cluster_delete_spec fuel n dbn dbo (c : cluster) name key :
  let h := getHKey name key in
  settled c → nodes c !! n = Some dbn → nodes c !! Name (owner (pid h)) = Some dbo →
  deletable c dbo h name key →
  ∃ c', deleteKey (serve (Datatypes.S (Datatypes.S fuel))) n name key c = Return (None, c')
    ∧ delete_done c c' h name (delete_targets h).
Proof.
  intros h Hc Hn Ho Hable. pose proof (pid_range _ _ _ h Hc Hn) as Hpid.
  destruct (decide (Name (owner (pid h)) = n)) as [E|E].
  { rewrite E in Ho. assert (dbo = dbn) as -> by congruence.
    by apply (delete_at_owner (Datatypes.S fuel) n dbn). }
  destruct (delete_at_owner fuel _ dbo c name key Hc eq_refl Ho Hable) as (c' & Hrun & Hdone).
  exists c'. split; [|done].
  apply (delete_forwarded fuel n dbn dbo (owner (pid h)) h); try done.
  - by destruct (st_node _ Hc _ _ Hn) as (_ & ? & _).
  - by destruct (st_node _ Hc _ _ Ho) as (_ & ? & _).
  - apply (st_net _ Hc).
  - apply (locateKey_ok n dbn c name key Hc Hn).
  - rewrite (owner_cmp n dbn c _ Hc Hn Hpid). by rewrite bool_decide_eq_false_2.
  - apply Hable.
  - apply Hdone.
Qed.

(** ** Theorems *)

(** The owner after a put binds the key to the value. *)
Lemma put_done_owner c c' h name v bs dbo :
  put_done c c' h name v bs → nodes c !! Name (owner (pid h)) = Some dbo →
  ∃ dbo', nodes c' !! Name (owner (pid h)) = Some dbo' ∧ same_node dbo dbo'
    ∧ view dbo' false (pid h) name !! h = Some v.
Proof.
  intros Hdone Ho. destruct (put_owner _ _ _ _ _ _ Hdone) as (d1 & d2 & Hd1 & Hd2 & Hst).
  simplify_eq. exists d2. split; [done|]. split; [apply Hst|].
  rewrite (stored_view _ _ _ _ _ _ _ _ Hst). apply lookup_insert_eq.
Qed.

(** A put changes no other binding. *)
Lemma put_done_others c c' h name v bs m db db' bk i name' h' :
  put_done c c' h name v bs → nodes c !! m = Some db → nodes c' !! m = Some db' →
  (i, name', h') ≠ (pid h, name, h) → view db' bk i name' !! h' = view db bk i name' !! h'.
Proof.
  intros [_ _ Hown Hall Hoth] Hm Hm' Hne.
  assert (∀ bk' v', changed c c' m bk' h name (insert h v') →
    view db' bk i name' !! h' = view db bk i name' !! h') as Hch.
  { intros bk' v' (d1 & d2 & Hd1 & Hd2 & Hst). simplify_eq.
    destruct (decide ((bk, i, name') = (bk', pid h, name))) as [E|E].
    - simplify_eq. rewrite (stored_view _ _ _ _ _ _ _ _ Hst), lookup_insert_ne; [done|].
      intros <-. by apply Hne.
    - by rewrite (stored_view_others _ _ _ _ _ _ _ _ _ _ _ Hst E). }
  destruct (decide (m = Name (owner (pid h)))) as [->|Hmo]; [by eapply Hch|].
  destruct (decide (m ∈ map Name (bs))) as [Hin|Hnin].
  - apply list_elem_of_fmap_1 in Hin as (b & -> & Hb). rewrite Forall_forall in Hall.
    by eapply Hch, Hall.
  - rewrite Hoth in Hm' by done. by simplify_eq.
Qed.

(** A get after a put, for any two keys with the same hash. *)
Lemma put_get_spec fuel n1 n2 db1 db2 dbo (c : cluster) name key1 key2 value timeout :
  let h := getHKey name key1 in
  settled c → nodes c !! n1 = Some db1 → nodes c !! n2 = Some db2 →
  nodes c !! Name (owner (pid h)) = Some dbo → in_int64 timeout →
  put_ready c dbo h name key1 value timeout → getHKey name key2 = h →
  fits (MaxValueSize cfg) name key2 [] → len value + 8 < 2 ^ 32 →
  let sv := serve (Datatypes.S (Datatypes.S fuel)) in
  ∃ c1 c2, put sv n1 name key1 value timeout c = Return (None, c1)
    ∧ get sv n2 name key2 c1
      = Return (get_result (visible dbo (Some (put_value dbo key1 value timeout))), c2)
    ∧ settled c1 ∧ settled c2
    ∧ put_done c c1 h name (put_value dbo key1 value timeout) (put_targets dbo h).
Proof.
  intros h Hc Hn1 Hn2 Ho Ht Hready Hh Hfit Hlen sv.
  destruct (cluster_put_spec fuel n1 db1 dbo c name key1 value timeout Hc Hn1 Ho Ht Hready)
    as (c1 & Hput & Hdone). fold h in Hdone.
  pose proof (put_evolves _ _ _ _ _ _ Hdone) as Hev.
  pose proof (settled_evolves _ _ Hc Hev) as Hc1.
  destruct (put_done_owner _ _ _ _ _ _ _ Hdone Ho) as (dbo' & Ho' & Hs & Hv).
  destruct (evolves_node _ _ _ _ Hev Hn2) as (db2' & Hn2' & _).
  assert (get_answer c1 dbo' h name = visible dbo (Some (put_value dbo key1 value timeout))) as Hans.
  { unfold get_answer. rewrite Hv. simpl. by rewrite (same_expired dbo dbo'). }
  rewrite <-Hh in Ho', Hans.
  destruct (cluster_get_spec fuel n2 db2' dbo' c1 name key2 Hc1 Hn2' Ho' Hfit)
    as (c2 & Hget & Hev2 & _).
  { rewrite Hh in *. split; [by rewrite Hv|]. rewrite Hans. simpl.
    destruct (isKeyExpired _ _); [done|]. intros v [= <-].
    destruct (ready_fits _ _ _ _ _ _ _ Hready) as (_ & _ & ? & _). done. }
  rewrite Hans in Hget. exists c1, c2. split; [done|]. split; [done|]. split; [done|].
  split; [by eapply settled_evolves|done].
Qed.

(** C3: on a settled cluster a value put on any node is read back on any node: when the
    value fits a message and the storages of the owner and of the backups have room for it
    ([put_ready]: the backups are written synchronously, so no task is left behind), the put
    succeeds, the owner holds the value with its deadline and every backup holds it without
    one, and the get that follows answers the value, or reports the key as missing when the
    timeout is so short that it has expired already; without a timeout it answers the value.
    Both calls terminate within two levels of requests and leave the cluster settled; no
    request is lost, and between the two calls no clock moves and no merge runs. *)
Theorem Put_then_Get fuel n1 n2 db1 db2 dbo (c : cluster) name key value timeout :
  let h := getHKey name key in
  settled c → nodes c !! n1 = Some db1 → nodes c !! n2 = Some db2 →
  nodes c !! Name (owner (pid h)) = Some dbo → in_int64 timeout →
  put_ready c dbo h name key value timeout →
  let sv := serve (Datatypes.S (Datatypes.S fuel)) in
  ∃ c1 c2 r, put sv n1 name key value timeout c = Return (None, c1)
    ∧ get sv n2 name key c1 = Return (r, c2) ∧ settled c1 ∧ settled c2
    ∧ r = get_result (visible dbo (Some (put_value dbo key value timeout)))
    ∧ (timeout = 0 → r = inr value)
    ∧ (∃ dbo', nodes c1 !! Name (owner (pid h)) = Some dbo'
        ∧ view dbo' false (pid h) name !! h = Some (put_value dbo key value timeout))
    ∧ Forall (fun b => ∃ dbb, nodes c1 !! Name b = Some dbb
        ∧ view dbb true (pid h) name !! h = Some (mkVData key 0 value)) (put_targets dbo h).
Proof.
  intros h Hc Hn1 Hn2 Ho Ht Hready sv.
  pose proof (ready_fits _ _ _ _ _ _ _ Hready) as (Hf1 & Hf2 & Hf3 & Hf4).
  pose proof (len_nonneg name). pose proof (len_nonneg key). pose proof (len_nonneg value).
  destruct (put_get_spec fuel n1 n2 db1 db2 dbo c name key key value timeout Hc Hn1 Hn2 Ho Ht Hready
    eq_refl) as (c1 & c2 & Hput & Hget & Hc1 & Hc2 & Hdone); [|lia|].
  { unfold fits. change (len (@nil byte)) with 0. lia. }
  eexists c1, c2, _. split; [done|]. split; [done|]. split; [done|]. split; [done|].
  split; [done|]. split; [by intros ->|]. fold h in Hdone. split.
  - destruct (put_done_owner _ _ _ _ _ _ _ Hdone Ho) as (dbo' & Ho' & _ & Hv). by exists dbo'.
  - eapply Forall_impl; [exact (put_backups _ _ _ _ _ _ Hdone)|].
    intros b (e1 & e2 & _ & He2 & Hst). exists e2. split; [done|].
    rewrite (stored_view _ _ _ _ _ _ _ _ Hst). apply lookup_insert_eq.
Qed.

(** A value put with a timeout never expires on the backups: the TTL does not
    survive the request to them ([Read] drops the extras of [OpPutBackup]), so a backup
    answers the value at every later time, also after the owner reports it as expired. *)
Theorem PutEx_never_expires_on_backups fuel n dbn dbo (c : cluster) name key value timeout b :
  let h := getHKey name key in
  settled c → nodes c !! n = Some dbn → nodes c !! Name (owner (pid h)) = Some dbo →
  in_int64 timeout → put_ready c dbo h name key value timeout → b ∈ put_targets dbo h →
  ∃ c' dbb, put (serve (Datatypes.S (Datatypes.S fuel))) n name key value timeout c
      = Return (None, c')
    ∧ nodes c' !! Name b = Some dbb
    ∧ view dbb true (pid h) name !! h = Some (mkVData key 0 value)
    ∧ ∀ db : Olric, visible db (Some (mkVData key 0 value)) = Some value.
Proof.
  intros h Hc Hn Ho Ht Hready Hb.
  destruct (cluster_put_spec fuel n dbn dbo c name key value timeout Hc Hn Ho Ht Hready)
    as (c' & Hput & Hdone). fold h in Hdone. pose proof (put_backups _ _ _ _ _ _ Hdone) as Hall.
  rewrite Forall_forall in Hall. destruct (Hall b Hb) as (d1 & d2 & Hd1 & Hd2 & Hst).
  exists c', d2. split; [done|]. split; [done|]. split; [|done].
  rewrite (stored_view _ _ _ _ _ _ _ _ Hst). apply lookup_insert_eq.
Qed.

(** Keys are told apart by their 64-bit hash alone: after a put of one key, a get of
    another key of the map with the same hash answers the value of the first. *)
Theorem colliding_keys_share_their_value fuel n1 n2 db1 db2 dbo (c : cluster) name key1 key2 value :
  let h := getHKey name key1 in
  settled c → nodes c !! n1 = Some db1 → nodes c !! n2 = Some db2 →
  nodes c !! Name (owner (pid h)) = Some dbo → put_ready c dbo h name key1 value 0 →
  getHKey name key2 = h → fits (MaxValueSize cfg) name key2 [] →
  let sv := serve (Datatypes.S (Datatypes.S fuel)) in
  ∃ c1 c2, put sv n1 name key1 value 0 c = Return (None, c1)
    ∧ get sv n2 name key2 c1 = Return (inr value, c2).
Proof.
  intros h Hc Hn1 Hn2 Ho Hready Hh Hfit sv.
  pose proof (ready_fits _ _ _ _ _ _ _ Hready) as (Hf1 & Hf2 & Hf3 & Hf4).
  pose proof (len_nonneg name). pose proof (len_nonneg key1).
  destruct (put_get_spec fuel n1 n2 db1 db2 dbo c name key1 key2 value 0 Hc Hn1 Hn2 Ho
    ltac:(done) Hready Hh Hfit ltac:(lia)) as (c1 & c2 & Hput & Hget & _). eauto.
Qed.

(** C4: on a settled cluster a delete called on any node succeeds, whether the key is there
    or not; afterwards neither its owner nor any backup owner has a binding for it, and the
    get that follows, on any node, reports the key as missing.  On each of these nodes the
    key is stored in one table at most ([deletable]): an older copy in another table would
    show up again.  No request is lost. *)
Theorem Delete_then_Get fuel n1 n2 db1 db2 dbo (c : cluster) name key :
  let h := getHKey name key in
  settled c → nodes c !! n1 = Some db1 → nodes c !! n2 = Some db2 →
  nodes c !! Name (owner (pid h)) = Some dbo → deletable c dbo h name key →
  (BackupCount cfg = 0 → bowners (pid h) = []) →
  let sv := serve (Datatypes.S (Datatypes.S fuel)) in
  ∃ c1 c2, deleteKey sv n1 name key c = Return (None, c1)
    ∧ get sv n2 name key c1 = Return (inl OErrKeyNotFound, c2) ∧ settled c1 ∧ settled c2
    ∧ (∃ dbo', nodes c1 !! Name (owner (pid h)) = Some dbo'
        ∧ view dbo' false (pid h) name !! h = None)
    ∧ Forall (fun b => ∃ dbb, nodes c1 !! Name b = Some dbb
        ∧ view dbb true (pid h) name !! h = None) (bowners (pid h)).
Proof.
  intros h Hc Hn1 Hn2 Ho Hable Hbk sv. pose proof (able_fits _ _ _ _ _ Hable) as Hfit.
  destruct (cluster_delete_spec fuel n1 db1 dbo c name key Hc Hn1 Ho Hable)
    as (c1 & Hdel & Hdone). fold h in Hdone.
  pose proof (del_evolves _ _ _ _ _ Hdone) as Hev. pose proof (settled_evolves _ _ Hc Hev) as Hc1.
  destruct (del_owner _ _ _ _ _ Hdone) as (d1 & dbo' & Hd1 & Ho' & Hst).
  destruct (evolves_node _ _ _ _ Hev Hn2) as (db2' & Hn2' & _).
  assert (view dbo' false (pid h) name !! h = None) as Hv.
  { rewrite (stored_view _ _ _ _ _ _ _ _ Hst). apply lookup_delete_eq. }
  assert (Forall (fun b => ∃ dbb, nodes c1 !! Name b = Some dbb
    ∧ view dbb true (pid h) name !! h = None) (bowners (pid h))) as Hgone.
  { pose proof (del_backups _ _ _ _ _ Hdone) as Hall. unfold delete_targets in Hall.
    destruct (Z.eqb_spec (BackupCount cfg) 0) as [H0c|_]; [by rewrite Hbk|].
    eapply Forall_impl; [exact Hall|]. intros b (e1 & e2 & _ & He2 & Hs). exists e2.
    rewrite (stored_view _ _ _ _ _ _ _ _ Hs). by rewrite lookup_delete_eq. }
  assert (Forall (fun b => backup_answer c1 h name b = None) (bowners (pid h))) as Hnone.
  { eapply Forall_impl; [exact Hgone|]. intros b (dbb & Hb & Hbv).
    unfold backup_answer. by rewrite Hb, Hbv. }
  assert (get_answer c1 dbo' h name = None) as Hans.
  { unfold get_answer. by rewrite Hv, (omap_none _ _ Hnone). }
  destruct (cluster_get_spec fuel n2 db2' dbo' c1 name key Hc1 Hn2' Ho' Hfit)
    as (c2 & Hget & Hev2 & _).
  { fold h. split; [|by rewrite Hans]. intros _. eapply Forall_impl; [exact Hnone|].
    intros b Hb v. by rewrite Hb. }
  fold h in Hget. rewrite Hans in Hget. exists c1, c2. split; [done|]. split; [done|].
  split; [done|]. split; [by eapply settled_evolves|]. split; [by exists dbo'|done].
Qed.

(** C5: a get changes no binding of any node, and its answer is the one of the owner or,
    when the owner has no binding for the key, the one of the first backup that has it:
    a value that the owner has lost is recovered from a backup.  The cluster is settled, no
    request is lost, and the name, the key and the values that are read fit a message. *)
Theorem Get_correct fuel n dbn dbo (c : cluster) name key :
  let h := getHKey name key in
  settled c → nodes c !! n = Some dbn → nodes c !! Name (owner (pid h)) = Some dbo →
  fits (MaxValueSize cfg) name key [] → get_fits c dbo h name →
  ∃ c', get (serve (Datatypes.S (Datatypes.S fuel))) n name key c
        = Return (get_result (get_answer c dbo h name), c')
    ∧ settled c' ∧ same_views c c'.
Proof.
  intros h Hc Hn Ho Hfit Hgf.
  destruct (cluster_get_spec fuel n dbn dbo c name key Hc Hn Ho Hfit Hgf)
    as (c' & Hget & Hev & Hsv & _). exists c'. split; [done|]. split; [|done].
  by eapply settled_evolves.
Qed.

(** A put of a key leaves every other binding of every node alone: those
    of other maps, of other keys of the map, and of other partitions. *)
Theorem Put_leaves_other_bindings fuel n dbn dbo (c : cluster) name key value timeout :
  let h := getHKey name key in
  settled c → nodes c !! n = Some dbn → nodes c !! Name (owner (pid h)) = Some dbo →
  in_int64 timeout → put_ready c dbo h name key value timeout →
  ∃ c', put (serve (Datatypes.S (Datatypes.S fuel))) n name key value timeout c = Return (None, c')
    ∧ ∀ m db db' bk i name' h', nodes c !! m = Some db → nodes c' !! m = Some db' →
      (i, name', h') ≠ (pid h, name, h) → view db' bk i name' !! h' = view db bk i name' !! h'.
Proof.
  intros h Hc Hn Ho Ht Hready.
  destruct (cluster_put_spec fuel n dbn dbo c name key value timeout Hc Hn Ho Ht Hready)
    as (c' & Hput & Hdone). fold h in Hdone.
  exists c'. split; [done|]. intros. by eapply put_done_others.
Qed.
End cspec.
End cspec.
