(* ===== verification/AtomicSpec.v ===== *)
(** Named locks and atomic operations on a settled cluster: [Lock], [Unlock], [Incr],
    [Decr] and [GetPut], called on any node.  The lock of a key lives in the map on the
    owner of the key; an atomic operation is a lock, a get, a put and an unlock. *)

From S2P Require Export ClusterSpec.

Module atomic.
Export cspec.

Section atomic.
Context {S N : Type} `{!KV S} `{!KVLaws S} `{!Snap S N} `{!Env}.
Context `{!BirthdateSort} `{!Codec NodeMetadata} `{!RangeOrder (list byte)} `{!Codec (gmap Z route)}.
Context `{!Codec dmapbox}.
Context {V : Type} `{!Serializer V} `{!SerializerLaws V}.
Abbreviation M := (olric.M S N).
Abbreviation Olric := (olric.Olric S N).
Abbreviation cluster := (olric.cluster S N).
Abbreviation serve := (dispatch.serve (S := S) (N := N) (V := V)).

(** ** The lock of a map *)

(** The locker of the map [name]; a map that does not exist yet is created with an empty
    one. *)
Definition locker_at (db : Olric) (i : Z) (name : list byte) (l : locker.locker) : Prop :=
  match ref db false i name with
  | Some a => ∃ d, heap db !! a = Some d ∧ dm_locker d = Some l
  | None => l = locker.newLocker
  end.

Definition unlocked (db : Olric) (i : Z) (name key : list byte) : Prop :=
  ∃ l, locker_at db i name l ∧ locker.locks l !! key = None.

(** The key is locked and nobody waits for it. *)
Definition held (db : Olric) (i : Z) (name key : list byte) : Prop :=
  ∃ l, locker_at db i name l ∧ locker.taken l key.

Lemma locker_at_keeps db db' i name l : keeps_locks db db' → locker_at db i name l → locker_at db' i name l.
Proof.
  intros Hk. unfold locker_at. destruct (ref db false i name) as [a|] eqn:Hr.
  - intros (d & Hd & Hdl). destruct (kl_old _ _ Hk _ _ _ _ _ Hr Hd) as [-> Hd'].
    destruct (heap db' !! a) as [d'|]; [|done]. exists d'. split; [done|]. simplify_eq/=. congruence.
  - intros ->. destruct (ref db' false i name) as [a|] eqn:Hr'; [|done].
    pose proof (kl_new _ _ Hk _ _ _ _ Hr Hr') as Ha. destruct (heap db' !! a) as [d|]; [|done].
    exists d. split; [done|]. by simplify_eq/=.
Qed.

Lemma held_keeps db db' i name key : keeps_locks db db' → held db i name key → held db' i name key.
Proof. intros Hk (l & Hl & Ht). exists l. split; [by eapply locker_at_keeps|done]. Qed.

Definition with_locker (l : locker.locker) (d : dmap S) : dmap S :=
  mkDmap (dm_mu d) (Some l) (dm_oplog d) (dm_str d).

Lemma locker_call_run {E} n db (c : cluster) a d l f l' (e : E) :
  nodes c !! n = Some db → heap db !! a = Some d → dm_locker d = Some l → f l = Return (l', e) →
  locker_call n a f c = Return (e, with_node n (set_dm a (with_locker l' d) db) c).
Proof.
  intros Hn Ha Hl Hf. unfold locker_call. step (get_dm_run _ _ _ _ _ Hn Ha). rewrite Hl.
  calc Hf. by step (put_dm_run _ _ _ _ _ Hn).
Qed.

Lemma set_dm_id a d (db : Olric) : heap db !! a = Some d → set_dm a d db = db.
Proof. intros Ha. unfold set_dm, set_heap. rewrite list_insert_id by done. by destruct db. Qed.

Lemma with_locker_id l d : dm_locker d = Some l → with_locker l d = d.
Proof. destruct d. simpl. by intros ->. Qed.

Lemma locker_check_run n db (c : cluster) a d l key :
  nodes c !! n = Some db → heap db !! a = Some d → dm_locker d = Some l →
  locker_check n a key c = Return (locker.check l key, c).
Proof.
  intros Hn Ha Hl. unfold locker_check.
  rewrite (locker_call_run n db c a d l _ l (locker.check l key) Hn Ha Hl eq_refl).
  by rewrite with_locker_id, set_dm_id, with_node_id.
Qed.

Lemma locker_lock_run n db (c : cluster) a d l l' key :
  nodes c !! n = Some db → heap db !! a = Some d → dm_locker d = Some l →
  locker.lock l key = Return l' →
  locker_lock n a key c = Return (tt, with_node n (set_dm a (with_locker l' d) db) c).
Proof.
  intros Hn Ha Hl Hlock. apply (locker_call_run _ _ _ _ _ l); try done. by rewrite Hlock.
Qed.

Lemma locker_lock_blocks n db (c : cluster) a d l key :
  nodes c !! n = Some db → heap db !! a = Some d → dm_locker d = Some l →
  locker.lock l key = Running → locker_lock n a key c = Running.
Proof.
  intros Hn Ha Hl Hlock. unfold locker_lock, locker_call. step (get_dm_run _ _ _ _ _ Hn Ha).
  rewrite Hl. unfold mbind at 1, M_bind, lift. by rewrite Hlock.
Qed.

Lemma locker_unlock_run n db (c : cluster) a d l l' e key :
  nodes c !! n = Some db → heap db !! a = Some d → dm_locker d = Some l →
  locker.unlock l key = Return (l', e) →
  locker_unlock n a key c
  = Return ((fun _ => OErrNoSuchLock) <$> e, with_node n (set_dm a (with_locker l' d) db) c).
Proof.
  intros Hn Ha Hl Hun. unfold locker_unlock. by step (locker_call_run _ _ _ _ _ l _ _ _ Hn Ha Hl Hun).
Qed.

(** The locker of the map [name] has become [l]; nothing else has changed. *)
Record relocked (db db' : Olric) (i : Z) (name : list byte) (l : locker.locker) : Prop := {
  rel_wf : wf_node None db';
  rel_same : same_node db db';
  rel_und : undisturbed db db';
  rel_at : locker_at db' i name l;
  rel_ref bk i' name' a : ref db bk i' name' = Some a → ref db' bk i' name' = Some a;
  rel_other i' name' l' : (i', name') ≠ (i, name) → locker_at db i' name' l' → locker_at db' i' name' l'
}.

Lemma relocked_set_dm db db1 h name a d l :
  wf_node None db → got_map db db1 None false h name a → heap db1 !! a = Some d →
  relocked db (set_dm a (with_locker l d) db1) (pid_of db h) name l.
Proof.
  intros Hwf0 Hg Hd. pose proof (got_wf _ _ _ _ _ _ _ Hg) as Hwf.
  pose proof (got_ref _ _ _ _ _ _ _ Hg) as Hr.
  destruct (wf_ref _ _ Hwf _ _ _ _ Hr) as (d' & Hd' & Hmu & Hok). simplify_eq.
  assert (heap (set_dm a (with_locker l d) db1) !! a = Some (with_locker l d)) as Ha
    by by eapply set_dm_lookup.
  split.
  - by eapply (wf_set_dm None None).
  - etrans; [apply (got_same _ _ _ _ _ _ _ Hg)|apply same_set_dm].
  - etrans; [by eapply got_undisturbed|]. split.
    + intros bk i nm. rewrite (view_set_dm None _ _ d _ false (pid_of db h) name) by done.
      destruct (decide ((bk, i, nm) = _)) as [E|_]; [|done]. simplify_eq. unfold view. by rewrite Hr, Hd.
    + intros bk i nm v. unfold view_room. rewrite ref_set_dm.
      destruct (ref db1 bk i nm) as [b|]; [|done]. destruct (decide (b = a)) as [->|Hne].
      * by rewrite Hd, Ha.
      * simpl. by rewrite list_lookup_insert_ne.
    + intros bk i nm v. unfold view_single. rewrite ref_set_dm.
      destruct (ref db1 bk i nm) as [b|]; [|done]. destruct (decide (b = a)) as [->|Hne].
      * by rewrite Hd, Ha.
      * simpl. by rewrite list_lookup_insert_ne.
  - unfold locker_at. rewrite ref_set_dm, Hr. by exists (with_locker l d).
  - intros bk i nm b Hb. rewrite ref_set_dm. destruct (wf_ref _ _ Hwf0 _ _ _ _ Hb) as (e & He & _).
    by apply (kl_old _ _ (got_locks _ _ _ _ _ _ _ Hg) _ _ _ _ e).
  - intros i' name' l' Hne Hl'. apply (locker_at_keeps _ _ _ _ _ (got_locks _ _ _ _ _ _ _ Hg)) in Hl'.
    unfold locker_at in *. rewrite ref_set_dm. destruct (ref db1 false i' name') as [b|] eqn:Hb; [|done].
    simpl. rewrite list_lookup_insert_ne; [done|]. intros ->.
    destruct (wf_inj _ _ Hwf _ _ _ _ _ _ _ Hr Hb) as (_ & E1 & E2). apply Hne. congruence.
Qed.

Lemma getDMap_locker n db (c : cluster) h name l :
  nodes c !! n = Some db → wf_node None db → locker_at db (pid_of db h) name l →
  ∃ a db1 d, getDMap n name h c = Return (inr a, with_node n db1 c)
    ∧ ref db1 false (pid_of db h) name = Some a
    ∧ heap db1 !! a = Some d ∧ dm_locker d = Some l
    ∧ ∀ l', relocked db (set_dm a (with_locker l' d) db1) (pid_of db h) name l'.
Proof.
  intros Hn Hwf Hl.
  destruct (get_dmap_of_spec None n db c false name h Hn Hwf ltac:(done)) as (a & db1 & Hget & Hg).
  destruct (got_dmap _ _ _ _ _ _ _ Hg) as (d & Hd & _). exists a, db1, d.
  split; [done|]. split; [apply (got_ref _ _ _ _ _ _ _ Hg)|]. split; [done|].
  split; [|intros; by apply relocked_set_dm].
  unfold locker_at in Hl. destruct (ref db false (pid_of db h) name) as [b|] eqn:Hr.
  - destruct Hl as (e & He & Hel). destruct (kl_old _ _ (got_locks _ _ _ _ _ _ _ Hg) _ _ _ _ _ Hr He) as [Hr' Hk].
    rewrite (got_ref _ _ _ _ _ _ _ Hg) in Hr'. simplify_eq. rewrite Hd in Hk. simpl in Hk. congruence.
  - pose proof (got_fresh _ _ _ _ _ _ _ Hg Hr) as Hk. rewrite Hd in Hk. simpl in Hk. congruence.
Qed.

(** ** Locking on the owner of the key *)
Context (cfg : Config) (owner : Z → host) (bowners : Z → list host).
Abbreviation settled := (cspec.settled cfg owner bowners).
Abbreviation pid := (cspec.pid cfg).
Abbreviation fits := (cspec.fits (MaxValueSize cfg)).

(** The cluster with one more goroutine. *)
Definition with_task (t : task) (c : cluster) : cluster :=
  mkCluster (nodes c) (net c) (tasks c ++ [t]).

Lemma go_run t (c : cluster) : go t c = Return (tt, with_task t c).
Proof. done. Qed.

Lemma bind_running {A B} (m : M A) (k : A → M B) (c : cluster) :
  m c = Running → mbind k m c = Running.
Proof. intros Hm. unfold mbind, M_bind. by rewrite Hm. Qed.

(** What a call on the lock of a key changes: the locker of its map on the owner, which
    now satisfies [P]. *)
Record relock (c c' : cluster) (h : Z) (name : list byte) (P : locker.locker → Prop) : Prop := {
  lock_shifts : shifts c c';
  lock_views : same_views c c';
  lock_owner : ∃ db l, nodes c' !! Name (owner (pid h)) = Some db ∧ locker_at db (pid h) name l ∧ P l;
  lock_kept m db db' i name' l : nodes c !! m = Some db → nodes c' !! m = Some db' →
    (m, i, name') ≠ (Name (owner (pid h)), pid h, name) →
    locker_at db i name' l → locker_at db' i name' l;
  lock_others m : m ≠ Name (owner (pid h)) → nodes c' !! m = nodes c !! m;
  lock_refs m db db' bk i name' a : nodes c !! m = Some db → nodes c' !! m = Some db' →
    ref db bk i name' = Some a → ref db' bk i name' = Some a
}.

Lemma relock_with_node n db db' (c : cluster) h name l (P : locker.locker → Prop) :
  Name (owner (pid h)) = n → nodes c !! n = Some db → relocked db db' (pid h) name l → P l →
  relock c (with_node n db' c) h name P.
Proof.
  intros Ho Hn [Hwf Hs Hu Hat Href Hot] HP. split.
  - by eapply shifts_with_node.
  - by eapply same_views_with_node.
  - exists db', l. rewrite Ho. split; [apply lookup_insert_eq|done].
  - intros m d d' i name' l' Hd Hd' Hne. simpl in Hd'. destruct (decide (m = n)) as [->|Hm].
    + rewrite lookup_insert_eq in Hd'. simplify_eq. apply Hot. naive_solver.
    + rewrite lookup_insert_ne in Hd' by done. by simplify_eq.
  - intros m Hm. simpl. apply lookup_insert_ne. congruence.
  - intros m d d' bk i nm a Hd Hd'. simpl in Hd'. destruct (decide (m = n)) as [->|Hm].
    + rewrite lookup_insert_eq in Hd'. simplify_eq. apply Href.
    + rewrite lookup_insert_ne in Hd' by done. by simplify_eq.
Qed.

Lemma relock_with_task t c c' h name P :
  relock c c' h name P → relock c (with_task t c') h name P.
Proof. by intros [? ? ? ? ? ?]. Qed.

Lemma findLockKey_ok sv n db (c : cluster) h name key :
  settled c → Name (owner (pid h)) = n → nodes c !! n = Some db →
  findLockKey sv n h name key c = Return (inr (this db), c) ∧ this db = owner (pid h).
Proof.
  intros Hc Ho Hn. destruct (st_up _ _ _ _ Hc _ (pid_range _ _ _ _ _ _ h Hc Hn)) as (db' & Hn' & Ht).
  rewrite Ho in Hn'. simplify_eq. split; [|done].
  destruct (owners_ok _ _ _ _ _ c h Hc Hn) as [Hown _]. unfold getPartitionOwners in Hown.
  unfold findLockKey. at_node Hn. destruct (getPartition db h) as [p| |]; try done.
  calc (eq_refl (Return p)). simpl in Hown. injection Hown as ->. unfold hostCmp.
  by rewrite Ht, Z.eqb_refl, bool_decide_eq_true_2.
Qed.

Lemma hostCmp_refl x : hostCmp x x = true.
Proof. unfold hostCmp. by rewrite Z.eqb_refl, bool_decide_eq_true_2. Qed.

(** The owner holds the map [name] at the reference [a]. *)
Definition map_at (c : cluster) (h : Z) (name : list byte) (a : nat) : Prop :=
  ∃ db, nodes c !! Name (owner (pid h)) = Some db ∧ ref db false (pid h) name = Some a.

(** The map of a key on its owner, with its locker. *)
Lemma owner_locker n db (c : cluster) h name l :
  settled c → Name (owner (pid h)) = n → nodes c !! n = Some db → locker_at db (pid h) name l →
  ∃ a db1 d, getDMap n name h c = Return (inr a, with_node n db1 c)
    ∧ ref db1 false (pid h) name = Some a
    ∧ heap db1 !! a = Some d ∧ dm_locker d = Some l ∧ settled (with_node n db1 c)
    ∧ ∀ l' (P : locker.locker → Prop), P l' →
      relock c (with_node n (set_dm a (with_locker l' d) db1) c) h name P.
Proof.
  intros Hc Ho Hn Hl. destruct (st_node _ _ _ _ Hc _ _ Hn) as (Hwf & Hcfg & _).
  rewrite <-(pid_of_cfg cfg db) in Hl by done.
  destruct (getDMap_locker n db c h name l Hn Hwf Hl) as (a & db1 & d & Hget & Hr & Hd & Hdl & Hre).
  rewrite (pid_of_cfg cfg db) in Hr, Hre by done.
  exists a, db1, d. split; [done|]. split; [done|]. split; [done|]. split; [done|]. split.
  - eapply settled_shifts; [done|]. pose proof (Hre l) as Hre1.
    rewrite with_locker_id, set_dm_id in Hre1 by done.
    eapply shifts_with_node; [done|apply Hre1..].
  - intros l' P HP. by eapply relock_with_node.
Qed.

Lemma lockKey_ok sv n db (c : cluster) h name key timeout l l' (P : locker.locker → Prop) :
  settled c → Name (owner (pid h)) = n → nodes c !! n = Some db →
  locker_at db (pid h) name l → locker.locks l !! key = None → locker.lock l key = Return l' → P l' →
  ∃ a c', lockKey sv n h name key timeout c = Return (None, c')
    ∧ relock c c' h name P ∧ map_at c' h name a
    ∧ tasks c' = tasks c ++ [TaskLockTimeout n a key timeout].
Proof.
  intros Hc Ho Hn Hl Hfree Hlock HP.
  destruct (owner_locker n db c h name l Hc Ho Hn Hl) as (a & db1 & d & Hget & Hr & Hd & Hdl & Hc1 & Hre).
  pose proof (with_node_lookup n db1 c) as Hn1.
  destruct (findLockKey_ok sv n db1 _ h name key Hc1 Ho Hn1) as [Hfind _].
  exists a. eexists. split; [|split; [apply relock_with_task, Hre, HP|split; [|done]]]; last first.
  { eexists. rewrite Ho. split; [apply with_node_lookup|]. by rewrite ref_set_dm. }
  unfold lockKey. step Hget. cbn beta iota.
  step (locker_check_run _ _ _ _ _ _ _ Hn1 Hd Hdl). unfold locker.check. rewrite Hfree.
  rewrite bool_decide_eq_false_2 by by intros [].
  step Hfind. cbn beta iota. at_node Hn1. rewrite hostCmp_refl. cbn [negb].
  step (locker_lock_run _ _ _ _ _ _ _ _ Hn1 Hd Hdl Hlock). by rewrite with_node_twice.
Qed.

Lemma lockKey_blocks sv n db (c : cluster) h name key timeout :
  settled c → Name (owner (pid h)) = n → nodes c !! n = Some db → held db (pid h) name key →
  lockKey sv n h name key timeout c = Running.
Proof.
  intros Hc Ho Hn (l & Hl & Ht).
  destruct (owner_locker n db c h name l Hc Ho Hn Hl) as (a & db1 & d & Hget & _ & Hd & Hdl & _).
  pose proof (with_node_lookup n db1 c) as Hn1. pose proof Ht as (b & ch & Hb & _).
  unfold lockKey. step Hget. cbn beta iota.
  step (locker_check_run _ _ _ _ _ _ _ Hn1 Hd Hdl). unfold locker.check. rewrite Hb.
  rewrite bool_decide_eq_true_2 by done.
  by apply bind_running, (locker_lock_blocks _ _ _ _ _ _ _ Hn1 Hd Hdl), locker.lock_taken.
Qed.

(** Unlocking answers what the locker answers. *)
Lemma unlockKey_ok sv n db (c : cluster) h name key l l' e (P : locker.locker → Prop) :
  settled c → Name (owner (pid h)) = n → nodes c !! n = Some db →
  locker_at db (pid h) name l → locker.unlock l key = Return (l', e) → P l' →
  ∃ c', unlockKey sv n h name key c = Return ((fun _ => OErrNoSuchLock) <$> e, c')
    ∧ relock c c' h name P ∧ tasks c' = tasks c.
Proof.
  intros Hc Ho Hn Hl Hun HP.
  destruct (owner_locker n db c h name l Hc Ho Hn Hl) as (a & db1 & d & Hget & _ & Hd & Hdl & _ & Hre).
  destruct (findLockKey_ok sv n db c h name key Hc Ho Hn) as [Hfind _].
  eexists. split; [|split; [by apply Hre|done]].
  unfold unlockKey. step Hfind. cbn beta iota. at_node Hn. rewrite hostCmp_refl. cbn [negb].
  step Hget. cbn beta iota.
  rewrite (locker_unlock_run _ _ _ _ _ _ _ _ _ (with_node_lookup n db1 c) Hd Hdl Hun).
  by rewrite with_node_twice.
Qed.

(** ** Locking from any node *)

(** A request that is never answered. *)
Lemma requestTo_blocks sv n addr op x x' name key (c : cluster) dba :
  nodes c !! addr = Some dba → net c = [] → config dba = cfg → fits name key [] → 0 ≤ op < 2 ^ 8 →
  protocol.reads_extra (protocol.write_header (outgoing op x name key []))
    (protocol.xbytes (outgoing op x name key [])) None x' →
  sv addr (incoming op x x' name key []) c = Running →
  requestTo sv n addr op (request x name key []) c = Running.
Proof.
  intros Ha Hnet Hcfg Hfit Hop Hx Hsv. unfold requestTo. apply bind_running. unfold RequestTo.
  erewrite bind_run; last first.
  { unfold next_fault. by rewrite Hnet. }
  cbn beta iota. erewrite bind_run; last first.
  { unfold is_up. by rewrite Ha, bool_decide_eq_true_2. }
  cbn [negb]. apply bind_running. unfold handleConn, conn_turn, waitForRequest.
  do 2 apply bind_running. at_node Ha.
  rewrite <-Hcfg in Hfit. calc (read_outgoing _ _ _ _ _ _ _ Hfit Hop Hx). cbn beta iota zeta.
  by apply bind_running.
Qed.

Lemma lock_extra_kept timeout name key :
  in_int64 timeout →
  let x := Some (protocol.LockWithTimeoutExtra timeout) in
  protocol.reads_extra
    (protocol.write_header (outgoing protocol.OpExLockWithTimeout x name key []))
    (protocol.xbytes (outgoing protocol.OpExLockWithTimeout x name key [])) None x.
Proof. intros Ht x. by apply protocol.read_extra_bytes. Qed.

(** The node that serves the lock of a key. *)
Lemma lock_at_owner sv n db (c : cluster) name key timeout :
  let h := getHKey name key in
  settled c → Name (owner (pid h)) = n → nodes c !! n = Some db →
  lockWithTimeout sv n name key timeout c = lockKey sv n h name key timeout c
  ∧ unlock sv n name key c = unlockKey sv n h name key c.
Proof.
  intros h Hc Ho Hn. pose proof (pid_range _ _ _ _ _ _ h Hc Hn) as Hpid.
  destruct (st_node _ _ _ _ Hc _ _ Hn) as (_ & _ & Hb & _).
  unfold lockWithTimeout, unlock. split.
  - at_node Hn. calc (locateKey_ok _ _ _ n db c name key Hc Hn). cbn beta iota. fold h.
    by rewrite (owner_cmp _ _ _ n db c _ Hc Hn Hpid), bool_decide_eq_true_2.
  - at_node Hn. unfold await_bootstrap. rewrite Hb. calc (eq_refl (Return false)).
    calc (locateKey_ok _ _ _ n db c name key Hc Hn). cbn beta iota. fold h.
    by rewrite (owner_cmp _ _ _ n db c _ Hc Hn Hpid), bool_decide_eq_true_2.
Qed.

Lemma lock_elsewhere sv n db (c : cluster) name key timeout :
  let h := getHKey name key in
  settled c → Name (owner (pid h)) ≠ n → nodes c !! n = Some db →
  lockWithTimeout sv n name key timeout c
  = (r ← requestTo sv n (Name (owner (pid h))) protocol.OpExLockWithTimeout
           (request (Some (protocol.LockWithTimeoutExtra timeout)) name key []);
     mret (error_of r)) c
  ∧ unlock sv n name key c
  = (r ← requestTo sv n (Name (owner (pid h))) protocol.OpExUnlock (request None name key []);
     mret (error_of r)) c.
Proof.
  intros h Hc Ho Hn. pose proof (pid_range _ _ _ _ _ _ h Hc Hn) as Hpid.
  destruct (st_node _ _ _ _ Hc _ _ Hn) as (_ & _ & Hb & _).
  unfold lockWithTimeout, unlock. split.
  - at_node Hn. calc (locateKey_ok _ _ _ n db c name key Hc Hn). cbn beta iota. fold h.
    by rewrite (owner_cmp _ _ _ n db c _ Hc Hn Hpid), bool_decide_eq_false_2.
  - at_node Hn. unfold await_bootstrap. rewrite Hb. calc (eq_refl (Return false)).
    calc (locateKey_ok _ _ _ n db c name key Hc Hn). cbn beta iota. fold h.
    by rewrite (owner_cmp _ _ _ n db c _ Hc Hn Hpid), bool_decide_eq_false_2.
Qed.

Lemma cluster_lock_run fuel n dbn dbo (c : cluster) name key timeout l l' (P : locker.locker → Prop) :
  let h := getHKey name key in
  settled c → nodes c !! n = Some dbn → nodes c !! Name (owner (pid h)) = Some dbo →
  in_int64 timeout → fits name key [] → locker_at dbo (pid h) name l →
  locker.locks l !! key = None → locker.lock l key = Return l' → P l' →
  ∃ a c', lockWithTimeout (serve (Datatypes.S fuel)) n name key timeout c = Return (None, c')
    ∧ relock c c' h name P ∧ map_at c' h name a
    ∧ tasks c' = tasks c ++ [TaskLockTimeout (Name (owner (pid h))) a key timeout].
Proof.
  intros h Hc Hn Ho Ht Hfit Hl Hfree Hlock HP. destruct (decide (Name (owner (pid h)) = n)) as [E|E].
  { rewrite (proj1 (lock_at_owner _ n dbn c name key timeout Hc E Hn)).
    rewrite E in Ho |- *. assert (dbo = dbn) as -> by congruence. by eapply (lockKey_ok _ _ dbn). }
  destruct (st_node _ _ _ _ Hc _ _ Hn) as (_ & Hcfg & _).
  destruct (st_node _ _ _ _ Hc _ _ Ho) as (_ & Hcfgo & _).
  destruct (lockKey_ok (serve fuel) _ dbo c h name key timeout l l' P Hc eq_refl Ho Hl Hfree Hlock HP)
    as (a & c' & Hrun & Hre & Hat & Htasks). exists a, c'. split; [|done].
  rewrite (proj1 (lock_elsewhere _ n dbn c name key timeout Hc E Hn)). fold h.
  set (x := Some (protocol.LockWithTimeoutExtra timeout)).
  set (req := incoming protocol.OpExLockWithTimeout x x name key []).
  destruct (shifts_node _ _ _ _ (lock_shifts _ _ _ _ _ Hre) Hn) as (dbn' & Hn' & Hs & _).
  erewrite bind_run; last first.
  { apply (requestTo_run _ _ _ _ _ x name key [] c c' dbn dbo dbn' (protocol.Success req)); try done.
    - apply (st_net _ _ _ _ Hc).
    - by rewrite Hcfgo.
    - by apply lock_extra_kept.
    - apply (serve_op _ _ _ (exLockWithTimeoutOperation (serve fuel))); [done|].
      unfold exLockWithTimeoutOperation. cbn [incoming protocol.Extra protocol.DMap protocol.Key req x].
      rewrite <-(proj1 (lock_at_owner _ _ dbo c name key timeout Hc eq_refl Ho)) in Hrun.
      by step Hrun.
    - rewrite (same_config _ _ Hs), Hcfg. apply success_ok; [by eapply fits_key|done]. }
  done.
Qed.

Lemma cluster_lock_spec fuel n dbn dbo (c : cluster) name key timeout :
  let h := getHKey name key in
  settled c → nodes c !! n = Some dbn → nodes c !! Name (owner (pid h)) = Some dbo →
  in_int64 timeout → fits name key [] → unlocked dbo (pid h) name key →
  ∃ a c', lockWithTimeout (serve (Datatypes.S fuel)) n name key timeout c = Return (None, c')
    ∧ relock c c' h name (fun l => locker.taken l key) ∧ map_at c' h name a
    ∧ tasks c' = tasks c ++ [TaskLockTimeout (Name (owner (pid h))) a key timeout].
Proof.
  intros h Hc Hn Ho Ht Hfit (l & Hl & Hfree).
  eapply cluster_lock_run; try done; [by apply locker.lock_free_run|apply locker.with_lock_taken].
Qed.

Lemma cluster_lock_blocks fuel n dbn dbo (c : cluster) name key timeout :
  let h := getHKey name key in
  settled c → nodes c !! n = Some dbn → nodes c !! Name (owner (pid h)) = Some dbo →
  in_int64 timeout → fits name key [] → held dbo (pid h) name key →
  lockWithTimeout (serve (Datatypes.S fuel)) n name key timeout c = Running.
Proof.
  intros h Hc Hn Ho Ht Hfit Hheld. destruct (decide (Name (owner (pid h)) = n)) as [E|E].
  { rewrite (proj1 (lock_at_owner _ n dbn c name key timeout Hc E Hn)).
    rewrite E in Ho. assert (dbo = dbn) as -> by congruence. by apply (lockKey_blocks _ _ dbn). }
  destruct (st_node _ _ _ _ Hc _ _ Ho) as (_ & Hcfgo & _).
  pose proof (lockKey_blocks (serve fuel) _ dbo c h name key timeout Hc eq_refl Ho Hheld) as Hrun.
  rewrite <-(proj1 (lock_at_owner _ _ dbo c name key timeout Hc eq_refl Ho)) in Hrun.
  rewrite (proj1 (lock_elsewhere _ n dbn c name key timeout Hc E Hn)). fold h.
  apply bind_running. eapply requestTo_blocks; [done|apply (st_net _ _ _ _ Hc)|done|done|done| |].
  - by apply lock_extra_kept.
  - cbn [dispatch.serve]. by apply bind_running, bind_running.
Qed.

(** What a caller of [Unlock] gets for what the locker answered. *)
Definition unlock_result (e : option locker.lerror) : option oerror :=
  (fun _ => OErrNoSuchLock) <$> e.

Lemma unlock_response_ok req e :
  0 ≤ MaxValueSize cfg → 0 ≤ protocol.Op (protocol.Hdr req) < 2 ^ 8 →
  response_ok (MaxValueSize cfg) (unlock_answer req (unlock_result e))
  ∧ error_of (check_status (protocol.written (unlock_answer req (unlock_result e))))
    = unlock_result e.
Proof.
  intros Hmax Hop. destruct e as [e|]; (split; [|done]); [by apply error_ok|by apply success_ok].
Qed.

Lemma cluster_unlock_spec fuel n dbn dbo (c : cluster) name key l l' e (P : locker.locker → Prop) :
  let h := getHKey name key in
  settled c → nodes c !! n = Some dbn → nodes c !! Name (owner (pid h)) = Some dbo →
  fits name key [] → locker_at dbo (pid h) name l → locker.unlock l key = Return (l', e) → P l' →
  ∃ c', unlock (serve (Datatypes.S fuel)) n name key c = Return (unlock_result e, c')
    ∧ relock c c' h name P ∧ tasks c' = tasks c.
Proof.
  intros h Hc Hn Ho Hfit Hl Hun HP. destruct (decide (Name (owner (pid h)) = n)) as [E|E].
  { rewrite (proj2 (lock_at_owner _ n dbn c name key 0 Hc E Hn)).
    rewrite E in Ho. assert (dbo = dbn) as -> by congruence. by eapply (unlockKey_ok _ _ dbn). }
  destruct (st_node _ _ _ _ Hc _ _ Hn) as (_ & Hcfg & _).
  destruct (st_node _ _ _ _ Hc _ _ Ho) as (_ & Hcfgo & _).
  destruct (unlockKey_ok (serve fuel) _ dbo c h name key l l' e P Hc eq_refl Ho Hl Hun HP)
    as (c' & Hrun & Hre & Htasks). exists c'. split; [|done].
  rewrite (proj2 (lock_elsewhere _ n dbn c name key 0 Hc E Hn)). fold h.
  rewrite <-(proj2 (lock_at_owner _ _ dbo c name key 0 Hc eq_refl Ho)) in Hrun.
  set (req := incoming protocol.OpExUnlock None None name key []).
  destruct (shifts_node _ _ _ _ (lock_shifts _ _ _ _ _ Hre) Hn) as (dbn' & Hn' & Hs & _).
  destruct (unlock_response_ok req e (fits_key _ _ _ Hfit) ltac:(done)) as [Hok Herr].
  erewrite bind_run; last first.
  { apply (requestTo_run _ _ _ _ _ None name key [] c c' dbn dbo dbn'
      (unlock_answer req (unlock_result e))); try done.
    - apply (st_net _ _ _ _ Hc).
    - by rewrite Hcfgo.
    - apply (serve_op _ _ _ (exUnlockOperation (serve fuel))); [done|].
      unfold exUnlockOperation. by step Hrun.
    - by rewrite (same_config _ _ Hs), Hcfg. }
  by rewrite Herr.
Qed.

(** The goroutine of a lock, when its timeout elapses. *)
Lemma timeout_unlocks (c : cluster) h name key a ch db :
  nodes c !! Name (owner (pid h)) = Some db → map_at c h name a → held db (pid h) name key →
  ∃ c' db', waitLockForTimeout (Name (owner (pid h))) a key ch TimeoutElapsed c = Return (tt, c')
    ∧ nodes c' !! Name (owner (pid h)) = Some db' ∧ unlocked db' (pid h) name key.
Proof.
  intros Hn (db0 & Hn0 & Hr) (l & Hl & Ht). assert (db0 = db) as -> by congruence.
  pose proof Hl as Hl'. unfold locker_at in Hl'. rewrite Hr in Hl'. destruct Hl' as (d & Hd & Hdl).
  destruct (locker.unlock_taken l key Ht) as (l' & Hun & Hlocks).
  eexists _, (set_dm a (with_locker l' d) db). split; [|split; [apply with_node_lookup|]].
  - unfold waitLockForTimeout. by step (locker_unlock_run _ _ _ _ _ _ _ _ _ Hn Hd Hdl Hun).
  - exists l'. rewrite Hlocks, lookup_delete_eq. split; [|done].
    unfold locker_at. rewrite ref_set_dm, Hr. exists (with_locker l' d).
    split; [by eapply set_dm_lookup|done].
Qed.

(** What it changes is the lock. *)
Lemma timeout_relocks (c : cluster) h name key a ch db l l' e (P : locker.locker → Prop) :
  settled c → nodes c !! Name (owner (pid h)) = Some db → ref db false (pid h) name = Some a →
  locker_at db (pid h) name l → locker.unlock l key = Return (l', e) → P l' →
  ∃ c', waitLockForTimeout (Name (owner (pid h))) a key ch TimeoutElapsed c = Return (tt, c')
    ∧ relock c c' h name P ∧ tasks c' = tasks c.
Proof.
  intros Hc Hn Hr Hl Hun HP. destruct (st_node _ _ _ _ Hc _ _ Hn) as (Hwf & Hcfg & _).
  assert (pid_of db h = pid h) as Hpid by by apply pid_of_cfg.
  unfold locker_at in Hl. rewrite Hr in Hl. destruct Hl as (d & Hd & Hdl).
  exists (with_node (Name (owner (pid h))) (set_dm a (with_locker l' d) db) c). split; [|split; [|done]].
  - unfold waitLockForTimeout. by step (locker_unlock_run _ _ _ _ _ _ _ _ _ Hn Hd Hdl Hun).
  - eapply relock_with_node; [done|exact Hn| |exact HP]. rewrite <-Hpid.
    apply relocked_set_dm; [done| |done]. split; try done; [congruence|by rewrite Hpid].
Qed.

Lemma relock_unlocked c c' h name key :
  relock c c' h name (fun l => locker.locks l !! key = None) →
  ∃ db, nodes c' !! Name (owner (pid h)) = Some db ∧ unlocked db (pid h) name key.
Proof. intros [_ _ (db & l & Hdb & Hl & Hf) _ _ _]. exists db. split; [done|]. by exists l. Qed.

Lemma relock_held c c' h name key :
  relock c c' h name (fun l => locker.taken l key) →
  ∃ db, nodes c' !! Name (owner (pid h)) = Some db ∧ held db (pid h) name key.
Proof. intros [_ _ (db & l & Hdb & Hl & Hf) _ _ _]. exists db. split; [done|]. by exists l. Qed.

Lemma cluster_unlock_held fuel n dbn dbo (c : cluster) name key :
  let h := getHKey name key in
  settled c → nodes c !! n = Some dbn → nodes c !! Name (owner (pid h)) = Some dbo →
  fits name key [] → held dbo (pid h) name key →
  ∃ c', unlock (serve (Datatypes.S fuel)) n name key c = Return (None, c')
    ∧ relock c c' h name (fun l => locker.locks l !! key = None) ∧ tasks c' = tasks c.
Proof.
  intros h Hc Hn Ho Hfit (l & Hl & Ht).
  destruct (locker.unlock_taken l key Ht) as (l' & Hun & Hlocks).
  apply (cluster_unlock_spec fuel n dbn dbo c name key l l' None); try done.
  by rewrite Hlocks, lookup_delete_eq.
Qed.

(** ** What the operations need, after others that change no binding *)
Lemma backup_ready_shifts (c c' : cluster) h name key value b :
  shifts c c' → same_views c c' → backup_ready cfg c h name key value b →
  backup_ready cfg c' h name key value b.
Proof.
  intros Hsh Hv (db & Hb & Hwf & Hcfg & Hroom).
  destruct (shifts_node _ _ _ _ Hsh Hb) as (db' & Hb' & Hs & Hwf'). exists db'.
  split; [done|]. split; [by apply Hwf'|]. split; [by rewrite (same_config _ _ Hs)|].
  by apply (und_room _ _ (Hv _ _ _ Hb Hb')).
Qed.

Lemma same_put_targets (db db' : Olric) h :
  same_node db db' → put_targets cfg bowners db' h = put_targets cfg bowners db h.
Proof.
  intros Hs. unfold put_targets, targets, backup_count, numMembers.
  by rewrite (same_config _ _ Hs), (same_members _ _ Hs).
Qed.

Lemma put_ready_shifts (c c' : cluster) db db' h name key value timeout :
  shifts c c' → same_views c c' → same_node db db' → undisturbed db db' →
  put_ready cfg bowners c db h name key value timeout →
  put_ready cfg bowners c' db' h name key value timeout.
Proof.
  intros Hsh Hv Hs Hu [Hfit Hsync Hcount Hlen Hb Hroom]. split; try done.
  - unfold backup_count, numMembers in *. by rewrite (same_config _ _ Hs), (same_members _ _ Hs).
  - rewrite (same_put_targets db db') by done. eapply Forall_impl; [exact Hb|].
    intros b. by apply backup_ready_shifts.
  - unfold put_value. rewrite (same_getTTL db db') by done. by apply (und_room _ _ Hu).
Qed.

Lemma get_answer_shifts (c c' : cluster) db db' h name :
  shifts c c' → same_views c c' → same_node db db' → undisturbed db db' →
  get_answer cfg bowners c' db' h name = get_answer cfg bowners c db h name.
Proof.
  intros Hsh Hv Hs Hu. unfold get_answer. rewrite (und_view _ _ Hu).
  destruct (view db false (pid h) name !! h) as [v|].
  - simpl. by rewrite (same_expired db db').
  - f_equal. apply omap_pointwise. intros b. by apply backup_answer_shifts.
Qed.

Lemma get_fits_shifts (c c' : cluster) db db' h name :
  shifts c c' → same_views c c' → same_node db db' → undisturbed db db' →
  get_fits cfg bowners c db h name → get_fits cfg bowners c' db' h name.
Proof.
  intros Hsh Hv Hs Hu [Hb Ha]. split.
  - rewrite (und_view _ _ Hu). intros Hnone. eapply Forall_impl; [by apply Hb|].
    intros b Hbv v. rewrite (backup_answer_shifts cfg c c') by done. apply Hbv.
  - intros v. rewrite (get_answer_shifts c c' db db') by done. apply Ha.
Qed.

(** ** A read and a write under the lock *)

(** What an atomic operation leaves behind: the new binding, the lock free again, the
    goroutine of the lock. *)
Record updated (c c' : cluster) (h : Z) (name key data : list byte) : Prop := {
  upd_settled : settled c';
  upd_owner : ∃ db, nodes c' !! Name (owner (pid h)) = Some db ∧ unlocked db (pid h) name key
    ∧ view db false (pid h) name !! h = Some (mkVData key 0 data);
  upd_others m db db' bk i name' h' : nodes c !! m = Some db → nodes c' !! m = Some db' →
    (i, name', h') ≠ (pid h, name, h) → view db' bk i name' !! h' = view db bk i name' !! h';
  upd_tasks : ∃ a, tasks c' = tasks c ++ [TaskLockTimeout (Name (owner (pid h))) a key minute]
}.

Record atomic_ready (c : cluster) (db : Olric) (h : Z) (name key data : list byte) : Prop := {
  at_free : unlocked db (pid h) name key;
  at_fits : get_fits cfg bowners c db h name;
  at_put : put_ready cfg bowners c db h name key data 0
}.

Lemma shifts_owner (c c' : cluster) n db :
  shifts c c' → same_views c c' → nodes c !! n = Some db →
  ∃ db', nodes c' !! n = Some db' ∧ same_node db db' ∧ undisturbed db db'.
Proof.
  intros Hsh Hv Hn. destruct (shifts_node _ _ _ _ Hsh Hn) as (db' & Hn' & Hs & _).
  exists db'. split; [done|]. split; [done|]. by eapply Hv.
Qed.

(** Under the lock, before the write. *)
Record locked_from (c c' : cluster) (h : Z) (name key : list byte) : Prop := {
  lf_shifts : shifts c c';
  lf_views : same_views c c';
  lf_held : ∃ db, nodes c' !! Name (owner (pid h)) = Some db ∧ held db (pid h) name key;
  lf_tasks : ∃ a, tasks c' = tasks c ++ [TaskLockTimeout (Name (owner (pid h))) a key minute]
}.

Lemma lock_then_get fuel n dbn dbo (c : cluster) name key :
  let h := getHKey name key in
  let sv := serve (Datatypes.S (Datatypes.S fuel)) in
  settled c → nodes c !! n = Some dbn → nodes c !! Name (owner (pid h)) = Some dbo →
  fits name key [] → unlocked dbo (pid h) name key → get_fits cfg bowners c dbo h name →
  ∃ c1 c2, lockWithTimeout sv n name key minute c = Return (None, c1)
    ∧ get sv n name key c1 = Return (get_result (get_answer cfg bowners c dbo h name), c2)
    ∧ locked_from c c2 h name key.
Proof.
  intros h sv Hc Hn Ho Hfit Hfree Hgf.
  destruct (cluster_lock_spec (Datatypes.S fuel) n dbn dbo c name key minute Hc Hn Ho ltac:(done) Hfit Hfree)
    as (a & c1 & Hlock & Hre & _ & Ht1). fold h in Hre.
  pose proof (lock_shifts _ _ _ _ _ Hre) as Hsh1. pose proof (lock_views _ _ _ _ _ Hre) as Hv1.
  pose proof (settled_shifts _ _ _ _ _ Hc Hsh1) as Hc1.
  destruct (relock_held _ _ _ _ _ Hre) as (dbo1 & Ho1 & Hheld).
  destruct (shifts_owner _ _ _ _ Hsh1 Hv1 Hn) as (dbn1 & Hn1 & _).
  destruct (shifts_owner _ _ _ _ Hsh1 Hv1 Ho) as (dbo1' & Ho1' & Hs1 & Hu1).
  assert (dbo1' = dbo1) as -> by congruence.
  destruct (cluster_get_spec cfg owner bowners fuel n dbn1 dbo1 c1 name key Hc1 Hn1 Ho1 Hfit)
    as (c2 & Hget & Hev2 & Hv2 & Ht2); [by eapply (get_fits_shifts c)|]. fold h in Hget.
  rewrite (get_answer_shifts c c1 dbo dbo1) in Hget by done.
  exists c1, c2. split; [done|]. split; [done|]. split.
  - etrans; [done|by apply evolves_shifts].
  - by eapply shifts_views_trans.
  - destruct (evolves_node _ _ _ _ Hev2 Ho1) as (dbo2 & Ho2 & _ & _ & Hk2). exists dbo2.
    split; [done|]. by eapply held_keeps.
  - exists a. by rewrite Ht2.
Qed.

Lemma put_then_unlock fuel n dbn dbo (c c2 : cluster) name key data :
  let h := getHKey name key in
  let sv := serve (Datatypes.S (Datatypes.S fuel)) in
  settled c → nodes c !! n = Some dbn → nodes c !! Name (owner (pid h)) = Some dbo →
  put_ready cfg bowners c dbo h name key data 0 → locked_from c c2 h name key →
  ∃ c3 c4, put sv n name key data nilTimeout c2 = Return (None, c3)
    ∧ unlock sv n name key c3 = Return (None, c4) ∧ updated c c4 h name key data.
Proof.
  intros h sv Hc Hn Ho Hput [Hsh2 Hv2 (dbo2 & Ho2 & Hheld) (a & Ht2)].
  pose proof (fits_less _ _ _ _ (ready_fits _ _ _ _ _ _ _ _ _ Hput)) as Hfit.
  pose proof (settled_shifts _ _ _ _ _ Hc Hsh2) as Hc2.
  destruct (shifts_owner _ _ _ _ Hsh2 Hv2 Hn) as (dbn2 & Hn2 & _).
  destruct (shifts_owner _ _ _ _ Hsh2 Hv2 Ho) as (dbo2' & Ho2' & Hs2 & Hu2).
  assert (dbo2' = dbo2) as -> by congruence.
  destruct (cluster_put_spec cfg owner bowners fuel n dbn2 dbo2 c2 name key data nilTimeout Hc2 Hn2 Ho2)
    as (c3 & Hrun3 & Hdone); [done|by eapply (put_ready_shifts c c2 dbo dbo2)|]. fold h in Hdone.
  pose proof (put_evolves _ _ _ _ _ _ _ _ Hdone) as Hev3.
  pose proof (settled_evolves _ _ _ _ _ Hc2 Hev3) as Hc3.
  destruct (evolves_node _ _ _ _ Hev3 Hn2) as (dbn3 & Hn3 & _).
  destruct (put_done_owner _ _ _ _ _ _ _ _ _ Hdone Ho2) as (dbo3 & Ho3 & _ & Hv3).
  destruct (evolves_node _ _ _ _ Hev3 Ho2) as (dbo3' & Ho3' & _ & _ & Hk3).
  assert (dbo3' = dbo3) as -> by congruence.
  destruct (cluster_unlock_held (Datatypes.S fuel) n dbn3 dbo3 c3 name key Hc3 Hn3 Ho3 Hfit)
    as (c4 & Hun & Hre4 & Ht4); [by eapply held_keeps|]. fold h in Hre4.
  pose proof (lock_shifts _ _ _ _ _ Hre4) as Hsh4. pose proof (lock_views _ _ _ _ _ Hre4) as Hv4.
  exists c3, c4. split; [done|]. split; [done|]. split.
  - by eapply settled_shifts.
  - destruct (relock_unlocked _ _ _ _ _ Hre4) as (db4 & Ho4 & Hfree). exists db4.
    split; [done|]. split; [done|]. by rewrite (und_view _ _ (Hv4 _ _ _ Ho3 Ho4)).
  - intros m db db' bk i name' h' Hm Hm' Hne.
    destruct (shifts_owner _ _ _ _ Hsh2 Hv2 Hm) as (db2 & Hm2 & _ & Hum).
    destruct (evolves_node _ _ _ _ Hev3 Hm2) as (db3 & Hm3 & _).
    rewrite (und_view _ _ (Hv4 _ _ _ Hm3 Hm')), <-(und_view _ _ Hum).
    by eapply put_done_others.
  - exists a. by rewrite Ht4, (put_tasks _ _ _ _ _ _ _ _ Hdone).
Qed.

(** The unlock after a call that has only read. *)
Lemma read_then_unlock fuel n dbn (c c2 : cluster) name key :
  let h := getHKey name key in
  settled c → nodes c !! n = Some dbn → fits name key [] → locked_from c c2 h name key →
  ∃ c3, unlock (serve (Datatypes.S (Datatypes.S fuel))) n name key c2 = Return (None, c3)
    ∧ settled c3 ∧ same_views c c3
    ∧ ∃ dbo3, nodes c3 !! Name (owner (pid h)) = Some dbo3 ∧ unlocked dbo3 (pid h) name key.
Proof.
  intros h Hc Hn Hfit [Hsh2 Hv2 (dbo2 & Ho2 & Hheld) _].
  pose proof (settled_shifts _ _ _ _ _ Hc Hsh2) as Hc2.
  destruct (shifts_owner _ _ _ _ Hsh2 Hv2 Hn) as (dbn2 & Hn2 & _).
  destruct (cluster_unlock_held (Datatypes.S fuel) n dbn2 dbo2 c2 name key Hc2 Hn2 Ho2 Hfit Hheld)
    as (c3 & Hun & Hre & _). fold h in Hre. exists c3. split; [done|].
  split; [by eapply settled_shifts, (lock_shifts _ _ _ _ _ Hre)|].
  split; [|by apply (relock_unlocked _ _ _ _ _ Hre)].
  eapply (shifts_views_trans c c2 c3); [done|done|apply Hre].
Qed.

(** A counter: the integer that is stored, 0 when the key is missing. *)
Definition reads_int (r : option (list byte)) (cur : Z) : Prop :=
  match r with
  | None => cur = 0
  | Some raw => ∃ v, sUnmarshal (V := V) raw = inr v ∧ v_kind v = KInt cur
  end.

Definition counter (opr : oper) (cur delta : Z) : Z :=
  to_signed 64 match opr with incr => cur + delta | decr => cur - delta | other_oper => cur end.

(** ** Theorems *)

(** C8: on a settled cluster the lock of a key excludes: once it is locked through any
    node, a second [LockWithTimeout] through any node waits for it; an [Unlock] through
    any node releases it, and so does the goroutine started with the lock when the
    timeout elapses.  [Unlock] of a key that is not locked reports
    that there is no such lock.  No call changes a binding. *)
Theorem Lock_excludes fuel n1 n2 db1 db2 dbo (c : cluster) name key t1 t2 :
  let h := getHKey name key in
  let sv := serve (Datatypes.S fuel) in
  settled c → nodes c !! n1 = Some db1 → nodes c !! n2 = Some db2 →
  nodes c !! Name (owner (pid h)) = Some dbo → in_int64 t1 → in_int64 t2 →
  fits name key [] → unlocked dbo (pid h) name key →
  (∃ c0, unlock sv n2 name key c = Return (Some OErrNoSuchLock, c0) ∧ same_views c c0)
  ∧ ∃ a c1, lockWithTimeout sv n1 name key t1 c = Return (None, c1)
    ∧ settled c1 ∧ same_views c c1
    ∧ tasks c1 = tasks c ++ [TaskLockTimeout (Name (owner (pid h))) a key t1]
    ∧ lockWithTimeout sv n2 name key t2 c1 = Running
    ∧ (∃ c2 db, unlock sv n2 name key c1 = Return (None, c2) ∧ settled c2 ∧ same_views c1 c2
        ∧ nodes c2 !! Name (owner (pid h)) = Some db ∧ unlocked db (pid h) name key)
    ∧ ∀ ch, ∃ c2 db,
        waitLockForTimeout (Name (owner (pid h))) a key ch TimeoutElapsed c1 = Return (tt, c2)
        ∧ nodes c2 !! Name (owner (pid h)) = Some db ∧ unlocked db (pid h) name key.
Proof.
  intros h sv Hc Hn1 Hn2 Ho Ht1 Ht2 Hfit Hfree. split.
  { destruct Hfree as (l & Hl & Hnone).
    destruct (cluster_unlock_spec fuel n2 db2 dbo c name key l l (Some locker.ErrNoSuchLock)
      (fun _ => True)) as (c0 & Hrun & Hre & _); try done; [by apply locker.unlock_free|].
    exists c0. split; [done|apply Hre]. }
  destruct (cluster_lock_spec fuel n1 db1 dbo c name key t1 Hc Hn1 Ho Ht1 Hfit Hfree)
    as (a & c1 & Hrun & Hre & Hat & Htasks). fold h in Hre, Hat.
  pose proof (settled_shifts _ _ _ _ _ Hc (lock_shifts _ _ _ _ _ Hre)) as Hc1.
  destruct (relock_held _ _ _ _ _ Hre) as (dbo1 & Ho1 & Hheld).
  destruct (shifts_node _ _ _ _ (lock_shifts _ _ _ _ _ Hre) Hn2) as (db2' & Hn2' & _).
  destruct (cluster_unlock_held fuel n2 db2' dbo1 c1 name key Hc1 Hn2' Ho1 Hfit Hheld)
    as (c2 & Hun & Hre2 & _).
  exists a, c1. split; [done|]. split; [done|]. split; [apply Hre|]. split; [done|].
  split; [by eapply cluster_lock_blocks|]. split; [|intros ch; by eapply timeout_unlocks].
  destruct (relock_unlocked _ _ _ _ _ Hre2) as (db & Hdb & Hu). exists c2, db.
  split; [done|]. split; [by eapply settled_shifts, (lock_shifts _ _ _ _ _ Hre2)|].
  split; [apply Hre2|done].
Qed.


(** A value of another type than [int] is not counted: the type is reported, no binding
    changes and the lock is free again. *)
Theorem Incr_mismatched_type fuel n dbn dbo (c : cluster) name key opr delta raw v t :
  let h := getHKey name key in
  settled c → nodes c !! n = Some dbn → nodes c !! Name (owner (pid h)) = Some dbo →
  fits name key [] → unlocked dbo (pid h) name key → get_fits cfg bowners c dbo h name →
  get_answer cfg bowners c dbo h name = Some raw → sUnmarshal (V := V) raw = inr v → v_kind v = KOther t →
  ∃ c' dbo', atomicIncrDecr (V := V) (serve (Datatypes.S (Datatypes.S fuel))) n name key opr delta c
      = Return (inl (EText (text "mismatched type: " ++ t)), c')
    ∧ settled c' ∧ same_views c c' ∧ nodes c' !! Name (owner (pid h)) = Some dbo'
    ∧ unlocked dbo' (pid h) name key.
Proof.
  intros h Hc Hn Ho Hfit Hfree Hgf Hraw Hv Ht.
  destruct (lock_then_get fuel n dbn dbo c name key Hc Hn Ho Hfit Hfree Hgf)
    as (c1 & c2 & Hlock & Hget & Hlf). fold h in Hget, Hlf. rewrite Hraw in Hget.
  destruct (read_then_unlock fuel n dbn c c2 name key Hc Hn Hfit Hlf) as (c3 & Hun & Hc3 & Hsv & dbo3 & Ho3 & Hu3).
  exists c3, dbo3. split; [|done]. unfold atomicIncrDecr. step Hlock. cbn beta iota.
  rewrite (bind_run _ _ _ (inl (EText (text "mismatched type: " ++ t))) c2); [by step Hun|].
  unfold incr_locked. step Hget. simpl. by rewrite Hv, Ht.
Qed.

(** On a settled cluster [GetPut], called on any node, answers what the key was
    bound to, if that is not empty, nothing for a missing or expired key, binds it to the new value on the
    owner, and leaves every other binding of every node alone and the lock free again. *)
Theorem GetPut_correct fuel n dbn dbo (c : cluster) name key value :
  let h := getHKey name key in
  settled c → nodes c !! n = Some dbn → nodes c !! Name (owner (pid h)) = Some dbo →
  atomic_ready c dbo h name key value → get_answer cfg bowners c dbo h name ≠ Some [] →
  ∃ c', getPut (serve (Datatypes.S (Datatypes.S fuel))) n name key value c
      = Return (inr (get_answer cfg bowners c dbo h name), c')
    ∧ updated c c' h name key value.
Proof.
  intros h Hc Hn Ho [Hfree Hgf Hput] Hne.
  pose proof (fits_less _ _ _ _ (ready_fits _ _ _ _ _ _ _ _ _ Hput)) as Hfit.
  destruct (lock_then_get fuel n dbn dbo c name key Hc Hn Ho Hfit Hfree Hgf)
    as (c1 & c2 & Hlock & Hget & Hlf). fold h in Hget, Hlf.
  destruct (put_then_unlock fuel n dbn dbo c c2 name key value Hc Hn Ho Hput Hlf)
    as (c3 & c4 & Hrun & Hun & Hupd). fold h in Hupd.
  exists c4. split; [|done]. unfold getPut. step Hlock. cbn beta iota.
  rewrite (bind_run _ _ _ (inr (get_answer cfg bowners c dbo h name)) c3).
  { by step Hun. }
  unfold getPut_locked. step Hget.
  destruct (get_answer cfg bowners c dbo h name) as [[|x raw]|]; [done|..]; cbn [get_result];
    rewrite ?decide_True by done; cbn beta iota; rewrite (bind_run _ _ _ _ _ (ret_run _ c2));
    by step Hrun.
Qed.
End atomic.
End atomic.
