(* ===== verification/CounterSpec.v ===== *)
(** Counters with the msgpack serializer: [Incr] and [Decr] write an [int], which msgpack reads
    back as an [int64]; only the first of them succeeds. *)

From S2P Require Export SerializersSpec AtomicSpec.

Module counter.
Export serspec atomic.

(** ** msgpack as the serializer of a node *)
Section msgpack.
Context {O : Type} (encode_other : O → serror + list byte) (decode_other : Z → list byte → serror + O).
Context (other_type : O → gotype) (is_empty : O → bool) (empty : O) (empty_ok : is_empty empty = true).
Context (error_text : serror → list byte).

(** [reflect.Type.Name]; a type that is not named has none. *)
Definition Name_of (t : gotype) : list byte :=
  match t with TBasic n | TNamed _ _ n => n | _ => [] end.

Definition value_kind (v : value O) : vkind :=
  match v with
  | VNil => KNil
  | VNumber Int z => KInt z
  | VOther o => if is_empty o then KEmptyStruct else KOther (Name_of (other_type o))
  | v => KOther (default [] (Name_of <$> TypeOf other_type v))
  end.

Definition in_olric {A} (r : serror + A) : oerror + A :=
  match r with inl e => inl (EText (error_text e)) | inr x => inr x end.

Definition msgpack_serializer : Serializer (value O).
Proof.
  refine {|
    sMarshal v := in_olric (msgpack_Marshal encode_other v);
    sUnmarshal bs := in_olric (msgpack_Unmarshal decode_other bs);
    v_kind := value_kind;
    v_nil := VNil;
    v_empty_struct := VOther empty;
    v_int := VNumber Int
  |}; [done|simpl; by rewrite empty_ok|done].
Defined.
End msgpack.

(** ** Counters *)
Section counter.
Context {S N : Type} `{!KV S} `{!KVLaws S} `{!Snap S N} `{!Env}.
Context `{!BirthdateSort} `{!Codec NodeMetadata} `{!RangeOrder (list byte)} `{!Codec (gmap Z route)}.
Context `{!Codec dmapbox}.
Context {O : Type} (encode_other : O → serror + list byte) (decode_other : Z → list byte → serror + O).
Context (other_type : O → gotype) (is_empty : O → bool) (empty : O) (empty_ok : is_empty empty = true).
Context (error_text : serror → list byte).
Context (cfg : Config) (owner : Z → host) (bowners : Z → list host).
#[local] Instance msgpack_values : Serializer (value O) :=
  msgpack_serializer encode_other decode_other other_type is_empty empty empty_ok error_text.

(** A key that holds an [int] cannot be counted, whoever has put it: also after [Incr]. *)
Theorem msgpack_int_is_not_counted fuel n dbn dbo (c : olric.cluster S N) name key opr delta z raw :
  let h := getHKey name key in
  settled cfg owner bowners c → nodes c !! n = Some dbn → nodes c !! Name (owner (pid cfg h)) = Some dbo →
  fits (MaxValueSize cfg) name key [] → unlocked dbo (pid cfg h) name key → get_fits cfg bowners c dbo h name →
  in_kind Int z → sMarshal (v_int z : value O) = inr raw → get_answer cfg bowners c dbo h name = Some raw →
  ∃ c', atomicIncrDecr (V := value O) (dispatch.serve (V := value O) (Datatypes.S (Datatypes.S fuel))) n name key opr delta c
      = Return (inl (EText (text "mismatched type: int64")), c') ∧ same_views c c'.
Proof.
  intros h Hc Hn Ho Hfit Hfree Hgf Hz Hm Hraw.
  assert (sUnmarshal raw = inr (VNumber Int64 z : value O)) as Hu.
  { assert (encode_number Int z = raw) as <- by by injection Hm.
    change (in_olric error_text (DecodeInterface decode_other (encode_number Int z)) = inr (VNumber Int64 z)).
    by rewrite (number_read decode_other Int z Hz). }
  destruct (Incr_mismatched_type cfg owner bowners fuel n dbn dbo c name key opr delta raw _ (text "int64")
    Hc Hn Ho Hfit Hfree Hgf Hraw Hu) as (c' & dbo' & Hrun & _ & Hsv & _); [done|].
  by exists c'.
Qed.
End counter.
End counter.
