(* ===== verification/ClientSpec.v ===== *)
(** What the client of a cluster promises: each of its calls runs the call of the same
    name on the node it has chosen; what it reports of the answer. *)

From S2P Require Export Client AtomicSpec.

Module clientspec.
Export cspec.

Section clientspec.
Context {S N : Type} `{!KV S} `{!KVLaws S} `{!Snap S N} `{!Env}.
Context `{!BirthdateSort} `{!Codec NodeMetadata} `{!RangeOrder (list byte)} `{!Codec (gmap Z route)}.
Context `{!Codec dmapbox}.
Context {V : Type} `{!Serializer V} `{!SerializerLaws V}.
Abbreviation M := (olric.M S N).
Abbreviation Olric := (olric.Olric S N).
Abbreviation cluster := (olric.cluster S N).
Abbreviation serve := (dispatch.serve (S := S) (N := N) (V := V)).
Abbreviation cmax := client.MaxValueSize.
Context (cc : client.Config).

(** The client [cc] reaches the node [n] when [rand.Intn] answers [i], and the message
    can be sent to it. *)
Record reaches (i : nat) (n name key value : list byte) (c : cluster) : Prop := {
  re_addr : client.Addrs cc !! i = Some n;
  re_net : net c = [];
  re_node : ∃ db, nodes c !! n = Some db ∧ fits (MaxValueSize (config db)) name key value
}.

(** A response the client can read. *)
Definition readable (resp : Message) : Prop := response_ok cmax resp.

Lemma client_request fuel i n op x name key value c c' opr resp :
  reaches i n name key value c → 0 ≤ op < 2 ^ 8 →
  protocol.reads_extra (protocol.write_header (outgoing op x name key value))
    (protocol.xbytes (outgoing op x name key value)) None x →
  operation (V := V) (serve fuel) op = Some opr →
  opr n (incoming op x x name key value) c = Return (resp, c') → readable resp →
  client.Request (serve (Datatypes.S fuel)) cc i op (request x name key value) c
  = Return (inr (protocol.written resp), c').
Proof.
  intros [Ha Hnet (db & Hn & Hfit)] Hop Hx Hopr Hrun Hresp. unfold client.Request. rewrite Ha.
  eapply RequestTo_run; try done. eapply serve_op; [|done]. by rewrite op_incoming.
Qed.

(** The error texts of the node fit a response. *)
Definition short_error (err : option oerror) : Prop :=
  match err with Some err => len (error_text err) ≤ cmax | None => True end.

Lemma readable_text req status msg :
  0 ≤ protocol.Op (protocol.Hdr req) < 2 ^ 8 → 0 ≤ status < 2 ^ 8 → len msg ≤ cmax →
  readable (protocol.Error req status msg).
Proof.
  intros Hop Hs Hl. split; [done|]. split; [done|]. unfold protocol.sizes_ok.
  cbn [protocol.Error protocol.DMap protocol.Key protocol.Value protocol.Hdr protocol.Op
    protocol.Status protocol.Extra protocol.ExtraLen].
  change (len (@nil byte)) with 0. unfold client.MaxValueSize in *. repeat split; lia.
Qed.

Lemma answer_readable op x x' name key value err :
  0 ≤ op < 2 ^ 8 → short_error err → readable (answer (incoming op x x' name key value) err).
Proof.
  intros Hop Herr. destruct err as [err|]; [|by apply success_ok].
  by apply readable_text; rewrite ?op_incoming.
Qed.

(** ** The calls of the client *)

(** The calls that only report errors of the transport always report success. *)
Lemma client_call fuel i n op x name key value c c' opr err :
  reaches i n name key value c → 0 ≤ op < 2 ^ 8 →
  protocol.reads_extra (protocol.write_header (outgoing op x name key value))
    (protocol.xbytes (outgoing op x name key value)) None x →
  operation (V := V) (serve fuel) op = Some opr →
  (let req := incoming op x x name key value in opr n req c = Return (answer req err, c')) →
  short_error err →
  client.Request_ (serve (Datatypes.S fuel)) cc i op (request x name key value) c
  = Return (None, c').
Proof.
  intros Hre Hop Hx Hopr Hrun Herr. unfold client.Request_.
  by step (client_request fuel i n op x name key value c c' opr _ Hre Hop Hx Hopr Hrun
    (answer_readable op x x name key value err Hop Herr)).
Qed.

Lemma client_Put fuel i n name key (v : V) data c c' err :
  sMarshal v = inr data → reaches i n name key data c → short_error err →
  put (serve fuel) n name key data nilTimeout c = Return (err, c') →
  client.Put (serve (Datatypes.S fuel)) cc i name key v c = Return (None, c').
Proof.
  intros Hv Hre Herr Hrun. unfold client.Put. rewrite Hv.
  eapply client_call; [done|done|done|done| |done]. unfold exPutOperation. by step Hrun.
Qed.

Lemma client_Delete fuel i n name key c c' err :
  reaches i n name key [] c → short_error err →
  deleteKey (serve fuel) n name key c = Return (err, c') →
  client.Delete (serve (Datatypes.S fuel)) cc i name key c = Return (None, c').
Proof.
  intros Hre Herr Hrun. unfold client.Delete.
  eapply client_call; [done|done|done|done| |done]. unfold exDeleteOperation. by step Hrun.
Qed.

(** [Get] decodes the answer of the node, the text of an error included. *)
Definition get_reply (r : oerror + list byte) : oerror + V :=
  match r with
  | inr raw => sUnmarshal raw
  | inl err => if decide (err = OErrKeyNotFound) then inl OErrKeyNotFound
               else sUnmarshal (error_text err)
  end.
Definition short_reply (r : oerror + list byte) : Prop :=
  match r with inr raw => len raw ≤ cmax | inl err => short_error (Some err) end.

Lemma client_Get fuel i n name key c c' r :
  reaches i n name key [] c → short_reply r →
  get (serve fuel) n name key c = Return (r, c') →
  client.Get (serve (Datatypes.S fuel)) cc i name key c = Return (get_reply r, c').
Proof.
  intros Hre Hr Hrun. unfold client.Get.
  set (req := incoming protocol.OpExGet None None name key []).
  set (resp := match r with
               | inl err => if decide (err = OErrKeyNotFound) then protocol.Error req protocol.StatusKeyNotFound []
                            else answer req (Some err)
               | inr value => with_value value (protocol.Success req)
               end).
  rewrite (bind_run _ _ _ (inr (protocol.written resp)) c').
  - unfold resp, get_reply. destruct r as [err|raw]; [|done]. by case_decide.
  - eapply client_request; [done|done|done|done|unfold exGetOperation; by step Hrun|].
    unfold resp. destruct r as [err|raw].
    + case_decide; [by apply readable_text|by apply answer_readable].
    + apply value_ok; simpl in Hr; unfold client.MaxValueSize in *; [lia|lia|done].
Qed.

Lemma client_PutEx fuel i n name key (v : V) data timeout c c' err :
  sMarshal v = inr data → in_int64 timeout → reaches i n name key data c → short_error err →
  put (serve fuel) n name key data timeout c = Return (err, c') →
  client.PutEx (serve (Datatypes.S fuel)) cc i name key v timeout c = Return (None, c').
Proof.
  intros Hv Ht Hre Herr Hrun. unfold client.PutEx. rewrite Hv.
  eapply client_call; [done|done|by apply (protocol.read_extra_bytes _ (protocol.PutExExtra timeout))|done| |done].
  unfold exPutExOperation. cbn [incoming protocol.Extra]. by step Hrun.
Qed.

Lemma client_Lock fuel i n name key timeout c c' err :
  in_int64 timeout → reaches i n name key [] c → short_error err →
  lockWithTimeout (serve fuel) n name key timeout c = Return (err, c') →
  client.LockWithTimeout (serve (Datatypes.S fuel)) cc i name key timeout c = Return (None, c').
Proof.
  intros Ht Hre Herr Hrun. unfold client.LockWithTimeout.
  eapply client_call; [done|done|
    by apply (protocol.read_extra_bytes _ (protocol.LockWithTimeoutExtra timeout))|done| |done].
  unfold exLockWithTimeoutOperation. cbn [incoming protocol.Extra]. by step Hrun.
Qed.

(** [Unlock] reports a missing lock and no other error. *)
Definition unlock_reply (err : option oerror) : option oerror :=
  if decide (err = Some OErrNoSuchLock) then err else None.

Lemma client_Unlock fuel i n name key c c' err :
  reaches i n name key [] c → short_error err →
  unlock (serve fuel) n name key c = Return (err, c') →
  client.Unlock (serve (Datatypes.S fuel)) cc i name key c = Return (unlock_reply err, c').
Proof.
  intros Hre Herr Hrun. unfold client.Unlock.
  set (req := incoming protocol.OpExUnlock None None name key []).
  rewrite (bind_run _ _ _ (inr (protocol.written (unlock_answer req err))) c').
  - unfold unlock_reply, unlock_answer. case_decide as E; [by rewrite E|]. by destruct err.
  - eapply client_request; [done|done|done|done|unfold exUnlockOperation; by step Hrun|].
    unfold unlock_answer. case_decide; [by apply readable_text|by apply answer_readable].
Qed.

Lemma client_Destroy fuel i n name c c' err :
  reaches i n name [] [] c → short_error err →
  destroyDMap (serve fuel) n name c = Return (err, c') →
  client.Destroy (serve (Datatypes.S fuel)) cc i name c = Return (None, c').
Proof.
  intros Hre Herr Hrun. unfold client.Destroy.
  eapply client_call; [done|done|done|done| |done]. unfold exDestroyOperation. by step Hrun.
Qed.

(** What [Incr] and [Decr] make of the answer of the node: the result; the text of an error is
    decoded, and a panic follows unless it happens to be an integer. *)
Definition count_reply (r : oerror + Z) : comp (oerror + Z) :=
  match r with
  | inr z => Return (inr z)
  | inl err => match sUnmarshal (V := V) (error_text err) with
               | inr u => match v_kind u with KInt z => Return (inr z) | _ => Panic end
               | inl _ => Panic
               end
  end.
Definition short_count (r : oerror + Z) : Prop :=
  match r with
  | inr z => ∃ data, sMarshal (v_int (V := V) z) = inr data ∧ len data ≤ cmax
  | inl err => short_error (Some err)
  end.

Lemma client_incrDecr fuel i n op name key delta dd r c c' :
  op = protocol.OpExIncr ∨ op = protocol.OpExDecr →
  sMarshal (v_int (V := V) delta) = inr dd → short_count r → reaches i n name key dd c →
  atomicIncrDecr (V := V) (serve fuel) n name key
    (if op =? protocol.OpExDecr then decr else incr) delta c = Return (r, c') →
  client.incrDecr (V := V) (serve (Datatypes.S fuel)) cc i op name key delta c
  = (z ← count_reply r; Return (z, c')).
Proof.
  intros Hop Hd Hs Hre Hrun. unfold client.incrDecr. rewrite Hd.
  set (req := incoming op None None name key dd).
  set (resp := match r with
               | inl err => answer req (Some err)
               | inr newval => match sMarshal (v_int (V := V) newval) with
                               | inl err => answer req (Some err)
                               | inr data => with_value data (protocol.Success req)
                               end
               end).
  assert (operation (V := V) (serve fuel) op = Some (exIncrDecrOperation (serve fuel) (V := V))) as Hopr
    by by destruct Hop as [-> | ->].
  assert (0 ≤ op < 2 ^ 8) as Hop8 by by destruct Hop as [-> | ->].
  rewrite (bind_run _ _ _ (inr (protocol.written resp)) c'); last first.
  { eapply client_request; [done|done|done|done| |].
    - unfold exIncrDecrOperation. cbn [incoming protocol.Value protocol.DMap protocol.Key].
      rewrite (sUnmarshal_sMarshal _ _ Hd), v_kind_int. cbn beta iota zeta.
      rewrite op_incoming. by step Hrun.
    - unfold resp. destruct r as [err|z]; [by apply answer_readable|]. destruct Hs as (data & -> & Hl).
      apply value_ok; unfold client.MaxValueSize in *; [lia|lia|done]. }
  unfold resp. destruct r as [err|z]; cbn beta iota.
  - change (protocol.Value (protocol.written (answer req (Some err)))) with (error_text err).
    cbn [count_reply]. destruct (sUnmarshal _) as [?|u]; [done|]. by destruct (v_kind u).
  - destruct Hs as (data & Hz & Hl). rewrite Hz.
    change (protocol.Value (protocol.written (with_value data (protocol.Success req)))) with data.
    by rewrite (sUnmarshal_sMarshal _ _ Hz), v_kind_int.
Qed.

(** What [GetPut] makes of the answer of the node: nothing for an old value that is missing
    or empty; the text of an error is decoded. *)
Definition old_reply (r : oerror + option (list byte)) : oerror + V :=
  let raw := match r with inl err => error_text err | inr old => default [] old end in
  if decide (raw = []) then inr v_nil else sUnmarshal raw.
Definition short_old (r : oerror + option (list byte)) : Prop :=
  match r with inl err => short_error (Some err) | inr old => len (default [] old) ≤ cmax end.

Lemma client_GetPut fuel i n name key (v : V) data r c c' :
  sMarshal v = inr data → reaches i n name key data c → short_old r →
  getPut (serve fuel) n name key data c = Return (r, c') →
  client.GetPut (serve (Datatypes.S fuel)) cc i name key v c = Return (old_reply r, c').
Proof.
  intros Hv Hre Hs Hrun. unfold client.GetPut. rewrite Hv.
  set (req := incoming protocol.OpExGetPut None None name key data).
  set (resp := match r with
               | inl err => answer req (Some err)
               | inr old => with_value (default [] old) (protocol.Success req)
               end).
  rewrite (bind_run _ _ _ (inr (protocol.written resp)) c').
  - by destruct r.
  - eapply client_request; [done|done|done|done|unfold exGetPutOperation; by step Hrun|].
    unfold resp. destruct r as [err|old]; [by apply answer_readable|].
    apply value_ok; simpl in Hs; unfold client.MaxValueSize in *; [lia|lia|done].
Qed.

(** ** Theorems *)


Lemma client_put_get cfg owner bowners fuel i j n1 n2 db1 db2 dbo (c : cluster) name key (v : V) data :
  let h := getHKey name key in
  settled cfg owner bowners c → nodes c !! n1 = Some db1 → nodes c !! n2 = Some db2 →
  nodes c !! Name (owner (pid cfg h)) = Some dbo →
  client.Addrs cc !! i = Some n1 → client.Addrs cc !! j = Some n2 →
  sMarshal v = inr data → put_ready cfg bowners c dbo h name key data 0 → len data ≤ cmax →
  let sv := serve (Datatypes.S (Datatypes.S (Datatypes.S fuel))) in
  ∃ c1 c2, client.Put sv cc i name key v c = Return (None, c1)
    ∧ client.Get sv cc j name key c1 = Return (inr v, c2)
    ∧ settled cfg owner bowners c1 ∧ settled cfg owner bowners c2.
Proof.
  intros h Hc Hn1 Hn2 Ho Hi Hj Hv Hready Hl sv.
  pose proof (ready_fits _ _ _ _ _ _ _ _ _ Hready) as Hfit. pose proof Hfit as (? & ? & ? & ?).
  pose proof (len_nonneg name). pose proof (len_nonneg key).
  assert (fits (MaxValueSize cfg) name key []) as Hfit0 by (by eapply fits_less).
  destruct (put_get_spec cfg owner bowners fuel n1 n2 db1 db2 dbo c name key key data 0 Hc Hn1 Hn2 Ho
    ltac:(done) Hready eq_refl Hfit0 ltac:(lia)) as (c1 & c2 & Hput & Hget & Hc1 & Hc2 & Hdone).
  destruct (evolves_node _ _ _ _ (put_evolves _ _ _ _ _ _ _ _ Hdone) Hn2) as (db2' & Hn2' & _).
  exists c1, c2. split; [|split; [|done]].
  - apply (client_Put (Datatypes.S (Datatypes.S fuel)) i n1 name key v data c c1 None Hv); [|done|exact Hput].
    split; [done|apply Hc|]. exists db1. split; [done|].
    by destruct (st_node _ _ _ _ Hc _ _ Hn1) as (_ & -> & _).
  - rewrite <-(sUnmarshal_sMarshal _ _ Hv).
    apply (client_Get (Datatypes.S (Datatypes.S fuel)) j n2 name key c1 c2 (inr data)); [|done|exact Hget].
    split; [done|apply Hc1|]. exists db2'. split; [done|].
    by destruct (st_node _ _ _ _ Hc1 _ _ Hn2') as (_ & -> & _).
Qed.

(** On a settled cluster a client reads back the value it has put, whichever of the
    nodes each of the two requests goes to. *)
Theorem Client_Put_then_Get cfg owner bowners fuel i j n1 n2 db1 db2 dbo (c : cluster) name key (v : V) data :
  let h := getHKey name key in
  settled cfg owner bowners c → nodes c !! n1 = Some db1 → nodes c !! n2 = Some db2 →
  nodes c !! Name (owner (pid cfg h)) = Some dbo →
  client.Addrs cc !! i = Some n1 → client.Addrs cc !! j = Some n2 →
  sMarshal v = inr data → put_ready cfg bowners c dbo h name key data 0 → len data ≤ cmax →
  let sv := serve (Datatypes.S (Datatypes.S (Datatypes.S fuel))) in
  ∃ c1 c2, client.Put sv cc i name key v c = Return (None, c1)
    ∧ client.Get sv cc j name key c1 = Return (inr v, c2)
    ∧ settled cfg owner bowners c1 ∧ settled cfg owner bowners c2.
Proof. apply client_put_get. Qed.

(** A node that has not been bootstrapped in time refuses the calls. *)
Lemma put_timed_out sv n db (c : cluster) name key value timeout :
  nodes c !! n = Some db → bcx db = BootDeadlineExceeded →
  put sv n name key value timeout c = Return (Some ErrOperationTimeout, c).
Proof.
  intros Hn Hb. unfold put. at_node Hn. unfold locateKey, locateHKey, await_bootstrap.
  rewrite Hb. done.
Qed.

Lemma lock_timed_out sv n db (c : cluster) name key timeout :
  nodes c !! n = Some db → bcx db = BootDeadlineExceeded →
  lockWithTimeout sv n name key timeout c = Return (Some ErrOperationTimeout, c).
Proof.
  intros Hn Hb. unfold lockWithTimeout. at_node Hn. unfold locateKey, locateHKey, await_bootstrap.
  rewrite Hb. done.
Qed.

(** The client takes a refusal for a success: when the node has not been bootstrapped
    in time, [Put] and [LockWithTimeout] return no error although nothing has been stored
    or locked, and [Incr] panics on the text of the error. *)
Theorem Client_hides_errors fuel i n db (c : cluster) name key (v : V) data timeout delta dd :
  nodes c !! n = Some db → bcx db = BootDeadlineExceeded →
  sMarshal v = inr data → reaches i n name key data c →
  sMarshal (v_int (V := V) delta) = inr dd → reaches i n name key dd c →
  in_int64 timeout →
  (∀ u z, sUnmarshal (V := V) (error_text ErrOperationTimeout) = inr u → v_kind u ≠ KInt z) →
  let sv := serve (Datatypes.S fuel) in
  client.Put sv cc i name key v c = Return (None, c)
  ∧ client.LockWithTimeout sv cc i name key timeout c = Return (None, c)
  ∧ client.Incr (V := V) sv cc i name key delta c = Panic.
Proof.
  intros Hn Hb Hv Hre Hd Hre' Ht Hu sv.
  assert (reaches i n name key [] c) as Hre0.
  { destruct Hre as [? ? (d & ? & Hf)]. split; [done|done|]. exists d. split; [done|]. by eapply fits_less. }
  assert (short_error (Some ErrOperationTimeout)) as Hshort by by vm_compute.
  split; [|split].
  - eapply client_Put; [done|done|exact Hshort|by eapply put_timed_out].
  - eapply client_Lock; [done|done|exact Hshort|by eapply lock_timed_out].
  - unfold client.Incr, client.incrDecr. rewrite Hd.
    set (req := incoming protocol.OpExIncr None None name key dd).
    rewrite (bind_run _ _ _ (inr (protocol.written (answer req (Some ErrOperationTimeout)))) c).
    + cbn beta iota. destruct (sUnmarshal _) as [e|u] eqn:E; [done|].
      destruct (v_kind u) as [| |z|] eqn:Ek; try done. by destruct (Hu u z eq_refl Ek).
    + eapply client_request; [done|done|done|done| |by apply answer_readable].
      unfold exIncrDecrOperation. cbn [incoming protocol.Value protocol.DMap protocol.Key].
      rewrite (sUnmarshal_sMarshal _ _ Hd), v_kind_int. cbn beta iota zeta. unfold atomicIncrDecr.
      rewrite (bind_run _ _ _ (inl ErrOperationTimeout) c); [done|].
      by step (lock_timed_out (serve fuel) n db c name key minute Hn Hb).
Qed.
End clientspec.
End clientspec.
