(* ===== verification/CliSpec.v ===== *)
(** What the command line client promises: for words that the trimming of a command does
    not damage, each command makes the call of its name; what it does to the others. *)

From S2P Require Export Cli ClientSpec.

Module clispec.
Export cli clientspec.

(** ** Words *)
Definition graphic (b : byte) : bool := (33 <=? unsigned b) && (unsigned b <=? 126).

(** A word has printable ASCII characters only, a text begins and ends with one. *)
Definition word (s : list byte) : Prop := s ≠ [] ∧ Forall (fun b => graphic b = true) s.
Definition trimmed (s : list byte) : Prop :=
  (∃ b s', (s = b :: s') ∧ graphic b = true) ∧ (∃ s' b, (s = s' ++ [b]) ∧ graphic b = true).

(** The word does not begin with a quote, nor with a character of the command. *)
Definition safe_start (cutset s : list byte) : Prop :=
  match s with [] => False | b :: _ => (b ∉ cutset) ∧ b ≠ quote end.

#[export] Instance word_dec s : Decision (word s).
Proof. unfold word. apply _. Defined.
#[export] Instance safe_start_dec cs s : Decision (safe_start cs s).
Proof. destruct s; simpl; apply _. Defined.

Lemma graphic_bounds b : graphic b = true → 33 ≤ unsigned b ≤ 126.
Proof. unfold graphic. rewrite andb_true_iff, !Z.leb_le. lia. Qed.

Lemma graphic_space1 b : graphic b = true → space1 b = false.
Proof. intros H%graphic_bounds. unfold space1. lia. Qed.

Lemma graphic_space2 b1 b2 : graphic b1 = true ∨ graphic b2 = true → space2 b1 b2 = false.
Proof. intros H. apply bool_decide_eq_false. intros [-> [-> | ->]]; by destruct H. Qed.

Lemma graphic_space3 b1 b2 b3 : graphic b1 = true ∨ graphic b3 = true → space3 b1 b2 b3 = false.
Proof.
  intros H. unfold space3. apply orb_false_iff. split.
  - apply bool_decide_eq_false. rewrite !elem_of_cons, elem_of_nil.
    intros Hin. destruct_or?; simplify_eq; by destruct H.
  - destruct (bool_decide_reflect (b1 = xe2 ∧ b2 = x80)) as [[-> ->]|]; [|done].
    destruct H as [H|H]; [done|]. apply graphic_bounds in H. simpl. lia.
Qed.

Lemma graphic_not_space b : graphic b = true → b ∉ [x20].
Proof. intros H ->%list_elem_of_singleton. done. Qed.

Lemma trim_left_graphic b s : graphic b = true → trim_left_space (b :: s) = b :: s.
Proof.
  intros H. unfold trim_left_space. cbn [drop_chars]. rewrite graphic_space1 by done.
  destruct s as [|b2 s]; [done|]. rewrite graphic_space2 by by left.
  destruct s as [|b3 s]; [done|]. by rewrite graphic_space3 by by left.
Qed.

Lemma trim_right_graphic b s : graphic b = true → trim_right_space (s ++ [b]) = s ++ [b].
Proof.
  intros H. unfold trim_right_space. rewrite rev_app_distr. cbn [rev app drop_chars].
  rewrite graphic_space1 by done.
  destruct (rev s) as [|b2 s'] eqn:Es; [by rewrite <-(rev_involutive s), Es|].
  rewrite graphic_space2 by by right.
  destruct s' as [|b3 s']; [by rewrite <-(rev_involutive s), Es|].
  rewrite graphic_space3 by by right. by rewrite <-(rev_involutive s), Es.
Qed.

Lemma TrimSpace_trimmed s : trimmed s → TrimSpace s = s.
Proof.
  intros [(b & s1 & E1 & H1) (s2 & b2 & E2 & H2)]. unfold TrimSpace.
  rewrite E1, trim_left_graphic, <-E1, E2 by done. by apply trim_right_graphic.
Qed.

Lemma word_trimmed s : word s → trimmed s.
Proof.
  intros [Hne Hs]. split.
  - destruct s as [|b s]; [done|]. apply Forall_cons in Hs as [Hb _]. by exists b, s.
  - destruct s as [|b s _] using rev_ind; [done|]. apply Forall_app in Hs as [_ Hb]. apply Forall_cons in Hb as [Hb _]. by exists s, b.
Qed.

(** A text with a graphic character in front is still one, as are two texts in a row. *)
Lemma trimmed_app s1 s s2 : trimmed s1 → trimmed s2 → trimmed (s1 ++ s ++ s2).
Proof.
  intros [(b & s1' & -> & H1) _] [_ (s2' & b2 & -> & H2)]. split.
  - by exists b, (s1' ++ s ++ s2' ++ [b2]).
  - exists ((b :: s1') ++ s ++ s2'), b2. by rewrite <-!app_assoc.
Qed.

Lemma no_space_in_word s : word s → x20 ∉ s.
Proof. intros [_ Hs] Hin. rewrite Forall_forall in Hs. by specialize (Hs _ Hin). Qed.

(** ** Cutting *)
Lemma cut_at k b v : b ∉ k → cut (k ++ b :: v) [b] = Some (k, v).
Proof.
  induction k as [|a k IH]; intros Hb.
  - simpl. by rewrite decide_True.
  - apply not_elem_of_cons in Hb as [Hne Hb]. simpl. rewrite decide_False by done.
    by rewrite (IH Hb).
Qed.

Lemma cut_prefix_app p s : cut_prefix p (p ++ s) = Some s.
Proof. induction p as [|a p IH]; simpl; [by destruct s|]. by rewrite decide_True. Qed.

Lemma cut_self sep rest : cut (sep ++ rest) sep = Some ([], rest).
Proof.
  destruct sep as [|a sep]; [by destruct rest|]. cbn [app cut].
  change (a :: sep ++ rest) with ((a :: sep) ++ rest). by rewrite cut_prefix_app.
Qed.

Lemma split_prefix fuel sep rest :
  (2 ≤ fuel)%nat → cut rest sep = None → split_loop fuel (sep ++ rest) sep = [[]; rest].
Proof.
  intros Hf Hr. destruct fuel as [|[|fuel]]; [lia..|]. cbn [split_loop]. by rewrite cut_self, Hr.
Qed.

Lemma TrimLeft_stops cs s b k :
  Forall (fun b => b ∈ cs) s → b ∉ cs → TrimLeft (s ++ b :: k) cs = b :: k.
Proof.
  intros Hs Hb. induction Hs as [|a s Ha _ IH]; simpl; [by rewrite decide_False|by rewrite decide_True].
Qed.

Lemma TrimLeft_word cs s k :
  Forall (fun b => b ∈ cs) s → safe_start cs k → TrimLeft (s ++ k) cs = k.
Proof. intros Hs Hk. destruct k as [|b k]; [done|]. destruct Hk. by apply TrimLeft_stops. Qed.

Lemma HasPrefix_app p s : HasPrefix (p ++ s) p = true.
Proof.
  unfold HasPrefix. by rewrite cut_prefix_app.
Qed.

Lemma not_quoted cs s : safe_start cs s → ∀ s', HasPrefix (s ++ s') [quote] = false.
Proof.
  destruct s as [|b s]; [done|]. intros [_ Hq] s'. unfold HasPrefix. simpl. by rewrite decide_False.
Qed.

Lemma parseLine_words cs k v : word k → safe_start cs k → trimmed v → parseLine (k ++ x20 :: v) = Some (k, v).
Proof.
  intros Hk Hs Hv. unfold parseLine.
  assert (trimmed (k ++ x20 :: v)) as Ht by (apply (trimmed_app k [x20] v); [by apply word_trimmed|done]).
  rewrite TrimSpace_trimmed, (not_quoted cs) by done.
  unfold SplitN2. change (text " ") with [x20]. by rewrite cut_at by by apply no_space_in_word.
Qed.

Lemma extract_quoted k s : quote ∉ k → extractKey (quote :: k ++ quote :: s) = Some k.
Proof.
  intros Hq. unfold extractKey, first_quoted.
  rewrite (cut_self [quote] (k ++ quote :: s) : cut (quote :: k ++ quote :: s) [quote] = _).
  by rewrite cut_at.
Qed.

(** The first part that a quoted word at the beginning leaves is empty. *)
Lemma split_quoted k s :
  ∃ parts, Split (quote :: k ++ quote :: s) ([quote] ++ k ++ [quote]) = [] :: parts.
Proof.
  unfold Split. replace (quote :: k ++ quote :: s) with (([quote] ++ k ++ [quote]) ++ s)
    by (by rewrite <-!app_assoc).
  destruct (length _) as [|f] eqn:El; [done|]. cbn [split_loop]. rewrite cut_self. by eexists.
Qed.

(** ** Commands *)

(** Decides the prefixes of a line whose beginning is known. *)
Ltac prefixes :=
  repeat match goal with
  | |- context [HasPrefix ?s ?p] =>
      let b := eval vm_compute in (HasPrefix s p) in
      match b with
      | true => change (HasPrefix s p) with true
      | false => change (HasPrefix s p) with false
      end
  end; cbv beta iota zeta.

Lemma command_trimmed cmd s : trimmed cmd → trimmed s → trimmed (cmd ++ x20 :: s).
Proof. intros. by apply (trimmed_app cmd [x20] s). Qed.

Section commands.
Context {S N : Type} `{!KV S} `{!KVLaws S} `{!Snap S N} `{!Env}.
Context {V : Type} `{!Serializer V} `{!SerializerLaws V} `{!Printing V}.
Abbreviation M := (olric.M S N).
Abbreviation cluster := (olric.cluster S N).
Context (sv : list byte → Message → M (option Message)) (c : CLI).

(** The line of a command with its arguments. *)
Definition line (args : list (list byte)) : list byte :=
  match args with [] => [] | a :: args => foldl (fun l a => l ++ x20 :: a) a args end.

(** What a call prints. *)
Definition prints (dmap : list byte) (m : M (list byte)) : M (option (list byte * list byte)) :=
  out ← m; mret (Some (dmap, out)).

Lemma command_map dmap cmd rest :
  dmap ≠ [] → trimmed cmd → trimmed rest →
  HasPrefix (cmd ++ x20 :: rest) (text "exit") = false →
  HasPrefix (cmd ++ x20 :: rest) (text "use ") = false →
  command (V := V) sv c dmap (cmd ++ x20 :: rest)
  = prints dmap (map_command (V := V) sv c dmap (cmd ++ x20 :: rest)).
Proof.
  intros Hd Hc Hr H1 H2. unfold command.
  by rewrite TrimSpace_trimmed, H1, H2, decide_False by (done || by apply command_trimmed).
Qed.

Lemma strip_command cmd rest :
  safe_start (cmd ++ [x20]) rest → TrimLeft (cmd ++ x20 :: rest) (cmd ++ [x20]) = rest.
Proof.
  intros Hs. change (x20 :: rest) with ([x20] ++ rest). rewrite app_assoc.
  apply TrimLeft_word; [|done]. by apply Forall_forall.
Qed.

Lemma safe_app cs k s : safe_start cs k → safe_start cs (k ++ s).
Proof. by destruct k. Qed.

Lemma words_trimmed k v : word k → trimmed v → trimmed (k ++ x20 :: v).
Proof. intros. apply command_trimmed; [by apply word_trimmed|done]. Qed.

Hint Resolve words_trimmed word_trimmed safe_app : core.

Ltac run_command cmd :=
  cbn [line foldl]; rewrite <-?app_assoc; cbn [app];
  rewrite command_map; [|done|by apply word_trimmed, (bool_decide_unpack _)|auto|done|done];
  f_equal; unfold map_command; prefixes.

Lemma command_put dmap k v :
  dmap ≠ [] → word k → trimmed v → safe_start (text "put ") k →
  command (V := V) sv c dmap (line [text "put"; k; v])
  = prints dmap (err ← client.Put sv (cli_client c) 0 dmap k (v_string v);
                 mret (report (text "Put") dmap k err)).
Proof.
  intros Hd Hk Hv Hs. run_command (text "put"). unfold put_command.
  rewrite (strip_command (text "put")), TrimSpace_trimmed by auto.
  by rewrite (parseLine_words (text "put ")).
Qed.

Lemma command_putex dmap k t v ttl :
  dmap ≠ [] → word k → word t → trimmed v → safe_start (text "putex ") k →
  ParseDuration t = inr ttl →
  command (V := V) sv c dmap (line [text "putex"; k; t; v])
  = prints dmap (err ← client.PutEx sv (cli_client c) 0 dmap k (v_string v) ttl;
                 mret (report (text "PutEx") dmap k err)).
Proof.
  intros Hd Hk Ht Hv Hs Httl. run_command (text "putex"). unfold putex_command.
  rewrite (strip_command (text "putex")), TrimSpace_trimmed by auto.
  unfold parse_putex. rewrite (not_quoted (text "putex ")) by done.
  unfold SplitN2. change (text " ") with [x20]. rewrite cut_at by by apply no_space_in_word.
  rewrite TrimSpace_trimmed, cut_at by (by auto || by apply no_space_in_word). by rewrite Httl.
Qed.

Lemma parse_key_word cs k : word k → safe_start cs k → parse_key k = Some k.
Proof.
  intros _ Hs. unfold parse_key. rewrite <-(app_nil_r k) at 1. by rewrite (not_quoted cs).
Qed.

Lemma command_get dmap k :
  dmap ≠ [] → word k → safe_start (text "get ") k →
  command (V := V) sv c dmap (line [text "get"; k])
  = prints dmap (r ← client.Get (V := V) sv (cli_client c) 0 dmap k;
                 mret match r with
                 | inl err => if decide (err = OErrKeyNotFound) then text "nil" ++ newline
                              else failed (text "Get") dmap k err
                 | inr value => show value ++ newline
                 end).
Proof.
  intros Hd Hk Hs. run_command (text "get"). unfold get_command.
  by rewrite (strip_command (text "get")), (parse_key_word (text "get ")).
Qed.

Lemma command_delete dmap k :
  dmap ≠ [] → word k → safe_start (text "delete ") k →
  command (V := V) sv c dmap (line [text "delete"; k])
  = prints dmap (err ← client.Delete sv (cli_client c) 0 dmap k;
                 mret (report (text "Delete") dmap k err)).
Proof.
  intros Hd Hk Hs. run_command (text "delete"). unfold delete_command.
  by rewrite (strip_command (text "delete")), (parse_key_word (text "delete ")).
Qed.

(** What [incr] and [decr] print. *)
Definition prints_number (call dmap k : list byte) (m : M (oerror + Z)) : M (list byte) :=
  r ← m;
  mret match r with
  | inl err => failed call dmap k err
  | inr current => text (pretty current) ++ newline
  end.

Lemma command_incr dmap k d delta :
  dmap ≠ [] → word k → word d → safe_start (text "incr ") k → Atoi d = Some delta →
  command (V := V) sv c dmap (line [text "incr"; k; d])
  = prints dmap (prints_number (text "Incr") dmap k (client.Incr (V := V) sv (cli_client c) 0 dmap k delta)).
Proof.
  intros Hd Hk Hdl Hs Ha. run_command (text "incr"). unfold incr_command.
  rewrite (strip_command (text "incr")), (parseLine_words (text "incr ")) by auto. by rewrite Ha.
Qed.

Lemma command_decr dmap k d delta :
  dmap ≠ [] → word k → word d → safe_start (text "decr ") k → Atoi d = Some delta →
  command (V := V) sv c dmap (line [text "decr"; k; d])
  = prints dmap (prints_number (text "Decr") dmap k (client.Decr (V := V) sv (cli_client c) 0 dmap k delta)).
Proof.
  intros Hd Hk Hdl Hs Ha. run_command (text "decr"). unfold incr_command.
  rewrite (strip_command (text "decr")), (parseLine_words (text "decr ")) by auto. by rewrite Ha.
Qed.

(** A map is selected if its name does not hold the word [use]. *)
Lemma command_use dmap name :
  word name → safe_start [] name → cut name (text "use") = None →
  command (V := V) sv c dmap (line [text "use"; name])
  = mret (Some (name, text "use " ++ name ++ newline)).
Proof.
  intros Hn Hs Hc. cbn [line foldl]. unfold command.
  assert (trimmed (text "use" ++ x20 :: name)) as Ht.
  { apply command_trimmed; [by apply word_trimmed, (bool_decide_unpack _)|auto]. }
  rewrite TrimSpace_trimmed by done. prefixes.
  assert (cut (x20 :: name) (text "use") = None) as Hc'.
  { change (((fun r => (x20 :: r.1, r.2)) <$> cut name (text "use")) = None). by rewrite Hc. }
  assert (parse_use (text "use" ++ x20 :: name) = Return (Some name)) as ->; [|done].
  unfold parse_use, Split. rewrite split_prefix by (done || rewrite length_app; cbn; lia).
  unfold Trim. change (text " ") with [x20].
  change (x20 :: name) with ([x20] ++ name). rewrite (TrimLeft_word [x20] [x20]); last first.
  { destruct name as [|b name]; [done|]. destruct Hn as [_ [Hb _]%Forall_cons], Hs as [_ Hq].
    split; [|done]. by apply graphic_not_space. }
  { by apply (bool_decide_unpack _). }
  assert (TrimRight name [x20] = name) as ->.
  { destruct (word_trimmed _ Hn) as [_ (s' & b & -> & Hb)]. unfold TrimRight.
    rewrite rev_app_distr. cbn [rev app TrimLeft].
    rewrite decide_False by (by apply graphic_not_space). cbn. by rewrite rev_involutive. }
  rewrite <-(app_nil_r name) at 1. by rewrite (not_quoted []).
Qed.

(** C15: each of the commands put, putex, get, delete, incr and decr makes the call of its
    name with exactly the words of its line, and prints the answer, as long as the map is
    selected, the key is a word, and the key begins neither with a quote nor with a letter
    of the command. *)
Theorem commands_make_calls dmap k v :
  dmap ≠ [] → word k → trimmed v →
  (safe_start (text "put ") k →
     command (V := V) sv c dmap (line [text "put"; k; v])
     = prints dmap (err ← client.Put sv (cli_client c) 0 dmap k (v_string v);
                    mret (report (text "Put") dmap k err)))
  ∧ (∀ t ttl, safe_start (text "putex ") k → word t → ParseDuration t = inr ttl →
     command (V := V) sv c dmap (line [text "putex"; k; t; v])
     = prints dmap (err ← client.PutEx sv (cli_client c) 0 dmap k (v_string v) ttl;
                    mret (report (text "PutEx") dmap k err)))
  ∧ (safe_start (text "get ") k →
     command (V := V) sv c dmap (line [text "get"; k])
     = prints dmap (r ← client.Get (V := V) sv (cli_client c) 0 dmap k;
                    mret match r with
                    | inl err => if decide (err = OErrKeyNotFound) then text "nil" ++ newline
                                 else failed (text "Get") dmap k err
                    | inr value => show value ++ newline
                    end))
  ∧ (safe_start (text "delete ") k →
     command (V := V) sv c dmap (line [text "delete"; k])
     = prints dmap (err ← client.Delete sv (cli_client c) 0 dmap k;
                    mret (report (text "Delete") dmap k err)))
  ∧ (∀ d delta, word d → Atoi d = Some delta →
     (safe_start (text "incr ") k →
      command (V := V) sv c dmap (line [text "incr"; k; d])
      = prints dmap (prints_number (text "Incr") dmap k
          (client.Incr (V := V) sv (cli_client c) 0 dmap k delta)))
     ∧ (safe_start (text "decr ") k →
        command (V := V) sv c dmap (line [text "decr"; k; d])
        = prints dmap (prints_number (text "Decr") dmap k
            (client.Decr (V := V) sv (cli_client c) 0 dmap k delta)))).
Proof.
  intros Hd Hk Hv. split; [by apply command_put|]. split; [intros; by apply command_putex|].
  split; [by apply command_get|]. split; [by apply command_delete|].
  intros d delta Hdl Ha. split; intros Hs; [by apply command_incr|by apply command_decr].
Qed.

(** What the commands do to other keys.  The letters at the beginning of a key that
    also occur in the command are cut off; and a quoted key of [put] is lost: an empty
    value is stored under the empty key. *)
Theorem put_damages_keys dmap p k v :
  dmap ≠ [] → word k → trimmed v →
  (safe_start (text "put ") k → Forall (fun b => b ∈ text "put") p →
     command (V := V) sv c dmap (line [text "put"; p ++ k; v])
     = command (V := V) sv c dmap (line [text "put"; k; v]))
  ∧ (quote ∉ k →
     command (V := V) sv c dmap (line [text "put"; [quote] ++ k ++ [quote]; v])
     = prints dmap (err ← client.Put sv (cli_client c) 0 dmap [] (v_string []);
                    mret (report (text "Put") dmap [] err))).
Proof.
  intros Hd Hk Hv. split.
  - intros Hs Hp. assert (word (p ++ k)) as Hpk.
    { split; [destruct p; [apply Hk|done]|]. apply Forall_app. split; [|apply Hk].
      eapply Forall_impl; [done|]. intros b Hb. change (text "put") with [x70; x75; x74] in Hb.
      rewrite !elem_of_cons, elem_of_nil in Hb. destruct_or?; by subst. }
    rewrite (command_put dmap k v) by done. run_command (text "put"). unfold put_command.
    replace (text "put" ++ x20 :: (p ++ k) ++ x20 :: v)
      with ((text "put " ++ p) ++ (k ++ x20 :: v)) by (by rewrite <-!app_assoc).
    rewrite (TrimLeft_word (text "put ")).
    + rewrite TrimSpace_trimmed by auto. by rewrite (parseLine_words (text "put ")).
    + apply Forall_app. split; [by apply (bool_decide_unpack _)|].
      eapply Forall_impl; [done|]. intros b Hb. change (text "put ") with (text "put" ++ [x20]).
      apply elem_of_app. by left.
    + by apply safe_app.
  - intros Hq. assert (trimmed ([quote] ++ k ++ [quote] ++ x20 :: v)) as Ht.
    { apply (trimmed_app [quote] (k ++ [quote; x20]) v) in Hv as Ht; [by rewrite <-!app_assoc in Ht|].
      by split; [exists quote, []|exists [], quote]. }
    replace (line [text "put"; [quote] ++ k ++ [quote]; v])
      with (text "put" ++ x20 :: quote :: k ++ quote :: x20 :: v)
      by (cbn [line foldl app]; by rewrite <-!app_assoc; cbn [app]; rewrite <-!app_assoc).
    cbn [app] in Ht. rewrite command_map; [|done|by apply word_trimmed, (bool_decide_unpack _)|exact Ht|reflexivity|reflexivity].
    f_equal. unfold map_command. prefixes. unfold put_command.
    replace (TrimLeft (text "put" ++ x20 :: quote :: k ++ quote :: x20 :: v) (text "put "))
      with (quote :: k ++ quote :: x20 :: v); last first.
    { symmetry. apply (TrimLeft_stops (text "put ") (text "put ")); by apply (bool_decide_unpack _). }
    rewrite TrimSpace_trimmed by done. unfold parseLine. rewrite TrimSpace_trimmed by done.
    change (HasPrefix (quote :: _) [quote]) with true. cbv iota.
    rewrite extract_quoted by done. by destruct (split_quoted k (x20 :: v)) as [parts ->].
Qed.
End commands.

(** ** A session *)
Section session.
Context {S N : Type} `{!KV S} `{!KVLaws S} `{!Snap S N} `{!Env}.
Context `{!BirthdateSort} `{!Codec NodeMetadata} `{!RangeOrder (list byte)} `{!Codec (gmap Z route)}.
Context `{!Codec dmapbox}.
Context {V : Type} `{!Serializer V} `{!SerializerLaws V} `{!Printing V}.
Abbreviation cluster := (olric.cluster S N).
Abbreviation serve := (dispatch.serve (S := S) (N := N) (V := V)).

(** A command that prints, in the loop. *)
Lemma loop_line sv (cl : CLI) dmap dmap' l evs out o (c c' : cluster) :
  command (V := V) sv cl dmap l c = Return (Some (dmap', o), c') →
  start_loop (V := V) sv cl dmap (ELine l :: evs) out c
  = start_loop (V := V) sv cl dmap' evs (out ++ o) c'.
Proof. intros Hc. cbn [start_loop]. by setoid_rewrite (bind_run _ _ _ _ _ Hc). Qed.

Lemma prints_run dmap (m : olric.M S N (list byte)) out (c c' : cluster) :
  m c = Return (out, c') → prints dmap m c = Return (Some (dmap, out), c').
Proof. intros Hm. unfold prints. by setoid_rewrite (bind_run _ _ _ _ _ Hm). Qed.

(** C14: a session of the command line client on a settled cluster: a map is selected, a
    value is put and read back, and the terminal shows the answers; the lines go through
    the parser, the client, the wire and the nodes. The name of the map is a word that
    does not hold [use] and does not begin with a quote; the key is a word that begins
    neither with a quote nor with one of the letters p, u, t, g and e; the value has no
    space at its ends and fits, and the storages have room for it. *)
Theorem cli_session cfg owner bowners fuel (cl : CLI) home db dbo (c : cluster) name k v data :
  let h := getHKey name k in
  settled cfg owner bowners c → nodes c !! cli_addr cl = Some db →
  nodes c !! Name (owner (pid cfg h)) = Some dbo →
  client.Addrs (cli_client cl) = [cli_addr cl] → home ≠ [] →
  word name → safe_start [] name → cut name (text "use") = None →
  word k → safe_start (text "put ") k → safe_start (text "get ") k → trimmed v →
  sMarshal (v_string v) = inr data → put_ready cfg bowners c dbo h name k data 0 →
  len data ≤ client.MaxValueSize →
  let sv := serve (Datatypes.S (Datatypes.S (Datatypes.S fuel))) in
  ∃ c', Start (V := V) sv cl home None
      [ELine (line [text "use"; name]); ELine (line [text "put"; k; v]); ELine (line [text "get"; k]); EEOF] c
    = Return (text "use " ++ name ++ newline ++ text "OK" ++ newline ++ v ++ newline, None, c').
Proof.
  intros h Hc Hn Ho Ha Hh Hw Hq Hu Hk Hsp Hsg Hv Hm Hready Hl sv.
  destruct (client_put_get (cli_client cl) cfg owner bowners fuel 0 0 (cli_addr cl) (cli_addr cl)
    db db dbo c name k (v_string v) data Hc Hn Hn Ho) as (c1 & c2 & Hput & Hget & _);
    [by rewrite Ha|by rewrite Ha|done..|].
  subst sv. exists c2. unfold Start. rewrite decide_False by done.
  assert (name ≠ []) as Hne by by destruct Hw.
  erewrite loop_line; [|by rewrite command_use]. erewrite loop_line; last first.
  { rewrite command_put by done. apply prints_run. by setoid_rewrite (bind_run _ _ _ _ _ Hput). }
  erewrite loop_line; last first.
  { rewrite command_get by done. apply prints_run. by setoid_rewrite (bind_run _ _ _ _ _ Hget). }
  cbn [start_loop]. rewrite show_string. cbn [report app]. unfold OK. by rewrite <-!app_assoc.
Qed.
End session.
End clispec.
