(* ===== verification/TransportSpec.v ===== *)
(** What the transport promises: a connection carries requests and responses in order, a
    request on a pooled connection is as good as one on a fresh connection, as long as
    the connections are left clean. *)

From S2P Require Export Transport ClusterSpec.

Module tspec.
Export cspec.

Section tspec.
Context {S N : Type} `{!KV S} `{!KVLaws S} `{!Snap S N} `{!Env}.
Abbreviation M := (olric.M S N).
Abbreviation Olric := (olric.Olric S N).
Abbreviation cluster := (olric.cluster S N).
Abbreviation IOWait := transport.IOWait.
Context (sv : list byte → Message → M (option Message)).

(** ** The server's end *)

(** The node [n] reads the messages [ws] one after the other and answers [resps]. *)
Inductive served (n : list byte) : cluster → list (list byte) → list Message → cluster → Prop :=
| served_nil c : served n c [] [] c
| served_cons c c1 c2 db w ws req resp resps :
    nodes c !! n = Some db →
    (∀ rest, protocol.Read (MaxValueSize (config db)) protocol.zero_message (w ++ rest) IOWait
             = Return (req, None, rest)) →
    sv n req c = Return (Some resp, c1) →
    served n c1 ws resps c2 → served n c (w :: ws) (resp :: resps) c2.

(** The bytes are the beginning of a message. *)
Definition incomplete (max : Z) (tail : list byte) : Prop :=
  ∃ m, protocol.Read max protocol.zero_message tail IOWait = Return (m, Some IOWait, []).

Lemma incomplete_nil max : incomplete max [].
Proof. by eexists. Qed.

Lemma incomplete_prefix max m k :
  protocol.sizes_ok max m → protocol.valid_magic (protocol.Hdr m) →
  (k < length (protocol.wire m))%nat → incomplete max (take k (protocol.wire m)).
Proof.
  intros Hs Hm Hk. by apply (protocol.Read_truncated max m protocol.zero_message k IOWait).
Qed.

Lemma would_block_run n (c : cluster) db input r :
  nodes c !! n = Some db →
  protocol.Read (MaxValueSize (config db)) protocol.zero_message input IOWait = Return r →
  transport.would_block n input c = Return (bool_decide (r.1.2 = Some IOWait), c).
Proof. intros Hn Hr. unfold transport.would_block. at_node Hn. by calc Hr. Qed.

Lemma conn_loop_run fuel n c ws resps c' db tail : ∀ out,
  served n c ws resps c' → nodes c' !! n = Some db →
  incomplete (MaxValueSize (config db)) tail →
  transport.conn_loop sv (length ws + Datatypes.S fuel) n (concat ws ++ tail) out c
  = Return (tail, out ++ concat (map protocol.wire resps), true, c').
Proof.
  intros out Hs Hn [m Hm]. revert out.
  induction Hs as [c|c c1 c2 db1 w ws req resp resps Hn1 Hread Hsv Hs IH]; intros out.
  - cbn [concat length map]. rewrite app_nil_r. cbn [app Nat.add transport.conn_loop].
    step (would_block_run n c db tail _ Hn Hm). cbn [fst snd].
    by rewrite bool_decide_eq_true_2.
  - cbn [concat length map]. rewrite <-app_assoc.
    cbn [Nat.add]. remember (length ws + Datatypes.S fuel)%nat as k. cbn [transport.conn_loop].
    step (would_block_run n c db1 _ _ Hn1 (Hread _)). cbn [fst snd].
    rewrite bool_decide_eq_false_2 by done.
    step (conn_turn_run sv n req _ _ IOWait c c1 db1 resp Hn1 (Hread _) Hsv).
    rewrite (IH Hn). by rewrite app_assoc.
Qed.

(** ** The client's end *)

(** Nothing is under way on the connection. *)
Definition idle : transport.conn := transport.mkConn [] [] true.

(** The pools are open, within their capacity, and hold idle connections. *)
Definition clean_pool (p : transport.pool) : Prop :=
  ∃ cs, transport.conns p = Some cs ∧ len cs ≤ transport.maxCap p ∧ 0 < transport.maxCap p
    ∧ Forall (fun c => c = idle) cs.

Record clean (cl : transport.Client) : Prop := {
  cl_caps : 0 ≤ transport.MinConn (transport.cl_config cl) ≤ transport.MaxConn (transport.cl_config cl)
            ∧ 0 < transport.MaxConn (transport.cl_config cl);
  cl_pools : map_Forall (fun _ => clean_pool) (transport.pools cl)
}.

Lemma dial_run addr (c : cluster) :
  is_Some (nodes c !! addr) → transport.dial addr c = Return (inr idle, c).
Proof.
  intros Hup. unfold transport.dial, is_up. unfold mbind, M_bind. cbn.
  by rewrite bool_decide_eq_true_2.
Qed.

Lemma fill_run addr (c : cluster) k : ∀ cs,
  is_Some (nodes c !! addr) →
  transport.fill addr k cs c = Return (inr (cs ++ replicate k idle), c).
Proof.
  induction k as [|k IH]; intros cs Hup; [simpl; by rewrite app_nil_r|].
  cbn [transport.fill]. step (dial_run addr c Hup). rewrite IH by done.
  by rewrite <-app_assoc.
Qed.

Lemma getPool_run addr cl (c : cluster) :
  clean cl → is_Some (nodes c !! addr) →
  ∃ cl' p, transport.getPool addr cl c = Return (inr (cl', p), c)
    ∧ clean cl' ∧ clean_pool p ∧ transport.pools cl' = <[addr := p]> (transport.pools cl).
Proof.
  intros [[Hmin Hmax] Hp] Hup. unfold transport.getPool.
  destruct (transport.pools cl !! addr) as [p|] eqn:E.
  { exists cl, p. split; [done|]. split; [done|]. split; [by apply (Hp addr)|]. by rewrite insert_id. }
  unfold transport.NewChannelPool. rewrite !(proj2 (Z.ltb_ge _ _)), (proj2 (Z.leb_gt _ _)) by lia.
  cbn [orb]. set (k := Z.to_nat _).
  set (p := transport.mkPool (Some (replicate k idle)) (transport.MaxConn (transport.cl_config cl))).
  assert (clean_pool p) as Hcp.
  { eexists. split; [done|]. unfold len. rewrite length_replicate. simpl. split; [unfold k; lia|].
    split; [done|]. by apply Forall_replicate. }
  exists (transport.set_pool addr p cl), p. split; [|split; [|done]].
  - rewrite (bind_run _ _ _ (inr p) c); [unfold transport.install; by rewrite E|].
    by step (fill_run addr c k [] Hup).
  - split; [done|]. by apply map_Forall_insert_2.
Qed.

Lemma Get_run addr p (c : cluster) :
  clean_pool p → is_Some (nodes c !! addr) →
  ∃ p', transport.Get addr p c = Return (inr (idle, p'), c) ∧ clean_pool p'
    ∧ clean_pool (transport.put idle p').
Proof.
  intros (cs & Hcs & Hlen & Hcap & Hall) Hup. unfold transport.Get. rewrite Hcs.
  assert (∀ q, clean_pool q → clean_pool (transport.put idle q)) as Hput.
  { intros q (qs & Hq & Hql & Hqc & Hqa). unfold transport.put. rewrite Hq.
    destruct (Z.ltb_spec (len qs) (transport.maxCap q)); [|by exists qs].
    exists (qs ++ [idle]). split; [done|]. rewrite len_app. simpl.
    change (len [idle]) with 1. split; [lia|]. split; [done|]. apply Forall_app. by repeat constructor. }
  destruct cs as [|x cs].
  - exists p. assert (clean_pool p) as Hp by by exists [].
    split; [by step (dial_run addr c Hup)|]. split; [done|by apply Hput].
  - apply Forall_cons in Hall as [-> Hall]. eexists. split; [done|].
    assert (clean_pool (transport.mkPool (Some cs) (transport.maxCap p))) as Hp.
    { exists cs. split; [done|]. simpl. split; [|done]. unfold len in *. simpl in Hlen. lia. }
    split; [done|by apply Hput].
Qed.

(** The server reads a request on a connection and answers it. *)
Lemma deliver_run fuel addr bytes req (c c' : cluster) db db' resp o :
  nodes c !! addr = Some db → nodes c' !! addr = Some db' →
  (∀ rest, protocol.Read (MaxValueSize (config db)) protocol.zero_message (bytes ++ rest) IOWait
           = Return (req, None, rest)) →
  sv addr req c = Return (Some resp, c') →
  transport.deliver sv (Datatypes.S (Datatypes.S fuel)) addr bytes (transport.mkConn [] o true) c
  = Return (transport.mkConn [] (o ++ protocol.wire resp) true, c').
Proof.
  intros Hn Hn' Hread Hsv. unfold transport.deliver.
  erewrite bind_run; last first.
  { unfold is_up. by rewrite Hn, bool_decide_eq_true_2. }
  cbn [andb transport.cn_open transport.cn_in transport.cn_out app].
  pose proof (conn_loop_run fuel addr c [bytes] [resp] c' db' [] [] (served_cons _ _ _ _ _ _ _ _ _ _
    Hn Hread Hsv (served_nil _ _)) Hn' (incomplete_nil _)) as Hloop.
  cbn [length Nat.add concat map app] in Hloop. rewrite !app_nil_r in Hloop.
  by step Hloop.
Qed.

Lemma no_fault (c : cluster) : net c = [] → next_fault c = Return (Delivered, c).
Proof. unfold next_fault. by intros ->. Qed.

(** A request on a connection that has the bytes [o] to read already. *)
Lemma request_run fuel limit addr op x x' name key value (c c' : cluster) cl cl1 p p1 o db db' max
    resp r err rest :
  net c = [] → transport.getPool addr cl c = Return (inr (cl1, p), c) →
  transport.Get addr p c = Return (inr (transport.mkConn [] o true, p1), c) →
  nodes c !! addr = Some db → nodes c' !! addr = Some db' →
  fits (MaxValueSize (config db)) name key value → 0 ≤ op < 2 ^ 8 →
  protocol.reads_extra (protocol.write_header (outgoing op x name key value))
    (protocol.xbytes (outgoing op x name key value)) None x' →
  sv addr (incoming op x x' name key value) c = Return (Some resp, c') →
  limit c' = Return (max, c') →
  protocol.Read max protocol.zero_message (o ++ protocol.wire resp) IOWait = Return (r, err, rest) →
  err ≠ Some IOWait →
  transport.RequestTo sv (Datatypes.S (Datatypes.S fuel)) limit addr op (request x name key value) cl c
  = Return (transport.set_pool addr (transport.put (transport.mkConn [] rest true) p1) cl1,
            match err with Some err => inl err | None => inr r end, c').
Proof.
  intros Hnet Hget Hg Hn Hn' Hfit Hop Hx Hsv Hlim Hread Herr. unfold transport.RequestTo. step Hget. step Hg.
  step (no_fault c Hnet). cbn beta iota.
  change (protocol.wire (addressed op (request x name key value)))
    with (protocol.wire (outgoing op x name key value)).
  step (deliver_run fuel addr _ _ c c' db db' resp o
    Hn Hn' (fun rest => read_outgoing_rest _ _ _ _ _ _ _ rest IOWait Hfit Hop Hx) Hsv).
  step Hlim. cbn [transport.cn_out transport.cn_open transport.cn_in]. calc Hread.
  cbn beta iota zeta. by rewrite bool_decide_eq_false_2.
Qed.

(** ** Theorems *)

(** C17: a connection carries its requests in order: the server answers the messages that
    have arrived completely, if it can read them and knows their operations, one after the
    other, in the order they were sent, each in the state the previous one has left, and
    then waits with the beginning of the next message, however the stream was cut. *)
Theorem connection_answers_in_order fuel n c ws resps c' db m k :
  served n c ws resps c' → nodes c' !! n = Some db →
  protocol.sizes_ok (MaxValueSize (config db)) m → protocol.valid_magic (protocol.Hdr m) →
  (k < length (protocol.wire m))%nat → (length ws < fuel)%nat →
  transport.conn_loop sv fuel n (concat ws ++ take k (protocol.wire m)) [] c
  = Return (take k (protocol.wire m), concat (map protocol.wire resps), true, c').
Proof.
  intros Hs Hn Hsz Hm Hk Hf. replace fuel with (length ws + Datatypes.S (fuel - length ws - 1))%nat by lia.
  by apply (conn_loop_run _ n c ws resps c' db _ [] Hs Hn), incomplete_prefix.
Qed.

(** C16: pooling the connections is invisible as long as the pools are clean: when every
    pooled connection is open with nothing left to read, the node is up, the network does not
    fail, the request fits the node and the response the client, a request on a pooled
    connection gets the response that a request on a fresh connection gets, with the same
    effect on the cluster, and leaves the pools clean, within their capacity. *)
Theorem pooled_request_is_fresh fuel limit addr op x x' name key value (c c' : cluster) cl db db' max resp :
  clean cl → net c = [] → nodes c !! addr = Some db → nodes c' !! addr = Some db' →
  fits (MaxValueSize (config db)) name key value → 0 ≤ op < 2 ^ 8 →
  protocol.reads_extra (protocol.write_header (outgoing op x name key value))
    (protocol.xbytes (outgoing op x name key value)) None x' →
  sv addr (incoming op x x' name key value) c = Return (Some resp, c') →
  limit c' = Return (max, c') → response_ok max resp →
  ∃ cl', transport.RequestTo sv (Datatypes.S (Datatypes.S fuel)) limit addr op
        (request x name key value) cl c = Return (cl', inr (protocol.written resp), c')
    ∧ clean cl'
    ∧ RequestTo sv limit addr op (request x name key value) c
      = Return (inr (protocol.written resp), c').
Proof.
  intros Hcl Hnet Hn Hn' Hfit Hop Hx Hsv Hlim Hresp.
  assert (is_Some (nodes c !! addr)) as Hup by by rewrite Hn.
  destruct (getPool_run addr cl c Hcl Hup) as (cl1 & p & Hget & Hcl1 & Hp & _).
  destruct (Get_run addr p c Hp Hup) as (p1 & Hg & Hp1 & Hput).
  eexists. split; [|split; [|by eapply RequestTo_run]].
  - eapply (request_run _ _ _ _ _ _ _ _ _ _ _ _ _ _ _ [] _ _ max resp (protocol.written resp) None []); try done.
    rewrite <-(app_nil_r ([] ++ _)). by apply read_response_rest.
  - destruct Hcl1 as [Hcaps Hpools]. split; [done|]. by apply map_Forall_insert_2.
Qed.

(** A connection that the server has closed, as when its process has been restarted, goes
    back to the pool: the request fails although the node is up and a fresh connection gets
    the response, and the dead connection waits for the next request. *)
Theorem dead_connection_stays_in_the_pool fuel limit addr op x x' name key value (c c' : cluster) cl p cs
    db db' max max' resp :
  let dead := transport.mkConn [] [] false in
  net c = [] → nodes c !! addr = Some db → nodes c' !! addr = Some db' →
  transport.pools cl !! addr = Some p → transport.conns p = Some (dead :: cs) →
  len (dead :: cs) ≤ transport.maxCap p →
  fits (MaxValueSize (config db)) name key value → 0 ≤ op < 2 ^ 8 →
  protocol.reads_extra (protocol.write_header (outgoing op x name key value))
    (protocol.xbytes (outgoing op x name key value)) None x' →
  sv addr (incoming op x x' name key value) c = Return (Some resp, c') →
  limit c = Return (max, c) → limit c' = Return (max', c') → response_ok max' resp →
  let p' := transport.mkPool (Some (cs ++ [dead])) (transport.maxCap p) in
  transport.RequestTo sv fuel limit addr op (request x name key value) cl c
  = Return (transport.set_pool addr p' cl, inl protocol.IOEOF, c)
  ∧ RequestTo sv limit addr op (request x name key value) c
    = Return (inr (protocol.written resp), c').
Proof.
  intros dead Hnet Hn Hn' Hp Hcs Hcap Hfit Hop Hx Hsv Hlim Hlim' Hresp p'. split; [|by eapply RequestTo_run].
  unfold transport.RequestTo, transport.getPool. rewrite Hp. step (ret_run (inr (cl, p) : perror + _) c).
  unfold transport.Get. rewrite Hcs.
  step (ret_run (inr (dead, transport.mkPool (Some cs) (transport.maxCap p)) : perror + _) c).
  step (no_fault c Hnet). cbn beta iota.
  rewrite (bind_run _ _ _ dead c); last first.
  { unfold transport.deliver. rewrite (bind_run _ _ _ (bool_decide (is_Some (nodes c !! addr))) c eq_refl).
    by rewrite andb_false_r. }
  step Hlim. cbn [transport.cn_out transport.cn_open transport.cn_in dead].
  calc (eq_refl : protocol.Read max protocol.zero_message [] protocol.IOEOF
    = Return (protocol.zero_message, Some protocol.IOEOF, [])).
  cbn beta iota zeta. rewrite bool_decide_eq_false_2 by done.
  unfold transport.put. cbn [transport.conns transport.maxCap].
  unfold len in Hcap |- *. cbn [length] in Hcap. rewrite (proj2 (Z.ltb_lt _ _)) by lia. done.
Qed.

(** A response that is too big poisons the connection: the client refuses it before
    it has read its value and puts the connection back into the pool; the next request
    takes the bytes of the value for its response.  Who stored the value has chosen what
    the next request of the client is answered. *)
Theorem big_value_forges_the_next_response fuel limit addr cc max (c c1 c2 : cluster) db db1 db2
    op1 x1 x1' name1 key1 value1 req1 big pad op2 x2 x2' name2 key2 value2 resp2 forged :
  transport.MinConn cc = 0 → 0 < transport.MaxConn cc → net c = [] → net c1 = [] →
  nodes c !! addr = Some db → nodes c1 !! addr = Some db1 → nodes c2 !! addr = Some db2 →
  fits (MaxValueSize (config db)) name1 key1 value1 → 0 ≤ op1 < 2 ^ 8 →
  protocol.reads_extra (protocol.write_header (outgoing op1 x1 name1 key1 value1))
    (protocol.xbytes (outgoing op1 x1 name1 key1 value1)) None x1' →
  fits (MaxValueSize (config db1)) name2 key2 value2 → 0 ≤ op2 < 2 ^ 8 →
  protocol.reads_extra (protocol.write_header (outgoing op2 x2 name2 key2 value2))
    (protocol.xbytes (outgoing op2 x2 name2 key2 value2)) None x2' →
  big = protocol.wire forged ++ pad → max < len big → response_ok max forged →
  protocol.sizes_ok (len big) (with_value big (protocol.Success req1)) →
  sv addr (incoming op1 x1 x1' name1 key1 value1) c
  = Return (Some (with_value big (protocol.Success req1)), c1) →
  sv addr (incoming op2 x2 x2' name2 key2 value2) c1 = Return (Some resp2, c2) →
  limit c1 = Return (max, c1) → limit c2 = Return (max, c2) →
  let ask := transport.RequestTo sv (Datatypes.S (Datatypes.S fuel)) limit addr in
  ∃ cl1 cl2, ask op1 (request x1 name1 key1 value1) (transport.mkClient cc ∅) c
      = Return (cl1, inl protocol.ErrValueTooBig, c1)
    ∧ ask op2 (request x2 name2 key2 value2) cl1 c1 = Return (cl2, inr (protocol.written forged), c2).
Proof.
  intros Hmin Hmax Hnet Hnet1 Hn Hn1 Hn2 Hf1 Ho1 Hx1 Hf2 Ho2 Hx2 Hbig Hlt Hforged Hsz Hsv1 Hsv2 Hl1 Hl2 ask.
  assert (is_Some (nodes c !! addr)) as Hup by by rewrite Hn.
  set (cap := transport.MaxConn cc). set (p0 := transport.mkPool (Some []) cap).
  assert (transport.getPool addr (transport.mkClient cc ∅) c
    = Return (inr (transport.set_pool addr p0 (transport.mkClient cc ∅), p0), c)) as Hget.
  { unfold transport.getPool. cbn [transport.pools transport.cl_config]. rewrite lookup_empty.
    unfold transport.NewChannelPool. rewrite Hmin.
    rewrite !(proj2 (Z.ltb_ge _ _)), (proj2 (Z.leb_gt _ _)) by lia. done. }
  eexists _, _. split.
  - eapply (request_run _ _ _ _ _ _ _ _ _ _ _ _ _ p0 p0 [] _ _ max _ _ (Some protocol.ErrValueTooBig));
      try done.
    { unfold transport.Get. cbn [transport.conns p0]. by step (dial_run addr c Hup). }
    { rewrite <-(app_nil_r ([] ++ _)). by apply protocol.Read_value_too_big; [|right|]. }
  - cbn [protocol.xbytes protocol.Success protocol.Extra protocol.DMap protocol.Key protocol.Value
      with_value from_option app]. rewrite app_nil_r, Hbig.
    unfold transport.put. cbn [transport.conns transport.maxCap p0].
    rewrite (proj2 (Z.ltb_lt _ _)) by done. cbn [app].
    eapply (request_run _ _ _ _ _ _ _ _ _ _ _ _ _ _ _ (protocol.wire forged ++ pad)
      _ _ max _ (protocol.written forged) None); try done.
    { unfold transport.getPool. cbn [transport.set_pool transport.pools]. by rewrite lookup_insert_eq. }
    { done. }
    { rewrite <-app_assoc. by apply read_response_rest. }
Qed.
End tspec.
End tspec.
