(* ===== verification/MapSpec.v ===== *)
(** The cluster refines one map.

    The abstract specification of the distributed map is a single finite map from a name
    and a key to a value with its expiry, the set of the keys that are locked, and a clock
    per node.  On a settled cluster, for keys whose hashes are distinct and values that
    every storage can take, a program that calls [Put], [Get], [Delete],
    [LockWithTimeout], [Unlock], [GetPut], [Incr] and [Decr] on any of the nodes gets
    exactly the answers of the abstract map, while the clocks of the nodes advance, the
    timers of the locks that are held fire and the storages merge their tables. *)

From S2P Require Export Lifecycle AtomicSpec.

Module mapspec.
Export lifecycle atomic.

(** ** The abstract map *)

(** A binding: its value, the time in milliseconds at which it expires (0: never), and
    whether it has replaced an older binding. *)
Record entry := mkEntry { e_value : list byte; e_ttl : Z; e_over : bool }.

Record amap := mkAmap {
  am_map : gmap (list byte * list byte) entry;
  am_clock : gmap (list byte) Z;
  am_locks : gset (list byte * list byte)
}.

(** The calls of a program, with the node they are made on. *)
Inductive op :=
| OPut (n name key value : list byte) (timeout : Z)
| OGet (n name key : list byte)
| ODelete (n name key : list byte)
| OLock (n name key : list byte) (timeout : Z)
| OUnlock (n name key : list byte)
| OGetPut (n name key value : list byte)
| OIncrDecr (n name key : list byte) (opr : oper) (delta : Z)
| OTick (n : list byte) (now : Z)
(* the goroutines in the background: the timer of a lock fires; the goroutine that merges
   the tables of a map, on a node and in a partition, runs a chunk *)
| OLockTimeout (name key : list byte)
| OMerge (n : list byte) (bk : bool) (i : Z) (name : list byte).

Inductive reply :=
| RDone (err : option oerror)
| RValue (r : oerror + list byte)
| ROld (r : oerror + option (list byte))
| RNumber (r : oerror + Z).

(** The time at which a binding with a timeout expires, in milliseconds. *)
Definition deadline (now timeout : Z) : Z :=
  if timeout =? 0 then 0 else Z.quot (to_signed 64 (timeout + now)) 1000000.
Definition expired (now ttl : Z) : bool :=
  if ttl =? 0 then false else ttl <=? Z.quot now 1000000.

Section spec.
Context {V : Type} `{!Serializer V} `{!SerializerLaws V}.
(** [at_node name key] is the node whose clock decides. *)
Context (at_node : list byte → list byte → list byte).

Definition now_at (a : amap) (name key : list byte) : Z := default 0 (am_clock a !! at_node name key).

Definition value_at (a : amap) (name key : list byte) : option (list byte) :=
  match am_map a !! (name, key) with
  | Some e => if expired (now_at a name key) (e_ttl e) then None else Some (e_value e)
  | None => None
  end.

Definition put_at (a : amap) (name key value : list byte) (timeout : Z) : amap :=
  let e := mkEntry value (deadline (now_at a name key) timeout)
             (bool_decide (is_Some (am_map a !! (name, key)))) in
  mkAmap (<[(name, key) := e]> (am_map a)) (am_clock a) (am_locks a).

(** The integer a counter starts from, what it becomes, and the bytes that are stored. *)
Definition number_of (raw : option (list byte)) : oerror + Z :=
  match raw with
  | None => inr 0
  | Some raw =>
      match sUnmarshal (V := V) raw with
      | inl err => inl err
      | inr v => match v_kind v with
                 | KInt i => inr i
                 | KOther t => inl (EText (text "mismatched type: " ++ t))
                 | KNil | KEmptyStruct => inl (EText (text "mismatched type: "))
                 end
      end
  end.

Definition counted (opr : oper) (delta : Z) (raw : option (list byte)) : oerror + Z * list byte :=
  match number_of raw with
  | inl err => inl err
  | inr cur =>
      if opr is other_oper then inl (EText (text "invalid operation")) else
      match sMarshal (v_int (V := V) (counter opr cur delta)) with
      | inl err => inl err
      | inr data => inr (counter opr cur delta, data)
      end
  end.

Definition spec (o : op) (a : amap) : amap * reply :=
  match o with
  | OPut _ name key value timeout => (put_at a name key value timeout, RDone None)
  | OGet _ name key => (a, RValue (get_result (value_at a name key)))
  | ODelete _ name key =>
      (mkAmap (delete (name, key) (am_map a)) (am_clock a) (am_locks a), RDone None)
  | OLock _ name key _ =>
      (mkAmap (am_map a) (am_clock a) ({[(name, key)]} ∪ am_locks a), RDone None)
  | OUnlock _ name key =>
      (mkAmap (am_map a) (am_clock a) (am_locks a ∖ {[(name, key)]}),
       RDone (if decide ((name, key) ∈ am_locks a) then None else Some OErrNoSuchLock))
  | OGetPut _ name key value => (put_at a name key value 0, ROld (inr (value_at a name key)))
  | OIncrDecr _ name key opr delta =>
      match counted opr delta (value_at a name key) with
      | inl err => (a, RNumber (inl err))
      | inr (z, data) => (put_at a name key data 0, RNumber (inr z))
      end
  | OTick n t => (mkAmap (am_map a) (<[n := t]> (am_clock a)) (am_locks a), RDone None)
  | OLockTimeout name key =>
      (mkAmap (am_map a) (am_clock a) (am_locks a ∖ {[(name, key)]}), RDone None)
  | OMerge _ _ _ _ => (a, RDone None)
  end.

Fixpoint spec_run (os : list op) (a : amap) : amap * list reply :=
  match os with
  | [] => (a, [])
  | o :: os =>
      let '(a, r) := spec o a in
      let '(a, rs) := spec_run os a in (a, r :: rs)
  end.
End spec.

(** The binding has not replaced another one. *)
Definition once (e : option entry) : Prop :=
  match e with Some e => e_over e = false | None => True end.

Section mapspec.
Context {S N : Type} `{!KV S} `{!KVLaws S} `{!Snap S N} `{!Env}.
Context `{!BirthdateSort} `{!Codec NodeMetadata} `{!RangeOrder (list byte)} `{!Codec (gmap Z route)}.
Context `{!Codec dmapbox}.
Context {V : Type} `{!Serializer V} `{!SerializerLaws V}.
Abbreviation M := (olric.M S N).
Abbreviation Olric := (olric.Olric S N).
Abbreviation cluster := (olric.cluster S N).
Abbreviation serve := (dispatch.serve (S := S) (N := N) (V := V)).
Context (cfg : Config) (owner : Z → host) (bowners : Z → list host).
Abbreviation settled := (cspec.settled cfg owner bowners).
Abbreviation pid := (cspec.pid cfg).
Abbreviation fits := (cspec.fits (MaxValueSize cfg)).

(** ** The goroutines in the background *)

(** The timer of a lock fires: the goroutine is one of those [lockKey] has started, for
    the map of the key on the node [n].  It takes no lock but the one of the locker and runs
    between two calls; the channel plays no part once the timer has fired. *)
Definition is_timer (n : list byte) (a : nat) (key : list byte) (t : task) : bool :=
  match t with
  | TaskLockTimeout n' a' key' _ => bool_decide (n' = n ∧ a' = a ∧ key' = key)
  | _ => false
  end.

Definition timer_fires (n name key : list byte) : M unit :=
  db ← get_node n;
  match ref db false (pid (getHKey name key)) name with
  | Some a =>
      started ← (fun c => Return (existsb (is_timer n a key) (tasks c), c));
      if started : bool then waitLockForTimeout n a key None TimeoutElapsed else block
  | None => block
  end.

(** A chunk of the goroutine that merges the tables of a map, under the lock of its
    storage. *)
Definition merge_runs (n : list byte) (bk : bool) (i : Z) (name : list byte) : M unit :=
  db ← get_node n;
  match ref db bk i name with
  | Some a =>
      d ← get_dm n a;
      s ← lift (kv_merge (dm_str d));
      put_dm n a (mkDmap (dm_mu d) (dm_locker d) (dm_oplog d) s)
  | None => mret tt
  end.

(** ** The calls of the code *)
Definition exec (sv : list byte → Message → M (option Message)) (o : op) : M reply :=
  match o with
  | OPut n name key value timeout => err ← put sv n name key value timeout; mret (RDone err)
  | OGet n name key => r ← get sv n name key; mret (RValue r)
  | ODelete n name key => err ← deleteKey sv n name key; mret (RDone err)
  | OLock n name key timeout => err ← lockWithTimeout sv n name key timeout; mret (RDone err)
  | OUnlock n name key => err ← unlock sv n name key; mret (RDone err)
  | OGetPut n name key value => r ← getPut sv n name key value; mret (ROld r)
  | OIncrDecr n name key opr delta =>
      r ← atomicIncrDecr (V := V) sv n name key opr delta; mret (RNumber r)
  | OTick n now => _ ← updateCurrentUnixNano n now; mret (RDone None)
  | OLockTimeout name key =>
      _ ← timer_fires (Name (owner (pid (getHKey name key)))) name key; mret (RDone None)
  | OMerge n bk i name => _ ← merge_runs n bk i name; mret (RDone None)
  end.

Fixpoint exec_run (sv : list byte → Message → M (option Message)) (os : list op) : M (list reply) :=
  match os with
  | [] => mret []
  | o :: os => r ← exec sv o; rs ← exec_run sv os; mret (r :: rs)
  end.

Definition owner_node (name key : list byte) : list byte := Name (owner (pid (getHKey name key))).
Abbreviation spec := (spec (V := V) owner_node).
Abbreviation spec_run := (spec_run (V := V) owner_node).
Abbreviation value_at := (value_at owner_node).
Abbreviation put_at := (put_at owner_node).

(** ** The keys and the calls that are considered *)
Context (K : list byte → list byte → Prop).

Definition collision_free : Prop :=
  ∀ name k1 k2, K name k1 → K name k2 → getHKey name k1 = getHKey name k2 → k1 = k2.

(** The configuration: synchronous backups, and no backup owners without backups. *)
Record usable : Prop := {
  us_sync : BackupCount cfg = 0 ∨ BackupMode cfg ≠ AsyncBackupMode;
  us_none i : BackupCount cfg = 0 → bowners i = [];
  us_len i : len (bowners i) < 2 ^ 31
}.

(** A call on a key of the program, on a node that is up. *)
Definition callable (a : amap) (n name key : list byte) : Prop :=
  is_Some (am_clock a !! n) ∧ K name key ∧ fits name key [].

Definition storable (name key value : list byte) : Prop :=
  fits name key value ∧ ∀ ttl, in_int64 ttl → kv_small (mkVData key ttl value).

Definition legal (a : amap) (o : op) : Prop :=
  match o with
  | OPut n name key value timeout => callable a n name key ∧ in_int64 timeout ∧ storable name key value
  | OGet n name key => callable a n name key
  | ODelete n name key => callable a n name key ∧ once (am_map a !! (name, key))
  | OLock n name key timeout => callable a n name key ∧ in_int64 timeout ∧ ((name, key) ∉ am_locks a)
  | OUnlock n name key => callable a n name key
  | OGetPut n name key value =>
      callable a n name key ∧ ((name, key) ∉ am_locks a) ∧ storable name key value
      ∧ value_at a name key ≠ Some []
  | OIncrDecr n name key opr delta =>
      let raw := value_at a name key in
      callable a n name key ∧ ((name, key) ∉ am_locks a)
      ∧ (∀ bs v, raw = Some bs → sUnmarshal (V := V) bs = inr v → v_kind v ≠ KNil)
      ∧ ∀ z data, counted (V := V) opr delta raw = inr (z, data) → storable name key data
  | OTick n _ => is_Some (am_clock a !! n)
  | OLockTimeout name key =>
      is_Some (am_clock a !! owner_node name key) ∧ K name key ∧ (name, key) ∈ am_locks a
  | OMerge n bk i name =>
      is_Some (am_clock a !! n)
      ∧ ∀ key, K name key → pid (getHKey name key) = i → once (am_map a !! (name, key))
  end.

Fixpoint legal_run (a : amap) (os : list op) : Prop :=
  match os with
  | [] => True
  | o :: os => legal a o ∧ legal_run (spec o a).1 os
  end.

(** ** The relation between the cluster and the abstract map *)

(** What the nodes hold of a key: the owner its binding, the backups nothing when it has
    none; a binding that replaced no other is stored once. *)
Record holds (c : cluster) (h : Z) (name key : list byte) (e : option entry) : Prop := {
  ho_owner db : nodes c !! Name (owner (pid h)) = Some db →
    view db false (pid h) name !! h = (fun e => mkVData key (e_ttl e) (e_value e)) <$> e
    ∧ (once e → view_single db false (pid h) name h);
  ho_fits e' : e = Some e' → value_fits cfg (e_value e');
  ho_backup b db : b ∈ bowners (pid h) → nodes c !! Name b = Some db →
    (e = None → view db true (pid h) name !! h = None)
    ∧ (once e → view_single db true (pid h) name h)
}.

(** The lock of a key is in the map of its name, in its partition, on the owner, and the
    goroutine of its timer has been started for this map. *)
Record locks_hold (L : gset (list byte * list byte)) (c : cluster) : Prop := {
  lh_quiet i name db : nodes c !! Name (owner i) = Some db →
    ∃ l, locker_at db i name l
      ∧ locker.quiet l (fun key => (name, key) ∈ L ∧ pid (getHKey name key) = i);
  lh_timer name key : (name, key) ∈ L → ∃ a t,
    map_at cfg owner c (getHKey name key) name a
    ∧ TaskLockTimeout (Name (owner (pid (getHKey name key)))) a key t ∈ tasks c
}.

Record refines (a : amap) (c : cluster) : Prop := {
  rf_settled : settled c;
  rf_count n db : nodes c !! n = Some db → 0 ≤ backup_count db;
  rf_clock n : currentUnixNano <$> nodes c !! n = am_clock a !! n;
  rf_holds name key : K name key → holds c (getHKey name key) name key (am_map a !! (name, key));
  rf_locks : locks_hold (am_locks a) c
}.

(** ** What an operation on a key leaves alone

    [P] are the bindings, by partition, name and hash, that have not been touched. *)
Definition touches (P : Z → list byte → Z → Prop) (c c' : cluster) : Prop :=
  ∀ n db db', nodes c !! n = Some db → nodes c' !! n = Some db' →
  ∀ bk i name h, P i name h →
    view db' bk i name !! h = view db bk i name !! h
    ∧ (view_single db bk i name h → view_single db' bk i name h).

Lemma touches_same_views P c c' : same_views c c' → touches P c c'.
Proof.
  intros Hv n db db' Hn Hn' bk i name h _. specialize (Hv n db db' Hn Hn').
  rewrite (und_view _ _ Hv). split; [done|apply (und_single _ _ Hv)].
Qed.

Definition other_than (h : Z) (name : list byte) (i : Z) (name' : list byte) (h' : Z) : Prop :=
  (i, name', h') ≠ (pid h, name, h).

Lemma stored_other (db db' : Olric) bk h name (f : gmap Z VData → gmap Z VData) bk' i name' h' :
  stored None db db' bk (pid h) name h (f (view db bk (pid h) name)) →
  (∀ m k, k ≠ h → f m !! k = m !! k) → other_than h name i name' h' →
  view db' bk' i name' !! h' = view db bk' i name' !! h'
  ∧ (view_single db bk' i name' h' → view_single db' bk' i name' h').
Proof.
  intros Hst Hf Hne. destruct (decide ((bk', i, name') = (bk, pid h, name))) as [E|E].
  - simplify_eq. assert (h' ≠ h) as Hh by (intros ->; by apply Hne). split.
    + by rewrite (stored_view _ _ _ _ _ _ _ _ Hst), Hf.
    + intros Hs. apply (stored_single _ _ _ _ _ _ _ _ Hst); [done|by left].
  - rewrite (stored_view_others _ _ _ _ _ _ _ _ _ _ _ Hst E). split; [done|].
    destruct (stored_others _ _ _ _ _ _ _ _ Hst _ _ _ E) as [Hr Hh]. unfold view_single.
    rewrite Hr. destruct (ref db bk' i name') as [b|]; [|done]. by rewrite Hh.
Qed.

Lemma touches_changed bkb c c' h name bs f g :
  changed cfg c c' (Name (owner (pid h))) false h name f →
  Forall (fun b => changed cfg c c' (Name b) bkb h name g) bs →
  (∀ m, m ≠ Name (owner (pid h)) → m ∉ map Name bs → nodes c' !! m = nodes c !! m) →
  (∀ m k, k ≠ h → f m !! k = m !! k) → (∀ m k, k ≠ h → g m !! k = m !! k) →
  touches (other_than h name) c c'.
Proof.
  intros Ho Hbs Hoth Hf Hg n db db' Hn Hn' bk i name' h' Hne.
  destruct (decide (n = Name (owner (pid h)))) as [->|Hno].
  { destruct Ho as (d1 & d2 & Hd1 & Hd2 & Hst). simplify_eq. by eapply stored_other. }
  destruct (decide (n ∈ map Name bs)) as [Hin|Hnin].
  - apply list_elem_of_fmap_1 in Hin as (b & -> & Hb). rewrite Forall_forall in Hbs.
    destruct (Hbs b Hb) as (d1 & d2 & Hd1 & Hd2 & Hst). simplify_eq. by eapply stored_other.
  - rewrite Hoth in Hn' by done. by simplify_eq.
Qed.

Lemma other_key name key name' key' :
  collision_free → K name key → K name' key' → (name', key') ≠ (name, key) →
  other_than (getHKey name key) name (pid (getHKey name' key')) name' (getHKey name' key').
Proof.
  intros Hcf Hk Hk' Hne E. simplify_eq. apply Hne. f_equal. by eapply Hcf.
Qed.

(** The relation is kept for every key that is not touched. *)
Lemma holds_frame P c c' h name key e :
  shifts c c' → touches P c c' → P (pid h) name h → holds c h name key e → holds c' h name key e.
Proof.
  intros [_ Hev] Ht HP [Ho Hf Hb].
  assert (∀ n db', nodes c' !! n = Some db' → ∃ db, nodes c !! n = Some db) as Hback.
  { intros n db' Hn'. specialize (Hev n). rewrite Hn' in Hev. destruct (nodes c !! n); [eauto|done]. }
  split; [|done|].
  - intros db' Hn'. destruct (Hback _ _ Hn') as [db Hn]. destruct (Ho db Hn) as [Hv Hs].
    destruct (Ht _ _ _ Hn Hn' false _ _ _ HP) as [Hv' Hs']. rewrite Hv'. eauto.
  - intros b db' Hin Hn'. destruct (Hback _ _ Hn') as [db Hn]. destruct (Hb b db Hin Hn) as [Hv Hs].
    destruct (Ht _ _ _ Hn Hn' true _ _ _ HP) as [Hv' Hs']. rewrite Hv'. eauto.
Qed.

Lemma locks_hold_evolves L c c' :
  settled c → evolves c c' → tasks c' = tasks c → locks_hold L c → locks_hold L c'.
Proof.
  intros Hc He Ht [HL HT]. split.
  - intros i name db' Hn'. destruct He as [_ Hev]. specialize (Hev (Name (owner i))). rewrite Hn' in Hev.
    destruct (nodes c !! Name (owner i)) as [db|] eqn:Hn; [|done]. destruct Hev as (_ & _ & Hk).
    destruct (HL i name db Hn) as (l & Hl & Hq). exists l. split; [by eapply locker_at_keeps|done].
  - intros name key Hin. destruct (HT name key Hin) as (a & t & (db & Hn & Hr) & Hx).
    exists a, t. rewrite Ht. split; [|done].
    destruct (evolves_node _ _ _ _ He Hn) as (db' & Hn' & _ & _ & Hk). exists db'. split; [done|].
    destruct (st_node _ _ _ _ Hc _ _ Hn) as (Hwf & _). destruct (wf_ref _ _ Hwf _ _ _ _ Hr) as (d & Hd & _).
    by apply (kl_old _ _ Hk _ _ _ _ d).
Qed.

Lemma refines_update a c c' name key e L :
  collision_free → refines a c → K name key → shifts c c' →
  touches (other_than (getHKey name key) name) c c' → holds c' (getHKey name key) name key e →
  locks_hold L c' →
  refines (mkAmap (partial_alter (fun _ => e) (name, key) (am_map a)) (am_clock a) L) c'.
Proof.
  intros Hcf [Hc Hcnt Hclk Hh _] Hk Hsh Ht He HL. split; [..|done].
  - by eapply settled_shifts.
  - intros n db' Hn'. destruct Hsh as [_ Hev]. specialize (Hev n). rewrite Hn' in Hev.
    destruct (nodes c !! n) as [db|] eqn:Hn; [|done]. destruct Hev as [[] _].
    specialize (Hcnt n db Hn). unfold backup_count, numMembers in *. congruence.
  - intros n. simpl. rewrite <-Hclk. destruct Hsh as [_ Hev]. specialize (Hev n).
    destruct (nodes c !! n), (nodes c' !! n); try done. simpl. f_equal. apply Hev.
  - intros name' key' Hk'. simpl. destruct (decide ((name', key') = (name, key))) as [E|E].
    + simplify_eq. by rewrite lookup_partial_alter_eq.
    + rewrite lookup_partial_alter_ne by done.
      eapply holds_frame; [done|done|by apply other_key|by apply Hh].
Qed.

(** A call that changes no binding, but perhaps the locks. *)
Lemma refines_views a c c' name key L :
  collision_free → refines a c → K name key → shifts c c' → same_views c c' → locks_hold L c' →
  refines (mkAmap (am_map a) (am_clock a) L) c'.
Proof.
  intros Hcf Hrf Hk Hsh Hsv HL.
  replace (am_map a) with (partial_alter (fun _ => am_map a !! (name, key)) (name, key) (am_map a)).
  - eapply refines_update; try done; [by apply touches_same_views|].
    eapply (holds_frame (fun _ _ _ => True)); [done|by apply touches_same_views|done|by apply Hrf].
  - apply map_eq. intros k. destruct (decide (k = (name, key))) as [->|Hne];
      [by rewrite lookup_partial_alter_eq|by rewrite lookup_partial_alter_ne].
Qed.

(** ** Each call is simulated *)
Lemma owner_up a c n name key :
  refines a c → is_Some (am_clock a !! n) →
  ∃ dbn dbo, nodes c !! n = Some dbn ∧ nodes c !! owner_node name key = Some dbo
    ∧ now_at owner_node a name key = currentUnixNano dbo.
Proof.
  intros [Hc _ Hclk _ _] [t Ht]. rewrite <-Hclk in Ht.
  destruct (nodes c !! n) as [dbn|] eqn:Hn; [|done].
  destruct (st_up _ _ _ _ Hc (pid (getHKey name key)) (pid_range _ _ _ _ _ _ _ Hc Hn)) as (dbo & Ho & _).
  exists dbn, dbo. split; [done|]. split; [done|].
  unfold now_at. rewrite <-Hclk. unfold owner_node. by rewrite Ho.
Qed.

(** A backup owner after an operation: it has carried it out, or it is unchanged. *)
Lemma backup_after (c c' : cluster) h name bs g b (db' : Olric) :
  settled c → 0 ≤ pid h < PartitionCount cfg → b ∈ bowners (pid h) → nodes c' !! Name b = Some db' →
  Forall (fun b => changed cfg c c' (Name b) true h name g) bs →
  (∀ m, m ≠ Name (owner (pid h)) → m ∉ map Name bs → nodes c' !! m = nodes c !! m) →
  (∃ db : Olric, nodes c !! Name b = Some db
    ∧ stored None db db' true (pid h) name h (g (view db true (pid h) name)))
  ∨ ((b ∉ bs) ∧ nodes c !! Name b = Some db').
Proof.
  intros Hc Hpid Hb Hn' Hbs Hoth. destruct (decide (Name b ∈ map Name bs)) as [Hin|Hnin].
  - left. apply list_elem_of_fmap_1 in Hin as (b' & E & Hb'). rewrite E in *.
    rewrite Forall_forall in Hbs. destruct (Hbs b' Hb') as (d1 & d2 & Hd1 & Hd2 & Hst).
    simplify_eq. eauto.
  - right. split; [intros Hb'; apply Hnin; by apply list_elem_of_fmap_2|].
    rewrite <-Hoth; [done| |done]. intros E. apply (st_apart _ _ _ _ Hc (pid h) Hpid).
    rewrite <-E. by apply list_elem_of_fmap_2.
Qed.

Lemma targets_subset (db : Olric) h b : b ∈ put_targets cfg bowners db h → b ∈ bowners (pid h).
Proof.
  unfold put_targets, targets. repeat case_match; [by intros ?%not_elem_of_nil| |done].
  intros [i Hi]%list_elem_of_lookup. rewrite lookup_drop in Hi. by eapply list_elem_of_lookup_2.
Qed.

Lemma put_is_ready a c name key value timeout dbn n dbo :
  usable → refines a c → nodes c !! n = Some dbn → nodes c !! owner_node name key = Some dbo →
  storable name key value →
  put_ready cfg bowners c dbo (getHKey name key) name key value timeout.
Proof.
  intros [Hsync _ Hlen] [Hc Hcnt _ _ _] Hn Ho [Hfit Hsmall]. split; try done.
  - by eapply Hcnt.
  - apply Forall_forall. intros b Hb%targets_subset.
    destruct (st_bup _ _ _ _ Hc _ b (pid_range _ _ _ _ _ _ _ Hc Hn) Hb) as [dbb Hdbb].
    destruct (st_node _ _ _ _ Hc _ _ Hdbb) as (Hwf & Hcfg & _).
    exists dbb. do 3 (split; [done|]). eapply view_room_small; [done|]. by apply Hsmall.
  - destruct (st_node _ _ _ _ Hc _ _ Ho) as (Hwf & _). eapply view_room_small; [done|].
    apply Hsmall. case_match; [done|]. unfold getTTL. apply in_int64_quot; [|done]. apply to_signed_range.
Qed.

Lemma put_simulated fuel a c n name key value timeout :
  collision_free → usable → refines a c → callable a n name key → in_int64 timeout →
  storable name key value →
  ∃ c', put (serve (Datatypes.S (Datatypes.S fuel))) n name key value timeout c = Return (None, c')
    ∧ refines (put_at a name key value timeout) c'.
Proof.
  intros Hcf Hus Hrf (Hclk & Hk & _) Ht Hst. pose proof Hst as [Hfit _].
  destruct (owner_up a c n name key Hrf Hclk) as (dbn & dbo & Hn & Ho & Hco).
  pose proof (rf_settled _ _ Hrf) as Hc. pose proof (pid_range _ _ _ _ _ _ (getHKey name key) Hc Hn) as Hpid.
  destruct (cluster_put_spec cfg owner bowners fuel n dbn dbo c name key value timeout Hc Hn Ho Ht
    (put_is_ready a c name key value timeout dbn n dbo Hus Hrf Hn Ho Hst))
    as (c' & Hrun & [Hev Htsk Hown Hbs Hoth]).
  exists c'. split; [done|]. set (h := getHKey name key) in *.
  assert (touches (other_than h name) c c') as Htch.
  { eapply touches_changed; [done..| |]; intros m k Hne; by apply lookup_insert_ne. }
  unfold mapspec.put_at. rewrite Hco.
  eapply (refines_update a c c' name key (Some _)); try done;
    [by apply evolves_shifts| |by eapply locks_hold_evolves; [..|apply Hrf]].
  destruct (rf_holds _ _ Hrf name key Hk) as [Hho _ Hhb]. fold h in Hho, Hhb.
  set (old := am_map a !! (name, key)) in *. fold h.
  assert (bool_decide (is_Some old) = false → old = None) as Hnone.
  { intros Hb%bool_decide_eq_false. by apply eq_None_not_Some. }
  split.
  - intros db Hdb. destruct Hown as (d1 & d2 & Hd1 & Hd2 & Hs'). simplify_eq.
    destruct (Hho _ Hd1) as [Hv Hs].
    rewrite (stored_view _ _ _ _ _ _ _ _ Hs'), lookup_insert_eq. split.
    + simpl. unfold put_value, deadline, getTTL. done.
    + simpl. intros Hnew. pose proof (Hnone Hnew) as E.
      rewrite E in Hv, Hs. apply (stored_single _ _ _ _ _ _ _ _ Hs'); [by apply Hs|by right].
  - intros e [= <-]. simpl. destruct Hfit as (_ & _ & Hv1 & Hv2). split; [done|]. len_lia.
  - intros b db Hb Hdb. split; [done|]. simpl. intros Hnew.
    pose proof (Hnone Hnew) as E. rewrite E in Hhb.
    destruct (backup_after c c' h name _ _ b db Hc Hpid Hb Hdb Hbs Hoth)
      as [(d & Hd & Hs')|[_ Hd]]; destruct (Hhb b _ Hb Hd) as [Hv Hs]; [|by apply Hs].
    apply (stored_single _ _ _ _ _ _ _ _ Hs'); [by apply Hs|right; by apply Hv].
Qed.

Lemma delete_simulated fuel a c n name key :
  collision_free → usable → refines a c → callable a n name key → once (am_map a !! (name, key)) →
  ∃ c', deleteKey (serve (Datatypes.S (Datatypes.S fuel))) n name key c = Return (None, c')
    ∧ refines (mkAmap (delete (name, key) (am_map a)) (am_clock a) (am_locks a)) c'.
Proof.
  intros Hcf Hus Hrf (Hclk & Hk & Hfit) Honce.
  destruct (owner_up a c n name key Hrf Hclk) as (dbn & dbo & Hn & Ho & _).
  pose proof (rf_settled _ _ Hrf) as Hc. pose proof (pid_range _ _ _ _ _ _ (getHKey name key) Hc Hn) as Hpid.
  destruct (rf_holds _ _ Hrf name key Hk) as [Hho _ Hhb]. set (h := getHKey name key) in *.
  assert (∀ b, b ∈ delete_targets cfg bowners h → b ∈ bowners (pid h)) as Hsub.
  { unfold delete_targets. case_match; [by intros b ?%not_elem_of_nil|done]. }
  destruct (cluster_delete_spec cfg owner bowners fuel n dbn dbo c name key Hc Hn Ho)
    as (c' & Hrun & [Hev Htsk Hown Hbs Hoth]).
  { split; [done|by apply Hho|]. apply Forall_forall. intros b Hb%Hsub.
    destruct (st_bup _ _ _ _ Hc _ b Hpid Hb) as [dbb Hdbb].
    destruct (st_node _ _ _ _ Hc _ _ Hdbb) as (Hwf & Hcfg & _).
    exists dbb. do 3 (split; [done|]). by eapply (Hhb b dbb). }
  fold h in Hown, Hbs, Hoth. exists c'. split; [done|].
  eapply (refines_update a c c' name key None); try done;
    [by apply evolves_shifts| | |by eapply locks_hold_evolves; [..|apply Hrf]].
  { eapply touches_changed; [done..| |]; intros m k Hne; by apply lookup_delete_ne. }
  assert (∀ (db db' : Olric) bk, stored None db db' bk (pid h) name h (delete h (view db bk (pid h) name)) →
    view db' bk (pid h) name !! h = None ∧ view_single db' bk (pid h) name h) as Hgone.
  { intros db db' bk Hst. rewrite (stored_view _ _ _ _ _ _ _ _ Hst), lookup_delete_eq.
    split; [done|]. apply view_single_absent.
    by rewrite (stored_view _ _ _ _ _ _ _ _ Hst), lookup_delete_eq. }
  fold h. split; [|done|].
  - intros db Hdb. destruct Hown as (d1 & d2 & Hd1 & Hd2 & Hst). simplify_eq.
    by destruct (Hgone _ _ _ Hst) as [-> ?].
  - intros b db Hb Hdb.
    destruct (backup_after c c' h name _ _ b db Hc Hpid Hb Hdb Hbs Hoth) as [(d & Hd & Hst)|[Hnin _]].
    + by destruct (Hgone _ _ _ Hst).
    + destruct Hnin. unfold delete_targets. case_match eqn:E; [|done].
      rewrite (us_none Hus) in Hb by lia. by apply not_elem_of_nil in Hb.
Qed.

Lemma get_simulated fuel a c n name key :
  collision_free → refines a c → callable a n name key →
  ∃ c', get (serve (Datatypes.S (Datatypes.S fuel))) n name key c
      = Return (get_result (value_at a name key), c') ∧ refines a c'.
Proof.
  intros Hcf Hrf (Hclk & Hk & Hfit).
  destruct (owner_up a c n name key Hrf Hclk) as (dbn & dbo & Hn & Ho & Hco).
  pose proof (rf_settled _ _ Hrf) as Hc.
  pose proof (rf_holds _ _ Hrf name key Hk) as Hh. pose proof Hh as [Hho Hhf Hhb].
  set (h := getHKey name key) in *. destruct (Hho dbo Ho) as [Hv _].
  assert (get_answer cfg bowners c dbo h name = value_at a name key) as Hans.
  { unfold get_answer, mapspec.value_at. rewrite Hv, Hco.
    destruct (am_map a !! (name, key)) as [e|]; [done|]. simpl.
    rewrite omap_none; [done|]. apply Forall_forall. intros b Hb. unfold backup_answer.
    destruct (nodes c !! Name b) as [dbb|] eqn:Hdbb; [|done]. by destruct (Hhb b dbb Hb Hdbb) as [-> _]. }
  assert (get_fits cfg bowners c dbo h name) as Hgf.
  { split.
    - rewrite Hv. intros Hnone. apply Forall_forall. intros b Hb v. unfold backup_answer.
      destruct (nodes c !! Name b) as [dbb|] eqn:Hdbb; [|done].
      destruct (Hhb b dbb Hb Hdbb) as [-> _]; [done|]. by destruct (am_map a !! _).
    - intros v. rewrite Hans. unfold mapspec.value_at. destruct (am_map a !! (name, key)) as [e|]; [|done].
      case_match; [done|]. intros [= <-]. by apply Hhf. }
  destruct (cluster_get_spec cfg owner bowners fuel n dbn dbo c name key Hc Hn Ho Hfit Hgf)
    as (c' & Hrun & Hev & Hsv & Htsk). fold h in Hrun.
  exists c'. split; [by rewrite Hrun, Hans|].
  destruct a as [m clk L]. eapply (refines_views (mkAmap m clk L)); try done; [by apply evolves_shifts|].
  exact (locks_hold_evolves L c c' Hc Hev Htsk (rf_locks _ _ Hrf)).
Qed.

(** ** Locks *)

(** A call that has changed the lock of [key] in the map of its owner. *)
Lemma locks_hold_relock L L' c c' name key (P : locker.locker → Prop) :
  let h := getHKey name key in
  locks_hold L c → relock cfg owner c c' h name P →
  (∀ l, P l → locker.quiet l (fun k => (name, k) ∈ L' ∧ pid (getHKey name k) = pid h)) →
  (∀ x, x ≠ (name, key) → x ∈ L' ↔ x ∈ L) →
  (∀ t, t ∈ tasks c → t ∈ tasks c') →
  ((name, key) ∈ L' → (name, key) ∈ L
    ∨ ∃ a t, map_at cfg owner c' h name a ∧ TaskLockTimeout (Name (owner (pid h))) a key t ∈ tasks c') →
  locks_hold L' c'.
Proof.
  intros h [HL HT] [[_ Hsh] _ (dbo & l & Ho & Hl & HP) Hkept _ Href] HL' Hx Ht Hkey. split; last first.
  { intros name' key' Hin. destruct (decide ((name', key') = (name, key))) as [E|E].
    - simplify_eq. destruct (Hkey Hin) as [Hin'|?]; [|done].
      destruct (HT _ _ Hin') as (a & t & (db & Hn & Hr) & Htk). exists a, t. split; [|auto].
      exists dbo. split; [done|]. by eapply Href.
    - apply Hx in Hin; [|done]. destruct (HT _ _ Hin) as (a & t & (db & Hn & Hr) & Htk).
      exists a, t. split; [|auto]. specialize (Hsh (Name (owner (pid (getHKey name' key'))))).
      rewrite Hn in Hsh. destruct (nodes c' !! Name (owner (pid (getHKey name' key')))) as [db'|] eqn:Hn'; [|done].
      exists db'. split; [done|]. by eapply Href. }
  intros i name' db' Hn'.
  destruct (decide ((i, name') = (pid h, name))) as [E|E].
  { simplify_eq. exists l. split; [done|by apply HL']. }
  specialize (Hsh (Name (owner i))). rewrite Hn' in Hsh.
  destruct (nodes c !! Name (owner i)) as [db|] eqn:Hn; [|done].
  destruct (HL i name' db Hn) as (l' & Hl' & Hq). exists l'. split.
  - apply (Hkept _ _ _ _ _ _ Hn Hn'); [congruence|done].
  - eapply locker.quiet_ext; [|exact Hq]. intros k. simpl.
    split; intros [H1 H2]; (split; [|done]); (apply Hx; [|done]); intros [= -> ->]; by rewrite <-H2 in E.
Qed.

Lemma lock_simulated fuel a c n name key timeout :
  collision_free → refines a c → callable a n name key → in_int64 timeout → (name, key) ∉ am_locks a →
  ∃ c', lockWithTimeout (serve (Datatypes.S fuel)) n name key timeout c = Return (None, c')
    ∧ refines (mkAmap (am_map a) (am_clock a) ({[(name, key)]} ∪ am_locks a)) c'.
Proof.
  intros Hcf Hrf (Hclk & Hk & Hfit) Ht Hnot.
  destruct (owner_up a c n name key Hrf Hclk) as (dbn & dbo & Hn & Ho & _).
  destruct (lh_quiet _ _ (rf_locks _ _ Hrf) _ name dbo Ho) as (l & Hl & Hq).
  destruct (locker.quiet_lock l _ key Hq) as [Hlock Hq']; [tauto|].
  assert (locker.locks l !! key = None) as Hfree by (apply (locker.q_free _ _ Hq); tauto).
  destruct (cluster_lock_run cfg owner bowners fuel n dbn dbo c name key timeout l _ (eq (locker.with_lock l key))
    (rf_settled _ _ Hrf) Hn Ho Ht Hfit Hl Hfree Hlock eq_refl) as (b & c' & Hrun & Hre & Hat & Htk).
  exists c'. split; [done|]. eapply (refines_views a c c' name key); try done; [apply Hre..|].
  eapply locks_hold_relock; [apply Hrf|exact Hre| |set_solver| |]; last first.
  { intros _. right. exists b, timeout. split; [done|]. rewrite Htk. apply elem_of_app. right. by left. }
  { intros t Hin. rewrite Htk. apply elem_of_app. by left. }
  intros ? <-. eapply locker.quiet_ext; [|exact Hq']. intros k. simpl. rewrite elem_of_union, elem_of_singleton.
  split; [intros [->|[? ?]]; tauto|]. intros [[E|?] ?]; [left; congruence|tauto].
Qed.

Lemma unlock_simulated fuel a c n name key :
  collision_free → refines a c → callable a n name key →
  ∃ c', unlock (serve (Datatypes.S fuel)) n name key c
      = Return (if decide ((name, key) ∈ am_locks a) then None else Some OErrNoSuchLock, c')
    ∧ refines (mkAmap (am_map a) (am_clock a) (am_locks a ∖ {[(name, key)]})) c'.
Proof.
  intros Hcf Hrf (Hclk & Hk & Hfit).
  destruct (owner_up a c n name key Hrf Hclk) as (dbn & dbo & Hn & Ho & _).
  destruct (lh_quiet _ _ (rf_locks _ _ Hrf) _ name dbo Ho) as (l & Hl & Hq).
  set (L' := am_locks a ∖ {[(name, key)]}). set (h := getHKey name key).
  assert (∃ l' e, locker.unlock l key = Return (l', e)
    ∧ unlock_result e = (if decide ((name, key) ∈ am_locks a) then None else Some OErrNoSuchLock)
    ∧ locker.quiet l' (fun k => (name, k) ∈ L' ∧ pid (getHKey name k) = pid h)) as (l' & e & Hun & He & Hq').
  { case_decide as Hin.
    - destruct (locker.quiet_unlock l _ key Hq) as (l' & Hun & Hq'); [done|]. exists l', None.
      split; [done|]. split; [done|]. eapply locker.quiet_ext; [|exact Hq']. intros k. unfold L'.
      rewrite elem_of_difference, elem_of_singleton. intuition congruence.
    - exists l, (Some locker.ErrNoSuchLock).
      split; [apply locker.unlock_free, (locker.q_free _ _ Hq); tauto|]. split; [done|].
      eapply locker.quiet_ext; [|exact Hq]. intros k. unfold L'.
      rewrite elem_of_difference, elem_of_singleton. intuition congruence. }
  destruct (cluster_unlock_spec cfg owner bowners fuel n dbn dbo c name key l l' e (eq l')
    (rf_settled _ _ Hrf) Hn Ho Hfit Hl Hun eq_refl) as (c' & Hrun & Hre & Htk).
  exists c'. split; [by rewrite Hrun, He|]. eapply (refines_views a c c' name key); try done; [apply Hre..|].
  eapply locks_hold_relock; [apply Hrf|exact Hre|by intros ? <-|set_solver|by rewrite Htk|set_solver].
Qed.

(** ** The operations under a lock *)

(** [body] runs with the key locked: it starts and ends with the locks of the map. *)
Lemma locked_simulated {A} fuel a c n name key (body : M A) (r : A) a' :
  let sv := serve (Datatypes.S (Datatypes.S fuel)) in
  let locked a := mkAmap (am_map a) (am_clock a) ({[(name, key)]} ∪ am_locks a) in
  collision_free → refines a c → callable a n name key → (name, key) ∉ am_locks a →
  am_clock a' = am_clock a → am_locks a' = am_locks a →
  (∀ c1, refines (locked a) c1 → ∃ c2, body c1 = Return (r, c2) ∧ refines (locked a') c2) →
  ∃ c1 c2 c', lockWithTimeout sv n name key minute c = Return (None, c1) ∧ body c1 = Return (r, c2)
    ∧ unlock sv n name key c2 = Return (None, c') ∧ refines a' c'.
Proof.
  intros sv locked Hcf Hrf Hcall Hnot Hclk HL Hbody.
  destruct (lock_simulated (Datatypes.S fuel) a c n name key minute Hcf Hrf Hcall ltac:(done) Hnot)
    as (c1 & Hlock & Hrf1).
  destruct (Hbody c1 Hrf1) as (c2 & Hrun & Hrf2). exists c1, c2.
  destruct (unlock_simulated (Datatypes.S fuel) (locked a') c2 n name key Hcf Hrf2) as (c' & Hun & Hrf').
  { unfold callable in *. simpl. by rewrite Hclk. }
  exists c'. split; [done|]. split; [done|].
  rewrite decide_True in Hun by (simpl; set_solver). split; [done|].
  simpl in Hrf'. replace (({[(name, key)]} ∪ am_locks a') ∖ {[(name, key)]}) with (am_locks a') in Hrf'
    by (rewrite HL; set_solver). by destruct a'.
Qed.

Lemma getPut_simulated fuel a c n name key value :
  let sv := serve (Datatypes.S (Datatypes.S fuel)) in
  collision_free → usable → refines a c → callable a n name key → (name, key) ∉ am_locks a →
  storable name key value → value_at a name key ≠ Some [] →
  ∃ c', getPut sv n name key value c = Return (inr (value_at a name key), c')
    ∧ refines (put_at a name key value 0) c'.
Proof.
  intros sv Hcf Hus Hrf Hcall Hnot Hst Hne.
  destruct (locked_simulated fuel a c n name key (getPut_locked sv n name key value)
    (inr (value_at a name key)) (put_at a name key value 0) Hcf Hrf Hcall Hnot eq_refl eq_refl)
    as (c1 & c2 & c' & Hlock & Hrun & Hun & Hrf').
  - intros c1 Hrf1. destruct (get_simulated fuel _ c1 n name key Hcf Hrf1 Hcall) as (c2 & Hget & Hrf2).
    destruct (put_simulated fuel _ c2 n name key value 0 Hcf Hus Hrf2 Hcall ltac:(done) Hst)
      as (c3 & Hput & Hrf3).
    change (get_result _) with (get_result (value_at a name key)) in Hget.
    exists c3. split; [|exact Hrf3]. unfold getPut_locked. step Hget.
    destruct (value_at a name key) as [[|x raw]|]; [done|..]; cbn [get_result];
      rewrite ?decide_True by done; cbn beta iota; rewrite (bind_run _ _ _ _ _ (ret_run _ c2)); by step Hput.
  - exists c'. split; [|done]. unfold getPut. step Hlock. cbn beta iota. step Hrun. by step Hun.
Qed.

Lemma incr_simulated fuel a c n name key opr delta :
  let sv := serve (Datatypes.S (Datatypes.S fuel)) in
  collision_free → usable → refines a c → legal a (OIncrDecr n name key opr delta) →
  ∃ c', atomicIncrDecr (V := V) sv n name key opr delta c
      = Return (match counted (V := V) opr delta (value_at a name key) with
                | inl err => inl err | inr (z, _) => inr z end, c')
    ∧ refines (spec (OIncrDecr n name key opr delta) a).1 c'.
Proof.
  intros sv Hcf Hus Hrf (Hcall & Hnot & Hnil & Hst).
  set (raw := value_at a name key) in *.
  set (a' := (spec (OIncrDecr n name key opr delta) a).1).
  assert (am_clock a' = am_clock a ∧ am_locks a' = am_locks a) as [Hclk HL].
  { unfold a'. simpl. by destruct (counted _ _ _) as [?|[??]]. }
  destruct (locked_simulated fuel a c n name key (incr_locked (V := V) sv n name key opr delta)
    (match counted (V := V) opr delta raw with inl err => inl err | inr (z, _) => inr z end)
    a' Hcf Hrf Hcall Hnot Hclk HL) as (c1 & c2 & c' & Hlock & Hrun & Hun & Hrf').
  - intros c1 Hrf1. destruct (get_simulated fuel _ c1 n name key Hcf Hrf1 Hcall) as (c2 & Hget & Hrf2).
    change (value_at (mkAmap _ _ _) name key) with raw in Hget.
    unfold incr_locked. step Hget.
    rewrite (bind_run _ _ _ (number_of (V := V) raw) c2); last first.
    { unfold number_of. destruct raw as [bs|]; simpl; [|done].
      destruct (sUnmarshal bs) as [err|v] eqn:Ev; [done|]. pose proof (Hnil bs v eq_refl Ev).
      by destruct (v_kind v). }
    unfold a'. cbn [mapspec.spec]. fold raw. unfold counted in *.
    destruct (number_of raw) as [err|cur]; [by exists c2|].
    destruct opr; simpl; [| |by exists c2]; (destruct (sMarshal _) as [err|data]; [by exists c2|]);
      (destruct (put_simulated fuel _ c2 n name key data 0 Hcf Hus Hrf2 Hcall ltac:(done) (Hst _ _ eq_refl))
         as (c3 & Hput & Hrf3); exists c3; split; [by step Hput|exact Hrf3]).
  - exists c'. split; [|done]. unfold atomicIncrDecr. step Hlock. cbn beta iota. step Hrun. by step Hun.
Qed.

(** A tick changes the clock of a node and nothing else. *)
Definition at_time (now : Z) (db : Olric) : Olric :=
  mkOlric (this db) (config db) (members db) (ring db) (partitions db) (backups db)
    (heap db) (snapshot db) (bcx db) now.

Lemma settled_at_time c n db now :
  settled c → nodes c !! n = Some db → settled (with_node n (at_time now db) c).
Proof.
  intros [Hnet Hnode Hown Hup Hbup Hap] Hn.
  assert (∀ m d, nodes (with_node n (at_time now db) c) !! m = Some d →
    ∃ d' t, nodes c !! m = Some d' ∧ d = at_time t d') as Hback.
  { intros m d. simpl. destruct (decide (m = n)) as [->|Hne].
    - rewrite lookup_insert_eq. intros [= <-]. eauto.
    - rewrite lookup_insert_ne by done. exists d, (currentUnixNano d). by destruct d. }
  assert (∀ m d, nodes c !! m = Some d → ∃ t, nodes (with_node n (at_time now db) c) !! m = Some (at_time t d))
    as Hforth.
  { intros m d Hm. simpl. destruct (decide (m = n)) as [->|Hne].
    - rewrite lookup_insert_eq. simplify_eq. eauto.
    - rewrite lookup_insert_ne by done. exists (currentUnixNano d). by destruct d. }
  split; [done| | | | |done].
  - intros m d Hm. destruct (Hback m d Hm) as (d' & t & Hd' & ->).
    destruct (Hnode m d' Hd') as ([] & ? & ? & ?). by repeat (split; try done).
  - intros m d i Hm. destruct (Hback m d Hm) as (d' & t & Hd' & ->). exact (Hown m d' i Hd').
  - intros i Hi. destruct (Hup i Hi) as (d & Hd & Ht). destruct (Hforth _ _ Hd) as [t Hx]. eauto.
  - intros i b Hi Hb. destruct (Hbup i b Hi Hb) as [d Hd]. destruct (Hforth _ _ Hd) as [t Hx]. eauto.
Qed.

Lemma tick_simulated sv a c n now :
  refines a c → legal a (OTick n now) →
  ∃ c', exec sv (OTick n now) c = Return (RDone None, c')
    ∧ refines (spec (OTick n now) a).1 c'.
Proof.
  intros [Hc Hcnt Hclk Hh HL] [t Ht]. rewrite <-Hclk in Ht.
  destruct (nodes c !! n) as [db|] eqn:Hn; [|done]. exists (with_node n (at_time now db) c).
  assert (∀ m d, nodes (with_node n (at_time now db) c) !! m = Some d →
    ∃ d', nodes c !! m = Some d' ∧ config d = config d' ∧ members d = members d'
      ∧ (∀ bk i name, view d bk i name = view d' bk i name)
      ∧ (∀ bk i name h, view_single d bk i name h = view_single d' bk i name h)) as Hback.
  { intros m d. simpl. destruct (decide (m = n)) as [->|Hne].
    - rewrite lookup_insert_eq. intros [= <-]. by exists db.
    - rewrite lookup_insert_ne by done. by exists d. }
  split.
  - unfold exec, updateCurrentUnixNano. rewrite (bind_run _ _ _ tt (with_node n (at_time now db) c)); [done|].
    at_node Hn. apply put_node_run.
  - split.
    + by apply settled_at_time.
    + intros m d Hm. destruct (Hback m d Hm) as (d' & Hd' & E1 & E2 & _). specialize (Hcnt m d' Hd').
      unfold backup_count, numMembers in *. by rewrite E1, E2.
    + intros m. simpl. destruct (decide (m = n)) as [->|Hne].
      * by rewrite !lookup_insert_eq.
      * rewrite !lookup_insert_ne by done. apply Hclk.
    + intros name key Hk. destruct (Hh name key Hk) as [Ho Hf Hb]. split; [|done|].
      * intros d Hd. destruct (Hback _ d Hd) as (d' & Hd' & _ & _ & -> & ->). by apply Ho.
      * intros b d Hin Hd. destruct (Hback _ d Hd) as (d' & Hd' & _ & _ & -> & ->). by apply (Hb b).
    + destruct HL as [HL HT]. split.
      * intros i name d. simpl. intros [[E <-]|[_ Hd]]%lookup_insert_Some; [|by apply HL].
        destruct (HL i name db) as (l & Hl & Hq); [congruence|]. by exists l.
      * intros name key Hin. destruct (HT name key Hin) as (b & t' & (d & Hd & Hr) & Htk).
        exists b, t'. split; [|done]. unfold map_at. simpl.
        destruct (decide (Name (owner (pid (getHKey name key))) = n)) as [E|E].
        -- rewrite E, lookup_insert_eq in *. simplify_eq. by exists (at_time now db).
        -- rewrite lookup_insert_ne by done. by exists d.
Qed.

Lemma timeout_simulated sv a c name key :
  collision_free → refines a c → legal a (OLockTimeout name key) →
  ∃ c', exec sv (OLockTimeout name key) c = Return (RDone None, c')
    ∧ refines (spec (OLockTimeout name key) a).1 c'.
Proof.
  intros Hcf Hrf (Hclk & Hk & Hin). set (h := getHKey name key).
  destruct (lh_timer _ _ (rf_locks _ _ Hrf) name key Hin) as (b & t & (dbo & Ho & Hr) & Htk).
  destruct (lh_quiet _ _ (rf_locks _ _ Hrf) _ name dbo Ho) as (l & Hl & Hq).
  destruct (locker.quiet_unlock l _ key Hq) as (l' & Hun & Hq'); [done|].
  destruct (timeout_relocks cfg owner bowners c h name key b None dbo l l' None (eq l')
    (rf_settled _ _ Hrf) Ho Hr Hl Hun eq_refl) as (c' & Hrun & Hre & Ht).
  exists c'. split.
  - unfold exec, timer_fires. erewrite bind_run; [done|]. at_node Ho. fold h. unfold h in *. rewrite Hr.
    erewrite bind_run; [|reflexivity]. rewrite (proj2 (existsb_exists _ _)); [exact Hrun|].
    exists (TaskLockTimeout (Name (owner (pid (getHKey name key)))) b key t).
    split; [by apply list_elem_of_In|]. by apply bool_decide_eq_true_2.
  - apply (refines_views a c c' name key); try done; [apply Hre..|].
    eapply (locks_hold_relock _ _ _ _ name key); [apply Hrf|exact Hre| |set_solver|by rewrite Ht|set_solver].
    intros ? <-. eapply locker.quiet_ext; [|exact Hq']. intros k. cbn [mapspec.spec fst am_locks].
    rewrite elem_of_difference, elem_of_singleton. intuition congruence.
Qed.

(** What a chunk of a merge leaves: every view is the same for the keys stored once. *)
Record tables_merged (db db' : Olric) (bk : bool) (i : Z) (name : list byte) : Prop := {
  mg_wf : wf_node None db';
  mg_same : same_node db db';
  mg_locks : keeps_locks db db';
  mg_key h : view_single db bk i name h →
    view db' bk i name !! h = view db bk i name !! h ∧ view_single db' bk i name h;
  mg_other bk' i' name' h : (bk', i', name') ≠ (bk, i, name) →
    view db' bk' i' name' = view db bk' i' name'
    ∧ (view_single db bk' i' name' h → view_single db' bk' i' name' h)
}.

Lemma merged_id db bk i name : wf_node None db → tables_merged db db bk i name.
Proof. intros Hwf. by split. Qed.

Lemma merge_runs_spec n db c bk i name :
  nodes c !! n = Some db → wf_node None db →
  ∃ db', merge_runs n bk i name c = Return (tt, with_node n db' c) ∧ tables_merged db db' bk i name.
Proof.
  intros Hn Hwf. unfold merge_runs. at_node Hn. destruct (ref db bk i name) as [a|] eqn:Hr; last first.
  { exists db. rewrite with_node_id by done. split; [done|]. by apply merged_id. }
  destruct (wf_ref _ _ Hwf _ _ _ _ Hr) as (d & Hd & Hmu & Hok).
  destruct (kv_merge_ok _ Hok) as (s & Hm & Hok' & Hkey). step (get_dm_run _ _ _ _ _ Hn Hd).
  calc Hm. set (d' := mkDmap _ _ _ s). exists (set_dm a d' db). split; [by apply put_dm_run|].
  assert (heap (set_dm a d' db) !! a = Some d') as Ha by by eapply set_dm_lookup.
  split.
  - by eapply (wf_set_dm None None).
  - apply same_set_dm.
  - split; intros bk' i' name' b.
    + intros e Hb He. rewrite ref_set_dm. split; [done|]. destruct (decide (b = a)) as [->|Hne].
      * rewrite Ha. by simplify_eq.
      * simpl. by rewrite list_lookup_insert_ne, He.
    + rewrite ref_set_dm. congruence.
  - intros h. rewrite (view_set_dm None _ _ d _ bk i name) by done. rewrite decide_True by done.
    unfold view_single, view. rewrite ref_set_dm, Hr, Hd, Ha. apply Hkey.
  - intros bk' i' name' h Hne. rewrite (view_set_dm None _ _ d _ bk i name) by done.
    rewrite decide_False by done. split; [done|]. unfold view_single. rewrite ref_set_dm.
    destruct (ref db bk' i' name') as [b|] eqn:Hb; [|done]. simpl. rewrite list_lookup_insert_ne; [done|].
    intros ->. destruct (wf_inj _ _ Hwf _ _ _ _ _ _ _ Hr Hb) as (E1 & E2 & E3). by subst.
Qed.

(** Every node after the chunk, from before it. *)
Lemma merged_back n db db' c bk i name :
  nodes c !! n = Some db → tables_merged db db' bk i name →
  ∀ m d, nodes (with_node n db' c) !! m = Some d → ∃ d0, nodes c !! m = Some d0
    ∧ same_node d0 d ∧ ∀ bk' i' name' h, ((i', name') = (i, name) → view_single d0 bk' i' name' h) →
        view d bk' i' name' !! h = view d0 bk' i' name' !! h
        ∧ (view_single d0 bk' i' name' h → view_single d bk' i' name' h).
Proof.
  intros Hn [_ Hs _ Hkey Hoth] m d. simpl. destruct (decide (m = n)) as [->|Hne].
  - rewrite lookup_insert_eq. intros [= <-]. exists db. split; [done|]. split; [done|].
    intros bk' i' name' h Hs1. destruct (decide ((bk', i', name') = (bk, i, name))) as [E|E].
    + simplify_eq. destruct (Hkey h) as [-> ?]; [by apply Hs1|done].
    + by destruct (Hoth bk' i' name' h E) as [-> ?].
  - rewrite lookup_insert_ne by done. intros Hd. exists d. by repeat split.
Qed.

Lemma merge_simulated sv a c n bk i name :
  refines a c → legal a (OMerge n bk i name) →
  ∃ c', exec sv (OMerge n bk i name) c = Return (RDone None, c')
    ∧ refines (spec (OMerge n bk i name) a).1 c'.
Proof.
  intros [Hc Hcnt Hclk Hh HL] [[t Ht] Honce]. rewrite <-Hclk in Ht.
  destruct (nodes c !! n) as [db|] eqn:Hn; [|done].
  destruct (st_node _ _ _ _ Hc _ _ Hn) as (Hwf & _).
  destruct (merge_runs_spec n db c bk i name Hn Hwf) as (db' & Hrun & Hmg).
  assert (evolves c (with_node n db' c)) as Hev by (by eapply evolves_with_node; [|apply Hmg..]).
  exists (with_node n db' c). split; [unfold exec; by step Hrun|].
  pose proof (merged_back n db db' c bk i name Hn Hmg) as Hback.
  split.
  - by eapply settled_evolves.
  - intros m d Hm. destruct (Hback m d Hm) as (d0 & Hd0 & [] & _). specialize (Hcnt m d0 Hd0).
    unfold backup_count, numMembers in *. congruence.
  - intros m. simpl. rewrite <-Hclk. destruct (decide (m = n)) as [->|Hne].
    + rewrite lookup_insert_eq, Hn. simpl. f_equal. by destruct Hmg as [_ [] _ _ _].
    + by rewrite lookup_insert_ne.
  - intros name' key' Hk'. destruct (Hh name' key' Hk') as [Ho Hf Hb]. cbn [mapspec.spec fst].
    assert ((pid (getHKey name' key'), name') = (i, name) → once (am_map a !! (name', key'))) as Ho1.
    { intros [= E1 ->]. by apply Honce. }
    split; [|done|].
    + intros d Hd. destruct (Hback _ d Hd) as (d0 & Hd0 & _ & Hv). destruct (Ho d0 Hd0) as [H1 H2].
      destruct (Hv false (pid (getHKey name' key')) name' (getHKey name' key')) as [-> H3]; auto.
    + intros b d Hin Hd. destruct (Hback _ d Hd) as (d0 & Hd0 & _ & Hv). destruct (Hb b d0 Hin Hd0) as [H1 H2].
      destruct (Hv true (pid (getHKey name' key')) name' (getHKey name' key')) as [-> H3]; auto.
  - by eapply locks_hold_evolves.
Qed.

Lemma op_simulated fuel a c o :
  collision_free → usable → refines a c → legal a o →
  ∃ c', exec (serve (Datatypes.S (Datatypes.S fuel))) o c = Return ((spec o a).2, c')
    ∧ refines (spec o a).1 c'.
Proof.
  intros Hcf Hus Hrf Hl. destruct o as [n name key value timeout|n name key|n name key
    |n name key timeout|n name key|n name key value|n name key opr delta|n now|name key|n bk i name]; cbn [legal] in Hl.
  - destruct Hl as (? & ? & ?). destruct (put_simulated fuel a c n name key value timeout) as (c' & Hrun & Hr);
      try done. exists c'. split; [unfold exec; by step Hrun|done].
  - destruct (get_simulated fuel a c n name key Hcf Hrf Hl) as (c' & Hrun & Hr).
    exists c'. split; [unfold exec; by step Hrun|done].
  - destruct Hl. destruct (delete_simulated fuel a c n name key) as (c' & Hrun & Hr); try done.
    exists c'. split; [unfold exec; by step Hrun|done].
  - destruct Hl as (? & ? & ?). destruct (lock_simulated (Datatypes.S fuel) a c n name key timeout)
      as (c' & Hrun & Hr); try done. exists c'. split; [unfold exec; by step Hrun|done].
  - destruct (unlock_simulated (Datatypes.S fuel) a c n name key) as (c' & Hrun & Hr); try done.
    exists c'. split; [unfold exec; by step Hrun|done].
  - destruct Hl as (? & ? & ? & ?). destruct (getPut_simulated fuel a c n name key value) as (c' & Hrun & Hr);
      try done. exists c'. split; [unfold exec; by step Hrun|done].
  - destruct (incr_simulated fuel a c n name key opr delta Hcf Hus Hrf Hl) as (c' & Hrun & Hr).
    exists c'. split; [|done]. unfold exec. step Hrun. cbn [mapspec.spec].
    by destruct (counted _ _ _) as [?|[??]].
  - by apply tick_simulated.
  - by apply timeout_simulated.
  - by apply merge_simulated.
Qed.

Lemma run_simulated fuel os : ∀ a c,
  collision_free → usable → refines a c → legal_run a os →
  ∃ c', exec_run (serve (Datatypes.S (Datatypes.S fuel))) os c = Return ((spec_run os a).2, c')
    ∧ refines (spec_run os a).1 c'.
Proof.
  induction os as [|o os IH]; intros a c Hcf Hus Hrf Hlegal; [by exists c|].
  destruct Hlegal as [Hl Hls].
  destruct (op_simulated fuel a c o Hcf Hus Hrf Hl) as (c1 & Hrun & Hrf1).
  destruct (IH _ c1 Hcf Hus Hrf1 Hls) as (c2 & Hrun2 & Hrf2). exists c2.
  cbn [exec_run mapspec.spec_run]. step Hrun. step Hrun2.
  destruct (spec o a) as [a1 r]. cbn [fst snd] in *.
  by destruct (spec_run os a1) as [a2 rs].
Qed.

(** An empty cluster stands for the empty map. *)
Definition empty_cluster (c : cluster) : Prop :=
  ∀ n db, nodes c !! n = Some db →
    0 ≤ backup_count db ∧ (∀ bk i name, view db bk i name = ∅)
    ∧ ∀ i name, locker_at db i name locker.newLocker.

Lemma empty_refines c :
  settled c → empty_cluster c → refines (mkAmap ∅ (currentUnixNano <$> nodes c) ∅) c.
Proof.
  intros Hc He. split; [done|..].
  - intros n db Hn. by apply (He n).
  - intros n. simpl. by rewrite lookup_fmap.
  - intros name key _. simpl. rewrite lookup_empty.
    assert (∀ n db bk i name h, nodes c !! n = Some db → view db bk i name !! h = None
      ∧ view_single db bk i name h) as Hnone.
    { intros n db bk i nm h Hn. destruct (He n db Hn) as (_ & Hv & _).
      assert (view db bk i nm !! h = None) by (rewrite Hv; apply lookup_empty).
      split; [done|by apply view_single_absent]. }
    split; [|done|].
    + intros db Hdb. by destruct (Hnone _ db false (pid (getHKey name key)) name (getHKey name key) Hdb).
    + intros b db _ Hdb. by destruct (Hnone _ db true (pid (getHKey name key)) name (getHKey name key) Hdb).
  - split; [|set_solver]. intros i name db Hdb. exists locker.newLocker. split; [by apply (He _ db Hdb)|].
    eapply locker.quiet_ext; [|apply locker.quiet_new]. intros k. simpl. set_solver.
Qed.

(** C1: the cluster refines one map: from an empty settled cluster, any program of puts
    (with or without a timeout), gets, deletes, locks, unlocks, [GetPut], [Incr], [Decr] and
    clock ticks, each on the node of its choice, runs to its end and gets exactly the
    answers of one finite map with expiring bindings and one set of locked keys.  Between
    the calls the timer of any lock that is held may fire, which frees the lock, and the
    goroutines that merge the tables of a map may run, which changes no answer.  The
    cluster keeps its bindings in memory only and writes its backups synchronously, no
    request is lost, the keys of the program have distinct hashes, its values are small
    enough for every storage, it only deletes keys whose binding has not replaced another,
    a merge runs in a map and partition where no binding has replaced another, no lock is
    asked for that is held, [GetPut] does not replace an empty value, and counters are not
    bound to nil. *)
Theorem cluster_refines_map fuel os c :
  collision_free → usable → settled c → empty_cluster c →
  legal_run (mkAmap ∅ (currentUnixNano <$> nodes c) ∅) os →
  ∃ c', exec_run (serve (Datatypes.S (Datatypes.S fuel))) os c
      = Return ((spec_run os (mkAmap ∅ (currentUnixNano <$> nodes c) ∅)).2, c')
    ∧ settled c'.
Proof.
  intros Hcf Hus Hc He Hl.
  destruct (run_simulated fuel os _ c Hcf Hus (empty_refines c Hc He) Hl) as (c' & Hrun & Hrf).
  exists c'. split; [done|apply Hrf].
Qed.
End mapspec.
End mapspec.
