(* ===== verification/ClusterExample.v ===== *)
(** A concrete settled cluster: two nodes, two partitions owned by the first and backed up
    by the second, as the ring decides, on the storage engine of [Storage.v].  The hypotheses of the theorems
    on settled clusters hold of it. *)

From S2P Require Export ClusterSpec.

Module example.
Export cspec.

(** ** The environment *)
#[export] Instance ex_kernel : Kernel := granting_kernel.
#[export] Instance ex_granting : Granting.
Proof. intros i n. reflexivity. Qed.

Definition checksum (bs : list byte) : Z := foldr (fun b z => unsigned b + z) 0 bs mod 2 ^ 64.

#[export] Program Instance ex_hasher : Hasher := { Sum64 := checksum }.
Next Obligation. intros bs. by apply Z.mod_pos_bound. Qed.

#[export] Instance ex_env : Env := {
  hasher := ex_hasher;
  errno_text code := text (pretty code);
  msgpack_text code := text (pretty code);
  dial_text addr := text "dial tcp " ++ addr
}.

#[export] Instance ex_snap : Snap storage.Storage unit := {
  RegisterDMap x _ _ _ _ := Return (x, None);
  UnregisterDMap x _ _ _ := Return (x, None);
  DestroyDMap x _ _ _ := Return (x, None);
  NewLoader _ _ := inl snapshot.ErrFirstRun;
  Next _ l := Return (l, inl snapshot.ErrLoaderDone);
  worker_step _ _ _ _ := Running;
  snap_Shutdown x logs := Return (x, logs, None)
}.

Definition birth_le (h1 h2 : host) : Prop := Birthdate h1 ≤ Birthdate h2.
#[export] Instance birth_le_dec : RelDecision birth_le.
Proof. intros h1 h2. unfold birth_le. apply _. Defined.
#[export] Instance birth_le_trans : Transitive birth_le.
Proof. unfold birth_le. intros h1 h2 h3. lia. Qed.
#[export] Instance birth_le_total : Total birth_le.
Proof. unfold birth_le. intros h1 h2. lia. Qed.

#[export] Program Instance ex_sort : BirthdateSort := {
  sort_members := merge_sort birth_le
}.
Next Obligation. intros l. apply merge_sort_Permutation. Qed.
Next Obligation. intros l. apply (StronglySorted_merge_sort birth_le). Qed.

#[export] Program Instance host_countable : Countable host :=
  inj_countable' (fun h => (Birthdate h, Name h)) (fun '(b, n) => mkHost b n) _.
Next Obligation. by intros []. Qed.
#[export] Instance metadata_eq_decision : EqDecision NodeMetadata.
Proof. solve_decision. Defined.
#[export] Program Instance metadata_countable : Countable NodeMetadata :=
  inj_countable' md_Birthdate mkMetadata _.
Next Obligation. by intros []. Qed.
#[export] Instance route_eq_decision : EqDecision route.
Proof. solve_decision. Defined.
#[export] Program Instance route_countable : Countable route :=
  inj_countable' (fun r => (Owners r, Backups r)) (fun '(o, b) => mkRoute o b) _.
Next Obligation. by intros []. Qed.
#[export] Instance dmapbox_eq_decision : EqDecision dmapbox.
Proof. solve_decision. Defined.
#[export] Program Instance dmapbox_countable : Countable dmapbox :=
  inj_countable' (fun b => (box_PartID b, box_Name b, box_Payload b))
    (fun '(i, n, p) => mkDmapbox i n p) _.
Next Obligation. by intros []. Qed.

#[export] Existing Instances storage.transport_eq_decision storage.transport_countable.
#[export] Instance ex_transport_codec : Codec storage.transport :=
  storage.countable_codec storage.transport.
#[export] Instance ex_metadata_codec : Codec NodeMetadata := storage.countable_codec NodeMetadata.
#[export] Instance ex_routing_codec : Codec (gmap Z route) := storage.countable_codec (gmap Z route).
#[export] Instance ex_box_codec : Codec dmapbox := storage.countable_codec dmapbox.

(** Values of the user: what the program can tell apart. *)
Inductive go_value := GoNil | GoEmptyStruct | GoInt (i : Z) | GoBytes (bs : list byte).
#[export] Instance go_value_eq_decision : EqDecision go_value.
Proof. solve_decision. Defined.
#[export] Program Instance go_value_countable : Countable go_value :=
  inj_countable' (fun v => match v with
                           | GoNil => inl false
                           | GoEmptyStruct => inl true
                           | GoInt i => inr (inl i)
                           | GoBytes bs => inr (inr bs)
                           end)
    (fun x => match x with
              | inl false => GoNil
              | inl true => GoEmptyStruct
              | inr (inl i) => GoInt i
              | inr (inr bs) => GoBytes bs
              end) _.
Next Obligation. by intros []. Qed.

#[export] Program Instance ex_serializer : Serializer go_value := {
  sMarshal v := inr (storage.pos_bytes (encode v));
  sUnmarshal bs := match decode (storage.bytes_pos bs) with
                   | Some v => inr v
                   | None => inl (EText (text "cannot decode"))
                   end;
  v_kind v := match v with
              | GoNil => KNil
              | GoEmptyStruct => KEmptyStruct
              | GoInt i => KInt i
              | GoBytes _ => KOther (text "string")
              end;
  v_nil := GoNil;
  v_empty_struct := GoEmptyStruct;
  v_int := GoInt
}.
Next Obligation. done. Qed.
Next Obligation. done. Qed.
Next Obligation. done. Qed.
#[export] Instance ex_serializer_laws : SerializerLaws go_value.
Proof. intros v bs [= <-]. simpl. by rewrite storage.bytes_pos_bytes, decode_encode. Qed.

(** ** The cluster *)
Definition ex_config : Config :=
  mkConfig 2 1 SyncBackupMode OpInMemory (2 ^ 20) DefaultLoadFactor.
Definition alice : host := mkHost 10 (text "alice:3320").
Definition bob : host := mkHost 20 (text "robert:3320").
Definition meta (h : host) : list byte := storage.pos_bytes (encode (mkMetadata (Birthdate h))).
Definition ex_members : list Node :=
  [mkNode (Name alice) (meta alice); mkNode (Name bob) (meta bob)].

Definition ex_owner (i : Z) : host := alice.
Definition ex_bowners (i : Z) : list host := [bob].

(** The node that [New] builds for a configuration. *)
Definition fresh_node (cfg : Config) : Olric storage.Storage unit :=
  match New cfg tt (inr tt) with
  | inr db => db
  | inl _ => mkOlric (mkHost 0 []) cfg [] (consistent.New (consistent.mkConfig 0 0 DefaultLoadFactor))
               ∅ ∅ [] tt BootPending 0
  end.

(** The ring after both hosts have joined. *)
Definition ring_of (cfg : Config) (hs : list host) : consistent.Consistent host :=
  foldl (fun c h => match consistent.Add h c with Return c => c | _ => c end)
    (ring (fresh_node cfg)) hs.
Definition ex_ring : consistent.Consistent host := ring_of ex_config [alice; bob].

Lemma ex_ring_owners :
  map (consistent.GetPartitionOwner ex_ring) [0; 1] = [Some alice; Some alice]
  ∧ map (fun i => consistent.GetClosestNForPartition ex_ring i 1) [0; 1]
    = [Return (inr [bob]); Return (inr [bob])].
Proof. vm_compute. done. Qed.

(** A node that has received the routing table. *)
Definition ex_part (bk : bool) (i : Z) : partition :=
  mkPartition 0 i bk ∅ [if bk then bob else alice].
Definition ex_node (h : host) : Olric storage.Storage unit :=
  set_bcx BootCanceled
    (foldr (fun i db => set_part true (ex_part true i) (set_part false (ex_part false i) db))
       (joined h ex_members ex_ring (fresh_node ex_config)) [0; 1]).

Definition ex_cluster : cluster storage.Storage unit :=
  mkCluster {[Name alice := ex_node alice; Name bob := ex_node bob]} [] [].

Lemma ex_table bk h i :
  table_of bk (ex_node h) !! i = if decide (0 ≤ i < 2) then Some (ex_part bk i) else None.
Proof.
  assert (New_partitions bk 2 = {[0 := mkPartition 0 0 bk ∅ []; 1 := mkPartition 0 1 bk ∅ []]})
    as HN by by destruct bk.
  case_decide as Hi.
  { assert (i = 0 ∨ i = 1) as [-> | ->] by lia; by destruct bk. }
  destruct bk; cbn [table_of ex_node foldr set_bcx set_part joined partitions backups p_id ex_part];
    change (partitions (fresh_node ex_config)) with (New_partitions false 2);
    change (backups (fresh_node ex_config)) with (New_partitions true 2); rewrite HN;
    rewrite !lookup_insert_ne by lia; apply lookup_singleton_ne; lia.
Qed.

Lemma ex_ref h bk i name : ref (ex_node h) bk i name = None.
Proof. unfold ref. rewrite ex_table. by case_decide. Qed.

Lemma ex_view h bk i name : view (ex_node h) bk i name = ∅.
Proof. unfold view. by rewrite ex_ref. Qed.

Lemma ex_node_wf h : wf_node None (ex_node h).
Proof.
  split; [done|done| | |].
  - intros bk i Hi. simpl in Hi. exists (ex_part bk i).
    rewrite ex_table, decide_True by lia. done.
  - intros bk i name a. by rewrite ex_ref.
  - intros bk1 bk2 i1 i2 n1 n2 a. by rewrite ex_ref.
Qed.

Lemma ex_lookup n db :
  nodes ex_cluster !! n = Some db → ∃ h, n = Name h ∧ db = ex_node h ∧ (h = alice ∨ h = bob).
Proof.
  simpl. intros Hn. apply lookup_insert_Some in Hn as [[<- <-]|[_ Hn]]; [by exists alice; auto|].
  apply lookup_singleton_Some in Hn as [<- <-]. exists bob. auto.
Qed.

Lemma ex_alice : nodes ex_cluster !! Name alice = Some (ex_node alice).
Proof. apply lookup_insert_eq. Qed.
Lemma ex_bob : nodes ex_cluster !! Name bob = Some (ex_node bob).
Proof. simpl. rewrite lookup_insert_ne by done. apply lookup_insert_eq. Qed.

Lemma ex_settled : settled ex_config ex_owner ex_bowners ex_cluster.
Proof.
  split.
  - done.
  - intros n db Hn. apply ex_lookup in Hn as (h & -> & -> & Hh).
    split; [apply ex_node_wf|]. done.
  - intros n db i Hn Hi. apply ex_lookup in Hn as (h & -> & -> & Hh). simpl in Hi.
    pose proof (ex_table false h i) as H1. pose proof (ex_table true h i) as H2.
    rewrite decide_True in H1, H2 by lia.
    change (partitions (ex_node h)) with (table_of false (ex_node h)).
    change (backups (ex_node h)) with (table_of true (ex_node h)). by rewrite H1, H2.
  - intros i _. exists (ex_node alice). split; [apply ex_alice|done].
  - intros i b _ Hb. apply list_elem_of_singleton in Hb as ->. rewrite ex_bob. done.
  - intros i _. simpl. split; [apply NoDup_singleton|]. rewrite list_elem_of_singleton. done.
Qed.

(** ** Witnesses *)
Definition ex_name : list byte := text "mymap".
Definition ex_key : list byte := text "key-ab".
Definition ex_key' : list byte := text "key-ba".
Definition ex_value : list byte := text "value".

(** The values of the examples are small. *)
Definition small (value : list byte) : Prop := len value ≤ 1000.

Lemma ex_fits key value :
  key = ex_key ∨ key = ex_key' → small value → fits (MaxValueSize ex_config) ex_name key value.
Proof.
  unfold small. intros Hk Hv. assert (len ex_name = 5 ∧ len key = 6) as [Hn Hl]
    by (split; [done|by destruct Hk as [-> | ->]]).
  unfold fits. rewrite Hn, Hl. simpl. lia.
Qed.
Lemma ex_fits_nil key : key = ex_key ∨ key = ex_key' → fits (MaxValueSize ex_config) ex_name key [].
Proof. intros Hk. by apply ex_fits. Qed.

Lemma ex_room h bk i ttl value :
  in_int64 ttl → small value → view_room (ex_node h) bk i ex_name (mkVData ex_key ttl value).
Proof.
  unfold small. intros Httl Hv. unfold view_room. rewrite ex_ref. intros s Hs.
  assert (kv_new = Return (inr (storage.mkStorage [storage.empty_table (2 ^ 20)] 0 0 false)))
    as Hnew by reflexivity.
  rewrite Hnew in Hs. injection Hs as <-.
  assert (len ex_key = 6) as Hk by done. split.
  - split; [done|]. split; [done|]. simpl. lia.
  - unfold table.entry_size. cbn [last storage.tables vd_Key vd_Value]. rewrite Hk.
    change (allocated _ - offset _) with (2 ^ 20). lia.
Qed.

Lemma ex_backup_ready value :
  small value →
  backup_ready ex_config ex_cluster (getHKey ex_name ex_key) ex_name ex_key value bob.
Proof.
  intros Hv. exists (ex_node bob). split; [apply ex_bob|]. split; [apply ex_node_wf|].
  split; [done|]. by apply ex_room.
Qed.

Lemma ex_ready_of value timeout :
  small value → in_int64 timeout → in_int64 (getTTL (ex_node alice) timeout) →
  put_ready ex_config ex_bowners ex_cluster (ex_node alice) (getHKey ex_name ex_key) ex_name
    ex_key value timeout.
Proof.
  intros Hv Ht Httl. split.
  - by apply ex_fits; [left|].
  - by right.
  - done.
  - done.
  - apply Forall_singleton. by apply ex_backup_ready.
  - unfold put_value. apply ex_room; [|done]. by destruct (timeout =? 0).
Qed.

Lemma ex_ready timeout :
  in_int64 timeout → in_int64 (getTTL (ex_node alice) timeout) →
  put_ready ex_config ex_bowners ex_cluster (ex_node alice) (getHKey ex_name ex_key) ex_name
    ex_key ex_value timeout.
Proof. by apply ex_ready_of. Qed.

Abbreviation ex_serve := (dispatch.serve (S := storage.Storage) (N := unit) (V := go_value)).

Lemma Put_then_Get_witness :
  ∃ c1 c2 r, put (ex_serve 2) (Name bob) ex_name ex_key ex_value 0 ex_cluster = Return (None, c1)
    ∧ get (ex_serve 2) (Name alice) ex_name ex_key c1 = Return (r, c2) ∧ r = inr ex_value.
Proof.
  destruct (Put_then_Get (V := go_value) ex_config ex_owner ex_bowners 0 (Name bob) (Name alice)
    (ex_node bob) (ex_node alice) (ex_node alice) ex_cluster ex_name ex_key ex_value 0
    ex_settled ex_bob ex_alice ex_alice ltac:(done) (ex_ready 0 ltac:(done) ltac:(done)))
    as (c1 & c2 & r & Hput & Hget & _ & _ & _ & Hr).
  exists c1, c2, r. split; [exact Hput|]. split; [exact Hget|]. by apply Hr.
Defined.

Lemma PutEx_never_expires_witness :
  ∃ c' dbb, put (ex_serve 2) (Name bob) ex_name ex_key ex_value 5000000 ex_cluster = Return (None, c')
    ∧ nodes c' !! Name bob = Some dbb
    ∧ view dbb true (getHKey ex_name ex_key mod 2) ex_name !! getHKey ex_name ex_key = Some (mkVData ex_key 0 ex_value).
Proof.
  destruct (PutEx_never_expires_on_backups (V := go_value) ex_config ex_owner ex_bowners 0
    (Name bob) (ex_node bob) (ex_node alice) ex_cluster ex_name ex_key ex_value 5000000 bob
    ex_settled ex_bob ex_alice ltac:(done) (ex_ready 5000000 ltac:(done) ltac:(done)))
    as (c' & dbb & Hput & Hb & Hv & _); [by apply list_elem_of_singleton|].
  exists c', dbb. split; [exact Hput|]. split; [exact Hb|exact Hv].
Defined.

Lemma colliding_keys_witness :
  ∃ c1 c2, put (ex_serve 2) (Name bob) ex_name ex_key ex_value 0 ex_cluster = Return (None, c1)
    ∧ get (ex_serve 2) (Name alice) ex_name ex_key' c1 = Return (inr ex_value, c2).
Proof.
  apply (colliding_keys_share_their_value (V := go_value) ex_config ex_owner ex_bowners 0
    (Name bob) (Name alice) (ex_node bob) (ex_node alice) (ex_node alice) ex_cluster ex_name
    ex_key ex_key' ex_value ex_settled ex_bob ex_alice ex_alice
    (ex_ready 0 ltac:(done) ltac:(done))).
  - vm_compute. reflexivity.
  - apply ex_fits_nil. by right.
Defined.

Lemma ex_deletable :
  deletable ex_config ex_bowners ex_cluster (ex_node alice) (getHKey ex_name ex_key) ex_name ex_key.
Proof.
  split.
  - by apply ex_fits_nil; left.
  - unfold view_single. by rewrite ex_ref.
  - apply Forall_singleton. exists (ex_node bob). split; [apply ex_bob|].
    split; [apply ex_node_wf|]. split; [done|]. unfold view_single. by rewrite ex_ref.
Qed.

Lemma Delete_then_Get_witness :
  ∃ c1 c2, deleteKey (ex_serve 2) (Name bob) ex_name ex_key ex_cluster = Return (None, c1)
    ∧ get (ex_serve 2) (Name alice) ex_name ex_key c1 = Return (inl OErrKeyNotFound, c2).
Proof.
  destruct (Delete_then_Get (V := go_value) ex_config ex_owner ex_bowners 0 (Name bob) (Name alice)
    (ex_node bob) (ex_node alice) (ex_node alice) ex_cluster ex_name ex_key ex_settled ex_bob
    ex_alice ex_alice ex_deletable ltac:(done)) as (c1 & c2 & Hdel & Hget & _).
  exists c1, c2. split; [exact Hdel|exact Hget].
Defined.

Lemma ex_get_fits : get_fits ex_config ex_bowners ex_cluster (ex_node alice)
  (getHKey ex_name ex_key) ex_name.
Proof.
  assert (backup_answer ex_config ex_cluster (getHKey ex_name ex_key) ex_name bob = None) as Hb.
  { unfold backup_answer. by rewrite ex_bob, ex_view. }
  split.
  - intros _. apply Forall_singleton. by rewrite Hb.
  - unfold get_answer. rewrite ex_view, lookup_empty. unfold ex_bowners. cbn [omap list_omap].
    by rewrite Hb.
Qed.

Lemma Get_correct_witness :
  ∃ c', get (ex_serve 2) (Name bob) ex_name ex_key ex_cluster
        = Return (get_result (get_answer ex_config ex_bowners ex_cluster (ex_node alice)
                    (getHKey ex_name ex_key) ex_name), c').
Proof.
  destruct (Get_correct (V := go_value) ex_config ex_owner ex_bowners 0 (Name bob) (ex_node bob)
    (ex_node alice) ex_cluster ex_name ex_key ex_settled ex_bob ex_alice
    (ex_fits_nil _ (or_introl eq_refl)) ex_get_fits) as (c' & Hget & _).
  exists c'. exact Hget.
Defined.

Lemma Put_leaves_other_bindings_witness :
  ∃ c', put (ex_serve 2) (Name bob) ex_name ex_key ex_value 0 ex_cluster = Return (None, c').
Proof.
  destruct (Put_leaves_other_bindings (V := go_value) ex_config ex_owner ex_bowners 0 (Name bob)
    (ex_node bob) (ex_node alice) ex_cluster ex_name ex_key ex_value 0 ex_settled ex_bob ex_alice
    ltac:(done) (ex_ready 0 ltac:(done) ltac:(done))) as (c' & Hput & _).
  exists c'. exact Hput.
Defined.

End example.
