(* ===== verification/SnapshotExample.v ===== *)
(** A concrete database for the snapshot engine, and instances of the theorems on it. *)

From S2P Require Export ClusterExample LifecycleSpec.

Module snap_example.
Export example lifespec.

(** ** A database in memory, whose disk may be full *)
Record ex_disk := mkDisk { d_map : gmap (list byte) (list byte); d_full : bool }.

#[export] Instance ex_badger : Badger ex_disk := {
  bg_get b k := inr (d_map b !! k);
  bg_accept _ _ := None;
  bg_commit b ops :=
    if d_full b then (b, Some 28) else (mkDisk (foldl bop_apply (d_map b) ops) false, None);
  bg_gc b := (b, Some 0);
  bg_close _ := None
}.

#[export] Program Instance ex_badger_laws : BadgerLaws ex_disk := {
  bg_ok b := d_full b = false;
  bg_map := d_map
}.
Next Obligation. done. Qed.
Next Obligation. done. Qed.
Next Obligation. intros b ops Hb. cbn. rewrite Hb. eexists. done. Qed.

#[export] Instance ex_hkeys_codec : Codec hkeys_map := storage.countable_codec hkeys_map.
#[export] Instance ex_dmaps_codec : Codec onDiskDMaps := storage.countable_codec onDiskDMaps.
#[export] Instance ex_encodes_keys : EncodesKeys.
Proof. intros hkeys. by eexists. Qed.
#[export] Instance ex_encodes_maps : EncodesMaps.
Proof. intros d. by eexists. Qed.

Definition empty_disk : ex_disk := mkDisk ∅ false.
Lemma empty_disk_ok : bg_ok empty_disk.
Proof. done. Qed.
Definition full_disk : ex_disk := mkDisk ∅ true.
Definition engine (b : ex_disk) : Snapshot ex_disk := mkSnapshot b ∅ ∅ [] false 1.
Definition empty_storage : storage.Storage :=
  storage.mkStorage [storage.empty_table (2 ^ 20)] 0 0 false.

Lemma empty_storage_ok : kv_ok empty_storage ∧ kv_map empty_storage = ∅.
Proof.
  split; [|done]. split; [done|]. constructor; [|done]. by apply storage.wf_empty_table.
Qed.

Definition sample (key value : list byte) : VData := mkVData key 0 value.

Lemma sample_small : small_value (sample ex_key ex_value).
Proof. by apply (bool_decide_unpack _); vm_compute. Qed.

(** A map with one binding that has just been put. *)
Lemma put_sample h :
  ∃ str, kv_put empty_storage h (sample ex_key ex_value) = Return (str, None) ∧ kv_ok str
    ∧ kv_map str = {[h := sample ex_key ex_value]}.
Proof.
  destruct empty_storage_ok as [Hok Hm].
  destruct (kv_put_ok empty_storage h (sample ex_key ex_value) Hok
    (kv_small_room _ _ Hok sample_small)) as (str & Hrun & Hs & Hmap & _).
  exists str. split; [done|]. split; [done|]. by rewrite Hmap, Hm, insert_empty.
Qed.

Lemma fresh_sample name :
  fresh_map empty_disk 0 name (mkOpLog ∅ empty_storage).
Proof. destruct empty_storage_ok. by split. Qed.

(** ** Witnesses *)
Lemma sync_then_load_witness :
  ∃ b' hkeys str, loadFromBadger (B := ex_disk) b' hkeys = Return (inr str)
    ∧ kv_map (S := storage.Storage) str = {[7 := sample ex_key ex_value]}.
Proof.
  destruct (put_sample 7) as (str & Hput & Hok & Hmap). destruct empty_storage_ok as [Hok0 _].
  destruct (sync_then_load empty_disk (mkOpLog ∅ empty_storage) empty_disk
    (OpLog_Put (mkOpLog ∅ str) 7) 0 ex_name empty_disk_ok (fresh_sample ex_name))
    as (b' & hkeys & str' & _ & _ & Hload & Hm & _).
  - apply rtc_once. apply (step_put 0 ex_name empty_disk (mkOpLog ∅ empty_storage) 7 (sample ex_key ex_value)).
    + done.
    + by apply kv_small_room, sample_small.
    + exact Hput.
  - done.
  - cbn [OpLog_Put ol_str]. rewrite Hmap. apply map_Forall_singleton, sample_small.
  - exists b', hkeys, str'. split; [exact Hload|]. rewrite Hm. exact Hmap.
Defined.

Lemma unsynced_map_witness :
  ∃ s' dmaps, snapshot.RegisterDMap (engine empty_disk) PrimaryDMapKey 0 ex_name 0 = (s', None)
    ∧ snapshot.Next (S := storage.Storage) s' dmaps = Return (dmaps, inl BErrKeyNotFound).
Proof.
  destruct (unsynced_map_blocks_the_loader (S := storage.Storage) (engine empty_disk) PrimaryDMapKey
    0 ex_name 0 empty_storage empty_disk_ok eq_refl eq_refl ltac:(done)) as (s' & dmaps & Hr & _ & _ & Hn).
  exists s', dmaps. split; [exact Hr|exact Hn].
Defined.

Lemma failed_flush_witness :
  ∃ str, kv_map str = {[7 := sample ex_key ex_value]}
    ∧ sync_names 0 {[ex_name := 0%nat]} [ex_name] full_disk [mkOpLog {[7 := opPut]} str]
      = Return (full_disk, [mkOpLog ∅ str]).
Proof.
  destruct (put_sample 7) as (str & _ & Hok & Hmap). exists str. split; [exact Hmap|].
  destruct (failed_flush_forgets_changes full_disk 0 ex_name 0 (mkOpLog {[7 := opPut]} str)
    [mkOpLog {[7 := opPut]} str] 28 eq_refl Hok) as [H _].
  - cbn [ol_m ol_str]. intros h op Hop. apply lookup_singleton_Some in Hop as [<- <-]. split; [done|].
    unfold op_for. by rewrite Hmap, lookup_singleton_eq.
  - done.
  - done.
  - done.
  - exact H.
Defined.

(** The maps "ab" and "a" with the keys "c" and "bc". *)
Lemma maps_share_their_keys_witness :
  ∃ b2 hkeys str, loadFromBadger (B := ex_disk) b2 hkeys = Return (inr str)
    ∧ kv_map (S := storage.Storage) str
      = {[Sum64 (text "ab" ++ text "c") := sample ex_key ex_value]}.
Proof.
  set (h := Sum64 (text "ab" ++ text "c")).
  destruct (put_sample h) as (str & Hput & Hok & Hmap).
  assert (∀ name, log_ok empty_disk 0 name (OpLog_Put (mkOpLog ∅ str) h)) as Hlog.
  { intros name. apply (snap_step_ok 0 name (empty_disk, mkOpLog ∅ empty_storage)
      (empty_disk, OpLog_Put (mkOpLog ∅ str) h)).
    - apply (step_put 0 name empty_disk (mkOpLog ∅ empty_storage) h (sample ex_key ex_value)).
      + done.
      + apply kv_small_room; [apply empty_storage_ok|apply sample_small].
      + exact Hput.
    - split; [done|]. apply fresh_log_ok, fresh_sample. }
  destruct (maps_share_their_keys_on_disk empty_disk 0 (text "ab") (text "a") (text "c") (text "bc")
    (OpLog_Put (mkOpLog ∅ str) h) (OpLog_Put (mkOpLog ∅ str) h) (sample ex_key ex_value)
    (sample ex_key ex_value) eq_refl ltac:(done) empty_disk_ok (Hlog _) (Hlog _) Hmap Hmap)
    as (b1 & b2 & hkeys & str' & _ & _ & _ & Hload & Hm).
  - by exists opPut.
  - by exists opPut.
  - apply sample_small.
  - exists b2, hkeys, str'. split; [exact Hload|exact Hm].
Defined.

Lemma reregistered_partition_witness :
  ∃ s3, oplogs s3 !! 0 = Some {[ex_name := 1%nat]}
    ∧ part_workers (B := ex_disk) s3 0 = [WCanceled].
Proof.
  destruct (reregistered_partition_has_no_worker (engine empty_disk) PrimaryDMapKey 0 ex_name 0 1
    empty_disk_ok eq_refl eq_refl eq_refl eq_refl) as (s1 & s2 & s3 & _ & _ & _ & _ & Hl & Hw).
  exists s3. split; [exact Hl|exact Hw].
Defined.

(** A node that starts on a disk with one map. *)
Definition snap_cfg : Config := mkConfig 1 0 SyncBackupMode OpInMemoryWithSnapshot (2 ^ 20)
  DefaultLoadFactor.
Definition booting (b : ex_disk) : Olric storage.Storage (Snapshot ex_disk) :=
  match New snap_cfg (engine b) (inr (engine b)) with
  | inr db => db
  | inl _ => mkOlric (mkHost 0 []) snap_cfg []
      (consistent.New (consistent.mkConfig 0 0 DefaultLoadFactor)) ∅ ∅ [] (engine b) BootPending 0
  end.

Lemma booting_ref b bk i name : ref (booting b) bk i name = None.
Proof.
  unfold ref. destruct (table_of bk (booting b) !! i) as [p|] eqn:Hp; [|done].
  assert (p_m p = ∅) as ->; [|apply lookup_empty].
  destruct bk; simpl in Hp; eapply New_partitions_empty; exact Hp.
Qed.

Lemma booting_restorable b bk l :
  d_full b = false → registered b (dkey_of bk) l → restorable (booting b) bk.
Proof.
  intros Hb Hl. split.
  - done.
  - by exists l.
  - intros i Hi. simpl in Hi. assert (i = 0) as -> by lia.
    exists (mkPartition 0 0 bk ∅ []). by destruct bk.
  - intros bk' pid name a. by rewrite booting_ref.
Qed.

Lemma restoreFromSnapshot_witness :
  ∃ b str, ∃ db', restoreFromSnapshot 2 (Name alice) false
      (mkCluster {[Name alice := booting b]} [] [])
      = Return (None, with_node (Name alice) db' (mkCluster {[Name alice := booting b]} [] []))
    ∧ view db' false 0 ex_name = kv_map (S := storage.Storage) str
    ∧ kv_map str = {[7 := sample ex_key ex_value]}.
Proof.
  destruct (put_sample 7) as (str & Hput & Hok & Hmap).
  assert (log_ok empty_disk 0 ex_name (OpLog_Put (mkOpLog ∅ str) 7)) as Hlog.
  { apply (snap_step_ok 0 ex_name (empty_disk, mkOpLog ∅ empty_storage)
      (empty_disk, OpLog_Put (mkOpLog ∅ str) 7)).
    - apply (step_put 0 ex_name empty_disk (mkOpLog ∅ empty_storage) 7 (sample ex_key ex_value)).
      + done.
      + apply kv_small_room; [apply empty_storage_ok|apply sample_small].
      + exact Hput.
    - split; [done|]. apply fresh_log_ok, fresh_sample. }
  destruct (syncDMap_ok empty_disk 0 ex_name _ empty_disk_ok Hlog) as (b1 & _ & Hb1 & Hsaved & _ & Hother).
  destruct (registerOnBadger_ok b1 (dkey_of false) ∅ 0 ex_name Hb1) as (b2 & _ & Hb2 & Hreg & _ & Hsame).
  { unfold registered. rewrite Hother; [done|done|]. intros h _. apply dkey_bkey. }
  rewrite add_map_empty in Hreg.
  assert (∀ p nm, has_map {[0 := {[ex_name := tt]}]} p nm → p = 0 ∧ nm = ex_name) as Hhas.
  { intros p nm Hh. unfold has_map in Hh. destruct (decide (p = 0)) as [->|Hp].
    - rewrite lookup_singleton_eq in Hh. simpl in Hh. by apply lookup_singleton_is_Some in Hh.
    - rewrite lookup_singleton_ne in Hh by done. simpl in Hh. rewrite lookup_empty in Hh.
      by destruct Hh. }
  exists b2, str.
  destruct (restoreFromSnapshot_correct 2 (Name alice) false
    (mkCluster {[Name alice := booting b2]} [] []) (booting b2) {[0 := {[ex_name := tt]}]}
    (fun _ _ => kv_map str)) as (db' & Hrun & Hview).
  - apply lookup_singleton_eq.
  - by eapply booting_restorable.
  - intros bk' pid name. unfold view. by rewrite booting_ref.
  - exact Hreg.
  - apply map_Forall_singleton. done.
  - intros p nm Hh. apply Hhas in Hh as [-> _]. simpl. lia.
  - intros p nm Hh. apply Hhas in Hh as [-> ->]. split.
    + eapply saved_frame; [exact Hsame|]. by apply Hsaved.
    + rewrite Hmap. apply map_Forall_singleton, sample_small.
  - vm_compute. reflexivity.
  - exists db'. split; [exact Hrun|]. split; [|exact Hmap].
    rewrite Hview, decide_True; [done|]. split; [done|]. unfold has_map.
    rewrite lookup_singleton_eq. simpl. by rewrite lookup_singleton_eq.
Defined.
End snap_example.
