(* ===== verification/RoutingSpec.v ===== *)
(** The properties of the membership and of the routing table. *)

From S2P Require Export ClusterSpec.

Module rspec.
Export node.

Section rspec.
Context {S N : Type} `{!KV S} `{!KVLaws S} `{!Snap S N} `{!Env}.
Context `{!BirthdateSort} `{!Codec NodeMetadata} `{!RangeOrder (list byte)} `{!Codec (gmap Z route)}.
Context `{!Codec dmapbox} {V : Type} `{!Serializer V}.
Abbreviation M := (olric.M S N).
Abbreviation Olric := (olric.Olric S N).
Abbreviation cluster := (olric.cluster S N).
Abbreviation serve := (dispatch.serve (S := S) (N := N) (V := V)).

(** ** The coordinator *)
Lemma getMembers_perm (db1 db2 : Olric) :
  members db1 ≡ₚ members db2 → getMembers db1 ≡ₚ getMembers db2.
Proof. intros Hp. unfold getMembers. rewrite !sort_members_perm. by apply fmap_Permutation. Qed.

Lemma coordinator_head (db : Olric) :
  members db ≠ [] →
  ∃ h, getCoordinator db = Return h ∧ h ∈ getMembers db
    ∧ ∀ h', h' ∈ getMembers db → Birthdate h ≤ Birthdate h'.
Proof.
  intros Hne. unfold getCoordinator. pose proof (sort_members_sorted (map member_host (members db))) as Hs.
  fold (getMembers db) in Hs. destruct (getMembers db) as [|h hs] eqn:E.
  - pose proof (sort_members_perm (map member_host (members db))) as Hp.
    fold (getMembers db) in Hp. rewrite E in Hp. apply Permutation_nil_l in Hp.
    apply (f_equal length) in Hp. rewrite length_map in Hp. by destruct (members db).
  - exists h. split; [done|]. split; [by left|]. apply StronglySorted_inv in Hs as [_ Hall].
    rewrite Forall_forall in Hall. intros h' [->|Hh]%elem_of_cons; [lia|by apply Hall].
Qed.

(** The nodes agree on the coordinator.  Two nodes whose member lists hold the same
    members, in whatever order, with pairwise distinct birth dates, choose the same
    coordinator, the oldest of them, whatever the (unstable) sort does. *)
Theorem coordinator_agreed (db1 db2 : Olric) :
  members db1 ≡ₚ members db2 → members db1 ≠ [] →
  (∀ h h', h ∈ getMembers db1 → h' ∈ getMembers db1 → Birthdate h = Birthdate h' → h = h') →
  ∃ h, getCoordinator db1 = Return h ∧ getCoordinator db2 = Return h
    ∧ ∀ h', h' ∈ getMembers db1 → Birthdate h ≤ Birthdate h'.
Proof.
  intros Hp Hne Hinj. assert (members db2 ≠ []) as Hne2.
  { intros E. rewrite E in Hp. by apply Permutation_nil_r in Hp. }
  destruct (coordinator_head db1 Hne) as (h1 & Hc1 & Hin1 & Hmin1).
  destruct (coordinator_head db2 Hne2) as (h2 & Hc2 & Hin2 & Hmin2).
  pose proof (getMembers_perm _ _ Hp) as Hmp.
  assert (h2 ∈ getMembers db1) as Hin2' by by rewrite Hmp.
  assert (h1 ∈ getMembers db2) as Hin1' by by rewrite <-Hmp.
  pose proof (Hmin1 _ Hin2'). pose proof (Hmin2 _ Hin1').
  assert (h1 = h2) as -> by (apply Hinj; [done|done|lia]). by exists h2.
Qed.

(** The number of backups never exceeds three nor the number of the other members,
    and is the configured one when these bounds allow it. *)
Theorem calcMaxBackupCount_bounds backupCount memCount :
  0 ≤ backupCount → 1 ≤ memCount →
  calcMaxBackupCount backupCount memCount = Z.min backupCount (Z.min maxBackupCount (memCount - 1))
  ∧ 0 ≤ calcMaxBackupCount backupCount memCount < memCount.
Proof.
  intros Hb Hm. unfold calcMaxBackupCount, maxBackupCount.
  destruct (Z.ltb_spec 3 backupCount);
    [destruct (Z.ltb_spec (memCount - 1) 3)|destruct (Z.ltb_spec (memCount - 1) backupCount)]; lia.
Qed.

(** ** Owner lists *)
Lemma hostCmp_eq o1 o2 : hostCmp o1 o2 = true → o1 = o2.
Proof.
  unfold hostCmp. intros [Hn Hb]%andb_true_iff. apply bool_decide_eq_true in Hn.
  apply Z.eqb_eq in Hb. destruct o1, o2. simpl in *. congruence.
Qed.

(** On a list without repetitions [move_to_end] takes the owner out and appends it. *)
Lemma filter_not_in o (os : list host) : o ∉ os → filter (fun x => x ≠ o) os = os.
Proof. intros Ho. apply filter_all. by intros x Hx ->. Qed.

Lemma remove_first_filter o os :
  NoDup os →
  match remove_first o os with
  | Some os' => os' = filter (fun x => x ≠ o) os
  | None => os = filter (fun x => x ≠ o) os
  end.
Proof.
  induction 1 as [|x os Hx Hnd IH]; [done|]. cbn [remove_first].
  destruct (hostCmp x o) eqn:E.
  - apply hostCmp_eq in E as ->. rewrite filter_cons_False by (intros Hn; by apply Hn).
    by rewrite filter_not_in.
  - assert (x ≠ o) as Hne.
    { intros ->. unfold hostCmp in E. by rewrite bool_decide_eq_true_2, Z.eqb_refl in E. }
    rewrite filter_cons_True by done. destruct (remove_first o os); simpl; congruence.
Qed.

Lemma move_to_end_filter o os :
  NoDup os → move_to_end o os = filter (fun x => x ≠ o) os ++ [o].
Proof.
  intros Hnd. unfold move_to_end. pose proof (remove_first_filter o os Hnd).
  destruct (remove_first o os); congruence.
Qed.

(** The live hosts: members under the same name with the same birth date. *)
Definition live (db : Olric) (o : host) : bool :=
  match findMember db (Name o) with inl _ => false | inr cur => hostCmp o cur end.

Lemma prune_dead_filter (db : Olric) os : prune_dead db os = filter (fun o => live db o) os.
Proof.
  induction os as [|o os IH]; [done|]. cbn [prune_dead]. rewrite filter_cons. unfold live.
  destruct (findMember db (Name o)) as [err|cur]; simpl; [done|].
  destruct (hostCmp o cur) eqn:E; simpl; [|done]. apply hostCmp_eq in E as ->. by rewrite IH.
Qed.

Lemma lookup_set_part bk p (db : Olric) : table_of bk (set_part bk p db) !! p_id p = Some p.
Proof. destruct bk; apply lookup_insert_eq. Qed.

(** ** Asking the owners *)

(** The host answers that it holds no map of the partition. *)
Definition holds_none (c : cluster) (bk : bool) (i : Z) (o : host) : bool :=
  match nodes c !! Name o with
  | Some db => from_option (fun p => p_count p =? 0) false (table_of bk db !! i)
  | None => false
  end.

(** The nodes can be asked for a partition: the network works and all have it. *)
Record askable (c : cluster) (n : list byte) (bk : bool) (i : Z) : Prop := {
  ask_net : net c = [];
  ask_id : in_uint64 i;
  ask_self db : nodes c !! n = Some db → Name (this db) = n;
  ask_part m db : nodes c !! m = Some db → is_Some (table_of bk db !! i);
  ask_max m db : nodes c !! m = Some db → 0 ≤ MaxValueSize (config db)
}.

Definition op_empty (bk : bool) : Z :=
  if bk then protocol.OpIsBackupEmpty else protocol.OpIsPartEmpty.

Lemma empty_handler bk fuel (c : cluster) m db p i :
  nodes c !! m = Some db → table_of bk db !! i = Some p →
  let req := cspec.incoming (op_empty bk) (Some (protocol.IsPartEmptyExtra i))
               (Some (protocol.IsPartEmptyExtra i)) [] [] [] in
  serve (Datatypes.S fuel) m req c
  = Return (Some (if p_count p =? 0 then protocol.Success req
                  else protocol.Error req (if bk then protocol.StatusBackupNotEmpty
                                           else protocol.StatusPartNotEmpty) []), c).
Proof.
  intros Hm Hp req. assert (part_at bk db i = Return p) as Hpart by (unfold part_at; by rewrite Hp).
  assert (∀ status, part_empty bk status m req c
    = Return (if p_count p =? 0 then protocol.Success req else protocol.Error req status [], c))
    as Hrun.
  { intros status. unfold part_empty.
    change (protocol.Extra req) with (Some (protocol.IsPartEmptyExtra i)). cbn iota.
    at_node Hm. by calc Hpart. }
  destruct bk; (eapply cspec.serve_op; [reflexivity|apply Hrun]).
Qed.

Lemma empty_request bk fuel n (c : cluster) db i o :
  nodes c !! n = Some db → askable c n bk i →
  ∃ r, requestTo (serve (Datatypes.S fuel)) n (host_String o) (op_empty bk)
         (request (Some (protocol.IsPartEmptyExtra i)) [] [] []) c = Return (r, c)
    ∧ match r with inl _ => holds_none c bk i o = false | inr _ => holds_none c bk i o = true end.
Proof.
  intros Hn Hask. unfold host_String, holds_none. destruct (nodes c !! Name o) as [dbo|] eqn:Ho; last first.
  { eexists. split.
    - unfold requestTo, RequestTo. rewrite (bind_run _ _ _ (inl (protocol.IOErr (dial_text (Name o)))) c).
      { reflexivity. }
      rewrite (bind_run _ _ _ Delivered c) by (unfold next_fault; by rewrite (ask_net _ _ _ _ Hask)).
      rewrite (bind_run _ _ _ false c); [done|].
      unfold is_up. rewrite Ho. by rewrite bool_decide_eq_false_2 by (by intros []).
    - done. }
  destruct (ask_part _ _ _ _ Hask _ _ Ho) as [p Hp]. rewrite Hp. simpl.
  pose proof (ask_max _ _ _ _ Hask _ _ Ho). pose proof (ask_max _ _ _ _ Hask _ _ Hn).
  assert (0 ≤ op_empty bk < 2 ^ 8) as Hop by by destruct bk.
  eexists. split.
  - eapply (cspec.requestTo_run _ n (Name o) (op_empty bk) _ (Some (protocol.IsPartEmptyExtra i))
      [] [] [] c c db dbo db _ Hn Ho (ask_net _ _ _ _ Hask)); [done|done| | |done|].
    + apply (protocol.reads_extra_fits
        (cspec.outgoing (op_empty bk) (Some (protocol.IsPartEmptyExtra i)) [] [] [])
        protocol.zero_message); [|done].
      unfold protocol.extra_fits. simpl. split; [done|]. split; [apply (ask_id _ _ _ _ Hask)|].
      by destruct bk.
    + exact (empty_handler bk fuel c (Name o) dbo p i Ho Hp).
    + destruct (p_count p =? 0); [by apply cspec.success_ok|].
      apply cspec.error_ok; [done|done|by destruct bk].
  - destruct (p_count p =? 0), bk; reflexivity.
Qed.

Lemma prune_empty_run bk fuel n i (c : cluster) db os :
  nodes c !! n = Some db → askable c n bk i →
  prune_empty (serve (Datatypes.S fuel)) n bk i os c
  = Return (filter (fun o => holds_none c bk i o = false) os, c).
Proof.
  intros Hn Hask. induction os as [|o os IH]; [done|]. cbn [prune_empty]. at_node Hn.
  destruct (hostCmp (this db) o) eqn:Ecmp.
  - apply hostCmp_eq in Ecmp as <-. destruct (ask_part _ _ _ _ Hask _ _ Hn) as [p Hp].
    rewrite (bind_run _ _ _ p c) by (apply lift_run; unfold part_at; by rewrite Hp).
    assert (holds_none c bk i (this db) = (p_count p =? 0)) as Hh.
    { unfold holds_none. by rewrite (ask_self _ _ _ _ Hask _ Hn), Hn, Hp. }
    step IH. rewrite filter_cons, Hh.
    destruct (p_count p =? 0); [by rewrite decide_False|by rewrite decide_True].
  - destruct (empty_request bk fuel n c db i o Hn Hask) as (r & Hreq & Hr).
    fold (op_empty bk). step Hreq. step IH. rewrite filter_cons.
    destruct r; rewrite Hr; [by rewrite decide_True|by rewrite decide_False].
Qed.

(** Changing the owners of a partition on a node does not change the answers. *)
Lemma ask_set_owners (c : cluster) n db p bk i os :
  nodes c !! n = Some db → table_of bk db !! i = Some p → p_id p = i →
  let c' := with_node n (set_part bk (set_owners os p) db) c in
  (askable c n bk i → askable c' n bk i) ∧ ∀ o, holds_none c' bk i o = holds_none c bk i o.
Proof.
  intros Hn Hp Hid c'.
  assert (table_of bk (set_part bk (set_owners os p) db) !! i = Some (set_owners os p)) as Hp'.
  { rewrite <-Hid. apply (lookup_set_part bk (set_owners os p)). }
  assert (∀ m x, nodes c' !! m = Some x →
    m = n ∧ x = set_part bk (set_owners os p) db ∨ nodes c !! m = Some x) as Hcase.
  { intros m x. simpl. intros [[-> ->]|[_ ?]]%lookup_insert_Some; auto. }
  split.
  - intros [Hnet Hi Hself Hpart Hmax]. split; [done|done| | |].
    + intros x [[_ ->]|Hx]%Hcase; [exact (Hself db Hn)|by apply Hself].
    + intros m x [[_ ->]|Hx]%Hcase; [by exists (set_owners os p)|by eapply Hpart].
    + intros m x [[_ ->]|Hx]%Hcase; [by apply (Hmax n db)|by eapply Hmax].
  - intros o. unfold holds_none. simpl. destruct (decide (Name o = n)) as [->|Hne].
    + rewrite lookup_insert_eq, Hn, Hp, Hp'. done.
    + by rewrite lookup_insert_ne.
Qed.

Lemma put_owners_spec n bk i os (c : cluster) db p :
  nodes c !! n = Some db → table_of bk db !! i = Some p →
  put_owners n bk i os c = Return (tt, with_node n (set_part bk (set_owners os p) db) c).
Proof.
  intros Hn Hp. unfold put_owners. at_node Hn.
  rewrite (bind_run _ _ _ p c) by (apply lift_run; unfold part_at; by rewrite Hp). done.
Qed.
(** C30: what [distributePrimaryCopies] makes of the owners of a partition, when the host
    the ring chooses is alive: that host comes last, as the primary owner; the former owners
    that stay, in their order, are exactly those that are live members under the same birth
    date and do not answer that they hold nothing of the partition (a host that cannot be
    reached stays).  The list is installed on the coordinator and goes into the routing
    table, next to the backups that were there; nothing else changes. *)
Theorem distributePrimaryCopies_correct fuel n i rt (c : cluster) db p o :
  nodes c !! n = Some db → askable c n false i → partitions db !! i = Some p → p_id p = i →
  consistent.GetPartitionOwner (ring db) i = Some o → live db o = true → NoDup (p_owners p) →
  let os := filter (fun x => x ≠ o ∧ live db x = true ∧ holds_none c false i x = false)
              (p_owners p) in
  distributePrimaryCopies (serve (Datatypes.S fuel)) n i rt c
  = Return (<[i := mkRoute (os ++ [o]) (Backups (rt_get rt i))]> rt,
            with_node n (set_part false (set_owners (os ++ [o]) p) db) c).
Proof.
  intros Hn Hask Hp Hid Hring Hlive Hnd os. unfold distributePrimaryCopies. at_node Hn.
  assert (part_at false db i = Return p) as Hpart by (unfold part_at; simpl; by rewrite Hp).
  calc Hpart. rewrite Hring. cbn beta iota zeta. case_decide as Hempty.
  { step (put_owners_spec n false i [o] c db p Hn Hp). unfold os. by rewrite Hempty. }
  step (put_owners_spec n false i (move_to_end o (p_owners p)) c db p Hn Hp).
  set (db1 := set_part false _ db). set (c1 := with_node n db1 c).
  destruct (ask_set_owners c n db p false i (move_to_end o (p_owners p)) Hn Hp Hid) as [Ha Hh].
  rewrite prune_dead_filter, move_to_end_filter, filter_app by done.
  rewrite filter_cons_True, filter_nil, rev_app_distr by by rewrite Hlive.
  cbn [rev app]. rewrite rev_involutive.
  assert (nodes c1 !! n = Some db1) as Hn1 by apply with_node_lookup.
  step (prune_empty_run false fuel n i c1 db1 _ Hn1 (Ha Hask)).
  assert (filter (fun x => holds_none c1 false i x = false)
    (filter (fun x => live db x) (filter (fun x => x ≠ o) (p_owners p))) = os) as ->.
  { rewrite !list_filter_filter. apply list_filter_iff. intros x. unfold c1, db1. rewrite Hh.
    destruct (live db x); intuition. }
  assert (partitions db1 !! i = Some (set_owners (move_to_end o (p_owners p)) p)) as Hp1.
  { rewrite <-Hid. apply (lookup_set_part false (set_owners _ p)). }
  step (put_owners_spec n false i (os ++ [o]) c1 db1 _ Hn1 Hp1). unfold c1.
  rewrite with_node_twice. unfold db1, set_part. simpl. by rewrite insert_insert_eq.
Qed.

(** [distributePrimaryCopies] crashes the coordinator when no owner of the partition is
    alive, the one the ring chooses included (two members have left and the ring has seen the
    leave of one): the slice [tmp[:len(tmp)-1]] has a negative bound. *)
Theorem distributePrimaryCopies_panics sv n i rt (c : cluster) db p o :
  nodes c !! n = Some db → partitions db !! i = Some p →
  consistent.GetPartitionOwner (ring db) i = Some o → p_owners p ≠ [] → NoDup (p_owners p) →
  live db o = false → Forall (fun x => live db x = false) (p_owners p) →
  distributePrimaryCopies sv n i rt c = Panic.
Proof.
  intros Hn Hp Hring Hne Hnd Hlive Hall. unfold distributePrimaryCopies. at_node Hn.
  assert (part_at false db i = Return p) as Hpart by (unfold part_at; simpl; by rewrite Hp).
  calc Hpart. rewrite Hring. cbn beta iota zeta. rewrite decide_False by done.
  step (put_owners_spec n false i (move_to_end o (p_owners p)) c db p Hn Hp).
  rewrite prune_dead_filter, move_to_end_filter, filter_app by done.
  rewrite filter_cons_False, filter_nil by (rewrite Hlive; by intros []).
  assert (filter (fun x => live db x) (filter (fun x => x ≠ o) (p_owners p)) = []) as ->; [|done].
  apply elem_of_nil_inv. intros x Hx. apply list_elem_of_filter in Hx as [Hx Hin].
  apply list_elem_of_filter in Hin as [_ Hin]. rewrite Forall_forall in Hall.
  by rewrite (Hall x Hin) in Hx.
Qed.

(** Moving several hosts to the end, one after the other. *)
Lemma move_all_filter bs : ∀ os,
  NoDup os → NoDup bs →
  foldl (fun os b => move_to_end b os) os bs = filter (fun x => x ∉ bs) os ++ bs.
Proof.
  induction bs as [|b bs IH]; intros os Hos Hbs; cbn [foldl].
  { rewrite app_nil_r. symmetry. apply filter_all. intros x _. apply not_elem_of_nil. }
  apply NoDup_cons in Hbs as [Hb Hbs]. rewrite move_to_end_filter by done. rewrite IH; [|..|done].
  - rewrite filter_app, filter_cons_True, filter_nil, <-app_assoc by done. cbn [app]. f_equal.
    rewrite list_filter_filter. apply list_filter_iff. intros x.
    rewrite not_elem_of_cons. tauto.
  - apply NoDup_app. split; [by apply NoDup_filter|]. split; [|apply NoDup_singleton].
    intros x Hx ->%list_elem_of_singleton. apply list_elem_of_filter in Hx as [Hx _]. by apply Hx.
Qed.

(** What [distributeBackups] makes of the backup owners of a partition, when the hosts
    the ring chooses are distinct, as many as asked for and alive: they come last, in the
    order of the ring; the former backup owners that stay, in their order, are exactly
    those that are live and do not answer that they hold nothing of the partition. *)
Theorem distributeBackups_correct fuel n i rt (c : cluster) db p bs backupCount :
  nodes c !! n = Some db → askable c n true i → backups db !! i = Some p → p_id p = i →
  consistent.GetClosestNForPartition (ring db) i backupCount = Return (inr bs) →
  len bs = backupCount → NoDup bs → Forall (fun b => live db b = true) bs → NoDup (p_owners p) →
  let os := filter (fun x => (x ∉ bs) ∧ live db x = true ∧ holds_none c true i x = false)
              (p_owners p) in
  distributeBackups (serve (Datatypes.S fuel)) n i rt backupCount c
  = Return (<[i := mkRoute (Owners (rt_get rt i)) (os ++ bs)]> rt,
            with_node n (set_part true (set_owners (os ++ bs) p) db) c).
Proof.
  intros Hn Hask Hp Hid Hring Hlen Hbs Hlive Hnd os. unfold distributeBackups. at_node Hn.
  calc Hring. cbn beta iota.
  assert (part_at true db i = Return p) as Hpart by (unfold part_at; simpl; by rewrite Hp).
  calc Hpart. cbn beta iota zeta. case_decide as Hempty.
  { step (put_owners_spec n true i bs c db p Hn Hp). unfold os. by rewrite Hempty. }
  set (os1 := foldl _ _ bs). step (put_owners_spec n true i os1 c db p Hn Hp).
  set (db1 := set_part true _ db). set (c1 := with_node n db1 c).
  destruct (ask_set_owners c n db p true i os1 Hn Hp Hid) as [Ha Hh].
  set (front := filter (fun x => live db x) (filter (fun x => x ∉ bs) (p_owners p))).
  assert (prune_dead db os1 = front ++ bs) as ->.
  { unfold os1. rewrite prune_dead_filter, move_all_filter, filter_app by done. f_equal.
    apply filter_all. intros x Hx. rewrite Forall_forall in Hlive. by rewrite Hlive. }
  rewrite len_app, Hlen. replace (len front + backupCount - backupCount) with (len front) by lia.
  rewrite (proj2 (Z.ltb_ge _ 0)) by apply len_nonneg.
  rewrite (proj2 (Z.ltb_ge _ (len front))) by (rewrite <-Hlen; pose proof (len_nonneg bs); lia).
  cbn [orb]. assert (Z.to_nat (len front) = length front) as -> by (unfold len; lia).
  rewrite take_app_length, drop_app_length.
  assert (nodes c1 !! n = Some db1) as Hn1 by apply with_node_lookup.
  step (prune_empty_run true fuel n i c1 db1 front Hn1 (Ha Hask)).
  assert (filter (fun x => holds_none c1 true i x = false) front = os) as ->.
  { unfold front. rewrite !list_filter_filter. apply list_filter_iff. intros x. unfold c1, db1.
    rewrite Hh. destruct (live db x); intuition. }
  assert (backups db1 !! i = Some (set_owners os1 p)) as Hp1.
  { rewrite <-Hid. apply (lookup_set_part true (set_owners _ p)). }
  step (put_owners_spec n true i (os ++ bs) c1 db1 _ Hn1 Hp1). unfold c1.
  rewrite with_node_twice. unfold db1, set_part. simpl. by rewrite insert_insert_eq.
Qed.

(** [distributeBackups] crashes the coordinator when fewer of the backup owners are
    alive than the ring asks for (a member that has died but is still on the ring is
    chosen as a backup): the slice [tmp[:len(tmp)-backupCount]] has a negative bound. *)
Theorem distributeBackups_panics sv n i rt (c : cluster) db p bs backupCount :
  nodes c !! n = Some db → backups db !! i = Some p →
  consistent.GetClosestNForPartition (ring db) i backupCount = Return (inr bs) → p_owners p ≠ [] →
  len (prune_dead db (foldl (fun os b => move_to_end b os) (p_owners p) bs)) < backupCount →
  distributeBackups sv n i rt backupCount c = Panic.
Proof.
  intros Hn Hp Hring Hne Hlt. unfold distributeBackups.
  at_node Hn. calc Hring. cbn beta iota.
  assert (part_at true db i = Return p) as Hpart by (unfold part_at; simpl; by rewrite Hp).
  calc Hpart. cbn beta iota zeta.
  rewrite decide_False by done. unfold mbind at 1, M_bind at 1.
  unfold put_owners. at_node Hn.
  calc Hpart. rewrite put_node_run.
  by rewrite (proj2 (Z.ltb_lt _ 0)) by lia.
Qed.

(** ** Receiving the routing table *)
Lemma table_of_set_part bk bk' p (db : Olric) i :
  table_of bk' (set_part bk p db) !! i
  = if decide (bk' = bk ∧ i = p_id p) then Some p else table_of bk' db !! i.
Proof.
  case_decide as Hd.
  - destruct Hd as [-> ->]. apply lookup_set_part.
  - destruct bk, bk'; simpl; try done; (rewrite lookup_insert_ne; [done|]);
      intros E; apply Hd; done.
Qed.

(** What the handler sets: the owner lists of the partitions in the table. *)
Record routed (db db' : Olric) (rs : list (Z * route)) : Prop := {
  routed_wf : wf_node None db → wf_node None db';
  routed_rest : this db' = this db ∧ config db' = config db ∧ heap db' = heap db ∧ bcx db' = bcx db;
  routed_views bk i name : ref db' bk i name = ref db bk i name;
  routed_in i r : (i, r) ∈ rs →
    p_owners <$> partitions db' !! i = Some (Owners r)
    ∧ p_owners <$> backups db' !! i = Some (Backups r);
  routed_out i : i ∉ rs.*1 → partitions db' !! i = partitions db !! i
    ∧ backups db' !! i = backups db !! i
}.

Lemma ref_set_owners bk os p (db : Olric) bk' i name :
  table_of bk db !! p_id p = Some p →
  ref (set_part bk (set_owners os p) db) bk' i name = ref db bk' i name.
Proof.
  intros Hp. unfold ref. rewrite table_of_set_part. case_decide as Hd; [|done].
  destruct Hd as [-> ->]. simpl. by rewrite Hp.
Qed.

Lemma wf_set_owners bk os p (db : Olric) :
  table_of bk db !! p_id p = Some p → wf_node None db →
  wf_node None (set_part bk (set_owners os p) db).
Proof.
  intros Hp Hwf. split; [apply Hwf|apply (wf_mode _ _ Hwf)| | |].
  - intros bk' i Hi. rewrite table_of_set_part.
    destruct (wf_parts _ _ Hwf bk' i Hi) as (q & Hq & Hid & Hbk).
    case_decide as Hd; [|by exists q]. destruct Hd as [-> ->]. simpl in Hq.
    rewrite Hp in Hq. simplify_eq. by eexists.
  - intros bk' i name a. rewrite ref_set_owners by done. apply (wf_ref _ _ Hwf).
  - intros b1 b2 i1 i2 n1 n2 a. rewrite !ref_set_owners by done. apply (wf_inj _ _ Hwf).
Qed.

(** Installing one route. *)
Definition with_route (i : Z) (r : route) (p q : partition) (db : Olric) : Olric :=
  set_part true (set_owners (Backups r) q) (set_part false (set_owners (Owners r) p) db).

Lemma routed_step (db db' : Olric) i r p q rs :
  partitions db !! i = Some p → p_id p = i → backups db !! i = Some q → p_id q = i →
  i ∉ rs.*1 → routed (with_route i r p q db) db' rs → routed db db' ((i, r) :: rs).
Proof.
  intros Hp Hpi Hq Hqi Hni [Hwf Hrest Hviews Hin Hout]. subst i. unfold with_route in *.
  assert (table_of true (set_part false (set_owners (Owners r) p) db) !! p_id q = Some q) as Hq'.
  { rewrite table_of_set_part. rewrite decide_False by (intros [? _]; done). by rewrite Hqi. }
  split.
  - intros Hdb. apply Hwf. apply wf_set_owners; [done|]. by apply wf_set_owners.
  - done.
  - intros bk j name. rewrite Hviews, !ref_set_owners by done. done.
  - intros j r' [E|Hj]%elem_of_cons; [|by apply Hin]. simplify_eq.
    destruct (Hout _ Hni) as [-> ->]. simpl. rewrite Hqi, !lookup_insert_eq. done.
  - intros j [Hj Hjs]%not_elem_of_cons. destruct (Hout j Hjs) as [-> ->]. simpl in *.
    rewrite Hqi, !lookup_insert_ne by done. done.
Qed.

Lemma set_routes_spec n rs :
  ∀ (c : cluster) db, nodes c !! n = Some db → NoDup rs.*1 →
  (∀ i, i ∈ rs.*1 → ∃ p q, partitions db !! i = Some p ∧ p_id p = i
                      ∧ backups db !! i = Some q ∧ p_id q = i) →
  ∃ db', set_routes n rs c = Return (tt, with_node n db' c) ∧ routed db db' rs.
Proof.
  induction rs as [|[i r] rs IH]; intros c db Hn Hnd Hparts.
  { exists db. rewrite with_node_id by done. split; [done|]. split; try done.
    intros i r Hi. by apply not_elem_of_nil in Hi. }
  simpl in Hnd. apply NoDup_cons in Hnd as [Hni Hnd].
  destruct (Hparts i) as (p & q & Hp & Hpi & Hq & Hqi); [by left|].
  assert (backups (set_part false (set_owners (Owners r) p) db) !! i = Some q) as Hq' by done.
  destruct (IH (with_node n (with_route i r p q db) c) (with_route i r p q db))
    as (db' & Hrun & Hr); [apply with_node_lookup|done| |].
  { intros j Hj. destruct (Hparts j) as (pj & qj & Hpj & ? & Hqj & ?); [by right|].
    assert (j ≠ i) by (intros ->; done). exists pj, qj. unfold with_route. simpl.
    rewrite Hpi, Hqi, !lookup_insert_ne by done. done. }
  rewrite with_node_twice in Hrun. exists db'. split; [|by eapply routed_step].
  cbn [set_routes]. rewrite (bind_run _ _ _ _ _ (put_owners_spec n false i _ c db p Hn Hp)).
  rewrite (bind_run _ _ _ _ _ (put_owners_spec n true i _ _ _ q (with_node_lookup n _ c) Hq')).
  rewrite with_node_twice. exact Hrun.
Qed.

(** A node that receives a routing table it can decode installs exactly the owners
    and the backups of the table, keeps the other partitions and all its maps, becomes
    bootstrapped if it was still waiting, and starts a check of its partitions. *)
Theorem updateRouting_installs n (c : cluster) db req rt :
  nodes c !! n = Some db → wf_node None db →
  Unmarshal (A := gmap Z route) (protocol.Value req) = inr rt →
  (∀ i, is_Some (rt !! i) → 0 ≤ i < PartitionCount (config db)) →
  ∃ db' c', updateRoutingOperation n req c = Return (protocol.Success req, c')
    ∧ nodes c' = <[n := db']> (nodes c) ∧ tasks c' = tasks c ++ [TaskFsck n]
    ∧ wf_node None db' ∧ heap db' = heap db
    ∧ (bcx db ≠ BootDeadlineExceeded → bcx db' = BootCanceled)
    ∧ (∀ bk i name, ref db' bk i name = ref db bk i name)
    ∧ (∀ i r, rt !! i = Some r → p_owners <$> partitions db' !! i = Some (Owners r)
                               ∧ p_owners <$> backups db' !! i = Some (Backups r))
    ∧ ∀ i, rt !! i = None → partitions db' !! i = partitions db !! i
                          ∧ backups db' !! i = backups db !! i.
Proof.
  intros Hn Hwf Hdec Hrange.
  destruct (set_routes_spec n (map_to_list rt) c db Hn) as (db1 & Hrun & [Hwf1 Hrest Hv Hin Hout]).
  { apply NoDup_fst_map_to_list. }
  { intros i Hi. apply list_elem_of_fmap in Hi as ((j & r) & -> & Hj).
    apply elem_of_map_to_list in Hj. assert (is_Some (rt !! j)) as Hs by eauto.
    destruct (wf_parts _ _ Hwf false j (Hrange _ Hs)) as (p & Hp & ? & _).
    destruct (wf_parts _ _ Hwf true j (Hrange _ Hs)) as (q & Hq & ? & _).
    exists p, q. done. }
  set (db' := match bcx db1 with BootPending => set_bcx BootCanceled db1 | _ => db1 end).
  assert (partitions db' = partitions db1 ∧ backups db' = backups db1 ∧ heap db' = heap db1
    ∧ config db' = config db1) as (Hp' & Hb' & Hh' & Hc') by (unfold db'; by destruct (bcx db1)).
  assert (∀ bk, table_of bk db' = table_of bk db1) as Ht by (intros []; done).
  assert (∀ bk i name, ref db' bk i name = ref db1 bk i name) as Hr
    by (intros; unfold ref; by rewrite Ht).
  destruct Hrest as (_ & Hcfg & Hheap & Hbcx).
  exists db', (mkCluster (<[n := db']> (nodes c)) (net c) (tasks c ++ [TaskFsck n])).
  split; [|split; [done|split; [done|split; [|split; [congruence|split; [|split; [|split]]]]]]].
  - unfold updateRoutingOperation. rewrite Hdec. step Hrun.
    unfold bcancel. rewrite (bind_run _ _ _ tt (with_node n db' c)).
    { done. }
    at_node (with_node_lookup n db1 c).
    rewrite put_node_run, with_node_twice. done.
  - specialize (Hwf1 Hwf). split.
    + rewrite Hc'. apply Hwf1.
    + rewrite Hc'. apply (wf_mode _ _ Hwf1).
    + intros bk i Hi. rewrite Ht. rewrite Hc' in Hi. by apply (wf_parts _ _ Hwf1).
    + intros bk i name a. rewrite Hr, Hh'. apply (wf_ref _ _ Hwf1).
    + intros b1 b2 i1 i2 n1 n2 a. rewrite !Hr. apply (wf_inj _ _ Hwf1).
  - intros Hne. unfold db'. rewrite <-Hbcx in Hne. destruct (bcx db1) eqn:E; done.
  - intros bk i name. by rewrite Hr.
  - intros i r Hi. rewrite Hp', Hb'. apply Hin. by apply elem_of_map_to_list.
  - intros i Hi. rewrite Hp', Hb'. apply Hout. rewrite list_elem_of_fmap.
    intros ((j & r) & -> & Hj). apply elem_of_map_to_list in Hj. simpl in Hi. congruence.
Qed.
End rspec.
End rspec.
