(* ===== verification/FsckSpec.v ===== *)
(** The properties of the moves of maps between nodes. *)

From S2P Require Export RoutingSpec ClusterExample.

Module fspec.
Export cspec rspec.

Section fspec.
Context {S N : Type} `{!KV S} `{!KVLaws S} `{!Snap S N} `{!Env}.
Context `{!BirthdateSort} `{!Codec NodeMetadata} `{!RangeOrder (list byte)} `{!Codec (gmap Z route)}.
Context `{!Codec dmapbox}.
Context {V : Type} `{!Serializer V}.
Abbreviation M := (olric.M S N).
Abbreviation Olric := (olric.Olric S N).
Abbreviation cluster := (olric.cluster S N).
Abbreviation serve := (dispatch.serve (S := S) (N := N) (V := V)).

(** ** Receiving a map the node does not hold *)
Definition with_moved (bk : bool) (p : partition) (name : list byte) (s : S) (db : Olric) : Olric :=
  set_heap (heap db ++ [mkDmap false (if bk then None else Some locker.newLocker) None s])
    (set_part bk (set_m (<[name := length (heap db)]> (p_m p)) p) db).

Lemma mergeDMaps_new n bk (c : cluster) db p i box s :
  nodes c !! n = Some db → table_of bk db !! i = Some p → p_m p !! box_Name box = None →
  kv_import (box_Payload box) = Return (inr s) →
  mergeDMaps n bk i box c = Return (None, with_node n (with_moved bk p (box_Name box) s db) c).
Proof.
  intros Hn Hp Hm Him. unfold mergeDMaps. calc Him.
  at_node Hn.
  rewrite (bind_run _ _ _ p c) by (apply lift_run; unfold part_at; by rewrite Hp). by rewrite Hm.
Qed.

Lemma table_of_with_moved bk p name s db bk' j :
  table_of bk' (with_moved bk p name s db) !! j
  = if decide (bk' = bk ∧ j = p_id p)
    then Some (set_m (<[name := length (heap db)]> (p_m p)) p) else table_of bk' db !! j.
Proof. exact (table_of_add_dmap bk (set_m _ p) _ db bk' j). Qed.

Lemma ref_with_moved bk p name s db bk' j name' :
  table_of bk db !! p_id p = Some p →
  ref (with_moved bk p name s db) bk' j name'
  = if decide (bk' = bk ∧ j = p_id p ∧ name' = name) then Some (length (heap db))
    else ref db bk' j name'.
Proof. intros Hp. by apply (ref_add_dmap bk p). Qed.

Lemma view_with_moved bk p name s db bk' j name' :
  wf_node None db → table_of bk db !! p_id p = Some p →
  view (with_moved bk p name s db) bk' j name'
  = if decide (bk' = bk ∧ j = p_id p ∧ name' = name) then kv_map s else view db bk' j name'.
Proof.
  intros Hwf Hp. apply (view_add_dmap bk p); [done|done|done|]. intros. by eapply ref_lt.
Qed.

(** A map that is moved to a node which does not hold it yet arrives with all its
    bindings, but the node does not count it: when its count was zero, the node keeps
    answering that the partition is empty, so that the coordinator may drop it from the
    owners of a partition it holds data of. *)
Theorem moved_map_is_not_counted n (c : cluster) db p name s payload req :
  let i := p_id p in
  nodes c !! n = Some db → wf_node None db → partitions db !! i = Some p →
  p_m p !! name = None → p_count p = 0 → kv_ok s → kv_export s = Return (inr payload) →
  protocol.Extra req = Some (protocol.IsPartEmptyExtra i) →
  ∃ db', mergeDMaps n false i (mkDmapbox i name payload) c = Return (None, with_node n db' c)
    ∧ view db' false i name = kv_map s
    ∧ (∀ bk j name', (bk, j, name') ≠ (false, i, name) → view db' bk j name' = view db bk j name')
    ∧ isPartEmptyOperation n req (with_node n db' c)
      = Return (protocol.Success req, with_node n db' c).
Proof.
  intros i Hn Hwf Hp Hm Hcount Hok Hex Hx.
  destruct (kv_export_ok s payload Hok Hex) as (s' & Him & Hok' & Hmap & _).
  exists (with_moved false p name s' db).
  split; [by apply mergeDMaps_new|]. split; [|split].
  - rewrite view_with_moved by done. by rewrite decide_True.
  - intros bk j name' Hne. rewrite view_with_moved by done.
    rewrite decide_False; [done|]. intros (-> & -> & ->). by apply Hne.
  - unfold isPartEmptyOperation, part_empty. rewrite Hx.
    at_node (with_node_lookup n _ c).
    rewrite (bind_run _ _ _ (set_m (<[name := length (heap db)]> (p_m p)) p)
      (with_node n (with_moved false p name s' db) c)).
    { simpl. by rewrite Hcount. }
    apply lift_run. unfold part_at. rewrite table_of_with_moved. by rewrite decide_True.
Qed.

(** With snapshots enabled the next put into a map that was moved to the node
    crashes it: the map was created without a log of operations, and the put calls a
    method of the nil log after it has stored the value. *)
Theorem moved_map_crashes_on_put sv n (c : cluster) db p name key value timeout s payload :
  let h := getHKey name key in
  let i := p_id p in
  nodes c !! n = Some db → partitions db !! i = Some p → i = pid_of db h →
  0 < PartitionCount (config db) → BackupCount (config db) = 0 →
  OperationMode (config db) = OpInMemoryWithSnapshot → p_m p !! name = None →
  kv_ok s → kv_export s = Return (inr payload) →
  (∀ s', kv_ok s' → kv_room s' (put_value db key value timeout)) →
  ∃ c', mergeDMaps n false i (mkDmapbox i name payload) c = Return (None, c')
    ∧ putKeyVal sv n h name key value timeout c' = Panic.
Proof.
  intros h i Hn Hp Hi Hpc Hbc Hmode Hm Hok Hex Hroom.
  destruct (kv_export_ok s payload Hok Hex) as (s' & Him & Hok' & Hmap & _).
  set (db1 := with_moved false p name s' db). exists (with_node n db1 c).
  split; [by apply mergeDMaps_new|].
  set (p1 := set_m (<[name := length (heap db)]> (p_m p)) p).
  set (d := mkDmap false (Some locker.newLocker) None s').
  assert (heap db1 !! length (heap db) = Some d) as Hd.
  { unfold db1. simpl. by rewrite lookup_app_r, Nat.sub_diag by done. }
  assert (getPartition db1 h = Return p1) as Hpart.
  { unfold getPartition, getPartitionID. simpl. rewrite (proj2 (Z.eqb_neq _ 0)) by lia. simpl.
    unfold part_at, db1. rewrite table_of_with_moved.
    change (h mod PartitionCount (config db)) with (pid_of db h). rewrite <-Hi.
    by rewrite decide_True. }
  destruct (kv_put_ok s' h (put_value db key value timeout) Hok' (Hroom s' Hok'))
    as (s2 & Hput & _).
  set (a := length (heap db)) in *. set (db2 := set_dm a (with_mu true d) db1).
  assert (heap db2 !! a = Some (with_mu true d)) as Hd2 by by eapply set_dm_lookup.
  pose proof (with_node_lookup n db1 c) as Hn1. pose proof (with_node_lookup n db2 c) as Hn2.
  unfold putKeyVal, getDMap, get_dmap_of.
  rewrite (bind_run _ _ _ (inr a) (with_node n db1 c)).
  2:{ at_node Hn1.
      calc Hpart.
      unfold p1. simpl. by rewrite lookup_insert_eq. }
  rewrite (bind_run _ _ _ _ _ (dm_Lock_run _ _ _ _ _ Hn1 Hd eq_refl)), with_node_twice. fold db2.
  unfold mbind at 1, M_bind at 1. unfold putKeyVal_locked.
  at_node Hn2.
  change (config db2) with (config db). rewrite Hbc. cbn [Z.eqb negb].
  rewrite (bind_run _ _ _ _ _ (ret_run None (with_node n db2 c))).
  at_node Hn2. cbn zeta.
  change (getTTL db2 timeout) with (getTTL db timeout).
  fold (put_value db key value timeout).
  rewrite (bind_run _ _ _ _ _ (str_call_run _ _ _ _ _ _ s2 None Hn2 Hd2 Hput)), with_node_twice.
  set (db3 := set_dm a (with_str s2 (with_mu true d)) db2).
  unfold oplog_if_snapshot, oplog_set. unfold mbind at 1, M_bind at 1.
  at_node (with_node_lookup n db3 c).
  change (config db3) with (config db). rewrite Hmode, Z.eqb_refl.
  by rewrite (bind_run _ _ _ _ _ (get_dm_run _ _ _ _ _ (with_node_lookup n db3 c)
    (set_dm_lookup _ _ _ _ Hd2))).
Qed.
End fspec.
End fspec.
