(* ===== verification/MoveSpec.v ===== *)
(** Moving maps between the owners of a partition: what [moveDMap], its handler and [fsck]
    do to the bindings of the nodes. *)

From S2P Require Export FsckSpec.

Module movespec.
Export fspec.

Section merge.
Context {S N : Type} `{!KV S} `{!KVLaws S} `{!Snap S N} `{!Env}.

(** ** Merging the entries of a storage *)

(** What the callback of [mergeDMaps] makes of the entries it has been called on: the map
    keeps its own bindings and takes the others. *)
Lemma merge_calls (l : list (Z * VData)) : ∀ d : S,
  kv_ok d → NoDup l.*1 → Forall (fun kv => kv_small kv.2) l →
  storage.goes_on merge_entry (Return (d, None)) l
  ∧ ∃ d', storage.calls merge_entry (Return (d, None)) l = Return (d', None)
      ∧ kv_ok d' ∧ kv_map d' = kv_map d ∪ list_to_map l
      ∧ ∀ h, kv_single d h → kv_single d' h.
Proof.
  induction l as [|[k v] l IH]; intros d Hd Hnd Hl.
  { split; [done|]. exists d. split; [done|]. split; [done|]. split; [|done]. simpl. by rewrite map_union_empty. }
  apply NoDup_cons in Hnd as [Hk Hnd]. apply Forall_cons in Hl as [Hv Hl]. cbn [storage.goes_on fst snd].
  unfold storage.calls. cbn [foldl fst snd]. fold (storage.calls (A := comp (S * option serror)) merge_entry).
  assert (∃ d1, merge_entry (Return (d, None)) k (Some v) = (Return (d1, None), true) ∧ kv_ok d1
    ∧ kv_map d1 ∪ list_to_map l = kv_map d ∪ list_to_map ((k, v) :: l)
    ∧ ∀ h, kv_single d h → kv_single d1 h) as (d1 & -> & Hd1 & Hm1 & Hs1).
  { unfold merge_entry. rewrite kv_check_ok by done. destruct (kv_map d !! k) as [w|] eqn:Hw.
    - rewrite bool_decide_eq_true_2 by by eexists. exists d. split; [done|]. split; [done|].
      split; [|done]. apply map_eq. intros h. simpl. destruct (decide (h = k)) as [->|Hne].
      + by rewrite !lookup_union_l' by by eexists.
      + rewrite !lookup_union. by rewrite lookup_insert_ne.
    - rewrite bool_decide_eq_false_2 by (by intros []).
      destruct (kv_put_ok d k v Hd (kv_small_room _ _ Hd Hv)) as (d1 & -> & Hd1 & Hm1 & Hs1).
      exists d1. split; [done|]. split; [done|]. split.
      + simpl. rewrite Hm1. by rewrite <-insert_union_l, insert_union_r.
      + intros h Hh. apply Hs1; [done|by right]. }
  cbn [fst snd]. destruct (IH d1 Hd1 Hnd Hl) as (Hg & d' & Hc & Hd' & Hm' & Hs').
  split; [done|]. exists d'. split; [done|]. split; [done|]. split; [by rewrite Hm', Hm1|auto].
Qed.

(** The range over an imported storage. *)
Lemma merge_range (s d : S) :
  kv_ok s → (∀ h, kv_single s h) → kv_ok d → (∀ h v, kv_map s !! h = Some v → kv_small v) →
  ∃ d', kv_range merge_entry s (Return (d, None)) = Return (Return (d', None))
    ∧ kv_ok d' ∧ kv_map d' = kv_map d ∪ kv_map s ∧ ∀ h, kv_single d h → kv_single d' h.
Proof.
  intros Hs Hu Hd Hsm. destruct (kv_range_ok merge_entry s Hs Hu) as (l & Hp & Hr).
  assert (NoDup l.*1) as Hnd by (rewrite Hp; apply NoDup_fst_map_to_list).
  destruct (merge_calls l d Hd Hnd) as (Hg & d' & Hc & Hd' & Hm & Hs').
  { rewrite Hp. apply Forall_forall. intros [k v] Hk%elem_of_map_to_list. by eapply Hsm. }
  exists d'. rewrite Hr, Hc by done. split; [done|]. split; [done|]. split; [|done]. rewrite Hm.
  f_equal. rewrite <-(list_to_map_to_list (kv_map s)). by apply list_to_map_proper.
Qed.
End merge.

Section move.
Context {S N : Type} `{!KV S} `{!KVLaws S} `{!Snap S N} `{!Env}.
Context `{!BirthdateSort} `{!Codec NodeMetadata} `{!RangeOrder (list byte)} `{!Codec (gmap Z route)}.
Context `{!Codec dmapbox}.
Context {V : Type} `{!Serializer V}.
Abbreviation M := (olric.M S N).
Abbreviation Olric := (olric.Olric S N).
Abbreviation cluster := (olric.cluster S N).
Abbreviation serve := (dispatch.serve (S := S) (N := N) (V := V)).

(** Keys that are stored once still are. *)
Definition keeps_single (db db' : Olric) : Prop :=
  ∀ bk j name h, view_single db bk j name h → view_single db' bk j name h.

#[export] Instance keeps_single_preorder : PreOrder keeps_single.
Proof. split; [by intros db bk|]. intros x y z H1 H2 bk j name h Hh. by apply H2, H1. Qed.

Lemma single_with_moved bk p name s (db : Olric) :
  wf_node None db → table_of bk db !! p_id p = Some p → (∀ h, kv_single s h) →
  keeps_single db (with_moved bk p name s db).
Proof.
  intros Hwf Hp Hs bk' j name' h. unfold view_single. rewrite ref_with_moved by done. case_decide.
  - intros _. simpl. rewrite lookup_app_r, Nat.sub_diag by done. apply Hs.
  - destruct (ref db bk' j name') as [a|] eqn:Hr; [|done]. simpl.
    by rewrite lookup_app_l by by eapply ref_lt.
Qed.

Lemma single_set_dm a d d' (db : Olric) :
  heap db !! a = Some d → (∀ h, kv_single (dm_str d) h → kv_single (dm_str d') h) →
  keeps_single db (set_dm a d' db).
Proof.
  intros Hd Hs bk j name h. unfold view_single. rewrite ref_set_dm.
  destruct (ref db bk j name) as [b|]; [|done]. simpl. destruct (decide (b = a)) as [->|Hne].
  - rewrite list_lookup_insert_eq, Hd by by eapply lookup_lt_Some. apply Hs.
  - by rewrite list_lookup_insert_ne.
Qed.

(** ** The receiver *)

(** A node that has merged the bindings [m] into one of its maps. *)
Record merged (db db' : Olric) (bk : bool) (i : Z) (name : list byte) (m : gmap Z VData) : Prop := {
  mg_wf : wf_node None db';
  mg_same : same_node db db';
  mg_view bk' j name' : view db' bk' j name'
    = if decide ((bk', j, name') = (bk, i, name)) then view db bk i name ∪ m else view db bk' j name';
  mg_single : keeps_single db db'
}.

Lemma mergeDMaps_spec n bk i box (c : cluster) db p s :
  nodes c !! n = Some db → wf_node None db → table_of bk db !! i = Some p → p_id p = i →
  kv_import (box_Payload box) = Return (inr s) → kv_ok s → (∀ h, kv_single s h) →
  (∀ h v, kv_map s !! h = Some v → kv_small v) →
  ∃ db', mergeDMaps n bk i box c = Return (None, with_node n db' c)
    ∧ merged db db' bk i (box_Name box) (kv_map s).
Proof.
  intros Hn Hwf Hp Hid Him Hs Hu Hsm. destruct (p_m p !! box_Name box) as [a|] eqn:Hm; last first.
  { exists (with_moved bk p (box_Name box) s db). split; [by apply mergeDMaps_new|].
    assert (table_of bk db !! p_id p = Some p) as Hp' by by rewrite Hid.
    split; [by eapply (wf_add_dmap None db bk p)|by apply (same_add_dmap db bk p)| |by apply single_with_moved].
    intros bk' j name'. rewrite view_with_moved by done. rewrite Hid. case_decide as Hd.
    - destruct Hd as (-> & -> & ->). rewrite decide_True by done. unfold view at 1, ref.
      rewrite Hp, Hm. by rewrite map_empty_union.
    - rewrite decide_False by (intros [= -> -> ->]; by apply Hd). done. }
  assert (ref db bk i (box_Name box) = Some a) as Hr by (unfold ref; by rewrite Hp).
  destruct (wf_ref _ _ Hwf _ _ _ _ Hr) as (d & Hd & Hmu & Hok).
  rewrite bool_decide_eq_false_2 in Hmu by done.
  destruct (merge_range s (dm_str d) Hs Hu Hok Hsm) as (s' & Hrange & Hok' & Hmap & Hsg).
  set (db1 := set_dm a (with_mu true d) db).
  assert (heap db1 !! a = Some (with_mu true d)) as Hd1 by by eapply set_dm_lookup.
  exists (set_dm a (mkDmap false (dm_locker d) (dm_oplog d) s') db). split.
  - unfold mergeDMaps. calc Him. at_node Hn.
    rewrite (bind_run _ _ _ p c) by (apply lift_run; unfold part_at; by rewrite Hp). rewrite Hm.
    step (dm_Lock_run _ _ _ _ _ Hn Hd Hmu). fold db1.
    step (get_dm_run _ _ _ _ _ (with_node_lookup n db1 c) Hd1). calc Hrange.
    rewrite (bind_run _ _ _ (s', None) (with_node n db1 c)) by by apply lift_run.
    step (put_dm_run _ _ _ a (mkDmap true (dm_locker d) (dm_oplog d) s') (with_node_lookup n db1 c)).
    rewrite with_node_twice. unfold db1. rewrite set_dm_twice.
    step (dm_Unlock_run _ _ _ a (mkDmap true (dm_locker d) (dm_oplog d) s') (with_node_lookup n _ c)
      (set_dm_lookup _ _ _ _ Hd) eq_refl).
    by rewrite with_node_twice, set_dm_twice.
  - split.
    + eapply wf_set_dm; [done|done| |done|done]. by rewrite bool_decide_eq_false_2.
    + apply same_set_dm.
    + intros bk' j name'. rewrite (view_set_dm None db a d _ bk i (box_Name box)) by done.
      case_decide; [|done]. simpl. rewrite Hmap. f_equal. unfold view. by rewrite Hr, Hd.
    + by eapply single_set_dm.
Qed.

(** ** The request *)
Definition op_move (bk : bool) : Z :=
  if bk then protocol.OpBackupMoveDMap else protocol.OpMoveDMap.

(** The handler of the receiver, on what [moveDMap] sends. *)
Lemma move_handler fuel bk o (c : cluster) dbo q i name s payload value :
  nodes c !! o = Some dbo → wf_node None dbo → table_of bk dbo !! i = Some q → p_id q = i →
  p_owners q ≠ [] → kv_ok s → kv_export s = Return (inr payload) →
  Marshal (mkDmapbox i name payload) = inr value →
  (∀ h v, kv_map s !! h = Some v → kv_small v) →
  let req := incoming (op_move bk) None None [] [] value in
  ∃ dbo', serve (Datatypes.S fuel) o req c
          = Return (Some (protocol.Success req), with_node o dbo' c)
    ∧ merged dbo dbo' bk i name (kv_map s).
Proof.
  intros Ho Hwf Hq Hid Hown Hok Hex Hmar Hsm req.
  destruct (kv_export_ok s payload Hok Hex) as (s' & Him & Hok' & Hmap & Hu). rewrite <-Hmap in Hsm.
  destruct (mergeDMaps_spec o bk i (mkDmapbox i name payload) c dbo q s' Ho Hwf Hq Hid Him Hok' Hu Hsm)
    as (dbo' & Hrun & Hm).
  exists dbo'. split; [|by rewrite <-Hmap].
  assert (move_operation bk o req c = Return (protocol.Success req, with_node o dbo' c)) as Hop.
  { unfold move_operation. change (protocol.Value req) with value.
    rewrite (Unmarshal_Marshal _ _ Hmar). at_node Ho.
    rewrite (bind_run _ _ _ q c) by (apply lift_run; unfold part_at; simpl; by rewrite Hq).
    rewrite decide_False by done. by step Hrun. }
  destruct bk; (eapply serve_op; [reflexivity|exact Hop]).
Qed.

(** ** The sender *)

(** A node that has given one of its maps away. *)
Record sent (db db' : Olric) (bk : bool) (i : Z) (name : list byte) (a : nat) : Prop := {
  sn_wf : wf_node None db';
  sn_same : same_node db db';
  sn_ref bk' j name' : ref db' bk' j name'
    = if decide ((bk', j, name') = (bk, i, name)) then None else ref db bk' j name';
  sn_heap b : b ≠ a → heap db' !! b = heap db !! b;
  sn_part bk' j : (bk', j) ≠ (bk, i) → table_of bk' db' !! j = table_of bk' db !! j
}.

(** The node after the map [a], which is [d] now, has left the partition, which is [p'] now. *)
Definition given_away (bk : bool) (p' : partition) (a : nat) (d : dmap S) (db : Olric) : Olric :=
  set_dm a d (set_part bk p' db).

Record without (p p' : partition) (name : list byte) : Prop := {
  wo_id : p_id p' = p_id p;
  wo_backup : p_backup p' = p_backup p;
  wo_owners : p_owners p' = p_owners p;
  wo_m : p_m p' = delete name (p_m p)
}.

Lemma table_of_given_away bk p' a d db bk' j :
  table_of bk' (given_away bk p' a d db) !! j
  = if decide (bk' = bk ∧ j = p_id p') then Some p' else table_of bk' db !! j.
Proof.
  unfold given_away. rewrite table_of_set_dm. unfold table_of, set_part. simpl. case_decide as Hd.
  - destruct Hd as [-> ->]. destruct bk; apply lookup_insert_eq.
  - destruct bk, bk'; try done; rewrite lookup_insert_ne; naive_solver.
Qed.

Lemma ref_given_away bk p p' name a d db bk' j name' :
  table_of bk db !! p_id p = Some p → without p p' name →
  ref (given_away bk p' a d db) bk' j name'
  = if decide ((bk', j, name') = (bk, p_id p, name)) then None else ref db bk' j name'.
Proof.
  intros Hp Hw. unfold ref. rewrite table_of_given_away, (wo_id _ _ _ Hw).
  destruct (decide (bk' = bk ∧ j = p_id p)) as [[-> ->]|Hne].
  - rewrite Hp, (wo_m _ _ _ Hw). destruct (decide (name' = name)) as [->|Hn].
    + rewrite decide_True by done. apply lookup_delete_eq.
    + rewrite decide_False by congruence. by apply lookup_delete_ne.
  - rewrite decide_False; [done|]. intros [= -> -> ->]. by apply Hne.
Qed.

Lemma sent_given_away db bk p p' name a d :
  wf_node None db → table_of bk db !! p_id p = Some p → p_m p !! name = Some a → without p p' name →
  sent db (given_away bk p' a d db) bk (p_id p) name a.
Proof.
  intros Hwf Hp Hm Hw. assert (ref db bk (p_id p) name = Some a) as Hr by (unfold ref; by rewrite Hp).
  split.
  - split; [exact (wf_pc _ _ Hwf)|exact (wf_mode _ _ Hwf)|..].
    + intros bk' j Hj. rewrite table_of_given_away, (wo_id _ _ _ Hw).
      destruct (wf_parts _ _ Hwf bk' j Hj) as (q & Hq & Hqid & Hbk).
      case_decide as Hd; [|by exists q]. destruct Hd as [-> ->]. simplify_eq. exists p'.
      split; [done|]. split; [apply Hw|apply Hw].
    + intros bk' j name' b. rewrite (ref_given_away bk p p' name) by done.
      case_decide as Hd; [done|]. intros Hb.
      destruct (wf_ref _ _ Hwf _ _ _ _ Hb) as (e & He & ?). exists e. split; [|done].
      simpl. rewrite list_lookup_insert_ne; [done|]. intros <-. apply Hd.
      by destruct (wf_inj _ _ Hwf _ _ _ _ _ _ _ Hr Hb) as (-> & -> & ->).
    + intros b1 b2 p1 p2 n1 n2 b. rewrite !(ref_given_away bk p p' name) by done.
      case_decide; [done|]. case_decide; [done|]. apply (wf_inj _ _ Hwf).
  - split; try done. intros bk' j. rewrite table_of_given_away, (wo_id _ _ _ Hw).
    case_decide as Hd; [|done]. destruct Hd as [-> ->]. rewrite Hp. simpl. f_equal. apply Hw.
  - intros. by apply ref_given_away.
  - intros b Hb. simpl. by apply list_lookup_insert_ne.
  - intros bk' j Hne. rewrite table_of_given_away, (wo_id _ _ _ Hw), decide_False; [done|].
    intros [-> ->]. by apply Hne.
Qed.

(** The bindings after the move. *)
Lemma sent_view db db' bk i name a bk' j name' :
  wf_node None db → ref db bk i name = Some a → sent db db' bk i name a →
  view db' bk' j name' = if decide ((bk', j, name') = (bk, i, name)) then ∅ else view db bk' j name'.
Proof.
  intros Hwf Hr [_ _ Href Hheap _]. unfold view. rewrite Href. case_decide as Hd; [done|].
  destruct (ref db bk' j name') as [b|] eqn:Hb; [|done]. rewrite Hheap; [done|].
  intros ->. apply Hd. by destruct (wf_inj _ _ Hwf _ _ _ _ _ _ _ Hr Hb) as (-> & -> & ->).
Qed.

Lemma sent_single db db' bk i name a :
  wf_node None db → ref db bk i name = Some a → sent db db' bk i name a → keeps_single db db'.
Proof.
  intros Hwf Hr [_ _ Href Hheap _] bk' j name' h. unfold view_single. rewrite Href.
  case_decide as Hd; [done|]. destruct (ref db bk' j name') as [b|] eqn:Hb; [|done].
  rewrite Hheap; [done|]. intros ->. apply Hd.
  by destruct (wf_inj _ _ Hwf _ _ _ _ _ _ _ Hr Hb) as (-> & -> & ->).
Qed.

(** A map that can be moved: nobody holds one of its locks, no merge runs on its storage, it
    can be exported, and the receiver, which reads values of up to [max] bytes, can take its
    encoding and its values. *)
Record sendable (max : Z) (bk : bool) (i : Z) (name : list byte) (d : dmap S) : Prop := {
  sd_locks : bk = false → ∃ l, dm_locker d = Some l ∧ locker.length_ l = 0;
  sd_quiet : kv_quiet (dm_str d);
  sd_export : ∃ payload value, kv_export (dm_str d) = Return (inr payload)
    ∧ Marshal (mkDmapbox i name payload) = inr value ∧ fits max [] [] value;
  sd_small h v : kv_map (dm_str d) !! h = Some v → kv_small v
}.

Lemma m_delete_run n bk i name (c : cluster) db p :
  nodes c !! n = Some db → table_of bk db !! i = Some p →
  m_delete n bk i name (-1) c
  = Return (tt, with_node n (set_part bk (add_count (-1) (set_m (delete name (p_m p)) p)) db) c).
Proof.
  intros Hn Hp. unfold m_delete. at_node Hn.
  rewrite (bind_run _ _ _ p c) by (apply lift_run; unfold part_at; by rewrite Hp). done.
Qed.

Lemma with_node_comm n o db dbo (c : cluster) :
  n ≠ o → with_node n db (with_node o dbo c) = with_node o dbo (with_node n db c).
Proof. intros Hno. unfold with_node. simpl. by rewrite insert_insert_ne. Qed.

(** The node changes its map between [Lock] and [Unlock]. *)
Lemma given_away_eq bk p' a d d1 d2 db :
  set_dm a d (set_dm a d2 (set_part bk p' (set_dm a d1 db))) = given_away bk p' a d db.
Proof.
  unfold given_away. rewrite set_dm_twice. unfold set_dm, set_part. destruct bk; simpl;
    by rewrite list_insert_insert_eq.
Qed.

(** The part of [moveDMap] that runs with the map locked: the new owner has taken the
    payload, and the map is deleted from its partition and closed. *)
Lemma moveDMap_locked_spec fuel bk n owner (c : cluster) db dbo dbo' p i name a d payload value s' err :
  let o := Name owner in
  let p' := add_count (-1) (set_m (delete name (p_m p)) p) in
  let msg := incoming (op_move bk) None None [] [] value in
  n ≠ o → net c = [] → nodes c !! n = Some db → nodes c !! o = Some dbo →
  OperationMode (config db) = OpInMemory → 0 ≤ MaxValueSize (config db) →
  table_of bk db !! i = Some p → heap db !! a = Some d →
  (bk = false → ∃ l, dm_locker d = Some l ∧ locker.length_ l = 0) →
  kv_export (dm_str d) = Return (inr payload) → Marshal (mkDmapbox i name payload) = inr value →
  fits (MaxValueSize (config dbo)) [] [] value → kv_close (dm_str d) = Return (s', err) →
  serve (Datatypes.S fuel) o msg c = Return (Some (protocol.Success msg), with_node o dbo' c) →
  moveDMap_locked (serve (Datatypes.S fuel)) n bk i name a owner c
    = Return (tt, with_node n (set_dm a (with_str s' d) (set_part bk p' db)) (with_node o dbo' c)).
Proof.
  intros o p' msg Hno Hnet Hn Ho Hmode Hmax Hp Hd Hlk Hex Hmar Hfit Hclose Hserve.
  set (c2 := with_node o dbo' c) in *.
  assert (nodes c2 !! n = Some db) as Hn2 by (simpl; by rewrite lookup_insert_ne).
  unfold moveDMap_locked. step (get_dm_run _ _ _ _ _ Hn Hd).
  rewrite (bind_run _ _ _ false c); last first.
  { destruct bk; [done|]. destruct Hlk as (l & Hl & Hl0); [done|]. simpl. by rewrite Hl, Hl0. }
  cbn beta iota. calc Hex. rewrite Hmar. fold (op_move bk).
  rewrite (bind_run _ _ _ (check_status (protocol.written (protocol.Success msg))) c2); last first.
  { apply (requestTo_run _ n o _ None None [] [] value c c2 db dbo db); try done.
    - by destruct bk.
    - apply success_ok; [done|by destruct bk]. }
  cbn beta iota. change (check_status _) with (inr (A := oerror) (protocol.written (protocol.Success msg))).
  cbn beta iota. step (m_delete_run n bk i name c2 db p Hn2 Hp). fold p'.
  step (str_call_run n (set_part bk p' db) _ a d kv_close s' err (with_node_lookup n _ c2) Hd Hclose).
  rewrite with_node_twice. at_node (with_node_lookup n _ c2). simpl. by rewrite Hmode.
Qed.

Lemma moveDMap_spec fuel bk n owner (c : cluster) db dbo p q i name a d :
  let o := Name owner in
  n ≠ o → net c = [] → nodes c !! n = Some db → nodes c !! o = Some dbo →
  wf_node None db → wf_node None dbo → 0 ≤ MaxValueSize (config db) →
  table_of bk db !! i = Some p → p_id p = i → p_m p !! name = Some a → heap db !! a = Some d →
  table_of bk dbo !! i = Some q → p_id q = i → p_owners q ≠ [] →
  sendable (MaxValueSize (config dbo)) bk i name d →
  ∃ db' dbo', moveDMap (serve (Datatypes.S fuel)) n bk i name a owner c
              = Return (tt, with_node n db' (with_node o dbo' c))
    ∧ sent db db' bk i name a ∧ merged dbo dbo' bk i name (view db bk i name).
Proof.
  intros o Hno Hnet Hn Ho Hwf Hwfo Hmax Hp Hid Hm Hd Hq Hqid Hown [Hlk Hqu (payload & value & Hex & Hmar & Hfit) Hsm].
  assert (ref db bk i name = Some a) as Hr by (unfold ref; by rewrite Hp).
  destruct (wf_ref _ _ Hwf _ _ _ _ Hr) as (d' & Hd' & Hmu & Hok). simplify_eq.
  rewrite bool_decide_eq_false_2 in Hmu by done.
  set (db1 := set_dm a (with_mu true d) db). set (c1 := with_node n db1 c).
  pose proof (with_node_lookup n db1 c : nodes c1 !! n = Some db1) as Hn1.
  assert (nodes c1 !! o = Some dbo) as Ho1 by (simpl; by rewrite lookup_insert_ne).
  assert (heap db1 !! a = Some (with_mu true d)) as Hd1 by by eapply set_dm_lookup.
  destruct (move_handler fuel bk o c1 dbo q (p_id p) name (dm_str d) payload value) as (dbo' & Hserve & Hmg); try done.
  set (c2 := with_node o dbo' c1).
  destruct (kv_close_ok (dm_str d) Hqu) as (s' & err & Hclose).
  set (p' := add_count (-1) (set_m (delete name (p_m p)) p)).
  set (db2 := set_part bk p' db1).
  assert (heap db2 !! a = Some (with_mu true d)) as Hd2 by done.
  exists (given_away bk p' a (mkDmap false (dm_locker d) (dm_oplog d) s') db), dbo'.
  assert (kv_map (dm_str d) = view db bk (p_id p) name) as Hview by (unfold view; by rewrite Hr, Hd).
  split; [|split; [by apply sent_given_away|by rewrite <-Hview]].
  unfold moveDMap. step (dm_Lock_run _ _ _ _ _ Hn Hd Hmu). fold db1 c1.
  step (moveDMap_locked_spec fuel bk n owner c1 db1 dbo dbo' p (p_id p) name a (with_mu true d) payload
    value s' err Hno Hnet Hn1 Ho1 (wf_mode _ _ Hwf) Hmax Hp Hd1 Hlk Hex Hmar Hfit Hclose Hserve).
  fold o p' db2 c2.
  rewrite (dm_Unlock_run _ _ _ a (with_str s' (with_mu true d)) (with_node_lookup n _ c2)
    (set_dm_lookup _ _ _ _ Hd2) eq_refl).
  rewrite with_node_twice. unfold c2, c1. rewrite (with_node_comm o n) by done.
  rewrite with_node_twice. do 3 f_equal. apply given_away_eq.
Qed.

(** The map stays where it is as it was when the receiver does not read values of its size:
    a map that has grown beyond the limit for values can never be moved. *)
Definition refused : list byte :=
  text "failed to read request: " ++ perror_text protocol.ErrValueTooBig.

Lemma refused_request sv n addr op value (c : cluster) db dba :
  nodes c !! n = Some db → nodes c !! addr = Some dba → net c = [] → 0 ≤ op < 2 ^ 8 →
  MaxValueSize (config dba) < len value → len value + 8 < 2 ^ 32 → 64 ≤ MaxValueSize (config db) →
  requestTo sv n addr op (request None [] [] value) c
  = Return (inl (ErrInternalServerError refused), c).
Proof.
  intros Hn Ha Hnet Hop Hbig Hlen Hmax. unfold requestTo, RequestTo.
  set (m := outgoing op None [] [] value). pose proof (len_nonneg value).
  assert (protocol.Read (MaxValueSize (config dba)) protocol.zero_message (protocol.wire m) protocol.IOEOF
    = Return (mkMessage (protocol.write_header m) None [] [] [], Some protocol.ErrValueTooBig,
        (protocol.xbytes m ++ value) ++ [])) as Hread.
  { rewrite <-(app_nil_r (protocol.wire m)). rewrite protocol.Read_value_too_big; [done| |by left|done].
    repeat split; simpl; try done; lia. }
  set (resp := protocol.Error (mkMessage (protocol.write_header m) None [] [] [])
                 protocol.StatusInternalServerError refused).
  assert (response_ok (MaxValueSize (config db)) resp) as Hresp.
  { split; [done|]. split; [done|]. repeat split; simpl; try done; try lia. vm_compute len. lia. }
  rewrite (bind_run _ _ _ (inr (protocol.written resp)) c); [done|].
  erewrite bind_run by (unfold next_fault; by rewrite Hnet). cbn beta iota.
  erewrite bind_run by (unfold is_up; by rewrite Ha, bool_decide_eq_true_2). cbn [negb].
  change (addressed op (request None [] [] value)) with m.
  rewrite (bind_run _ _ _ (Some (protocol.wire resp)) c); last first.
  { unfold handleConn, conn_turn, waitForRequest. rewrite (bind_run _ _ _ (Some (protocol.wire resp, (protocol.xbytes m ++ value) ++ [])) c); [done|].
    erewrite bind_run by (at_node Ha; by calc Hread). done. }
  cbn beta iota. step (read_limit_run _ _ _ Hn). by calc (read_response _ _ Hresp).
Qed.

Theorem big_map_never_moves sv bk n owner (c : cluster) db dbo i name a d payload value :
  let o := Name owner in
  n ≠ o → net c = [] → nodes c !! n = Some db → nodes c !! o = Some dbo →
  heap db !! a = Some d → dm_mu d = false →
  (bk = false → ∃ l, dm_locker d = Some l ∧ locker.length_ l = 0) →
  kv_export (dm_str d) = Return (inr payload) → Marshal (mkDmapbox i name payload) = inr value →
  MaxValueSize (config dbo) < len value → len value + 8 < 2 ^ 32 → 64 ≤ MaxValueSize (config db) →
  moveDMap sv n bk i name a owner c = Return (tt, c).
Proof.
  intros o Hno Hnet Hn Ho Hd Hmu Hlk Hex Hmar Hbig Hlen Hmax.
  set (db1 := set_dm a (with_mu true d) db). set (c1 := with_node n db1 c).
  pose proof (with_node_lookup n db1 c : nodes c1 !! n = Some db1) as Hn1.
  assert (nodes c1 !! o = Some dbo) as Ho1 by (simpl; by rewrite lookup_insert_ne).
  assert (heap db1 !! a = Some (with_mu true d)) as Hd1 by by eapply set_dm_lookup.
  unfold moveDMap. step (dm_Lock_run _ _ _ _ _ Hn Hd Hmu). fold db1 c1.
  rewrite (bind_run _ _ _ tt c1); last first.
  { unfold moveDMap_locked. step (get_dm_run _ _ _ _ _ Hn1 Hd1).
    rewrite (bind_run _ _ _ false c1); last first.
    { destruct bk; [done|]. destruct Hlk as (l & Hl & Hl0); [done|]. simpl. by rewrite Hl, Hl0. }
    cbn beta iota. calc Hex. rewrite Hmar. fold (op_move bk).
    rewrite (bind_run _ _ _ (inl (ErrInternalServerError refused)) c1); [done|].
    apply (refused_request _ n o _ _ c1 db1 dbo); try done. by destruct bk. }
  rewrite (dm_Unlock_run _ _ _ a (with_mu true d) Hn1 Hd1 eq_refl). unfold c1, db1.
  rewrite with_node_twice, set_dm_twice. do 2 f_equal. apply with_node_id.
  rewrite Hn. f_equal. unfold set_dm. replace (with_mu false (with_mu true d)) with d.
  - rewrite list_insert_id by done. by destruct db.
  - destruct d. simpl in *. by subst.
Qed.

(** ** All maps of a partition *)

(** Two nodes after one has handed the maps [names] of a partition to the other. *)
Record handed (db dbo db' dbo' : Olric) (bk : bool) (i : Z) (names : list (list byte)) : Prop := {
  hd_wf : wf_node None db' ∧ wf_node None dbo';
  hd_same : same_node db db' ∧ same_node dbo dbo';
  hd_ref bk' j name : ref db' bk' j name
    = if decide ((bk', j) = (bk, i) ∧ name ∈ names) then None else ref db bk' j name;
  hd_heap bk' j name a : ref db' bk' j name = Some a → heap db' !! a = heap db !! a;
  hd_part bk' j : (bk', j) ≠ (bk, i) → table_of bk' db' !! j = table_of bk' db !! j;
  hd_view bk' j name : view dbo' bk' j name
    = if decide ((bk', j) = (bk, i) ∧ name ∈ names) then view dbo bk i name ∪ view db bk i name
      else view dbo bk' j name;
  hd_single : keeps_single db db' ∧ keeps_single dbo dbo'
}.

Lemma handed_none db dbo bk i :
  wf_node None db → wf_node None dbo → handed db dbo db dbo bk i [].
Proof.
  intros Hwf Hwfo. split; [done|done| |done|done| |done].
  all: intros; rewrite decide_False; [done|]; by intros [_ ?%elem_of_nil].
Qed.

Lemma handed_cons db dbo db1 dbo1 db2 dbo2 bk i name a names :
  wf_node None db → ref db bk i name = Some a → name ∉ names →
  sent db db1 bk i name a → merged dbo dbo1 bk i name (view db bk i name) →
  handed db1 dbo1 db2 dbo2 bk i names → handed db dbo db2 dbo2 bk i (name :: names).
Proof.
  intros Hwf Hr Hnew Hs Hm Hh. split.
  - apply Hh.
  - split; (etrans; [|apply Hh]); [apply Hs|apply Hm].
  - intros bk' j name'. rewrite (hd_ref _ _ _ _ _ _ _ Hh), (sn_ref _ _ _ _ _ _ Hs).
    destruct (decide ((bk', j) = (bk, i))) as [E|E].
    + injection E as -> ->. destruct (decide (name' = name)) as [->|Hne].
      * rewrite decide_False by tauto. rewrite decide_True by done. rewrite decide_True; [done|].
        split; [done|by left].
      * rewrite (decide_False (P := (bk, i, name') = _)) by congruence.
        apply decide_ext. rewrite elem_of_cons. tauto.
    + rewrite !decide_False; [done|tauto|congruence|tauto].
  - intros bk' j name' b Hb. rewrite (hd_heap _ _ _ _ _ _ _ Hh _ _ _ _ Hb).
    rewrite (hd_ref _ _ _ _ _ _ _ Hh) in Hb. case_decide; [done|].
    rewrite (sn_ref _ _ _ _ _ _ Hs) in Hb. case_decide as Hd; [done|].
    apply (sn_heap _ _ _ _ _ _ Hs). intros ->. apply Hd.
    by destruct (wf_inj _ _ Hwf _ _ _ _ _ _ _ Hr Hb) as (-> & -> & ->).
  - intros bk' j Hne. rewrite (hd_part _ _ _ _ _ _ _ Hh) by done. by apply (sn_part _ _ _ _ _ _ Hs).
  - intros bk' j name'. rewrite (hd_view _ _ _ _ _ _ _ Hh), !(mg_view _ _ _ _ _ _ Hm).
    rewrite !(sent_view db db1 bk i name a) by done.
    destruct (decide ((bk', j) = (bk, i))) as [E|E].
    + injection E as -> ->. destruct (decide (name' = name)) as [->|Hne].
      * rewrite decide_False by tauto. rewrite decide_True by done. rewrite decide_True; [done|].
        split; [done|by left].
      * rewrite !(decide_False (P := (bk, i, name') = _)) by congruence.
        apply decide_ext. rewrite elem_of_cons. tauto.
    + rewrite !decide_False; [done|tauto|congruence|tauto].
  - split; [etrans; [by eapply sent_single|apply Hh]|etrans; [apply Hm|apply Hh]].
Qed.

(** The maps that a node is about to hand over. *)
Definition ready (max : Z) (bk : bool) (i : Z) (db : Olric) (l : list (list byte * nat)) : Prop :=
  ∀ name a, (name, a) ∈ l →
  ref db bk i name = Some a ∧ ∃ d, heap db !! a = Some d ∧ sendable max bk i name d.

Lemma ready_tail max bk i db db1 name a l :
  wf_node None db → ref db bk i name = Some a → name ∉ l.*1 → sent db db1 bk i name a →
  ready max bk i db l → ready max bk i db1 l.
Proof.
  intros Hwf Hr Hnew Hs Hl name' b Hin. destruct (Hl name' b Hin) as (Hr' & d & Hd & Hsd).
  assert (name' ≠ name) as Hne.
  { intros ->. apply Hnew. apply list_elem_of_fmap. by exists (name, b). }
  rewrite (sn_ref _ _ _ _ _ _ Hs), decide_False by congruence. split; [done|]. exists d.
  split; [|done]. rewrite (sn_heap _ _ _ _ _ _ Hs); [done|]. intros ->.
  by destruct (wf_inj _ _ Hwf _ _ _ _ _ _ _ Hr Hr') as (_ & _ & ->).
Qed.

Lemma move_all_spec fuel bk n owner i l : ∀ (c : cluster) db dbo,
  let o := Name owner in
  n ≠ o → net c = [] → nodes c !! n = Some db → nodes c !! o = Some dbo →
  wf_node None db → wf_node None dbo → 0 ≤ MaxValueSize (config db) →
  0 ≤ i < PartitionCount (config db) → 0 ≤ i < PartitionCount (config dbo) →
  (∃ os, p_owners <$> table_of bk dbo !! i = Some os ∧ os ≠ []) →
  NoDup l.*1 → ready (MaxValueSize (config dbo)) bk i db l →
  ∃ db' dbo', move_all (serve (Datatypes.S fuel)) n bk i (map (fun x => (owner, x)) l) c
              = Return (tt, with_node n db' (with_node o dbo' c))
    ∧ handed db dbo db' dbo' bk i l.*1.
Proof.
  induction l as [|[name a] l IH]; intros c db dbo o Hno Hnet Hn Ho Hwf Hwfo Hmax Hi Hio Hos Hnd Hl.
  { exists db, dbo. rewrite (with_node_id o) by done. rewrite with_node_id by done.
    split; [done|by apply handed_none]. }
  apply NoDup_cons in Hnd as [Hnew Hnd].
  destruct (Hl name a) as (Hr & d & Hd & Hsd); [by left|].
  destruct (wf_parts _ _ Hwf bk i Hi) as (p & Hp & Hid & _).
  destruct (wf_parts _ _ Hwfo bk i Hio) as (q & Hq & Hqid & _).
  assert (p_m p !! name = Some a) as Hm by (unfold ref in Hr; by rewrite Hp in Hr).
  destruct (moveDMap_spec fuel bk n owner c db dbo p q i name a d) as (db1 & dbo1 & Hrun & Hs & Hmg);
    try done.
  { destruct Hos as (os & Hos & Hne). rewrite Hq in Hos. by injection Hos as ->. }
  set (c1 := with_node n db1 (with_node o dbo1 c)).
  destruct (IH c1 db1 dbo1) as (db2 & dbo2 & Hrun2 & Hh); try done.
  - apply with_node_lookup.
  - simpl. rewrite lookup_insert_ne by done. apply lookup_insert_eq.
  - apply Hs.
  - apply Hmg.
  - by rewrite (same_config _ _ (sn_same _ _ _ _ _ _ Hs)).
  - by rewrite (same_config _ _ (sn_same _ _ _ _ _ _ Hs)).
  - by rewrite (same_config _ _ (mg_same _ _ _ _ _ _ Hmg)).
  - by rewrite (same_owners _ _ (mg_same _ _ _ _ _ _ Hmg)).
  - rewrite (same_config _ _ (mg_same _ _ _ _ _ _ Hmg)).
    apply (ready_tail _ _ _ db _ name a); [done..|]. intros name' b Hin. apply Hl. by right.
  - exists db2, dbo2. split; [|by eapply handed_cons].
    cbn [map move_all]. step Hrun. etrans; [exact Hrun2|]. unfold c1.
    rewrite (with_node_comm (Name owner) n) by done.
    by rewrite !with_node_twice.
Qed.

(** [moveDMaps]: the partition is empty on the sender, and the receiver has the maps of both;
    where both have a binding for a key the one of the receiver stays. *)
Lemma moveDMaps_spec fuel n owner i (c : cluster) db dbo p :
  let o := Name owner in
  n ≠ o → net c = [] → nodes c !! n = Some db → nodes c !! o = Some dbo →
  wf_node None db → wf_node None dbo → 0 ≤ MaxValueSize (config db) →
  0 ≤ i < PartitionCount (config db) → 0 ≤ i < PartitionCount (config dbo) →
  (∃ os, p_owners <$> partitions dbo !! i = Some os ∧ os ≠ []) → partitions db !! i = Some p →
  (∀ name a d, ref db false i name = Some a → heap db !! a = Some d →
     sendable (MaxValueSize (config dbo)) false i name d) →
  ∃ db' dbo', moveDMaps (serve (Datatypes.S fuel)) n p owner c
              = Return (tt, with_node n db' (with_node o dbo' c))
    ∧ handed db dbo db' dbo' false i (map_to_list (p_m p)).*1.
Proof.
  intros o Hno Hnet Hn Ho Hwf Hwfo Hmax Hi Hio Hos Hp Hsd. unfold moveDMaps.
  destruct (wf_parts _ _ Hwf false i Hi) as (p' & Hp' & Hid & _). simpl in Hp'.
  assert (p' = p) as -> by congruence. subst i.
  apply move_all_spec; try done; [apply NoDup_fst_map_to_list|].
  intros name a Hin%elem_of_map_to_list.
  assert (ref db false (p_id p) name = Some a) as Hr by (unfold ref; simpl; by rewrite Hp).
  split; [done|]. destruct (wf_ref _ _ Hwf _ _ _ _ Hr) as (d & Hd & _). exists d. by eauto.
Qed.

(** ** The check of the partitions *)
Context (cfg : Config).

(** A cluster in which maps can be moved. *)
Record moving (c : cluster) : Prop := {
  mv_net : net c = [];
  mv_max : 0 ≤ MaxValueSize cfg;
  mv_node m db : nodes c !! m = Some db → wf_node None db ∧ config db = cfg;
  mv_owned m db j : nodes c !! m = Some db → 0 ≤ j < PartitionCount cfg →
    ∃ os, p_owners <$> partitions db !! j = Some os ∧ os ≠ []
}.

(** The owner to which the node has to hand its part of a partition, if it has to. *)
Definition leaving (db : Olric) (j : Z) : option host :=
  match partitions db !! j with
  | Some p =>
      if p_count p =? 0 then None else
      match rev (p_owners p) with
      | [] => None
      | primaryOwner :: previous =>
          if existsb (fun node => hostCmp node (this db)) previous then Some primaryOwner else None
      end
  | None => None
  end.

(** The bindings of the node [m], which was [dbm], when the node [n], which was [db], has
    handed over a partition. *)
Definition moved_view (n : list byte) (db : Olric) (m : list byte) (dbm : Olric) (j : Z)
    (name : list byte) : gmap Z VData :=
  match leaving db j with
  | Some owner =>
      if decide (m = n) then ∅
      else if decide (m = Name owner) then view dbm false j name ∪ view db false j name
      else view dbm false j name
  | None => view dbm false j name
  end.

(** The cluster when the partitions [ids] of [n] have been checked. *)
Record checked_parts (n : list byte) (db : Olric) (ids : list Z) (c c' : cluster) : Prop := {
  ck_moving : moving c';
  ck_self : ∃ db', nodes c' !! n = Some db'
    ∧ ∀ bk j, (bk = false → j ∉ ids) →
      table_of bk db' !! j = table_of bk db !! j
      ∧ ∀ name a, ref db bk j name = Some a → heap db' !! a = heap db !! a;
  ck_nodes m dbm : nodes c !! m = Some dbm → ∃ dbm', nodes c' !! m = Some dbm'
    ∧ same_node dbm dbm'
    ∧ ∀ bk j name, view dbm' bk j name
        = if decide (bk = false ∧ j ∈ ids) then moved_view n db m dbm j name else view dbm bk j name;
  ck_dom m : is_Some (nodes c' !! m) → is_Some (nodes c !! m);
  ck_single m dbm dbm' : nodes c !! m = Some dbm → nodes c' !! m = Some dbm' → keeps_single dbm dbm'
}.

Lemma checked_nothing n db (c : cluster) :
  moving c → nodes c !! n = Some db → checked_parts n db [] c c.
Proof.
  intros Hc Hn. split; [done|by exists db| |done|congruence].
  intros m dbm Hm. exists dbm. split; [done|].
  split; [done|]. intros bk j name. rewrite decide_False; [done|]. by intros [_ ?%elem_of_nil].
Qed.

(** A partition that the node need not hand over. *)
Lemma checked_stays n db ids j (c c' : cluster) :
  checked_parts n db ids c c' → leaving db j = None → checked_parts n db (ids ++ [j]) c c'.
Proof.
  intros [Hmv (db' & Hn' & Hself) Hnodes Hdom Hsg] Hl. split; [done| | |done|done].
  - exists db'. split; [done|]. intros bk j' Hj. apply Hself. intros Hb Hin. apply (Hj Hb).
    apply elem_of_app. by left.
  - intros m dbm Hm. destruct (Hnodes m dbm Hm) as (dbm' & Hm' & Hs & Hv).
    exists dbm'. split; [done|]. split; [done|]. intros bk j' name. rewrite Hv.
    destruct (decide (bk = false ∧ j' ∈ ids)) as [[-> Hin]|Hno].
    + rewrite decide_True; [done|]. split; [done|]. apply elem_of_app. by left.
    + case_decide as Hd; [|done]. destruct Hd as [-> [?|Hj%list_elem_of_singleton]%elem_of_app]; [tauto|]. subst j'.
      unfold moved_view. by rewrite Hl.
Qed.

Lemma moving_with_node m db db' (c : cluster) :
  moving c → nodes c !! m = Some db → wf_node None db' → same_node db db' → moving (with_node m db' c).
Proof.
  intros [Hnet Hmax Hnode Hown] Hm Hwf Hs. split; [done|done| |].
  - intros m' x. simpl. intros [[<- <-]|[_ Hx]]%lookup_insert_Some; [|by apply (Hnode m')].
    split; [done|]. rewrite (same_config _ _ Hs). by apply (Hnode m).
  - intros m' x j. simpl. intros [[<- <-]|[_ Hx]]%lookup_insert_Some Hj; [|by apply (Hown m')].
    pose proof (same_owners _ _ Hs false j : p_owners <$> partitions db' !! j = _) as ->.
    by apply (Hown m).
Qed.

(** The bindings of a partition on its two nodes after it has been handed over. *)
Lemma handed_sender db dbo db' dbo' i p bk j name :
  partitions db !! i = Some p → handed db dbo db' dbo' false i (map_to_list (p_m p)).*1 →
  view db' bk j name = if decide ((bk, j) = (false, i)) then ∅ else view db bk j name.
Proof.
  intros Hp Hh. unfold view. destruct (ref db' bk j name) as [a|] eqn:Hr.
  - rewrite (hd_heap _ _ _ _ _ _ _ Hh _ _ _ _ Hr). rewrite (hd_ref _ _ _ _ _ _ _ Hh) in Hr.
    case_decide as Hd; [done|]. case_decide as E; [|by rewrite Hr]. injection E as -> ->.
    destruct Hd. split; [done|]. unfold ref in Hr. simpl in Hr. rewrite Hp in Hr.
    apply list_elem_of_fmap. exists (name, a). split; [done|]. by apply elem_of_map_to_list.
  - rewrite (hd_ref _ _ _ _ _ _ _ Hh) in Hr. case_decide as Hd.
    + destruct Hd as [-> _]. by rewrite decide_True.
    + rewrite Hr. by case_decide.
Qed.

Lemma handed_receiver db dbo db' dbo' i p bk j name :
  partitions db !! i = Some p → handed db dbo db' dbo' false i (map_to_list (p_m p)).*1 →
  view dbo' bk j name
  = if decide ((bk, j) = (false, i)) then view dbo false i name ∪ view db false i name
    else view dbo bk j name.
Proof.
  intros Hp Hh. rewrite (hd_view _ _ _ _ _ _ _ Hh). case_decide as Hd.
  - destruct Hd as [-> _]. by rewrite decide_True.
  - case_decide as E; [|done]. injection E as -> ->.
    assert (view db false i name = ∅) as ->; [|by rewrite map_union_empty].
    unfold view, ref. simpl. rewrite Hp. destruct (p_m p !! name) as [a|] eqn:Hm; [|done].
    destruct Hd. split; [done|]. apply list_elem_of_fmap. exists (name, a). split; [done|].
    by apply elem_of_map_to_list.
Qed.

(** A partition that the node hands over. *)
Lemma moved_views n db ids j owner p (c c1 : cluster) db1 dbo1 db2 dbo2 m dbm :
  checked_parts n db ids c c1 → j ∉ ids → leaving db j = Some owner → n ≠ Name owner →
  nodes c !! n = Some db → nodes c1 !! n = Some db1 → nodes c1 !! Name owner = Some dbo1 →
  partitions db1 !! j = Some p → handed db1 dbo1 db2 dbo2 false j (map_to_list (p_m p)).*1 →
  nodes c !! m = Some dbm →
  ∃ dbm', nodes (with_node n db2 (with_node (Name owner) dbo2 c1)) !! m = Some dbm'
    ∧ same_node dbm dbm'
    ∧ ∀ bk j' name, view dbm' bk j' name
        = if decide (bk = false ∧ j' ∈ ids ++ [j]) then moved_view n db m dbm j' name
          else view dbm bk j' name.
Proof.
  intros Hck Hj Hl Hno Hn Hn1 Ho1 Hp Hh Hm. destruct (ck_nodes _ _ _ _ _ Hck m dbm Hm) as (dbm1 & Hm1 & Hs & Hv).
  assert (∀ bk j' name, (bk, j') ≠ (false, j) →
    (if decide (bk = false ∧ j' ∈ ids ++ [j]) then moved_view n db m dbm j' name
     else view dbm bk j' name) = view dbm1 bk j' name) as Hold.
  { intros bk j' name Hne. rewrite Hv. apply decide_ext. rewrite elem_of_app, list_elem_of_singleton.
    intuition congruence. }
  assert (∀ name, view dbm1 false j name = view dbm false j name) as Hvj.
  { intros name. rewrite Hv, decide_False; [done|tauto]. }
  destruct (ck_nodes _ _ _ _ _ Hck n db Hn) as (x & Hx & _ & Hv1). simplify_eq.
  assert (false = false ∧ j ∈ ids ++ [j]) as Hin by (split; [done|]; apply elem_of_app; right; by left).
  destruct (decide (m = n)) as [->|Hmn]; [|destruct (decide (m = Name owner)) as [->|Hmo]].
  - exists db2. simplify_eq. split; [apply with_node_lookup|]. split; [etrans; [done|apply Hh]|].
    intros bk j' name. rewrite (handed_sender _ _ _ _ _ _ _ _ _ Hp Hh).
    case_decide as E; [|by rewrite Hold]. injection E as -> ->.
    rewrite decide_True by done. unfold moved_view. by rewrite Hl, decide_True.
  - exists dbo2. simplify_eq. simpl. rewrite lookup_insert_ne, lookup_insert_eq by done.
    split; [done|]. split; [etrans; [done|apply Hh]|].
    intros bk j' name. rewrite (handed_receiver _ _ _ _ _ _ _ _ _ Hp Hh).
    case_decide as E; [|by rewrite Hold]. injection E as -> ->. rewrite decide_True by done.
    unfold moved_view. rewrite Hl, decide_False, decide_True by done.
    rewrite Hvj, Hv1, decide_False; [done|tauto].
  - exists dbm1. simpl. rewrite !lookup_insert_ne by done. split; [done|]. split; [done|].
    intros bk j' name. destruct (decide ((bk, j') = (false, j))) as [E|E]; [|by rewrite Hold].
    injection E as -> ->. rewrite decide_True by done.
    unfold moved_view. by rewrite Hl, !decide_False, Hvj by done.
Qed.

Lemma checked_moves n db ids j owner p (c c1 : cluster) db1 dbo1 db2 dbo2 :
  checked_parts n db ids c c1 → j ∉ ids → leaving db j = Some owner → n ≠ Name owner →
  nodes c !! n = Some db → is_Some (nodes c !! Name owner) →
  nodes c1 !! n = Some db1 → nodes c1 !! Name owner = Some dbo1 → partitions db1 !! j = Some p →
  handed db1 dbo1 db2 dbo2 false j (map_to_list (p_m p)).*1 →
  checked_parts n db (ids ++ [j]) c (with_node n db2 (with_node (Name owner) dbo2 c1)).
Proof.
  intros Hck Hj Hl Hno Hn [dbo Ho] Hn1 Ho1 Hp Hh.
  pose proof Hck as [Hmv (db1' & Hn1' & Hself) _ Hdom Hsg]. simplify_eq.
  assert (∀ j', j' ∉ ids ++ [j] → (j' ∉ ids) ∧ j' ≠ j) as Hsplit.
  { intros j'. rewrite not_elem_of_app, list_elem_of_singleton. done. }
  split.
  - eapply moving_with_node; [eapply moving_with_node; [done|exact Ho1|apply Hh|apply Hh]| |apply Hh|apply Hh].
    simpl. by rewrite lookup_insert_ne.
  - exists db2. split; [apply with_node_lookup|]. intros bk j' Hj'.
    assert (bk = false → j' ∉ ids) as Hin by (intros Hb; by apply Hsplit, Hj').
    assert ((bk, j') ≠ (false, j)) as Hne by (intros [= -> ->]; by apply (Hsplit j); [apply Hj'|]).
    destruct (Hself bk j' Hin) as [Ht Hh1]. rewrite (hd_part _ _ _ _ _ _ _ Hh) by done.
    split; [done|]. intros name a Hr. rewrite <-(Hh1 name a Hr).
    apply (hd_heap _ _ _ _ _ _ _ Hh bk j' name). rewrite (hd_ref _ _ _ _ _ _ _ Hh).
    rewrite decide_False by tauto. unfold ref in *. by rewrite Ht.
  - intros m dbm Hm. by eapply moved_views.
  - intros m. simpl. intros [x [[<- _]|[_ [[<- _]|[_ Hx]]%lookup_insert_Some]]%lookup_insert_Some]; [done|done|].
    apply Hdom. by exists x.
  - intros m dbm x Hm. simpl. pose proof (hd_single _ _ _ _ _ _ _ Hh) as [H1 H2].
    intros [[<- <-]|[_ [[<- <-]|[_ Hx]]%lookup_insert_Some]]%lookup_insert_Some.
    + etrans; [by apply (Hsg n)|done].
    + etrans; [by apply (Hsg (Name owner))|done].
    + by apply (Hsg m).
Qed.

(** The new owners are up and can take what they get. *)
Definition can_leave (n : list byte) (db : Olric) (c : cluster) (j : Z) : Prop :=
  ∀ owner, leaving db j = Some owner →
  n ≠ Name owner ∧ is_Some (nodes c !! Name owner)
  ∧ ∀ name a d, ref db false j name = Some a → heap db !! a = Some d →
    sendable (MaxValueSize cfg) false j name d.

(** The condition and the guards of [fsck], by the host that gets the partition. *)
Lemma fsck_guards sv n (c : cluster) db p j :
  partitions db !! j = Some p → p_owners p ≠ [] →
  (if p_count p =? 0 then mret tt else
   match rev (p_owners p) with
   | [] => panic
   | primaryOwner :: previous =>
       if existsb (fun node => hostCmp node (this db)) previous
       then moveDMaps sv n p primaryOwner else mret tt
   end : M unit) c
  = match leaving db j with Some owner => moveDMaps sv n p owner c | None => Return (tt, c) end.
Proof.
  intros Hp Hne. unfold leaving. rewrite Hp. destruct (p_count p =? 0); [done|].
  destruct (rev (p_owners p)) as [|o os] eqn:E.
  - apply (f_equal (rev (A := host))) in E. by rewrite rev_involutive in E.
  - by destruct (existsb _ os).
Qed.

Lemma fsck_part_spec fuel n db (c c1 : cluster) ids j db1 p :
  nodes c !! n = Some db → checked_parts n db ids c c1 → j ∉ ids → 0 ≤ j < PartitionCount cfg →
  can_leave n db c j → nodes c1 !! n = Some db1 → partitions db1 !! j = Some p →
  ∃ c2, match leaving db1 j with
        | Some owner => moveDMaps (serve (Datatypes.S fuel)) n p owner c1
        | None => Return (tt, c1)
        end = Return (tt, c2) ∧ checked_parts n db (ids ++ [j]) c c2.
Proof.
  intros Hn Hck Hj Hjr Hl Hn1 Hp. pose proof (ck_moving _ _ _ _ _ Hck) as Hmv.
  destruct (ck_self _ _ _ _ _ Hck) as (x & Hx & Hself).
  destruct (ck_nodes _ _ _ _ _ Hck n db Hn) as (x' & Hx' & Hs1 & _). simplify_eq.
  destruct (mv_node _ Hmv _ _ Hn1) as [Hwf1 Hcfg1].
  destruct (mv_owned _ Hmv _ _ j Hn1 Hjr) as (os & Hos & Hosne).
  destruct (Hself false j) as [Ht Hheap]; [done|]. simpl in Ht.
  assert (leaving db1 j = leaving db j) as -> by (unfold leaving; by rewrite Ht, (same_this _ _ Hs1)).
  destruct (leaving db j) as [owner|] eqn:El; last first.
  { exists c1. split; [done|by apply checked_stays]. }
  destruct (Hl owner El) as (Hno & [dbo Ho] & Hsd).
  destruct (ck_nodes _ _ _ _ _ Hck _ _ Ho) as (dbo1 & Ho1 & Hso & _).
  destruct (mv_node _ Hmv _ _ Ho1) as [Hwfo1 Hcfgo1].
  destruct (moveDMaps_spec fuel n owner j c1 db1 dbo1 p) as (db2 & dbo2 & Hrun & Hh); try done.
  - apply Hmv.
  - rewrite Hcfg1. apply Hmv.
  - by rewrite Hcfg1.
  - by rewrite Hcfgo1.
  - by apply (mv_owned _ Hmv _ _ j Ho1).
  - intros name a d Hra Hd. assert (ref db false j name = Some a) as Hra'
      by (unfold ref in *; simpl in *; by rewrite <-Ht).
    rewrite Hcfgo1. apply (Hsd name a d); [done|]. by rewrite <-(Hheap name a).
  - eexists. split; [done|]. by eapply checked_moves.
Qed.

Lemma fsck_primary_spec fuel n db (c : cluster) ids : ∀ done c1,
  nodes c !! n = Some db → checked_parts n db done c c1 → NoDup (done ++ ids) →
  (∀ j, j ∈ ids → 0 ≤ j < PartitionCount cfg) → (∀ j, j ∈ ids → can_leave n db c j) →
  ∃ c2, fsck_primary (serve (Datatypes.S fuel)) n ids c1 = Return (tt, c2)
    ∧ checked_parts n db (done ++ ids) c c2.
Proof.
  induction ids as [|j ids IH]; intros done c1 Hn Hck Hnd Hr Hl.
  { exists c1. split; [done|]. by rewrite app_nil_r. }
  assert (j ∉ done) as Hj.
  { intros Hin. apply NoDup_app in Hnd as (_ & Hnd & _). apply (Hnd j Hin). by left. }
  assert (0 ≤ j < PartitionCount cfg) as Hjr by (apply Hr; by left).
  destruct (ck_self _ _ _ _ _ Hck) as (db1 & Hn1 & _).
  destruct (mv_owned _ (ck_moving _ _ _ _ _ Hck) _ _ j Hn1 Hjr) as (os & Hos & Hne).
  simpl in Hos. destruct (partitions db1 !! j) as [p|] eqn:Hp; [|done]. injection Hos as <-.
  destruct (fsck_part_spec fuel n db c c1 done j db1 p) as (c2 & Hrun & Hck2); try done.
  { apply Hl. by left. }
  destruct (IH (done ++ [j]) c2) as (c3 & Hrun3 & Hck3); try done.
  - by rewrite <-app_assoc.
  - intros j' Hj'. apply Hr. by right.
  - intros j' Hj'. apply Hl. by right.
  - exists c3. split; [|by rewrite <-app_assoc in Hck3].
    cbn [fsck_primary]. at_node Hn1.
    rewrite (bind_run _ _ _ p c1) by (apply lift_run; unfold part_at; simpl; by rewrite Hp).
    rewrite (bind_run _ _ _ tt c2) by (by rewrite (fsck_guards _ n c1 db1 p j Hp Hne)).
    exact Hrun3.
Qed.

(** No backup of the node has to move. *)
Definition idle_backup (backupCount : Z) (db : Olric) : Prop :=
  ∀ j q, backups db !! j = Some q → p_count q = 0 ∨ len (p_owners q) ≤ backupCount.

Lemma fsck_backup_idle sv n backupCount (c : cluster) db ids :
  nodes c !! n = Some db → idle_backup backupCount db →
  Forall (fun j => is_Some (backups db !! j)) ids →
  fsck_backup sv n backupCount ids c = Return (tt, c).
Proof.
  intros Hn Hidle Hids. induction Hids as [|j ids [q Hq] _ IH]; [done|].
  cbn [fsck_backup]. at_node Hn.
  rewrite (bind_run _ _ _ q c) by (apply lift_run; unfold part_at; simpl; by rewrite Hq).
  assert ((p_count q =? 0) || (len (p_owners q) <=? backupCount) = true) as ->.
  { apply orb_true_iff. rewrite Z.eqb_eq, Z.leb_le. by eapply Hidle. }
  cbn beta iota. by rewrite (bind_run _ _ _ tt c).
Qed.

Lemma elem_of_node_parts (db : Olric) j : j ∈ part_ids db ↔ 0 ≤ j < PartitionCount (config db).
Proof.
  unfold part_ids. rewrite list_elem_of_fmap. split.
  - intros (k & -> & Hk%elem_of_seq). lia.
  - intros Hj. exists (Z.to_nat j). split; [lia|]. apply elem_of_seq. lia.
Qed.

Lemma NoDup_node_parts (db : Olric) : NoDup (part_ids db).
Proof. apply NoDup_fmap_2; [intros ???; lia|apply NoDup_seq]. Qed.

Lemma fsck_spec fuel n db (c : cluster) :
  moving c → nodes c !! n = Some db →
  (∀ j, 0 ≤ j < PartitionCount cfg → can_leave n db c j) →
  idle_backup (calcMaxBackupCount (BackupCount cfg) (numMembers db)) db →
  ∃ c', fsck (serve (Datatypes.S fuel)) n c = Return (tt, c')
    ∧ checked_parts n db (part_ids db) c c'.
Proof.
  intros Hmv Hn Hl Hidle. destruct (mv_node _ Hmv _ _ Hn) as [Hwf Hcfg].
  assert (∀ j, j ∈ part_ids db → 0 ≤ j < PartitionCount cfg) as Hr.
  { intros j Hj%elem_of_node_parts. by rewrite Hcfg in Hj. }
  destruct (fsck_primary_spec fuel n db c (part_ids db) [] c Hn) as (c' & Hrun & Hck).
  { by apply checked_nothing. } { apply NoDup_node_parts. } { done. } { auto. }
  simpl in Hck. exists c'. split; [|done]. unfold fsck. at_node Hn. step Hrun. rewrite Hcfg.
  destruct (ck_self _ _ _ _ _ Hck) as (db' & Hn' & Hself).
  assert (∀ j, backups db' !! j = backups db !! j) as Hb by (intros j; by apply (Hself true j)).
  apply (fsck_backup_idle _ n _ c' db'); [done| |].
  - intros j q. rewrite Hb. apply Hidle.
  - apply Forall_forall. intros j Hj%elem_of_node_parts. rewrite Hb.
    destruct (wf_parts _ _ Hwf true j Hj) as (q & Hq & _). by exists q.
Qed.

(** C6: the check of a node moves its maps to their new owners. When [fsck] runs on a node
    of a cluster that keeps its bindings in memory only, no request is lost, no backup of
    the node has to move ([idle_backup]), and for every partition that the node has to
    hand over the new owner is up, no lock is held on its maps, no merge runs on them and
    each of them fits a message and has small entries ([can_leave]), then [fsck] returns;
    every such partition is then empty on the node, its bindings are on the new owner,
    where they join those that were there already, and a key that both have keeps the
    binding of the new owner; no other binding on any node has changed, and no backup. *)
Theorem fsck_hands_over fuel n db (c : cluster) :
  moving c → nodes c !! n = Some db →
  (∀ j, 0 ≤ j < PartitionCount cfg → can_leave n db c j) →
  idle_backup (calcMaxBackupCount (BackupCount cfg) (numMembers db)) db →
  ∃ c', fsck (serve (Datatypes.S fuel)) n c = Return (tt, c') ∧ moving c'
    ∧ ∀ m dbm, nodes c !! m = Some dbm → ∃ dbm', nodes c' !! m = Some dbm'
      ∧ same_node dbm dbm'
      ∧ ∀ j name, 0 ≤ j < PartitionCount cfg →
        view dbm' true j name = view dbm true j name
        ∧ view dbm' false j name
          = match leaving db j with
            | Some owner =>
                if decide (m = n) then ∅
                else if decide (m = Name owner) then view dbm false j name ∪ view db false j name
                else view dbm false j name
            | None => view dbm false j name
            end.
Proof.
  intros Hmv Hn Hl Hidle. destruct (fsck_spec fuel n db c Hmv Hn Hl Hidle) as (c' & Hrun & Hck).
  exists c'. split; [done|]. split; [apply Hck|]. intros m dbm Hm.
  destruct (ck_nodes _ _ _ _ _ Hck m dbm Hm) as (dbm' & Hm' & Hs & Hv).
  exists dbm'. split; [done|]. split; [done|]. intros j name Hj. rewrite !Hv. split.
  - rewrite decide_False; [done|]. by intros [? _].
  - rewrite decide_True; [done|]. split; [done|]. apply elem_of_node_parts.
    by rewrite (proj2 (mv_node _ Hmv _ _ Hn)).
Qed.
End move.
End movespec.
