(* ===== verification/DestroySpec.v ===== *)
(** Destroying a map: what [Destroy] leaves on the members of the cluster. *)

From S2P Require Export MoveSpec.

Module destroyspec.
Export movespec.

Section destroy.
Context {S N : Type} `{!KV S} `{!KVLaws S} `{!Snap S N} `{!Env}.
Context `{!BirthdateSort} `{!Codec NodeMetadata} `{!RangeOrder (list byte)} `{!Codec (gmap Z route)}.
Context `{!Codec dmapbox}.
Context {V : Type} `{!Serializer V}.
Abbreviation M := (olric.M S N).
Abbreviation Olric := (olric.Olric S N).
Abbreviation cluster := (olric.cluster S N).
Abbreviation serve := (dispatch.serve (S := S) (N := N) (V := V)).

(** ** One node *)

(** The map [name] is gone from the partitions in [done]. *)
Record purged (name : list byte) (db db' : Olric) (done : list (bool * Z)) : Prop := {
  pg_wf : wf_node None db';
  pg_same : same_node db db';
  pg_ref bk j name' : ref db' bk j name'
    = if decide ((bk, j) ∈ done ∧ name' = name) then None else ref db bk j name';
  pg_heap bk j name' a : ref db' bk j name' = Some a → heap db' !! a = heap db !! a
}.

Lemma purged_nothing name db : wf_node None db → purged name db db [].
Proof. by split. Qed.

Lemma purged_view name db db' done bk j name' :
  purged name db db' done →
  view db' bk j name' = if decide ((bk, j) ∈ done ∧ name' = name) then ∅ else view db bk j name'.
Proof.
  intros Hp. unfold view. destruct (ref db' bk j name') as [a|] eqn:Hr.
  - rewrite (pg_heap _ _ _ _ Hp _ _ _ _ Hr). rewrite (pg_ref _ _ _ _ Hp) in Hr.
    case_decide; [done|]. by rewrite Hr.
  - rewrite (pg_ref _ _ _ _ Hp) in Hr. case_decide; [done|]. by rewrite Hr.
Qed.

(** A partition that does not hold the map, and one from which it has been removed. *)
Lemma purged_absent name db db' done bk j :
  purged name db db' done → ref db' bk j name = None → purged name db db' (done ++ [(bk, j)]).
Proof.
  intros [Hwf Hs Href Hheap] Hr. split; [done|done| |done]. intros bk' j' name'.
  rewrite Href. destruct (decide ((bk', j') ∈ done ∧ name' = name)) as [[Hin ->]|Hno].
  - rewrite decide_True; [done|]. split; [|done]. apply elem_of_app. by left.
  - case_decide as Hd; [|done]. destruct Hd as [[Hin|E%list_elem_of_singleton]%elem_of_app ->]; [tauto|].
    injection E as -> ->. rewrite Href in Hr. by rewrite decide_False in Hr by tauto.
Qed.

Lemma purged_sent name db db1 db2 done bk j a :
  purged name db db1 done → ref db1 bk j name = Some a → sent db1 db2 bk j name a →
  purged name db db2 (done ++ [(bk, j)]).
Proof.
  intros [Hwf Hs Href Hheap] Hr [Hwf2 Hs2 Href2 Hheap2 _]. split.
  - done.
  - by etrans.
  - intros bk' j' name'. rewrite Href2, Href.
    destruct (decide ((bk', j', name') = (bk, j, name))) as [E|E].
    + injection E as -> -> ->. rewrite decide_True; [done|]. split; [|done].
      apply elem_of_app. right. by left.
    + apply decide_ext. rewrite elem_of_app, list_elem_of_singleton. intuition congruence.
  - intros bk' j' name' b Hb. rewrite Href2 in Hb. case_decide as Hd; [done|].
    rewrite Hheap2; [by eapply Hheap|]. intros ->. apply Hd.
    by destruct (wf_inj _ _ Hwf _ _ _ _ _ _ _ Hr Hb) as (-> & -> & ->).
Qed.

(** The storages of the map can be closed. *)
Definition closable (name : list byte) (db : Olric) : Prop :=
  ∀ bk j a d, ref db bk j name = Some a → heap db !! a = Some d →
  ∃ s, kv_close (dm_str d) = Return (s, None).

Lemma destroy_spec n bk j name (c : cluster) db db1 done :
  nodes c !! n = Some db1 → purged name db db1 done → closable name db →
  0 ≤ j < PartitionCount (config db) →
  ∃ db2, destroy n bk j name c = Return (None, with_node n db2 c)
    ∧ purged name db db2 (done ++ [(bk, j)]).
Proof.
  intros Hn Hpg Hcl Hj. pose proof (pg_wf _ _ _ _ Hpg) as Hwf.
  rewrite <-(same_config _ _ (pg_same _ _ _ _ Hpg)) in Hj.
  destruct (wf_parts _ _ Hwf bk j Hj) as (p & Hp & Hid & _).
  assert (ref db1 bk j name = p_m p !! name) as Hr by (unfold ref; by rewrite Hp).
  unfold destroy. destruct (p_m p !! name) as [a|] eqn:Hm; last first.
  { exists db1. rewrite with_node_id by done. split; [|by apply purged_absent].
    at_node Hn. rewrite (bind_run _ _ _ p c) by (apply lift_run; unfold part_at; by rewrite Hp).
    by rewrite Hm. }
  destruct (wf_ref _ _ Hwf _ _ _ _ Hr) as (d & Hd & _).
  assert (∃ s, kv_close (dm_str d) = Return (s, None)) as [s Hclose].
  { pose proof (pg_heap _ _ _ _ Hpg _ _ _ _ Hr) as Hh. rewrite (pg_ref _ _ _ _ Hpg) in Hr.
    case_decide; [done|]. apply (Hcl bk j a); [done|]. by rewrite <-Hh. }
  set (db2 := set_dm a (with_str s d) db1). set (p' := set_m (delete name (p_m p)) p).
  exists (given_away bk p' a (with_str s d) db1). split.
  - at_node Hn. rewrite (bind_run _ _ _ p c) by (apply lift_run; unfold part_at; by rewrite Hp).
    rewrite Hm. step (str_call_run _ _ _ _ _ _ _ _ Hn Hd Hclose). fold db2. cbn beta iota.
    rewrite (wf_mode _ _ Hwf). cbn [Z.eqb OpInMemory OpInMemoryWithSnapshot].
    step (ret_run None (with_node n db2 c)). cbn beta iota. unfold m_delete.
    rewrite (bind_run _ _ _ tt (with_node n (given_away bk p' a (with_str s d) db1) c)); [done|].
    at_node (with_node_lookup n db2 c).
    rewrite (bind_run _ _ _ p (with_node n db2 c)).
    2:{ apply lift_run. unfold part_at, db2. rewrite table_of_set_dm. by rewrite Hp. }
    rewrite put_node_run, with_node_twice. by destruct bk.
  - eapply purged_sent; [done|done|]. rewrite <-Hid. rewrite <-Hid in Hp. by apply sent_given_away.
Qed.

(** The partitions the handler goes through. *)
Definition purge_list (backups : bool) (ids : list Z) : list (bool * Z) :=
  j ← ids; (false, j) :: if backups then [(true, j)] else [].

Lemma destroy_parts_spec n name (c : cluster) db ids : ∀ db1 done,
  nodes c !! n = Some db1 → purged name db db1 done → closable name db →
  Forall (fun j => 0 ≤ j < PartitionCount (config db)) ids →
  ∃ db2, destroy_parts n name ids c = Return (None, with_node n db2 c)
    ∧ purged name db db2 (done ++ purge_list (negb (BackupCount (config db) =? 0)) ids).
Proof.
  revert c. induction ids as [|j ids IH]; intros c db1 done Hn Hpg Hcl Hids.
  { exists db1. rewrite with_node_id by done. by rewrite app_nil_r. }
  apply Forall_cons in Hids as [Hj Hids].
  destruct (destroy_spec n false j name c db db1 done Hn Hpg Hcl Hj) as (db2 & Hrun & Hpg2).
  pose proof (with_node_lookup n db2 c) as Hn2. cbn [destroy_parts]. step Hrun. cbn beta iota.
  rewrite (bind_run _ _ _ _ _ (get_node_run _ _ _ Hn2)).
  rewrite (same_config _ _ (pg_same _ _ _ _ Hpg2)).
  destruct (negb (BackupCount (config db) =? 0)) eqn:Hb.
  - destruct (destroy_spec n true j name _ db db2 _ Hn2 Hpg2 Hcl Hj) as (db3 & Hrun3 & Hpg3).
    step Hrun3. rewrite with_node_twice. cbn beta iota.
    destruct (IH (with_node n db3 c) db3 _ (with_node_lookup n db3 c) Hpg3 Hcl Hids) as (db4 & Hrun4 & Hpg4).
    exists db4. rewrite with_node_twice in Hrun4. split; [exact Hrun4|].
    cbn [purge_list mbind list_bind]. by rewrite <-!app_assoc in Hpg4.
  - step (ret_run None (with_node n db2 c)). cbn beta iota.
    destruct (IH (with_node n db2 c) db2 _ Hn2 Hpg2 Hcl Hids) as (db4 & Hrun4 & Hpg4).
    exists db4. rewrite with_node_twice in Hrun4. split; [exact Hrun4|].
    cbn [purge_list mbind list_bind]. by rewrite <-!app_assoc in Hpg4.
Qed.

Lemma elem_of_purge_list backups ids bk j :
  (bk, j) ∈ purge_list backups ids ↔ j ∈ ids ∧ (bk = false ∨ backups = true).
Proof.
  unfold purge_list. rewrite list_elem_of_bind. split.
  - intros (k & [E|E]%elem_of_cons & Hk).
    + injection E as -> ->. tauto.
    + destruct backups; [|by apply elem_of_nil in E]. apply list_elem_of_singleton in E.
      injection E as -> ->. tauto.
  - intros [Hj Hb]. exists j. split; [|done]. apply elem_of_cons. destruct bk; [|by left].
    right. destruct Hb as [?| ->]; [done|by left].
Qed.

(** ** The cluster *)
Context (cfg : Config).

(** The bindings of a node when the map has been destroyed on it. *)
Definition destroyed (name : list byte) (dbm dbm' : Olric) : Prop :=
  same_node dbm dbm' ∧ wf_node None dbm'
  ∧ ∀ bk j name', 0 ≤ j < PartitionCount cfg →
    view dbm' bk j name'
    = if decide (name' = name ∧ (bk = false ∨ BackupCount cfg ≠ 0)) then ∅ else view dbm bk j name'.

Lemma destroy_handler fuel m name (c : cluster) dbm :
  nodes c !! m = Some dbm → wf_node None dbm → config dbm = cfg → closable name dbm →
  let req := incoming protocol.OpDestroyDMap None None name [] [] in
  ∃ dbm', serve (Datatypes.S fuel) m req c = Return (Some (protocol.Success req), with_node m dbm' c)
    ∧ destroyed name dbm dbm'.
Proof.
  intros Hm Hwf Hcfg Hcl req.
  destruct (destroy_parts_spec m name c dbm (part_ids dbm) dbm [] Hm (purged_nothing name dbm Hwf) Hcl)
    as (dbm' & Hrun & Hpg).
  { apply Forall_forall. intros j Hj. by apply elem_of_node_parts. }
  exists dbm'. split.
  - apply (serve_op _ _ _ destroyDMapOperation); [done|]. unfold destroyDMapOperation.
    at_node Hm. by step Hrun.
  - split; [apply Hpg|]. split; [apply Hpg|]. intros bk j name' Hj.
    rewrite (purged_view _ _ _ _ _ _ _ Hpg). apply decide_ext. simpl.
    rewrite elem_of_purge_list, elem_of_node_parts, Hcfg, negb_true_iff, Z.eqb_neq. tauto.
Qed.

(** The nodes at [ms] have destroyed the map. *)
Record destroyed_on (name : list byte) (ms : list (list byte)) (c c' : cluster) : Prop := {
  dd_net : net c' = net c;
  dd_node m dbm : nodes c !! m = Some dbm → ∃ dbm', nodes c' !! m = Some dbm'
    ∧ if decide (m ∈ ms) then destroyed name dbm dbm' else dbm' = dbm
}.

Lemma destroy_loop_spec fuel n name mems : ∀ (c : cluster) werr,
  net c = [] → is_Some (nodes c !! n) → fits (MaxValueSize cfg) name [] [] →
  NoDup (map Name mems) →
  (∀ m dbm, nodes c !! m = Some dbm → wf_node None dbm ∧ config dbm = cfg) →
  (∀ h, h ∈ mems → ∃ dbm, nodes c !! Name h = Some dbm ∧ closable name dbm) →
  ∃ c', destroy_loop (serve (Datatypes.S fuel)) n name mems werr c = Return (werr, c')
    ∧ destroyed_on name (map Name mems) c c'.
Proof.
  induction mems as [|h mems IH]; intros c werr Hnet Hn Hfit Hnd Hnode Hup.
  { exists c. split; [done|]. split; [done|]. intros m dbm Hm. by exists dbm. }
  cbn [map] in Hnd. apply NoDup_cons in Hnd as [Hnew Hnd].
  destruct (Hup h) as (dbh & Hh & Hcl); [by left|]. destruct (Hnode _ _ Hh) as [Hwf Hcfg].
  destruct (destroy_handler fuel (Name h) name c dbh Hh Hwf Hcfg Hcl) as (dbh' & Hserve & Hd).
  set (c1 := with_node (Name h) dbh' c). set (req := incoming protocol.OpDestroyDMap None None name [] []) in *.
  assert (∀ m dbm, nodes c1 !! m = Some dbm → wf_node None dbm ∧ config dbm = cfg) as Hnode1.
  { intros m dbm. simpl. intros [[<- <-]|[_ Hm]]%lookup_insert_Some; [|by apply (Hnode m)].
    destruct Hd as (Hs & Hw & _). split; [done|]. by rewrite (same_config _ _ Hs). }
  assert (∃ dbn, nodes c1 !! n = Some dbn) as [dbn Hn1].
  { simpl. destruct (decide (n = Name h)) as [->|Hne]; [rewrite lookup_insert_eq; by eexists|].
    by rewrite lookup_insert_ne. }
  destruct Hn as [dbn0 Hn0]. destruct (Hnode1 _ _ Hn1) as [_ Hcfgn].
  pose proof (fits_key cfg name [] Hfit) as Hmax.
  destruct (IH c1 werr) as (c2 & Hrun & Hd2); try done.
  { intros h' Hin. destruct (Hup h') as (dbm & Hm & Hc); [by right|]. exists dbm. split; [|done].
    simpl. rewrite lookup_insert_ne; [done|]. intros E. apply Hnew. rewrite E. by apply list_elem_of_fmap_2. }
  exists c2. split.
  - cbn [destroy_loop].
    rewrite (bind_run _ _ _ (check_status (protocol.written (protocol.Success req))) c1); last first.
    { apply (requestTo_run _ n (Name h) _ None None name [] [] c c1 dbn0 dbh dbn); try done.
      - by rewrite Hcfg.
      - rewrite Hcfgn. by apply success_ok. }
    by destruct werr.
  - destruct Hd2 as [Hnet2 Hnodes2]. split; [done|]. intros m dbm Hm. cbn [map].
    destruct (decide (m = Name h)) as [->|Hne].
    + simplify_eq. destruct (Hnodes2 (Name h) dbh') as (x & Hx & Hxd); [apply with_node_lookup|].
      rewrite decide_False in Hxd by done. subst x. exists dbh'. split; [done|].
      rewrite decide_True by by left. done.
    + destruct (Hnodes2 m dbm) as (x & Hx & Hxd); [simpl; by rewrite lookup_insert_ne|].
      exists x. split; [done|]. destruct (decide (m ∈ map Name mems)).
      * rewrite decide_True by by right. done.
      * rewrite decide_False; [done|]. by rewrite not_elem_of_cons.
Qed.

(** C7: [Destroy] on a bootstrapped node of a cluster that keeps its bindings in memory
    only, with every member up, under a name of its own, with storages of the map that can
    be closed, and with no request lost, returns without an error and removes the map from
    the partitions of every member, and from their backups when the cluster keeps any; no
    binding of another map on any node has changed. *)
Theorem Destroy_removes_map fuel n db (c : cluster) name :
  net c = [] → nodes c !! n = Some db → bcx db = BootCanceled →
  fits (MaxValueSize cfg) name [] [] → NoDup (map Name (getMembers db)) →
  (∀ m dbm, nodes c !! m = Some dbm → wf_node None dbm ∧ config dbm = cfg) →
  (∀ h, h ∈ getMembers db → ∃ dbm, nodes c !! Name h = Some dbm ∧ closable name dbm) →
  ∃ c', DMap_Destroy (serve (Datatypes.S fuel)) n name c = Return (None, c')
    ∧ ∀ m dbm, nodes c !! m = Some dbm → ∃ dbm', nodes c' !! m = Some dbm'
      ∧ ∀ bk j name', 0 ≤ j < PartitionCount cfg →
        view dbm' bk j name'
        = if decide (name' = name ∧ m ∈ map Name (getMembers db)
                     ∧ (bk = false ∨ BackupCount cfg ≠ 0))
          then ∅ else view dbm bk j name'.
Proof.
  intros Hnet Hn Hb Hfit Hnd Hnode Hup.
  destruct (destroy_loop_spec fuel n name (getMembers db) c None Hnet) as (c' & Hrun & [_ Hd]);
    [by eexists|done..|].
  exists c'. split.
  - unfold DMap_Destroy, destroyDMap. at_node Hn.
    rewrite (bind_run _ _ _ false c); [exact Hrun|].
    apply lift_run. unfold await_bootstrap. by rewrite Hb.
  - intros m dbm Hm. destruct (Hd m dbm Hm) as (dbm' & Hm' & Hx). exists dbm'. split; [done|].
    intros bk j name' Hj. case_decide as Hin.
    + destruct Hx as (_ & _ & ->); [|done]. apply decide_ext. tauto.
    + subst dbm'. rewrite decide_False; [done|tauto].
Qed.
End destroy.
End destroyspec.
