(* ===== verification/TransitSpec.v ===== *)
(** Reading while partitions move: a cluster whose partitions have previous owners, and what
    a get answers before and after [fsck] has moved the maps. *)

From S2P Require Export MoveSpec.

Module transit.
Export movespec.

Section transit.
Context {S N : Type} `{!KV S} `{!KVLaws S} `{!Snap S N} `{!Env}.
Context `{!BirthdateSort} `{!Codec NodeMetadata} `{!RangeOrder (list byte)} `{!Codec (gmap Z route)}.
Context `{!Codec dmapbox}.
Context {V : Type} `{!Serializer V}.
Abbreviation M := (olric.M S N).
Abbreviation Olric := (olric.Olric S N).
Abbreviation cluster := (olric.cluster S N).
Abbreviation serve := (dispatch.serve (S := S) (N := N) (V := V)).
Context (cfg : Config) (prevs : Z → list host) (owner : Z → host) (now : Z).
Abbreviation pid := (cspec.pid cfg).
Abbreviation value_fits := (cspec.value_fits cfg).

(** Every node knows the same previous owners and the same owner of every partition; there
    are no backups, and the clocks agree. *)
Record in_transit (c : cluster) : Prop := {
  tr_net : net c = [];
  tr_node n db : nodes c !! n = Some db →
    wf_node None db ∧ config db = cfg ∧ bcx db = BootCanceled ∧ Name (this db) = n
    ∧ currentUnixNano db = now;
  tr_owners n db i : nodes c !! n = Some db → 0 ≤ i < PartitionCount cfg →
    p_owners <$> partitions db !! i = Some (prevs i ++ [owner i])
    ∧ p_owners <$> backups db !! i = Some [];
  tr_up i : 0 ≤ i < PartitionCount cfg →
    ∃ db, nodes c !! Name (owner i) = Some db ∧ this db = owner i;
  tr_prev i b : 0 ≤ i < PartitionCount cfg → b ∈ prevs i → is_Some (nodes c !! Name b)
}.

(** Nodes that keep all but their maps stay in transit. *)
Lemma in_transit_same c c' :
  in_transit c → net c' = [] →
  (∀ m db', nodes c' !! m = Some db' → ∃ db, nodes c !! m = Some db ∧ same_node db db' ∧ wf_node None db') →
  (∀ m, is_Some (nodes c !! m) → is_Some (nodes c' !! m)) → in_transit c'.
Proof.
  intros [Hnet Hnode Hown Hup Hprev] Hnet' Hsame Hdom. split; [done|..].
  - intros n db' (db & Hn & Hs & Hwf)%Hsame. destruct (Hnode n db Hn) as (_ & ? & ? & ? & ?).
    split; [done|]. destruct Hs. repeat split; congruence.
  - intros n db' i (db & Hn & Hs & Hwf)%Hsame Hi. destruct (Hown n db i Hn Hi) as [H1 H2].
    pose proof (same_owners _ _ Hs false i : p_owners <$> partitions db' !! i = _) as ->.
    by pose proof (same_owners _ _ Hs true i : p_owners <$> backups db' !! i = _) as ->.
  - intros i Hi. destruct (Hup i Hi) as (db & Hn & Ht).
    destruct (Hdom (Name (owner i))) as [db' Hn']; [by exists db|].
    destruct (Hsame _ _ Hn') as (db0 & Hn0 & Hs & _). simplify_eq. exists db'. split; [done|].
    by rewrite (same_this _ _ Hs).
  - intros i b Hi Hb. by apply Hdom, (Hprev i).
Qed.

Lemma in_transit_evolves c c' : in_transit c → evolves c c' → in_transit c'.
Proof.
  intros Hc [Hnet He]. apply (in_transit_same c); [done|rewrite Hnet; apply Hc| |].
  - intros m db' Hm'. specialize (He m). rewrite Hm' in He. destruct (nodes c !! m) as [db|] eqn:Hm; [|done].
    destruct He as (Hs & Hw & _). exists db. split; [done|]. split; [done|]. apply Hw.
    by apply (tr_node _ Hc m db).
  - intros m [db Hm]. specialize (He m). rewrite Hm in He. by destruct (nodes c' !! m).
Qed.

Lemma transit_pid n db (c : cluster) h :
  in_transit c → nodes c !! n = Some db → 0 ≤ pid h < PartitionCount cfg.
Proof.
  intros Hc Hn. destruct (tr_node _ Hc n db Hn) as (Hwf & Hcfg & _).
  pose proof (wf_pc _ _ Hwf) as Hpc. rewrite Hcfg in Hpc. by apply Z.mod_pos_bound.
Qed.

Lemma transit_owners n db (c : cluster) h :
  in_transit c → nodes c !! n = Some db →
  getPartitionOwners db h = Return (prevs (pid h) ++ [owner (pid h)])
  ∧ getBackupPartitionOwners db h = Return [].
Proof.
  intros Hc Hn. destruct (tr_node _ Hc n db Hn) as (Hwf & Hcfg & _).
  destruct (tr_owners _ Hc n db (pid h) Hn (transit_pid _ _ _ _ Hc Hn)) as [H1 H2].
  destruct (part_of_ok None db false h Hwf) as (p & Hp & Htp & _).
  destruct (part_of_ok None db true h Hwf) as (q & Hq & Htq & _).
  rewrite (pid_of_cfg cfg) in Htp, Htq by done. simpl in Htp, Htq. rewrite Htp in H1. rewrite Htq in H2.
  simpl in H1, H2. injection H1 as H1. injection H2 as H2.
  unfold getPartitionOwners, getBackupPartitionOwners. simpl in Hp, Hq. rewrite Hp, Hq. simpl.
  by rewrite H1, H2.
Qed.

Lemma transit_locate n db (c : cluster) name key :
  in_transit c → nodes c !! n = Some db →
  let h := getHKey name key in locateKey db name key = Return (inr (owner (pid h), h)).
Proof.
  intros Hc Hn h. destruct (tr_node _ Hc n db Hn) as (Hwf & Hcfg & Hb & _).
  destruct (transit_owners n db c h Hc Hn) as [Ho _]. unfold getPartitionOwners in Ho.
  unfold locateKey, locateHKey, await_bootstrap. fold h. rewrite Hb. simpl.
  destruct (getPartition db h) as [p| |]; try done. simpl in Ho |- *. injection Ho as ->.
  by rewrite last_snoc.
Qed.

Lemma transit_cmp n db (c : cluster) i :
  in_transit c → nodes c !! n = Some db → 0 ≤ i < PartitionCount cfg →
  hostCmp (owner i) (this db) = bool_decide (Name (owner i) = n).
Proof.
  intros Hc Hn Hi. destruct (tr_node _ Hc n db Hn) as (_ & _ & _ & Hname & _).
  destruct (tr_up _ Hc i Hi) as (dbo & Ho & Ht). unfold hostCmp. rewrite Hname.
  destruct (decide (Name (owner i) = n)) as [E|E].
  - rewrite E in Ho. simplify_eq. rewrite Ht, Z.eqb_refl. by rewrite bool_decide_eq_true_2.
  - by rewrite bool_decide_eq_false_2.
Qed.

(** ** Get *)

(** What a previous owner answers for a key, and what a get answers: the owner's binding
    decides; without one the latest previous owner that has the key does. *)
Definition prev_answer (c : cluster) (h : Z) (name : list byte) (b : host) : option (list byte) :=
  match nodes c !! Name b with
  | Some db => visible db (view db false (pid h) name !! h)
  | None => None
  end.

Definition transit_answer (c : cluster) (dbo : Olric) (h : Z) (name : list byte)
    : option (list byte) :=
  match view dbo false (pid h) name !! h with
  | Some v => visible dbo (Some v)
  | None => head (omap (prev_answer c h name) (rev (prevs (pid h))))
  end.

Lemma previous_snoc os (o : host) : previous (os ++ [o]) = rev os.
Proof.
  unfold previous. rewrite length_app, Nat.add_sub. by rewrite take_app_length.
Qed.

(** The loop over the previous owners, none of which changes. *)
Lemma get_prevs_spec fuel n db (c : cluster) name key bs :
  let h := getHKey name key in
  in_transit c → nodes c !! n = Some db → fits (MaxValueSize cfg) name key [] →
  Forall (fun b => is_Some (nodes c !! Name b) ∧ ∀ v, prev_answer c h name b = Some v → value_fits v) bs →
  get_loop (serve (Datatypes.S fuel)) n protocol.OpGetPrev name key bs c
  = Return (inr <$> head (omap (prev_answer c h name) bs), c).
Proof.
  intros h Hc Hn Hfit Hbs. destruct (tr_node _ Hc n db Hn) as (_ & Hcfg & _).
  induction Hbs as [|b bs [[dbb Hb] Hv] _ IH]; [done|].
  destruct (tr_node _ Hc _ dbb Hb) as (Hwfb & Hcfgb & _).
  set (req := incoming protocol.OpGetPrev None None name key []).
  assert (prev_answer c h name b = visible dbb (view dbb false (pid h) name !! h)) as Ha
    by (unfold prev_answer; by rewrite Hb).
  cbn [get_loop omap list_omap].
  rewrite (bind_run _ _ _ (check_status (protocol.written
    (found_response req (prev_answer c h name b)))) c); last first.
  { apply (requestTo_run _ n (Name b) _ None None name key [] c c db dbb db); try done.
    - apply Hc.
    - by rewrite Hcfgb.
    - apply (serve_op _ _ _ getPrevOperation); [done|].
      rewrite (getPrev_spec (Name b) dbb c req Hb Hwfb). rewrite Ha.
      change (getHKey (protocol.DMap req) (protocol.Key req)) with h.
      by rewrite (pid_of_cfg cfg).
    - rewrite Hcfg. apply (found_ok cfg); [by eapply fits_key|done|done]. }
  pose proof (found_status req (prev_answer c h name b)) as Hf.
  destruct (check_status _) as [err|resp].
  - destruct Hf as [-> ->]. rewrite decide_True by done. exact IH.
  - rewrite Hf. done.
Qed.

(** The values a get may have to carry fit a message. *)
Definition transit_fits (c : cluster) (dbo : Olric) (h : Z) (name : list byte) : Prop :=
  Forall (fun b => ∀ v, prev_answer c h name b = Some v → value_fits v) (prevs (pid h))
  ∧ ∀ v, transit_answer c dbo h name = Some v → value_fits v.

Lemma prev_answer_same c c' h name b :
  evolves c c' → same_views c c' → prev_answer c' h name b = prev_answer c h name b.
Proof.
  intros He Hv. unfold prev_answer. destruct (nodes c !! Name b) as [db|] eqn:Hb.
  - destruct (evolves_node _ _ _ _ He Hb) as (db' & Hb' & Hs & _). rewrite Hb'.
    rewrite (und_view _ _ (Hv _ _ _ Hb Hb')). destruct (view db false (pid h) name !! h); [|done].
    simpl. by rewrite (same_expired db db').
  - destruct He as [_ He]. specialize (He (Name b)). rewrite Hb in He.
    by destruct (nodes c' !! Name b).
Qed.

Lemma transit_getKeyVal fuel n db (c : cluster) name key :
  let h := getHKey name key in
  in_transit c → nodes c !! n = Some db → fits (MaxValueSize cfg) name key [] →
  transit_fits c db h name →
  ∃ c', getKeyVal (serve (Datatypes.S fuel)) n h name key c
        = Return (get_result (transit_answer c db h name), c')
    ∧ evolves c c' ∧ same_views c c'.
Proof.
  intros h Hc Hn Hfit [Hpfit _]. destruct (tr_node _ Hc n db Hn) as (Hwf & Hcfg & _).
  destruct (get_dmap_of_spec None n db c false name h Hn Hwf ltac:(done)) as (a & db1 & Hget & Hg).
  destruct (got_dmap _ _ _ _ _ _ _ Hg) as (d & Hd & _ & Hok & Hmap & _).
  rewrite (pid_of_cfg cfg) in Hmap by done. pose proof (got_same _ _ _ _ _ _ _ Hg) as Hs1.
  assert (evolves c (with_node n db1 c)) as Hev1
    by (eapply evolves_with_node; [done|done|apply Hg|apply Hg]).
  pose proof (same_views_got _ _ _ _ _ _ _ _ _ Hn Hg) as Hsv1.
  pose proof (in_transit_evolves _ _ Hc Hev1) as Hc1. pose proof (with_node_lookup n db1 c) as Hn1.
  exists (with_node n db1 c). split; [|done].
  unfold getKeyVal, getDMap. step Hget. cbn beta iota. step (get_dm_run _ _ _ _ _ Hn1 Hd).
  at_node Hn1. calc (kv_get_ok _ _ Hok).
  rewrite Hmap. unfold transit_answer. destruct (view db false (pid h) name !! h) as [v|].
  { simpl. rewrite (same_expired db db1) by done. by destruct (isKeyExpired db (vd_TTL v)). }
  destruct (transit_owners n db1 _ h Hc1 Hn1) as [Ho Hb]. calc Ho.
  rewrite decide_False by (by destruct (prevs (pid h))). rewrite previous_snoc.
  rewrite (bind_run _ _ _ _ _ (get_prevs_spec fuel n db1 _ name key (rev (prevs (pid h))) Hc1 Hn1 Hfit ltac:(
    apply Forall_rev, Forall_forall; intros b Hin; rewrite (prev_answer_same c) by done;
    split; [by apply (tr_prev _ Hc1 (pid h)); [by eapply transit_pid|]
           |by rewrite Forall_forall in Hpfit; apply Hpfit]))).
  fold h. rewrite (omap_pointwise _ (prev_answer c h name)) by (intros; by apply prev_answer_same).
  destruct (head _) as [v|]; [done|]. cbn [fmap option_fmap option_map]. cbn beta iota. at_node Hn1. calc Hb. done.
Qed.

Lemma transit_get fuel n dbn dbo (c : cluster) name key :
  let h := getHKey name key in
  in_transit c → nodes c !! n = Some dbn → nodes c !! Name (owner (pid h)) = Some dbo →
  fits (MaxValueSize cfg) name key [] → transit_fits c dbo h name →
  ∃ c', get (serve (Datatypes.S (Datatypes.S fuel))) n name key c
        = Return (get_result (transit_answer c dbo h name), c')
    ∧ evolves c c' ∧ same_views c c'.
Proof.
  intros h Hc Hn Ho Hfit Hgf. pose proof (transit_pid _ _ _ h Hc Hn) as Hpid.
  assert (∀ fuel, ∃ c', get (serve (Datatypes.S fuel)) (Name (owner (pid h))) name key c
        = Return (get_result (transit_answer c dbo h name), c') ∧ evolves c c' ∧ same_views c c') as Hat.
  { intros f. destruct (transit_getKeyVal f _ dbo c name key Hc Ho Hfit Hgf) as (c' & Hrun & Hrest).
    exists c'. split; [|done]. unfold get. at_node Ho. calc (transit_locate _ dbo c name key Hc Ho).
    cbn beta iota. fold h. rewrite (transit_cmp _ dbo c _ Hc Ho Hpid). by rewrite bool_decide_eq_true_2. }
  destruct (decide (Name (owner (pid h)) = n)) as [E|E]; [rewrite <-E; apply Hat|].
  destruct (tr_node _ Hc _ _ Hn) as (_ & Hcfg & _).
  destruct (tr_node _ Hc _ _ Ho) as (_ & Hcfgo & _).
  destruct (Hat fuel) as (c' & Hrun & Hev & Hsv). exists c'. split; [|done].
  unfold get. at_node Hn. calc (transit_locate n dbn c name key Hc Hn).
  cbn beta iota. fold h. rewrite (transit_cmp n dbn c _ Hc Hn Hpid).
  rewrite bool_decide_eq_false_2 by done. cbn [negb].
  set (req := incoming protocol.OpExGet None None name key []).
  destruct (evolves_node _ _ _ _ Hev Hn) as (dbn' & Hn' & Hs & _).
  rewrite (bind_run _ _ _ (check_status (protocol.written
    (found_response req (transit_answer c dbo h name)))) c'); last first.
  { apply (requestTo_run _ _ _ _ _ None name key [] c c' dbn dbo dbn'); try done.
    - apply Hc.
    - by rewrite Hcfgo.
    - apply (serve_op _ _ _ (exGetOperation (serve (Datatypes.S fuel)))); [done|].
      unfold exGetOperation. step Hrun. apply exGet_answer.
    - rewrite (same_config _ _ Hs), Hcfg. apply (found_ok cfg); [by eapply fits_key|done|apply Hgf]. }
  by destruct (transit_answer c dbo h name).
Qed.

(** ** Get and fsck *)
Lemma transit_moving c : in_transit c → 0 ≤ MaxValueSize cfg → moving cfg c.
Proof.
  intros Hc Hmax. split; [apply Hc|done| |].
  - intros m db Hm. by destruct (tr_node _ Hc m db Hm) as (? & ? & _).
  - intros m db j Hm Hj. destruct (tr_owners _ Hc m db j Hm Hj) as [-> _].
    eexists. split; [done|]. by destruct (prevs j).
Qed.

Lemma transit_idle n db (c : cluster) k :
  in_transit c → nodes c !! n = Some db → 0 ≤ k →
  (∀ j q, backups db !! j = Some q → 0 ≤ j < PartitionCount cfg) → idle_backup k db.
Proof.
  intros Hc Hn Hk Hdom j q Hq. right. destruct (tr_owners _ Hc n db j Hn (Hdom j q Hq)) as [_ Ho].
  rewrite Hq in Ho. injection Ho as ->. done.
Qed.

Lemma transit_checked n db ids (c c' : cluster) :
  in_transit c → checked_parts cfg n db ids c c' → in_transit c'.
Proof.
  intros Hc Hck. apply (in_transit_same c); [done|apply Hck| |].
  - intros m db' Hm'. destruct (ck_dom _ _ _ _ _ _ Hck m) as [dbm Hm]; [by exists db'|].
    destruct (ck_nodes _ _ _ _ _ _ Hck m dbm Hm) as (x & Hx & Hs & _). simplify_eq.
    exists dbm. split; [done|]. split; [done|]. by apply (mv_node _ _ (ck_moving _ _ _ _ _ _ Hck) m).
  - intros m [dbm Hm]. destruct (ck_nodes _ _ _ _ _ _ Hck m dbm Hm) as (x & Hx & _). by exists x.
Qed.

(** With one previous owner a get answers from the union of its bindings and the owner's. *)
Lemma transit_answer_union (c : cluster) n db dbo h name :
  in_transit c → nodes c !! n = Some db → nodes c !! Name (owner (pid h)) = Some dbo →
  prevs (pid h) = [this db] →
  transit_answer c dbo h name
  = visible dbo ((view dbo false (pid h) name ∪ view db false (pid h) name) !! h).
Proof.
  intros Hc Hn Ho Hp. unfold transit_answer. rewrite lookup_union, Hp.
  destruct (tr_node _ Hc n db Hn) as (_ & _ & _ & Hname & Ht1).
  destruct (tr_node _ Hc _ dbo Ho) as (_ & _ & _ & _ & Ht2).
  destruct (view dbo false (pid h) name !! h) as [v|] eqn:E.
  - by destruct (view db false (pid h) name !! h).
  - cbn [rev app omap list_omap]. unfold prev_answer. rewrite Hname, Hn.
    destruct (view db false (pid h) name !! h) as [w|]; [|done]. cbn [union_with option_union_with union option_union].
    simpl. assert (isKeyExpired dbo (vd_TTL w) = isKeyExpired db (vd_TTL w)) as ->.
    { unfold isKeyExpired. by rewrite Ht1, Ht2. }
    by destruct (isKeyExpired db (vd_TTL w)).
Qed.

Lemma transit_fits_union (c : cluster) n x y h name :
  let i := pid h in
  in_transit c → nodes c !! n = Some x → nodes c !! Name (owner i) = Some y → prevs i = [this x] →
  (∀ v, view x false i name !! h = Some v → value_fits (vd_Value v)) →
  (∀ v, view y false i name !! h = Some v → value_fits (vd_Value v)) →
  transit_fits c y h name.
Proof.
  intros i Hc Hx Hy Hp Hx1 Hy1. split.
  - fold i. rewrite Hp. constructor; [|done]. intros v. unfold prev_answer. fold i.
    destruct (tr_node _ Hc n x Hx) as (_ & _ & _ & -> & _). rewrite Hx.
    destruct (view x false i name !! h) as [w|] eqn:Ew; [|done]. simpl.
    destruct (isKeyExpired x (vd_TTL w)); [done|]. intros [= <-]. by apply Hx1.
  - intros v. rewrite (transit_answer_union c n x y h name Hc Hx Hy Hp). fold i.
    destruct ((view y false i name ∪ view x false i name) !! h) as [w|] eqn:Ew; [|done]. simpl.
    destruct (isKeyExpired y (vd_TTL w)); [done|]. intros [= <-].
    apply lookup_union_Some_raw in Ew as [Ew|[_ Ew]]; [by apply Hy1|by apply Hx1].
Qed.

(** Rebalancing is invisible to readers: while a partition has a previous owner, a get on
    any node answers from the bindings of both owners, those of the new one first; [fsck] on
    the previous owner moves them, and a get that follows answers the same. *)
Theorem Get_survives_rebalancing fuel n m db dbm dbo (c : cluster) name key :
  let h := getHKey name key in
  let i := pid h in
  in_transit c → nodes c !! n = Some db → nodes c !! m = Some dbm →
  nodes c !! Name (owner i) = Some dbo → prevs i = [this db] →
  leaving db i = Some (owner i) →
  (∀ j, 0 ≤ j < PartitionCount cfg → can_leave cfg n db c j) →
  idle_backup (calcMaxBackupCount (BackupCount cfg) (numMembers db)) db →
  fits (MaxValueSize cfg) name key [] →
  (∀ v, view db false i name !! h = Some v → value_fits (vd_Value v)) →
  (∀ v, view dbo false i name !! h = Some v → value_fits (vd_Value v)) →
  let r := get_result (visible dbo ((view dbo false i name ∪ view db false i name) !! h)) in
  (∃ c1, get (serve (Datatypes.S (Datatypes.S fuel))) m name key c = Return (r, c1))
  ∧ ∃ c', fsck (serve (Datatypes.S fuel)) n c = Return (tt, c')
    ∧ ∃ c2, get (serve (Datatypes.S (Datatypes.S fuel))) m name key c' = Return (r, c2).
Proof.
  intros h i Hc Hn Hm Ho Hp Hl Hcan Hidle Hfit Hv1 Hv2 r.
  split.
  { destruct (transit_get fuel m dbm dbo c name key Hc Hm Ho Hfit) as (c1 & Hrun & _).
    - by apply (transit_fits_union c n db dbo).
    - exists c1. rewrite Hrun. fold h. by rewrite (transit_answer_union c n db dbo h name Hc Hn Ho Hp). }
  pose proof (fits_key cfg name key Hfit) as Hmax.
  destruct (fsck_spec cfg fuel n db c (transit_moving c Hc Hmax) Hn Hcan Hidle) as (c' & Hrun & Hck).
  exists c'. split; [done|].
  pose proof (transit_checked _ _ _ _ _ Hc Hck) as Hc'.
  destruct (ck_nodes _ _ _ _ _ _ Hck n db Hn) as (x & Hx & Hsx & Hvx).
  destruct (ck_nodes _ _ _ _ _ _ Hck m dbm Hm) as (z & Hz & _).
  destruct (ck_nodes _ _ _ _ _ _ Hck _ dbo Ho) as (y & Hy & Hsy & Hvy).
  destruct (Hcan i (transit_pid _ _ _ h Hc Hn) _ Hl) as (Hno & _).
  assert (prevs i = [this x]) as Hpx by by rewrite Hp, (same_this _ _ Hsx).
  assert (i ∈ part_ids db) as Hi.
  { apply elem_of_node_parts. destruct (tr_node _ Hc n db Hn) as (_ & -> & _). by eapply transit_pid. }
  assert (view x false i name = ∅) as Hvx'.
  { rewrite Hvx, decide_True by done. unfold moved_view. by rewrite Hl, decide_True. }
  assert (view y false i name = view dbo false i name ∪ view db false i name) as Hvy'.
  { rewrite Hvy, decide_True by done. unfold moved_view. by rewrite Hl, decide_False, decide_True. }
  destruct (transit_get fuel m z y c' name key Hc' Hz Hy Hfit) as (c2 & Hrun2 & _).
  - apply (transit_fits_union c' n x y); [done|done|done|exact Hpx|fold h i; by rewrite Hvx'|].
    intros v. fold h i. rewrite Hvy'. intros [Ew|[_ Ew]]%lookup_union_Some_raw; auto.
  - exists c2. rewrite Hrun2. fold h.
    rewrite (transit_answer_union c' n x y h name Hc' Hx Hy Hpx). fold i. rewrite Hvx', map_union_empty, Hvy'.
    assert (∀ w, visible y w = visible dbo w) as Hvis.
    { intros [w|]; [|done]. simpl. by rewrite (same_expired dbo y). }
    by rewrite Hvis.
Qed.
End transit.
End transit.
