(* ===== verification/RebalanceSpec.v ===== *)
(** Writing while partitions move.

    A cluster whose partitions have previous owners still refines one map: a put goes to
    the owner and removes the key from the previous owners, a delete removes it from all of
    them, a get asks the owner and then the previous owners, and [fsck] moves the maps of a
    node, at any time in between, without any of them giving another answer. *)

From S2P Require Export TransitSpec MapSpec.

Module rebalance.
Export transit mapspec.

Section rebalance.
Context {S N : Type} `{!KV S} `{!KVLaws S} `{!Snap S N} `{!Env}.
Context `{!BirthdateSort} `{!Codec NodeMetadata} `{!RangeOrder (list byte)} `{!Codec (gmap Z route)}.
Context `{!Codec dmapbox}.
Context {V : Type} `{!Serializer V} `{!SerializerLaws V}.
Abbreviation M := (olric.M S N).
Abbreviation Olric := (olric.Olric S N).
Abbreviation cluster := (olric.cluster S N).
Abbreviation serve := (dispatch.serve (S := S) (N := N) (V := V)).
Context (cfg : Config) (prevs : Z → list host) (owner : Z → host) (now : Z).
Abbreviation in_transit := (transit.in_transit cfg prevs owner now).
Abbreviation pid := (cspec.pid cfg).
Abbreviation fits := (cspec.fits (MaxValueSize cfg)).
Abbreviation changed := (cspec.changed cfg).
Abbreviation delete_ready := (cspec.delete_ready cfg false).
Abbreviation cleared := (cspec.cleared cfg false).

(** ** The loops over the previous owners *)
Lemma purge_spec fuel n db name key bs :
  let h := getHKey name key in
  config db = cfg → Name (this db) = n → fits name key [] →
  ∀ c, nodes c !! n = Some db → net c = [] →
  NoDup (map Name bs) → n ∉ map Name bs → Forall (delete_ready c h name) bs →
  ∃ c', purge_loop (serve (Datatypes.S fuel)) n name key bs c = Return (tt, c') ∧ cleared h name bs c c'.
Proof.
  intros h Hcfg Hthis Hfit.
  apply (clear_loop cfg (fun bs => purge_loop _ n name key bs) tt fuel false n db); [done..|].
  intros b bs' c c1 resp Hb Hn Hreq. cbn [purge_loop]. at_node Hn.
  assert (hostCmp b (this db) = false) as ->.
  { unfold hostCmp. rewrite Hthis, bool_decide_eq_false_2 by done. done. }
  by step Hreq.
Qed.

Lemma delete_loop_spec fuel n db name key bs :
  let h := getHKey name key in
  config db = cfg → fits name key [] →
  ∀ c, nodes c !! n = Some db → net c = [] →
  NoDup (map Name bs) → n ∉ map Name bs → Forall (delete_ready c h name) bs →
  ∃ c', delete_loop (serve (Datatypes.S fuel)) n name key bs c = Return (None, c') ∧ cleared h name bs c c'.
Proof.
  intros h Hcfg Hfit.
  apply (clear_loop cfg (fun bs => delete_loop _ n name key bs) None fuel false n db); [done..|].
  intros b bs' c c1 resp _ _ Hreq. cbn [delete_loop]. by step Hreq.
Qed.

(** ** Writes on the owner *)

(** The owner has carried out [f], the previous owners have lost the key. *)
Record written (c c' : cluster) (h : Z) (name : list byte) (f : gmap Z VData → gmap Z VData) : Prop := {
  wr_evolves : evolves c c';
  wr_owner : changed c c' (Name (owner (pid h))) false h name f;
  wr_prevs : Forall (fun b => changed c c' (Name b) false h name (delete h)) (rev (prevs (pid h)));
  wr_others m : m ≠ Name (owner (pid h)) → m ∉ map Name (rev (prevs (pid h))) → nodes c' !! m = nodes c !! m
}.

(** The owners of a partition are different nodes, and the previous ones can remove the key. *)
Record purgeable (c : cluster) (h : Z) (name key : list byte) : Prop := {
  pu_backups : BackupCount cfg = 0;
  pu_fits : fits name key [];
  pu_apart : NoDup (map Name (rev (prevs (pid h)))) ∧ (Name (owner (pid h)) ∉ map Name (rev (prevs (pid h))));
  pu_ready : Forall (delete_ready c h name) (rev (prevs (pid h)))
}.

Lemma ready_with_node (c : cluster) n db h name bs :
  n ∉ map Name bs → Forall (delete_ready c h name) bs → Forall (delete_ready (with_node n db c) h name) bs.
Proof.
  intros Hn. rewrite !Forall_forall. intros Hr b Hb. apply delete_ready_other; [by apply Hr|].
  intros E. apply Hn. rewrite <-E. by apply list_elem_of_fmap_2.
Qed.

Lemma written_owner n db db2 db5 (c c3 : cluster) h name f :
  Name (owner (pid h)) = n → nodes c !! n = Some db → n ∉ map Name (rev (prevs (pid h))) →
  stored None db db5 false (pid h) name h (f (view db false (pid h) name)) →
  cleared h name (rev (prevs (pid h))) (with_node n db2 c) c3 → written c (with_node n db5 c3) h name f.
Proof.
  intros Ho Hn Hni Hst [Hev _ Hsame Hall].
  destruct (owner_written cfg owner false n db db2 db5 c c3 h name f (delete h) (rev (prevs (pid h)))
    Ho Hn Hst Hev) as (? & ? & ? & ?); [| |by split].
  - intros m Hm Hmb. rewrite Hsame by done. simpl. by apply lookup_insert_ne.
  - rewrite Forall_forall in Hall |- *. intros b Hb. split; [|by apply Hall]. intros <-. apply Hni.
    by apply list_elem_of_fmap_2.
Qed.

(** The owners of the key are the same once its map has been found or created. *)
Lemma got_owners n db db1 (c : cluster) h name a :
  in_transit c → nodes c !! n = Some db → got_map db db1 None false h name a →
  getPartitionOwners db1 h = Return (prevs (pid h) ++ [owner (pid h)]).
Proof.
  intros Hc Hn Hg. apply (transit_owners cfg prevs owner now n db1 (with_node n db1 c)).
  - eapply in_transit_evolves; [done|]. eapply evolves_with_node; [done|apply Hg..].
  - apply with_node_lookup.
Qed.

Lemma transit_putKeyVal fuel n db (c : cluster) name key value timeout :
  let h := getHKey name key in
  let v := put_value db key value timeout in
  in_transit c → Name (owner (pid h)) = n → nodes c !! n = Some db → purgeable c h name key →
  view_room db false (pid h) name v →
  ∃ c', putKeyVal (serve (Datatypes.S fuel)) n h name key value timeout c = Return (None, c')
    ∧ written c c' h name (insert h v).
Proof.
  intros h v Hc Ho Hn [Hbc Hfit [Hnd Hni] Hready] Hroom. rewrite Ho in Hni.
  destruct (tr_node _ _ _ _ _ Hc n db Hn) as (Hwf & Hcfg & _ & Hname & _).
  destruct (get_dmap_of_spec None n db c false name h Hn Hwf ltac:(done)) as (a & db1 & Hget & Hg).
  destruct (got_dmap _ _ _ _ _ _ _ Hg) as (d & Hd & Hmu & Hok & Hmap & Hr & _).
  rewrite (pid_of_cfg cfg) in Hmap, Hr by done.
  destruct (kv_put_ok (dm_str d) h v Hok (Hr v Hroom)) as (s & Hput & Hsok & Hsmap & Hsone).
  set (db2 := set_dm a (with_mu true d) db1). set (db3 := set_dm a (with_str s (with_mu true d)) db2).
  assert (same_node db db3) as Hs3.
  { etrans; [apply (got_same _ _ _ _ _ _ _ Hg)|]. etrans; apply same_set_dm. }
  pose proof (with_node_lookup n db3 c) as Hn3.
  destruct (purge_spec fuel n db3 name key (rev (prevs (pid h))) ltac:(by rewrite (same_config _ _ Hs3))
    ltac:(by rewrite (same_this _ _ Hs3)) Hfit (with_node n db3 c) Hn3 (tr_net _ _ _ _ _ Hc) Hnd Hni
    ltac:(by apply ready_with_node)) as (c3 & Hpurge & Hcl).
  pose proof (stored_set_dm None None _ _ _ _ _ _ _ (with_mu false (with_str s (with_mu true d)))
    Hg Hd eq_refl Hsok ltac:(done) eq_refl Hsone) as Hst.
  cbn [dm_str with_mu with_str] in Hst. rewrite Hsmap, Hmap, (pid_of_cfg cfg) in Hst by done.
  eexists. split; [|by eapply written_owner].
  unfold putKeyVal, getDMap. step Hget. cbn beta iota. apply locked_section; [done..|]. fold db2 db3.
  unfold putKeyVal_locked. at_node (with_node_lookup n db2 c).
  rewrite (same_config db db2) by (etrans; [apply Hg|apply same_set_dm]). rewrite Hcfg, Hbc. cbn [Z.eqb negb].
  step (ret_run None (with_node n db2 c)). at_node (with_node_lookup n db2 c). cbn zeta.
  rewrite (same_getTTL db db2) by (etrans; [apply Hg|apply same_set_dm]). fold (put_value db key value timeout). fold v.
  rewrite (bind_run _ _ _ _ _ (str_call_run _ _ _ _ (with_mu true d) _ s None (with_node_lookup n db2 c)
    (set_dm_lookup _ _ _ _ Hd) Hput)). rewrite with_node_twice. fold db3. cbn beta iota.
  rewrite (bind_run _ _ _ _ _ (oplog_skipped _ _ _ _ _ _ Hn3 (wf_mode _ _ (got_wf _ _ _ _ _ _ _ Hg)))).
  rewrite (bind_run _ _ _ tt c3).
  { rewrite with_node_id; [done|]. rewrite (cl_others _ _ _ _ _ _ _ Hcl) by done. exact Hn3. }
  unfold purgeOldVersions. at_node Hn3.
  calc (got_owners n db db1 c h name a Hc Hn Hg : getPartitionOwners db3 h = _).
  rewrite decide_False by (by destruct (prevs (pid h))). by rewrite previous_snoc.
Qed.

Lemma transit_deleteKey fuel n db (c : cluster) name key :
  let h := getHKey name key in
  in_transit c → Name (owner (pid h)) = n → nodes c !! n = Some db → purgeable c h name key →
  view_single db false (pid h) name h →
  ∃ c', deleteKey (serve (Datatypes.S fuel)) n name key c = Return (None, c')
    ∧ written c c' h name (delete h).
Proof.
  intros h Hc Ho Hn [Hbc Hfit [Hnd Hni] Hready] Hsingle. rewrite Ho in Hni.
  destruct (tr_node _ _ _ _ _ Hc n db Hn) as (Hwf & Hcfg & _ & Hname & _).
  destruct (get_dmap_of_spec None n db c false name h Hn Hwf ltac:(done)) as (a & db1 & Hget & Hg).
  destruct (got_dmap _ _ _ _ _ _ _ Hg) as (d & Hd & Hmu & Hok & Hmap & _ & Hsg).
  rewrite (pid_of_cfg cfg) in Hmap, Hsg by done.
  destruct (kv_delete_ok (dm_str d) h Hok (Hsg h Hsingle)) as (s & Hdel & Hsok & Hsmap & Hsone).
  set (db2 := set_dm a (with_mu true d) db1).
  assert (same_node db db2) as Hs2 by (etrans; [apply (got_same _ _ _ _ _ _ _ Hg)|apply same_set_dm]).
  pose proof (with_node_lookup n db2 c) as Hn2.
  destruct (delete_loop_spec fuel n db2 name key (rev (prevs (pid h))) ltac:(by rewrite (same_config _ _ Hs2))
    Hfit (with_node n db2 c) Hn2 (tr_net _ _ _ _ _ Hc) Hnd Hni
    ltac:(by apply ready_with_node)) as (c3 & Hloop & Hcl).
  assert (nodes c3 !! n = Some db2) as Hn3 by (by rewrite (cl_others _ _ _ _ _ _ _ Hcl)).
  pose proof (stored_set_dm None None _ _ _ _ _ _ _ (with_mu false (with_str s (with_mu true d)))
    Hg Hd eq_refl Hsok ltac:(done) eq_refl (fun h' Hh _ => Hsone h' Hh)) as Hst.
  cbn [dm_str with_mu with_str] in Hst. rewrite Hsmap, Hmap, (pid_of_cfg cfg) in Hst by done.
  eexists. split; [|by eapply written_owner].
  unfold deleteKey, getDMap. at_node Hn. calc (transit_locate cfg prevs owner now n db c name key Hc Hn).
  cbn beta iota. fold h. rewrite (transit_cmp cfg prevs owner now n db c _ Hc Hn (transit_pid _ _ _ _ _ _ _ _ Hc Hn)).
  rewrite bool_decide_eq_true_2 by done. cbn [negb].
  step Hget. cbn beta iota. apply locked_section; [done..|]. fold db2.
  unfold delKeyVal. at_node Hn2.
  calc (got_owners n db db1 c h name a Hc Hn Hg : getPartitionOwners db2 h = _).
  rewrite decide_False by (by destruct (prevs (pid h))). rewrite previous_snoc. step Hloop. cbn beta iota.
  rewrite (same_config _ _ Hs2), Hcfg, Hbc. cbn [Z.eqb negb]. step (ret_run None c3). cbn beta iota.
  rewrite (bind_run _ _ _ _ _ (oplog_skipped _ _ _ _ _ _ Hn3 (wf_mode _ _ (got_wf _ _ _ _ _ _ _ Hg)))).
  by rewrite (bind_run _ _ _ _ _ (str_call_run _ _ _ _ (with_mu true d) _ s None Hn3
    (set_dm_lookup _ _ _ _ Hd) Hdel)).
Qed.

(** ** Writes on any node *)
Lemma transit_put fuel n dbn dbo (c : cluster) name key value timeout :
  let h := getHKey name key in
  let v := put_value dbo key value timeout in
  in_transit c → nodes c !! n = Some dbn → nodes c !! Name (owner (pid h)) = Some dbo →
  in_int64 timeout → fits name key value → purgeable c h name key → view_room dbo false (pid h) name v →
  ∃ c', put (serve (Datatypes.S (Datatypes.S fuel))) n name key value timeout c = Return (None, c')
    ∧ written c c' h name (insert h v).
Proof.
  intros h v Hc Hn Ho Ht Hfit Hpu Hroom. pose proof (transit_pid _ _ _ _ _ _ _ h Hc Hn) as Hpid.
  assert (∀ fuel, ∃ c', put (serve (Datatypes.S fuel)) (Name (owner (pid h))) name key value timeout c
    = Return (None, c') ∧ written c c' h name (insert h v)) as Hat.
  { intros f. destruct (transit_putKeyVal f _ dbo c name key value timeout Hc eq_refl Ho Hpu Hroom)
      as (c' & Hrun & Hw). exists c'. split; [|done].
    unfold put. at_node Ho. calc (transit_locate cfg prevs owner now _ dbo c name key Hc Ho).
    cbn beta iota. fold h. rewrite (transit_cmp cfg prevs owner now _ dbo c _ Hc Ho Hpid).
    by rewrite bool_decide_eq_true_2. }
  destruct (decide (Name (owner (pid h)) = n)) as [E|E]; [rewrite <-E; apply Hat|].
  destruct (Hat fuel) as (c' & Hrun & Hw). exists c'. split; [|done].
  apply (put_forwarded cfg fuel n dbn dbo (owner (pid h)) h); try done.
  - by destruct (tr_node _ _ _ _ _ Hc _ _ Hn) as (_ & ? & _).
  - by destruct (tr_node _ _ _ _ _ Hc _ _ Ho) as (_ & ? & _).
  - apply Hc.
  - apply (transit_locate cfg prevs owner now n dbn c name key Hc Hn).
  - rewrite (transit_cmp cfg prevs owner now n dbn c _ Hc Hn Hpid). by rewrite bool_decide_eq_false_2.
  - apply Hw.
Qed.

Lemma transit_delete fuel n dbn dbo (c : cluster) name key :
  let h := getHKey name key in
  in_transit c → nodes c !! n = Some dbn → nodes c !! Name (owner (pid h)) = Some dbo →
  purgeable c h name key → view_single dbo false (pid h) name h →
  ∃ c', deleteKey (serve (Datatypes.S (Datatypes.S fuel))) n name key c = Return (None, c')
    ∧ written c c' h name (delete h).
Proof.
  intros h Hc Hn Ho Hpu Hsingle. pose proof (transit_pid _ _ _ _ _ _ _ h Hc Hn) as Hpid.
  destruct (decide (Name (owner (pid h)) = n)) as [E|E].
  { rewrite E in Ho. assert (dbo = dbn) as -> by congruence. by apply (transit_deleteKey _ _ dbn). }
  destruct (transit_deleteKey fuel _ dbo c name key Hc eq_refl Ho Hpu Hsingle) as (c' & Hrun & Hw).
  exists c'. split; [|done].
  apply (delete_forwarded cfg fuel n dbn dbo (owner (pid h)) h); try done.
  - by destruct (tr_node _ _ _ _ _ Hc _ _ Hn) as (_ & ? & _).
  - by destruct (tr_node _ _ _ _ _ Hc _ _ Ho) as (_ & ? & _).
  - apply Hc.
  - apply (transit_locate cfg prevs owner now n dbn c name key Hc Hn).
  - rewrite (transit_cmp cfg prevs owner now n dbn c _ Hc Hn Hpid). by rewrite bool_decide_eq_false_2.
  - apply Hpu.
  - apply Hw.
Qed.

(** ** The abstract map *)

(** The calls of a program, and the checks that move maps. *)
Inductive event :=
| TPut (n name key value : list byte) (timeout : Z)
| TGet (n name key : list byte)
| TDelete (n name key : list byte)
| TFsck (n : list byte)
| TMerge (n : list byte) (bk : bool) (i : Z) (name : list byte).   (* a chunk of a merge *)

Abbreviation bindings := (gmap (list byte * list byte) entry).

Definition reads (m : bindings) (name key : list byte) : option (list byte) :=
  match m !! (name, key) with
  | Some e => if expired now (e_ttl e) then None else Some (e_value e)
  | None => None
  end.

Definition rspec (o : event) (m : bindings) : bindings * reply :=
  match o with
  | TPut _ name key value timeout =>
      (<[(name, key) := mkEntry value (deadline now timeout) (bool_decide (is_Some (m !! (name, key))))]> m,
       RDone None)
  | TGet _ name key => (m, RValue (get_result (reads m name key)))
  | TDelete _ name key => (delete (name, key) m, RDone None)
  | TFsck _ | TMerge _ _ _ _ => (m, RDone None)
  end.

Definition rexec (fuel : nat) (o : event) : M reply :=
  let sv := serve (Datatypes.S (Datatypes.S fuel)) in
  match o with
  | TPut n name key value timeout => err ← put sv n name key value timeout; mret (RDone err)
  | TGet n name key => r ← get sv n name key; mret (RValue r)
  | TDelete n name key => err ← deleteKey sv n name key; mret (RDone err)
  | TFsck n => _ ← fsck sv n; mret (RDone None)
  | TMerge n bk i name => _ ← merge_runs n bk i name; mret (RDone None)
  end.

(** ** The relation between the cluster and the map *)
Context (K : list byte → list byte → Prop).
Definition hosts (i : Z) : list host := prevs i ++ [owner i].

Definition held_at (c : cluster) (h : Z) (name : list byte) (b : host) : option VData :=
  nodes c !! Name b ≫= fun db => view db false (pid h) name !! h.

(** Exactly one of the owners of a partition, old or new, holds the binding of a key. *)
Definition held_by_one (c : cluster) (h : Z) (name key : list byte) (e : option entry) : Prop :=
  match e with
  | None => ∀ b, b ∈ hosts (pid h) → held_at c h name b = None
  | Some e => ∃ b, b ∈ hosts (pid h)
      ∧ held_at c h name b = Some (mkVData key (e_ttl e) (e_value e))
      ∧ ∀ b', b' ∈ hosts (pid h) → Name b' ≠ Name b → held_at c h name b' = None
  end.

Record tholds (c : cluster) (h : Z) (name key : list byte) (e : option entry) : Prop := {
  th_where : held_by_one c h name key e;
  th_fits e' : e = Some e' → value_fits cfg (e_value e');
  th_prevs b db : b ∈ prevs (pid h) → nodes c !! Name b = Some db → view_single db false (pid h) name h;
  th_owner db : nodes c !! Name (owner (pid h)) = Some db → once e → view_single db false (pid h) name h
}.

Record rebalances (m : bindings) (c : cluster) : Prop := {
  rb_transit : in_transit c;
  rb_holds name key : K name key → tholds c (getHKey name key) name key (m !! (name, key))
}.

(** The configuration: no backups, and the owners of a partition are different nodes. *)
Record movable : Prop := {
  mo_backups : BackupCount cfg = 0;
  mo_max : 0 ≤ MaxValueSize cfg;
  mo_apart i : 0 ≤ i < PartitionCount cfg → NoDup (map Name (hosts i))
}.

Definition fsck_ready (n : list byte) (c : cluster) : Prop :=
  ∃ db, nodes c !! n = Some db ∧ (∀ j, 0 ≤ j < PartitionCount cfg → can_leave cfg n db c j)
    ∧ idle_backup (calcMaxBackupCount (BackupCount cfg) (numMembers db)) db.

Definition tcallable (c : cluster) (n name key : list byte) : Prop :=
  is_Some (nodes c !! n) ∧ K name key ∧ fits name key [].

Definition tlegal (m : bindings) (c : cluster) (o : event) : Prop :=
  match o with
  | TPut n name key value timeout =>
      tcallable c n name key ∧ in_int64 timeout ∧ storable cfg name key value
  | TGet n name key => tcallable c n name key
  | TDelete n name key => tcallable c n name key ∧ once (m !! (name, key))
  | TFsck n => fsck_ready n c
  | TMerge n bk i name =>
      is_Some (nodes c !! n)
      ∧ ∀ key, K name key → pid (getHKey name key) = i → once (m !! (name, key))
  end.

(** ** What is not touched *)
Lemma tholds_frame P c c' h name key e :
  shifts c c' → touches P c c' → P (pid h) name h → tholds c h name key e → tholds c' h name key e.
Proof.
  intros [_ Hev] Ht HP [Hw Hf Hp Ho].
  assert (∀ b, held_at c' h name b = held_at c h name b) as Hat.
  { intros b. unfold held_at. specialize (Hev (Name b)).
    destruct (nodes c !! Name b) as [db|] eqn:Hn, (nodes c' !! Name b) as [db'|] eqn:Hn'; try done.
    simpl. by apply (Ht _ _ _ Hn Hn' false _ _ _ HP). }
  assert (∀ n db', nodes c' !! n = Some db' → ∃ db, nodes c !! n = Some db
    ∧ (view_single db false (pid h) name h → view_single db' false (pid h) name h)) as Hback.
  { intros n db' Hn'. specialize (Hev n). rewrite Hn' in Hev.
    destruct (nodes c !! n) as [db|] eqn:Hn; [|done]. exists db. split; [done|].
    by apply (Ht _ _ _ Hn Hn' false _ _ _ HP). }
  split; [|done|..].
  - unfold held_by_one in *. destruct e; [|by setoid_rewrite Hat]. by setoid_rewrite Hat.
  - intros b db' Hb Hn'. destruct (Hback _ _ Hn') as (db & Hn & Hs). by eapply Hs, Hp.
  - intros db' Hn' Hone. destruct (Hback _ _ Hn') as (db & Hn & Hs). by apply Hs, Ho.
Qed.

Lemma rebalances_update m c c' name key e :
  collision_free K → rebalances m c → K name key → evolves c c' →
  touches (other_than cfg (getHKey name key) name) c c' → tholds c' (getHKey name key) name key e →
  rebalances (partial_alter (fun _ => e) (name, key) m) c'.
Proof.
  intros Hcf [Hc Hh] Hk Hev Ht He. split; [by eapply in_transit_evolves|].
  intros name' key' Hk'. destruct (decide ((name', key') = (name, key))) as [E|E].
  - simplify_eq. by rewrite lookup_partial_alter_eq.
  - rewrite lookup_partial_alter_ne by done.
    eapply tholds_frame; [by apply evolves_shifts|done|by eapply other_key|by apply Hh].
Qed.

(** ** Each event is simulated *)
Lemma hosts_split i b : b ∈ hosts i ↔ b ∈ prevs i ∨ b = owner i.
Proof. unfold hosts. by rewrite elem_of_app, list_elem_of_singleton. Qed.

Lemma transit_apart i :
  movable → 0 ≤ i < PartitionCount cfg →
  NoDup (map Name (rev (prevs i))) ∧ (Name (owner i) ∉ map Name (rev (prevs i))).
Proof.
  intros Hmo Hi. pose proof (mo_apart Hmo i Hi) as Hnd. unfold hosts in Hnd. rewrite map_app in Hnd.
  apply NoDup_app in Hnd as (Hnd & Hni & _). rewrite map_rev, <-Permutation_rev. split; [done|].
  intros Hin. apply (Hni _ Hin). by left.
Qed.

Lemma transit_purgeable m c n db name key :
  movable → rebalances m c → nodes c !! n = Some db → K name key → fits name key [] →
  purgeable c (getHKey name key) name key.
Proof.
  intros Hmo [Hc Hh] Hn Hk Hfit. pose proof (transit_pid _ _ _ _ _ _ _ (getHKey name key) Hc Hn) as Hpid.
  split; [apply Hmo|done|by apply transit_apart|]. apply Forall_rev, Forall_forall. intros b Hb.
  destruct (tr_prev _ _ _ _ _ Hc _ b Hpid Hb) as [dbb Hdbb].
  destruct (tr_node _ _ _ _ _ Hc _ _ Hdbb) as (Hwf & Hcfg & _).
  exists dbb. do 3 (split; [done|]). by apply (th_prevs _ _ _ _ _ (Hh name key Hk) b).
Qed.

(** The key after a write: the owner decides, the previous owners have lost it. *)
Lemma written_holds m c c' name key f v e :
  let h := getHKey name key in
  movable → rebalances m c → K name key → 0 ≤ pid h < PartitionCount cfg → written c c' h name f →
  (∀ mm : gmap Z VData, f mm !! h = v) → v = (fun e => mkVData key (e_ttl e) (e_value e)) <$> e →
  (∀ e', e = Some e' → value_fits cfg (e_value e')) →
  (∀ db db', nodes c !! Name (owner (pid h)) = Some db → nodes c' !! Name (owner (pid h)) = Some db' →
     stored None db db' false (pid h) name h (f (view db false (pid h) name)) → once e →
     view_single db' false (pid h) name h) →
  tholds c' h name key e.
Proof.
  intros h Hmo Hrb Hk Hpid [Hev (d1 & d2 & Hd1 & Hd2 & Hst) Hprevs _] Hf Hv Hfits Hone.
  assert (held_at c' h name (owner (pid h)) = v) as Hown.
  { unfold held_at. rewrite Hd2. simpl. by rewrite (stored_view _ _ _ _ _ _ _ _ Hst). }
  assert (∀ b db', b ∈ prevs (pid h) → nodes c' !! Name b = Some db' → view db' false (pid h) name !! h = None) as Hp.
  { intros b db' Hb Hn'. rewrite Forall_forall in Hprevs.
    destruct (Hprevs b) as (x & y & Hx & Hy & Hs); [by rewrite <-Permutation_rev|]. simplify_eq.
    by rewrite (stored_view _ _ _ _ _ _ _ _ Hs), lookup_delete_eq. }
  assert (∀ b, b ∈ prevs (pid h) → held_at c' h name b = None) as Hpn.
  { intros b Hb. unfold held_at. destruct (nodes c' !! Name b) as [x|] eqn:Hx; [|done]. by apply (Hp b). }
  split; [|done|..].
  - subst v. destruct e as [e|]; simpl in *.
    + exists (owner (pid h)). split; [apply hosts_split; by right|]. split; [done|].
      intros b' [Hb'| ->]%hosts_split Hne; [by apply Hpn|done].
    + intros b [Hb| ->]%hosts_split; [by apply Hpn|done].
  - intros b db' Hb Hn'. apply view_single_absent. by apply (Hp b).
  - intros db' Hn' Ho. simplify_eq. by eapply Hone.
Qed.

Lemma written_touches c c' h name f :
  written c c' h name f → (∀ (mm : gmap Z VData) k, k ≠ h → f mm !! k = mm !! k) →
  touches (other_than cfg h name) c c'.
Proof.
  intros [_ Ho Hp Hoth] Hf. eapply touches_changed; [exact Ho|exact Hp|exact Hoth|done|].
  intros mm k Hne. by apply lookup_delete_ne.
Qed.

Lemma tput_simulated fuel m c n name key value timeout :
  collision_free K → movable → rebalances m c → tcallable c n name key → in_int64 timeout →
  storable cfg name key value →
  ∃ c', put (serve (Datatypes.S (Datatypes.S fuel))) n name key value timeout c = Return (None, c')
    ∧ rebalances (rspec (TPut n name key value timeout) m).1 c'.
Proof.
  intros Hcf Hmo Hrb ([dbn Hn] & Hk & Hfit0) Ht [Hfit Hsmall]. pose proof Hrb as [Hc Hh].
  set (h := getHKey name key). pose proof (transit_pid _ _ _ _ _ _ _ h Hc Hn) as Hpid.
  destruct (tr_up _ _ _ _ _ Hc (pid h) Hpid) as (dbo & Ho & _).
  destruct (tr_node _ _ _ _ _ Hc _ _ Ho) as (Hwfo & _ & _ & _ & Hnow).
  destruct (transit_put fuel n dbn dbo c name key value timeout Hc Hn Ho Ht Hfit
    (transit_purgeable m c n dbn name key Hmo Hrb Hn Hk Hfit0)) as (c' & Hrun & Hw).
  { eapply view_room_small; [done|]. apply Hsmall. case_match; [done|].
    apply in_int64_quot; [apply to_signed_range|done]. }
  exists c'. split; [done|]. cbn [rspec fst]. fold h in Hw.
  eapply (rebalances_update m c c' name key (Some _)); try done; [apply Hw|..].
  { apply (written_touches _ _ _ _ _ Hw). intros mm k Hne. by apply lookup_insert_ne. }
  destruct (Hh name key Hk) as [Hwhere _ _ Hsingle]. fold h in Hwhere, Hsingle.
  eapply (written_holds m c c' name key _ (Some (put_value dbo key value timeout))); try done.
  - intros mm. apply lookup_insert_eq.
  - simpl. unfold put_value, deadline, getTTL. by rewrite Hnow.
  - intros e' [= <-]. simpl. destruct Hfit as (_ & _ & Hv1 & Hv2). split; [done|]. len_lia.
  - intros db db' Hdb _ Hst Hnew. simpl in Hnew. apply bool_decide_eq_false in Hnew.
    apply eq_None_not_Some in Hnew. fold h in Hdb, Hst |- *. rewrite Hnew in Hwhere, Hsingle.
    apply (stored_single _ _ _ _ _ _ _ _ Hst); [by apply Hsingle|right].
    specialize (Hwhere (owner (pid h)) ltac:(apply hosts_split; by right)). unfold held_at in Hwhere.
    by rewrite Hdb in Hwhere.
Qed.

Lemma tdelete_simulated fuel m c n name key :
  collision_free K → movable → rebalances m c → tcallable c n name key → once (m !! (name, key)) →
  ∃ c', deleteKey (serve (Datatypes.S (Datatypes.S fuel))) n name key c = Return (None, c')
    ∧ rebalances (delete (name, key) m) c'.
Proof.
  intros Hcf Hmo Hrb ([dbn Hn] & Hk & Hfit0) Honce. pose proof Hrb as [Hc Hh].
  set (h := getHKey name key). pose proof (transit_pid _ _ _ _ _ _ _ h Hc Hn) as Hpid.
  destruct (tr_up _ _ _ _ _ Hc (pid h) Hpid) as (dbo & Ho & _).
  destruct (transit_delete fuel n dbn dbo c name key Hc Hn Ho
    (transit_purgeable m c n dbn name key Hmo Hrb Hn Hk Hfit0)) as (c' & Hrun & Hw).
  { by apply (th_owner _ _ _ _ _ (Hh name key Hk)). }
  exists c'. split; [done|]. fold h in Hw.
  eapply (rebalances_update m c c' name key None); try done; [apply Hw|..].
  { apply (written_touches _ _ _ _ _ Hw). intros mm k Hne. by apply lookup_delete_ne. }
  eapply (written_holds m c c' name key); try done.
  - intros mm. apply lookup_delete_eq.
  - intros db db' _ _ Hst _. apply view_single_absent.
    by rewrite (stored_view _ _ _ _ _ _ _ _ Hst), lookup_delete_eq.
Qed.

(** The first answer of a list in which at most one answer occurs. *)
Lemma head_omap_only {A B} (f : A → option B) (l : list A) (r : option B) :
  (∀ x, x ∈ l → f x = None ∨ f x = r) → (∃ x, x ∈ l ∧ f x = r) → head (omap f l) = r.
Proof.
  induction l as [|x l IH]; intros Hall (y & Hy & Hr); [by apply elem_of_nil in Hy|].
  cbn [omap list_omap]. destruct (f x) as [b|] eqn:Hx.
  - destruct (Hall x) as [?|?]; [by left|congruence|]. simpl. congruence.
  - assert (∀ z, z ∈ l → f z = None ∨ f z = r) as Hl by (intros z Hz; apply Hall; by right).
    apply elem_of_cons in Hy as [->|Hy]; [|by apply IH; [|exists y]].
    rewrite Hx in Hr. subst r. rewrite omap_none; [done|]. apply Forall_forall.
    intros z Hz. by destruct (Hl z Hz).
Qed.

Lemma visible_expired c n (db : Olric) v :
  in_transit c → nodes c !! n = Some db →
  visible db (Some v) = if expired now (vd_TTL v) then None else Some (vd_Value v).
Proof. intros Hc Hn. destruct (tr_node _ _ _ _ _ Hc n db Hn) as (_ & _ & _ & _ & <-). done. Qed.

Lemma prev_answer_held c h name b :
  in_transit c → prev_answer cfg c h name b
  = held_at c h name b ≫= fun v => if expired now (vd_TTL v) then None else Some (vd_Value v).
Proof.
  intros Hc. unfold prev_answer, held_at. destruct (nodes c !! Name b) as [db|] eqn:Hn; [|done]. simpl.
  destruct (view db false (pid h) name !! h) as [v|]; [|done]. by apply (visible_expired c (Name b)).
Qed.

Lemma transit_answer_reads m c dbo name key :
  let h := getHKey name key in
  rebalances m c → K name key → nodes c !! Name (owner (pid h)) = Some dbo →
  transit_answer cfg prevs c dbo h name = reads m name key.
Proof.
  intros h [Hc Hh] Hk Ho. pose proof (th_where _ _ _ _ _ (Hh name key Hk)) as Hw. fold h in Hw.
  unfold transit_answer, reads. destruct (m !! (name, key)) as [e|]; simpl in Hw.
  - destruct Hw as (b & Hb & Hat & Hothers). destruct (decide (Name b = Name (owner (pid h)))) as [E|E].
    + unfold held_at in Hat. rewrite E, Ho in Hat. simpl in Hat. rewrite Hat.
      by rewrite (visible_expired c _ _ _ Hc Ho).
    + assert (view dbo false (pid h) name !! h = None) as ->.
      { specialize (Hothers (owner (pid h)) ltac:(apply hosts_split; by right) ltac:(done)).
        unfold held_at in Hothers. by rewrite Ho in Hothers. }
      apply hosts_split in Hb as [Hb| ->]; [|done].
      apply head_omap_only; [|exists b; split; [by rewrite <-Permutation_rev|by rewrite prev_answer_held, Hat]].
      intros x Hx. rewrite <-Permutation_rev in Hx. rewrite prev_answer_held by done.
      destruct (decide (Name x = Name b)) as [Ex|Ex].
      * right. unfold held_at in *. by rewrite Ex, Hat.
      * left. rewrite Hothers; [done|apply hosts_split; by left|done].
  - assert (view dbo false (pid h) name !! h = None) as ->.
    { specialize (Hw (owner (pid h)) ltac:(apply hosts_split; by right)). unfold held_at in Hw.
      by rewrite Ho in Hw. }
    rewrite omap_none; [done|]. apply Forall_forall. intros x Hx. rewrite <-Permutation_rev in Hx.
    rewrite prev_answer_held, Hw; [done|apply hosts_split; by left|done].
Qed.

Lemma held_fits m c name key b v :
  let h := getHKey name key in
  rebalances m c → K name key → b ∈ hosts (pid h) → held_at c h name b = Some v → value_fits cfg (vd_Value v).
Proof.
  intros h [_ Hh] Hk Hb Hv. destruct (Hh name key Hk) as [Hw Hf _ _]. fold h in Hw.
  destruct (m !! (name, key)) as [e|]; simpl in Hw; [|by rewrite Hw in Hv].
  destruct Hw as (b' & Hb' & Hat & Hothers). destruct (decide (Name b = Name b')) as [E|E].
  - unfold held_at in *. rewrite E, Hat in Hv. injection Hv as <-. by apply (Hf e).
  - by rewrite Hothers in Hv.
Qed.

Lemma tget_simulated fuel m c n name key :
  collision_free K → rebalances m c → tcallable c n name key →
  ∃ c', get (serve (Datatypes.S (Datatypes.S fuel))) n name key c
      = Return (get_result (reads m name key), c') ∧ rebalances m c'.
Proof.
  intros Hcf Hrb ([dbn Hn] & Hk & Hfit). pose proof Hrb as [Hc Hh]. set (h := getHKey name key).
  pose proof (transit_pid _ _ _ _ _ _ _ h Hc Hn) as Hpid.
  destruct (tr_up _ _ _ _ _ Hc (pid h) Hpid) as (dbo & Ho & _).
  pose proof (transit_answer_reads m c dbo name key Hrb Hk Ho) as Hans. fold h in Hans.
  destruct (transit_get cfg prevs owner now fuel n dbn dbo c name key Hc Hn Ho Hfit) as (c' & Hrun & Hev & Hsv).
  { fold h. split.
    - apply Forall_forall. intros b Hb v. rewrite prev_answer_held by done.
      destruct (held_at c h name b) as [w|] eqn:Hw; [|done]. simpl. case_match; [done|]. intros [= <-].
      eapply (held_fits m c name key b); [done|done|apply hosts_split; by left|done].
    - intros v. rewrite Hans. unfold reads. destruct (m !! (name, key)) as [e|] eqn:He; [|done].
      case_match; [done|]. intros [= <-]. by apply (th_fits _ _ _ _ _ (Hh name key Hk)). }
  exists c'. split; [by rewrite Hrun; fold h; rewrite Hans|]. split; [by eapply in_transit_evolves|].
  intros name' key' Hk'. eapply (tholds_frame (fun _ _ _ => True));
    [by apply evolves_shifts|by apply touches_same_views|done|by apply Hh].
Qed.

(** ** Fsck *)
Lemma leaving_to_owner (c : cluster) n (db : Olric) j o :
  in_transit c → nodes c !! n = Some db → 0 ≤ j < PartitionCount cfg → leaving db j = Some o →
  o = owner j ∧ ∃ b, b ∈ prevs j ∧ Name b = n.
Proof.
  intros Hc Hn Hj Hl. destruct (tr_owners _ _ _ _ _ Hc n db j Hn Hj) as [Hos _].
  destruct (tr_node _ _ _ _ _ Hc n db Hn) as (_ & _ & _ & Hname & _). unfold leaving in Hl.
  destruct (partitions db !! j) as [p|]; [|done]. injection Hos as Hos. destruct (p_count p =? 0); [done|].
  rewrite Hos, rev_unit in Hl. destruct (existsb _ _) eqn:E; [|done]. injection Hl as <-. split; [done|].
  apply existsb_exists in E as (b & Hb & Hcmp). exists b. split.
  - rewrite (Permutation_rev (prevs j)). by apply list_elem_of_In.
  - unfold hostCmp in Hcmp. apply andb_prop in Hcmp as [Hcmp _]. apply bool_decide_eq_true in Hcmp. congruence.
Qed.

(** The binding of a key when the partition has been handed over. *)
Lemma handed_over_holds (c c' : cluster) n (db : Olric) h name key e :
  let i := pid h in
  in_transit c → nodes c !! n = Some db → 0 ≤ i < PartitionCount cfg → n ≠ Name (owner i) →
  (∃ b, b ∈ prevs i ∧ Name b = n) →
  (∀ m dbm, nodes c !! m = Some dbm → ∃ dbm', nodes c' !! m = Some dbm' ∧ view dbm' false i name
     = if decide (m = n) then ∅
       else if decide (m = Name (owner i)) then view dbm false i name ∪ view db false i name
       else view dbm false i name) →
  held_by_one c h name key e → held_by_one c' h name key e.
Proof.
  intros i Hc Hn Hi Hno (bn & Hbn & Hbname) Hviews He.
  assert (held_at c h name bn = view db false i name !! h) as Hsrc by (unfold held_at; by rewrite Hbname, Hn).
  assert (∀ b, b ∈ hosts i → held_at c' h name b
    = if decide (Name b = n) then None
      else if decide (Name b = Name (owner i)) then union_with (fun x _ => Some x) (held_at c h name b) (held_at c h name bn)
      else held_at c h name b) as Hat.
  { intros b Hb. assert (∃ dbb, nodes c !! Name b = Some dbb) as [dbb Hdbb].
    { apply hosts_split in Hb as [Hb| ->]; [by apply (tr_prev _ _ _ _ _ Hc i)|].
      destruct (tr_up _ _ _ _ _ Hc i Hi) as (x & Hx & _). by exists x. }
    destruct (Hviews _ _ Hdbb) as (dbb' & Hdbb' & Hv). rewrite Hsrc. unfold held_at at 1.
    rewrite Hdbb'. simpl. fold i. rewrite Hv. case_decide; [apply lookup_empty|].
    case_decide; [|unfold held_at; by rewrite Hdbb]. rewrite lookup_union. unfold held_at. by rewrite Hdbb. }
  destruct e as [e|]; simpl in *.
  - destruct He as (b & Hb & Hv & Hothers). fold i in Hb, Hothers |- *.
    destruct (decide (Name b = n)) as [Eb|Eb].
    + exists (owner i). split; [apply hosts_split; by right|].
      assert (held_at c h name bn = Some (mkVData key (e_ttl e) (e_value e))) as Hbn'
        by (unfold held_at in *; by rewrite Hbname, <-Eb).
      split.
      * rewrite Hat by (apply hosts_split; by right). rewrite decide_False by congruence.
        rewrite decide_True by done. rewrite Hothers; [by rewrite Hbn'|apply hosts_split; by right|congruence].
      * intros b' Hb' Hne. rewrite Hat by done. case_decide; [done|]. rewrite decide_False by done.
        apply Hothers; [done|congruence].
    + assert (held_at c h name bn = None) as Hnone.
      { apply Hothers; [apply hosts_split; by left|congruence]. }
      exists b. split; [done|]. rewrite Hnone in Hat. split.
      * rewrite Hat by done. rewrite decide_False by done. rewrite Hv. by case_decide.
      * intros b' Hb' Hne. rewrite Hat by done. rewrite (Hothers b') by done. by repeat case_decide.
  - intros b Hb. rewrite Hat, (He b), (He bn) by (done || (apply hosts_split; by left)).
    by repeat case_decide.
Qed.

Lemma fsck_simulated fuel m c n :
  movable → rebalances m c → fsck_ready n c →
  ∃ c', fsck (serve (Datatypes.S (Datatypes.S fuel))) n c = Return (tt, c') ∧ rebalances m c'.
Proof.
  intros Hmo Hrb (db & Hn & Hcan & Hidle). pose proof Hrb as [Hc Hh].
  destruct (fsck_spec cfg (Datatypes.S fuel) n db c (transit_moving _ _ _ _ c Hc (mo_max Hmo)) Hn Hcan Hidle)
    as (c' & Hrun & Hck). exists c'. split; [done|]. split; [by eapply transit_checked|].
  intros name key Hk. destruct (Hh name key Hk) as [Hw Hf Hp Ho]. set (h := getHKey name key) in *.
  pose proof (transit_pid _ _ _ _ _ _ _ h Hc Hn) as Hi. destruct (tr_node _ _ _ _ _ Hc n db Hn) as (_ & Hcfg & _).
  assert (pid h ∈ part_ids db) as Hin by (apply elem_of_node_parts; by rewrite Hcfg).
  assert (∀ k dbk, nodes c !! k = Some dbk → ∃ dbk', nodes c' !! k = Some dbk'
    ∧ view dbk' false (pid h) name = moved_view n db k dbk (pid h) name) as Hv.
  { intros k dbk Hk'. destruct (ck_nodes _ _ _ _ _ _ Hck k dbk Hk') as (dbk' & Hk1 & _ & Hv). exists dbk'.
    split; [done|]. by rewrite Hv, decide_True. }
  assert (∀ k db', nodes c' !! k = Some db' → ∃ dbk, nodes c !! k = Some dbk
    ∧ (view_single dbk false (pid h) name h → view_single db' false (pid h) name h)) as Hback.
  { intros k db' Hk'. destruct (ck_dom _ _ _ _ _ _ Hck k) as [dbk Hdbk]; [by exists db'|]. exists dbk.
    split; [done|]. by apply (ck_single _ _ _ _ _ _ Hck k dbk db' Hdbk Hk'). }
  split; [|done|..].
  - unfold moved_view in Hv. destruct (leaving db (pid h)) as [o|] eqn:Hl.
    + destruct (leaving_to_owner c n db (pid h) o Hc Hn Hi Hl) as [-> Hb].
      destruct (Hcan (pid h) Hi _ Hl) as (Hno & _). by eapply handed_over_holds.
    + assert (∀ b, held_at c' h name b = held_at c h name b) as Hat.
      { intros b. unfold held_at. destruct (nodes c !! Name b) as [x|] eqn:Hx.
        - destruct (Hv _ _ Hx) as (x' & -> & E). simpl. by rewrite E.
        - destruct (nodes c' !! Name b) as [x'|] eqn:Hx'; [|done].
          destruct (Hback _ _ Hx') as (y & Hy & _). congruence. }
      unfold held_by_one in *. destruct (m !! (name, key)); by setoid_rewrite Hat.
  - intros b db' Hb Hn'. destruct (Hback _ _ Hn') as (x & Hx & Hs). by eapply Hs, Hp.
  - intros db' Hn' Hone. destruct (Hback _ _ Hn') as (x & Hx & Hs). by apply Hs, Ho.
Qed.

Lemma tmerge_simulated m c n bk i name :
  rebalances m c → is_Some (nodes c !! n) →
  (∀ key, K name key → pid (getHKey name key) = i → once (m !! (name, key))) →
  ∃ c', merge_runs n bk i name c = Return (tt, c') ∧ rebalances m c'.
Proof.
  intros [Hc Hh] [db Hn] Honce. destruct (tr_node _ _ _ _ _ Hc n db Hn) as (Hwf & _).
  destruct (merge_runs_spec n db c bk i name Hn Hwf) as (db' & Hrun & Hmg).
  exists (with_node n db' c). split; [done|].
  assert (evolves c (with_node n db' c)) as Hev by (by eapply evolves_with_node; [|apply Hmg..]).
  split; [by eapply in_transit_evolves|]. intros name' key' Hk'.
  destruct (Hh name' key' Hk') as [Hw Hf Hp Ho]. set (h := getHKey name' key') in *.
  assert (∀ b d, b ∈ hosts (pid h) → nodes c !! Name b = Some d → (pid h, name') = (i, name) →
    view_single d false (pid h) name' h) as Hsg.
  { intros b d [Hb | ->]%hosts_split Hd E; [by eapply Hp|]. apply Ho; [done|].
    injection E as E1 ->. by apply Honce. }
  assert (∀ b d', b ∈ hosts (pid h) → nodes (with_node n db' c) !! Name b = Some d' →
    ∃ d, nodes c !! Name b = Some d ∧ view d' false (pid h) name' !! h = view d false (pid h) name' !! h
      ∧ (view_single d false (pid h) name' h → view_single d' false (pid h) name' h)) as Hback.
  { intros b d' Hb Hd'. destruct (merged_back n db db' c bk i name Hn Hmg _ d' Hd') as (d & Hd & _ & Hv).
    exists d. split; [done|]. apply Hv. by eapply Hsg. }
  assert (∀ b, b ∈ hosts (pid h) → held_at (with_node n db' c) h name' b = held_at c h name' b) as Hat.
  { intros b Hb. unfold held_at. destruct (nodes (with_node n db' c) !! Name b) as [d'|] eqn:Hd'.
    - destruct (Hback b d' Hb Hd') as (d & -> & Hv & _). done.
    - simpl in Hd'. by apply lookup_insert_None in Hd' as [-> _]. }
  split; [|done|..].
  - unfold held_by_one in *. destruct (m !! (name', key')) as [e|].
    + destruct Hw as (b & Hb & Hb1 & Hb2). exists b. rewrite Hat by done. split; [done|]. split; [done|].
      intros b' Hb' Hne. rewrite Hat by done. by apply Hb2.
    + intros b Hb. rewrite Hat by done. by apply Hw.
  - intros b d' Hb Hd'. destruct (Hback b d') as (d & Hd & _ & Hs); [apply hosts_split; by left|done|].
    by eapply Hs, Hp.
  - intros d' Hd' Hone. destruct (Hback (owner (pid h)) d') as (d & Hd & _ & Hs);
      [apply hosts_split; by right|done|]. by apply Hs, Ho.
Qed.

Lemma event_simulated fuel m c o :
  collision_free K → movable → rebalances m c → tlegal m c o →
  ∃ c', rexec fuel o c = Return ((rspec o m).2, c') ∧ rebalances (rspec o m).1 c'.
Proof.
  intros Hcf Hmo Hrb Hl. destruct o as [n name key value timeout|n name key|n name key|n|n bk i name];
    cbn [tlegal] in Hl.
  - destruct Hl as (? & ? & ?). destruct (tput_simulated fuel m c n name key value timeout)
      as (c' & Hrun & Hr); try done. exists c'. split; [unfold rexec; by step Hrun|done].
  - destruct (tget_simulated fuel m c n name key Hcf Hrb Hl) as (c' & Hrun & Hr).
    exists c'. split; [unfold rexec; by step Hrun|done].
  - destruct Hl. destruct (tdelete_simulated fuel m c n name key) as (c' & Hrun & Hr); try done.
    exists c'. split; [unfold rexec; by step Hrun|done].
  - destruct (fsck_simulated fuel m c n Hmo Hrb Hl) as (c' & Hrun & Hr).
    exists c'. split; [unfold rexec; by step Hrun|done].
  - destruct Hl. destruct (tmerge_simulated m c n bk i name) as (c' & Hrun & Hr); try done.
    exists c'. split; [unfold rexec; by step Hrun|done].
Qed.
End rebalance.

(** ** Time

    The clocks of the nodes agree; they advance between the events. *)
Section time.
Context {S N : Type} `{!KV S} `{!KVLaws S} `{!Snap S N} `{!Env}.
Context `{!BirthdateSort} `{!Codec NodeMetadata} `{!RangeOrder (list byte)} `{!Codec (gmap Z route)}.
Context `{!Codec dmapbox}.
Context {V : Type} `{!Serializer V} `{!SerializerLaws V}.
Abbreviation M := (olric.M S N).
Abbreviation Olric := (olric.Olric S N).
Abbreviation cluster := (olric.cluster S N).
Abbreviation bindings := (gmap (list byte * list byte) entry).
Context (cfg : Config) (prevs : Z → list host) (owner : Z → host) (K : list byte → list byte → Prop).
Abbreviation rebalances := (rebalances cfg prevs owner).

Inductive moment := At (o : event) | Tick (t : Z).

(** The map with the time. *)
Definition tspec (o : moment) (a : Z * bindings) : (Z * bindings) * reply :=
  match o with
  | At o => let '(m, r) := rspec a.1 o a.2 in ((a.1, m), r)
  | Tick t => ((t, a.2), RDone None)
  end.
Fixpoint tspec_run (os : list moment) (a : Z * bindings) : (Z * bindings) * list reply :=
  match os with
  | [] => (a, [])
  | o :: os =>
      let '(a, r) := tspec o a in
      let '(a, rs) := tspec_run os a in (a, r :: rs)
  end.

(** The tick of every node. *)
Fixpoint tick_all (ns : list (list byte)) (t : Z) : M unit :=
  match ns with
  | [] => mret tt
  | n :: ns => _ ← updateCurrentUnixNano n t; tick_all ns t
  end.
Definition texec (fuel : nat) (o : moment) : M reply :=
  match o with
  | At o => rexec (V := V) fuel o
  | Tick t => fun c => (_ ← tick_all (map fst (map_to_list (nodes c))) t; mret (RDone None)) c
  end.
Fixpoint texec_run (fuel : nat) (os : list moment) : M (list reply) :=
  match os with
  | [] => mret []
  | o :: os => r ← texec fuel o; rs ← texec_run fuel os; mret (r :: rs)
  end.

(** The events are legal in the states in which they happen. *)
Fixpoint tlegal_run (fuel : nat) (a : Z * bindings) (c : cluster) (os : list moment) : Prop :=
  match os with
  | [] => True
  | o :: os => match o with At o => tlegal cfg K a.2 c o | Tick _ => True end
      ∧ ∀ r c', texec fuel o c = Return (r, c') → tlegal_run fuel (tspec o a).1 c' os
  end.

Lemma tick_all_run t ns : ∀ c : cluster,
  (∀ n, n ∈ ns → is_Some (nodes c !! n)) →
  ∃ c', tick_all ns t c = Return (tt, c') ∧ net c' = net c
    ∧ ∀ m, nodes c' !! m = (if decide (m ∈ ns) then at_time t else id) <$> nodes c !! m.
Proof.
  induction ns as [|n ns IH]; intros c Hns.
  - exists c. split; [done|]. split; [done|]. intros m.
    rewrite decide_False by apply not_elem_of_nil. by destruct (nodes c !! m).
  - destruct (Hns n) as [db Hn]; [by left|].
    destruct (IH (with_node n (at_time t db) c)) as (c' & Hrun & Hnet & Hall).
    { intros m Hm. simpl. destruct (decide (m = n)) as [->|]; [by rewrite lookup_insert_eq|].
      rewrite lookup_insert_ne by done. apply Hns. by right. }
    exists c'. split; [|split; [done|]].
    + cbn [tick_all]. rewrite (bind_run _ _ _ tt (with_node n (at_time t db) c)); [done|].
      unfold updateCurrentUnixNano. at_node Hn. apply put_node_run.
    + intros m. rewrite Hall. simpl. destruct (decide (m = n)) as [->|Hne].
      * rewrite lookup_insert_eq, Hn, (decide_True (P := n ∈ n :: ns)) by by left. simpl. f_equal. by case_decide.
      * rewrite lookup_insert_ne by done. f_equal. repeat case_decide; try done; set_solver.
Qed.

(** A tick changes no binding. *)
Lemma rebalances_tick now t m (c c' : cluster) :
  rebalances now K m c → net c' = [] → (∀ k, nodes c' !! k = at_time t <$> nodes c !! k) →
  rebalances t K m c'.
Proof.
  intros [[Hnet Hnode Hown Hup Hprev] Hh] Hnet' Hall.
  assert (∀ k d, nodes c' !! k = Some d → ∃ d', nodes c !! k = Some d' ∧ d = at_time t d') as Hback.
  { intros k d. rewrite Hall. intros (d' & -> & ?)%fmap_Some. eauto. }
  split; [split; [done|..]|].
  - intros k d (d' & Hd & ->)%Hback. destruct (Hnode k d' Hd) as ([] & ? & ? & ? & ?). by repeat (split; try done).
  - intros k d i (d' & Hd & ->)%Hback. exact (Hown k d' i Hd).
  - intros i Hi. destruct (Hup i Hi) as (d & Hd & Ht). exists (at_time t d). by rewrite Hall, Hd.
  - intros i b Hi Hb. rewrite Hall. destruct (Hprev i b Hi Hb) as [d ->]. by eexists.
  - intros name key Hk. destruct (Hh name key Hk) as [Hw Hf Hp Ho].
    assert (∀ b, held_at cfg c' (getHKey name key) name b = held_at cfg c (getHKey name key) name b) as Hat.
    { intros b. unfold held_at. rewrite Hall. by destruct (nodes c !! Name b). }
    split; [|done|..].
    + unfold held_by_one in *. destruct (m !! (name, key)); by setoid_rewrite Hat.
    + intros b d Hb (d' & Hd & ->)%Hback. exact (Hp b d' Hb Hd).
    + intros d (d' & Hd & ->)%Hback Hone. exact (Ho d' Hd Hone).
Qed.

Lemma moment_simulated fuel a c o :
  collision_free K → movable cfg prevs owner → rebalances a.1 K a.2 c →
  match o with At o => tlegal cfg K a.2 c o | Tick _ => True end →
  ∃ c', texec fuel o c = Return ((tspec o a).2, c') ∧ rebalances (tspec o a).1.1 K (tspec o a).1.2 c'.
Proof.
  intros Hcf Hmo Hrb Hl. destruct a as [now m], o as [o|t]; cbn [fst snd] in *.
  - destruct (event_simulated (V := V) cfg prevs owner now K fuel m c o Hcf Hmo Hrb Hl) as (c' & Hrun & Hr).
    exists c'. cbn [texec tspec fst snd]. by destruct (rspec now o m).
  - destruct (tick_all_run t (map fst (map_to_list (nodes c))) c) as (c' & Hrun & Hnet & Hall).
    { intros n ([? d] & -> & Hd%elem_of_map_to_list)%list_elem_of_fmap. by exists d. }
    exists c'. split; [unfold texec; by step Hrun|].
    apply (rebalances_tick now t m c c'); [done|rewrite Hnet; apply Hrb|].
    intros k. rewrite Hall. case_decide as Hk; [done|]. destruct (nodes c !! k) as [d|] eqn:Hd; [|done].
    destruct Hk. apply list_elem_of_fmap. exists (k, d). split; [done|]. by apply elem_of_map_to_list.
Qed.

(** C2: rebalancing is invisible: while every partition may have previous owners that still
    hold some of its maps, any program of puts with or without a timeout, gets and deletes, each
    on the node of its choice, of checks ([fsck]) that move the maps of a node to the new
    owners in between, of chunks of the merges of their tables and of ticks of the clock, runs
    to its end and gets exactly the answers of one finite map with expiring bindings.  It
    starts from any cluster in which one of the owners of a key, old or new, has its binding.
    The cluster keeps its bindings in memory only and no backups, its clocks agree and no
    request is lost; the keys have distinct hashes and the values fit every storage; the
    program only deletes keys whose binding has not replaced another, a merge runs in a map and
    partition where no binding has replaced another, and the checks run when no lock is held
    on the maps that move and the receivers can take them. *)
Theorem rebalancing_refines_map fuel os : ∀ a c,
  collision_free K → movable cfg prevs owner → rebalances a.1 K a.2 c → tlegal_run fuel a c os →
  ∃ c', texec_run fuel os c = Return ((tspec_run os a).2, c')
    ∧ rebalances (tspec_run os a).1.1 K (tspec_run os a).1.2 c'.
Proof.
  induction os as [|o os IH]; intros a c Hcf Hmo Hrb Hlegal; [by exists c|].
  destruct Hlegal as [Hl Hls].
  destruct (moment_simulated fuel a c o Hcf Hmo Hrb Hl) as (c1 & Hrun & Hrb1).
  destruct (IH _ c1 Hcf Hmo Hrb1 (Hls _ _ Hrun)) as (c2 & Hrun2 & Hrb2). exists c2.
  cbn [texec_run tspec_run]. step Hrun. step Hrun2.
  destruct (tspec o a) as [a1 r]. cbn [fst snd] in *.
  by destruct (tspec_run os a1) as [a2 rs].
Qed.
End time.
End rebalance.
