(* ===== verification/MoveExample.v ===== *)
(** Concrete instances of the theorems on moving and destroying maps: two nodes, of which the second has
    just become the owner of the only partition. *)

From S2P Require Export TransitSpec DestroySpec.

Module move_example.
Export example transit destroyspec.

Definition mv_config : Config := mkConfig 1 0 SyncBackupMode OpInMemory (2 ^ 20) DefaultLoadFactor.
Definition mv_hkey : Z := getHKey ex_name ex_key.
Definition mv_vdata : VData := mkVData ex_key 0 ex_value.
Definition mv_empty : storage.Storage := storage.mkStorage [storage.empty_table (2 ^ 20)] 0 0 false.

Lemma mv_empty_wf : kv_ok mv_empty.
Proof. split; [done|]. simpl. constructor; [|done]. by apply storage.wf_empty_table. Qed.

(** The storage of the map of the first node. *)
Definition mv_store : storage.Storage :=
  match kv_put mv_empty mv_hkey mv_vdata with Return (s, _) => s | _ => mv_empty end.

Lemma mv_small : kv_small mv_vdata.
Proof. apply (bool_decide_unpack _). vm_compute. exact I. Qed.

Lemma mv_store_spec : kv_ok mv_store ∧ kv_map mv_store = {[mv_hkey := mv_vdata]}.
Proof.
  destruct (kv_put_ok mv_empty mv_hkey mv_vdata mv_empty_wf) as (s & Hs & Hok & Hm & _).
  { apply kv_small_room; [apply mv_empty_wf|apply mv_small]. }
  unfold mv_store. rewrite Hs. split; [done|]. by rewrite Hm.
Qed.

Definition mv_dmap : dmap storage.Storage := mkDmap false (Some locker.newLocker) None mv_store.
Definition mv_owners : list host := [alice; bob].

(** The nodes after the routing table has been installed. *)
Definition mv_node (h : host) (count : Z) (m : gmap (list byte) nat) (hp : list (dmap storage.Storage))
    : Olric storage.Storage unit :=
  set_heap hp (set_bcx BootCanceled
    (set_part true (mkPartition 0 0 true ∅ []) (set_part false (mkPartition count 0 false m mv_owners)
       (joined h ex_members (ring_of mv_config [alice; bob]) (fresh_node mv_config))))).
Definition mv_alice : Olric storage.Storage unit := mv_node alice 1 {[ex_name := O]} [mv_dmap].
Definition mv_bob : Olric storage.Storage unit := mv_node bob 0 ∅ [].
Definition mv_cluster : cluster storage.Storage unit :=
  mkCluster {[Name alice := mv_alice; Name bob := mv_bob]} [] [].

Lemma mv_table h count m hp bk i :
  table_of bk (mv_node h count m hp) !! i
  = if decide (i = 0) then Some (if bk then mkPartition 0 0 true ∅ [] else mkPartition count 0 false m mv_owners)
    else None.
Proof.
  assert (∀ bk, New_partitions bk 1 = {[0 := mkPartition 0 0 bk ∅ []]}) as HN by by intros [].
  case_decide as Hi; [subst; by destruct bk|].
  destruct bk; cbn [table_of mv_node set_heap set_bcx set_part joined partitions backups p_id];
    change (partitions (fresh_node mv_config)) with (New_partitions false 1);
    change (backups (fresh_node mv_config)) with (New_partitions true 1); rewrite HN;
    rewrite lookup_insert_ne by done; by apply lookup_singleton_ne.
Qed.

Lemma mv_ref h count m hp bk i name :
  ref (mv_node h count m hp) bk i name
  = if decide (bk = false ∧ i = 0) then m !! name else None.
Proof.
  unfold ref. rewrite mv_table. destruct bk.
  - rewrite (decide_False (P := true = false ∧ _)) by (by intros [? _]). by case_decide.
  - destruct (decide (i = 0)); [by rewrite decide_True|by rewrite decide_False by tauto].
Qed.

Lemma mv_alice_ref bk i name a :
  ref mv_alice bk i name = Some a → bk = false ∧ i = 0 ∧ name = ex_name ∧ a = O.
Proof.
  unfold mv_alice. rewrite mv_ref. case_decide as Hd; [|done]. destruct Hd as [-> ->].
  by intros [<- <-]%lookup_singleton_Some.
Qed.

Lemma mv_bob_ref bk i name : ref mv_bob bk i name = None.
Proof. unfold mv_bob. rewrite mv_ref. by case_decide. Qed.

Lemma mv_wf h count m hp :
  (∀ bk i name a, ref (mv_node h count m hp) bk i name = Some a →
     bk = false ∧ i = 0 ∧ name = ex_name ∧ a = O ∧ hp = [mv_dmap]) →
  wf_node None (mv_node h count m hp).
Proof.
  intros Hr. split; [done|done|..].
  - intros bk i Hi. simpl in Hi. assert (i = 0) as -> by lia. rewrite mv_table. eexists.
    split; [done|]. by destruct bk.
  - intros bk i name a Ha. destruct (Hr _ _ _ _ Ha) as (_ & _ & _ & -> & ->). exists mv_dmap.
    split; [done|]. split; [done|]. apply mv_store_spec.
  - intros b1 b2 i1 i2 n1 n2 a H1 H2. destruct (Hr _ _ _ _ H1) as (-> & -> & -> & _).
    by destruct (Hr _ _ _ _ H2) as (-> & -> & -> & _).
Qed.

Lemma mv_alice_wf : wf_node None mv_alice.
Proof. apply mv_wf. intros bk i name a Ha. by destruct (mv_alice_ref _ _ _ _ Ha) as (-> & -> & -> & ->). Qed.
Lemma mv_bob_wf : wf_node None mv_bob.
Proof. apply mv_wf. intros bk i name a Ha. change (ref mv_bob bk i name = Some a) in Ha. by rewrite mv_bob_ref in Ha. Qed.

Lemma mv_at_alice : nodes mv_cluster !! Name alice = Some mv_alice.
Proof. apply lookup_insert_eq. Qed.
Lemma mv_at_bob : nodes mv_cluster !! Name bob = Some mv_bob.
Proof. simpl. rewrite lookup_insert_ne by done. apply lookup_insert_eq. Qed.

Lemma mv_lookup n db :
  nodes mv_cluster !! n = Some db → (n = Name alice ∧ db = mv_alice) ∨ (n = Name bob ∧ db = mv_bob).
Proof.
  simpl. intros [[<- <-]|[_ Hn]]%lookup_insert_Some; [by left|].
  apply lookup_singleton_Some in Hn as [<- <-]. by right.
Qed.

Definition mv_prevs (i : Z) : list host := [alice].
Definition mv_owner (i : Z) : host := bob.

Lemma mv_transit : in_transit mv_config mv_prevs mv_owner 0 mv_cluster.
Proof.
  split.
  - done.
  - intros n db [[-> ->]|[-> ->]]%mv_lookup; (split; [apply mv_alice_wf || apply mv_bob_wf|done]).
  - intros n db i Hn Hi. simpl in Hi. assert (i = 0) as -> by lia.
    by apply mv_lookup in Hn as [[-> ->]|[-> ->]].
  - intros i _. exists mv_bob. split; [apply mv_at_bob|done].
  - intros i b _ ->%list_elem_of_singleton. rewrite mv_at_alice. by eexists.
Qed.

Lemma mv_sendable : sendable (2 ^ 20) false 0 ex_name mv_dmap.
Proof.
  destruct mv_store_spec as [Hok Hm]. split.
  - intros _. exists locker.newLocker. split; reflexivity.
  - vm_compute. reflexivity.
  - eexists _, _. split; [vm_compute; reflexivity|]. split; [vm_compute; reflexivity|].
    apply (bool_decide_unpack _). vm_compute. exact I.
  - intros h v. change (dm_str mv_dmap) with mv_store. rewrite Hm. intros [<- <-]%lookup_singleton_Some. apply mv_small.
Qed.

Lemma mv_can_leave j : 0 ≤ j < PartitionCount mv_config → can_leave mv_config (Name alice) mv_alice mv_cluster j.
Proof.
  simpl. intros Hj. assert (j = 0) as -> by lia. intros o Ho.
  assert (o = bob) as -> by (vm_compute in Ho; by injection Ho as <-).
  split; [done|]. split; [rewrite mv_at_bob; by eexists|]. intros name a d Hr Hd.
  destruct (mv_alice_ref _ _ _ _ Hr) as (_ & _ & -> & ->). injection Hd as <-. apply mv_sendable.
Qed.

Lemma mv_idle : idle_backup (calcMaxBackupCount (BackupCount mv_config) (numMembers mv_alice)) mv_alice.
Proof.
  intros j q Hq. right. pose proof (mv_table alice 1 {[ex_name := O]} [mv_dmap] true j) as Ht.
  change (backups mv_alice !! j = if decide (j = 0) then Some (mkPartition 0 0 true ∅ []) else None) in Ht.
  rewrite Hq in Ht. case_decide; [|done]. injection Ht as ->. vm_compute. discriminate.
Qed.

Lemma mv_range : 0 ≤ 0 < PartitionCount mv_config.
Proof. done. Qed.

Lemma mv_leaving : leaving mv_alice 0 = Some bob.
Proof. vm_compute. reflexivity. Qed.

Lemma mv_alice_view : view mv_alice false 0 ex_name = {[mv_hkey := mv_vdata]}.
Proof.
  destruct mv_store_spec as [_ <-]. unfold view.
  assert (ref mv_alice false 0 ex_name = Some O) as -> by (vm_compute; reflexivity). done.
Qed.

Lemma mv_bob_view : view mv_bob false 0 ex_name = ∅.
Proof. unfold view. by rewrite mv_bob_ref. Qed.

Lemma fsck_hands_over_witness :
  ∃ c' x y, fsck (ex_serve 1) (Name alice) mv_cluster = Return (tt, c')
    ∧ nodes c' !! Name alice = Some x ∧ view x false 0 ex_name = ∅
    ∧ nodes c' !! Name bob = Some y ∧ view y false 0 ex_name = {[mv_hkey := mv_vdata]}.
Proof.
  destruct (fsck_hands_over (V := go_value) mv_config 0 (Name alice) mv_alice mv_cluster
    (transit_moving _ _ _ _ _ mv_transit ltac:(done)) mv_at_alice mv_can_leave mv_idle)
    as (c' & Hrun & _ & Hv).
  pose proof (Hv (Name alice) mv_alice mv_at_alice) as (x & Hx & _ & Hvx).
  pose proof (Hv (Name bob) mv_bob mv_at_bob) as (y & Hy & _ & Hvy).
  pose proof (proj2 (Hvx 0 ex_name mv_range)) as Hvx0. pose proof (proj2 (Hvy 0 ex_name mv_range)) as Hvy0.
  exists c', x, y. split; [exact Hrun|]. split; [exact Hx|].
  rewrite mv_leaving in Hvx0, Hvy0. split; [exact Hvx0|]. split; [exact Hy|].
  etrans; [exact Hvy0|]. rewrite mv_alice_view, mv_bob_view. apply map_empty_union.
Defined.

Lemma Get_survives_rebalancing_witness :
  (∃ c1, get (ex_serve 2) (Name bob) ex_name ex_key mv_cluster = Return (inr ex_value, c1))
  ∧ ∃ c', fsck (ex_serve 1) (Name alice) mv_cluster = Return (tt, c')
    ∧ ∃ c2, get (ex_serve 2) (Name bob) ex_name ex_key c' = Return (inr ex_value, c2).
Proof.
  exact (Get_survives_rebalancing (V := go_value) mv_config mv_prevs mv_owner 0 0 (Name alice) (Name bob)
    mv_alice mv_bob mv_bob mv_cluster ex_name ex_key mv_transit mv_at_alice mv_at_bob mv_at_bob
    eq_refl eq_refl mv_can_leave mv_idle
    ltac:(apply (bool_decide_unpack _); vm_compute; exact I)
    ltac:(intros v Hv; vm_compute in Hv; injection Hv as <-; vm_compute; done)
    ltac:(intros v Hv; vm_compute in Hv; discriminate)).
Defined.

Lemma mv_members : getMembers mv_bob = [alice; bob].
Proof. vm_compute. reflexivity. Qed.

Lemma mv_closable h : h ∈ getMembers mv_bob →
  ∃ dbm, nodes mv_cluster !! Name h = Some dbm ∧ closable ex_name dbm.
Proof.
  rewrite mv_members, !elem_of_cons, elem_of_nil. intros [->|[->|[]]].
  - exists mv_alice. split; [apply mv_at_alice|]. intros bk j a d Hr Hd.
    destruct (mv_alice_ref _ _ _ _ Hr) as (_ & _ & _ & ->). injection Hd as <-.
    eexists. vm_compute. reflexivity.
  - exists mv_bob. split; [apply mv_at_bob|]. intros bk j a d Hr. by rewrite mv_bob_ref in Hr.
Qed.

Lemma mv_names : NoDup (map Name (getMembers mv_bob)).
Proof. rewrite mv_members. apply (bool_decide_unpack _). vm_compute. exact I. Qed.

Lemma mv_nodes m dbm : nodes mv_cluster !! m = Some dbm → wf_node None dbm ∧ config dbm = mv_config.
Proof.
  intros [[-> ->]|[-> ->]]%mv_lookup; [by split; [apply mv_alice_wf|]|by split; [apply mv_bob_wf|]].
Qed.

Lemma Destroy_removes_map_witness :
  ∃ c' x, DMap_Destroy (ex_serve 1) (Name bob) ex_name mv_cluster = Return (None, c')
    ∧ nodes c' !! Name alice = Some x ∧ view x false 0 ex_name = ∅.
Proof.
  destruct (Destroy_removes_map (V := go_value) mv_config 0 (Name bob) mv_bob mv_cluster ex_name
    eq_refl mv_at_bob eq_refl ltac:(apply (bool_decide_unpack _); vm_compute; exact I)
    mv_names mv_nodes mv_closable) as (c' & Hrun & Hd).
  pose proof (Hd (Name alice) mv_alice mv_at_alice) as (x & Hx & Hv).
  pose proof (Hv false 0 ex_name mv_range) as Hv0. exists c', x. split; [exact Hrun|].
  split; [exact Hx|]. rewrite Hv0, mv_members. reflexivity.
Defined.
End move_example.
