(* ===== verification/EvictionExample.v ===== *)
(** A node of its own whose map holds expired keys: the theorems on the eviction at work. *)

From S2P Require Export EvictionSpec ClusterExample.

Module eviction_example.
Export example evspec.

(** One partition, no backups; the clock is past the deadline of [table.sample_value]. *)
Definition lone_config : Config :=
  mkConfig 1 0 SyncBackupMode OpInMemory (2 ^ 20) DefaultLoadFactor.
Definition lone_map (s : storage.Storage) : dmap storage.Storage := mkDmap false None None s.
Definition lone_node (s : storage.Storage) : Olric storage.Storage unit :=
  mkOlric alice lone_config [mkNode (Name alice) (meta alice)] (ring_of lone_config [alice])
    {[0 := mkPartition 1 0 false {[ex_name := 0%nat]} [alice]]} {[0 := mkPartition 0 0 true ∅ []]}
    [lone_map s] tt BootCanceled (2 * 10 ^ 18).
Definition lone_cluster (s : storage.Storage) : cluster storage.Storage unit :=
  mkCluster {[Name alice := lone_node s]} [] [].

Lemma lone_alone s : alone (lone_node s).
Proof.
  split; [done|done|]. intros h. exists alice. unfold getPartitionOwners, getPartition, getPartitionID.
  cbn [config lone_node PartitionCount lone_config Z.eqb negb checked]. by rewrite Z.mod_1_r.
Qed.


Lemma eviction_deletes_live_witness :
  ∃ s', scanDMapForEviction (ex_serve 1) 1 (fun _ => false) (fun _ _ _ => false) (Name alice) ex_name 0
      (lone_cluster storage.two_tables)
    = Return (1, with_node (Name alice) (set_dm 0 (with_str s' (lone_map storage.two_tables))
        (lone_node storage.two_tables)) (lone_cluster storage.two_tables))
    ∧ storage.contents storage.two_tables !! 42 = Some storage.other_value
    ∧ storage.contents s' !! 42 = Some table.sample_value.
Proof.
  apply (eviction_deletes_a_live_value (ex_serve 1) 0 (Name alice) ex_name 0
    (lone_cluster storage.two_tables) (lone_node storage.two_tables) (lone_map storage.two_tables)
    table.sample_table
    (table.append (storage.empty_table table.minimumSize) 42 (table.entry_bytes storage.other_value))
    0 0 42).
  - reflexivity.
  - apply lone_alone.
  - reflexivity.
  - reflexivity.
  - exact storage.two_tables_wf.
  - reflexivity.
  - vm_compute. reflexivity.
  - vm_compute. reflexivity.
  - vm_compute. reflexivity.
  - vm_compute. reflexivity.
  - reflexivity.
  - reflexivity.
Defined.
Lemma eviction_deadlocks_witness :
  scanDMapForEviction (ex_serve 1) 5 (fun _ => false) (fun _ _ _ => true) (Name alice) ex_name 0
    (lone_cluster storage.one_table) = Running.
Proof.
  apply (eviction_deadlocks (ex_serve 1) 5 (fun _ => false) (fun _ _ _ => true) (Name alice) ex_name 0
    (lone_cluster storage.one_table) (lone_node storage.one_table) (lone_map storage.one_table)
    table.sample_table 0 42 table.sample_value).
  - reflexivity.
  - apply lone_alone.
  - reflexivity.
  - reflexivity.
  - exact storage.one_table_wf.
  - reflexivity.
  - vm_compute. reflexivity.
  - vm_compute. reflexivity.
  - reflexivity.
  - reflexivity.
  - reflexivity.
Defined.
End eviction_example.
