(* ===== verification/DiscoveryExample.v ===== *)
(** The events of the membership and the ring on the cluster of [ClusterExample.v]. *)

From S2P Require Export DiscoverySpec ClusterExample.

Module discovery_example.
Export example dspec.

Definition ex_discovery : discovery := mkDiscovery (Name bob) [Name alice] 20 false 0 [] [] LNone.

Lemma ex_newDiscovery : newDiscovery 20 (Name bob) [Name alice] None = inr ex_discovery.
Proof. vm_compute. reflexivity. Qed.

(** The first host has been restarted, with a new date of birth. *)
Definition reborn : host := mkHost 30 (Name alice).
Definition reborn_node : Node := mkNode (Name alice) (meta reborn).

(** memberlist has sent an update, the loop has taken it and sent the first half. *)
Definition ex_halfway : sys :=
  mkSys (mkDiscovery (Name bob) [Name alice] 20 false 1 [] [[(NodeLeave, reborn_node)]]
           (LSend [(0%nat, (NodeJoin, reborn_node))])) DNone false [(NodeUpdate, reborn_node)] [].

Lemma ex_halfway_reachable : rtc step (started ex_discovery []) ex_halfway.
Proof.
  eapply rtc_l; [by apply e_joined|].
  eapply rtc_l; [apply (e_notify _ _ _ _ _ (NodeUpdate, reborn_node)); simpl; unfold eventChanCapacity; lia|].
  eapply rtc_l; [by eapply e_take|]. cbn.
  eapply rtc_l; [eapply e_send; [done|done|simpl; unfold eventChanCapacity; lia]|]. apply rtc_refl.
Qed.

Lemma events_reach_the_listener_witness :
  ∃ buf, eventSubscribers (dsc ex_halfway) = [buf]
    ∧ received ex_halfway ++ buf ++ (sends_left (dsc ex_halfway)).*2
        ++ expand_all (Name bob) (eventsCh (dsc ex_halfway))
      = expand_all (Name bob) (notified ex_halfway).
Proof.
  exact (proj1 (events_reach_the_listener 20 (Name bob) [Name alice] ex_discovery [] ex_halfway
    ex_newDiscovery ex_halfway_reachable)).
Defined.

Lemma discovery_shutdown_hangs_witness :
  ∃ s, rtc step (started ex_discovery []) s ∧ stopping s = DWaiting
    ∧ ∀ s', rtc step s s' → stopping s' = DWaiting.
Proof.
  apply (discovery_shutdown_hangs 20 (Name bob) [Name alice] ex_discovery reborn_node ex_newDiscovery).
  discriminate.
Defined.

(** ** The ring *)
Definition ex_ring_config : consistent.Config := consistent.config (ring (fresh_node ex_config)).
Definition ex_hosts : list (list byte) := [Name alice; Name bob].

Lemma ex_roomy : roomy ex_ring_config ex_hosts.
Proof.
  split; [apply (bool_decide_unpack _); vm_compute; exact I|apply (bool_decide_unpack _); vm_compute; exact I
    |done|done|done].
Qed.

Lemma ex_member h : member_host (mkNode (Name h) (meta h)) = h.
Proof.
  unfold member_host, DecodeMeta. cbn [node_Meta node_Name].
  rewrite (Unmarshal_Marshal (mkMetadata (Birthdate h)) (meta h)) by done. by destruct h.
Qed.

Lemma ex_ring_sound : sound ex_ring_config ex_hosts ex_ring.
Proof.
  assert (sound ex_ring_config ex_hosts (ring (fresh_node ex_config))) as S0.
  { split; [apply ringspec.empty_ring_wf|done|by intros ? []|done]. }
  destruct (sound_event _ _ _ (NodeJoin, mkNode (Name alice) (meta alice)) ex_roomy S0)
    as (r1 & H1 & S1 & _); [by apply elem_of_cons; left|].
  destruct (sound_event _ _ _ (NodeJoin, mkNode (Name bob) (meta bob)) ex_roomy S1)
    as (r2 & H2 & S2 & _); [by apply elem_of_cons; right; apply elem_of_cons; left|].
  cbn [fst snd] in H1, H2. rewrite ex_member in H1, H2.
  assert (consistent.Add alice (ring (fresh_node ex_config)) = Return r1) as E1 by exact H1.
  assert (consistent.Add bob r1 = Return r2) as E2 by exact H2.
  assert (ex_ring = r2) as ->; [|done]. unfold ex_ring, ring_of. cbn [foldl]. by rewrite E1, E2.
Qed.

Lemma ring_follows_members_witness :
  ∃ r, listenMemberlistEvents (ex_serve 1) (Name bob)
        (expand_all (Name bob) [(NodeUpdate, reborn_node)]) ex_cluster
      = Return (tt, with_node (Name bob) (set_ring r (ex_node bob)) ex_cluster)
    ∧ sound ex_ring_config ex_hosts r ∧ consistent.members r !! Name alice = Some reborn.
Proof.
  destruct (ring_follows_members (ex_serve 1) ex_ring_config ex_hosts (Name bob) ex_cluster (ex_node bob)
    [(NodeUpdate, reborn_node)] ex_roomy ex_bob) as (r & Hrun & Hr & Hm).
  - vm_compute. reflexivity.
  - exact ex_ring_sound.
  - apply Forall_singleton. by apply elem_of_cons; left.
  - exists r. split; [exact Hrun|]. split; [exact Hr|]. rewrite Hm.
    assert (∀ ms : gmap (list byte) host,
      foldl (follow (Name bob)) ms [(NodeUpdate, reborn_node)] = <[Name alice := reborn]> ms) as E.
    { intros ms. cbn [foldl]. unfold follow. cbn [fst snd].
      change reborn_node with (mkNode (Name reborn) (meta reborn)). by rewrite ex_member. }
    by rewrite E, lookup_insert_eq.
Defined.
End discovery_example.
