(* ===== verification/SetupExample.v ===== *)
(** Concrete configurations for the theorems of [SetupSpec.v]. *)

From S2P Require Export SetupSpec ClusterExample.

Module setup_example.
Export example setupspec.

(** Only the output of the log is set. *)
Definition up_config : Config :=
  mkSetup [] [] zero_node 0 0 [] None None [] [] (Some (Writer 1)) None 0 0 (consistent.mkFloat 0 0) None None.
Definition up_process : process := mkProcess {[7%nat := up_config]} initial_limit ∅.
Definition up_system : system unit := mkSystem (inr (text "earth")) (inr (text "/")) (fun _ _ _ _ => inr tt).

End setup_example.
