(* ===== verification/SerializersExample.v ===== *)
(** Concrete values for the theorems on serializers and counters. *)

From S2P Require Export CounterSpec ClusterExample.

Module serializers_example.
Export example counter.

(** ** gob *)
Definition no_type (o : unit) : gotype := TNamed (text "main") (text "main") (text "Empty").
Definition no_gob (name : list byte) (v : value unit) : serror + list byte := inl (SOther 1).
Definition no_gob_read (bs : list byte) : serror + value unit := inl (SOther 1).
Definition no_json (v : value unit) : serror + list byte := inl (SOther 2).
Definition no_json_read (bs : list byte) : serror + value unit := inl (SOther 2).
Definition no_other (o : unit) : serror + list byte := inl (SOther 3).
Definition no_other_read (c : Z) (bs : list byte) : serror + unit := inl (SOther 3).

(** The bytes that gob writes for an [int], as its documentation lays them out: the length, an
    interface, the name of the type, the type, the length of the value, the value. *)
Example gob_bytes :
  Encode no_type no_gob (mkRegistry ∅ {[TBasic (text "int") := text "int"]}) (VNumber Int 5 : value unit)
  = inr [x0a; x10; x00; x03; x69; x6e; x74; x04; x02; x00; x0a].
Proof. vm_compute. reflexivity. Qed.

(** An [int], from one process to another with the types that every process knows, and to one
    that knows none. *)
Lemma serializers_witness :
  ∃ r bs r', registerBasics = Return r
    ∧ Marshal no_other no_type no_gob no_json gobSerializer (VNumber Int (-300)) r = Return (inr bs, r')
    ∧ Unmarshal no_other_read no_gob_read no_json_read gobSerializer r bs = inr (VNumber Int (-300))
    ∧ Unmarshal no_other_read no_gob_read no_json_read gobSerializer (mkRegistry ∅ ∅) bs
      = inl (SNameNotRegistered (text "int")).
Proof.
  destruct basics_registered as (r & Hr & Hb).
  destruct (Hb (TBasic (text "int"))) as [H1 H2].
  { apply list_elem_of_In. vm_compute. tauto. }
  destruct (serializers_correct no_other no_other_read no_type no_gob no_gob_read no_json no_json_read
    (VNumber Int (-300)) r) as [Hg _].
  destruct (Hg _ eq_refl) as [_ Hrun].
  destruct Hrun as (res & r' & Hm & _ & _ & _ & Hres).
  { change (TBasic (kind_name Int)) with (TBasic (text "int")). split; [by rewrite H1|].
    change (base (TBasic (text "int"))) with (TBasic (text "int")). by rewrite H2. }
  destruct (Hres ltac:(unfold gob_scalar, in_kind; simpl; lia)) as (bs & -> & Hd).
  exists r, bs, r'. split; [done|]. split; [exact Hm|].
  split; [by apply (Hd r)|by apply (Hd (mkRegistry ∅ ∅))].
Defined.

(** ** Counting with msgpack *)
#[local] Instance ex_msgpack : Serializer (value unit) :=
  msgpack_serializer no_other no_other_read no_type (fun _ => true) tt eq_refl (fun _ => []).
Definition count (c : olric.cluster storage.Storage unit) (n : list byte) :=
  atomicIncrDecr (V := value unit) (dispatch.serve (V := value unit) 2) n ex_name ex_key incr 5 c.

(** The first [Incr] of a key succeeds, the second does not. *)
Example msgpack_counts_once :
  match count ex_cluster (Name bob) with
  | Return (inr z, c) =>
      z = 5 ∧ match count c (Name alice) with
              | Return (r, _) => r = inl (EText (text "mismatched type: int64"))
              | _ => False
              end
  | _ => False
  end.
Proof. vm_compute. done. Qed.
End serializers_example.
