(* ===== verification/SpecExamples.v ===== *)
(** Concrete instances of the theorems on the refinement of one map, on locks and atomic
    operations, on the routing table and on moved maps. *)

From S2P Require Export AtomicSpec ClientSpec TransportSpec MapSpec FsckSpec.

Module spec_examples.
Export example atomic fspec.

Abbreviation node := (Olric storage.Storage unit).

(** ** The abstract map *)
Definition ex_other : list byte := text "other".

(** A program on both nodes: a key is put, read, deleted and read again, with a chunk of a
    merge in between; another one is put with a timeout and read before and after it
    expires; then a key is locked and unlocked, locked again until the timeout of the lock
    elapses, counted up and down, and replaced. *)
Definition ex_program : list mapspec.op :=
  [mapspec.OPut (Name bob) ex_name ex_key ex_value 0;
   mapspec.OGet (Name alice) ex_name ex_key;
   mapspec.OMerge (Name alice) false (pid ex_config (getHKey ex_name ex_key)) ex_name;
   mapspec.ODelete (Name alice) ex_name ex_key;
   mapspec.OGet (Name bob) ex_name ex_key;
   mapspec.OPut (Name alice) ex_name ex_other ex_value 5000000;
   mapspec.OGet (Name bob) ex_name ex_other;
   mapspec.OTick (Name alice) 5000000;
   mapspec.OGet (Name bob) ex_name ex_other;
   mapspec.OLock (Name bob) ex_name ex_key 1000;
   mapspec.OUnlock (Name alice) ex_name ex_key;
   mapspec.OUnlock (Name bob) ex_name ex_key;
   mapspec.OLock (Name alice) ex_name ex_key 1000;
   mapspec.OLockTimeout ex_name ex_key;
   mapspec.OUnlock (Name alice) ex_name ex_key;
   mapspec.OIncrDecr (Name bob) ex_name ex_key incr 5;
   mapspec.OIncrDecr (Name alice) ex_name ex_key decr 7;
   mapspec.OGetPut (Name bob) ex_name ex_key ex_value].

Definition ex_replies : list mapspec.reply :=
  [mapspec.RDone None; mapspec.RValue (inr ex_value); mapspec.RDone None; mapspec.RDone None;
   mapspec.RValue (inl OErrKeyNotFound); mapspec.RDone None;
   mapspec.RValue (inr ex_value); mapspec.RDone None;
   mapspec.RValue (inl OErrKeyNotFound); mapspec.RDone None; mapspec.RDone None;
   mapspec.RDone (Some OErrNoSuchLock); mapspec.RDone None; mapspec.RDone None;
   mapspec.RDone (Some OErrNoSuchLock); mapspec.RNumber (inr 5); mapspec.RNumber (inr (-2));
   mapspec.ROld (inr (Some (storage.pos_bytes (encode (GoInt (-2))))))].

Definition ex_K (name key : list byte) : Prop := name = ex_name ∧ (key = ex_key ∨ key = ex_other).

Abbreviation ex_legal := (mapspec.legal (V := go_value) ex_config ex_owner ex_K).
Abbreviation ex_spec := (mapspec.spec (V := go_value) (mapspec.owner_node ex_config ex_owner)).

Lemma ex_callable a n key :
  is_Some (mapspec.am_clock a !! n) → key = ex_key ∨ key = ex_other →
  mapspec.callable ex_config ex_K a n ex_name key.
Proof.
  intros Hn Hk. split; [done|]. split; [done|].
  by destruct Hk as [-> | ->]; apply (bool_decide_unpack _); vm_compute.
Qed.

Lemma ex_storable key value :
  key = ex_key ∨ key = ex_other → len value ≤ 100 → mapspec.storable ex_config ex_name key value.
Proof.
  intros Hk Hv. assert (len ex_name = 5 ∧ len key ≤ 100) as [Hn Hl] by (by destruct Hk as [-> | ->]).
  assert (MaxValueSize ex_config = 2 ^ 20) as Hm by done. split.
  - split; [lia|]. split; [lia|]. split; lia.
  - intros ttl Httl. assert (table.minimumSize = 2 ^ 20) as Hmin by done.
    split; [split; [simpl; lia|]; split; [done|simpl; lia]|]. rewrite Hmin. unfold table.entry_size. simpl. lia.
Qed.

Lemma ex_legal_get a n key :
  is_Some (mapspec.am_clock a !! n) → key = ex_key ∨ key = ex_other →
  ex_legal a (mapspec.OGet n ex_name key).
Proof. apply ex_callable. Qed.

Lemma ex_legal_put a n key timeout :
  is_Some (mapspec.am_clock a !! n) → key = ex_key ∨ key = ex_other → in_int64 timeout →
  ex_legal a (mapspec.OPut n ex_name key ex_value timeout).
Proof.
  intros Hn Hk Ht. split; [by apply ex_callable|]. split; [done|]. by apply ex_storable.
Qed.

Lemma ex_legal_delete a n key :
  is_Some (mapspec.am_clock a !! n) → key = ex_key ∨ key = ex_other →
  mapspec.once (mapspec.am_map a !! (ex_name, key)) → ex_legal a (mapspec.ODelete n ex_name key).
Proof. intros Hn Hk Ho. split; [by apply ex_callable|done]. Qed.

(** A counter that is missing or holds an integer. *)
Lemma ex_legal_incr a n opr delta z data :
  is_Some (mapspec.am_clock a !! n) → (ex_name, ex_key) ∉ mapspec.am_locks a →
  let raw := mapspec.value_at (mapspec.owner_node ex_config ex_owner) a ex_name ex_key in
  raw = None ∨ (∃ i, raw = Some (storage.pos_bytes (encode (GoInt i)))) →
  mapspec.counted (V := go_value) opr delta raw = inr (z, data) → len data ≤ 100 →
  ex_legal a (mapspec.OIncrDecr n ex_name ex_key opr delta).
Proof.
  intros Hn HL raw Hraw Hc Hlen. split; [apply ex_callable; auto|]. split; [done|]. fold raw. split.
  - intros bs v. destruct Hraw as [-> |[i ->]]; [done|]. intros <-%(inj Some).
    intros Hv. assert (sMarshal (V := go_value) (GoInt i) = inr (storage.pos_bytes (encode (GoInt i)))) as Hm by done.
    rewrite (sUnmarshal_sMarshal _ _ Hm) in Hv. by simplify_eq.
  - intros z' data' Hc'. rewrite Hc in Hc'. simplify_eq. by apply ex_storable; [left|].
Qed.

Definition ex_clock : gmap (list byte) Z := currentUnixNano <$> nodes ex_cluster.

Lemma ex_legal_program :
  mapspec.legal_run (V := go_value) ex_config ex_owner ex_K (mapspec.mkAmap ∅ ex_clock ∅) ex_program.
Proof.
  split; [apply ex_legal_put; [by eexists|by left|done]|].
  split; [apply ex_legal_get; [by eexists|by left]|].
  split; [split; [by eexists|]; intros key [_ Hk] _; by destruct Hk as [-> | ->]|].
  split; [apply ex_legal_delete; [by eexists|by left|reflexivity]|].
  split; [apply ex_legal_get; [by eexists|by left]|].
  split; [apply ex_legal_put; [by eexists|by right|done]|].
  split; [apply ex_legal_get; [by eexists|by right]|].
  split; [by eexists|].
  split; [apply ex_legal_get; [by eexists|by right]|].
  split; [split; [apply ex_callable; [by eexists|by left]|split; [done|set_solver]]|].
  split; [apply ex_callable; [by eexists|by left]|].
  split; [apply ex_callable; [by eexists|by left]|].
  split; [split; [apply ex_callable; [by eexists|by left]|split; [done|set_solver]]|].
  split; [split; [by eexists|split; [by split; [|left]|set_solver]]|].
  split; [apply ex_callable; [by eexists|by left]|].
  split; [eapply (ex_legal_incr _ _ _ _ 5); [by eexists|set_solver|by left|reflexivity|done]|].
  split; [eapply (ex_legal_incr _ _ _ _ (-2)); [by eexists|set_solver|right; by exists 5|reflexivity|done]|].
  split; [split; [apply ex_callable; [by eexists|by left]|];
    split; [set_solver|split; [by apply ex_storable; [left|]|done]]|].
  done.
Qed.

Lemma cluster_refines_witness :
  ∃ c', mapspec.exec_run (V := go_value) ex_config ex_owner (ex_serve 2) ex_program ex_cluster = Return (ex_replies, c').
Proof.
  destruct (mapspec.cluster_refines_map (V := go_value) ex_config ex_owner ex_bowners ex_K 0
    ex_program ex_cluster) as (c' & Hrun & _).
  - intros name k1 k2 [-> H1] [_ H2] E. destruct H1 as [-> | ->], H2 as [-> | ->]; done.
  - split; [by right|done|done].
  - apply ex_settled.
  - intros n db Hn. apply ex_lookup in Hn as (h & -> & -> & _). split; [done|].
    split; [intros; apply ex_view|]. intros i name. unfold locker_at. by rewrite ex_ref.
  - exact ex_legal_program.
  - exists c'. rewrite Hrun. reflexivity.
Defined.

(** ** Locks and atomic operations *)
Abbreviation ex_h := (getHKey ex_name ex_key).

Lemma ex_unlocked : unlocked (ex_node alice) (pid ex_config ex_h) ex_name ex_key.
Proof.
  exists locker.newLocker. split; [|done]. unfold locker_at. by rewrite ex_ref.
Qed.

Lemma Lock_excludes_witness :
  ∃ c1, lockWithTimeout (ex_serve 1) (Name bob) ex_name ex_key minute ex_cluster = Return (None, c1)
    ∧ lockWithTimeout (ex_serve 1) (Name alice) ex_name ex_key minute c1 = Running.
Proof.
  destruct (Lock_excludes (V := go_value) ex_config ex_owner ex_bowners 0 (Name bob) (Name alice)
    (ex_node bob) (ex_node alice) (ex_node alice) ex_cluster ex_name ex_key minute minute
    ex_settled ex_bob ex_alice ex_alice ltac:(done) ltac:(done)
    (ex_fits_nil _ (or_introl eq_refl)) ex_unlocked)
    as (_ & a & c1 & Hlock & _ & _ & _ & Hblock & _).
  exists c1. split; [exact Hlock|exact Hblock].
Defined.

Lemma ex_atomic_ready value :
  small value → atomic_ready ex_config ex_bowners ex_cluster (ex_node alice) ex_h ex_name ex_key value.
Proof. intros Hv. split; [apply ex_unlocked|apply ex_get_fits|by apply ex_ready_of]. Qed.

Lemma ex_get_answer :
  get_answer ex_config ex_bowners ex_cluster (ex_node alice) ex_h ex_name = None.
Proof.
  unfold get_answer. rewrite ex_view, lookup_empty. unfold ex_bowners. cbn [omap list_omap].
  unfold backup_answer. by rewrite ex_bob, ex_view.
Qed.


Lemma GetPut_witness :
  ∃ c', getPut (ex_serve 2) (Name bob) ex_name ex_key ex_value ex_cluster = Return (inr None, c').
Proof.
  destruct (GetPut_correct (V := go_value) ex_config ex_owner ex_bowners 0 (Name bob)
    (ex_node bob) (ex_node alice) ex_cluster ex_name ex_key ex_value ex_settled ex_bob ex_alice
    (ex_atomic_ready ex_value ltac:(done))) as (c' & Hrun & _); [by rewrite ex_get_answer|].
  exists c'. rewrite ex_get_answer in Hrun. exact Hrun.
Defined.

(** ** The client *)
Definition ex_client : client.Config := client.mkClientConfig [Name alice; Name bob] 1.
Definition ex_data : list byte := storage.pos_bytes (encode (GoBytes ex_value)).

Lemma ex_marshal : sMarshal (GoBytes ex_value) = inr ex_data.
Proof. reflexivity. Qed.

Lemma ex_reaches (i : nat) value :
  i = 0%nat ∨ i = 1%nat → small value →
  clientspec.reaches ex_client i (if decide (i = 0%nat) then Name alice else Name bob)
    ex_name ex_key value ex_cluster.
Proof.
  intros Hi Hv. split; [by destruct Hi as [-> | ->]|done|].
  destruct Hi as [-> | ->]; simpl; [exists (ex_node alice)|exists (ex_node bob)].
  - split; [apply ex_alice|]. by apply ex_fits; [left|].
  - split; [apply ex_bob|]. by apply ex_fits; [left|].
Qed.

Lemma Client_Put_then_Get_witness :
  ∃ c1 c2, client.Put (ex_serve 3) ex_client 1 ex_name ex_key (GoBytes ex_value) ex_cluster = Return (None, c1)
    ∧ client.Get (ex_serve 3) ex_client 0 ex_name ex_key c1 = Return (inr (GoBytes ex_value), c2).
Proof.
  destruct (clientspec.Client_Put_then_Get (V := go_value) ex_client ex_config ex_owner ex_bowners 0 1 0
    (Name bob) (Name alice) (ex_node bob) (ex_node alice) (ex_node alice) ex_cluster ex_name ex_key
    (GoBytes ex_value) ex_data ex_settled ex_bob ex_alice ex_alice eq_refl eq_refl ex_marshal
    (ex_ready_of ex_data 0 ltac:(by vm_compute) ltac:(done) ltac:(done)) ltac:(by vm_compute))
    as (c1 & c2 & Hput & Hget & _).
  exists c1, c2. split; [exact Hput|exact Hget].
Defined.


Definition ex_one : list byte := storage.pos_bytes (encode (GoInt 1)).
Lemma ex_marshal_one : sMarshal (v_int (V := go_value) 1) = inr ex_one.
Proof. reflexivity. Qed.

(** A node that has not been bootstrapped in time. *)
Definition late_cluster : cluster storage.Storage unit :=
  with_node (Name alice) (set_bcx BootDeadlineExceeded (ex_node alice)) ex_cluster.

Lemma Client_hides_errors_witness :
  client.Put (ex_serve 1) ex_client 0 ex_name ex_key (GoBytes ex_value) late_cluster
  = Return (None, late_cluster)
  ∧ client.Incr (V := go_value) (ex_serve 1) ex_client 0 ex_name ex_key 1 late_cluster = Panic.
Proof.
  assert (nodes late_cluster !! Name alice = Some (set_bcx BootDeadlineExceeded (ex_node alice))) as Hn
    by apply with_node_lookup.
  assert (∀ value, small value → clientspec.reaches ex_client 0 (Name alice) ex_name ex_key value late_cluster)
    as Hre.
  { intros value Hv. split; [done|done|]. eexists. split; [exact Hn|]. by apply ex_fits; [left|]. }
  pose proof (Hre ex_data ltac:(by vm_compute)) as H1.
  pose proof (Hre ex_one ltac:(by vm_compute)) as H2.
  destruct (clientspec.Client_hides_errors (V := go_value) ex_client 0 0 (Name alice)
    (set_bcx BootDeadlineExceeded (ex_node alice)) late_cluster ex_name ex_key (GoBytes ex_value)
    ex_data 0 1 ex_one Hn eq_refl ex_marshal H1 ex_marshal_one H2) as (Hput & _ & Hincr).
  - clear. unfold in_int64. lia.
  - intros u z. vm_compute. done.
  - split; [exact Hput|exact Hincr].
Defined.

(** ** Connections *)
Abbreviation ex_M := (olric.M storage.Storage unit).

(** A server that answers every request with its key. *)
Definition echo (n : list byte) (req : Message) : ex_M (option Message) :=
  mret (Some (with_value (protocol.Key req) (protocol.Success req))).

Definition ex_limit (z : Z) : ex_M Z := mret z.
Definition ex_out : Message := outgoing protocol.OpExGet None ex_name ex_key [].
Definition ex_in : Message := incoming protocol.OpExGet None None ex_name ex_key [].

Lemma ex_out_sizes : protocol.sizes_ok (MaxValueSize ex_config) ex_out.
Proof. repeat split; by vm_compute. Qed.

Lemma connection_in_order_witness :
  transport.conn_loop echo 3 (Name alice)
    (concat [protocol.wire ex_out; protocol.wire ex_out] ++ take 5 (protocol.wire ex_out)) [] ex_cluster
  = Return (take 5 (protocol.wire ex_out),
      concat (map protocol.wire [with_value ex_key (protocol.Success ex_in);
                                 with_value ex_key (protocol.Success ex_in)]), true, ex_cluster).
Proof.
  assert (∀ rest, protocol.Read (MaxValueSize (config (ex_node alice))) protocol.zero_message
    (protocol.wire ex_out ++ rest) transport.IOWait = Return (ex_in, None, rest)) as Hread.
  { intros rest. by apply read_outgoing_rest; [apply ex_fits_nil; left|..]. }
  apply (tspec.connection_answers_in_order echo 3 (Name alice) ex_cluster
    [protocol.wire ex_out; protocol.wire ex_out] _ ex_cluster (ex_node alice) ex_out 5).
  - econstructor; [apply ex_alice|apply Hread|reflexivity|].
    econstructor; [apply ex_alice|apply Hread|reflexivity|]. constructor.
  - apply ex_alice.
  - apply ex_out_sizes.
  - by left.
  - vm_compute. lia.
  - simpl. lia.
Defined.

Definition ex_transport : transport.Client :=
  transport.mkClient (transport.mkClientConfig [Name alice] 1 2) ∅.

Lemma pooled_request_witness :
  ∃ cl' resp, transport.RequestTo echo 2 (ex_limit 100) (Name alice) protocol.OpExGet
      (request None ex_name ex_key []) ex_transport ex_cluster = Return (cl', inr resp, ex_cluster)
    ∧ RequestTo echo (ex_limit 100) (Name alice) protocol.OpExGet (request None ex_name ex_key []) ex_cluster
      = Return (inr resp, ex_cluster).
Proof.
  destruct (tspec.pooled_request_is_fresh echo 0 (ex_limit 100) (Name alice) protocol.OpExGet None None
    ex_name ex_key [] ex_cluster ex_cluster ex_transport (ex_node alice) (ex_node alice) 100
    (with_value ex_key (protocol.Success ex_in))) as (cl' & Hrun & _ & Hfresh).
  - by split.
  - done.
  - apply ex_alice.
  - apply ex_alice.
  - by apply ex_fits_nil; left.
  - done.
  - done.
  - done.
  - done.
  - by apply value_ok.
  - exists cl', (protocol.written (with_value ex_key (protocol.Success ex_in))).
    split; [exact Hrun|exact Hfresh].
Defined.

(** The server of the first node has been restarted since the last request. *)
Definition ex_dead : transport.Client :=
  transport.mkClient (transport.mkClientConfig [Name alice] 1 2)
    {[Name alice := transport.mkPool (Some [transport.mkConn [] [] false]) 2]}.

Lemma dead_connection_witness :
  transport.RequestTo echo 2 (ex_limit 100) (Name alice) protocol.OpExGet
    (request None ex_name ex_key []) ex_dead ex_cluster
  = Return (ex_dead, inl protocol.IOEOF, ex_cluster).
Proof.
  destruct (tspec.dead_connection_stays_in_the_pool echo 2 (ex_limit 100) (Name alice) protocol.OpExGet
    None None ex_name ex_key [] ex_cluster ex_cluster ex_dead
    (transport.mkPool (Some [transport.mkConn [] [] false]) 2) []
    (ex_node alice) (ex_node alice) 100 100 (with_value ex_key (protocol.Success ex_in)))
    as [Hrun _]; try done; try apply ex_alice.
Defined.

(** A server whose value for a key is the encoding of a response. *)
Definition ex_forged : Message := protocol.Error ex_in protocol.StatusKeyNotFound [].
Definition ex_big : list byte := protocol.wire ex_forged ++ ex_value.
Definition trap (n : list byte) (req : Message) : ex_M (option Message) :=
  mret (Some (with_value ex_big (protocol.Success req))).

Lemma big_value_forges_witness :
  ∃ cl1 cl2,
    transport.RequestTo trap 2 (ex_limit 10) (Name alice) protocol.OpExGet (request None ex_name ex_key [])
      (transport.mkClient (transport.mkClientConfig [Name alice] 0 1) ∅) ex_cluster
    = Return (cl1, inl protocol.ErrValueTooBig, ex_cluster)
    ∧ transport.RequestTo trap 2 (ex_limit 10) (Name alice) protocol.OpExGet
        (request None ex_name ex_key' []) cl1 ex_cluster
      = Return (cl2, inr (protocol.written ex_forged), ex_cluster).
Proof.
  apply (tspec.big_value_forges_the_next_response trap 0 (ex_limit 10) (Name alice)
    (transport.mkClientConfig [Name alice] 0 1) 10 ex_cluster ex_cluster ex_cluster
    (ex_node alice) (ex_node alice) (ex_node alice) protocol.OpExGet None None ex_name ex_key []
    ex_in ex_big ex_value protocol.OpExGet None None ex_name ex_key' []
    (with_value ex_big (protocol.Success (incoming protocol.OpExGet None None ex_name ex_key' [])))
    ex_forged); try done; try apply ex_alice.
Defined.

(** ** The routing table *)

(** The members as another node lists them. *)
Definition ex_node_rev : node :=
  let db := ex_node bob in
  mkOlric (this db) (config db) (rev ex_members) (ring db) (partitions db) (backups db)
    (heap db) (snapshot db) (bcx db) (currentUnixNano db).

Lemma ex_getMembers : getMembers (ex_node alice) = [alice; bob].
Proof. vm_compute. reflexivity. Qed.

Lemma coordinator_agreed_witness :
  ∃ h, getCoordinator (ex_node alice) = Return h ∧ getCoordinator ex_node_rev = Return h.
Proof.
  destruct (coordinator_agreed (ex_node alice) ex_node_rev) as (h & H1 & H2 & _).
  - symmetry. apply Permutation_rev.
  - done.
  - rewrite ex_getMembers. intros h h' Hh Hh' Hb. rewrite !elem_of_cons in Hh, Hh'.
    destruct Hh as [->|[->|Hh]], Hh' as [->|[->|Hh']]; try done;
      first [by apply not_elem_of_nil in Hh|by apply not_elem_of_nil in Hh'].
  - exists h. split; [exact H1|exact H2].
Defined.

Lemma calcMaxBackupCount_witness : 0 ≤ calcMaxBackupCount 2 2 < 2.
Proof. apply (calcMaxBackupCount_bounds 2 2); lia. Defined.

Definition ex_sv := dispatch.serve (S := storage.Storage) (N := unit) (V := go_value) 2.

Lemma ex_askable bk i : 0 ≤ i < 2 → askable ex_cluster (Name alice) bk i.
Proof.
  intros Hi. split.
  - done.
  - split; lia.
  - intros db Hdb. rewrite ex_alice in Hdb. by injection Hdb as <-.
  - intros m db Hm. apply ex_lookup in Hm as (h & _ & -> & _). rewrite ex_table, decide_True by lia.
    by eexists.
  - intros m db Hm. apply ex_lookup in Hm as (h & _ & -> & _). done.
Qed.

Lemma distributePrimaryCopies_witness :
  ∃ c', distributePrimaryCopies (ex_serve 1) (Name alice) 0 ∅ ex_cluster
        = Return (<[0 := mkRoute [alice] []]> ∅, c').
Proof.
  eexists. rewrite (distributePrimaryCopies_correct 0 (Name alice) 0 ∅ ex_cluster (ex_node alice)
    (ex_part false 0) alice ex_alice).
  - reflexivity.
  - apply ex_askable. lia.
  - reflexivity.
  - reflexivity.
  - vm_compute. reflexivity.
  - vm_compute. reflexivity.
  - apply NoDup_singleton.
Defined.

Lemma distributeBackups_witness :
  ∃ c', distributeBackups (ex_serve 1) (Name alice) 0 ∅ 1 ex_cluster
        = Return (<[0 := mkRoute [] [bob]]> ∅, c').
Proof.
  eexists. rewrite (distributeBackups_correct 0 (Name alice) 0 ∅ ex_cluster (ex_node alice)
    (ex_part true 0) [bob] 1 ex_alice).
  - reflexivity.
  - apply ex_askable. lia.
  - reflexivity.
  - reflexivity.
  - vm_compute. reflexivity.
  - reflexivity.
  - apply NoDup_singleton.
  - constructor; [vm_compute; reflexivity|constructor].
  - apply NoDup_singleton.
Defined.

(** A coordinator that has lost a member which is still on its ring. *)
Definition ex_lonely : node :=
  let db := ex_node alice in
  mkOlric (this db) (config db) [mkNode (Name alice) (meta alice)] (ring db) (partitions db)
    (backups db) (heap db) (snapshot db) (bcx db) (currentUnixNano db).

Lemma distributeBackups_panics_witness :
  distributeBackups ex_sv (Name alice) 0 ∅ 1 (mkCluster {[Name alice := ex_lonely]} [] []) = Panic.
Proof.
  apply (distributeBackups_panics _ _ _ _ _ ex_lonely (ex_part true 0) [bob]).
  - apply lookup_singleton_eq.
  - done.
  - done.
  - done.
  - vm_compute. reflexivity.
Defined.

Definition ex_routing : gmap Z route := {[0 := mkRoute [bob] [alice]]}.
Definition ex_update : Message :=
  request None [] [] (storage.pos_bytes (encode ex_routing)).

Lemma updateRouting_witness :
  ∃ db' c', updateRoutingOperation (Name bob) ex_update ex_cluster
      = Return (protocol.Success ex_update, c')
    ∧ nodes c' = <[Name bob := db']> (nodes ex_cluster)
    ∧ p_owners <$> partitions db' !! 0 = Some [bob].
Proof.
  destruct (updateRouting_installs (Name bob) ex_cluster (ex_node bob) ex_update ex_routing ex_bob
    (ex_node_wf bob)) as (db' & c' & Hrun & Hnodes & _ & _ & _ & _ & _ & Hin & _).
  - by apply Unmarshal_Marshal.
  - intros i Hi. unfold ex_routing in Hi. apply lookup_singleton_is_Some in Hi as <-. simpl. lia.
  - exists db', c'. split; [exact Hrun|]. split; [exact Hnodes|].
    apply (proj1 (Hin 0 (mkRoute [bob] [alice]) (lookup_singleton_eq _ _))).
Defined.

(** An exported storage, without bindings. *)
Definition ex_storage : storage.Storage :=
  storage.mkStorage [storage.empty_table (2 ^ 20)] 0 0 false.
Definition ex_payload : list byte :=
  storage.pos_bytes (encode (storage.mkTransport ∅ [x00] 0 (2 ^ 20) 0 0)).

Lemma ex_storage_wf : storage.wf ex_storage.
Proof.
  split; [done|]. simpl. constructor; [|done]. by apply storage.wf_empty_table.
Qed.

Lemma moved_map_is_not_counted_witness :
  ∃ db', mergeDMaps (Name alice) false 0 (mkDmapbox 0 ex_name ex_payload) ex_cluster
      = Return (None, with_node (Name alice) db' ex_cluster)
    ∧ view db' false 0 ex_name = storage.contents ex_storage.
Proof.
  destruct (moved_map_is_not_counted (Name alice) ex_cluster (ex_node alice) (ex_part false 0) ex_name
    ex_storage ex_payload (request (Some (protocol.IsPartEmptyExtra 0)) [] [] [])
    ex_alice (ex_node_wf alice) eq_refl eq_refl eq_refl ex_storage_wf eq_refl eq_refl)
    as (db' & Hrun & Hview & _).
  exists db'. split; [exact Hrun|exact Hview].
Defined.

(** A node with snapshots and without backups. *)
Definition snap_config : Config := mkConfig 1 0 SyncBackupMode OpInMemoryWithSnapshot (2 ^ 20)
  DefaultLoadFactor.
Definition snap_node : node :=
  set_bcx BootCanceled (set_part false (ex_part false 0)
    (joined alice [] (ring_of snap_config [alice]) (fresh_node snap_config))).

Lemma moved_map_crashes_witness :
  ∃ c', mergeDMaps (Name alice) false 0 (mkDmapbox 0 ex_name ex_payload)
          (mkCluster {[Name alice := snap_node]} [] []) = Return (None, c')
    ∧ putKeyVal ex_sv (Name alice) (getHKey ex_name ex_key) ex_name ex_key ex_value 0 c' = Panic.
Proof.
  apply (moved_map_crashes_on_put ex_sv (Name alice) _ snap_node (ex_part false 0) ex_name ex_key ex_value 0
    ex_storage ex_payload); try done.
  - apply ex_storage_wf.
  - intros s' [Hne _]. split; [done|]. destruct (last (storage.tables s')) as [t|] eqn:Hl.
    + change (table.entry_size _) with 24. change table.minimumSize with 1048576. lia.
    + by apply last_None in Hl.
Defined.
End spec_examples.
