(* ===== verification/RebalanceExample.v ===== *)
(** A concrete run while a partition moves: the first node still holds a key, the second has
    become the owner. *)

From S2P Require Export RebalanceSpec MoveExample SpecExamples.

Module rebalance_example.
Export rebalance move_example spec_examples.

(** A key is read from its previous owner; another one is put with a timeout; the maps move;
    the first key is read and deleted; the other one expires and is put again. *)
Definition rb_program : list moment :=
  [At (TGet (Name bob) ex_name ex_key);
   At (TPut (Name alice) ex_name ex_other ex_value 5000000);
   At (TFsck (Name alice));
   At (TMerge (Name bob) false 0 ex_name);
   At (TGet (Name alice) ex_name ex_key);
   At (TGet (Name alice) ex_name ex_other);
   At (TDelete (Name bob) ex_name ex_key);
   Tick 5000000;
   At (TGet (Name alice) ex_name ex_other);
   At (TPut (Name bob) ex_name ex_other (text "new") 0);
   At (TGet (Name bob) ex_name ex_key);
   At (TGet (Name alice) ex_name ex_other)].

Definition rb_replies : list reply :=
  [RValue (inr ex_value); RDone None; RDone None; RDone None; RValue (inr ex_value);
   RValue (inr ex_value); RDone None; RDone None; RValue (inl OErrKeyNotFound); RDone None;
   RValue (inl OErrKeyNotFound); RValue (inr (text "new"))].

Definition rb_map : gmap (list byte * list byte) entry :=
  {[(ex_name, ex_key) := mkEntry ex_value 0 false]}.

(** The cluster after an event. *)
Definition after (c : cluster storage.Storage unit) (o : moment) : cluster storage.Storage unit :=
  match texec (V := go_value) 0 o c with Return (_, c) => c | _ => c end.

Lemma after_run (c c' : cluster storage.Storage unit) o r :
  texec (V := go_value) 0 o c = Return (r, c') → c' = after c o.
Proof. intros Hrun. unfold after. by rewrite Hrun. Qed.

(** The first node is as it was before the check. *)
Definition rb_moving : cluster storage.Storage unit := foldl after mv_cluster (take 2 rb_program).

Lemma rb_alice : nodes rb_moving !! Name alice = Some mv_alice.
Proof. vm_compute. reflexivity. Qed.

Lemma rb_ready : fsck_ready mv_config (Name alice) rb_moving.
Proof.
  exists mv_alice. split; [exact rb_alice|]. split; [|exact mv_idle]. intros j Hj o Ho.
  destruct (mv_can_leave j Hj o Ho) as (Hno & _ & Hsd). split; [done|]. split; [|done].
  assert (o = bob) as -> by (simpl in Hj; assert (j = 0) as -> by lia; rewrite mv_leaving in Ho; by injection Ho).
  apply (bool_decide_unpack _). vm_compute. exact I.
Qed.

Lemma rb_callable (c : cluster storage.Storage unit) n key :
  is_Some (nodes c !! n) → key = ex_key ∨ key = ex_other → tcallable mv_config ex_K c n ex_name key.
Proof.
  intros Hn Hk. split; [done|]. split; [done|].
  by destruct Hk as [-> | ->]; apply (bool_decide_unpack _); vm_compute.
Qed.

Ltac rb_up := apply (bool_decide_unpack _); vm_compute; exact I.

Lemma rb_legal : tlegal_run (V := go_value) mv_config ex_K 0 (0, rb_map) mv_cluster rb_program.
Proof.
  split; [apply rb_callable; [rb_up|by left]|intros r c' ->%after_run].
  split; [split; [apply rb_callable; [rb_up|by right]|split; [done|by apply ex_storable; [right|]]]|].
  intros r2 c' ->%after_run. split; [exact rb_ready|]. intros r3 c' ->%after_run.
  split; [split; [rb_up|intros key [_ [-> | ->]] _; done]|intros r3' c' ->%after_run].
  split; [apply rb_callable; [rb_up|by left]|intros r4 c' ->%after_run].
  split; [apply rb_callable; [rb_up|by right]|intros r5 c' ->%after_run].
  split; [split; [apply rb_callable; [rb_up|by left]|reflexivity]|intros r6 c' ->%after_run].
  split; [done|intros r7 c' ->%after_run].
  split; [apply rb_callable; [rb_up|by right]|intros r8 c' ->%after_run].
  split; [split; [apply rb_callable; [rb_up|by right]|split; [done|by apply ex_storable; [right|]]]|].
  intros r9 c' ->%after_run. split; [apply rb_callable; [rb_up|by left]|intros r10 c' ->%after_run].
  split; [apply rb_callable; [rb_up|by right]|done].
Qed.

Lemma rb_single h : kv_single mv_store h.
Proof.
  destruct (kv_put_ok mv_empty mv_hkey mv_vdata mv_empty_wf) as (s & Hs & _ & _ & Hsg).
  { apply kv_small_room; [apply mv_empty_wf|apply mv_small]. }
  unfold mv_store. rewrite Hs. apply Hsg; [by apply kv_absent_single|by right].
Qed.

Lemma rb_start : rebalances mv_config mv_prevs mv_owner 0 ex_K rb_map mv_cluster.
Proof.
  split; [exact mv_transit|]. intros name key [-> Hk].
  assert (pid mv_config (getHKey ex_name key) = 0) as Hp by by destruct Hk as [-> | ->].
  assert (∀ b, held_at mv_config mv_cluster (getHKey ex_name key) ex_name b
    = if decide (Name b = Name alice) then ({[mv_hkey := mv_vdata]} : gmap Z VData) !! getHKey ex_name key else None) as Hat.
  { intros b. unfold held_at. rewrite Hp. case_decide as E.
    - rewrite E, mv_at_alice. simpl. by rewrite mv_alice_view.
    - destruct (nodes mv_cluster !! Name b) as [db|] eqn:Hn; [|done].
      apply mv_lookup in Hn as [[? _]|[_ ->]]; [done|]. simpl. by rewrite mv_bob_view. }
  assert (∀ n db, nodes mv_cluster !! n = Some db → view_single db false 0 ex_name (getHKey ex_name key)) as Hs.
  { intros n db [[-> ->]|[-> ->]]%mv_lookup; unfold view_single; [|by rewrite mv_bob_ref].
    destruct (ref mv_alice false 0 ex_name) as [a|] eqn:Hr; [|done].
    destruct (mv_alice_ref _ _ _ _ Hr) as (_ & _ & _ & ->). apply rb_single. }
  split.
  - destruct Hk as [-> | ->].
    + exists alice. rewrite Hp. split; [by left|]. rewrite Hat. split; [reflexivity|].
      intros b' Hb' Hne. by rewrite Hat, decide_False.
    + assert (rb_map !! (ex_name, ex_other) = None) as -> by done. intros b _. rewrite Hat. by case_decide.
  - intros e'. destruct Hk as [-> | ->]; [|done]. intros [= <-]. split; vm_compute; done.
  - intros b db _ Hn. rewrite Hp. by eapply Hs.
  - intros db Hn _. rewrite Hp. by eapply Hs.
Qed.

Lemma rebalancing_refines_witness :
  ∃ c', texec_run (V := go_value) 0 rb_program mv_cluster = Return (rb_replies, c').
Proof.
  destruct (rebalancing_refines_map (V := go_value) mv_config mv_prevs mv_owner ex_K 0 rb_program
    (0, rb_map) mv_cluster) as (c' & Hrun & _).
  - intros name k1 k2 [-> H1] [_ H2] E. destruct H1 as [-> | ->], H2 as [-> | ->]; done.
  - split; [done|done|]. intros i _. apply (bool_decide_unpack _). vm_compute. exact I.
  - exact rb_start.
  - exact rb_legal.
  - exists c'. rewrite Hrun. reflexivity.
Defined.
End rebalance_example.
