(* ===== verification/CliExample.v ===== *)
(** The command line client on the cluster of [ClusterExample.v]. *)

From S2P Require Export CliSpec SpecExamples.

Module cli_example.
Export clispec spec_examples.

#[export] Program Instance ex_printing : Printing go_value := {
  v_string := GoBytes;
  show v := match v with
            | GoNil => text "<nil>"
            | GoEmptyStruct => text "{}"
            | GoInt i => text (pretty i)
            | GoBytes bs => bs
            end
}.
Next Obligation. done. Qed.

(** A client of the first node, as [New] makes it. *)
Definition ex_cli : CLI := mkCLI (Name alice) gobSerializer (client.mkClientConfig [Name alice] 1).

Example ex_cli_New : cli.New (Name alice) false (text "gob") (text "10s") = inr ex_cli.
Proof. reflexivity. Qed.

(** A flag on the command line overrides the default. *)
Example ex_main : cli.main [text "-s=gob"; text "--addr"; Name alice] = AStart ex_cli.
Proof. reflexivity. Qed.
Example ex_main_json : cli.main [text "-serializer"; text "xml"] = AFail (EText (text "invalid serializer: xml")).
Proof. reflexivity. Qed.

Lemma ex_trimmed : trimmed ex_value.
Proof. apply word_trimmed, (bool_decide_unpack _). vm_compute. exact I. Qed.

Lemma commands_make_calls_witness :
  command (V := go_value) (ex_serve 3) ex_cli ex_name (line [text "putex"; ex_key; text "1m"; ex_value])
  = prints ex_name (err ← client.PutEx (ex_serve 3) (cli_client ex_cli) 0 ex_name ex_key
                      (v_string ex_value) 60000000000;
                    mret (report (text "PutEx") ex_name ex_key err)).
Proof.
  destruct (commands_make_calls (V := go_value) (ex_serve 3) ex_cli ex_name ex_key ex_value)
    as (_ & H & _).
  - done.
  - apply (bool_decide_unpack _). vm_compute. exact I.
  - exact ex_trimmed.
  - apply H.
    + apply (bool_decide_unpack _). vm_compute. exact I.
    + apply (bool_decide_unpack _). vm_compute. exact I.
    + vm_compute. reflexivity.
Defined.

Lemma put_damages_keys_witness :
  command (V := go_value) (ex_serve 3) ex_cli ex_name
    (line [text "put"; [quote] ++ ex_key ++ [quote]; ex_value])
  = prints ex_name (err ← client.Put (ex_serve 3) (cli_client ex_cli) 0 ex_name [] (v_string []);
                    mret (report (text "Put") ex_name [] err)).
Proof.
  apply (proj2 (put_damages_keys (V := go_value) (ex_serve 3) ex_cli ex_name [] ex_key ex_value
    ltac:(done) ltac:(apply (bool_decide_unpack _); vm_compute; exact I) ex_trimmed)).
  apply (bool_decide_unpack _). vm_compute. exact I.
Defined.

Lemma cli_session_witness :
  ∃ c', cli.Start (V := go_value) (ex_serve 3) ex_cli (text "/root") None
      [ELine (text "use mymap"); ELine (text "put key-ab value"); ELine (text "get key-ab"); EEOF] ex_cluster
    = Return (text "use mymap" ++ newline ++ text "OK" ++ newline ++ text "value" ++ newline, None, c').
Proof.
  apply (cli_session (V := go_value) ex_config ex_owner ex_bowners 0 ex_cli (text "/root") (ex_node alice)
    (ex_node alice) ex_cluster ex_name ex_key ex_value ex_data ex_settled ex_alice ex_alice eq_refl).
  - discriminate.
  - apply (bool_decide_unpack _). vm_compute. exact I.
  - apply (bool_decide_unpack _). vm_compute. exact I.
  - vm_compute. reflexivity.
  - apply (bool_decide_unpack _). vm_compute. exact I.
  - apply (bool_decide_unpack _). vm_compute. exact I.
  - apply (bool_decide_unpack _). vm_compute. exact I.
  - exact ex_trimmed.
  - exact ex_marshal.
  - exact (ex_ready_of ex_data 0 ltac:(by vm_compute) ltac:(done) ltac:(done)).
  - by vm_compute.
Defined.
End cli_example.
